(* ===== verification/_CoqProject ===== *)
-Q . S2P
Prelude.v
Mutex.v
Status.v
Message.v
Transport.v
InMemoryTransport.v
InMemoryThreads.v
Codec.v
Messenger.v
QueueTransport.v
CharConv.v
Protocol.v
TaskStore.v
Config.v
QOffloadConfig.v
ResourceRegistry.v
Forward.v
ControlProtocol.v
RestControlProtocol.v
Control.v
RabbitMqSimpleTransport.v
RabbitMqThreads.v
RabbitMqQueues.v
Service.v
ServiceTypes.v
Workers.v
ServiceRuns.v
ServiceNet.v
ServiceFaults.v
ServiceLife.v
Cxx.v
Consumer.v
QOffloadMain.v
QdmiCommon.v
QrmConfig.v
Circuits.v
QrmCompiler.v
QrmSubmitter.v
QrmWorkflow.v
QrmPipeline.v
QrmFaults.v
Stack.v
StackNet.v
