(* ===== verification/Prelude.v ===== *)
(** * MQSS integration framework: verification development

    The repository is a C++ framework for exchanging typed messages between the
    components of a quantum software stack, with two example systems built on
    it.  This development models the framework and both examples and proves
    what makes them correct.  Paths below are relative to the repository root.

    ** The program and where it is modelled

    Framework (include/mqss, src/transport):
    - [Status]: status codes, the factories and [Result] (Status.hpp).
    - [Message]: envelopes, messages, their completion handlers and what becomes
      of these when a message is destroyed (Message.hpp).
    - [Transport]: feature sets, arguments, and the interface as type classes:
      [Transport] (the operations), [TransportContract] (the documented errors),
      [FifoTransport] (ordered, loss-free delivery to an undisturbed caller).
    - [InMemoryTransport]: the in-memory backend as seen by one thread; what the
      other threads do while it waits is an input.  It is an instance of the two
      classes.
    - [InMemoryThreads]: the same backend for any number of threads: the
      critical sections, the condition variable and its notifications as a step
      relation on a program counter per thread.
    - [RabbitMqSimpleTransport]: the RabbitMQ backend over the client library, a
      class of operations that may throw, on a world with a clock.
    - [Mutex]: a critical section shared by threads, for any resource and body;
      [RabbitMqThreads]: the two of the RabbitMQ backend, [send] under [send_mu]
      and the completion handlers of a message under [mu].
    - [RabbitMqQueues]: what sends and receives do to the queues of a broker,
      from laws that AMQP 0-9-1 and the client document: conversations on a
      queue, backlogs, and messages that are destroyed unacknowledged.
    - [Codec]: the codec interface, the two Protobuf codecs and their laws.
    - [Messenger]: typed send and receive over any transport and codec.
    - [QueueTransport]: the weaker interface of several clients on the queues of
      several brokers, on which the systems below are composed, and
      [FaultyQueues], what still holds when calls fail; the in-memory backend
      and any number of RabbitMQ backends are instances of both.
    - [CharConv], [Config]: [std::from_chars], [std::to_string] and the double
      comparisons the program uses; environment lookups, sequences of settings,
      the process-wide storage (Config.hpp).
    - [Protocol]: the message types of protocol/proto/v1/messages.proto.

    QOffload service (examples/qoffload_service): client tasks are renumbered and
    forwarded, results are correlated and returned, and control requests (typed
    or REST-like) create tasks and query them.
    - [QOffloadConfig]: configuration records, defaults, environment variables
      (Config.hpp) and the sinks of the logger (Logger.hpp).
    - [TaskStore]: pending and completed tasks (TaskStore.cpp), with the abstract
      specification, one map of task phases, and the refinement.
    - [ResourceRegistry]: the resource table (ResourceRegistry.hpp).
    - [Forward]: identifiers, forwarding and correlation (Forward.cpp).
    - [ControlProtocol], [RestControlProtocol]: commands, results and the two
      adapters (src/control); [Control]: the command handlers (Control.cpp).
    - [Service]: the three worker threads (QOffload.cpp) as a step relation over
      the shared store: each store operation, identifier allocation and send is
      one step, and the steps of the workers interleave freely; [ServiceTypes]:
      the progress of each worker.
    - [Workers]: the loop bodies of the same threads as functions that receive
      and send messages over transports, and the loops.
    - [ServiceRuns], [ServiceNet]: both together: the workers interleaved, their
      messages travelling through queues; each receive and send of a loop is a
      step that changes the queues and is a step of [Service].  [ServiceRuns] is
      what their histories have in common wherever the messages come from.
    - [ServiceFaults]: the same when calls fail: receives that time out, fail or
      lose messages, sends reported failed, transports that are shut down.
    - [ServiceLife]: the worker threads with their stop tokens and the thread in
      [requestStop], interleaved around the steps of [ServiceFaults].
    - [QOffloadMain]: starting and stopping the workers (QOffload.cpp) and the
      process from its configuration to its exit code, with the signals that
      stop it (main.cpp).

    QRM workflow (examples/qrm_workflow): a daemon, a scheduler, a compiler and a
    submitter pass a task around.
    - [Cxx]: C++ calls that return, throw, abort or are undefined, as a monad.
    - [QrmConfig]: its configuration (Config.cpp) and the start of each process:
      logger (Logger.hpp) and messenger options.
    - [QdmiCommon]: names and property macros of common.hpp.
    - [Circuits]: the clean-up of circuit texts; [QrmCompiler]: lowering a file
      and compiling a task (Compiler.cpp), over the MLIR library.
    - [QrmSubmitter]: a job on a device (Submitter.cpp), over the QDMI library.
    - [QrmWorkflow]: one turn of each process, composed, and the [main] functions.
    - [QrmPipeline]: scheduler, compiler, submitter and any number of daemons at
      the same time, as interleaved receives, work and sends; [QrmFaults]: the
      same when polls and sends fail, and the [main] functions as runs of it.

    [Stack] puts the two systems together: QOffload with the workflow as its
    resource manager, one turn of each process after the other; [StackNet] lets
    the clients, the three workers ([ServiceNet]) and the three processes
    ([QrmPipeline]) run at once over one network of queues.

    [Consumer] is the third, one-file example (examples/mqss_consumer/main.cpp).

    ** What the theorems show

    - Delivery.  In memory, messages are delivered exactly once and in order
      under any interleaving, no wake-up is lost, a receiver whose message is
      there is never more than its own next two steps and one notification
      from returning it, whatever the schedule, unless another receiver takes
      the message, and shutdown is final.  A receive fails to return only without
      a timeout, a message and a shutdown; every branch of its result is
      determined.  Over RabbitMQ, receives return, failures of the client are
      reported as statuses, envelopes survive the message format and a message
      is completed at most once, also by several threads.  Concurrent sends are
      linearizable, share one channel and stop with the transport.  A queue is
      read in order and without duplicates, whatever calls fail, and without
      loss when the reader keeps its messages and acknowledges them by hand; the
      automatic acknowledgement the example systems use loses a backlog of any
      length behind the message returned; and a typed receive in the default
      mode, which destroys the message unacknowledged, returns the same one
      for ever.
    - Typed messages round trip over any transport and codec with the laws.
    - The task store implements its specification.  Direct tasks come back to
      their owners exactly once and with their own identifiers, control tasks
      can be fetched once and are never lost; sequentially ([Forward],
      [Control]), in any interleaving ([Service]), with the messages
      travelling over transports ([Workers]) and with both ([ServiceNet],
      [ServiceFaults]): there every answer belongs to a request whatever the
      resource manager does and whatever calls fail, no request is lost inside
      the service, and control requests are answered once each, in order.  The
      worker loops are runs of these steps, and return once told to stop; the
      workers are wait-free, and a received result is delivered.
    - Stopping the service ([ServiceLife]) ends within 21 steps of its threads,
      however many messages arrive and whatever calls fail, and leaves no
      received message half done.
    - The REST adapter accepts exactly the described requests; identifiers it
      hands out work in its paths; typed and REST requests agree.
    - Configuration: each field is overridden by its own variables, the first
      malformed value is reported; the process ends with the exit code that
      says so, and stops and joins every worker it started.
    - Width: identifiers are [uint64] inside and [int32] in messages; the
      theorems say when they are distinct, and show that those from 2^31 to
      2^64 - 2^31 - 1 are never correlated and that the others are.
    - A client's request passes through both systems and is answered, provided
      that QOffload's broker for results is the workflow's ([Stack]).  With
      everything running at once ([StackNet]) requests are answered at most
      once; when all is done and no step failed, each of them has been, and each
      control task has its result; and the whole comes to that point in a
      bounded number of steps unless the submitter ends.
    - The workflow returns to the daemon the histogram of the compiled circuit.
      With all processes running at once results come out in the order of the
      tasks, once each and in the right queues, whatever calls fail, and the
      work under way drains; the [main] functions are runs of these steps;
      other theorems show what happens when passes fail, gate definitions stand
      on one line, devices or counts are missing, and which number of shots a
      device gets to see.

    ** Conventions, bounds and fuel

    Integers are [Z] with the conversions of the program written out; strings
    are [string]; hash maps are [gmap]s, which is enough where the iteration
    order cannot be observed, and an arbitrary permutation is a parameter where
    it could be.  A call that may block returns an [option]: [None] is a call
    that has not returned, and the theorems on termination say when that is.
    The schedules that stand for other threads are finite; a transport's clock
    advances with every wait ([ConsumeClockLaws]), so one poll per nanosecond of
    the timeout is enough for a timed receive.  The splitting of paths recurses
    with the length of the text as fuel, which its theorem shows to be enough.
    The interleaving theorems on identifiers hold for runs of fewer than 2^60
    steps, below which 64-bit identifiers do not repeat; where an identifier has
    to come back in a message, for identifiers that survive [int32].  Time is a
    [Z] of nanoseconds: timeouts of some 292 years or more, with which the
    deadline would overflow the 64 bits of the clock, are not modelled.

    ** Parameters and what is not modelled

    Not in the repository, and therefore parameters with their documented laws:
    the Protobuf runtime and generated code, the RabbitMQ client, the MLIR
    passes, the QDMI client, spdlog, the file system and the clock.  Each group
    of laws has a concrete instance that satisfies it.  The laws of a broker
    ([RabbitMqQueues]) describe one that does not restart and queues without
    other readers.  The laws of the QDMI library ([QrmSubmitter]) are one per call
    and state of the session or job it is documented for, and say nothing of
    calls in other states; that a device accepts and runs a job is a hypothesis
    of the theorems, as is, for jobs with a number of shots, that the platform
    lets the eight bytes be read that the program has the library read at an
    [int].  Messages to be acknowledged by hand are destroyed by the typed
    receive; in the conversations of [RabbitMqQueues] they are kept.  Log output is left out except where a test could see it.
    The two systems run as one ([StackNet]) on transports whose calls succeed;
    each alone also on transports whose calls fail, where what other threads of
    a client do during a call is left out.  A client is the sends it makes.  The
    loops of the [main] functions have no exit; they are run for any given
    number of turns.  Which stop signal arrives is a parameter.  Not modelled:
    headers that only include others or give types a second name, the build,
    the deployment files and the tests. *)

From stdpp Require Export base option list functions gmap sets strings pretty.
From Stdlib Require Export Ascii ZArith Lia.

#[global] Open Scope Z_scope.
#[global] Open Scope list_scope.

(** ** Machine integers

    The program mixes [std::uint64_t] identifiers with the [int32] fields of
    the protobuf messages.  Integers are [Z]; the conversions of C++20 (modulo
    the width, two's complement for the signed types) are written out. *)

Definition to_uint64 (z : Z) : Z := z mod 18446744073709551616.
Definition to_uint32 (z : Z) : Z := z mod 4294967296.
Definition to_int32 (z : Z) : Z := (z + 2147483648) mod 4294967296 - 2147483648.

Definition is_uint64 (z : Z) : Prop := 0 <= z < 18446744073709551616.
Definition is_uint32 (z : Z) : Prop := 0 <= z < 4294967296.
Definition is_int32 (z : Z) : Prop := -2147483648 <= z < 2147483648.

#[global] Instance is_uint64_dec z : Decision (is_uint64 z).
Proof. unfold is_uint64. apply _. Defined.
#[global] Instance is_uint32_dec z : Decision (is_uint32 z).
Proof. unfold is_uint32. apply _. Defined.
#[global] Instance is_int32_dec z : Decision (is_int32 z).
Proof. unfold is_int32. apply _. Defined.

(** Linear arithmetic with the conversions unfolded. *)
Ltac wrap_lia :=
  unfold to_uint64, to_uint32, to_int32, is_uint64, is_uint32, is_int32 in *;
  Z.to_euclidean_division_equations; lia.

Lemma to_uint64_range z : is_uint64 (to_uint64 z).
Proof. wrap_lia. Qed.
Lemma to_int32_range z : is_int32 (to_int32 z).
Proof. wrap_lia. Qed.
Lemma to_uint64_id z : is_uint64 z → to_uint64 z = z.
Proof. intros ?. apply Z.mod_small. done. Qed.
Lemma to_int32_id z : is_int32 z → to_int32 z = z.
Proof. wrap_lia. Qed.
(** Widening an [int32] to [uint64] and narrowing it back is the identity. *)
Lemma to_int32_uint64 z : is_int32 z → to_int32 (to_uint64 z) = z.
Proof. wrap_lia. Qed.
(** Narrowing a [uint64] to [int32] and widening it back is the identity
    exactly on the non-negative [int32] values. *)
Lemma to_uint64_int32 z :
  is_uint64 z →
  to_uint64 (to_int32 z) = z ↔ (z < 2147483648 ∨ 18446744071562067968 <= z).
Proof. wrap_lia. Qed.

(** Two numbers agree modulo [m] when [m] divides their difference. *)
Lemma mod_eq_divide m a b : 0 < m → a mod m = b mod m ↔ (m | a - b).
Proof.
  intros Hm. split.
  - intros Heq. exists (a / m - b / m).
    pose proof (Z.div_mod a m). pose proof (Z.div_mod b m). nia.
  - intros [q Hq]. replace a with (b + q * m) by lia. by rewrite Z.mod_add by lia.
Qed.

(** ** Texts *)

#[global] Arguments String.append !_ _ / : simpl nomatch.

Lemma string_app_assoc (a b c : string) : (a +:+ b) +:+ c = a +:+ (b +:+ c).
Proof. induction a as [|x a IH]; simpl; [done|]. by rewrite IH. Qed.
Lemma string_app_nil_r (a : string) : a +:+ "" = a.
Proof. induction a as [|x a IH]; simpl; [done|]. by rewrite IH. Qed.
Lemma string_length_app (a b : string) :
  String.length (a +:+ b) = (String.length a + String.length b)%nat.
Proof. induction a as [|x a IH]; simpl; [done|]. by rewrite IH. Qed.

(** [m.emplace(key, value)]: no effect on a key that is present.  Copying a map
    entry by entry gives an equal map. *)
Definition emplace {A} (k : string) (v : A) (m : gmap string A) : gmap string A :=
  match m !! k with Some _ => m | None => <[k := v]> m end.

Lemma map_fold_emplace {A} (m : gmap string A) : map_fold emplace ∅ m = m.
Proof.
  apply (map_fold_weak_ind (λ r m, r = m)); [done|].
  intros k v m' r Hk ->. unfold emplace. by rewrite Hk.
Qed.

(** ** Lists *)

Lemma sublist_same_length {A} (l k : list A) :
  l `sublist_of` k → (length k <= length l)%nat → l = k.
Proof.
  induction 1 as [|x l k Hl IH|x l k Hl IH]; simpl; intros Hlen; [done| |].
  - f_equal. apply IH. lia.
  - apply sublist_length in Hl. lia.
Qed.

Lemma Forall_sublist {A} (P : A → Prop) l k : l `sublist_of` k → Forall P k → Forall P l.
Proof. rewrite !Forall_forall. intros Hl Hk x Hx. by apply Hk, (sublist_subseteq l). Qed.

Lemma list_fmap_of_bind {A B C} (f : B → C) (g : A → list B) l :
  f <$> (l ≫= g) = l ≫= λ x, f <$> g x.
Proof. induction l as [|x l IH]; csimpl; [done|]. by rewrite fmap_app, IH. Qed.

Lemma bind_snoc {A B} (g : A → list B) l x : (l ++ [x]) ≫= g = (l ≫= g) ++ g x.
Proof. rewrite bind_app. simpl. by rewrite app_nil_r. Qed.

(** ** Automation *)

Create HintDb mqss.
#[export] Hint Resolve to_uint64_range to_int32_range : mqss.
Create Rewrite HintDb mqss.
#[export] Hint Rewrite to_uint64_id to_int32_id to_int32_uint64
  using (wrap_lia || done) : mqss.

(** Break every [match] and [if] of the goal and simplify. *)
Ltac crush := repeat (case_match || case_decide); simplify_eq/=; auto with mqss.

(** Case analysis on [decide] and map lookups, as used by the map lemmas. *)
Ltac map_crush := repeat case_decide; simplify_map_eq; eauto with mqss.

(** ** Labelled runs of a transition system *)

Section Runs.
Context {S L : Type} (step : S → L → S → Prop).

(** [run s tr s']: from [s], the labels [tr] in order, to [s']. *)
Inductive run (s : S) : list L → S → Prop :=
  | run_nil : run s [] s
  | run_snoc tr s' l s'' :
      run s tr s' → step s' l s'' → run s (tr ++ [l]) s''.

Lemma run_one s l s' : step s l s' → run s [l] s'.
Proof. intros. apply (run_snoc s [] s l s'); [constructor|done]. Qed.

Lemma run_app s tr1 s1 tr2 s2 : run s tr1 s1 → run s1 tr2 s2 → run s (tr1 ++ tr2) s2.
Proof.
  intros H1. induction 1; [by rewrite app_nil_r|].
  rewrite app_assoc. by econstructor.
Qed.

Lemma run_cons s l s1 tr s2 : step s l s1 → run s1 tr s2 → run s (l :: tr) s2.
Proof. intros. eapply (run_app _ [l]); eauto using run_one. Qed.

(** Rule induction: an invariant of the history and the state. *)
Lemma run_invariant (P : list L → S → Prop) s0 :
  P [] s0 →
  (∀ tr s l s', run s0 tr s → P tr s → step s l s' → P (tr ++ [l]) s') →
  ∀ tr s, run s0 tr s → P tr s.
Proof. intros H0 Hs tr s. induction 1; eauto. Qed.

(** What goes in comes out or is still held: accounts of a step add up. *)
Lemma run_conserved {A} (inp out : L → list A) (hold : S → list A) s0 tr s :
  (∀ s l s', step s l s' → hold s ++ inp l = out l ++ hold s') →
  run s0 tr s → hold s0 ++ (tr ≫= inp) = (tr ≫= out) ++ hold s.
Proof.
  intros Hstep. induction 1 as [|tr s l s' _ IH Hl]; simpl; [by rewrite app_nil_r|].
  rewrite !bind_snoc, app_assoc, IH, <- !app_assoc.
  f_equal. by apply Hstep.
Qed.
End Runs.

#[export] Hint Constructors run : mqss.
