(* ===== verification/Mutex.v ===== *)
(** * Critical sections under a mutex

    Threads run pieces of code that are protected by one mutex; the code of a
    section is a sequence of atomic actions on the protected state, and may
    also read a flag that others set without the mutex.  Any interleaving has
    the effect of running the completed sections one after the other, in the
    order in which the mutex was released ([linearizable]). *)

From S2P Require Import Prelude.

Section Mutex.
Context {S Call Res Loc : Type}.
(** Where a section starts, and its next action: under the value of the flag, it
    goes on or it leaves the section with a result. *)
Context (enter : Call → Loc) (exec : bool → Loc → S → (Loc + Res) * S).

Record Sys := mkSys {
  shared : S;
  owner : option (nat * Call * Loc);     (* thread, call, what it does next *)
  flag : bool;
}.

Inductive Label :=
  | LAcquire (t : nat) (c : Call)
  | LExec (t : nat) (l : Loc)
  | LRelease (t : nat) (c : Call) (l : Loc) (r : Res)
  | LFlag.                               (** another thread sets the flag *)

Inductive step : Sys → Label → Sys → Prop :=
  | step_acquire s f t c :
      step (mkSys s None f) (LAcquire t c) (mkSys s (Some (t, c, enter c)) f)
  | step_exec s f t c l l' s' :
      exec f l s = (inl l', s') →
      step (mkSys s (Some (t, c, l)) f) (LExec t l) (mkSys s' (Some (t, c, l')) f)
  | step_release s f t c l r s' :
      exec f l s = (inr r, s') →
      step (mkSys s (Some (t, c, l)) f) (LRelease t c l r) (mkSys s' None f)
  | step_flag s o f :
      step (mkSys s o f) LFlag (mkSys s o true).

(** ** One section on its own *)

(** From [s], the call reaches location [l] in [s']; [f] bounds the values of
    the flag it may have read: none but [false] when [f] is [false]. *)
Inductive reaches (f : bool) (c : Call) (s : S) : Loc → S → Prop :=
  | reaches_enter : reaches f c s (enter c) s
  | reaches_exec l s1 f' l' s2 :
      reaches f c s l s1 → (f = false → f' = false) →
      exec f' l s1 = (inl l', s2) → reaches f c s l' s2.

Definition finishes (f : bool) (c : Call) (s : S) (r : Res) (s' : S) : Prop :=
  ∃ l s1 f', reaches f c s l s1 ∧ (f = false → f' = false) ∧ exec f' l s1 = (inr r, s').

Lemma reaches_mono f c s l s' : reaches f c s l s' → reaches true c s l s'.
Proof.
  induction 1 as [|l s1 f' l' s2 _ IH _ Hx]; [constructor|].
  by eapply reaches_exec; [exact IH| |exact Hx].
Qed.

(** Sections one after the other. *)
Inductive serial (f : bool) (s : S) : list (Call * Res) → S → Prop :=
  | serial_nil : serial f s [] s
  | serial_snoc done s1 c r s2 :
      serial f s done s1 → finishes f c s1 r s2 → serial f s (done ++ [(c, r)]) s2.

Lemma serial_mono f s calls s' : serial f s calls s' → serial true s calls s'.
Proof.
  induction 1 as [|calls s1 c r s2 _ IH (l & s3 & f' & Hl & _ & Hx)]; [constructor|].
  econstructor; [exact IH|]. exists l, s3, f'. split_and!; [by eapply reaches_mono|done..].
Qed.

(** ** Interleavings *)

(** The completed sections, in the order of their releases. *)
Definition released (tr : list Label) : list (Call * Res) :=
  omap (λ l, match l with LRelease _ c _ r => Some (c, r) | _ => None end) tr.

(** The flag only ever becomes set. *)
Lemma step_flag_mono s l s' : step s l s' → flag s = true → flag s' = true.
Proof. by destruct 1. Qed.

Lemma linearizable s0 tr s :
  run step (mkSys s0 None false) tr s →
  ∃ s1, serial (flag s) s0 (released tr) s1 ∧
    match owner s with
    | None => shared s = s1
    | Some (_, c, l) => reaches (flag s) c s1 l (shared s)
    end.
Proof.
  intros Hr. pattern tr, s. revert tr s Hr. apply run_invariant.
  { exists s0. split; [constructor|done]. }
  intros tr s l s' _ (s1 & Hs & Ho) Hstep. unfold released in *. rewrite omap_app. simpl.
  destruct Hstep as [s f t c|s f t c l l' s' Hx|s f t c l r s' Hx|s o f]; simpl in *;
    rewrite ?app_nil_r.
  - subst s1. exists s. split; [done|constructor].
  - exists s1. split; [done|]. by eapply reaches_exec; [exact Ho| |exact Hx]; intros ->.
  - exists s'. split; [|done]. econstructor; [done|]. exists l, s, f.
    split_and!; [done|by intros ->|done].
  - exists s1. split; [by eapply serial_mono|]. destruct o as [[[t c] l]|]; [|done].
    by eapply reaches_mono.
Qed.
End Mutex.
