(* ===== verification/Status.v ===== *)
(** * Status and result types (include/mqss/Status.hpp)

    [StatusCode], [Status] with its factories, and [Result T], the
    [std::expected<T, Status>] that every fallible operation returns. *)

From S2P Require Import Prelude.

(** ** Status codes *)

Inductive StatusCode :=
  | Ok
  | Timeout
  | Unavailable
  | Unsupported
  | InvalidArgument
  | Serialization
  | Configuration
  | Internal.

#[global] Instance StatusCode_eq_dec : EqDecision StatusCode.
Proof. solve_decision. Defined.

(** ** Status *)

Record Status := mkStatus { code : StatusCode; reason : string }.

#[global] Instance Status_eq_dec : EqDecision Status.
Proof. solve_decision. Defined.

Definition success : Status := mkStatus Ok "".
Definition timeout (r : string) : Status := mkStatus Timeout r.
Definition unavailable (r : string) : Status := mkStatus Unavailable r.
Definition unsupported (r : string) : Status := mkStatus Unsupported r.
Definition invalidArgument (r : string) : Status := mkStatus InvalidArgument r.
Definition serialization (r : string) : Status := mkStatus Serialization r.
Definition configuration (r : string) : Status := mkStatus Configuration r.
Definition internal (r : string) : Status := mkStatus Internal r.

Definition ok (s : Status) : bool := bool_decide (code s = Ok).

(** A status built by the factories: success carries no reason. *)
Definition status_wf (s : Status) : Prop := code s = Ok → reason s = "".

(** ** Result: [inl] is [std::unexpected], [inr] the value. *)

Definition Result (A : Type) : Type := (Status + A)%type.

Definition unexpected {A} (s : Status) : Result A := inl s.
Definition value {A} (a : A) : Result A := inr a.
Definition has_value {A} (r : Result A) : bool :=
  match r with inr _ => true | inl _ => false end.

(** The code of a failed result, [None] for a value. *)
Definition error_code {A} (r : Result A) : option StatusCode :=
  match r with inl s => Some (code s) | inr _ => None end.

(** Sequencing of [Result]s: the [if (!r) return std::unexpected(r.error())]
    idiom of the sources. *)
Definition result_bind {A B} (r : Result A) (k : A → Result B) : Result B :=
  match r with inl s => inl s | inr a => k a end.

Declare Scope result_scope.
Delimit Scope result_scope with result.
Notation "'let?' x ':=' r 'in' k" := (result_bind r (λ x, k))
  (at level 200, x pattern, r at level 100, k at level 200,
   format "'let?'  x  ':='  r  'in' '//' k") : result_scope.

Lemma result_bind_inr {A B} (r : Result A) (k : A → Result B) b :
  result_bind r k = inr b ↔ ∃ a, r = inr a ∧ k a = inr b.
Proof. destruct r; simpl; naive_solver. Qed.
Lemma result_bind_inl {A B} (r : Result A) (k : A → Result B) s :
  result_bind r k = inl s ↔ r = inl s ∨ ∃ a, r = inr a ∧ k a = inl s.
Proof. destruct r; simpl; naive_solver. Qed.

Lemma ok_success : ok success = true.
Proof. reflexivity. Qed.
Lemma ok_true s : ok s = true ↔ code s = Ok.
Proof. unfold ok. by rewrite bool_decide_eq_true. Qed.
Lemma ok_false s : ok s = false ↔ code s ≠ Ok.
Proof. unfold ok. by rewrite bool_decide_eq_false. Qed.
