(* ===== verification/Message.v ===== *)
(** * Transport-independent messaging model (include/mqss/Message.hpp)

    [Address], [Envelope] and [Message].  The completion hooks of a [Message]
    are [std::function]s that act on state shared with the transport: they are
    state-passing functions over the world [W] the message was delivered in,
    and an empty [std::function] is [None].  The functions share what they
    captured, which is destroyed with the message that holds them. *)

From S2P Require Import Prelude Status.

Record Address := mkAddress { name : string }.

Notation Headers := (gmap string string).

Record Envelope := mkEnvelope {
  payload : string;
  content_type : string;
  headers : Headers;
  correlation_id : string;
  reply_to : option Address;
}.

#[global] Instance Address_eq_dec : EqDecision Address.
Proof. solve_decision. Defined.
#[global] Instance Envelope_eq_dec : EqDecision Envelope.
Proof. solve_decision. Defined.

(** An [Envelope] with only a payload: the member initialisers. *)
Definition envelope_of_payload (p : string) : Envelope :=
  mkEnvelope p "" ∅ "" None.

Section Message.
Context {W : Type}.

Definition AckFn : Type := W → Status * W.
Definition NackFn : Type := bool → W → Status * W.

Record Message := mkMessage {
  envelope : Envelope;
  ack_impl_ : option AckFn;
  nack_impl_ : option NackFn;
  captured_ : option (W → W);      (* what destroying the captured state does *)
}.

Definition ack (msg : Message) (w : W) : Status * W :=
  match ack_impl_ msg with
  | None => (unsupported "ack not supported", w)
  | Some f => f w
  end.

Definition nack (msg : Message) (requeue : bool) (w : W) : Status * W :=
  match nack_impl_ msg with
  | None => (unsupported "nack not supported", w)
  | Some f => f requeue w
  end.

Definition setAckHandlers (msg : Message)
    (a : option AckFn) (n : option NackFn) (captured : option (W → W)) : Message :=
  mkMessage (envelope msg) a n captured.

(** The end of a message's life, when it is the only copy. *)
Definition destroy (msg : Message) (w : W) : W :=
  match captured_ msg with None => w | Some f => f w end.
End Message.

Arguments Message : clear implicits.
Arguments AckFn : clear implicits.
Arguments NackFn : clear implicits.
