(* ===== verification/Transport.v ===== *)
(** * Abstract transport interface (include/mqss/transport/Transport.hpp)

    Capabilities, the argument records, and the abstract class [Transport] as
    a type class over a handle type [T] and a world [W] (everything a call can
    observe or change).  [receive] returns [None] for a call that has not
    returned under the schedule the world carries.

    Two sets of laws state what implementations promise to their clients:
    [TransportContract] (the documented error contract) and [FifoTransport]
    (ordered, loss-free delivery on a quiet transport).  The typed messenger is
    verified against these, the transports discharge them. *)

From S2P Require Import Prelude Status Message.

(** ** Features *)

Inductive Feature := ManualAck | Requeue | SendConfirm.

#[global] Instance Feature_eq_dec : EqDecision Feature.
Proof. solve_decision. Defined.

(** [static_cast<std::size_t>(feature)] *)
Definition feature_index (f : Feature) : nat :=
  match f with ManualAck => 0 | Requeue => 1 | SendConfirm => 2 end%nat.

Definition num_features_ : nat := 8.

(** [bits_]: an array of [num_features_] Booleans. *)
Notation FeatureSet := (list bool).
Definition empty_features : FeatureSet := replicate num_features_ false.
Definition add (fs : FeatureSet) (f : Feature) : FeatureSet :=
  <[feature_index f := true]> fs.
Definition has (fs : FeatureSet) (f : Feature) : bool :=
  default false (fs !! feature_index f).
Definition of_features (l : list Feature) : FeatureSet :=
  foldl add empty_features l.

Lemma add_length fs f : length (add fs f) = length fs.
Proof. apply length_insert. Qed.

Lemma has_add fs f g :
  length fs = num_features_ →
  has (add fs f) g = bool_decide (f = g) || has fs g.
Proof.
  intros Hl. unfold has, add.
  destruct (decide (f = g)) as [<-|Hne].
  - rewrite bool_decide_true by done.
    rewrite list_lookup_insert_eq; [done|].
    rewrite Hl. destruct f; simpl; unfold num_features_; lia.
  - rewrite bool_decide_false by done.
    rewrite list_lookup_insert_ne; [done|].
    destruct f, g; simpl; congruence.
Qed.

(** ** Arguments *)

Inductive AckMode := Auto | Manual.

#[global] Instance AckMode_eq_dec : EqDecision AckMode.
Proof. solve_decision. Defined.

Record SendArgs := mkSendArgs { confirm : bool }.
Definition default_send_args : SendArgs := mkSendArgs false.

(** [timeout] in milliseconds, [None] for [std::nullopt]. *)
Record ReceiveArgs := mkReceiveArgs { timeout : option Z; ack_mode : AckMode }.
Definition default_receive_args : ReceiveArgs := mkReceiveArgs None Manual.

(** ** The interface *)

Class Transport (T W : Type) := {
  features : T → FeatureSet;
  send : T → Address → Envelope → SendArgs → W → Status * W;
  receive : T → Address → ReceiveArgs → W → option (Result (Message W) * W);
}.

(** [Transport::setAckHandlers] hands the two functions on to the message. *)
Definition setAckHandlers {W : Type} (message : Message W) (ack_fn : AckFn W)
    (nack_fn : NackFn W) (captured : W → W) : Message W :=
  Message.setAckHandlers message (Some ack_fn) (Some nack_fn) (Some captured).

(** Backend selection: a tag with its options and a factory.  [Surroundings] is
    what a new transport finds: the schedule of the other threads and, for a
    client of a broker, the broker. *)
Class TransportBackend (Backend T W : Type) `{Transport T W} := {
  TransportOptions : Type;
  default_options : TransportOptions;
  Surroundings : Type;
  createTransport : TransportOptions → Surroundings → T * W;
}.
Arguments TransportOptions Backend {T W _ _}.
Arguments default_options Backend {T W _ _}.
Arguments Surroundings Backend {T W _ _}.
Arguments createTransport Backend {T W _ _}.

(** The error contract documented in [Transport.hpp]. *)
Class TransportContract (T W : Type) `{Transport T W} := {
  send_wf t dest e args w : status_wf (send t dest e args w).1;
  send_empty_name t dest e args w :
    name dest = "" →
    code (send t dest e args w).1 = InvalidArgument ∧
    (send t dest e args w).2 = w;
  send_confirm_unsupported t dest e args w :
    name dest ≠ "" → confirm args = true →
    has (features t) SendConfirm = false →
    code (send t dest e args w).1 = Unsupported ∧
    (send t dest e args w).2 = w;
  receive_empty_name t src args w :
    name src = "" →
    ∃ s, receive t src args w = Some (inl s, w) ∧ code s = InvalidArgument;
  receive_error_not_ok t src args w s w' :
    receive t src args w = Some (inl s, w') → code s ≠ Ok;
}.

(** Ordered and loss-free delivery while no other thread interferes, of messages
    that hold nothing of the transport: [pending t w n] is the content of the
    queue named [n]. *)
Class FifoTransport (T W : Type) `{Transport T W} := {
  quiet : T → W → Prop;
  pending : T → W → string → list Envelope;
  send_fifo t dest e args w :
    quiet t w → name dest ≠ "" → confirm args = false →
    ∃ w', send t dest e args w = (success, w') ∧ quiet t w' ∧
      ∀ n, pending t w' n =
           if decide (n = name dest) then pending t w n ++ [e]
           else pending t w n;
  receive_fifo t src args w e q :
    quiet t w → name src ≠ "" → pending t w (name src) = e :: q →
    ∃ msg w', receive t src args w = Some (inr msg, w') ∧ quiet t w' ∧
      envelope msg = e ∧ captured_ msg = None ∧
      ∀ n, pending t w' n =
           if decide (n = name src) then q else pending t w n;
}.
