(* ===== verification/InMemoryTransport.v ===== *)
(** * In-memory transport (src/transport/InMemoryTransport.cpp)

    The shared [State] and the operations of [InMemoryTransport], each as the
    critical section(s) it executes under [state->mu].  A blocking [receive]
    gives the lock up while it waits; what the other threads do meanwhile is a
    list of batches of critical sections carried by the world, one batch
    between two evaluations of the wait predicate.  The interleaving model
    with threads, sleeping and notification is in InMemoryThreads.v. *)

From S2P Require Import Prelude Status Message Transport.

(** ** State *)

Record State := mkState {
  stopped : bool;
  queues : gmap string (list Envelope);
}.

Definition initial_state : State := mkState false ∅.

(** [state->queues[name]]: a missing queue reads as empty. *)
Definition queue (st : State) (n : string) : list Envelope :=
  default [] (queues st !! n).

(** ** Critical sections *)

(** [state->queues[dest.name].push_back(envelope)] *)
Definition push (st : State) (n : string) (e : Envelope) : State :=
  mkState (stopped st) (<[n := queue st n ++ [e]]> (queues st)).

(** The locked part of [send]. *)
Definition send_locked (st : State) (n : string) (e : Envelope)
    : Status * State :=
  if stopped st then (unavailable "transport shut down", st)
  else (success, push st n e).

(** The wait predicate of [receive]. *)
Definition ready (st : State) (n : string) : bool :=
  if stopped st then true
  else match queues st !! n with
       | None => false
       | Some q => negb (bool_decide (q = []))
       end.

Definition makeMessageFromEnvelope {W} (e : Envelope) : Message W :=
  mkMessage e None None None.

(** [receive] from the check for shutdown after the wait to its return. *)
Definition receive_locked {W} (waited_with_timeout : bool) (st : State)
    (n : string) : Result (Message W) * State :=
  if stopped st then (unexpected (unavailable "transport shut down"), st)
  else match queues st !! n with
       | None | Some [] =>
           (unexpected (if waited_with_timeout
                        then Status.timeout "receive timed out"
                        else Status.timeout "no message received"), st)
       | Some (e :: q) =>
           (value (makeMessageFromEnvelope e),
            mkState (stopped st)
              (if bool_decide (q = []) then delete n (queues st)
               else <[n := q]> (queues st)))
       end.

(** The locked part of [shutdown]; the flag says whether waiters are
    notified. *)
Definition shutdown_locked (st : State) : bool * State :=
  if stopped st then (false, st) else (true, mkState true (queues st)).

(** ** What other threads do while a receiver waits *)

Inductive EnvOp :=
  | EnvSend (n : string) (e : Envelope)
  | EnvReceive (n : string)
  | EnvShutdown.

Definition env_op (st : State) (op : EnvOp) : State :=
  match op with
  | EnvSend n e => (send_locked st n e).2
  | EnvReceive n => (receive_locked (W := unit) false st n).2
  | EnvShutdown => (shutdown_locked st).2
  end.

Record World := mkWorld {
  state_ : option State;            (** the shared pointer [state_] *)
  others : list (list EnvOp);       (** batches run by other threads *)
}.

Definition set_state (w : World) (st : State) : World :=
  mkWorld (Some st) (others w).

(** [cv.wait(lock, ready)]: evaluate the predicate, release the lock for one
    batch, and again.  [false]: the batches ran out with the predicate false
    (the deadline of [wait_for] passes, [wait] is still blocked). *)
Fixpoint wait_ready (st : State) (n : string) (batches : list (list EnvOp))
    : bool * State * list (list EnvOp) :=
  if ready st n then (true, st, batches)
  else match batches with
       | [] => (false, st, [])
       | b :: bs => wait_ready (foldl env_op st b) n bs
       end.

(** ** Public operations *)

Definition features (_ : unit) : FeatureSet := of_features [].

Definition send (_ : unit) (dest : Address) (e : Envelope) (args : SendArgs)
    (w : World) : Status * World :=
  if bool_decide (name dest = "") then
    (invalidArgument "send destination name is empty", w)
  else if confirm args then
    (unsupported "send confirmation is not supported", w)
  else match state_ w with
       | None => (unavailable "transport not initialized", w)
       | Some st =>
           let '(s, st') := send_locked st (name dest) e in
           (s, set_state w st')
       end.

(** The tail of [receive], with the lock held again. *)
Definition finish (waited_with_timeout : bool) (n : string) (st : State)
    (batches : list (list EnvOp)) : option (Result (Message World) * World) :=
  let '(r, st') := receive_locked waited_with_timeout st n in
  Some (r, mkWorld (Some st') batches).

Definition receive (_ : unit) (src : Address) (args : ReceiveArgs)
    (w : World) : option (Result (Message World) * World) :=
  if bool_decide (name src = "") then
    Some (unexpected (invalidArgument "receive source name is empty"), w)
  else match state_ w with
       | None =>
           Some (unexpected (unavailable "transport not initialized"), w)
       | Some st =>
           if ready st (name src) then finish false (name src) st (others w)
           else match Transport.timeout args with
                | Some t =>
                    if t =? 0 then
                      Some (unexpected (Status.timeout "no message received"), w)
                    else
                      let '(_, st', bs) := wait_ready st (name src) (others w) in
                      finish true (name src) st' bs
                | None =>
                    match wait_ready st (name src) (others w) with
                    | (true, st', bs) => finish false (name src) st' bs
                    | (false, _, _) => None
                    end
                end
       end.

Definition shutdown (w : World) : World :=
  match state_ w with
  | None => w
  | Some st => set_state w (shutdown_locked st).2
  end.

(** [createTransport<InMemory>]: a fresh shared state. *)
Definition createTransport (batches : list (list EnvOp)) : World :=
  mkWorld (Some initial_state) batches.

#[export] Instance InMemory_Transport : Transport unit World := {
  Transport.features := features;
  Transport.send := send;
  Transport.receive := receive;
}.

(** The backend tag; its options are empty. *)
Inductive InMemory : Set := in_memory.

#[export] Instance InMemory_Backend : TransportBackend InMemory unit World := {
  TransportOptions := unit;
  default_options := tt;
  Surroundings := list (list EnvOp);
  Transport.createTransport _ batches := (tt, createTransport batches);
}.

(** ** Invariants and helper lemmas *)

(** A queue is erased as soon as it is empty. *)
Definition no_empty_queue (st : State) : Prop :=
  ∀ n q, queues st !! n = Some q → q ≠ [].

(** The transport is initialised, running, and undisturbed. *)
Definition quiet (_ : unit) (w : World) : Prop :=
  others w = [] ∧ ∃ st, state_ w = Some st ∧ stopped st = false.

Definition pending (_ : unit) (w : World) (n : string) : list Envelope :=
  match state_ w with None => [] | Some st => queue st n end.

Lemma queue_push st n e m :
  queue (push st n e) m = if decide (m = n) then queue st m ++ [e] else queue st m.
Proof. unfold queue, push. simpl. case_decide; by simplify_map_eq. Qed.

Lemma push_no_empty st n e : no_empty_queue st → no_empty_queue (push st n e).
Proof.
  intros H m q. simpl. destruct (decide (m = n)) as [->|Hne].
  - rewrite lookup_insert_eq. intros [= <-]. by destruct (queue st n).
  - rewrite lookup_insert_ne by done. apply H.
Qed.

Lemma send_locked_no_empty st n e :
  no_empty_queue st → no_empty_queue (send_locked st n e).2.
Proof. unfold send_locked. case_match; simpl; auto using push_no_empty. Qed.

Lemma receive_locked_no_empty {W} b st n :
  no_empty_queue st → no_empty_queue (receive_locked (W := W) b st n).2.
Proof.
  intros H. unfold receive_locked.
  destruct (stopped st); [done|]. destruct (queues st !! n) as [[|e q]|]; [done| |done].
  intros m q'. simpl. destruct (decide (m = n)) as [->|].
  - case_bool_decide; intros; by simplify_map_eq.
  - intros Hm. apply (H m). case_bool_decide; by simplify_map_eq.
Qed.

Lemma shutdown_locked_no_empty st :
  no_empty_queue st → no_empty_queue (shutdown_locked st).2.
Proof. unfold shutdown_locked. case_match; done. Qed.

#[export] Hint Resolve send_locked_no_empty receive_locked_no_empty
  shutdown_locked_no_empty : mqss.

(** [ready] says exactly that the transport is stopped or a message waits. *)
Lemma ready_spec st n :
  ready st n = true ↔ stopped st = true ∨ queue st n ≠ [].
Proof.
  unfold ready, queue. destruct (stopped st); [naive_solver|].
  destruct (queues st !! n) as [q|]; simpl; [|naive_solver].
  rewrite negb_true_iff, bool_decide_eq_false. naive_solver.
Qed.

(** The critical section of [receive], by the state it finds. *)
Lemma receive_locked_stopped {W} b st n :
  stopped st = true →
  receive_locked (W := W) b st n =
    (unexpected (unavailable "transport shut down"), st).
Proof. unfold receive_locked. by intros ->. Qed.

Lemma receive_locked_cons {W} b st n e q :
  stopped st = false → queue st n = e :: q →
  ∃ st', receive_locked (W := W) b st n = (value (makeMessageFromEnvelope e), st') ∧
    stopped st' = false ∧
    ∀ m, queue st' m = if decide (m = n) then q else queue st m.
Proof.
  unfold receive_locked, queue. intros -> Hq.
  destruct (queues st !! n) as [l|]; simplify_eq/=.
  eexists; split_and!; [done|done|]. intros m. simpl.
  case_bool_decide; subst; case_decide; by simplify_map_eq.
Qed.

Lemma receive_locked_nil {W} b st n :
  stopped st = false → queue st n = [] →
  receive_locked (W := W) b st n =
    (unexpected (Status.timeout (if b then "receive timed out"
                                 else "no message received")), st).
Proof.
  unfold receive_locked, queue. intros -> Hq.
  destruct (queues st !! n) as [[|]|]; by destruct b.
Qed.

(** The waiting loop stops at the first batch after which the predicate
    holds, or after all of them. *)
Lemma wait_ready_spec st n bs :
  match wait_ready st n bs with
  | (true, st', bs') =>
      ∃ k, bs' = drop k bs ∧ st' = foldl (foldl env_op) st (take k bs) ∧
        ready st' n = true ∧
        ∀ j, (j < k)%nat → ready (foldl (foldl env_op) st (take j bs)) n = false
  | (false, st', bs') =>
      bs' = [] ∧ st' = foldl (foldl env_op) st bs ∧
      ∀ j, ready (foldl (foldl env_op) st (take j bs)) n = false
  end.
Proof.
  revert st. induction bs as [|b bs IH]; intros st; simpl;
    destruct (ready st n) eqn:Hr.
  - exists 0%nat. split_and!; auto with lia.
  - split_and!; auto. intros [|j]; done.
  - exists 0%nat. split_and!; auto. lia.
  - specialize (IH (foldl env_op st b)).
    destruct (wait_ready (foldl env_op st b) n bs) as [[[] st'] bs'].
    + destruct IH as (k & ? & ? & ? & Hlt). exists (S k). split_and!; auto.
      intros [|j] Hj; simpl; auto with lia.
    + destruct IH as (? & ? & Hall). split_and!; auto. intros [|j]; simpl; auto.
Qed.

(** ** The transport interface *)

#[export] Instance InMemory_Contract : TransportContract unit World.
Proof.
  split; simpl.
  - intros [] dest e args w. unfold send, send_locked, status_wf.
    repeat case_match; simplify_eq/=; done.
  - intros [] dest e args w Hn. unfold send. by rewrite bool_decide_true.
  - intros [] dest e args w Hn Hc _. unfold send.
    rewrite bool_decide_false by done. by rewrite Hc.
  - intros [] src args w Hn. unfold receive. rewrite bool_decide_true by done.
    eauto.
  - intros [] src args w s w'. unfold receive, finish, receive_locked, unexpected.
    repeat case_match; intros; simplify_eq/=; done.
Qed.

#[export] Program Instance InMemory_Fifo : FifoTransport unit World := {
  Transport.quiet := quiet;
  Transport.pending := pending;
}.
Next Obligation.
  intros [] dest e args [ost bs] [Hbs (st & Hst & Hup)] Hn Hc. simplify_eq/=.
  unfold send, send_locked. rewrite bool_decide_false, Hc by done. simpl.
  rewrite Hup. eexists; split_and!; [done| |].
  - split; [done|]. eexists; split; [done|]. done.
  - intros m. unfold pending, set_state; simpl. apply queue_push.
Qed.
Next Obligation.
  intros [] src args [ost bs] e q [Hbs (st & Hst & Hup)] Hn Hq.
  unfold pending in Hq. simplify_eq/=.
  unfold receive, finish. rewrite bool_decide_false by done. simpl.
  assert (ready st (name src) = true) as ->.
  { apply ready_spec. right. rewrite Hq. done. }
  edestruct (@receive_locked_cons World false) as (st' & -> & Hup' & Hq'); [done..|].
  do 2 eexists; split_and!; [done| |done|done|].
  - split; [done|]. eexists; split; [done|]. done.
  - intros m. apply Hq'.
Qed.

(** ** How a receive call ends *)

(** The state after the first [k] batches of the other threads. *)
Definition after (st : State) (w : World) (k : nat) : State :=
  foldl (foldl env_op) st (take k (others w)).

(** What [receive] returns, and leaves, when it finds the predicate true. *)
Definition delivered (n : string) (st st' : State) (r : Result (Message World))
    : Prop :=
  (stopped st = true ∧ st' = st ∧
     r = unexpected (unavailable "transport shut down")) ∨
  (stopped st = false ∧ ∃ e q, queue st n = e :: q ∧
     r = value (makeMessageFromEnvelope e) ∧ stopped st' = false ∧
     ∀ m, queue st' m = if decide (m = n) then q else queue st m).

(** The three ways a returning [receive] on queue [n] ends: at the first
    moment at which the predicate holds; as a poll that finds nothing; or after
    the deadline, nothing having become available. *)
Definition receive_outcome (n : string) (tmo : option Z) (w : World)
    (st : State) (r : Result (Message World)) (w' : World) : Prop :=
  (∃ k st',
     (k = 0%nat ∨ tmo ≠ Some 0) ∧
     (∀ j, (j < k)%nat → ready (after st w j) n = false) ∧
     w' = mkWorld (Some st') (drop k (others w)) ∧
     delivered n (after st w k) st' r) ∨
  (tmo = Some 0 ∧ ready st n = false ∧
     r = unexpected (Status.timeout "no message received") ∧ w' = w) ∨
  (∃ t, tmo = Some t ∧ t ≠ 0 ∧
     (∀ k, ready (after st w k) n = false) ∧
     r = unexpected (Status.timeout "receive timed out") ∧
     w' = mkWorld (Some (after st w (length (others w)))) []).

Lemma finish_some b n st bs : ∃ r w', finish b n st bs = Some (r, w').
Proof. unfold finish. destruct (receive_locked _ _ _). eauto. Qed.

Lemma finish_ready b n st bs :
  ready st n = true →
  ∃ r st', finish b n st bs = Some (r, mkWorld (Some st') bs) ∧
    delivered n st st' r.
Proof.
  intros Hr. unfold finish, delivered. destruct (stopped st) eqn:Hs.
  - rewrite receive_locked_stopped by done. eexists _, _. split; [done|].
    by left.
  - destruct (queue st n) as [|e q] eqn:Hq.
    { apply ready_spec in Hr. destruct Hr; congruence. }
    edestruct (@receive_locked_cons World b) as (st' & -> & ? & ?); [done..|].
    eexists _, _. split; [done|]. right. eauto 10.
Qed.

Lemma finish_not_ready b n st bs :
  ready st n = false →
  finish b n st bs =
    Some (unexpected (Status.timeout (if b then "receive timed out"
                                      else "no message received")),
          mkWorld (Some st) bs).
Proof.
  intros Hr. assert (stopped st = false ∧ queue st n = []) as [Hs Hq].
  { pose proof (ready_spec st n) as H. rewrite Hr in H.
    destruct (stopped st), (queue st n); naive_solver. }
  unfold finish. by rewrite receive_locked_nil.
Qed.

(** ** Properties *)

(** C29. A [receive] call fails to return in exactly one situation: a valid
    source, an initialised transport, no timeout, and no moment (after some
    number of batches of the other threads) at which a message is available or
    the transport is stopped.  In particular a call with a timeout always
    returns. *)
Theorem receive_blocks_iff src args w :
  receive tt src args w = None ↔
  name src ≠ "" ∧ Transport.timeout args = None ∧
  ∃ st, state_ w = Some st ∧ ∀ k, ready (after st w k) (name src) = false.
Proof.
  unfold receive, after. case_bool_decide as Hn; [naive_solver|].
  destruct (state_ w) as [st|]; [|naive_solver].
  pose proof (wait_ready_spec st (name src) (others w)) as Hw.
  assert (Hfin : ∀ b n st1 bs, finish b n st1 bs = None ↔ False).
  { intros b n st1 bs. destruct (finish_some b n st1 bs) as (? & ? & ->). done. }
  destruct (ready st (name src)) eqn:Hr.
  { rewrite Hfin. split; [done|]. intros (_ & _ & st' & [= <-] & Hall).
    specialize (Hall 0%nat). simpl in Hall. congruence. }
  destruct (Transport.timeout args) as [t|].
  { destruct (t =? 0), (wait_ready _ _ _) as [[? ?] ?]; rewrite ?Hfin; naive_solver. }
  destruct (wait_ready _ _ _) as [[[] st'] bs'].
  - destruct Hw as (k & -> & -> & Hk & _). rewrite Hfin. split; [done|].
    intros (_ & _ & st' & [= <-] & Hall). by rewrite Hall in Hk.
  - destruct Hw as (_ & _ & Hall). naive_solver.
Qed.

(** The result of a returning [receive] on every branch: at the first
    moment at which the predicate holds, a stopped transport yields
    [unavailable] and a running one the oldest message of the queue, which is
    removed while every other queue is kept; when there is no such moment, or
    the call is a zero-timeout poll that finds nothing, the result is [timeout]
    with the reason of the case, and no queue changes. *)
Theorem receive_result src args w st r w' :
  state_ w = Some st → name src ≠ "" →
  receive tt src args w = Some (r, w') →
  receive_outcome (name src) (Transport.timeout args) w st r w'.
Proof.
  intros Hst Hn. unfold receive, receive_outcome, after. rewrite bool_decide_false, Hst by done.
  assert (Hfin : ∀ b k, ready (after st w k) (name src) = true →
    finish b (name src) (after st w k) (drop k (others w)) = Some (r, w') →
    ∃ st', w' = mkWorld (Some st') (drop k (others w)) ∧
      delivered (name src) (after st w k) st' r).
  { intros b k Hr. destruct (finish_ready b _ _ (drop k (others w)) Hr)
      as (r' & st' & -> & ?). intros [= -> <-]. eauto. }
  pose proof (wait_ready_spec st (name src) (others w)) as Hw.
  destruct (ready st (name src)) eqn:Hr.
  { intros Hrun. destruct (Hfin false 0%nat Hr Hrun) as (st' & ?).
    left. exists 0%nat, st'. naive_solver lia. }
  destruct (Transport.timeout args) as [t|] eqn:Ht.
  - destruct (Z.eqb_spec t 0) as [->|Ht0]; [naive_solver|].
    destruct (wait_ready _ _ _) as [[[] st1] bs]; intros Hrun.
    + destruct Hw as (k & -> & -> & Hk & Hlt).
      destruct (Hfin true k Hk Hrun) as (st' & ?).
      left. exists k, st'. naive_solver.
    + destruct Hw as (-> & -> & Hall). right; right. exists t.
      pose proof (Hall (length (others w))) as Hend. rewrite take_ge in * by done.
      rewrite finish_not_ready in Hrun by done. naive_solver.
  - destruct (wait_ready _ _ _) as [[[] st1] bs]; [|done]. intros Hrun.
    destruct Hw as (k & -> & -> & Hk & Hlt).
    destruct (Hfin false k Hk Hrun) as (st' & ?).
    left. exists k, st'. naive_solver.
Qed.

Lemma receive_result_witness :
  let w := mkWorld (Some initial_state)
             [[EnvSend "b" (envelope_of_payload "x")];
              [EnvSend "a" (envelope_of_payload "y")]] in
  ∃ r w', receive tt (mkAddress "a") default_receive_args w = Some (r, w') ∧
    receive_outcome "a" None w initial_state r w'.
Proof.
  intros w. eexists _, _. split; [vm_compute; reflexivity|].
  apply (receive_result (mkAddress "a") default_receive_args w);
    [reflexivity|done|vm_compute; reflexivity].
Defined.
