(* ===== verification/InMemoryThreads.v ===== *)
(** * Threads over the in-memory transport
    (src/transport/InMemoryTransport.cpp, concurrency)

    Any number of threads call [send], [receive] and the destructor of one
    transport.  A step is one critical section under [state->mu], one
    [notify_all], one wake-up or one expiry of a deadline; the sections are
    those of InMemoryTransport.v.  [notify_all] runs after the lock has been
    released, so a state where a message is queued and its notification is
    still due is reachable; spurious wake-ups are allowed. *)

From S2P Require Import Prelude Status Message Transport InMemoryTransport.

(** Where a thread is. *)
Inductive Pc :=
  | Idle                               (** outside the transport *)
  | Notifying                          (** before [cv.notify_all()] *)
  | Sleeping (n : string) (timed : bool)  (** inside [cv.wait] / [wait_for] *)
  | Woken (n : string) (timed : bool)  (** about to re-evaluate the predicate *)
  | Expired (n : string).              (** deadline passed, lock to retake *)

Record Sys := mkSys { shared : State; pc : nat → Pc }.

Definition initial : Sys := mkSys initial_state (λ _, Idle).

(** [cv.notify_all()]: every sleeping thread wakes. *)
Definition wake (p : Pc) : Pc :=
  match p with Sleeping n timed => Woken n timed | _ => p end.

Inductive Label :=
  | LSend (t : nat) (n : string) (e : Envelope)       (** accepted *)
  | LSendFail (t : nat) (n : string) (s : Status)
  | LReturn (t : nat) (n : string) (r : Result (Message unit))
  | LShutdown (t : nat)
  | LNotify (t : nat)
  | LInternal (t : nat).                              (** sleep, wake, expire *)

Inductive step (s : Sys) : Label → Sys → Prop :=
  | step_send t n e st' :
      pc s t = Idle → n ≠ "" →
      send_locked (shared s) n e = (success, st') →
      step s (LSend t n e) (mkSys st' (<[t := Notifying]> (pc s)))
  | step_send_fail t n e x st' :
      pc s t = Idle → n ≠ "" →
      send_locked (shared s) n e = (x, st') → ok x = false →
      step s (LSendFail t n x) (mkSys st' (pc s))
  | step_notify t :
      pc s t = Notifying →
      step s (LNotify t) (mkSys (shared s) (<[t := Idle]> (wake ∘ pc s)))
  | step_receive t n r st' :
      pc s t = Idle → n ≠ "" → ready (shared s) n = true →
      receive_locked false (shared s) n = (r, st') →
      step s (LReturn t n r) (mkSys st' (pc s))
  | step_poll t n :
      pc s t = Idle → n ≠ "" → ready (shared s) n = false →
      step s (LReturn t n (unexpected (Status.timeout "no message received"))) s
  | step_sleep t n timed :
      pc s t = Idle → n ≠ "" → ready (shared s) n = false →
      step s (LInternal t) (mkSys (shared s) (<[t := Sleeping n timed]> (pc s)))
  | step_spurious t n timed :
      pc s t = Sleeping n timed →
      step s (LInternal t) (mkSys (shared s) (<[t := Woken n timed]> (pc s)))
  | step_recheck t n timed :
      pc s t = Woken n timed → ready (shared s) n = false →
      step s (LInternal t) (mkSys (shared s) (<[t := Sleeping n timed]> (pc s)))
  | step_expire t n :
      pc s t = Sleeping n true →
      step s (LInternal t) (mkSys (shared s) (<[t := Expired n]> (pc s)))
  | step_woken_return t n timed r st' :
      pc s t = Woken n timed → ready (shared s) n = true →
      receive_locked timed (shared s) n = (r, st') →
      step s (LReturn t n r) (mkSys st' (<[t := Idle]> (pc s)))
  | step_expired_return t n r st' :
      pc s t = Expired n →
      receive_locked true (shared s) n = (r, st') →
      step s (LReturn t n r) (mkSys st' (<[t := Idle]> (pc s)))
  | step_shutdown t b st' :
      pc s t = Idle → shutdown_locked (shared s) = (b, st') →
      step s (LShutdown t)
        (mkSys st' (if b then <[t := Notifying]> (pc s) else pc s)).

Notation runs := (run step).

(** ** Histories *)

(** Envelopes accepted for queue [n], in the order of the critical sections. *)
Definition sent (n : string) (tr : list Label) : list Envelope :=
  omap (λ l, match l with
             | LSend _ m e => if decide (m = n) then Some e else None
             | _ => None
             end) tr.

(** Envelopes handed to receivers of queue [n], in the same order. *)
Definition received (n : string) (tr : list Label) : list Envelope :=
  omap (λ l, match l with
             | LReturn _ m (inr msg) =>
                 if decide (m = n) then Some (envelope msg) else None
             | _ => None
             end) tr.

Lemma sent_snoc n tr l : sent n (tr ++ [l]) = sent n tr ++ sent n [l].
Proof. apply omap_app. Qed.
Lemma received_snoc n tr l : received n (tr ++ [l]) = received n tr ++ received n [l].
Proof. apply omap_app. Qed.

(** What one critical section of [receive] does to the queues. *)
Lemma receive_locked_queue {W} b st n r st' :
  receive_locked (W := W) b st n = (r, st') →
  (∃ s, r = inl s ∧ st' = st) ∨
  (stopped st = false ∧ ∃ msg, r = inr msg ∧ stopped st' = false ∧
     ∀ m, queue st m = (if decide (m = n) then [envelope msg] else []) ++ queue st' m).
Proof.
  destruct (stopped st) eqn:Hs.
  { rewrite receive_locked_stopped by done. intros [= <- <-]. left. eauto. }
  destruct (queue st n) as [|e q] eqn:Hq.
  { rewrite receive_locked_nil by done. intros [= <- <-]. left. eauto. }
  edestruct (@receive_locked_cons W b) as (st1 & -> & ? & Hm); [done..|].
  intros [= <- <-]. right. split; [done|]. eexists; split_and!; [done..|].
  intros m. rewrite Hm. case_decide; by subst.
Qed.

Lemma send_locked_success st n e x st' :
  send_locked st n e = (x, st') →
  (stopped st = true ∧ x = unavailable "transport shut down" ∧ st' = st) ∨
  (stopped st = false ∧ x = success ∧ st' = push st n e).
Proof. unfold send_locked. case_match; naive_solver. Qed.

Lemma shutdown_locked_result st b st' :
  shutdown_locked st = (b, st') →
  queues st' = queues st ∧ stopped st' = true ∧ b = negb (stopped st).
Proof. unfold shutdown_locked. destruct st as [[] ?]; naive_solver. Qed.

(** The queue effect of a step, as its label reports it. *)
Lemma step_queue s l s' n :
  step s l s' →
  queue (shared s) n ++ sent n [l] = received n [l] ++ queue (shared s') n.
Proof.
  destruct 1 as [t m e st' ? ? Hs|t m e x st' ? ? Hs Hx| |t m r st' ? ? ? Hr| | | | |
    |t m ? r st' ? ? Hr|t m r st' ? Hr|t b st' ? Hs]; cbn -[queue]; rewrite ?app_nil_r; try done.
  - apply send_locked_success in Hs as [(?&?&->)|(?&?&->)]; [done|].
    rewrite queue_push. repeat case_decide; simplify_eq/=; by rewrite ?app_nil_r.
  - apply send_locked_success in Hs as [(?&?&->)|(?&->&->)]; done.
  - apply receive_locked_queue in Hr as [(?&->&->)|(?&?&->&?&Hq)]; [done|].
    rewrite Hq. repeat case_decide; congruence.
  - apply receive_locked_queue in Hr as [(?&->&->)|(?&?&->&?&Hq)]; [done|].
    rewrite Hq. repeat case_decide; congruence.
  - apply receive_locked_queue in Hr as [(?&->&->)|(?&?&->&?&Hq)]; [done|].
    rewrite Hq. repeat case_decide; congruence.
  - apply shutdown_locked_result in Hs as (Hq&_&_). unfold queue. by rewrite Hq.
Qed.

(** ** Sleeping threads and pending notifications *)

(** A sleeping thread whose predicate holds has a notification coming. *)
Definition armed (s : Sys) : Prop :=
  ∀ t n timed, pc s t = Sleeping n timed → ready (shared s) n = true →
    ∃ t', pc s t' = Notifying.

Lemma armed_notifying st p t : armed (mkSys st (<[t := Notifying]> p)).
Proof. intros ? ? ? _ _. exists t. simpl. by rewrite fn_lookup_insert. Qed.

(** Moving a thread that is not notifying keeps [armed], provided nothing
    becomes ready and the thread does not fall asleep on a ready queue. *)
Lemma armed_update s st' t p :
  armed s → pc s t ≠ Notifying →
  (∀ m, ready st' m = true → ready (shared s) m = true) →
  (∀ n timed, p = Sleeping n timed → ready st' n = false) →
  armed (mkSys st' (<[t := p]> (pc s))).
Proof.
  intros Ha Ht Hmono Hp u n timed. simpl. intros Hu Hr.
  destruct (decide (t = u)) as [<-|Hne].
  - rewrite fn_lookup_insert in Hu. apply Hp in Hu. congruence.
  - rewrite fn_lookup_insert_ne in Hu by done.
    destruct (Ha _ _ _ Hu (Hmono _ Hr)) as [v Hv].
    exists v. rewrite fn_lookup_insert_ne; congruence.
Qed.

Lemma armed_same_pc s st' :
  armed s → (∀ m, ready st' m = true → ready (shared s) m = true) →
  armed (mkSys st' (pc s)).
Proof. intros Ha Hmono t n timed Ht Hr. apply (Ha t n timed); auto. Qed.

Lemma receive_locked_ready {W} b st n r st' :
  receive_locked (W := W) b st n = (r, st') →
  ∀ m, ready st' m = true → ready st m = true.
Proof.
  intros [(?&_&->)|(Hs&msg&_&Hs'&Hq)]%receive_locked_queue m; [done|].
  rewrite !ready_spec, Hs, Hs', Hq. intros [|Hm]; [done|].
  right. by intros [_ ?]%app_eq_nil.
Qed.

Lemma step_armed s l s' : step s l s' → armed s → armed s'.
Proof.
  destruct 1 as [t n e st' ? ? Hs|t n e x st' ? ? Hs Hx|t ?|t n r st' ? ? ? Hr|
    t n|t n timed ? ? Hr|t n timed Ht|t n timed Ht Hr|t n Ht|t n timed r st' Ht ? Hr|
    t n r st' Ht Hr|t b st' Ht Hs]; intros Ha.
  - apply armed_notifying.
  - apply send_locked_success in Hs as [(?&->&->)|(?&->&->)]; [|done].
    by apply armed_same_pc.
  - intros u m timed. simpl. destruct (decide (t = u)) as [<-|Hne].
    + by rewrite fn_lookup_insert.
    + rewrite fn_lookup_insert_ne by done. simpl. by destruct (pc s u).
  - eauto using armed_same_pc, receive_locked_ready.
  - done.
  - apply armed_update; [done|congruence|done|by intros ? ? [=]; subst].
  - apply armed_update; [done|congruence|done|by intros ? ? [=]; subst].
  - apply armed_update; [done|congruence|done|by intros ? ? [=]; subst].
  - apply armed_update; [done|congruence|done|by intros ? ? [=]; subst].
  - apply armed_update; eauto using receive_locked_ready; congruence.
  - apply armed_update; eauto using receive_locked_ready; congruence.
  - apply shutdown_locked_result in Hs as (Hq & Hst' & ->).
    destruct (stopped (shared s)) eqn:Hst; simpl; [|apply armed_notifying].
    apply armed_same_pc; [done|]. intros m _. apply ready_spec. by left.
Qed.

Lemma reachable_armed tr s : runs initial tr s → armed s.
Proof.
  revert tr s. apply (run_invariant step (λ _ s, armed s)); eauto using step_armed.
  by intros ? ? ?.
Qed.

(** A thread inside a [receive] on queue [n] that has not returned. *)
Definition waiting (s : Sys) (t : nat) (n : string) : Prop :=
  pc s t = Expired n ∨ ∃ timed, pc s t = Sleeping n timed ∨ pc s t = Woken n timed.

(** The result a ready [receive] owes: the oldest message, or [unavailable]. *)
Definition owed (st : State) (n : string) : Result (Message unit) :=
  if stopped st then unexpected (unavailable "transport shut down")
  else match queue st n with
       | e :: _ => value (makeMessageFromEnvelope e)
       | [] => unexpected (Status.timeout "no message received")
       end.

Lemma receive_locked_owed b st n :
  ready st n = true → ∃ st', receive_locked b st n = (owed st n, st').
Proof.
  intros Hr. unfold owed. destruct (stopped st) eqn:Hs.
  { rewrite receive_locked_stopped by done. eauto. }
  destruct (queue st n) as [|e q] eqn:Hq.
  { apply ready_spec in Hr as [?|?]; congruence. }
  edestruct (@receive_locked_cons unit b) as (st' & ? & _); eauto.
Qed.

Lemma woken_returns s t n :
  (pc s t = Expired n ∨ ∃ timed, pc s t = Woken n timed) →
  ready (shared s) n = true →
  ∃ s', step s (LReturn t n (owed (shared s) n)) s'.
Proof.
  intros [Ht|[timed Ht]] Hr.
  - destruct (receive_locked_owed true _ _ Hr) as [st' ?].
    eexists. by eapply step_expired_return.
  - destruct (receive_locked_owed timed _ _ Hr) as [st' ?].
    eexists. by eapply step_woken_return.
Qed.

(** *** A receiver with something to return

    What it still has to do, over all schedules of the other threads. *)

(** The thread a step belongs to, and its steps in a run. *)
Definition thread (l : Label) : nat :=
  match l with
  | LSend t _ _ | LSendFail t _ _ | LReturn t _ _ | LShutdown t | LNotify t | LInternal t => t
  end.
Definition own (t : nat) (tr : list Label) : nat := length (filter (λ l, thread l = t) tr).

Lemma own_steps_snoc t tr l : own t (tr ++ [l]) = (own t tr + if decide (thread l = t) then 1 else 0)%nat.
Proof. unfold own. rewrite filter_app, length_app, filter_cons. by case_decide. Qed.

Definition awake (s : Sys) (t : nat) (n : string) : Prop :=
  pc s t = Expired n ∨ ∃ timed, pc s t = Woken n timed.
Definition asleep (s : Sys) (t : nat) (n : string) : Prop := ∃ timed, pc s t = Sleeping n timed.

(** The position of a waiting thread, against another fact about it. *)
Ltac positions :=
  unfold waiting, awake, asleep in *;
  repeat match goal with
         | H : _ ∨ _ |- _ => destruct H
         | H : ∃ _, _ |- _ => destruct H
         end; congruence.

Lemma waiting_cases s t n : waiting s t n ↔ awake s t n ∨ asleep s t n.
Proof. unfold waiting, awake, asleep. naive_solver. Qed.

(** Steps of its own before the one that returns. *)
Definition before_return (p : Pc) : nat := match p with Sleeping _ _ => 1 | _ => 0 end.

(** A thread inside a receive whose predicate holds. *)
Definition served (s : Sys) (t : nat) (n : string) : Prop :=
  waiting s t n ∧ ready (shared s) n = true.

Lemma receive_locked_keeps {W} b st m r st' n :
  receive_locked (W := W) b st m = (r, st') → ready st n = true →
  ready st' n = true ∨ m = n ∧ ∃ msg, r = inr msg.
Proof.
  intros [(?&_&->)|(Hs&msg&->&Hs'&Hq)]%receive_locked_queue Hr; [by left|].
  destruct (decide (n = m)) as [->|Hne]; [right; eauto|]. left. revert Hr.
  rewrite !ready_spec, Hs, Hs', Hq. by rewrite decide_False.
Qed.

Lemma send_locked_keeps st m e x st' n :
  send_locked st m e = (x, st') → ready st n = true → ready st' n = true.
Proof.
  intros [(?&_&->)|(_&_&->)]%send_locked_success; [done|].
  rewrite !ready_spec, queue_push. intros [|Hq]; [by left|right].
  case_decide; [|done]. by intros [_ ?]%app_eq_nil.
Qed.

(** A thread that is not moved by an update of another's position. *)
Lemma served_other s st' t u p n :
  served s t n → ready st' n = true → u ≠ t →
  served (mkSys st' (<[u := p]> (pc s))) t n.
Proof.
  intros [Hw _] Hr Hne. split; [|done]. unfold waiting in *. simpl. by rewrite fn_lookup_insert_ne.
Qed.

(** Every step: some receiver of the queue gets a message, the thread returns
    what it is owed, or it is still waiting with its predicate true and one own
    step fewer to make if the step was its own. *)
Lemma served_step s l s' t n :
  step s l s' → served s t n →
  (∃ u msg, l = LReturn u n (inr msg)) ∨ l = LReturn t n (owed (shared s) n) ∨
  served s' t n ∧
  ((if decide (thread l = t) then 1 else 0) + before_return (pc s' t) <= before_return (pc s t))%nat.
Proof.
  intros Hstep [Hw Hr].
  assert (∀ u, pc s u = Idle ∨ pc s u = Notifying → u ≠ t) as Hout.
  { intros u Hu ->. by positions. }
  assert (∀ u st' p, pc s u = Idle ∨ pc s u = Notifying → ready st' n = true →
    let s' := mkSys st' (<[u := p]> (pc s)) in
    served s' t n ∧ ((if decide (u = t) then 1 else 0) + before_return (pc s' t) <= before_return (pc s t))%nat)
    as Hidle.
  { intros u st' p Hu Hr' s1. specialize (Hout u Hu). split; [by apply served_other|].
    rewrite decide_False by done. unfold s1. simpl. by rewrite fn_lookup_insert_ne. }
  assert (∀ u st', u ≠ t → ready st' n = true →
    served (mkSys st' (pc s)) t n ∧
    ((if decide (u = t) then 1 else 0) + before_return (pc s t) <= before_return (pc s t))%nat) as Hsame.
  { intros u st' Hne Hr'. split; [done|]. by rewrite decide_False. }
  destruct Hstep as [u m e st' Hu ? Hs|u m e x st' Hu ? Hs Hx|u Hu|u m r st' Hu ? ? Hs|u m Hu|
    u m timed Hu ? Hf|u m timed Hu|u m timed Hu Hf|u m Hu|u m timed r st' Hu ? Hs|
    u m r st' Hu Hs|u b st' Hu Hs]; cbn [thread pc].
  - right; right. apply Hidle; [auto|]. by eapply send_locked_keeps.
  - right; right. apply Hsame; [auto|]. by eapply send_locked_keeps.
  - right; right. specialize (Hout u (or_intror Hu)). rewrite decide_False by done. split.
    + split; [|done]. unfold waiting in *. simpl. rewrite fn_lookup_insert_ne by done. simpl.
      destruct Hw as [->|(timed & [->| ->])]; eauto.
    + rewrite fn_lookup_insert_ne by done. simpl. destruct (pc s t); simpl; lia.
  - destruct (receive_locked_keeps _ _ _ _ _ n Hs Hr) as [Hr'|(-> & msg & ->)]; [|left; eauto].
    right; right. apply Hsame; auto.
  - right; right. by apply Hsame; auto.
  - right; right. apply Hidle; auto.
  - right; right. destruct (decide (u = t)) as [->|Hne].
    + assert (m = n) as -> by positions.
      rewrite Hu, fn_lookup_insert. simpl. split; [|lia]. split; [|done].
      right. exists timed. right. simpl. by rewrite fn_lookup_insert.
    + split; [by apply served_other|]. by rewrite fn_lookup_insert_ne.
  - right; right. destruct (decide (u = t)) as [->|Hne].
    + assert (m = n) as -> by positions. congruence.
    + split; [by apply served_other|]. by rewrite fn_lookup_insert_ne.
  - right; right. destruct (decide (u = t)) as [->|Hne].
    + assert (m = n) as -> by positions.
      rewrite Hu, fn_lookup_insert. simpl. split; [|lia]. split; [|done].
      left. simpl. by rewrite fn_lookup_insert.
    + split; [by apply served_other|]. by rewrite fn_lookup_insert_ne.
  - destruct (decide (u = t)) as [->|Hne].
    + assert (m = n) as -> by positions.
      destruct (receive_locked_owed timed _ _ Hr) as [st1 Ho]. right; left. congruence.
    + destruct (receive_locked_keeps _ _ _ _ _ n Hs Hr) as [Hr'|(-> & msg & ->)]; [|left; eauto].
      right; right. split; [by apply served_other|]. by rewrite fn_lookup_insert_ne.
  - destruct (decide (u = t)) as [->|Hne].
    + assert (m = n) as -> by positions.
      destruct (receive_locked_owed true _ _ Hr) as [st1 Ho]. right; left. congruence.
    + destruct (receive_locked_keeps _ _ _ _ _ n Hs Hr) as [Hr'|(-> & msg & ->)]; [|left; eauto].
      right; right. split; [by apply served_other|]. by rewrite fn_lookup_insert_ne.
  - apply shutdown_locked_result in Hs as (_ & Hst & ->). right; right.
    assert (ready st' n = true) as Hr' by (apply ready_spec; by left).
    destruct (negb _); [apply Hidle; auto|]. apply Hsame; auto.
Qed.

(** The same over a run. *)
Lemma served_run s tr s' t n :
  runs s tr s' → served s t n →
  (∃ u msg, LReturn u n (inr msg) ∈ tr) ∨
  (∃ tr1 s1 tr2, tr = tr1 ++ LReturn t n (owed (shared s1) n) :: tr2 ∧ runs s tr1 s1 ∧
     ready (shared s1) n = true) ∨
  served s' t n ∧ (own t tr + before_return (pc s' t) <= before_return (pc s t))%nat.
Proof.
  intros Hrun Hs. revert tr s' Hrun. apply run_invariant; [by right; right|].
  intros tr s1 l s2 Hrun IH Hstep.
  destruct IH as [(u & msg & Hin)|[(tr1 & s0 & tr2 & -> & Hrest)|[Hs1 Hle]]].
  - left. exists u, msg. apply elem_of_app. by left.
  - right; left. exists tr1, s0, (tr2 ++ [l]). by rewrite <- app_assoc.
  - destruct (served_step _ _ _ t n Hstep Hs1) as [(u & msg & ->)|[-> |[Hs2 Hle2]]].
    + left. exists u, msg. apply elem_of_app. right. by left.
    + right; left. exists tr, s1, []. destruct Hs1. auto.
    + right; right. split; [done|]. rewrite own_steps_snoc. lia.
Qed.

(** What an awake thread with a true predicate can do, and a notifying one. *)
Lemma awake_step s l s' t n :
  awake s t n → ready (shared s) n = true → step s l s' → thread l = t →
  l = LReturn t n (owed (shared s) n).
Proof.
  intros Ha Hr Hstep Hl. unfold awake in Ha.
  destruct Hstep as [| | | | | | | |  |u m timed r st' Hu ? Hs|u m r st' Hu Hs|];
    simpl in Hl; subst; try by positions.
  - assert (m = n) as -> by positions.
    destruct (receive_locked_owed timed _ _ Hr) as [st1 Ho]. congruence.
  - assert (m = n) as -> by positions.
    destruct (receive_locked_owed true _ _ Hr) as [st1 Ho]. congruence.
Qed.

Lemma notifying_step s l s' t n timed u :
  pc s t = Sleeping n timed → pc s u = Notifying → step s l s' → thread l = u →
  l = LNotify u ∧ awake s' t n.
Proof.
  intros Ht Hu Hstep Hl. destruct Hstep; simpl in Hl; subst; try congruence. split; [done|].
  right. exists timed. simpl. rewrite fn_lookup_insert_ne by congruence. simpl. by rewrite Ht.
Qed.

(** ** Properties *)

(** C18. FIFO and exactly-once delivery under any interleaving: for every
    queue, the envelopes accepted by [send] are, in order, those already handed
    to receivers followed by those still queued. *)
Theorem fifo_exactly_once tr s :
  runs initial tr s →
  ∀ n, sent n tr = received n tr ++ queue (shared s) n.
Proof.
  intros Hrun n. revert tr s Hrun. apply run_invariant; [done|].
  intros tr s l s' _ IH Hstep. rewrite sent_snoc, received_snoc, IH.
  rewrite <- !app_assoc. f_equal. by apply step_queue.
Qed.

Lemma fifo_exactly_once_witness :
  let e := envelope_of_payload "x" in
  ∃ s, runs initial
         [LInternal 0; LSend 1 "q" e; LNotify 1;
          LReturn 0 "q" (value (makeMessageFromEnvelope e))] s ∧
    ∀ n, sent n [LInternal 0; LSend 1 "q" e; LNotify 1;
          LReturn 0 "q" (value (makeMessageFromEnvelope e))] =
         received n [LInternal 0; LSend 1 "q" e; LNotify 1;
          LReturn 0 "q" (value (makeMessageFromEnvelope e))] ++ queue (shared s) n.
Proof.
  intros e.
  assert (∃ s, runs initial
         [LInternal 0; LSend 1 "q" e; LNotify 1;
          LReturn 0 "q" (value (makeMessageFromEnvelope e))] s) as [s Hs].
  { eexists. eapply run_cons; [apply (step_sleep _ 0%nat "q" false); done|].
    eapply run_cons; [eapply (step_send _ 1%nat "q" e); done|].
    eapply run_cons; [apply (step_notify _ 1%nat); done|].
    eapply run_cons; [|apply run_nil].
    eapply (step_woken_return _ 0%nat "q" false); reflexivity. }
  exists s. split; [exact Hs|]. apply (fifo_exactly_once _ s Hs).
Defined.

(** C19. No lost wake-up: in every reachable state, a thread asleep in [receive]
    whose predicate holds (a message for it is queued, or the transport is
    stopped) has a [notify_all] still to come from some thread; so when no
    notification is due, every sleeping thread rightly sleeps. *)
Theorem no_lost_wakeup tr s t n timed :
  runs initial tr s →
  pc s t = Sleeping n timed → ready (shared s) n = true →
  ∃ t', pc s t' = Notifying.
Proof.
  intros Hrun. apply (reachable_armed tr s Hrun).
Qed.

(** C20. Progress of receivers, whatever the scheduler does.  Take any run from
    a reachable state in which a thread is inside [receive] with its predicate
    true.  Either some receiver of that queue has got a message in it; or the
    thread has returned what it was owed when it returned, the oldest message or
    [unavailable]; or it is still inside with its predicate true and has made at
    most one step: awake, its return is enabled and the only step it can make,
    and asleep, some thread is about to notify, which is enabled, the only
    step that thread can make, and one that wakes it.  So no schedule that lets
    every thread run keeps it waiting while its message stays there. *)
Theorem waiter_progress tr0 s t n tr s' :
  runs initial tr0 s → waiting s t n → ready (shared s) n = true → runs s tr s' →
  (∃ u msg, LReturn u n (inr msg) ∈ tr) ∨
  (∃ tr1 s1 tr2, tr = tr1 ++ LReturn t n (owed (shared s1) n) :: tr2 ∧ runs s tr1 s1 ∧
     ready (shared s1) n = true) ∨
  (ready (shared s') n = true ∧ (own t tr <= 1)%nat ∧
   ((awake s' t n ∧ (∃ s'', step s' (LReturn t n (owed (shared s') n)) s'') ∧
     ∀ l s'', step s' l s'' → thread l = t → l = LReturn t n (owed (shared s') n)) ∨
    (asleep s' t n ∧ ∃ u, (∃ s'', step s' (LNotify u) s'') ∧
     ∀ l s'', step s' l s'' → thread l = u → l = LNotify u ∧ awake s'' t n))).
Proof.
  intros Hreach Hw Hr Hrun.
  destruct (served_run s tr s' t n Hrun (conj Hw Hr)) as [Hgot|[Hret|[[Hw' Hr'] Hown]]];
    [by left|by right; left|]. right; right. split; [done|]. split.
  { assert (before_return (pc s t) <= 1)%nat by (by destruct (pc s t); simpl; lia). lia. }
  apply waiting_cases in Hw' as [Ha|Ha]; [left|right]; (split; [done|]).
  - split; [by apply woken_returns|]. intros l s'' Hstep Hl. by eapply awake_step.
  - destruct Ha as [timed Ht].
    destruct (reachable_armed _ _ (run_app _ _ _ _ _ _ Hreach Hrun) _ _ _ Ht Hr') as [u Hu].
    exists u. split; [eexists; by apply step_notify|].
    intros l s'' Hstep Hl. by eapply notifying_step.
Qed.

(** Shutdown is final and safe: once the transport is stopped, no
    continuation accepts or delivers a message or changes the queues, and every
    call that returns does so with [unavailable]. *)
Theorem after_shutdown s tr s' :
  stopped (shared s) = true → runs s tr s' →
  shared s' = shared s ∧
  Forall (λ l, match l with
               | LSend _ _ _ => False
               | LSendFail _ _ x => x = unavailable "transport shut down"
               | LReturn _ _ r => r = unexpected (unavailable "transport shut down")
               | _ => True
               end) tr.
Proof.
  intros Hs. revert tr s'. apply run_invariant; [done|].
  intros tr s1 l s2 _ [Heq Hall] Hstep. rewrite <- Heq in Hs.
  assert (Hready : ∀ n, ready (shared s1) n = true) by (intros; apply ready_spec; auto).
  rewrite Forall_app, Forall_singleton.
  destruct Hstep as [t n e st' ? ? Hx|t n e x st' ? ? Hx ?| |t n r st' ? ? ? Hx|
    t n ? ? Hf| | |t n ? ? Hf| |t n timed r st' ? ? Hx|t n r st' ? Hx|t b st' ? Hx];
    simpl; auto; try (by rewrite Hready in Hf).
  - apply send_locked_success in Hx as [(?&?&?)|(?&?&?)]; [done|congruence].
  - apply send_locked_success in Hx as [(?&->&->)|(?&?&?)]; [done|congruence].
  - rewrite receive_locked_stopped in Hx by done. by simplify_eq.
  - rewrite receive_locked_stopped in Hx by done. by simplify_eq.
  - rewrite receive_locked_stopped in Hx by done. by simplify_eq.
  - unfold shutdown_locked in Hx. rewrite Hs in Hx. by simplify_eq.
Qed.

(** A run to a stopped transport with a sleeping receiver, for the witnesses. *)
Lemma sleeper_then_shutdown :
  ∃ s, runs initial [LInternal 0; LShutdown 1] s ∧
    stopped (shared s) = true ∧ pc s 0%nat = Sleeping "q" false ∧
    pc s 1%nat = Notifying.
Proof.
  eexists. split_and!.
  - eapply run_cons; [apply (step_sleep _ 0%nat "q" false); done|].
    eapply run_cons; [eapply (step_shutdown _ 1%nat true); done|].
    apply run_nil.
  - done.
  - done.
  - done.
Qed.

Lemma no_lost_wakeup_witness :
  ∃ s, runs initial [LInternal 0; LShutdown 1] s ∧
    pc s 0%nat = Sleeping "q" false ∧ ready (shared s) "q" = true ∧
    ∃ t', pc s t' = Notifying.
Proof.
  destruct sleeper_then_shutdown as (s & Hrun & Hstop & Ht & _).
  assert (ready (shared s) "q" = true) as Hr by (unfold ready; by rewrite Hstop).
  exists s. split_and!; [exact Hrun|exact Ht|exact Hr|].
  apply (no_lost_wakeup _ s 0%nat "q" false Hrun Ht Hr).
Defined.

Lemma waiter_progress_witness :
  ∃ s s', runs initial [LInternal 0; LShutdown 1] s ∧ runs s [LNotify 1] s' ∧
    awake s' 0%nat "q" ∧
    ∃ s'', step s' (LReturn 0 "q" (unexpected (unavailable "transport shut down"))) s''.
Proof.
  destruct sleeper_then_shutdown as (s & Hrun & Hstop & Ht & Hn).
  pose (s' := mkSys (shared s) (<[1%nat := Idle]> (wake ∘ pc s))).
  assert (ready (shared s) "q" = true) as Hr by (unfold ready; by rewrite Hstop).
  assert (waiting s 0%nat "q") as Hw by (right; exists false; left; exact Ht).
  assert (runs s [LNotify 1] s') as Hnotify by (apply run_one, step_notify, Hn).
  exists s, s'. split; [exact Hrun|]. split; [exact Hnotify|].
  destruct (waiter_progress _ s 0%nat "q" _ s' Hrun Hw Hr Hnotify)
    as [(u & msg & Hin)|[(tr1 & s1 & tr2 & Heq & _)|(_ & _ & [(Ha & He & _)|[[timed Ha] _]])]].
  - apply list_elem_of_singleton in Hin. discriminate.
  - destruct tr1 as [|? [|]]; discriminate.
  - split; [exact Ha|]. unfold owed in He. cbn [shared s'] in He. by rewrite Hstop in He.
  - unfold s' in Ha. cbn in Ha. unfold compose in Ha. rewrite fn_lookup_insert_ne in Ha by done.
    by rewrite Ht in Ha.
Defined.

Lemma after_shutdown_witness :
  ∃ s s', stopped (shared s) = true ∧ runs s [LNotify 1] s' ∧
    shared s' = shared s ∧
    Forall (λ l, match l with
                 | LSend _ _ _ => False
                 | LSendFail _ _ x => x = unavailable "transport shut down"
                 | LReturn _ _ r => r = unexpected (unavailable "transport shut down")
                 | _ => True
                 end) [LNotify 1].
Proof.
  destruct sleeper_then_shutdown as (s & _ & Hstop & _ & Hn).
  exists s, (mkSys (shared s) (<[1%nat := Idle]> (wake ∘ pc s))).
  assert (runs s [LNotify 1] (mkSys (shared s) (<[1%nat := Idle]> (wake ∘ pc s))))
    as Hrun by (apply run_one, step_notify, Hn).
  split_and!; [exact Hstop|exact Hrun|..]; apply (after_shutdown s _ _ Hstop Hrun).
Defined.
