(* ===== verification/Codec.v ===== *)
(** * Codecs (include/mqss/protocol/Codec.hpp, ProtoCodec.hpp)

    The [Codec<T, Format>] interface and its two Protobuf specialisations.  The
    Protobuf runtime is a parameter ([ProtobufMessage]); what the codecs rely
    on is that parsing inverts serialisation ([ProtobufLaws]). *)

From S2P Require Import Prelude Status Message.

(** Format tags. *)
Inductive ProtoBinary : Set := proto_binary.
Inductive ProtoJson : Set := proto_json.

Class Codec (T Format : Type) := {
  encode : T → Result Envelope;
  decode : Envelope → Result T;
}.
Arguments encode {T} Format {_} _.
Arguments decode {T} Format {_} _.

(** What a receiver needs from a codec: decoding an encoded value gives the
    value back. *)
Class CodecLaws (T Format : Type) `{Codec T Format} := {
  decode_encode (v : T) e : encode Format v = inr e → decode Format e = inr v;
}.

(** The generated message classes and the JSON utilities of the Protobuf
    library; [None] is a [false] or non-OK result. *)
Class ProtobufMessage (T : Type) := {
  SerializeToString : T → option string;
  ParseFromString : string → option T;
  MessageToJsonString : T → option string;
  JsonStringToMessage : string → option T;
}.

Class ProtobufLaws (T : Type) `{ProtobufMessage T} := {
  parse_serialize (m : T) s :
    SerializeToString m = Some s → ParseFromString s = Some m;
  json_parse_print (m : T) s :
    MessageToJsonString m = Some s → JsonStringToMessage s = Some m;
}.

Section ProtoCodec.
Context {T : Type} `{ProtobufMessage T}.

Definition binary_encode (msg : T) : Result Envelope :=
  match SerializeToString msg with
  | None => unexpected (serialization "protobuf binary serialization failed")
  | Some payload => value (mkEnvelope payload "application/x-protobuf" ∅ "" None)
  end.

Definition binary_decode (e : Envelope) : Result T :=
  match ParseFromString (payload e) with
  | None => unexpected (serialization "protobuf binary parse failed")
  | Some msg => value msg
  end.

Definition json_encode (msg : T) : Result Envelope :=
  match MessageToJsonString msg with
  | None => unexpected (serialization "protobuf JSON serialization failed")
  | Some json => value (mkEnvelope json "application/json" ∅ "" None)
  end.

Definition json_decode (e : Envelope) : Result T :=
  match JsonStringToMessage (payload e) with
  | None => unexpected (serialization "protobuf JSON parse failed")
  | Some msg => value msg
  end.

#[export] Instance Binary_Codec : Codec T ProtoBinary :=
  {| encode := binary_encode; decode := binary_decode |}.
#[export] Instance Json_Codec : Codec T ProtoJson :=
  {| encode := json_encode; decode := json_decode |}.

#[export] Instance Binary_CodecLaws `{!ProtobufLaws T} : CodecLaws T ProtoBinary.
Proof.
  split. intros v e. simpl. unfold binary_encode, binary_decode.
  destruct (SerializeToString v) eqn:Hs; intros [= <-]; simpl.
  by rewrite (parse_serialize _ _ Hs).
Qed.
#[export] Instance Json_CodecLaws `{!ProtobufLaws T} : CodecLaws T ProtoJson.
Proof.
  split. intros v e. simpl. unfold json_encode, json_decode.
  destruct (MessageToJsonString v) eqn:Hs; intros [= <-]; simpl.
  by rewrite (json_parse_print _ _ Hs).
Qed.
End ProtoCodec.

(** ** Checked codecs

    A codec made of a printer and a reader that need not be inverse to each
    other: values that would not be read back are not encoded.  Used to
    instantiate the theorems on concrete messages. *)

Section Checked.
Context {T Format : Type} (same : T → T → bool) (print : T → Envelope) (read : Envelope → T).

Definition checked : Codec T Format := {|
  encode v := if same v (read (print v)) then value (print v)
              else unexpected (serialization "");
  decode e := value (read e);
|}.

Lemma checked_laws : (∀ v v', same v v' = true → v = v') → @CodecLaws T Format checked.
Proof.
  intros Hsame. split. intros v e. simpl. destruct (same v _) eqn:Hs; [|done].
  intros [= <-]. unfold value. f_equal. symmetry. by apply Hsame.
Qed.

Lemma checked_plain v e :
  (∀ v, reply_to (print v) = None) → @encode T Format checked v = inr e → reply_to e = None.
Proof. intros Hp. simpl. case_match; [|done]. by intros [= <-]. Qed.

Lemma checked_not_ok v s : @encode T Format checked v = inl s → ok s = false.
Proof. simpl. case_match; [done|]. by intros [= <-]. Qed.
End Checked.
