(* ===== verification/Messenger.v ===== *)
(** * Typed messaging facade (include/mqss/Messenger.hpp)

    [Messenger<Backend, Format>] over an arbitrary transport and codec.  Its
    theorems use only the interfaces [FifoTransport] and [CodecLaws]. *)

From S2P Require Import Prelude Status Message Transport Codec.
From S2P Require InMemoryTransport.
Import (hints) InMemoryTransport.

(** ** Construction

    A messenger is the transport it makes for itself, from the given options or
    from the default ones of its backend. *)

Section Construction.
Context (Backend : Type) {T W : Type} `{TransportBackend Backend T W}.

Definition Options : Type := TransportOptions Backend.
Definition make (options : Options) (s : Surroundings Backend) : T * W :=
  createTransport Backend options s.
Definition make_default (s : Surroundings Backend) : T * W :=
  make (default_options Backend) s.
End Construction.

(** A new in-memory messenger is ready and empty. *)
Lemma make_in_memory :
  let '(t, w) := make_default InMemoryTransport.InMemory [] in
  quiet t w ∧ ∀ n, pending t w n = [].
Proof. split; [split; [done|by eexists]|done]. Qed.

Section Messenger.
Context {T W : Type} `{Transport T W} {Format : Type}.

Section Typed.
Context {A : Type} `{Codec A Format}.

Definition send (transport_ : T) (dest : Address) (v : A) (args : SendArgs)
    (w : W) : Status * W :=
  match encode Format v with
  | inl s => (s, w)
  | inr e => Transport.send transport_ dest e args w
  end.

Definition receiveExtended (transport_ : T) (src : Address)
    (args : ReceiveArgs) (w : W) : option (Result (A * Message W) * W) :=
  match Transport.receive transport_ src args w with
  | None => None
  | Some (inl s, w') => Some (unexpected s, w')
  | Some (inr msg, w') =>
      match decode Format (envelope msg) with
      | inl s => Some (unexpected s, destroy msg w')
      | inr v => Some (value (v, msg), w')
      end
  end.

Definition receive (transport_ : T) (src : Address) (args : ReceiveArgs)
    (w : W) : option (Result A * W) :=
  match receiveExtended transport_ src args w with
  | None => None
  | Some (inl s, w') => Some (unexpected s, w')
  | Some (inr (v, msg), w') => Some (value v, destroy msg w')
  end.

(** The message is decoded and destroyed. *)
Lemma receive_step transport_ src args w msg w' :
  Transport.receive transport_ src args w = Some (inr msg, w') →
  receive transport_ src args w = Some (decode Format (envelope msg), destroy msg w').
Proof. unfold receive, receiveExtended. intros ->. by destruct (decode Format (envelope msg)). Qed.

(** Sending a list of values one after the other, and receiving [n]. *)
Fixpoint send_all (t : T) (dest : Address) (vs : list A) (w : W)
    : list Status * W :=
  match vs with
  | [] => ([], w)
  | v :: vs =>
      let '(s, w1) := send t dest v default_send_args w in
      let '(ss, w2) := send_all t dest vs w1 in
      (s :: ss, w2)
  end.

Fixpoint receive_n (t : T) (src : Address) (args : ReceiveArgs) (n : nat)
    (w : W) : option (list (Result A) * W) :=
  match n with
  | O => Some ([], w)
  | S n =>
      match receive t src args w with
      | None => None
      | Some (r, w1) =>
          match receive_n t src args n w1 with
          | None => None
          | Some (rs, w2) => Some (r :: rs, w2)
          end
      end
  end.
End Typed.

Definition features (transport_ : T) : FeatureSet := Transport.features transport_.

(** ** Helper lemmas *)

Section Facts.
Context {A : Type} `{CodecLaws A Format} `{!FifoTransport T W}.

Lemma send_encoded t dest (v : A) args w e :
  encode Format v = inr e →
  send t dest v args w = Transport.send t dest e args w.
Proof. unfold send. by intros ->. Qed.

(** Consuming the head of the queue, whatever decoding makes of it. *)
Lemma receive_head t src args w e q :
  quiet t w → name src ≠ "" → pending t w (name src) = e :: q →
  ∃ w', receive t src args w = Some (decode Format (T := A) e, w') ∧
    quiet t w' ∧
    ∀ n, pending t w' n = if decide (n = name src) then q else pending t w n.
Proof.
  intros Hw Hn Hq.
  destruct (receive_fifo t src args w e q Hw Hn Hq)
    as (msg & w' & Hr & Hw' & <- & Hc & Hp).
  exists w'. split; [|done]. rewrite (receive_step _ _ _ _ _ _ Hr).
  unfold destroy. by rewrite Hc.
Qed.

Lemma send_all_pending t dest (vs : list A) es w :
  quiet t w → name dest ≠ "" →
  Forall2 (λ v e, encode Format v = inr e) vs es →
  ∃ w', send_all t dest vs w = (replicate (length vs) success, w') ∧
    quiet t w' ∧
    ∀ n, pending t w' n =
         if decide (n = name dest) then pending t w n ++ es else pending t w n.
Proof.
  intros Hw Hn Hes. revert w Hw.
  induction Hes as [|v e vs es Hv _ IH]; intros w Hw; simpl.
  { exists w. split_and!; [done..|]. intros n. rewrite app_nil_r.
    by case_decide. }
  rewrite (send_encoded _ _ _ _ _ _ Hv).
  destruct (send_fifo t dest e default_send_args w) as (w1 & -> & Hw1 & Hp1);
    [done..|].
  destruct (IH w1 Hw1) as (w2 & -> & Hw2 & Hp2).
  exists w2. split_and!; [done..|]. intros n. rewrite Hp2, Hp1.
  case_decide; [|done]. by rewrite <- app_assoc.
Qed.

Lemma receive_n_pending t src args (vs : list A) es q w :
  quiet t w → name src ≠ "" →
  Forall2 (λ v e, encode Format v = inr e) vs es →
  pending t w (name src) = es ++ q →
  ∃ w', receive_n t src args (length vs) w = Some (value <$> vs, w') ∧
    quiet t w' ∧ pending t w' (name src) = q.
Proof.
  intros Hw Hn Hes. revert w Hw.
  induction Hes as [|v e vs es Hv _ IH]; intros w Hw Hq; simpl in *; [eauto|].
  destruct (receive_head t src args w e (es ++ q)) as (w1 & -> & Hw1 & Hp1);
    [done..|].
  rewrite (decode_encode _ _ Hv).
  destruct (IH w1 Hw1) as (w2 & -> & Hw2 & Hp2); [|eauto].
  rewrite Hp1. by case_decide.
Qed.

(** ** Properties *)

(** C26. Typed round trip: on a quiet transport, values sent one after the
    other to an empty queue are all accepted, and the same number of
    receives returns exactly these values in the order they were sent,
    leaving the queue empty. *)
Theorem typed_roundtrip t a args (vs : list A) es w :
  quiet t w → name a ≠ "" →
  pending t w (name a) = [] →
  Forall2 (λ v e, encode Format v = inr e) vs es →
  ∃ w1 w2,
    send_all t a vs w = (replicate (length vs) success, w1) ∧
    receive_n t a args (length vs) w1 = Some (value <$> vs, w2) ∧
    pending t w2 (name a) = [].
Proof.
  intros Hw Hn Hempty Hes.
  destruct (send_all_pending t a vs es w) as (w1 & Hs & Hw1 & Hp1); [done..|].
  destruct (receive_n_pending t a args vs es [] w1) as (w2 & Hr & _ & Hp2);
    [done..| |eauto].
  rewrite Hp1, Hempty, app_nil_r. by case_decide.
Qed.
End Facts.

Section Errors.
Context {A : Type} `{Codec A Format} `{!FifoTransport T W}.

(** Failures of the codec: a value that does not encode is reported
    with the codec's status and the transport is not called; a message that
    does not decode is reported with the codec's status and has been removed
    from the queue, so the next receive sees the message after it. *)
Theorem codec_errors t a (v : A) sargs args w e q s :
  (encode Format v = inl s → send t a v sargs w = (s, w)) ∧
  (quiet t w → name a ≠ "" → pending t w (name a) = e :: q →
   decode Format (T := A) e = inl s →
   ∃ w', receive (A := A) t a args w = Some (unexpected s, w') ∧
     pending t w' (name a) = q).
Proof.
  split; [by unfold send; intros ->|]. intros Hw Hn Hq Hd.
  destruct (receive_fifo t a args w e q Hw Hn Hq)
    as (msg & w' & Hr & Hw' & <- & Hc & Hp).
  exists w'. rewrite (receive_step _ _ _ _ _ _ Hr), Hd. unfold destroy. rewrite Hc.
  split; [done|]. rewrite Hp. by case_decide.
Qed.
End Errors.
End Messenger.

(** ** Instances for the witnesses: one-field text messages over the in-memory
    transport; the text [bad] neither serialises nor parses. *)

Definition text_wire (s : string) : option string :=
  if bool_decide (s = "bad") then None else Some s.

#[local] Instance text_message : ProtobufMessage string :=
  {| SerializeToString := text_wire; ParseFromString := text_wire;
     MessageToJsonString := text_wire; JsonStringToMessage := text_wire |}.
#[local] Instance text_laws : ProtobufLaws string.
Proof.
  split; intros m s; simpl; unfold text_wire; case_bool_decide; intros [= <-];
    by rewrite bool_decide_false.
Qed.

Definition text_envelope (s : string) : Envelope :=
  mkEnvelope s "application/json" ∅ "" None.

Definition fresh_world : InMemoryTransport.World := InMemoryTransport.createTransport [].

Lemma fresh_world_quiet : InMemoryTransport.quiet tt fresh_world.
Proof. split; [done|]. eexists; split; done. Qed.

Lemma typed_roundtrip_witness :
  ∃ w1 w2,
    send_all (Format := ProtoJson) tt (mkAddress "tasks") ["a"; "b"] fresh_world
      = ([success; success], w1) ∧
    receive_n (Format := ProtoJson) tt (mkAddress "tasks") default_receive_args 2 w1
      = Some ([value "a"; value "b"], w2) ∧
    Transport.pending tt w2 "tasks" = [].
Proof.
  apply (typed_roundtrip (Format := ProtoJson) tt (mkAddress "tasks")
           default_receive_args ["a"; "b"] [text_envelope "a"; text_envelope "b"]
           fresh_world).
  - exact fresh_world_quiet.
  - discriminate.
  - reflexivity.
  - repeat constructor.
Defined.

Lemma codec_errors_witness :
  let w := InMemoryTransport.mkWorld
             (Some (InMemoryTransport.push InMemoryTransport.initial_state "q"
                      (text_envelope "bad"))) [] in
  let s := serialization "protobuf JSON parse failed" in
  decode ProtoJson (T := string) (text_envelope "bad") = inl s ∧
  ∃ w', receive (Format := ProtoJson) (A := string) tt (mkAddress "q")
          default_receive_args w = Some (unexpected s, w') ∧
    Transport.pending tt w' "q" = [].
Proof.
  intros w s. split; [reflexivity|].
  refine (proj2 (codec_errors (Format := ProtoJson) (A := string) tt (mkAddress "q")
             "" default_send_args default_receive_args w
             (text_envelope "bad") [] s) _ _ _ _).
  - split; [reflexivity|]. eexists; split; reflexivity.
  - discriminate.
  - reflexivity.
  - reflexivity.
Defined.
