(* ===== verification/QueueTransport.v ===== *)
(** * Several clients on message queues

    The interface the processes of the example systems are verified against.
    It is weaker than [FifoTransport] in three ways, which is what a broker can
    promise: a queue belongs to a broker, so the same name may stand for
    different queues under different handles ([place]); an envelope may be
    changed on its way ([carried]); and a receive may lose the messages behind
    the one it returns unless its arguments are [lossless].  [FaultyQueues] adds
    what holds when calls fail.

    Typed messages over the interface, for codecs that leave the reply address
    of their envelopes unset, as the Protobuf codecs do.  Their receives are
    acknowledged automatically, as those of both systems are: the typed facade
    destroys the message it has decoded, and a message to be acknowledged by hand
    then goes back to its queue (see [RabbitMqQueues]). *)

From S2P Require Import Prelude Status Message Transport Codec.
From S2P Require Messenger InMemoryTransport.
Import (hints) InMemoryTransport.

(** ** The interface *)

(** No negative timeout. *)
Definition prompt (args : ReceiveArgs) : Prop :=
  match timeout args with Some ms => 0 <= ms | None => True end.

Class QueueTransport (T W : Type) `{Transport T W} := {
  Place : Type;
  Place_eq_dec : EqDecision Place;
  place : T → string → Place;
  settled : W → Prop;                    (* every client running, undisturbed *)
  contents : W → Place → list Envelope;
  carried : Envelope → Envelope;
  lossless : ReceiveArgs → bool;
  carried_plain e : reply_to e = None → carried e = e;
  send_queue t dest e args w :
    settled w → name dest ≠ "" → confirm args = false →
    ∃ w', send t dest e args w = (success, w') ∧ settled w' ∧
      ∀ p, contents w' p =
           contents w p ++ (if decide (p = place t (name dest)) then [carried e] else []);
  receive_queue t src args w e q :
    settled w → name src ≠ "" → prompt args →
    contents w (place t (name src)) = e :: q →
    ∃ msg w' lost, receive t src args w = Some (inr msg, w') ∧ settled w' ∧
      envelope msg = e ∧ (ack_mode args = Auto → captured_ msg = None) ∧
      q = lost ++ contents w' (place t (name src)) ∧
      (lossless args = true → lost = []) ∧
      ∀ p, p ≠ place t (name src) → contents w' p = contents w p;
}.
#[export] Existing Instance Place_eq_dec.

(** What holds when calls fail: a client may have been shut down, a connection
    lost, a queue empty.  [calm] says only that no other thread of a client
    interferes with a call.  A send may fail although the message was stored; a
    receive that fails, a timeout among the failures, may lose messages unless
    its arguments are [failsafe]. *)
Class FaultyQueues (T W : Type) `{QueueTransport T W} := {
  calm : W → Prop;
  failsafe : ReceiveArgs → bool;
  calm_settled w : settled w → calm w;
  send_faulty t dest e args w st w' :
    calm w → send t dest e args w = (st, w') →
    calm w' ∧ ∃ stored, (stored = [] ∨ stored = [carried e]) ∧
      (ok st = true → stored = [carried e]) ∧
      ∀ p, contents w' p =
           contents w p ++ (if decide (p = place t (name dest)) then stored else []);
  receive_faulty t src args w r w' :
    calm w → receive t src args w = Some (r, w') →
    calm w' ∧ (∃ lost,
      match r with
      | inr msg => contents w (place t (name src)) =
                     envelope msg :: lost ++ contents w' (place t (name src)) ∧
                   (lossless args = true → lost = []) ∧
                   (ack_mode args = Auto → captured_ msg = None)
      | inl _ => contents w (place t (name src)) = lost ++ contents w' (place t (name src)) ∧
                 (failsafe args = true → lost = [])
      end) ∧
      ∀ p, p ≠ place t (name src) → contents w' p = contents w p;
}.

(** Codecs whose envelopes carry no reply address, and whose failures are
    failures. *)
Class PlainCodec (A Format : Type) `{Codec A Format} := {
  encode_plain (v : A) e : encode Format v = inr e → reply_to e = None;
  encode_not_ok (v : A) s : encode Format v = inl s → ok s = false;
}.

#[export] Instance Binary_Plain {A} `{ProtobufMessage A} : PlainCodec A ProtoBinary.
Proof. split; intros v e; simpl; unfold binary_encode; case_match; by intros [= <-]. Qed.
#[export] Instance Json_Plain {A} `{ProtobufMessage A} : PlainCodec A ProtoJson.
Proof. split; intros v e; simpl; unfold json_encode; case_match; by intros [= <-]. Qed.

(** ** Implementations *)

(** The in-memory transport, with one handle, loses nothing. *)
#[export] Program Instance InMemory_Queues :
    QueueTransport unit InMemoryTransport.World := {
  Place := string;
  place _ n := n;
  settled := InMemoryTransport.quiet tt;
  contents := InMemoryTransport.pending tt;
  carried e := e;
  lossless _ := true;
}.
Next Obligation. done. Qed.
Next Obligation.
  intros [] dest e args w Hw Hn Hc.
  destruct (@send_fifo _ _ _ InMemoryTransport.InMemory_Fifo tt dest e args w Hw Hn Hc)
    as (w' & Hs & Hw' & Hp).
  exists w'. split_and!; [done..|]. intros p. simpl in Hp. rewrite Hp.
  case_decide; [done|]. by rewrite app_nil_r.
Qed.
Next Obligation.
  intros [] src args w e q Hw Hn _ Hq.
  destruct (@receive_fifo _ _ _ InMemoryTransport.InMemory_Fifo tt src args w e q Hw Hn Hq)
    as (msg & w' & Hr & Hw' & He & Hcap & Hp).
  simpl in Hp. exists msg, w', []. split_and!; [done|done|done|done| |done|].
  - by rewrite Hp, decide_True.
  - intros p Hne. by rewrite Hp, decide_False.
Qed.

#[export] Program Instance InMemory_Faulty : FaultyQueues unit InMemoryTransport.World := {
  calm w := InMemoryTransport.others w = [];
  failsafe _ := true;
}.
Next Obligation. by intros w [Hw _]. Qed.
Next Obligation.
  intros [] dest e args w st w' Hw Hs. simpl in *.
  assert (∀ s, (s, w) = (st, w') → ok s = false →
    InMemoryTransport.others w' = [] ∧ ∃ stored, (stored = [] ∨ stored = [e]) ∧
      (ok st = true → stored = [e]) ∧
      ∀ p, InMemoryTransport.pending tt w' p = InMemoryTransport.pending tt w p ++ (if decide (p = name dest) then stored else []))
    as Hfailed.
  { intros s [= -> ->] Hf. split; [done|]. exists []. rewrite Hf. split_and!; [by left|done|].
    intros p. case_decide; by rewrite app_nil_r. }
  unfold InMemoryTransport.send, InMemoryTransport.send_locked in Hs.
  case_bool_decide; [by eapply Hfailed|]. destruct (confirm args); [by eapply Hfailed|].
  destruct (InMemoryTransport.state_ w) as [st0|] eqn:Hst; [|by eapply Hfailed].
  destruct (InMemoryTransport.stopped st0); injection Hs as <- <-; (split; [done|]).
  - exists []. split_and!; [by left|done|]. intros p. unfold InMemoryTransport.pending.
    rewrite Hst. simpl. case_decide; by rewrite app_nil_r.
  - exists [e]. split_and!; [by right|done|]. intros p. unfold InMemoryTransport.pending.
    rewrite Hst. simpl. rewrite InMemoryTransport.queue_push.
    case_decide; by rewrite ?app_nil_r.
Qed.
Next Obligation.
  intros [] src args w r w' Hw Hr. simpl in *.
  unfold InMemoryTransport.receive in Hr. rewrite Hw in Hr.
  case_bool_decide; simplify_eq; [by split_and!; [|exists []|]|].
  destruct (InMemoryTransport.state_ w) as [st|] eqn:Hst;
    simplify_eq; [|by split_and!; [|exists []|]].
  assert (∀ b, InMemoryTransport.finish b (name src) st [] = Some (r, w') →
    InMemoryTransport.others w' = [] ∧ (∃ lost,
      match r with
      | inr msg => InMemoryTransport.pending () w (name src) =
                     envelope msg :: lost ++ InMemoryTransport.pending () w' (name src) ∧
                   (true = true → lost = []) ∧ (ack_mode args = Auto → captured_ msg = None)
      | inl _ => InMemoryTransport.pending () w (name src) =
                   lost ++ InMemoryTransport.pending () w' (name src) ∧ (true = true → lost = [])
      end) ∧
      ∀ p, p ≠ name src → InMemoryTransport.pending () w' p = InMemoryTransport.pending () w p)
    as Hfinish.
  { intros b. unfold InMemoryTransport.finish, InMemoryTransport.pending. rewrite Hst.
    destruct (InMemoryTransport.stopped st) eqn:Hstop;
      [|destruct (InMemoryTransport.queue st (name src)) as [|e q] eqn:Hq].
    - rewrite InMemoryTransport.receive_locked_stopped by done. intros [= <- <-].
      split_and!; [done|by exists []|done].
    - rewrite InMemoryTransport.receive_locked_nil by done. intros [= <- <-]. simpl.
      split_and!; [done|by exists []; rewrite Hq|done].
    - edestruct (@InMemoryTransport.receive_locked_cons InMemoryTransport.World b)
        as (st' & -> & _ & Hq'); [done..|].
      intros [= <- <-]. simpl. split_and!; [done| |].
      + exists []. by rewrite Hq', decide_True.
      + intros p Hp. by rewrite Hq', decide_False. }
  unfold InMemoryTransport.wait_ready in Hr.
  repeat case_match; simplify_eq/=; try (by eapply Hfinish);
    split_and!; try done; by exists [].
Qed.

(** Its receives with a timeout return. *)
Lemma in_memory_receive_returns {A Format} `{Codec A Format} n args ms
    (w : InMemoryTransport.World) :
  timeout args = Some ms →
  is_Some (Messenger.receive (T := unit) (Format := Format) (A := A) tt (mkAddress n) args w).
Proof.
  intros Ht. assert (∃ r w', receive (T := unit) tt (mkAddress n) args w = Some (r, w'))
    as (r & w' & Hr).
  { simpl. unfold InMemoryTransport.receive. rewrite Ht.
    case_bool_decide; [eauto|]. destruct (InMemoryTransport.state_ w) as [st|]; [|eauto].
    assert (∀ b st bs, ∃ r w', InMemoryTransport.finish b (name (mkAddress n)) st bs = Some (r, w'))
      as Hfin.
    { intros b st' bs. unfold InMemoryTransport.finish.
      destruct (InMemoryTransport.receive_locked _ _ _). eauto. }
    destruct (InMemoryTransport.ready _ _); [apply Hfin|]. case_match; [eauto|].
    destruct (InMemoryTransport.wait_ready _ _ _) as [[? ?] ?]. apply Hfin. }
  destruct r as [s|msg]; [|rewrite (Messenger.receive_step _ _ _ _ _ _ Hr); eauto].
  unfold Messenger.receive, Messenger.receiveExtended. rewrite Hr. eauto.
Qed.

(** ** Typed messages *)

Section Typed.
Context {T W : Type} `{QueueTransport T W} {Format : Type}.
Context {A : Type} `{CodecLaws A Format} `{!PlainCodec A Format}.

Lemma send_typed t n (v : A) e w :
  settled w → n ≠ "" → encode Format v = inr e →
  ∃ w', Messenger.send (Format := Format) t (mkAddress n) v default_send_args w =
          (success, w') ∧ settled w' ∧
    ∀ p, contents w' p = contents w p ++ (if decide (p = place t n) then [e] else []).
Proof.
  intros Hw Hn He. unfold Messenger.send. rewrite He.
  destruct (send_queue t (mkAddress n) e default_send_args w) as (w' & -> & Hw' & Hp);
    [done..|].
  exists w'. split_and!; [done..|]. by rewrite (carried_plain e (encode_plain _ _ He)) in Hp.
Qed.

(** A typed receive with automatic acknowledgement: the message holds nothing. *)
Lemma receive_auto t n args w msg w' :
  receive t (mkAddress n) args w = Some (inr msg, w') → captured_ msg = None →
  Messenger.receive (Format := Format) (A := A) t (mkAddress n) args w =
    Some (decode Format (envelope msg), w').
Proof. intros Hr Hc. rewrite (Messenger.receive_step _ _ _ _ _ _ Hr). unfold destroy. by rewrite Hc. Qed.

(** Receiving with arguments that lose nothing, or the only message. *)
Definition exact (args : ReceiveArgs) (q : list Envelope) : Prop :=
  lossless args = true ∨ q = [].

Lemma receive_typed t n args e q w :
  settled w → n ≠ "" → prompt args → ack_mode args = Auto → exact args q → contents w (place t n) = e :: q →
  ∃ w', Messenger.receive (Format := Format) (A := A) t (mkAddress n) args w =
          Some (decode Format e, w') ∧ settled w' ∧
    ∀ p, contents w' p = if decide (p = place t n) then q else contents w p.
Proof.
  intros Hw Hn Hargs Hauto Hex Hq.
  destruct (receive_queue t (mkAddress n) args w e q) as
    (msg & w' & lost & Hr & Hw' & <- & Hcap & Hl & Hlost & Hp); [done..|]. simpl in Hl, Hp.
  exists w'. split_and!; [|done|].
  - by apply receive_auto; [|apply Hcap].
  - intros p. case_decide as Hd; [subst p|by apply Hp].
    destruct Hex as [Hex| ->]; [by rewrite Hl, (Hlost Hex)|].
    by destruct (app_eq_nil _ _ (eq_sym Hl)) as [_ ->].
Qed.

(** A value that was sent is what a receiver gets. *)
Lemma receive_value t n args (v : A) e q w :
  settled w → n ≠ "" → prompt args → ack_mode args = Auto → exact args q →
  contents w (place t n) = e :: q → encode Format v = inr e →
  ∃ w', Messenger.receive (Format := Format) (A := A) t (mkAddress n) args w =
          Some (inr v, w') ∧ settled w' ∧
    ∀ p, contents w' p = if decide (p = place t n) then q else contents w p.
Proof.
  intros Hw Hn Hargs Hauto Hex Hq He.
  destruct (receive_typed t n args e q w) as (w' & Hr & Hw' & Hp); [done..|].
  exists w'. by rewrite Hr, (decode_encode _ _ He).
Qed.
End Typed.

(** ** Exchanges: what a process sees of its queues

    One send of any value and one receive that finds something, by their effect
    on the queues; shared by the processes of both example systems. *)

Section Exchange.
Context {T W : Type} `{QueueTransport T W} {Format : Type}.
Context {A : Type} `{CodecLaws A Format}.

Definition put (t : T) (queue : string) (v : A) (w : W) : Status * W :=
  Messenger.send (Format := Format) t (mkAddress queue) v default_send_args w.

(** A receive from a queue that holds something. *)
Definition found (args : ReceiveArgs) (t : T) (queue : string) (w : W)
    (r : Result A) (w' : W) : Prop :=
  contents w (place t queue) ≠ [] ∧
  Messenger.receive (Format := Format) (A := A) t (mkAddress queue) args w = Some (r, w').

Notation encodes := (Forall2 (λ (v : A) e, encode Format v = inr e)).

Lemma put_spec `{!PlainCodec A Format} t n (v : A) w st w' :
  settled w → n ≠ "" → put t n v w = (st, w') →
  settled w' ∧
  ((ok st = false ∧ w' = w) ∨
   (ok st = true ∧ ∃ e, encode Format v = inr e ∧
    ∀ p, contents w' p = contents w p ++ (if decide (p = place t n) then [e] else []))).
Proof.
  intros Hw Hn. unfold put. destruct (encode Format v) as [s|e] eqn:He.
  - unfold Messenger.send. rewrite He. intros [= <- <-]. split; [done|]. left.
    split; [by eapply encode_not_ok|done].
  - intros Hs. destruct (send_typed t n v e w Hw Hn He) as (w0 & Hs' & Hw' & Hp).
    rewrite Hs' in Hs. injection Hs as <- <-. split; [done|]. right. eauto.
Qed.

(** The receive takes the first message and what it loses behind it. *)
Lemma found_spec args t n w r w' :
  settled w → n ≠ "" → prompt args → ack_mode args = Auto → found args t n w r w' →
  settled w' ∧ (∃ e skipped,
    contents w (place t n) = e :: skipped ++ contents w' (place t n) ∧
    r = decode Format e ∧ (lossless args = true → skipped = [])) ∧
  ∀ p, p ≠ place t n → contents w' p = contents w p.
Proof.
  intros Hw Hn Hargs Hauto [Hne Ht]. destruct (contents w (place t n)) as [|e es] eqn:Hq; [done|].
  destruct (receive_queue t (mkAddress n) args w e es) as
    (msg & w0 & l & Hr & Hw' & <- & Hcap & Hl & Hll & Hp); [done..|]. simpl in Hl, Hp.
  rewrite (receive_auto _ _ _ _ _ _ Hr (Hcap Hauto)) in Ht. injection Ht as <- <-.
  split; [done|]. split; [|done]. exists (envelope msg), l. by rewrite Hl.
Qed.

(** On a queue of encoded values it returns the first of them. *)
Lemma found_value args t n w r w' (vs : list A) :
  settled w → n ≠ "" → prompt args → ack_mode args = Auto → encodes vs (contents w (place t n)) →
  found args t n w r w' →
  ∃ v skipped vs', r = inr v ∧ vs = v :: skipped ++ vs' ∧
    encodes vs' (contents w' (place t n)) ∧ (lossless args = true → skipped = []).
Proof.
  intros Hw Hn Hargs Hauto Hvs Hf.
  destruct (found_spec args t n w r w' Hw Hn Hargs Hauto Hf) as (_ & (e & l & Hq & -> & Hl) & _).
  rewrite Hq in Hvs. apply Forall2_cons_inv_r in Hvs as (v & vs1 & He & Hvs1 & ->).
  apply Forall2_app_inv_r in Hvs1 as (l1 & l2 & Hl1 & Hl2 & ->).
  exists v, l1, l2. split_and!; [by apply decode_encode|done..|].
  intros Hx. rewrite (Hl Hx) in Hl1. by apply Forall2_nil_inv_r in Hl1.
Qed.

Lemma found_exists args t n w :
  settled w → n ≠ "" → prompt args → contents w (place t n) ≠ [] →
  ∃ r w', found args t n w r w'.
Proof.
  intros Hw Hn Hargs Hne. destruct (contents w (place t n)) as [|e es] eqn:Hq; [done|].
  destruct (receive_queue t (mkAddress n) args w e es) as (msg & w' & _ & Hr & _);
    [done..|].
  unfold found. rewrite Hq, (Messenger.receive_step _ _ _ _ _ _ Hr). by eexists _, _.
Qed.

(** The same when calls fail. *)
Lemma put_faulty `{!PlainCodec A Format} `{!FaultyQueues T W} t n (v : A) w st w' :
  calm w → put t n v w = (st, w') →
  calm w' ∧ ∃ stored : list Envelope,
    (stored = [] ∨ ∃ e, stored = [e] ∧ encode Format v = inr e) ∧
    (ok st = true → stored ≠ []) ∧
    ∀ p, contents w' p = contents w p ++ (if decide (p = place t n) then stored else []).
Proof.
  intros Hw. unfold put, Messenger.send. destruct (encode Format v) as [s|e] eqn:He.
  - intros [= <- <-]. split; [done|]. exists [].
    split_and!; [by left|by rewrite (encode_not_ok v s He)|].
    intros p. case_decide; by rewrite app_nil_r.
  - intros Hs. apply send_faulty in Hs as (Hw' & stored & Hst & Hok & Hp); [|done].
    rewrite (carried_plain e (encode_plain _ _ He)) in Hst, Hok. split; [done|].
    exists stored. split_and!; [|by intros ->%Hok|done].
    destruct Hst as [->| ->]; [by left|right; by eexists].
Qed.

(** What a receive with result [r] that leaves the queue [q'] has taken from
    [q]: a message that decodes to [r], and those it loses behind it; or only
    messages that are lost, of which there are none when the arguments are
    [failsafe] and what is there decodes. *)
Definition took (args : ReceiveArgs) `{!FaultyQueues T W} (r : Result A)
    (q q' : list Envelope) : Prop :=
  (∃ e lost, q = e :: lost ++ q' ∧ r = decode Format e ∧ (lossless args = true → lost = [])) ∨
  ∃ s lost, r = inl s ∧ q = lost ++ q' ∧ (failsafe args = true → lost = []).

Lemma receive_took `{!FaultyQueues T W} args t n w (r : Result A) w' :
  calm w → ack_mode args = Auto →
  Messenger.receive (Format := Format) (A := A) t (mkAddress n) args w = Some (r, w') →
  calm w' ∧ took args r (contents w (place t n)) (contents w' (place t n)) ∧
  ∀ p, p ≠ place t n → contents w' p = contents w p.
Proof.
  intros Hw Hauto Ht. destruct (receive t (mkAddress n) args w) as [[r0 w0]|] eqn:Hr;
    [|unfold Messenger.receive, Messenger.receiveExtended in Ht; by rewrite Hr in Ht].
  pose proof Hr as Hq. apply receive_faulty in Hq as (Hw' & [lost Hl] & Hp); [|done].
  simpl in Hl, Hp. destruct r0 as [s|msg].
  - unfold Messenger.receive, Messenger.receiveExtended in Ht. rewrite Hr in Ht.
    injection Ht as <- <-. destruct Hl. split_and!; [done| |done]. right. by exists s, lost.
  - destruct Hl as (Hl & Hll & Hcap).
    rewrite (receive_auto _ _ _ _ _ _ Hr (Hcap Hauto)) in Ht. injection Ht as <- <-.
    split_and!; [done| |done]. left. by exists (envelope msg), lost.
Qed.

(** On a queue of encoded values. *)
Lemma took_values `{!FaultyQueues T W} args (r : Result A) q q' (vs : list A) :
  encodes vs q → took args r q q' →
  ∃ lost vs', encodes vs' q' ∧
    match r with
    | inr v => vs = v :: lost ++ vs' ∧ (lossless args = true → lost = [])
    | inl _ => vs = lost ++ vs' ∧ (failsafe args = true → lost = [])
    end.
Proof.
  intros Hvs [(e & lost & -> & -> & Hl)|(s & lost & -> & -> & Hl)].
  - apply Forall2_cons_inv_r in Hvs as (v & vs1 & He & Hvs1 & ->).
    apply Forall2_app_inv_r in Hvs1 as (l1 & l2 & Hl1 & Hl2 & ->).
    rewrite (decode_encode _ _ He). exists l1, l2. split_and!; [done..|].
    intros Hx. rewrite (Hl Hx) in Hl1. by apply Forall2_nil_inv_r in Hl1.
  - apply Forall2_app_inv_r in Hvs as (l1 & l2 & Hl1 & Hl2 & ->).
    exists l1, l2. split_and!; [done..|].
    intros Hx. rewrite (Hl Hx) in Hl1. by apply Forall2_nil_inv_r in Hl1.
Qed.

(** A receive that returns a value has found it. *)
Lemma receive_found `{!FaultyQueues T W} args t n w (v : A) w' :
  calm w → ack_mode args = Auto →
  Messenger.receive (Format := Format) (A := A) t (mkAddress n) args w = Some (inr v, w') → found args t n w (inr v) w' ∧ ∃ e, decode Format e = inr v.
Proof.
  intros Hw Hauto Hr. unfold found.
  apply (receive_took args t n w (inr v) w' Hw Hauto) in Hr as Ht.
  destruct Ht as (_ & [(e & l & -> & Hd & _)|(s & l & [=] & _)] & _). split; [done|by exists e].
Qed.
End Exchange.
