(* ===== verification/CharConv.v ===== *)
(** * Number and text conversions of the C++ standard library

    [std::from_chars] (base 10) and [std::to_string] as the configuration and
    the REST adapter use them, and [double] with the classification, truncation
    and comparison the adapter applies to JSON numbers. *)

From S2P Require Import Prelude.
From Stdlib Require Import SpecFloat.

(** ** std::from_chars *)

Inductive errc := errc_none | invalid_argument | result_out_of_range.

#[global] Instance errc_eq_dec : EqDecision errc.
Proof. solve_decision. Defined.

Definition digit_value (c : Ascii.ascii) : option Z :=
  let n := Z.of_N (Ascii.N_of_ascii c) in
  if bool_decide (48 <= n <= 57) then Some (n - 48) else None.

(** The maximal run of digits: its value on top of [acc], and what follows. *)
Fixpoint scan (acc : Z) (s : string) : Z * string :=
  match s with
  | EmptyString => (acc, s)
  | String c r =>
      match digit_value c with
      | Some d => scan (10 * acc + d) r
      | None => (acc, s)
      end
  end.

Definition starts_with_digit (s : string) : bool :=
  match s with
  | String c _ => match digit_value c with Some _ => true | None => false end
  | EmptyString => false
  end.

(** An integral type: its range; a minus sign is accepted when it is signed. *)
Record IntType := mkIntType { is_signed : bool; min : Z; max : Z }.
Definition int32_t : IntType := mkIntType true (-2147483648) 2147483647.
Definition uint64_t : IntType := mkIntType false 0 18446744073709551615.

(** The returned [ptr] is the text from it on; [result] is the variable passed
    by reference, unchanged unless the conversion succeeds. *)
Record from_chars_result := mkFromChars { ptr : string; ec : errc; result : Z }.

Definition from_chars (ty : IntType) (text : string) (init : Z)
    : from_chars_result :=
  let '(negative, body) :=
    match text with
    | String "-" r => if is_signed ty then (true, r) else (false, text)
    | _ => (false, text)
    end in
  if starts_with_digit body then
    let '(n, rest) := scan 0 body in
    let v := if negative : bool then - n else n in
    if bool_decide (min ty <= v <= max ty) then mkFromChars rest errc_none v
    else mkFromChars rest result_out_of_range init
  else mkFromChars text invalid_argument init.

(** The idiom of all call sites: [error == std::errc{}] and [ptr == end]. *)
Definition from_chars_all (ty : IntType) (text : string) : option Z :=
  let r := from_chars ty text 0 in
  if bool_decide (ec r = errc_none ∧ ptr r = "") then Some (result r) else None.

(** ** std::to_string *)

Definition to_string (z : Z) : string := pretty z.

(** ** double

    The IEEE binary64 numbers of the Standard Library's [SpecFloat]: a finite
    number is [(-1)^s * m * 2^e].  Comparisons are those of the real values,
    NaN compares false with everything. *)

Notation double := spec_float.

Definition isfinite (x : double) : bool :=
  match x with S754_zero _ | S754_finite _ _ _ => true | _ => false end.

(** The value is [mantissa x * 2 ^ exponent x], for a finite [x]. *)
Definition mantissa (x : double) : Z :=
  match x with S754_finite s m _ => cond_Zopp s (Zpos m) | _ => 0 end.
Definition exponent (x : double) : Z :=
  match x with S754_finite _ _ e => e | _ => 0 end.

Definition finite_compare (x y : double) : comparison :=
  let e := Z.min (exponent x) (exponent y) in
  mantissa x * 2 ^ (exponent x - e) ?= mantissa y * 2 ^ (exponent y - e).

Definition compare (x y : double) : option comparison :=
  match x, y with
  | S754_nan, _ | _, S754_nan => None
  | S754_infinity s, S754_infinity s' =>
      Some (match s, s' with
            | true, false => Lt | false, true => Gt | _, _ => Eq end)
  | S754_infinity s, _ => Some (if s then Lt else Gt)
  | _, S754_infinity s => Some (if s then Gt else Lt)
  | _, _ => Some (finite_compare x y)
  end.

Definition eqb (x y : double) : bool := bool_decide (compare x y = Some Eq).
Definition ltb (x y : double) : bool := bool_decide (compare x y = Some Lt).

(** [std::trunc]: the integral part, towards zero. *)
Definition trunc (x : double) : double :=
  match x with
  | S754_finite s m e =>
      if e <? 0 then
        match Zpos m / 2 ^ (- e) with
        | Zpos q => S754_finite s q 0
        | _ => S754_zero s
        end
      else x
  | _ => x
  end.

(** [static_cast<int>] of a double: the integral part; undefined in C++ when
    that is not an [int]. *)
Definition static_cast_int (x : double) : Z :=
  match x with
  | S754_finite s m e =>
      cond_Zopp s (if e <? 0 then Zpos m / 2 ^ (- e) else Zpos m * 2 ^ e)
  | _ => 0
  end.

(** Conversion of an integer to [double], rounding to nearest even. *)
Definition double_of_Z (z : Z) : double := binary_normalize 53 1024 z 0 false.

(** [x] is finite and its value is the integer [z]. *)
Definition is_integer (x : double) (z : Z) : Prop :=
  isfinite x = true ∧
  (if exponent x <? 0 then mantissa x = z * 2 ^ (- exponent x)
   else mantissa x * 2 ^ exponent x = z).

(** ** Facts *)

Lemma digit_value_pretty n :
  (n < 10)%N → digit_value (pretty_N_char n) = Some (Z.of_N n).
Proof.
  intros Hn.
  assert (n = 0 ∨ n = 1 ∨ n = 2 ∨ n = 3 ∨ n = 4 ∨ n = 5 ∨ n = 6 ∨ n = 7 ∨
          n = 8 ∨ n = 9)%N as Hc by lia.
  repeat destruct Hc as [->|Hc]; try reflexivity. by subst.
Qed.

Lemma scan_pretty_go n acc s :
  ∃ k, 0 <= k ∧ scan acc (pretty_N_go n s) = scan (acc * 10 ^ k + Z.of_N n) s.
Proof.
  revert acc s. induction (N.lt_wf_0 n) as [n _ IH]; intros acc s.
  destruct (decide (n = 0)%N) as [->|Hn].
  { exists 0. rewrite pretty_N_go_0. split; [lia|]. f_equal. lia. }
  rewrite pretty_N_go_step by lia.
  destruct (IH (n `div` 10)%N (N.div_lt n 10 ltac:(lia) eq_refl) acc
              (String (pretty_N_char (n `mod` 10)) s)) as (k & Hk & ->).
  exists (k + 1). split; [lia|]. simpl.
  rewrite digit_value_pretty by (apply N.mod_lt; lia).
  f_equal. rewrite Z.pow_add_r, N2Z.inj_div, N2Z.inj_mod by lia.
  pose proof (Z.div_mod (Z.of_N n) (Z.of_N 10)). lia.
Qed.

Lemma starts_with_digit_pretty_go n s :
  (0 < n)%N ∨ starts_with_digit s = true → starts_with_digit (pretty_N_go n s) = true.
Proof.
  revert s. induction (N.lt_wf_0 n) as [n _ IH]; intros s Hs.
  destruct (decide (n = 0)%N) as [->|Hn].
  { rewrite pretty_N_go_0. destruct Hs; [lia|done]. }
  rewrite pretty_N_go_step by lia. apply IH; [apply N.div_lt; lia|]. right. simpl.
  by rewrite digit_value_pretty by (apply N.mod_lt; lia).
Qed.

Lemma scan_pretty (n : N) : scan 0 (pretty n) = (Z.of_N n, "").
Proof.
  unfold pretty, pretty_N. case_decide as Hn; [by subst|].
  destruct (scan_pretty_go n 0 "") as (k & _ & ->). simpl. f_equal; lia.
Qed.

Lemma starts_with_digit_pretty (n : N) : starts_with_digit (pretty n) = true.
Proof.
  unfold pretty, pretty_N. case_decide as Hn; [done|].
  apply starts_with_digit_pretty_go. lia.
Qed.

Lemma digit_not_minus s : starts_with_digit s = true → ∀ r, s ≠ String "-" r.
Proof. by intros Hs r ->. Qed.

(** A text of digits in range is converted in full. *)
Lemma from_chars_digits ty text n :
  starts_with_digit text = true → scan 0 text = (n, "") → min ty <= n <= max ty →
  from_chars ty text 0 = mkFromChars "" errc_none n.
Proof.
  intros Hs Hscan Hn. unfold from_chars.
  destruct text as [|c r]; [done|].
  assert ((match String c r with String "-" r' => if is_signed ty then (true, r')
           else (false, String c r) | _ => (false, String c r) end) =
          (false, String c r)) as ->.
  { pose proof (digit_not_minus _ Hs r).
    by destruct c as [[] [] [] [] [] [] [] []]. }
  rewrite Hs, Hscan. cbv beta iota zeta. by rewrite bool_decide_true.
Qed.

(** A minus sign is accepted in front of the digits by a signed type. *)
Lemma from_chars_minus ty text n :
  is_signed ty = true →
  starts_with_digit text = true → scan 0 text = (n, "") → min ty <= - n <= max ty →
  from_chars ty (String "-" text) 0 = mkFromChars "" errc_none (- n).
Proof.
  intros Hty Hs Hscan Hn. unfold from_chars. rewrite Hty. cbv beta iota zeta.
  rewrite Hs, Hscan. cbv beta iota zeta. by rewrite bool_decide_true.
Qed.

(** The decimal text of an integer of the type is accepted in full. *)
(** Conversions that succeed are in the range of the type. *)
Lemma from_chars_range ty text init :
  ec (from_chars ty text init) = errc_none →
  min ty <= result (from_chars ty text init) <= max ty.
Proof.
  unfold from_chars.
  destruct (match text with
            | String "-" r => if is_signed ty then (true, r) else (false, text)
            | _ => (false, text)
            end) as [negative body].
  destruct (starts_with_digit body); [|done]. destruct (scan 0 body) as [n rest].
  by case_bool_decide.
Qed.

Lemma from_chars_all_range ty text z :
  from_chars_all ty text = Some z → min ty <= z <= max ty.
Proof.
  unfold from_chars_all. case_bool_decide as Hec; [|done]. intros [= <-].
  by apply from_chars_range, Hec.
Qed.

Lemma from_chars_all_to_string ty z :
  min ty <= z <= max ty → (is_signed ty = false → 0 <= min ty) →
  from_chars_all ty (to_string z) = Some z.
Proof.
  intros Hz Hty. unfold from_chars_all.
  assert (from_chars ty (to_string z) 0 = mkFromChars "" errc_none z) as ->.
  2:{ cbn [ec ptr result]. by rewrite bool_decide_true. }
  destruct z as [|p|p]; unfold to_string.
  - by apply from_chars_digits.
  - change (pretty (Z.pos p)) with (pretty (Npos p)).
    apply from_chars_digits; [apply starts_with_digit_pretty|apply scan_pretty|done].
  - change (pretty (Z.neg p)) with (String "-" (pretty (Npos p))).
    apply (from_chars_minus ty _ (Zpos p));
      [|apply starts_with_digit_pretty|apply scan_pretty|done].
    destruct (is_signed ty); [done|]. specialize (Hty eq_refl). lia.
Qed.

(** What a successful full match says about the text of an unsigned number:
    it is a non-empty sequence of decimal digits of that value, in range. *)
Definition all_digits (s : string) : Prop :=
  ∀ c, c ∈ String.list_ascii_of_string s → is_Some (digit_value c).

Lemma scan_all_digits acc s n : scan acc s = (n, "") → all_digits s.
Proof.
  revert acc. induction s as [|c s IH]; intros acc; simpl.
  - intros _ c. by rewrite elem_of_nil.
  - destruct (digit_value c) eqn:Hc; [|done]. intros Hs c' Hin.
    apply elem_of_cons in Hin as [->|Hin]; [by eexists|].
    by apply (IH _ Hs).
Qed.

Lemma from_chars_all_unsigned ty text z :
  is_signed ty = false → from_chars_all ty text = Some z →
  text ≠ "" ∧ all_digits text ∧ scan 0 text = (z, "") ∧ min ty <= z <= max ty.
Proof.
  intros Hs. unfold from_chars_all, from_chars. rewrite Hs.
  assert ((match text with String "-" _ => (false, text) | _ => (false, text) end)
          = (false, text)) as ->.
  { destruct text as [|c ?]; [done|]. by destruct c as [[] [] [] [] [] [] [] []]. }
  case_bool_decide as H; [|done]. destruct H as [He Hp].
  destruct (starts_with_digit text) eqn:Hd; [|done].
  destruct (scan 0 text) as [n rest] eqn:Hscan.
  case_bool_decide; simplify_eq/=. intros [= <-].
  split_and!; [by intros ->|by eapply scan_all_digits|done|lia..].
Qed.

(** Printing and parsing: the decimal text of an integer of the type is
    accepted by [from_chars] in full, with the integer as its value; for a
    signed type this covers the negative numbers.  An unsigned type accepts no
    other text of that value than non-empty digit sequences, and never a sign. *)
Theorem from_chars_to_string ty z :
  min ty <= z <= max ty → (is_signed ty = false → 0 <= min ty) →
  from_chars_all ty (to_string z) = Some z ∧
  (is_signed ty = false → ∀ text, from_chars_all ty text = Some z →
   text ≠ "" ∧ all_digits text ∧ scan 0 text = (z, "")).
Proof.
  intros Hz Hty. split; [by apply from_chars_all_to_string|].
  intros Hs text Ht. apply from_chars_all_unsigned in Ht; naive_solver.
Qed.

Lemma from_chars_to_string_witness :
  (min int32_t <= -2147483648 <= max int32_t) ∧
  from_chars_all int32_t (to_string (-2147483648)) = Some (-2147483648).
Proof.
  split; [split; reflexivity || discriminate|].
  apply (from_chars_to_string int32_t); [split; discriminate|done].
Defined.

(** *** double *)

Lemma pow2_pos k : 0 <= k → 0 < 2 ^ k.
Proof. intros. by apply Z.pow_pos_nonneg. Qed.

Lemma compare_mul_pos p a b : 0 < p → (a * p ?= b * p) = (a ?= b).
Proof. intros. destruct (Z.compare_spec a b), (Z.compare_spec (a * p) (b * p)); try done; exfalso; nia. Qed.

Lemma compare_finite x y :
  isfinite x = true → isfinite y = true → compare x y = Some (finite_compare x y).
Proof. by destruct x, y. Qed.

(** The mantissa over a smaller, non-positive exponent. *)
Lemma mantissa_scaled x z e :
  is_integer x z → e <= exponent x → e <= 0 →
  mantissa x * 2 ^ (exponent x - e) = z * 2 ^ (- e).
Proof.
  intros [_ Hx] He1 He2. destruct (Z.ltb_spec (exponent x) 0) as [?|?].
  - rewrite Hx, <-Z.mul_assoc, <-Z.pow_add_r by lia. f_equal. f_equal. lia.
  - rewrite <-Hx, <-Z.mul_assoc, <-Z.pow_add_r by lia. f_equal.
Qed.

(** Comparing floats with integer values compares the integers. *)
Lemma finite_compare_integer x z y n :
  is_integer x z → is_integer y n → finite_compare x y = (z ?= n).
Proof.
  intros Hx Hy. unfold finite_compare.
  set (e := Z.min (exponent x) (exponent y)).
  destruct (Z.le_gt_cases e 0) as [He|He].
  - rewrite (mantissa_scaled x z), (mantissa_scaled y n) by (done || lia).
    by rewrite compare_mul_pos by (apply pow2_pos; lia).
  - destruct Hx as [_ Hx], Hy as [_ Hy].
    destruct (Z.ltb_spec (exponent x) 0), (Z.ltb_spec (exponent y) 0); try lia.
    rewrite <-(compare_mul_pos (2 ^ e)) by (apply pow2_pos; lia).
    rewrite <-!Z.mul_assoc, <-!Z.pow_add_r, !Z.sub_add by lia. by subst.
Qed.

Lemma is_integer_cast x z : is_integer x z → static_cast_int x = z.
Proof.
  intros [Hf Hx]. destruct x as [s| | |s m e]; simpl in *; try done; try lia.
  destruct (Z.ltb_spec e 0) as [He|He].
  - assert (0 < 2 ^ (- e)) by (apply pow2_pos; lia).
    destruct s; simpl in *.
    + assert (Zpos m = (- z) * 2 ^ (- e)) as -> by lia. rewrite Z.div_mul by lia. lia.
    + rewrite Hx, Z.div_mul by lia. lia.
  - rewrite <-Hx. destruct s; simpl; lia.
Qed.

Lemma trunc_is_integer x :
  isfinite x = true → is_integer (trunc x) (static_cast_int x).
Proof.
  destruct x as [s| | |s m e]; intros Hf; try done.
  unfold is_integer, trunc, static_cast_int. destruct (Z.ltb_spec e 0) as [He|He].
  - assert (0 <= Zpos m / 2 ^ (- e)) as Hq.
    { apply Z.div_pos; [lia|]. apply pow2_pos. lia. }
    destruct (Zpos m / 2 ^ (- e)) as [|q|q]; [by destruct s| |lia].
    destruct s; simpl; split; done || lia.
  - simpl. destruct (Z.ltb_spec e 0); [lia|]. split; [done|]. destruct s; simpl; lia.
Qed.

(** [std::trunc(x) == x] tests for an integer value. *)
Lemma eqb_trunc x :
  isfinite x = true → eqb (trunc x) x = true ↔ is_integer x (static_cast_int x).
Proof.
  intros Hf. pose proof (trunc_is_integer x Hf) as Ht. unfold eqb.
  rewrite bool_decide_eq_true, compare_finite by (done || apply Ht). split.
  - intros [= Heq]. split; [done|].
    destruct (Z.ltb_spec (exponent x) 0) as [He|He].
    + unfold finite_compare in Heq. apply Z.compare_eq in Heq.
      assert (Z.min (exponent (trunc x)) (exponent x) = exponent x) as Hmin.
      { destruct x as [| | |s m e]; simpl in *; try lia.
        destruct (Z.ltb_spec e 0); [|simpl; lia]. destruct (_ / _); simpl; lia. }
      rewrite Hmin in Heq.
      rewrite (mantissa_scaled _ (static_cast_int x)), Z.sub_diag in Heq by (done || lia).
      lia.
    + destruct x as [| | |s m e]; simpl in *; try done.
      destruct (Z.ltb_spec e 0); [lia|]. destruct s; simpl; lia.
  - intros Hx. by rewrite (finite_compare_integer _ _ _ _ Ht Hx), Z.compare_refl.
Qed.

Lemma ltb_integer x z y n :
  is_integer x z → is_integer y n → ltb x y = true ↔ z < n.
Proof.
  intros Hx Hy. unfold ltb. rewrite bool_decide_eq_true, compare_finite.
  - rewrite (finite_compare_integer x z y n) by done.
    destruct (Z.compare_spec z n); split; intros; simplify_eq; lia || done.
  - apply Hx.
  - apply Hy.
Qed.

(** Integers of at most 53 bits convert without rounding. *)
Lemma digits2_pos_iter m k :
  Zpos (digits2_pos (Pos.iter xO m k)) = Zpos (digits2_pos m) + Zpos k.
Proof.
  induction k as [|k IH] using Pos.peano_ind; [simpl; lia|].
  rewrite Pos.iter_succ. simpl. lia.
Qed.

Lemma iter_xO_pow2 m k : Zpos (Pos.iter xO m k) = Zpos m * 2 ^ Zpos k.
Proof.
  induction k as [|k IH] using Pos.peano_ind; [simpl; lia|].
  rewrite Pos.iter_succ, Pos2Z.inj_succ, Z.pow_succ_r, Pos2Z.inj_xO, IH by lia. ring.
Qed.

Lemma digits2_pos_bound m n : 0 <= n → Zpos m < 2 ^ n → Zpos (digits2_pos m) <= n.
Proof.
  revert n. induction m as [m IH|m IH|]; intros n Hn Hm; simpl.
  1,2: assert (0 < n) by (destruct (Z.eq_dec n 0); subst; simpl in *; lia);
       rewrite <-(Z.succ_pred n), Z.pow_succ_r in Hm by lia;
       specialize (IH (Z.pred n) ltac:(lia)); lia.
  destruct (Z.eq_dec n 0); subst; simpl in *; lia.
Qed.

(** A mantissa of exactly 53 digits is rounded to itself. *)
Lemma binary_round_aux_exact s m e :
  Zpos (digits2_pos m) = 53 → -1074 <= e <= 971 →
  binary_round_aux 53 1024 s (Zpos m) e loc_Exact = S754_finite s m e.
Proof.
  intros Hd He. unfold binary_round_aux, shr_fexp, fexp, emin. cbn [Zdigits2].
  rewrite Hd. replace (Z.max (53 + e - 53) (3 - 1024 - 53) - e) with 0 by lia.
  cbn [shr shr_record_of_loc shr_m loc_of_shr_record round_nearest_even Zdigits2].
  rewrite Hd. replace (Z.max (53 + e - 53) (3 - 1024 - 53) - e) with 0 by lia.
  cbn [shr shr_record_of_loc shr_m].
  by replace (e <=? 1024 - 53) with true by lia.
Qed.

Lemma binary_round_integer s m :
  Zpos m < 2 ^ 53 →
  is_integer (binary_round 53 1024 s m 0) (cond_Zopp s (Zpos m)).
Proof.
  intros Hm. pose proof (digits2_pos_bound m 53 ltac:(lia) Hm) as Hd.
  unfold binary_round, shl_align, fexp, emin. rewrite Z.add_0_r, Z.sub_0_r.
  rewrite Z.max_l by lia.
  destruct (Z.pos (digits2_pos m) - 53) as [|k|k] eqn:Hk; [|lia|].
  - rewrite binary_round_aux_exact by lia. split; [done|]. simpl. destruct s; simpl; lia.
  - rewrite binary_round_aux_exact by (rewrite ?digits2_pos_iter; lia).
    split; [done|]. cbn [exponent mantissa]. rewrite iter_xO_pow2.
    cbn [Z.ltb Z.compare Z.opp]. destruct s; [|done].
    unfold cond_Zopp. by rewrite Z.mul_opp_l.
Qed.

Lemma double_of_Z_exact z : Z.abs z < 2 ^ 53 → is_integer (double_of_Z z) z.
Proof.
  intros Hz. destruct z as [|m|m]; [done|..]; apply binary_round_integer; lia.
Qed.
