(* ===== verification/Protocol.v ===== *)
(** * Protocol messages (protocol/proto/v1/messages.proto)

    The messages the services exchange, as records of their fields: an [int32]
    field is a [Z], a [repeated] field a list, a [map] field a finite map, an
    embedded message or a [oneof] an option.  Reading an unset embedded message
    yields its default instance, as the protobuf accessors do.  The callers
    write out the integer conversions of the arguments of the setters. *)

From Stdlib Require Export SpecFloat.
From S2P Require Import Prelude CharConv.

(** ** google.protobuf.Value and google.protobuf.Struct *)

Inductive Value :=
  | KIND_NOT_SET
  | NullValue
  | NumberValue (number : double)
  | StringValue (str : string)
  | BoolValue (b : bool)
  | StructValue (fields : gmap string Value)
  | ListValue (values : list Value).

Notation Struct := (gmap string Value).

(** ** Tasks and results *)

Module QuantumTask.
Record QuantumTask := mk {
  task_id : Z;
  n_qbits : Z;
  n_shots : Z;
  circuit_files : list string;
  circuit_file_type : string;
  result_destination : string;
  preferred_qpu : string;
  scheduled_qpu : string;
  priority : Z;
  optimisation_level : Z;
  no_modify : bool;
  transpiler_flag : bool;
  result_type : Z;
  submit_time : string;
  circuits_qiskit : list Value;
  additional_information : string;
  restricted_resource_names : list string;
  user_identity : string;
  token : string;
  via_hpc : bool;
}.

(** The default instance: every field zero or empty. *)
Definition default_instance : QuantumTask :=
  mk 0 0 0 [] "" "" "" "" 0 0 false false 0 "" [] "" [] "" "" false.

Definition set_task_id (z : Z) '(mk _ nq ns cf ct rd pq sq pr ol nm tf rt st cq ai rr ui tk vh) : QuantumTask :=
  mk z nq ns cf ct rd pq sq pr ol nm tf rt st cq ai rr ui tk vh.
Definition set_n_qbits (z : Z) '(mk ti _ ns cf ct rd pq sq pr ol nm tf rt st cq ai rr ui tk vh) : QuantumTask :=
  mk ti z ns cf ct rd pq sq pr ol nm tf rt st cq ai rr ui tk vh.
Definition set_n_shots (z : Z) '(mk ti nq _ cf ct rd pq sq pr ol nm tf rt st cq ai rr ui tk vh) : QuantumTask :=
  mk ti nq z cf ct rd pq sq pr ol nm tf rt st cq ai rr ui tk vh.
Definition add_circuit_files (f : string) '(mk ti nq ns cf ct rd pq sq pr ol nm tf rt st cq ai rr ui tk vh) : QuantumTask :=
  mk ti nq ns (cf ++ [f]) ct rd pq sq pr ol nm tf rt st cq ai rr ui tk vh.
Definition set_circuit_file_type (s : string) '(mk ti nq ns cf _ rd pq sq pr ol nm tf rt st cq ai rr ui tk vh) : QuantumTask :=
  mk ti nq ns cf s rd pq sq pr ol nm tf rt st cq ai rr ui tk vh.
Definition set_result_destination (s : string) '(mk ti nq ns cf ct _ pq sq pr ol nm tf rt st cq ai rr ui tk vh) : QuantumTask :=
  mk ti nq ns cf ct s pq sq pr ol nm tf rt st cq ai rr ui tk vh.
Definition set_preferred_qpu (s : string) '(mk ti nq ns cf ct rd _ sq pr ol nm tf rt st cq ai rr ui tk vh) : QuantumTask :=
  mk ti nq ns cf ct rd s sq pr ol nm tf rt st cq ai rr ui tk vh.
Definition set_scheduled_qpu (s : string) '(mk ti nq ns cf ct rd pq _ pr ol nm tf rt st cq ai rr ui tk vh) : QuantumTask :=
  mk ti nq ns cf ct rd pq s pr ol nm tf rt st cq ai rr ui tk vh.
Definition set_priority (z : Z) '(mk ti nq ns cf ct rd pq sq _ ol nm tf rt st cq ai rr ui tk vh) : QuantumTask :=
  mk ti nq ns cf ct rd pq sq z ol nm tf rt st cq ai rr ui tk vh.
Definition set_no_modify (b : bool) '(mk ti nq ns cf ct rd pq sq pr ol _ tf rt st cq ai rr ui tk vh) : QuantumTask :=
  mk ti nq ns cf ct rd pq sq pr ol b tf rt st cq ai rr ui tk vh.
Definition set_via_hpc (b : bool) '(mk ti nq ns cf ct rd pq sq pr ol nm tf rt st cq ai rr ui tk _) : QuantumTask :=
  mk ti nq ns cf ct rd pq sq pr ol nm tf rt st cq ai rr ui tk b.
End QuantumTask.
Notation QuantumTask := QuantumTask.QuantumTask.

(** [map<string, int32> counts] *)
Record CircuitResult := mkCircuitResult { counts : gmap string Z }.

Module QuantumResult.
Record QuantumResult := mk {
  task_id : Z;
  results : list CircuitResult;
  destination : string;
  execution_status : bool;
  executed_qpu : string;
  executed_circuits : list string;
  additional_information : string;
  execution_time : double;
}.

Definition default_instance : QuantumResult :=
  mk 0 [] "" false "" [] "" (S754_zero false).

Definition set_task_id (z : Z) '(mk _ rs de es eq ec ai et) : QuantumResult :=
  mk z rs de es eq ec ai et.
Definition set_destination (s : string) '(mk ti rs _ es eq ec ai et) : QuantumResult :=
  mk ti rs s es eq ec ai et.
End QuantumResult.
Notation QuantumResult := QuantumResult.QuantumResult.

#[global] Instance double_eq_dec : EqDecision double.
Proof. solve_decision. Defined.
#[global] Instance circuit_result_eq_dec : EqDecision CircuitResult.
Proof. solve_decision. Defined.
#[global] Instance quantum_result_eq_dec : EqDecision QuantumResult.
Proof. solve_decision. Defined.
Definition same_result (r r' : QuantumResult) : bool := bool_decide (r = r').
Lemma same_result_eq r r' : same_result r r' = true → r = r'.
Proof. apply bool_decide_eq_true. Qed.

(** An [int32] identifier, as every deserialised message carries. *)
Definition task_wf (t : QuantumTask) : Prop := is_int32 (QuantumTask.task_id t).
Definition result_wf (r : QuantumResult) : Prop := is_int32 (QuantumResult.task_id r).

(** ** Backends

    Registration, heartbeats and descriptions of backends.  The framework sends
    and receives them like any message; the example systems do not use them. *)

Module QSRegisterEntry.
Record QSRegisterEntry := mk {
  qpu_name : string;
  queue_name : string;
  control_queue_name : string;
  n_qbits : Z;
  qpu_type : Z;
  deregister : bool;
}.
End QSRegisterEntry.
Notation QSRegisterEntry := QSRegisterEntry.QSRegisterEntry.

Module QSRegistrationInfo.
Record QSRegistrationInfo := mk {
  uid : Z;
  heartbeat_queue : string;
  heartbeat_interval : Z;
  deregistered : bool;
}.
End QSRegistrationInfo.
Notation QSRegistrationInfo := QSRegistrationInfo.QSRegistrationInfo.

Inductive QsStatus :=
  | QS_STATUS_UNSPECIFIED
  | QS_STATUS_INIT
  | QS_STATUS_RUNNING
  | QS_STATUS_MAINTENANCE
  | QS_STATUS_CALIBRATION
  | QS_STATUS_CONNECTION_TIMEOUT.

Module QHeartBeat.
Record QHeartBeat := mk {
  uid : Z;
  qpu_name : string;
  queue_name : string;
  status : QsStatus;
  queue_length : Z;
}.
End QHeartBeat.
Notation QHeartBeat := QHeartBeat.QHeartBeat.

Module QResourceInfo.
Record QResourceInfo := mk {
  name : string;
  num_qubits : Z;
  connectivity : string;
  instructions : string;
}.
End QResourceInfo.
Notation QResourceInfo := QResourceInfo.QResourceInfo.

Inductive CircuitFormat :=
  | CIRCUIT_FORMAT_UNSPECIFIED
  | CIRCUIT_FORMAT_QASM2
  | CIRCUIT_FORMAT_QASM3
  | CIRCUIT_FORMAT_QIR
  | CIRCUIT_FORMAT_QIRBASESTRING
  | CIRCUIT_FORMAT_QIRBASEMODULE
  | CIRCUIT_FORMAT_QIRADAPTIVESTRING
  | CIRCUIT_FORMAT_QIRADAPTIVEMODULE
  | CIRCUIT_FORMAT_CALIBRATION
  | CIRCUIT_FORMAT_QPY
  | CIRCUIT_FORMAT_IQMJSON
  | CIRCUIT_FORMAT_BATCHJOB.

Inductive BackendType :=
  | BACKEND_TYPE_UNSPECIFIED
  | BACKEND_TYPE_SUPERCONDUCTING
  | BACKEND_TYPE_TRAPPED_ION
  | BACKEND_TYPE_NEUTRAL_ATOM
  | BACKEND_TYPE_PHOTONIC
  | BACKEND_TYPE_SIMULATOR.

Inductive BackendStatus :=
  | BACKEND_STATUS_UNSPECIFIED
  | BACKEND_STATUS_OFFLINE
  | BACKEND_STATUS_IDLE
  | BACKEND_STATUS_BUSY
  | BACKEND_STATUS_ERROR
  | BACKEND_STATUS_MAINTENANCE
  | BACKEND_STATUS_CALIBRATION.

Record QubitPair := mkQubitPair { qubit1 : Z; qubit2 : Z }.

Module Backend.
Record Backend := mk {
  name : string;
  num_qubits : Z;
  type : BackendType;
  status : BackendStatus;
  queue_length : Z;
  current_load : spec_float;          (* of single precision *)
  queue_name : string;
  instructions : list string;
  connectivity : list QubitPair;
  supported_circuit_formats : list CircuitFormat;
}.
End Backend.
Notation Backend := Backend.Backend.

(** ** Control requests *)

Module CreateTaskRequest.
Record CreateTaskRequest := mk {
  shots : Z;
  circuit : list string;
  circuit_format : string;
  resource_name : string;
  no_modify : bool;
}.
End CreateTaskRequest.
Notation CreateTaskRequest := CreateTaskRequest.CreateTaskRequest.

Module TaskRequest.
Record TaskRequest := mk { uuid : Z }.
End TaskRequest.
Notation TaskRequest := TaskRequest.TaskRequest.

Module ResourceRequest.
Record ResourceRequest := mk { resource_name : string }.
End ResourceRequest.
Notation ResourceRequest := ResourceRequest.ResourceRequest.

Module APIRequest.
(** [oneof typed_request]; [None] is [TYPED_REQUEST_NOT_SET]. *)
Inductive typed_request :=
  | create_task (r : CreateTaskRequest)
  | task_status (r : TaskRequest)
  | task_result (r : TaskRequest)
  | cancel_reason (r : TaskRequest)
  | list_resources
  | resource_info (r : ResourceRequest)
  | pending_tasks (r : ResourceRequest).

Record APIRequest := mk {
  authorization : string;
  method : string;
  request : string;
  data_ : option Struct;
  response_queue : string;
  typed_request_case : option typed_request;
}.

(** [data()]: the default instance when the field is not set. *)
Definition data (r : APIRequest) : Struct := default ∅ (data_ r).
End APIRequest.
Notation APIRequest := APIRequest.APIRequest.

(** ** Control responses *)

Inductive ApiTaskStatus :=
  | API_TASK_STATUS_UNSPECIFIED
  | API_TASK_STATUS_WAITING
  | API_TASK_STATUS_COMPLETED
  | API_TASK_STATUS_CANCELLED.

Module TaskResultResponse.
Record TaskResultResponse := mk {
  result : list CircuitResult;
  timestamp_submitted : string;
  timestamp_scheduled : string;
  timestamp_completed : string;
}.
End TaskResultResponse.
Notation TaskResultResponse := TaskResultResponse.TaskResultResponse.

Module ResourceInfoResponse.
Record ResourceInfoResponse := mk { name : string; num_qubits : Z; online : bool }.
End ResourceInfoResponse.
Notation ResourceInfoResponse := ResourceInfoResponse.ResourceInfoResponse.

Module APIResponse.
(** [oneof typed_response], each alternative with the fields of its message. *)
Inductive typed_response :=
  | create_task (uuid : Z)
  | task_status (status : ApiTaskStatus)
  | task_result (r : TaskResultResponse)
  | cancel_reason (reason : string)
  | resources (names : list string)
  | resource_info (r : ResourceInfoResponse)
  | pending_tasks (num_pending_jobs : Z)
  | error (message : string).

Record APIResponse := mk {
  response_body : option Struct;
  destination_queue : string;
  typed_response_case : option typed_response;
}.
End APIResponse.
Notation APIResponse := APIResponse.APIResponse.

(** ** Comparing tasks

    Tasks without embedded values can be compared. *)

(** All fields but the list of values. *)
Definition fields (t : QuantumTask) :=
  let '(QuantumTask.mk ti nq ns cf ct rd pq sq pr ol nm tf rt st _ ai rr ui tk vh) := t in
  (ti, nq, ns, cf, ct, rd, pq, sq, pr, ol, nm, tf, rt, st, ai, rr, ui, tk, vh).

Definition same_task (t t' : QuantumTask) : bool :=
  match QuantumTask.circuits_qiskit t, QuantumTask.circuits_qiskit t' with
  | [], [] => bool_decide (fields t = fields t')
  | _, _ => false
  end.

Lemma same_task_eq t t' : same_task t t' = true → t = t'.
Proof.
  destruct t, t'. unfold same_task, fields. cbn [QuantumTask.circuits_qiskit].
  destruct circuits_qiskit, circuits_qiskit0; try done.
  intros H%bool_decide_eq_true. by simplify_eq.
Qed.
