(* ===== verification/TaskStore.v ===== *)
(** * Task state (qoffload/TaskStore.hpp, src/TaskStore.cpp)

    [TaskStore] keeps two hash maps behind one mutex; every operation holds the
    lock for its whole body, so an operation is one atomic function of the
    state.  [spec] is the abstract contract: one map from task identifiers to
    the phase the task is in.  [exec_refines_spec] is the refinement. *)

From S2P Require Import Prelude.

(** ** Data *)

Inductive PendingTaskKind := DirectTask | ControlTask.
Inductive TaskStatus := Waiting | Completed | Cancelled | NotFound.

#[global] Instance PendingTaskKind_eq_dec : EqDecision PendingTaskKind.
Proof. solve_decision. Defined.
#[global] Instance TaskStatus_eq_dec : EqDecision TaskStatus.
Proof. solve_decision. Defined.

Record PendingTask := mkPendingTask {
  kind : PendingTaskKind;
  forwarded_task_id : Z;
  original_task_id : Z;
  original_result_destination : string;
}.

Notation Counts := (gmap string Z).

Record CompletedControlTask := mkCompleted {
  task_id : Z;
  execution_status : bool;
  result_counts : list Counts;
  cancel_reason : string;
  timestamp_scheduled : string;
  timestamp_submitted : string;
  timestamp_completed : string;
}.

#[global] Instance PendingTask_eq_dec : EqDecision PendingTask.
Proof. solve_decision. Defined.
#[global] Instance CompletedControlTask_eq_dec : EqDecision CompletedControlTask.
Proof. solve_decision. Defined.

Record TaskStore := mkTaskStore {
  pending_ : gmap Z PendingTask;
  completed_control_tasks_ : gmap Z CompletedControlTask;
}.

Definition empty_store : TaskStore := mkTaskStore ∅ ∅.

(** ** Operations *)

Definition addDirectTask (task : PendingTask) (s : TaskStore) : TaskStore :=
  mkTaskStore (<[forwarded_task_id task := task]> (pending_ s))
    (completed_control_tasks_ s).

Definition addControlTask (id : Z) (s : TaskStore) : TaskStore :=
  addDirectTask (mkPendingTask ControlTask id id "") s.

Definition takePending (id : Z) (s : TaskStore) : option PendingTask * TaskStore :=
  match pending_ s !! id with
  | None => (None, s)
  | Some task =>
      (Some task, mkTaskStore (delete id (pending_ s)) (completed_control_tasks_ s))
  end.

Definition status (id : Z) (s : TaskStore) : TaskStatus :=
  if decide (is_Some (pending_ s !! id)) then Waiting
  else match completed_control_tasks_ s !! id with
       | None => NotFound
       | Some completed => if execution_status completed then Completed else Cancelled
       end.

Definition pendingCount (s : TaskStore) : Z := Z.of_nat (size (pending_ s)).

Definition storeCompletedControlTask (result : CompletedControlTask) (s : TaskStore)
    : TaskStore :=
  mkTaskStore (pending_ s)
    (<[task_id result := result]> (completed_control_tasks_ s)).

Definition takeCompletedControlTask (id : Z) (s : TaskStore)
    : option CompletedControlTask * TaskStore :=
  match completed_control_tasks_ s !! id with
  | None => (None, s)
  | Some result =>
      (Some result,
       mkTaskStore (pending_ s) (delete id (completed_control_tasks_ s)))
  end.

(** ** Abstract specification: the phase of each known task *)

Inductive Phase := PWaiting (t : PendingTask) | PDone (c : CompletedControlTask).

Notation Abs := (gmap Z Phase).

Inductive Op :=
  | OpAdd (t : PendingTask)
  | OpAddControl (id : Z)
  | OpTakePending (id : Z)
  | OpStatus (id : Z)
  | OpCount
  | OpStore (c : CompletedControlTask)
  | OpTakeCompleted (id : Z).

Inductive Ret :=
  | RUnit
  | RPending (t : option PendingTask)
  | RStatus (st : TaskStatus)
  | RCount (n : Z)
  | RCompleted (c : option CompletedControlTask).

Definition exec (op : Op) (s : TaskStore) : Ret * TaskStore :=
  match op with
  | OpAdd t => (RUnit, addDirectTask t s)
  | OpAddControl id => (RUnit, addControlTask id s)
  | OpTakePending id => let '(r, s') := takePending id s in (RPending r, s')
  | OpStatus id => (RStatus (status id s), s)
  | OpCount => (RCount (pendingCount s), s)
  | OpStore c => (RUnit, storeCompletedControlTask c s)
  | OpTakeCompleted id =>
      let '(r, s') := takeCompletedControlTask id s in (RCompleted r, s')
  end.

Definition waiting_task (p : Phase) : option PendingTask :=
  match p with PWaiting t => Some t | PDone _ => None end.
Definition done_task (p : Phase) : option CompletedControlTask :=
  match p with PWaiting _ => None | PDone c => Some c end.

Definition phase_status (p : option Phase) : TaskStatus :=
  match p with
  | None => NotFound
  | Some (PWaiting _) => Waiting
  | Some (PDone c) => if execution_status c then Completed else Cancelled
  end.

(** Taking a task out of the phase that [sel] selects removes it. *)
Definition spec_take {B} (sel : Phase → option B) (id : Z) (a : Abs)
    : option B * Abs :=
  match a !! id ≫= sel with
  | Some b => (Some b, delete id a)
  | None => (None, a)
  end.

Definition spec (op : Op) (a : Abs) : Ret * Abs :=
  match op with
  | OpAdd t => (RUnit, <[forwarded_task_id t := PWaiting t]> a)
  | OpAddControl id =>
      (RUnit, <[id := PWaiting (mkPendingTask ControlTask id id "")]> a)
  | OpTakePending id =>
      let '(r, a') := spec_take waiting_task id a in (RPending r, a')
  | OpStatus id => (RStatus (phase_status (a !! id)), a)
  | OpCount => (RCount (Z.of_nat (size (omap waiting_task a))), a)
  | OpStore c => (RUnit, <[task_id c := PDone c]> a)
  | OpTakeCompleted id =>
      let '(r, a') := spec_take done_task id a in (RCompleted r, a')
  end.

(** What the callers guarantee: a task is only added under an identifier that
    holds no fetched-later result, and only completed once it stopped waiting. *)
Definition allowed (op : Op) (a : Abs) : Prop :=
  match op with
  | OpAdd t => a !! forwarded_task_id t ≫= done_task = None
  | OpAddControl id => a !! id ≫= done_task = None
  | OpStore c => a !! task_id c ≫= waiting_task = None
  | _ => True
  end.

(** The phases of a concrete state, and its well-formedness: entries sit under
    their own identifier, and no task is both waiting and done. *)
Definition phases (s : TaskStore) : Abs :=
  (PWaiting <$> pending_ s) ∪ (PDone <$> completed_control_tasks_ s).

Record store_wf (s : TaskStore) : Prop := {
  wf_disjoint : ∀ id t, pending_ s !! id = Some t →
    completed_control_tasks_ s !! id = None;
  wf_pending : ∀ id t, pending_ s !! id = Some t → forwarded_task_id t = id;
  wf_completed : ∀ id c, completed_control_tasks_ s !! id = Some c → task_id c = id;
}.

(** ** Facts *)

Lemma empty_store_wf : store_wf empty_store.
Proof. split; intros id ?; by rewrite ?lookup_empty. Qed.

Lemma lookup_phases s id :
  phases s !! id =
  match pending_ s !! id with
  | Some t => Some (PWaiting t)
  | None => PDone <$> completed_control_tasks_ s !! id
  end.
Proof.
  unfold phases. rewrite lookup_union, !lookup_fmap.
  by destruct (pending_ s !! id), (completed_control_tasks_ s !! id).
Qed.

Lemma waiting_phases s id :
  phases s !! id ≫= waiting_task = pending_ s !! id.
Proof.
  rewrite lookup_phases. destruct (pending_ s !! id); [done|].
  by destruct (completed_control_tasks_ s !! id).
Qed.

Lemma done_phases s id :
  store_wf s → phases s !! id ≫= done_task = completed_control_tasks_ s !! id.
Proof.
  intros Hwf. rewrite lookup_phases. destruct (pending_ s !! id) eqn:Hp.
  - by rewrite (wf_disjoint _ Hwf _ _ Hp).
  - by destruct (completed_control_tasks_ s !! id).
Qed.

Lemma omap_waiting_phases s : omap waiting_task (phases s) = pending_ s.
Proof. apply map_eq. intros id. by rewrite lookup_omap, waiting_phases. Qed.

Lemma status_phases s id : status id s = phase_status (phases s !! id).
Proof.
  unfold status. rewrite lookup_phases.
  destruct (pending_ s !! id) as [t|]; simpl; [done|].
  by destruct (completed_control_tasks_ s !! id).
Qed.

Lemma addDirectTask_wf t s :
  store_wf s → completed_control_tasks_ s !! forwarded_task_id t = None →
  store_wf (addDirectTask t s).
Proof.
  intros [Hd Hp Hc] Hn. split; simpl; [| |done]; intros id t' Ht;
    apply lookup_insert_Some in Ht as [[<- <-]|[_ Ht]]; eauto.
Qed.

Lemma takePending_wf id s : store_wf s → store_wf (takePending id s).2.
Proof.
  intros [Hd Hp Hc]. unfold takePending. destruct (pending_ s !! id); [|done].
  split; simpl; [| |done]; intros id' t' Ht; apply lookup_delete_Some in Ht as [_ Ht]; eauto.
Qed.

Lemma storeCompletedControlTask_wf c s :
  store_wf s → pending_ s !! task_id c = None →
  store_wf (storeCompletedControlTask c s).
Proof.
  intros [Hd Hp Hc] Hn. split; simpl; [|done|].
  - intros id t Ht. rewrite lookup_insert_ne by congruence. eauto.
  - intros id c' Ht. apply lookup_insert_Some in Ht as [[<- <-]|[_ Ht]]; eauto.
Qed.

Lemma takeCompletedControlTask_wf id s :
  store_wf s → store_wf (takeCompletedControlTask id s).2.
Proof.
  intros [Hd Hp Hc]. unfold takeCompletedControlTask.
  destruct (completed_control_tasks_ s !! id); [|done].
  split; simpl; [|done|].
  - intros id' t' Ht. apply lookup_delete_None. eauto.
  - intros id' t' Ht. apply lookup_delete_Some in Ht as [_ Ht]; eauto.
Qed.

#[export] Hint Resolve empty_store_wf addDirectTask_wf takePending_wf
  storeCompletedControlTask_wf takeCompletedControlTask_wf : mqss.

(** The state changes seen through [phases]. *)
Lemma phases_addDirectTask t s :
  phases (addDirectTask t s) = <[forwarded_task_id t := PWaiting t]> (phases s).
Proof.
  apply map_eq. intros id. rewrite lookup_phases. simpl.
  destruct (decide (id = forwarded_task_id t)) as [->|].
  - by rewrite !lookup_insert_eq.
  - by rewrite !lookup_insert_ne, lookup_phases by done.
Qed.

Lemma phases_takePending id s :
  store_wf s →
  phases (takePending id s).2 = (spec_take waiting_task id (phases s)).2.
Proof.
  intros Hwf. unfold takePending, spec_take. rewrite waiting_phases.
  destruct (pending_ s !! id) as [t|] eqn:Ht; simpl; [|done].
  apply map_eq. intros id'. rewrite lookup_phases. simpl.
  destruct (decide (id' = id)) as [->|].
  - rewrite !lookup_delete_eq. by rewrite (wf_disjoint _ Hwf _ _ Ht).
  - by rewrite !lookup_delete_ne, lookup_phases by done.
Qed.

Lemma phases_storeCompletedControlTask c s :
  pending_ s !! task_id c = None →
  phases (storeCompletedControlTask c s) = <[task_id c := PDone c]> (phases s).
Proof.
  intros Hn. apply map_eq. intros id. rewrite lookup_phases. simpl.
  destruct (decide (id = task_id c)) as [->|].
  - by rewrite Hn, !lookup_insert_eq.
  - by rewrite !lookup_insert_ne, lookup_phases by done.
Qed.

Lemma phases_takeCompletedControlTask id s :
  store_wf s →
  phases (takeCompletedControlTask id s).2 = (spec_take done_task id (phases s)).2.
Proof.
  intros Hwf. unfold takeCompletedControlTask, spec_take. rewrite done_phases by done.
  destruct (completed_control_tasks_ s !! id) as [c|] eqn:Hc; simpl; [|done].
  apply map_eq. intros id'. rewrite lookup_phases. simpl.
  destruct (decide (id' = id)) as [->|].
  - rewrite !lookup_delete_eq. destruct (pending_ s !! id) eqn:Hp; [|done].
    rewrite (wf_disjoint _ Hwf _ _ Hp) in Hc. done.
  - by rewrite !lookup_delete_ne, lookup_phases by done.
Qed.

(** ** Refinement *)

(** C24. The two hash maps implement one map of task phases: on a well-formed
    store, every operation the callers are allowed to make returns what the
    abstract operation returns, leaves the store in the abstract operation's
    phases, and keeps it well formed. *)
Theorem exec_refines_spec op s :
  store_wf s → allowed op (phases s) →
  spec op (phases s) = ((exec op s).1, phases (exec op s).2) ∧
  store_wf (exec op s).2.
Proof.
  intros Hwf Hop. destruct op as [t|id|id|id| |c|id]; simpl in *.
  - rewrite done_phases in Hop by done. rewrite phases_addDirectTask. auto with mqss.
  - rewrite done_phases in Hop by done. unfold addControlTask.
    rewrite phases_addDirectTask. auto with mqss.
  - pose proof (phases_takePending id s Hwf) as Hph.
    pose proof (takePending_wf id s Hwf) as Hw. revert Hph Hw.
    unfold takePending, spec_take. rewrite waiting_phases.
    destruct (pending_ s !! id); simpl; intros Hph Hw; (split; [congruence|done]).
  - by rewrite status_phases.
  - unfold pendingCount. by rewrite omap_waiting_phases.
  - rewrite waiting_phases in Hop. rewrite phases_storeCompletedControlTask by done.
    auto with mqss.
  - pose proof (phases_takeCompletedControlTask id s Hwf) as Hph.
    pose proof (takeCompletedControlTask_wf id s Hwf) as Hw. revert Hph Hw.
    unfold takeCompletedControlTask, spec_take. rewrite done_phases by done.
    destruct (completed_control_tasks_ s !! id); simpl; intros Hph Hw; (split; [congruence|done]).
Qed.

Lemma exec_refines_spec_witness :
  let s := addControlTask 20001 empty_store in
  store_wf s ∧ allowed (OpTakePending 20001) (phases s) ∧
  (spec (OpTakePending 20001) (phases s)).1 =
    RPending (Some (mkPendingTask ControlTask 20001 20001 "")).
Proof.
  assert (store_wf (addControlTask 20001 empty_store)) as Hwf
    by (by apply addDirectTask_wf; [apply empty_store_wf|]).
  split; [exact Hwf|]. split; [exact I|].
  rewrite (proj1 (exec_refines_spec (OpTakePending 20001) _ Hwf I)). reflexivity.
Defined.
