(* ===== verification/Config.v ===== *)
(** * Generic configuration (include/mqss/Config.hpp)

    Environment lookup with fallbacks, the loading order, and the write-once
    process-wide storage.  The handlers an application supplies through its tag
    are the class [AppConfig]. *)

From S2P Require Import Prelude Status CharConv.

(** [std::getenv] *)
Definition Env : Type := string → option string.

(** ** Lookup *)

Fixpoint getEnv (env : Env) (names : list string) : option string :=
  match names with
  | [] => None
  | name :: rest =>
      match env name with Some value => Some value | None => getEnv env rest end
  end.

Definition getEnvOr_string (env : Env) (names : list string) (fallback : string)
    : string :=
  match getEnv env names with Some value => value | None => fallback end.

(** [*names.begin()] *)
Definition first_name (names : list string) : string := default "" (head names).

Definition getEnvOr_integer (ty : IntType) (env : Env) (names : list string)
    (fallback : Z) : Result Z :=
  match getEnv env names with
  | None => value fallback
  | Some text =>
      let r := from_chars ty text 0 in
      if bool_decide (ec r = errc_none ∧ ptr r = "") then value (result r)
      else unexpected (configuration ("Invalid integer value for " +:+ first_name names))
  end.

Definition true_texts : list string :=
  ["1"; "true"; "TRUE"; "t"; "T"; "yes"; "YES"; "on"; "ON"].
Definition false_texts : list string :=
  ["0"; "false"; "FALSE"; "f"; "F"; "no"; "NO"; "off"; "OFF"].

Definition getEnvOr_bool (env : Env) (names : list string) (fallback : bool)
    : Result bool :=
  match getEnv env names with
  | None => value fallback
  | Some text =>
      if decide (text ∈ true_texts) then value true
      else if decide (text ∈ false_texts) then value false
      else unexpected (configuration ("Invalid boolean value for " +:+ first_name names))
  end.

(** ** Loading *)

Section Load.
Context {Config : Type}.

(** The handlers selected by a tag.  The two [apply] handlers change the
    configuration they get by reference and return a status. *)
Class AppConfig := {
  makeDefaultConfig : Config;
  applyEnvironment : Env → Config → Status * Config;
  applyCommandLine : list string → Config → Status * Config;
}.

Definition loadConfig `{AppConfig} (env : Env) (argv : list string) : Result Config :=
  let config := makeDefaultConfig in
  let '(st, config) := applyEnvironment env config in
  if negb (ok st) then unexpected st
  else
    let '(st, config) := applyCommandLine argv config in
    if negb (ok st) then unexpected st
    else value config.

(** ** Storage: [configStorage], one optional per configuration and tag *)

Definition Storage : Type := option Config.

Definition initConfig (config : Config) (stored : Storage) : Status * Storage :=
  if stored then (configuration "Configuration already initialized", stored)
  else (success, Some config).

Definition getConfig (stored : Storage) : Result Config :=
  match stored with
  | None => unexpected (configuration "Configuration not initialized")
  | Some config => value config
  end.

(** Any number of [initConfig] calls, in order, and their statuses. *)
Fixpoint initConfigs (cs : list Config) (stored : Storage) : list Status * Storage :=
  match cs with
  | [] => ([], stored)
  | c :: cs =>
      let '(st, stored) := initConfig c stored in
      let '(sts, stored) := initConfigs cs stored in
      (st :: sts, stored)
  end.
End Load.
Arguments AppConfig : clear implicits.
Arguments Storage : clear implicits.

(** ** Handlers as sequences of settings

    A handler is a sequence of [if (auto v = ...) { field = *v } else return]
    statements; [None] lets the next statement run. *)

Record Lens (S A : Type) := mkLens { get : S → A; set : A → S → S }.
Arguments mkLens {S A}.
Arguments get {S A}.
Arguments set {S A}.

Definition compose {S A B} (l : Lens S A) (m : Lens A B) : Lens S B :=
  mkLens (λ s, get m (get l s)) (λ b s, set l (set m b (get l s)) s).

Section Settings.
Context {C : Type}.

Definition Setting : Type := Env → C → option Status * C.

(** [field = getEnvOr(names, field);] *)
Definition string_setting (names : list string) (l : Lens C string) : Setting :=
  λ env c, (None, set l (getEnvOr_string env names (get l c)) c).

(** [if (auto v = r) { field = *v; } else { return v.error(); }] *)
Definition assign {A} (l : Lens C A) (r : Result A) (c : C) : option Status * C :=
  match r with inr v => (None, set l v c) | inl e => (Some e, c) end.

Definition integer_setting (ty : IntType) (names : list string) (l : Lens C Z)
    : Setting :=
  λ env c, assign l (getEnvOr_integer ty env names (get l c)) c.

Definition bool_setting (names : list string) (l : Lens C bool) : Setting :=
  λ env c, assign l (getEnvOr_bool env names (get l c)) c.

(** [if (const char *v = getEnv(names)) { if (auto x = parse(v)) ... }] *)
Definition parsed_setting {A} (names : list string) (parse : string → Result A)
    (l : Lens C A) : Setting :=
  λ env c,
    match getEnv env names with
    | None => (None, c)
    | Some text => assign l (parse text) c
    end.

Fixpoint apply_settings (ss : list Setting) (env : Env) (c : C) : Status * C :=
  match ss with
  | [] => (success, c)
  | s :: ss =>
      match s env c with
      | (Some st, c) => (st, c)
      | (None, c) => apply_settings ss env c
      end
  end.
End Settings.
Arguments Setting : clear implicits.

(** ** Facts *)

(** The value comes from the first defined name of the list. *)
Lemma getEnv_Some env names text :
  getEnv env names = Some text ↔
  ∃ i name, names !! i = Some name ∧ env name = Some text ∧
    ∀ j name', (j < i)%nat → names !! j = Some name' → env name' = None.
Proof.
  induction names as [|n ns IH]; simpl.
  { split; [done|]. intros (i & name & Hi & _). by rewrite lookup_nil in Hi. }
  destruct (env n) as [t|] eqn:Hn.
  - split.
    + intros [= <-]. exists 0%nat, n. split_and!; [done..|lia].
    + intros ([|i] & name & Hi & Ht & Hj); simplify_eq/=; [congruence|].
      by rewrite (Hj 0%nat n) in Hn by (lia || done).
  - rewrite IH. split.
    + intros (i & name & Hi & Ht & Hj). exists (S i), name. split_and!; [done..|].
      intros [|j] name' Hlt Hname; simplify_eq/=; [done|]. apply (Hj j); [lia|done].
    + intros ([|i] & name & Hi & Ht & Hj); simplify_eq/=.
      exists i, name. split_and!; [done..|].
      intros j name' ??. apply (Hj (S j)); [lia|done].
Qed.

Lemma getEnv_None env names :
  getEnv env names = None ↔ ∀ name, name ∈ names → env name = None.
Proof.
  induction names as [|n ns IH]; simpl.
  - split; [intros _ name Hin; by apply elem_of_nil in Hin|done].
  - destruct (env n) eqn:Hn.
    + split; [done|]. intros H. rewrite (H n) in Hn by (by left). done.
    + rewrite IH. setoid_rewrite elem_of_cons. naive_solver.
Qed.

Lemma getEnvOr_integer_ok ty env names fallback :
  has_value (getEnvOr_integer ty env names fallback) = true ↔
  ∀ text, getEnv env names = Some text → is_Some (from_chars_all ty text).
Proof.
  unfold getEnvOr_integer, from_chars_all.
  destruct (getEnv env names) as [text|]; [|naive_solver].
  case_bool_decide; simpl; split; try done; eauto.
  - intros _ ? [= <-]. rewrite bool_decide_true by done. eauto.
  - intros H'. destruct (H' _ eq_refl) as [? Hs]. by rewrite bool_decide_false in Hs.
Qed.

(** An integer setting round trips: the decimal text of a value of the
    type, put in the first defined variable of the list, is what the lookup
    returns, whatever the fallback. *)
Theorem getEnvOr_integer_to_string ty env names fallback z :
  min ty <= z <= max ty → (is_signed ty = false → 0 <= min ty) →
  getEnv env names = Some (to_string z) →
  getEnvOr_integer ty env names fallback = value z.
Proof.
  intros Hz Hty Henv. pose proof (from_chars_all_to_string ty z Hz Hty) as H.
  unfold getEnvOr_integer. rewrite Henv. unfold from_chars_all in H.
  case_bool_decide; [|done]. by injection H as ->.
Qed.

Lemma getEnvOr_integer_to_string_witness :
  let env : Env := λ n, if decide (n = "QOFFLOAD_DAEMON_UID")
                        then Some (to_string 7) else None in
  getEnvOr_integer uint64_t env ["QOFFLOAD_INSTANCE_UID"; "QOFFLOAD_DAEMON_UID"] 0 =
  value 7.
Proof.
  intros env. apply (getEnvOr_integer_to_string uint64_t).
  - split; discriminate.
  - intros _. discriminate.
  - reflexivity.
Defined.

(** The process-wide configuration is written once: of any sequence of
    [initConfig] calls on the unset storage the first succeeds and all others
    report a configuration error, and from then on [getConfig] returns the
    first configuration; before it, [getConfig] is a configuration error. *)
Theorem initConfig_first_wins {Config} (c : Config) cs :
  error_code (getConfig (None : Storage Config)) = Some Configuration ∧
  getConfig (initConfigs (c :: cs) None).2 = value c ∧
  (initConfigs (c :: cs) None).1 =
    success :: replicate (length cs) (configuration "Configuration already initialized").
Proof.
  assert (initConfigs cs (Some c) =
    (replicate (length cs) (configuration "Configuration already initialized"), Some c))
    as Hcs.
  { induction cs as [|c' cs IH]; simpl; [done|]. by rewrite IH. }
  split; [done|]. simpl. by rewrite Hcs.
Qed.

(** Loading fails exactly when a handler fails, with its status. *)
Lemma loadConfig_value {Config} `{AppConfig Config} env argv c :
  loadConfig env argv = value c ↔
  ∃ c1 st1 st2, applyEnvironment env makeDefaultConfig = (st1, c1) ∧ ok st1 = true ∧
    applyCommandLine argv c1 = (st2, c) ∧ ok st2 = true.
Proof.
  unfold loadConfig. destruct (applyEnvironment env makeDefaultConfig) as [st1 c1].
  destruct (ok st1) eqn:H1; simpl.
  - destruct (applyCommandLine argv c1) as [st2 c2] eqn:Hcl.
    destruct (ok st2) eqn:H2; simpl; split.
    + intros [= <-]. by exists c1, st1, st2.
    + intros (?&?&?&?&?&?&?). simplify_eq. congruence.
    + done.
    + intros (?&?&?&?&?&?&?). simplify_eq. congruence.
  - split; [done|]. intros (?&?&?&?&?&?&?). simplify_eq. congruence.
Qed.
