(* ===== verification/QOffloadConfig.v ===== *)
(** * QOffload configuration (qoffload/Config.hpp, qoffload/Logger.hpp)

    The configuration records, the generated defaults, the environment
    overrides and the sinks a logger is built from. *)

From S2P Require Import Prelude Status CharConv Config.

(** ** Data *)

Record RabbitMqConfig := mkRabbitMq {
  host : string; port : Z; user : string; password : string; vhost : string }.
Record QueueConfig := mkQueues {
  request : string; control_request : string; result : string; qrm_task : string }.
Record IdentityConfig := mkIdentity { instance_uid : Z; user_identity : string }.

Inductive LogLevel := Trace | Debug | Info | Warning | Error | Critical | Off.
Inductive LogFileMode := Append | Truncate | Rotate.

#[global] Instance LogLevel_eq_dec : EqDecision LogLevel.
Proof. solve_decision. Defined.
#[global] Instance LogFileMode_eq_dec : EqDecision LogFileMode.
Proof. solve_decision. Defined.

Record LoggingConfig := mkLogging {
  enabled : bool; console_enabled : bool; file_enabled : bool;
  level : LogLevel; file_mode : LogFileMode;
  rotation_size : Z; rotation_files : Z }.
Record PathConfig := mkPaths {
  runtime_dir : string; log_dir : string; state_file : string }.
Record PolicyConfig := mkPolicy { hpc_node : bool; resume_state : bool }.

Record Config := mkConfig {
  rabbitmq : RabbitMqConfig;
  qrm_rabbitmq : RabbitMqConfig;
  queues : QueueConfig;
  identity : IdentityConfig;
  logging : LoggingConfig;
  paths : PathConfig;
  policy : PolicyConfig;
}.

(** ** Levels and modes *)

Definition defaultLogLevel (value : string) : LogLevel :=
  if decide (value = "trace") then Trace
  else if decide (value = "debug") then Debug
  else if decide (value = "warning" ∨ value = "warn") then Warning
  else if decide (value = "error") then Error
  else if decide (value = "critical") then Critical
  else if decide (value = "off") then Off
  else Info.

Definition defaultLogFileMode (value : string) : LogFileMode :=
  if decide (value = "append") then Append
  else if decide (value = "truncate") then Truncate
  else Rotate.

Definition parseLogLevel (v : string) : Result LogLevel :=
  if decide (v = "trace") then value Trace
  else if decide (v = "debug") then value Debug
  else if decide (v = "info") then value Info
  else if decide (v = "warning" ∨ v = "warn") then value Warning
  else if decide (v = "error") then value Error
  else if decide (v = "critical") then value Critical
  else if decide (v = "off") then value Off
  else unexpected (configuration "Invalid value for QOFFLOAD_LOG_LEVEL").

Definition parseLogFileMode (v : string) : Result LogFileMode :=
  if decide (v = "append") then value Append
  else if decide (v = "truncate") then value Truncate
  else if decide (v = "rotate") then value Rotate
  else unexpected (configuration "Invalid value for QOFFLOAD_LOG_FILE_MODE").

(** [std::filesystem::path(log_dir) / file_name] on POSIX: an absolute file
    name replaces the directory, a directory without a final separator gets
    one. *)
Definition is_absolute (p : string) : bool :=
  match p with String "/" _ => true | _ => false end.
Fixpoint has_filename (p : string) : bool :=
  match p with
  | EmptyString => false
  | String c EmptyString => bool_decide (c ≠ "/"%char)
  | String _ r => has_filename r
  end.
Definition logPath (log_dir file_name : string) : string :=
  if is_absolute file_name then file_name
  else log_dir +:+ (if has_filename log_dir then "/" else "") +:+ file_name.

(** ** Defaults (include/ConfigDefaults.hpp.in)

    The three paths are substituted when the header is generated. *)

Record BuildPaths := mkBuildPaths {
  QOFFLOAD_RUNTIME_DIR : string; QOFFLOAD_LOG_DIR : string; QOFFLOAD_STATE_FILE : string }.

Definition makeDefaultConfig (b : BuildPaths) : Config := {|
  rabbitmq := mkRabbitMq "localhost" 5672 "guest" "guest" "/";
  qrm_rabbitmq := mkRabbitMq "127.0.0.1" 5672 "guest" "guest" "/";
  queues := mkQueues "qoffload_request_reception_queue"
              "qoffload_api_request_reception_queue"
              "qoffload_result_reception_queue" "quantum_task_collection_queue";
  identity := mkIdentity 0 "qoffload_user";
  logging := mkLogging true true false (defaultLogLevel "info")
               (defaultLogFileMode "rotate") (10 * 1024 * 1024) 3;
  paths := mkPaths (QOFFLOAD_RUNTIME_DIR b) (QOFFLOAD_LOG_DIR b) (QOFFLOAD_STATE_FILE b);
  policy := mkPolicy false false;
|}.

(** ** Fields as lenses *)

Definition host_ := mkLens host (λ v '(mkRabbitMq _ b c d e), mkRabbitMq v b c d e).
Definition port_ := mkLens port (λ v '(mkRabbitMq a _ c d e), mkRabbitMq a v c d e).
Definition user_ := mkLens user (λ v '(mkRabbitMq a b _ d e), mkRabbitMq a b v d e).
Definition password_ := mkLens password (λ v '(mkRabbitMq a b c _ e), mkRabbitMq a b c v e).
Definition vhost_ := mkLens vhost (λ v '(mkRabbitMq a b c d _), mkRabbitMq a b c d v).

Definition request_ := mkLens request (λ v '(mkQueues _ b c d), mkQueues v b c d).
Definition control_request_ := mkLens control_request (λ v '(mkQueues a _ c d), mkQueues a v c d).
Definition result_ := mkLens result (λ v '(mkQueues a b _ d), mkQueues a b v d).
Definition qrm_task_ := mkLens qrm_task (λ v '(mkQueues a b c _), mkQueues a b c v).

Definition instance_uid_ := mkLens instance_uid (λ v '(mkIdentity _ b), mkIdentity v b).
Definition user_identity_ := mkLens user_identity (λ v '(mkIdentity a _), mkIdentity a v).

Definition enabled_ := mkLens enabled (λ v '(mkLogging _ b c d e f g), mkLogging v b c d e f g).
Definition console_enabled_ := mkLens console_enabled (λ v '(mkLogging a _ c d e f g), mkLogging a v c d e f g).
Definition file_enabled_ := mkLens file_enabled (λ v '(mkLogging a b _ d e f g), mkLogging a b v d e f g).
Definition level_ := mkLens level (λ v '(mkLogging a b c _ e f g), mkLogging a b c v e f g).
Definition file_mode_ := mkLens file_mode (λ v '(mkLogging a b c d _ f g), mkLogging a b c d v f g).
Definition rotation_size_ := mkLens rotation_size (λ v '(mkLogging a b c d e _ g), mkLogging a b c d e v g).
Definition rotation_files_ := mkLens rotation_files (λ v '(mkLogging a b c d e f _), mkLogging a b c d e f v).

Definition runtime_dir_ := mkLens runtime_dir (λ v '(mkPaths _ b c), mkPaths v b c).
Definition log_dir_ := mkLens log_dir (λ v '(mkPaths a _ c), mkPaths a v c).
Definition state_file_ := mkLens state_file (λ v '(mkPaths a b _), mkPaths a b v).

Definition hpc_node_ := mkLens hpc_node (λ v '(mkPolicy _ b), mkPolicy v b).
Definition resume_state_ := mkLens resume_state (λ v '(mkPolicy a _), mkPolicy a v).

Definition rabbitmq_ := mkLens rabbitmq (λ v '(mkConfig _ b c d e f g), mkConfig v b c d e f g).
Definition qrm_rabbitmq_ := mkLens qrm_rabbitmq (λ v '(mkConfig a _ c d e f g), mkConfig a v c d e f g).
Definition queues_ := mkLens queues (λ v '(mkConfig a b _ d e f g), mkConfig a b v d e f g).
Definition identity_ := mkLens identity (λ v '(mkConfig a b c _ e f g), mkConfig a b c v e f g).
Definition logging_ := mkLens logging (λ v '(mkConfig a b c d _ f g), mkConfig a b c d v f g).
Definition paths_ := mkLens paths (λ v '(mkConfig a b c d e _ g), mkConfig a b c d e v g).
Definition policy_ := mkLens policy (λ v '(mkConfig a b c d e f _), mkConfig a b c d e f v).

(** ** Environment overrides *)

Definition settings : list (Setting Config) := [
  string_setting ["QOFFLOAD_AMQP_HOST"] (compose rabbitmq_ host_);
  integer_setting int32_t ["QOFFLOAD_AMQP_PORT"] (compose rabbitmq_ port_);
  string_setting ["QOFFLOAD_AMQP_USER"] (compose rabbitmq_ user_);
  string_setting ["QOFFLOAD_AMQP_PASSWORD"] (compose rabbitmq_ password_);
  string_setting ["QOFFLOAD_AMQP_VHOST"] (compose rabbitmq_ vhost_);
  string_setting ["QRM_AMQP_HOST"] (compose qrm_rabbitmq_ host_);
  integer_setting int32_t ["QRM_AMQP_PORT"] (compose qrm_rabbitmq_ port_);
  string_setting ["QRM_AMQP_USER"] (compose qrm_rabbitmq_ user_);
  string_setting ["QRM_AMQP_PASSWORD"] (compose qrm_rabbitmq_ password_);
  string_setting ["QRM_AMQP_VHOST"] (compose qrm_rabbitmq_ vhost_);
  string_setting ["QOFFLOAD_REQUEST_QUEUE"] (compose queues_ request_);
  string_setting ["QOFFLOAD_CONTROL_REQUEST_QUEUE"; "QOFFLOAD_API_REQUEST_QUEUE"]
    (compose queues_ control_request_);
  string_setting ["QOFFLOAD_RESULT_QUEUE"] (compose queues_ result_);
  string_setting ["QRM_TASK_QUEUE"] (compose queues_ qrm_task_);
  integer_setting uint64_t ["QOFFLOAD_INSTANCE_UID"; "QOFFLOAD_DAEMON_UID"]
    (compose identity_ instance_uid_);
  string_setting ["QOFFLOAD_USER_IDENTITY"] (compose identity_ user_identity_);
  bool_setting ["QOFFLOAD_LOG_ENABLED"] (compose logging_ enabled_);
  bool_setting ["QOFFLOAD_LOG_CONSOLE_ENABLED"] (compose logging_ console_enabled_);
  bool_setting ["QOFFLOAD_LOG_FILE_ENABLED"] (compose logging_ file_enabled_);
  parsed_setting ["QOFFLOAD_LOG_LEVEL"] parseLogLevel (compose logging_ level_);
  parsed_setting ["QOFFLOAD_LOG_FILE_MODE"] parseLogFileMode (compose logging_ file_mode_);
  integer_setting uint64_t ["QOFFLOAD_LOG_ROTATION_SIZE"] (compose logging_ rotation_size_);
  integer_setting uint64_t ["QOFFLOAD_LOG_ROTATION_FILES"] (compose logging_ rotation_files_);
  string_setting ["QOFFLOAD_RUNTIME_DIR"] (compose paths_ runtime_dir_);
  string_setting ["QOFFLOAD_LOG_DIR"] (compose paths_ log_dir_);
  string_setting ["QOFFLOAD_STATE_FILE"] (compose paths_ state_file_);
  bool_setting ["QOFFLOAD_HPC_NODE"] (compose policy_ hpc_node_);
  bool_setting ["QOFFLOAD_RESUME_STATE"] (compose policy_ resume_state_)].

Definition applyEnvironment (env : Env) (config : Config) : Status * Config :=
  apply_settings settings env config.

Definition applyCommandLine (argv : list string) (config : Config) : Status * Config :=
  (success, config).

#[global] Instance QOffload_AppConfig (b : BuildPaths) : AppConfig Config :=
  {| Config.makeDefaultConfig := makeDefaultConfig b;
     Config.applyEnvironment := applyEnvironment;
     Config.applyCommandLine := applyCommandLine |}.

Definition loadConfig (b : BuildPaths) (env : Env) (argv : list string) : Result Config :=
  Config.loadConfig (H := QOffload_AppConfig b) env argv.

(** The process-wide configuration, stored under the tag of this component. *)
Definition initConfig (config : Config) (stored : Storage Config) : Status * Storage Config :=
  Config.initConfig config stored.
Definition getConfig (stored : Storage Config) : Result Config := Config.getConfig stored.

(** ** Logger sinks (Logger.hpp)

    The sinks a logger is built from; constructing one may throw, which is the
    oracle [ctor_error]: the [what()] of the exception, if any. *)

Inductive SpdlogLevel := spd_trace | spd_debug | spd_info | spd_warn | spd_err
  | spd_critical | spd_off.

Definition toSpdlogLevel (l : LogLevel) : SpdlogLevel :=
  match l with
  | Trace => spd_trace
  | Debug => spd_debug
  | Info => spd_info
  | Warning => spd_warn
  | Error => spd_err
  | Critical => spd_critical
  | Off => spd_off
  end.

Inductive Sink :=
  | stderr_color_sink
  | basic_file_sink (path : string) (truncate : bool)
  | rotating_file_sink (path : string) (max_size max_files : Z)
  | null_sink.

Record LoggerSpec := mkLogger {
  logger_name : string; sinks : list Sink; logger_level : SpdlogLevel }.

Definition file_sink (config : LoggingConfig) (path : string) : Sink :=
  match file_mode config with
  | Append => basic_file_sink path false
  | Truncate => basic_file_sink path true
  | Rotate => rotating_file_sink path (rotation_size config) (rotation_files config)
  end.

Definition makeLogger (ctor_error : Sink → option string) (name : string)
    (config : LoggingConfig) (log_file : string) : Result LoggerSpec :=
  let make (sink : Sink) (sinks : list Sink) : Result (list Sink) :=
    match ctor_error sink with
    | Some what => unexpected (configuration ("Failed to create logger: " +:+ what))
    | None => value (sinks ++ [sink])
    end in
  (let? sinks :=
     if enabled config && console_enabled config then make stderr_color_sink []
     else value [] in
   let? sinks :=
     if enabled config && file_enabled config then
       if decide (log_file = "") then
         unexpected (configuration "File logging enabled without a log file path")
       else make (file_sink config log_file) sinks
     else value sinks in
   let? sinks := if decide (sinks = []) then make null_sink sinks else value sinks in
   value (mkLogger name sinks
            (if enabled config then toSpdlogLevel (level config) else spd_off)))%result.

(** ** Declarative reading of the overrides *)

(** The status a malformed value of the variables [names] is reported with. *)
Definition integer_error (ty : IntType) (names : list string) (env : Env)
    : option Status :=
  text ← getEnv env names;
  match from_chars_all ty text with
  | Some _ => None
  | None => Some (configuration ("Invalid integer value for " +:+ first_name names))
  end.
Definition bool_error (names : list string) (env : Env) : option Status :=
  text ← getEnv env names;
  if decide (text ∈ true_texts ++ false_texts) then None
  else Some (configuration ("Invalid boolean value for " +:+ first_name names)).
Definition parse_error {A} (names : list string) (parse : string → Result A)
    (env : Env) : option Status :=
  text ← getEnv env names;
  match parse text with inl e => Some e | inr _ => None end.

Definition env_integer (ty : IntType) (env : Env) (names : list string) (fallback : Z) : Z :=
  default fallback (getEnv env names ≫= from_chars_all ty).
Definition env_bool (env : Env) (names : list string) (fallback : bool) : bool :=
  default fallback ((λ text, bool_decide (text ∈ true_texts)) <$> getEnv env names).
Definition env_parsed {A} (parse : string → Result A) (env : Env) (names : list string)
    (fallback : A) : A :=
  match getEnv env names with
  | Some text => match parse text with inr a => a | inl _ => fallback end
  | None => fallback
  end.

Definition checks : list (Env → option Status) := [
  integer_error int32_t ["QOFFLOAD_AMQP_PORT"];
  integer_error int32_t ["QRM_AMQP_PORT"];
  integer_error uint64_t ["QOFFLOAD_INSTANCE_UID"; "QOFFLOAD_DAEMON_UID"];
  bool_error ["QOFFLOAD_LOG_ENABLED"];
  bool_error ["QOFFLOAD_LOG_CONSOLE_ENABLED"];
  bool_error ["QOFFLOAD_LOG_FILE_ENABLED"];
  parse_error ["QOFFLOAD_LOG_LEVEL"] parseLogLevel;
  parse_error ["QOFFLOAD_LOG_FILE_MODE"] parseLogFileMode;
  integer_error uint64_t ["QOFFLOAD_LOG_ROTATION_SIZE"];
  integer_error uint64_t ["QOFFLOAD_LOG_ROTATION_FILES"];
  bool_error ["QOFFLOAD_HPC_NODE"];
  bool_error ["QOFFLOAD_RESUME_STATE"]].

Fixpoint first_error (cs : list (Env → option Status)) (env : Env) : option Status :=
  match cs with
  | [] => None
  | c :: cs => match c env with Some e => Some e | None => first_error cs env end
  end.

(** Every field on its own variables. *)
Definition overridden (env : Env) (c : Config) : Config := {|
  rabbitmq := {|
    host := getEnvOr_string env ["QOFFLOAD_AMQP_HOST"] (host (rabbitmq c));
    port := env_integer int32_t env ["QOFFLOAD_AMQP_PORT"] (port (rabbitmq c));
    user := getEnvOr_string env ["QOFFLOAD_AMQP_USER"] (user (rabbitmq c));
    password := getEnvOr_string env ["QOFFLOAD_AMQP_PASSWORD"] (password (rabbitmq c));
    vhost := getEnvOr_string env ["QOFFLOAD_AMQP_VHOST"] (vhost (rabbitmq c)) |};
  qrm_rabbitmq := {|
    host := getEnvOr_string env ["QRM_AMQP_HOST"] (host (qrm_rabbitmq c));
    port := env_integer int32_t env ["QRM_AMQP_PORT"] (port (qrm_rabbitmq c));
    user := getEnvOr_string env ["QRM_AMQP_USER"] (user (qrm_rabbitmq c));
    password := getEnvOr_string env ["QRM_AMQP_PASSWORD"] (password (qrm_rabbitmq c));
    vhost := getEnvOr_string env ["QRM_AMQP_VHOST"] (vhost (qrm_rabbitmq c)) |};
  queues := {|
    request := getEnvOr_string env ["QOFFLOAD_REQUEST_QUEUE"] (request (queues c));
    control_request := getEnvOr_string env
      ["QOFFLOAD_CONTROL_REQUEST_QUEUE"; "QOFFLOAD_API_REQUEST_QUEUE"]
      (control_request (queues c));
    result := getEnvOr_string env ["QOFFLOAD_RESULT_QUEUE"] (result (queues c));
    qrm_task := getEnvOr_string env ["QRM_TASK_QUEUE"] (qrm_task (queues c)) |};
  identity := {|
    instance_uid := env_integer uint64_t env
      ["QOFFLOAD_INSTANCE_UID"; "QOFFLOAD_DAEMON_UID"] (instance_uid (identity c));
    user_identity := getEnvOr_string env ["QOFFLOAD_USER_IDENTITY"]
      (user_identity (identity c)) |};
  logging := {|
    enabled := env_bool env ["QOFFLOAD_LOG_ENABLED"] (enabled (logging c));
    console_enabled := env_bool env ["QOFFLOAD_LOG_CONSOLE_ENABLED"]
      (console_enabled (logging c));
    file_enabled := env_bool env ["QOFFLOAD_LOG_FILE_ENABLED"] (file_enabled (logging c));
    level := env_parsed parseLogLevel env ["QOFFLOAD_LOG_LEVEL"] (level (logging c));
    file_mode := env_parsed parseLogFileMode env ["QOFFLOAD_LOG_FILE_MODE"]
      (file_mode (logging c));
    rotation_size := env_integer uint64_t env ["QOFFLOAD_LOG_ROTATION_SIZE"]
      (rotation_size (logging c));
    rotation_files := env_integer uint64_t env ["QOFFLOAD_LOG_ROTATION_FILES"]
      (rotation_files (logging c)) |};
  paths := {|
    runtime_dir := getEnvOr_string env ["QOFFLOAD_RUNTIME_DIR"] (runtime_dir (paths c));
    log_dir := getEnvOr_string env ["QOFFLOAD_LOG_DIR"] (log_dir (paths c));
    state_file := getEnvOr_string env ["QOFFLOAD_STATE_FILE"] (state_file (paths c)) |};
  policy := {|
    hpc_node := env_bool env ["QOFFLOAD_HPC_NODE"] (hpc_node (policy c));
    resume_state := env_bool env ["QOFFLOAD_RESUME_STATE"] (resume_state (policy c)) |};
|}.

(** ** Facts *)

(** A setting either reports the error of its variables or updates the
    configuration. *)
Record Effect := mkEffect {
  setting : Setting Config;
  error : Env → option Status;
  update : Env → Config → Config;
}.

Definition effect_ok (e : Effect) : Prop :=
  ∀ env c, setting e env c =
    match error e env with Some st => (Some st, c) | None => (None, update e env c) end.

Definition string_effect names (l : Lens Config string) : Effect :=
  mkEffect (string_setting names l) (λ _, None)
    (λ env c, set l (getEnvOr_string env names (get l c)) c).
Definition integer_effect ty names (l : Lens Config Z) : Effect :=
  mkEffect (integer_setting ty names l) (integer_error ty names)
    (λ env c, set l (env_integer ty env names (get l c)) c).
Definition bool_effect names (l : Lens Config bool) : Effect :=
  mkEffect (bool_setting names l) (bool_error names)
    (λ env c, set l (env_bool env names (get l c)) c).
Definition parsed_effect {A} names (parse : string → Result A) (l : Lens Config A) : Effect :=
  mkEffect (parsed_setting names parse l) (parse_error names parse)
    (λ env c, set l (env_parsed parse env names (get l c)) c).

Lemma string_effect_ok names l : effect_ok (string_effect names l).
Proof. done. Qed.

Lemma integer_effect_ok ty names l : effect_ok (integer_effect ty names l).
Proof.
  intros env c. simpl. unfold integer_setting, integer_error, env_integer,
    getEnvOr_integer, from_chars_all.
  destruct (getEnv env names) as [text|]; simpl; [|done]. by case_bool_decide.
Qed.

Lemma bool_effect_ok names l : effect_ok (bool_effect names l).
Proof.
  intros env c. cbn [setting error update bool_effect].
  unfold bool_setting, getEnvOr_bool, bool_error, env_bool.
  destruct (getEnv env names) as [text|]; [|done].
  cbn [mbind option_bind fmap option_fmap option_map].
  destruct (decide (text ∈ true_texts ++ false_texts)) as [Hin|Hin];
    rewrite elem_of_app in Hin.
  - destruct (decide (text ∈ true_texts)).
    + cbn [assign value default]. by rewrite bool_decide_true.
    + destruct (decide (text ∈ false_texts)); [|by destruct Hin].
      cbn [assign value default]. by rewrite bool_decide_false.
  - rewrite !decide_False by tauto. done.
Qed.

Lemma parsed_effect_ok {A} names (parse : string → Result A) l :
  (∀ c, set l (get l c) c = c) → effect_ok (parsed_effect names parse l).
Proof.
  intros Hl env c. simpl. unfold parsed_setting, parse_error, env_parsed.
  destruct (getEnv env names) as [text|]; simpl; [|by rewrite Hl].
  by destruct (parse text).
Qed.

Lemma apply_settings_effects es env c :
  Forall effect_ok es →
  (apply_settings (setting <$> es) env c).1 =
    default success (first_error (error <$> es) env) ∧
  (first_error (error <$> es) env = None →
   (apply_settings (setting <$> es) env c).2 = foldl (λ c e, update e env c) c es).
Proof.
  intros Hes. revert c. induction Hes as [|e es He _ IH]; intros c; [done|].
  cbn [fmap list_fmap map apply_settings first_error foldl]. rewrite He.
  destruct (error e env); [done|]. apply IH.
Qed.

(** The effects of the statements of [applyEnvironment]. *)
Definition effects : list Effect := [
  string_effect ["QOFFLOAD_AMQP_HOST"] (compose rabbitmq_ host_);
  integer_effect int32_t ["QOFFLOAD_AMQP_PORT"] (compose rabbitmq_ port_);
  string_effect ["QOFFLOAD_AMQP_USER"] (compose rabbitmq_ user_);
  string_effect ["QOFFLOAD_AMQP_PASSWORD"] (compose rabbitmq_ password_);
  string_effect ["QOFFLOAD_AMQP_VHOST"] (compose rabbitmq_ vhost_);
  string_effect ["QRM_AMQP_HOST"] (compose qrm_rabbitmq_ host_);
  integer_effect int32_t ["QRM_AMQP_PORT"] (compose qrm_rabbitmq_ port_);
  string_effect ["QRM_AMQP_USER"] (compose qrm_rabbitmq_ user_);
  string_effect ["QRM_AMQP_PASSWORD"] (compose qrm_rabbitmq_ password_);
  string_effect ["QRM_AMQP_VHOST"] (compose qrm_rabbitmq_ vhost_);
  string_effect ["QOFFLOAD_REQUEST_QUEUE"] (compose queues_ request_);
  string_effect ["QOFFLOAD_CONTROL_REQUEST_QUEUE"; "QOFFLOAD_API_REQUEST_QUEUE"]
    (compose queues_ control_request_);
  string_effect ["QOFFLOAD_RESULT_QUEUE"] (compose queues_ result_);
  string_effect ["QRM_TASK_QUEUE"] (compose queues_ qrm_task_);
  integer_effect uint64_t ["QOFFLOAD_INSTANCE_UID"; "QOFFLOAD_DAEMON_UID"]
    (compose identity_ instance_uid_);
  string_effect ["QOFFLOAD_USER_IDENTITY"] (compose identity_ user_identity_);
  bool_effect ["QOFFLOAD_LOG_ENABLED"] (compose logging_ enabled_);
  bool_effect ["QOFFLOAD_LOG_CONSOLE_ENABLED"] (compose logging_ console_enabled_);
  bool_effect ["QOFFLOAD_LOG_FILE_ENABLED"] (compose logging_ file_enabled_);
  parsed_effect ["QOFFLOAD_LOG_LEVEL"] parseLogLevel (compose logging_ level_);
  parsed_effect ["QOFFLOAD_LOG_FILE_MODE"] parseLogFileMode (compose logging_ file_mode_);
  integer_effect uint64_t ["QOFFLOAD_LOG_ROTATION_SIZE"] (compose logging_ rotation_size_);
  integer_effect uint64_t ["QOFFLOAD_LOG_ROTATION_FILES"] (compose logging_ rotation_files_);
  string_effect ["QOFFLOAD_RUNTIME_DIR"] (compose paths_ runtime_dir_);
  string_effect ["QOFFLOAD_LOG_DIR"] (compose paths_ log_dir_);
  string_effect ["QOFFLOAD_STATE_FILE"] (compose paths_ state_file_);
  bool_effect ["QOFFLOAD_HPC_NODE"] (compose policy_ hpc_node_);
  bool_effect ["QOFFLOAD_RESUME_STATE"] (compose policy_ resume_state_)].

Lemma effects_ok : Forall effect_ok effects.
Proof.
  repeat (constructor; [
    first [apply string_effect_ok | apply integer_effect_ok | apply bool_effect_ok
          | apply parsed_effect_ok; intros [[] [] [] [] [] [] []]; reflexivity]|]).
  constructor.
Qed.

Lemma settings_effects : settings = setting <$> effects.
Proof. reflexivity. Qed.

Lemma first_error_effects env :
  first_error (error <$> effects) env = first_error checks env.
Proof. reflexivity. Qed.

Lemma updates_overridden env c :
  foldl (λ c e, update e env c) c effects = overridden env c.
Proof. destruct c as [[] [] [] [] [] [] []]. reflexivity. Qed.

Lemma applyEnvironment_spec env c :
  (applyEnvironment env c).1 = default success (first_error checks env) ∧
  (first_error checks env = None → (applyEnvironment env c).2 = overridden env c).
Proof.
  unfold applyEnvironment. rewrite settings_effects, <-first_error_effects.
  rewrite <-updates_overridden. apply apply_settings_effects, effects_ok.
Qed.

(** The reported errors are configuration errors. *)
Lemma parseLogLevel_error v e : parseLogLevel v = inl e → code e = Configuration.
Proof. unfold parseLogLevel. do 7 (case_decide; [done|]). by intros [= <-]. Qed.
Lemma parseLogFileMode_error v e : parseLogFileMode v = inl e → code e = Configuration.
Proof. unfold parseLogFileMode. do 3 (case_decide; [done|]). by intros [= <-]. Qed.

Lemma first_error_code cs env e :
  Forall (λ c, ∀ e, c env = Some e → code e = Configuration) cs →
  first_error cs env = Some e → code e = Configuration.
Proof.
  induction 1 as [|c cs Hc _ IH]; simpl; [done|].
  destruct (c env) eqn:?; [intros [= <-]|]; eauto.
Qed.

Lemma integer_error_code ty names env e :
  integer_error ty names env = Some e → code e = Configuration.
Proof.
  unfold integer_error. destruct (getEnv env names); simpl; [|done].
  case_match; [done|]. by intros [= <-].
Qed.
Lemma bool_error_code names env e : bool_error names env = Some e → code e = Configuration.
Proof.
  unfold bool_error. destruct (getEnv env names); [|done].
  cbn [mbind option_bind]. case_decide; [done|]. by intros [= <-].
Qed.
Lemma parse_error_code {A} names (parse : string → Result A) env e :
  (∀ v e, parse v = inl e → code e = Configuration) →
  parse_error names parse env = Some e → code e = Configuration.
Proof.
  intros Hp. unfold parse_error. destruct (getEnv env names) as [v|]; simpl; [|done].
  destruct (parse v) eqn:?; [|done]. intros [= <-]. eauto.
Qed.

Lemma checks_code env e : first_error checks env = Some e → code e = Configuration.
Proof.
  apply first_error_code. unfold checks.
  repeat (apply Forall_cons_2; [intros e'; first
    [ apply (parse_error_code _ _ _ _ parseLogLevel_error)
    | apply (parse_error_code _ _ _ _ parseLogFileMode_error)
    | apply integer_error_code | apply bool_error_code ]|]).
  apply Forall_nil_2.
Qed.

Lemma loadConfig_cases b env argv :
  loadConfig b env argv =
  match first_error checks env with
  | Some e => unexpected e
  | None => value (overridden env (makeDefaultConfig b))
  end.
Proof.
  pose proof (applyEnvironment_spec env (makeDefaultConfig b)) as [H1 H2].
  unfold loadConfig, Config.loadConfig. cbn [Config.makeDefaultConfig
    Config.applyEnvironment Config.applyCommandLine QOffload_AppConfig].
  destruct (applyEnvironment env (makeDefaultConfig b)) as [st c]. cbn [fst snd] in *. subst st.
  destruct (first_error checks env) as [e|] eqn:He; cbn [default id].
  - rewrite (proj2 (ok_false e)); [done|]. by rewrite (checks_code env e).
  - by rewrite H2.
Qed.

(** Loading the configuration: the first malformed value, in the order of
    the statements of [applyEnvironment], makes [loadConfig] fail with the
    status naming it; otherwise it returns the defaults with every field
    overridden by the first defined of its own variables and by nothing else. *)
Theorem loadConfig_spec b env argv :
  loadConfig b env argv =
  match first_error checks env with
  | Some e => unexpected e
  | None => value (overridden env (makeDefaultConfig b))
  end.
Proof. apply loadConfig_cases. Qed.

Lemma makeLogger_cases name config log_file :
  let files := enabled config && file_enabled config in
  makeLogger (λ _, None) name config log_file =
  if decide (files = true ∧ log_file = "") then
    unexpected (configuration "File logging enabled without a log file path")
  else
    let l := (if enabled config && console_enabled config then [stderr_color_sink] else [])
             ++ (if files then [file_sink config log_file] else []) in
    value (mkLogger name (if decide (l = []) then [null_sink] else l)
             (if enabled config then toSpdlogLevel (level config) else spd_off)).
Proof.
  destruct config as [en ce fe lv fm rs rf].
  destruct en, ce, fe; simpl; unfold makeLogger; simpl;
    try (destruct (decide (log_file = "")) as [->|]; simpl; [done|]);
    by rewrite ?decide_False by naive_solver.
Qed.

(** A logger always has a sink: when no sink constructor throws,
    [makeLogger] fails exactly for enabled file logging without a path, and
    otherwise the logger has the console sink first and the file sink second as
    configured, a null sink when neither is, and level off when disabled. *)
Theorem makeLogger_spec name config log_file :
  let files := enabled config && file_enabled config in
  makeLogger (λ _, None) name config log_file =
  if decide (files = true ∧ log_file = "") then
    unexpected (configuration "File logging enabled without a log file path")
  else
    let l := (if enabled config && console_enabled config then [stderr_color_sink] else [])
             ++ (if files then [file_sink config log_file] else []) in
    value (mkLogger name (if decide (l = []) then [null_sink] else l)
             (if enabled config then toSpdlogLevel (level config) else spd_off)).
Proof. apply makeLogger_cases. Qed.
