(* ===== verification/ResourceRegistry.v ===== *)
(** * Resource catalog (qoffload/ResourceRegistry.hpp) *)

From S2P Require Import Prelude.

Record ResourceInfo := mkResourceInfo { name : string; qubits : Z; online : bool }.

#[global] Instance ResourceInfo_eq_dec : EqDecision ResourceInfo.
Proof. solve_decision. Defined.

(** [resources_], in the order of the constructor. *)
Definition ResourceRegistry : Type := list ResourceInfo.
Definition resources_ : ResourceRegistry := [
  mkResourceInfo "QLM" 38 false;
  mkResourceInfo "Q5" 5 false;
  mkResourceInfo "Q20" 20 true;
  mkResourceInfo "AQT20" 20 true;
  mkResourceInfo "QExa20" 20 true].

Definition resources (r : ResourceRegistry) : list ResourceInfo := r.

(** [std::ranges::find_if] on the name. *)
Fixpoint find (r : ResourceRegistry) (n : string) : option ResourceInfo :=
  match r with
  | [] => None
  | res :: r => if decide (name res = n) then Some res else find r n
  end.

Lemma find_Some r n res :
  find r n = Some res → res ∈ r ∧ name res = n.
Proof.
  induction r as [|x r IH]; simpl; [done|]. case_decide.
  - intros [= <-]. by split; [left|].
  - intros [??]%IH. by split; [right|].
Qed.

Lemma find_None r n : find r n = None ↔ ∀ res, res ∈ r → name res ≠ n.
Proof.
  induction r as [|x r IH]; simpl.
  - split; [intros _ res Hin; by apply elem_of_nil in Hin|done].
  - setoid_rewrite elem_of_cons. case_decide; split.
    + done.
    + intros H'. by destruct (H' x); [left|].
    + intros H' res [->|Hin]; [done|]. by apply IH.
    + intros H'. apply IH. eauto.
Qed.

(** Every resource of the catalog is found by its name: names are unique. *)
Lemma find_resources res : res ∈ resources_ → find resources_ (name res) = Some res.
Proof.
  unfold resources_. intros Hin. rewrite !elem_of_cons in Hin.
  destruct Hin as [->|[->|[->|[->|[->|Hin]]]]]; try reflexivity.
  by apply elem_of_nil in Hin.
Qed.
