(* ===== verification/Forward.v ===== *)
(** * Forwarding and result correlation (qoffload/Forward.hpp, src/Forward.cpp)

    [Forward] assigns identifiers, records what a forwarded task came from, and
    maps the returned results back.  Identifiers are [uint64] inside the
    component and [int32] in the messages; every conversion is written out. *)

From S2P Require Import Prelude Protocol TaskStore QOffloadConfig.

(** ** Data *)

Record Forward := mkForward { instance_uid_ : Z; next_task_index_ : Z }.

Definition new_forward (instance_uid : Z) : Forward := mkForward instance_uid 0.

Inductive ResultProcessingKind := UnknownTask | DirectResult | ControlResultStored.

#[global] Instance ResultProcessingKind_eq_dec : EqDecision ResultProcessingKind.
Proof. solve_decision. Defined.

Record ResultProcessingOutcome := mkOutcome {
  outcome_kind : ResultProcessingKind;
  direct_result : option QuantumResult;
  direct_result_destination : string;
}.

(** ** Operations *)

(** [fetch_add] is atomic, so concurrent callers get distinct indices. *)
Definition nextTaskId (f : Forward) : Z * Forward :=
  let index := next_task_index_ f in
  (to_uint64 (to_uint64 (index * 10000) + instance_uid_ f),
   mkForward (instance_uid_ f) (to_uint64 (index + 1))).

Definition forwardDirectTask (request : QuantumTask) (tasks : TaskStore)
    (config : Config) (f : Forward) : QuantumTask * TaskStore * Forward :=
  let '(id, f) := nextTaskId f in
  let forwarded := QuantumTask.set_task_id (to_int32 id) request in
  let forwarded :=
    QuantumTask.set_result_destination (QOffloadConfig.result (queues config)) forwarded in
  let forwarded :=
    if hpc_node (policy config) then QuantumTask.set_priority 1 forwarded
    else forwarded in
  let tasks :=
    addDirectTask
      {| kind := DirectTask;
         forwarded_task_id := id;
         original_task_id := to_uint64 (QuantumTask.task_id request);
         original_result_destination := QuantumTask.result_destination request |}
      tasks in
  (forwarded, tasks, f).

Definition createControlTask (task : QuantumTask) (tasks : TaskStore)
    (config : Config) (f : Forward) : QuantumTask * TaskStore * Forward :=
  let '(id, f) := nextTaskId f in
  let task := QuantumTask.set_task_id (to_int32 id) task in
  let task :=
    QuantumTask.set_result_destination (QOffloadConfig.result (queues config)) task in
  let task :=
    if hpc_node (policy config) then QuantumTask.set_priority 1 task else task in
  (task, addControlTask id tasks, f).

(** The entries of [circuit_result.counts()], emplaced one by one. *)
Definition copy_counts (r : CircuitResult) : Counts :=
  map_fold emplace ∅ (counts r).

Definition completed_of_result (pending : PendingTask) (result : QuantumResult)
    : CompletedControlTask := {|
  task_id := original_task_id pending;
  execution_status := QuantumResult.execution_status result;
  result_counts := copy_counts <$> QuantumResult.results result;
  cancel_reason := "";
  timestamp_scheduled := "";
  timestamp_submitted := "";
  timestamp_completed := "";
|}.

Definition processResult (result : QuantumResult) (tasks : TaskStore)
    : ResultProcessingOutcome * TaskStore :=
  let id := to_uint64 (QuantumResult.task_id result) in
  match takePending id tasks with
  | (None, tasks) => (mkOutcome UnknownTask None "", tasks)
  | (Some pending, tasks) =>
      match kind pending with
      | ControlTask =>
          (mkOutcome ControlResultStored None "",
           storeCompletedControlTask (completed_of_result pending result) tasks)
      | DirectTask =>
          let result :=
            QuantumResult.set_task_id (to_int32 (original_task_id pending)) result in
          let result :=
            QuantumResult.set_destination (original_result_destination pending) result in
          (mkOutcome DirectResult (Some result) (original_result_destination pending),
           tasks)
      end
  end.

(** ** Facts *)

Lemma copy_counts_id r : copy_counts r = counts r.
Proof. apply map_fold_emplace. Qed.

(** The identifier of the task with the given index. *)
Definition id_of (uid index : Z) : Z := to_uint64 (index * 10000 + uid).

Lemma nextTaskId_id f : (nextTaskId f).1 = id_of (instance_uid_ f) (next_task_index_ f).
Proof. unfold nextTaskId, id_of, to_uint64. simpl. by rewrite Zplus_mod_idemp_l. Qed.

Lemma id_of_uint64 uid i : is_uint64 (id_of uid i).
Proof. apply to_uint64_range. Qed.
#[export] Hint Resolve id_of_uint64 : mqss.

(** Identifiers modulo [16 * m] repeat exactly when the indices do modulo [m],
    as [10000] is [16 * 625] and [625] is odd. *)
Lemma index_congr m u i j :
  0 < m → Z.gcd m 625 = 1 →
  (i * 10000 + u) mod (16 * m) = (j * 10000 + u) mod (16 * m) ↔ i mod m = j mod m.
Proof.
  intros Hm Hg. rewrite !mod_eq_divide by lia. split.
  - intros [q Hq]. apply (Z.gauss m 625); [|done]. exists q. lia.
  - intros [q Hq]. exists (q * 625). lia.
Qed.

Lemma to_int32_eq a b : to_int32 a = to_int32 b ↔ a mod 4294967296 = b mod 4294967296.
Proof. wrap_lia. Qed.

Lemma to_int32_id_of uid i j :
  to_int32 (id_of uid i) = to_int32 (id_of uid j) ↔
  (i * 10000 + uid) mod (16 * 268435456) = (j * 10000 + uid) mod (16 * 268435456).
Proof.
  rewrite to_int32_eq. unfold id_of, to_uint64.
  change 18446744073709551616 with (4294967296 * 4294967296).
  rewrite !(Z.mod_mod_divide _ (4294967296 * 4294967296) 4294967296)
    by (by exists 4294967296). done.
Qed.

(** Uniqueness of task identifiers: two tasks of one instance get the same
    internal identifier only when their indices differ by a multiple of 2^60,
    and the same identifier on the wire ([int32]) only when they differ by a
    multiple of 2^28; below those counts identifiers are pairwise distinct. *)
Theorem task_ids_distinct uid i j :
  let id k := (nextTaskId (mkForward uid k)).1 in
  (id i = id j ↔ i mod 2 ^ 60 = j mod 2 ^ 60) ∧
  (to_int32 (id i) = to_int32 (id j) ↔ i mod 2 ^ 28 = j mod 2 ^ 28).
Proof.
  intros id. unfold id. rewrite !nextTaskId_id. simpl. split.
  - unfold id_of, to_uint64. by apply (index_congr (2 ^ 60) uid i j).
  - rewrite to_int32_id_of. by apply (index_congr (2 ^ 28) uid i j).
Qed.

(** The fields of the forwarded message. *)
Lemma forwarded_fields request tasks config f :
  let '(forwarded, tasks', f') := forwardDirectTask request tasks config f in
  QuantumTask.task_id forwarded = to_int32 (nextTaskId f).1 ∧
  QuantumTask.result_destination forwarded = QOffloadConfig.result (queues config) ∧
  QuantumTask.circuit_files forwarded = QuantumTask.circuit_files request ∧
  QuantumTask.n_shots forwarded = QuantumTask.n_shots request ∧
  QuantumTask.priority forwarded =
    (if hpc_node (policy config) then 1 else QuantumTask.priority request) ∧
  pending_ tasks' !! (nextTaskId f).1 =
    Some (mkPendingTask DirectTask (nextTaskId f).1
            (to_uint64 (QuantumTask.task_id request))
            (QuantumTask.result_destination request)) ∧
  f' = (nextTaskId f).2.
Proof.
  destruct request. unfold forwardDirectTask. simpl.
  destruct (hpc_node (policy config)); simpl; split_and!;
    done || by rewrite lookup_insert_eq.
Qed.

(** The wire identifier finds its way back when it fits the [int32] field. *)
Lemma wire_id id : 0 <= id < 2147483648 → to_uint64 (to_int32 id) = id.
Proof. wrap_lia. Qed.

Lemma processResult_unknown result tasks :
  pending_ tasks !! to_uint64 (QuantumResult.task_id result) = None →
  processResult result tasks = (mkOutcome UnknownTask None "", tasks).
Proof. intros H. unfold processResult, takePending. by rewrite H. Qed.

(** What an outcome delivers to a direct client. *)
Definition delivered_to (request : QuantumTask) (result : QuantumResult)
    : ResultProcessingOutcome :=
  mkOutcome DirectResult
    (Some (QuantumResult.set_destination (QuantumTask.result_destination request)
             (QuantumResult.set_task_id (QuantumTask.task_id request) result)))
    (QuantumTask.result_destination request).

(** Direct tasks round trip, exactly once: when the assigned identifier fits
    [int32], the result that carries the forwarded task's wire identifier is
    delivered to the client's destination with the client's own task identifier
    and is otherwise unchanged, the store is back to what it was before, and a
    repetition of the result is an unknown task. *)
Theorem direct_task_roundtrip request tasks config f result :
  task_wf request →
  (nextTaskId f).1 < 2147483648 →
  pending_ tasks !! (nextTaskId f).1 = None →
  let '(forwarded, tasks1, _) := forwardDirectTask request tasks config f in
  QuantumResult.task_id result = QuantumTask.task_id forwarded →
  processResult result tasks1 = (delivered_to request result, tasks) ∧
  processResult result tasks = (mkOutcome UnknownTask None "", tasks).
Proof.
  intros Hwf Hid Hfresh. pose proof (forwarded_fields request tasks config f) as Hf.
  pose proof (to_uint64_range (to_uint64 (next_task_index_ f * 10000) + instance_uid_ f)) as Hu.
  destruct (forwardDirectTask request tasks config f) as [[fwd tasks1] f1] eqn:Hfw.
  destruct Hf as (Hti & _ & _ & _ & _ & Hp & _).
  assert (tasks1 = addDirectTask (mkPendingTask DirectTask (nextTaskId f).1
            (to_uint64 (QuantumTask.task_id request))
            (QuantumTask.result_destination request)) tasks) as Ht1.
  { unfold forwardDirectTask in Hfw. by simplify_eq/=. }
  intros Hr. assert (to_uint64 (QuantumResult.task_id result) = (nextTaskId f).1) as Hw.
  { rewrite Hr, Hti. apply wire_id. unfold is_uint64 in Hu. simpl. simpl in Hid. lia. }
  split; [|by apply processResult_unknown; rewrite Hw].
  unfold processResult, takePending. rewrite Hw, Hp. cbn [kind].
  unfold delivered_to. cbn [original_task_id original_result_destination].
  rewrite to_int32_uint64 by done. subst tasks1. f_equal.
  unfold addDirectTask. cbn [pending_ completed_control_tasks_ forwarded_task_id].
  rewrite delete_insert_id by done. by destruct tasks.
Qed.

Lemma direct_task_roundtrip_witness :
  let request := QuantumTask.set_task_id 7
    (QuantumTask.set_result_destination "client" QuantumTask.default_instance) in
  let result := QuantumResult.set_task_id 3 QuantumResult.default_instance in
  let config := makeDefaultConfig (mkBuildPaths "" "" "") in
  let '(forwarded, tasks1, _) :=
    forwardDirectTask request empty_store config (new_forward 3) in
  QuantumTask.task_id forwarded = 3 ∧
  processResult result tasks1 = (delivered_to request result, empty_store).
Proof.
  pose (request := QuantumTask.set_task_id 7
    (QuantumTask.set_result_destination "client" QuantumTask.default_instance)).
  assert (task_wf request) as Hwf by (split; [discriminate|reflexivity]).
  split; [reflexivity|].
  apply (direct_task_roundtrip request empty_store
    (makeDefaultConfig (mkBuildPaths "" "" "")) (new_forward 3)
    (QuantumResult.set_task_id 3 QuantumResult.default_instance) Hwf
    ltac:(reflexivity) ltac:(reflexivity) ltac:(reflexivity)).
Defined.

(** Life of a control task: under an identifier that fits [int32] and is
    unknown to the store, it is waiting once created; the result carrying its
    wire identifier makes it completed or cancelled as the result says; the
    stored result is handed out once, with the counts of every circuit, and the
    task is then not found and the store is as before. *)
Theorem control_task_lifecycle task tasks config f result :
  (nextTaskId f).1 < 2147483648 →
  pending_ tasks !! (nextTaskId f).1 = None →
  completed_control_tasks_ tasks !! (nextTaskId f).1 = None →
  let id := (nextTaskId f).1 in
  let '(created, tasks1, _) := createControlTask task tasks config f in
  QuantumResult.task_id result = QuantumTask.task_id created →
  let '(outcome, tasks2) := processResult result tasks1 in
  let '(stored, tasks3) := takeCompletedControlTask id tasks2 in
  status id tasks1 = Waiting ∧
  outcome = mkOutcome ControlResultStored None "" ∧
  status id tasks2 =
    (if QuantumResult.execution_status result then Completed else Cancelled) ∧
  (result_counts <$> stored) = Some (counts <$> QuantumResult.results result) ∧
  status id tasks3 = NotFound ∧
  tasks3 = tasks.
Proof.
  intros Hid Hp Hc id.
  assert (0 <= id) by (unfold id; simpl; apply (to_uint64_range _)).
  change (nextTaskId f).1 with id in Hid, Hp, Hc.
  destruct (createControlTask task tasks config f) as [[created tasks1] f1] eqn:Hcr.
  assert (QuantumTask.task_id created = to_int32 id ∧ tasks1 = addControlTask id tasks)
    as [Hti ->].
  { unfold createControlTask in Hcr. simplify_eq/=. destruct task.
    by destruct (hpc_node (policy config)). }
  intros Hr. unfold processResult, takePending. rewrite Hr, Hti, wire_id by lia.
  unfold addControlTask, addDirectTask. cbn [pending_ forwarded_task_id completed_control_tasks_].
  rewrite lookup_insert_eq. cbn [kind]. rewrite delete_insert_id by done.
  unfold storeCompletedControlTask, takeCompletedControlTask, completed_of_result, status.
  cbn [task_id original_task_id pending_ completed_control_tasks_].
  rewrite lookup_insert_eq. cbn [pending_ completed_control_tasks_].
  rewrite delete_insert_id by done. split_and!.
  - rewrite decide_True; [done|]. rewrite lookup_insert_eq. eauto.
  - done.
  - rewrite decide_False; [done|]. rewrite Hp. by apply is_Some_None.
  - simpl. f_equal. apply list_fmap_ext. intros. apply copy_counts_id.
  - rewrite decide_False by (rewrite Hp; apply is_Some_None). by rewrite Hc.
  - by destruct tasks.
Qed.

Lemma control_task_lifecycle_witness :
  let result := QuantumResult.mk 3 [mkCircuitResult {["00" := 5]}] "" true "" [] ""
                  (S754_zero false) in
  let config := makeDefaultConfig (mkBuildPaths "" "" "") in
  let '(_, tasks1, _) :=
    createControlTask QuantumTask.default_instance empty_store config (new_forward 3) in
  status 3 tasks1 = Waiting ∧ status 3 (processResult result tasks1).2 = Completed.
Proof.
  pose proof (control_task_lifecycle QuantumTask.default_instance empty_store
    (makeDefaultConfig (mkBuildPaths "" "" "")) (new_forward 3)
    (QuantumResult.mk 3 [mkCircuitResult {["00" := 5]}] "" true "" [] "" (S754_zero false))
    ltac:(reflexivity) ltac:(reflexivity) ltac:(reflexivity) ltac:(reflexivity))
    as (H1 & _ & H2 & _).
  split; [exact H1|exact H2].
Defined.

(** A message's [int32] identifier, read back as [uint64], is the identifier it
    was made from exactly outside a window in the middle of the range. *)
Lemma int32_roundtrip id :
  is_uint64 id →
  to_uint64 (to_int32 id) = id ↔ ¬ (2147483648 <= id < 18446744071562067968).
Proof. intros Hid. split; intros H; wrap_lia. Qed.

Lemma waiting_pending id tasks : status id tasks = Waiting ↔ is_Some (pending_ tasks !! id).
Proof.
  unfold status. case_decide; [done|].
  destruct (completed_control_tasks_ tasks !! id) as [c|]; [|done].
  by destruct (execution_status c).
Qed.

(** C35. Which identifiers are correlated.  A task waiting under an identifier
    from 2^31 to 2^64 - 2^31 - 1 is never completed: it stays waiting through
    any sequence of results, whatever their [int32] identifiers.  Below and above
    this window, where the conversion to [int32] and back, with its sign, is the
    identity, the result with the identifier that was sent completes it. *)
Theorem wide_id_never_completes id tasks :
  is_uint64 id → status id tasks = Waiting →
  (2147483648 <= id < 18446744071562067968 →
   ∀ results, Forall result_wf results →
     status id (foldl (λ s r, (processResult r s).2) tasks results) = Waiting) ∧
  (¬ (2147483648 <= id < 18446744071562067968) →
   ∀ result, QuantumResult.task_id result = to_int32 id →
     status id (processResult result tasks).2 ≠ Waiting).
Proof.
  intros Hid Hst. split.
  - intros Hwide results Hrs. revert tasks Hst.
    induction Hrs as [|r rs Hr _ IH]; intros tasks Hst; [done|]. simpl. apply IH.
    assert (to_uint64 (QuantumResult.task_id r) ≠ id) as Hne.
    { unfold result_wf in Hr. wrap_lia. }
    apply waiting_pending in Hst. rewrite waiting_pending. unfold processResult, takePending.
    destruct (pending_ tasks !! to_uint64 (QuantumResult.task_id r)) as [p|] eqn:Hl; [|done].
    destruct (kind p); simpl; by rewrite lookup_delete_ne.
  - intros Hfit%int32_roundtrip result Hr; [|done].
    apply waiting_pending in Hst as [p Hp]. rewrite waiting_pending.
    unfold processResult, takePending. rewrite Hr, Hfit, Hp.
    destruct (kind p); simpl; rewrite lookup_delete_eq; by intros [? [=]].
Qed.

(** The 214750th task of instance 0 is the first to be registered so. *)
Lemma wide_id_never_completes_witness :
  let f := mkForward 0 214749 in
  let config := makeDefaultConfig (mkBuildPaths "" "" "") in
  let '(forwarded, tasks, _) :=
    forwardDirectTask QuantumTask.default_instance empty_store config f in
  let result := QuantumResult.set_task_id (QuantumTask.task_id forwarded)
                  QuantumResult.default_instance in
  (nextTaskId (mkForward 0 214748)).1 < 2147483648 ∧
  status 2147490000 (processResult result tasks).2 = Waiting.
Proof.
  split; [reflexivity|].
  refine (proj1 (wide_id_never_completes 2147490000
    (addDirectTask (mkPendingTask DirectTask 2147490000 0 "") empty_store) _ _) _
    [QuantumResult.set_task_id (-2147477296) QuantumResult.default_instance] _).
  - split; [discriminate|reflexivity].
  - reflexivity.
  - split; [discriminate|reflexivity].
  - constructor; [split; [discriminate|reflexivity]|constructor].
Defined.
