(* ===== verification/ControlProtocol.v ===== *)
(** * Control commands and protocol adapters (src/control/ControlProtocol.hpp)

    The semantic commands and results, the adapter interface as a record of
    operations, and the typed adapter (src/control/TypedControlProtocol.cpp). *)

From S2P Require Import Prelude Protocol TaskStore ResourceRegistry.

(** ** Commands and results *)

Record CreateQuantumTaskCommand := mkCreate {
  shots : Z;
  circuit_files : list string;
  circuit_format : string;
  resource_name : string;
  no_modify : bool;
}.

Inductive ControlCommand :=
  | CreateQuantumTask (c : CreateQuantumTaskCommand)
  | GetTaskStatus (id : Z)
  | GetTaskResult (id : Z)
  | GetCancelReason (id : Z)
  | ListResources
  | GetResourceInfo (name : string)
  | QueryPendingTasks (name : string)
  | InvalidControl (message : string).

Inductive ControlResult :=
  | TaskCreatedResult (id : Z)
  | TaskStatusResult (st : TaskStatus)
  | TaskResultResult (task : CompletedControlTask)
  | CancelReasonResult (reason : string)
  | ResourceListResult (resources : list ResourceInfo)
  | ResourceInfoResult (resource : ResourceInfo)
  | PendingTasksResult (count : Z)
  | ControlError (message : string).

Record DecodedControlRequest := mkDecoded {
  command : ControlCommand;
  response_queue : string;
}.

(** [class ControlProtocol]: the two operations of an adapter. *)
Record ControlProtocol := mkProtocol {
  decode : APIRequest → DecodedControlRequest;
  encode : ControlResult → string → APIResponse;
}.

(** ** The typed adapter *)

Module Typed.
Definition InvalidControlRequest : string := "INVALID CONTROL REQUEST".
Definition JobNotFound : string := "JOB NOT FOUND".

Definition invalid (message : string) : ControlCommand := InvalidControl message.

Definition makeCreateCommand (r : CreateTaskRequest) : CreateQuantumTaskCommand := {|
  shots := CreateTaskRequest.shots r;
  circuit_files := CreateTaskRequest.circuit r;
  circuit_format := CreateTaskRequest.circuit_format r;
  resource_name := CreateTaskRequest.resource_name r;
  no_modify := CreateTaskRequest.no_modify r;
|}.

Definition decode (request : APIRequest) : DecodedControlRequest := {|
  response_queue := APIRequest.response_queue request;
  command :=
    match APIRequest.typed_request_case request with
    | Some (APIRequest.create_task r) => CreateQuantumTask (makeCreateCommand r)
    | Some (APIRequest.task_status r) => GetTaskStatus (to_uint64 (TaskRequest.uuid r))
    | Some (APIRequest.task_result r) => GetTaskResult (to_uint64 (TaskRequest.uuid r))
    | Some (APIRequest.cancel_reason r) => GetCancelReason (to_uint64 (TaskRequest.uuid r))
    | Some APIRequest.list_resources => ListResources
    | Some (APIRequest.resource_info r) =>
        GetResourceInfo (ResourceRequest.resource_name r)
    | Some (APIRequest.pending_tasks r) =>
        QueryPendingTasks (ResourceRequest.resource_name r)
    | None => invalid InvalidControlRequest
    end;
|}.

Definition setTaskResult (task : CompletedControlTask) : TaskResultResponse := {|
  TaskResultResponse.result := mkCircuitResult <$> result_counts task;
  TaskResultResponse.timestamp_scheduled := timestamp_scheduled task;
  TaskResultResponse.timestamp_submitted := timestamp_submitted task;
  TaskResultResponse.timestamp_completed := timestamp_completed task;
|}.

Definition setResource (r : ResourceInfo) : ResourceInfoResponse := {|
  ResourceInfoResponse.name := name r;
  ResourceInfoResponse.num_qubits := to_int32 (qubits r);
  ResourceInfoResponse.online := online r;
|}.

Definition encode (result : ControlResult) (destination_queue : string) : APIResponse := {|
  APIResponse.response_body := None;
  APIResponse.destination_queue := destination_queue;
  APIResponse.typed_response_case := Some
    match result with
    | TaskCreatedResult id => APIResponse.create_task (to_int32 id)
    | TaskStatusResult Waiting => APIResponse.task_status API_TASK_STATUS_WAITING
    | TaskStatusResult Completed => APIResponse.task_status API_TASK_STATUS_COMPLETED
    | TaskStatusResult Cancelled => APIResponse.task_status API_TASK_STATUS_CANCELLED
    (* [mutable_error] selects the error case of the oneof in place of the
       status selected before the switch *)
    | TaskStatusResult NotFound => APIResponse.error JobNotFound
    | TaskResultResult task => APIResponse.task_result (setTaskResult task)
    | CancelReasonResult reason => APIResponse.cancel_reason reason
    | ResourceListResult rs => APIResponse.resources (name <$> rs)
    | ResourceInfoResult r => APIResponse.resource_info (setResource r)
    | PendingTasksResult n => APIResponse.pending_tasks (to_int32 n)
    | ControlError m => APIResponse.error m
    end;
|}.

Definition protocol : ControlProtocol := mkProtocol decode encode.
End Typed.
