(* ===== verification/RestControlProtocol.v ===== *)
(** * The REST-like adapter (src/control/RestControlProtocol.cpp)

    Path splitting, the field accessors of the JSON payload, routing of a
    request to a command and encoding of a result into a JSON body. *)

From S2P Require Import Prelude CharConv Protocol TaskStore ResourceRegistry ControlProtocol.

(** ** Paths *)

(** [path.starts_with('/')], [path.ends_with('/')] *)
Fixpoint remove_leading (path : string) : string :=
  match path with
  | String "/" r => remove_leading r
  | _ => path
  end.

Fixpoint ends_with_slash (path : string) : bool :=
  match path with
  | EmptyString => false
  | String c EmptyString => bool_decide (c = "/"%char)
  | String _ r => ends_with_slash r
  end.

(** [path.remove_suffix(1)] *)
Fixpoint remove_last (path : string) : string :=
  match path with
  | EmptyString => EmptyString
  | String c EmptyString => EmptyString
  | String c r => String c (remove_last r)
  end.

(** The second [while] loop; every turn shortens the path. *)
Fixpoint remove_trailing (fuel : nat) (path : string) : string :=
  match fuel with
  | O => path
  | S fuel =>
      if ends_with_slash path && negb (String.eqb path "")
      then remove_trailing fuel (remove_last path) else path
  end.

(** [path.find('/')]: the text before the first separator and, unless there is
    none ([npos]), the text after it. *)
Fixpoint find_slash (path : string) : string * option string :=
  match path with
  | EmptyString => ("", None)
  | String "/" r => ("", Some r)
  | String c r => let '(a, b) := find_slash r in (String c a, b)
  end.

(** The third [while] loop, with the parts found so far. *)
Fixpoint split_loop (fuel : nat) (path : string) (parts : list string) : list string :=
  match fuel with
  | O => parts
  | S fuel =>
      if String.eqb path "" then parts
      else
        let '(part, rest) := find_slash path in
        let parts := parts ++ [part] in
        match rest with
        | None => parts
        | Some path => split_loop fuel path parts
        end
  end.

Definition splitPath (path : string) : list string :=
  let path := remove_leading path in
  let path := remove_trailing (String.length path) path in
  split_loop (String.length path) path [].

Definition parseTaskId (text : string) : option Z :=
  if String.eqb text "" then None
  else
    let r := from_chars uint64_t text 0 in
    if bool_decide (ec r ≠ errc_none ∨ ptr r ≠ "") then None else Some (result r).

(** ** Payload fields *)

Definition findField (data : Struct) (key : string) : option Value := data !! key.

Definition int_min : Z := -2147483648.
Definition int_max : Z := 2147483647.

(** The limits convert exactly to [double] in the comparisons. *)
Definition requiredInt (data : Struct) (key : string) : option Z :=
  match findField data key with
  | Some (NumberValue number) =>
      if negb (isfinite number) || negb (eqb (trunc number) number) ||
         ltb number (double_of_Z int_min) || ltb (double_of_Z int_max) number
      then None else Some (static_cast_int number)
  | _ => None
  end.

Definition requiredBool (data : Struct) (key : string) : option bool :=
  match findField data key with Some (BoolValue b) => Some b | _ => None end.

Definition requiredString (data : Struct) (key : string) : option string :=
  match findField data key with Some (StringValue s) => Some s | _ => None end.

(** The loop over the entries, with the values collected so far. *)
Fixpoint string_values (entries : list Value) (values : list string)
    : option (list string) :=
  match entries with
  | [] => Some values
  | StringValue s :: entries => string_values entries (values ++ [s])
  | _ => None
  end.

Definition requiredStringList (data : Struct) (key : string) : option (list string) :=
  match findField data key with
  | Some (ListValue entries) => string_values entries []
  | _ => None
  end.

(** ** Names and messages of the interface *)

Definition GetMethod : string := "GET".
Definition PostMethod : string := "POST".
Definition JobPath : string := "job".
Definition ResourcesPath : string := "resources".
Definition StatusPath : string := "status".
Definition ResultPath : string := "result".
Definition CancelReasonPath : string := "cancel_reason".
Definition PendingJobsPath : string := "num_pending_jobs".
Definition InvalidMethod : string := "INVALID METHOD".
Definition InvalidJobRequest : string := "INVALID JOB REQUEST".
Definition InvalidJobId : string := "INVALID JOB ID".
Definition JobNotFound : string := "JOB NOT FOUND".
Definition UnknownControlRequest : string := "UNKNOWN CONTROL REQUEST".

Definition invalid (message : string) : ControlCommand := InvalidControl message.

Ltac literals :=
  unfold GetMethod, PostMethod, JobPath, ResourcesPath, StatusPath, ResultPath,
    CancelReasonPath, PendingJobsPath, invalid, InvalidMethod, InvalidJobRequest,
    InvalidJobId, JobNotFound, UnknownControlRequest in *.

(** ** Decoding *)

Definition createTaskCommand (request : APIRequest) : ControlCommand :=
  if negb (String.eqb (APIRequest.method request) PostMethod)
  then invalid InvalidMethod
  else
    let data := APIRequest.data request in
    let shots := requiredInt data "shots" in
    let circuit := requiredStringList data "circuit" in
    let circuit_format := requiredString data "circuit_format" in
    let resource_name := requiredString data "resource_name" in
    let no_modify := requiredBool data "no_modify" in
    match shots, circuit, circuit_format, resource_name, no_modify with
    | Some shots, Some circuit, Some circuit_format, Some resource_name, Some no_modify =>
        if shots <? 0 then invalid InvalidJobRequest
        else CreateQuantumTask
               (mkCreate shots circuit circuit_format resource_name no_modify)
    | _, _, _, _, _ => invalid InvalidJobRequest
    end.

Definition unknown_request : ControlCommand := invalid UnknownControlRequest.

(** [path.size() == 1 && path[0] == JobPath] *)
Definition is_job_path (path : list string) : bool := bool_decide (path = [JobPath]).

(** The [GET job/<id>/<what>] routes. *)
Definition route_job (id what : string) : ControlCommand :=
  match parseTaskId id with
  | None => invalid InvalidJobId
  | Some task_id =>
      if String.eqb what StatusPath then GetTaskStatus task_id
      else if String.eqb what ResultPath then GetTaskResult task_id
      else if String.eqb what CancelReasonPath then GetCancelReason task_id
      else unknown_request
  end.

(** The [GET resources...] routes. *)
Definition route_resources (path : list string) : ControlCommand :=
  match path with
  | [p0] => if String.eqb p0 ResourcesPath then ListResources else unknown_request
  | [p0; p1] =>
      if String.eqb p0 ResourcesPath && negb (String.eqb p1 "")
      then GetResourceInfo p1 else unknown_request
  | [p0; p1; p2] =>
      if String.eqb p0 ResourcesPath && negb (String.eqb p1 "") &&
         String.eqb p2 PendingJobsPath
      then QueryPendingTasks p1 else unknown_request
  | _ => unknown_request
  end.

Definition route (request : APIRequest) (path : list string) : ControlCommand :=
  if is_job_path path then createTaskCommand request
  else if negb (String.eqb (APIRequest.method request) GetMethod)
  then invalid InvalidMethod
  else
    match path with
    | [p0; p1; p2] =>
        if String.eqb p0 JobPath then route_job p1 p2 else route_resources path
    | _ => route_resources path
    end.

Definition decode (request : APIRequest) : DecodedControlRequest := {|
  command := route request (splitPath (APIRequest.request request));
  response_queue := APIRequest.response_queue request;
|}.

(** ** Encoding *)

Definition setString (key v : string) (body : Struct) : Struct :=
  <[key := StringValue v]> body.
Definition setNumber (key : string) (v : double) (body : Struct) : Struct :=
  <[key := NumberValue v]> body.
Definition setBool (key : string) (v : bool) (body : Struct) : Struct :=
  <[key := BoolValue v]> body.
Definition setError (message : string) (body : Struct) : Struct :=
  setString "Error" message body.

(** One counts object: a number per measured state. *)
Definition counts_struct (c : Counts) : Struct :=
  map_fold (λ state count entry, <[state := NumberValue (double_of_Z count)]> entry) ∅ c.

Definition setTaskResult (task : CompletedControlTask) (body : Struct) : Struct :=
  let body := <["result" := ListValue
    ((λ c, StructValue (counts_struct c)) <$> result_counts task)]> body in
  let body := setString "timestamp_scheduled" (timestamp_scheduled task) body in
  let body := setString "timestamp_submitted" (timestamp_submitted task) body in
  setString "timestamp_completed" (timestamp_completed task) body.

Definition setResource (resource : ResourceInfo) (body : Struct) : Struct :=
  let body := setString "name" (name resource) body in
  let body := setNumber "qubits" (double_of_Z (qubits resource)) body in
  setBool "online" (online resource) body.

Definition setResources (resources : list ResourceInfo) (body : Struct) : Struct :=
  <["resources" := ListValue
    ((λ r, StructValue (setResource r ∅)) <$> resources)]> body.

Definition encode_body (result : ControlResult) (body : Struct) : Struct :=
  match result with
  | TaskCreatedResult id => setString "uuid" (to_string id) body
  | TaskStatusResult Waiting => setString "status" "WAITING" body
  | TaskStatusResult Completed => setString "status" "COMPLETED" body
  | TaskStatusResult Cancelled => setString "status" "CANCELLED" body
  | TaskStatusResult NotFound => setError JobNotFound body
  | TaskResultResult task => setTaskResult task body
  | CancelReasonResult reason => setString "cancel_reason" reason body
  | ResourceListResult rs => setResources rs body
  | ResourceInfoResult r => setResource r body
  | PendingTasksResult n => setNumber "num_pending_jobs" (double_of_Z n) body
  | ControlError m => setError m body
  end.

Definition encode (result : ControlResult) (destination_queue : string) : APIResponse := {|
  APIResponse.response_body := Some (encode_body result ∅);
  APIResponse.destination_queue := destination_queue;
  APIResponse.typed_response_case := None;
|}.

Definition protocol : ControlProtocol := mkProtocol decode encode.

(** ** Facts: paths *)

(** [n] separators, and texts without one. *)
Fixpoint slashes (n : nat) : string :=
  match n with O => "" | S n => String "/" (slashes n) end.

Fixpoint no_slash (s : string) : bool :=
  match s with
  | EmptyString => true
  | String c r => bool_decide (c ≠ "/"%char) && no_slash r
  end.

Definition starts_with_slash (s : string) : bool :=
  match s with String c _ => bool_decide (c = "/"%char) | EmptyString => false end.

(** A non-empty list of slash-free segments, the first and last not empty. *)
Definition segments (parts : list string) : Prop :=
  Forall (λ s, no_slash s = true) parts ∧ head parts ≠ Some "" ∧ last parts ≠ Some "".

Lemma remove_leading_cons c r :
  remove_leading (String c r) = if decide (c = "/"%char) then remove_leading r else String c r.
Proof. by destruct c as [[] [] [] [] [] [] [] []]. Qed.

Lemma remove_leading_spec p :
  ∃ n, p = slashes n +:+ remove_leading p ∧ starts_with_slash (remove_leading p) = false.
Proof.
  induction p as [|c r (n & Hr & Hs)]; [by exists 0%nat|].
  rewrite remove_leading_cons. destruct (decide (c = "/"%char)) as [->|Hc].
  - exists (S n). simpl. by rewrite <-Hr.
  - exists 0%nat. simpl. by rewrite bool_decide_false.
Qed.

Lemma remove_leading_slashes n s :
  starts_with_slash s = false → remove_leading (slashes n +:+ s) = s.
Proof.
  intros Hs. induction n as [|n IH]; [|exact IH]. simpl.
  destruct s as [|c r]; [done|]. simpl in Hs. rewrite remove_leading_cons.
  apply bool_decide_eq_false in Hs. by rewrite decide_False.
Qed.

Lemma ends_with_slash_cons c s :
  s ≠ "" → ends_with_slash (String c s) = ends_with_slash s.
Proof. by destruct s. Qed.

Lemma ends_with_slash_app a b :
  b ≠ "" → ends_with_slash (a +:+ b) = ends_with_slash b.
Proof.
  intros Hb. induction a as [|c a IH]; [done|]. cbn [String.append].
  rewrite ends_with_slash_cons; [done|]. by destruct a, b.
Qed.

Lemma remove_last_spec p :
  ends_with_slash p = true →
  p = remove_last p +:+ "/" ∧ String.length p = S (String.length (remove_last p)).
Proof.
  induction p as [|c p IH]; [done|]. destruct p as [|c' p].
  - simpl. intros Hc%bool_decide_eq_true. by subst.
  - intros [H1 H2]%IH. cbn [remove_last String.append String.length] in *. split; congruence.
Qed.

Lemma remove_last_app s : remove_last (s +:+ "/") = s.
Proof.
  induction s as [|c s IH]; [done|]. cbn [String.append remove_last].
  rewrite IH. by destruct s.
Qed.

Lemma slashes_snoc n : slashes (S n) = slashes n +:+ "/".
Proof. induction n as [|n IH]; [done|]. cbn [slashes String.append] in *. congruence. Qed.

Lemma remove_trailing_spec fuel p :
  (String.length p <= fuel)%nat →
  ∃ n, p = remove_trailing fuel p +:+ slashes n ∧
       ends_with_slash (remove_trailing fuel p) = false.
Proof.
  revert p. induction fuel as [|fuel IH]; intros p Hl.
  { destruct p; simpl in *; [by exists 0%nat|lia]. }
  simpl. destruct (ends_with_slash p) eqn:He; simpl.
  - destruct (String.eqb_spec p "") as [->|_]; [done|]. simpl.
    destruct (remove_last_spec p He) as [Hp Hlen].
    destruct (IH (remove_last p)) as (n & Hn & Hs); [lia|].
    exists (S n). split; [|done].
    rewrite slashes_snoc, <-string_app_assoc, <-Hn. done.
  - exists 0%nat. by rewrite string_app_nil_r.
Qed.

Lemma remove_trailing_slashes fuel s n :
  ends_with_slash s = false → (n <= fuel)%nat →
  remove_trailing fuel (s +:+ slashes n) = s.
Proof.
  intros Hs. revert n. induction fuel as [|fuel IH]; intros n Hn.
  { assert (n = 0%nat) as -> by lia. apply string_app_nil_r. }
  destruct n as [|n]; cbn [remove_trailing].
  { rewrite string_app_nil_r. by rewrite Hs. }
  rewrite ends_with_slash_app by done.
  assert (ends_with_slash (slashes (S n)) = true) as ->.
  { rewrite slashes_snoc. by rewrite ends_with_slash_app. }
  destruct (String.eqb_spec (s +:+ slashes (S n)) "") as [He|_]; [by destruct s|].
  simpl andb. cbv iota. rewrite slashes_snoc, <-string_app_assoc, remove_last_app.
  apply IH. lia.
Qed.

Lemma find_slash_cons c r :
  find_slash (String c r) =
  if decide (c = "/"%char) then ("", Some r)
  else let '(a, b) := find_slash r in (String c a, b).
Proof. by destruct c as [[] [] [] [] [] [] [] []]. Qed.

Lemma find_slash_none s : no_slash s = true → find_slash s = (s, None).
Proof.
  induction s as [|c s IH]; [done|]. cbn [no_slash].
  intros [Hc%bool_decide_eq_true Hs]%andb_prop. rewrite find_slash_cons.
  rewrite decide_False by done. by rewrite IH.
Qed.

Lemma find_slash_some s r :
  no_slash s = true → find_slash (s +:+ String "/" r) = (s, Some r).
Proof.
  induction s as [|c s IH]; [done|]. cbn [no_slash String.append].
  intros [Hc%bool_decide_eq_true Hs]%andb_prop. rewrite find_slash_cons.
  rewrite decide_False by done. by rewrite IH.
Qed.

Lemma find_slash_spec s :
  let '(a, b) := find_slash s in
  no_slash a = true ∧
  match b with None => a = s | Some r => s = a +:+ String "/" r end.
Proof.
  induction s as [|c s IH]; [done|]. rewrite find_slash_cons.
  destruct (decide (c = "/"%char)) as [->|Hc]; [done|].
  destruct (find_slash s) as [a b]. destruct IH as [Ha Hb]. split.
  - simpl. by rewrite bool_decide_true.
  - destruct b; simpl; by f_equal.
Qed.

Lemma concat_cons s p parts :
  String.concat "/" (s :: p :: parts) = s +:+ String "/" (String.concat "/" (p :: parts)).
Proof. done. Qed.

(** Splitting undoes joining, and joining undoes splitting. *)
Lemma split_loop_concat fuel parts acc :
  Forall (λ s, no_slash s = true) parts → last parts ≠ Some "" → parts ≠ [] →
  (String.length (String.concat "/" parts) <= fuel)%nat →
  split_loop fuel (String.concat "/" parts) acc = acc ++ parts.
Proof.
  intros Hns. revert fuel acc.
  induction Hns as [|s parts Hs Hns IH]; intros fuel acc Hl Hne Hf; [done|].
  destruct parts as [|p parts].
  - simpl in *. destruct fuel as [|fuel].
    { destruct s; simpl in *; [done|lia]. }
    simpl. destruct (String.eqb_spec s "") as [->|_]; [done|]. by rewrite find_slash_none.
  - rewrite concat_cons in *. destruct fuel as [|fuel].
    { rewrite string_length_app in Hf. simpl in Hf. lia. }
    cbn [split_loop].
    destruct (String.eqb_spec (s +:+ String "/" (String.concat "/" (p :: parts))) "")
      as [He|_]; [by destruct s|].
    rewrite find_slash_some by done. rewrite IH; [|done..|].
    + by rewrite <-app_assoc.
    + rewrite string_length_app in Hf. cbn [String.length] in Hf. lia.
Qed.

Lemma split_loop_spec fuel path acc :
  (String.length path <= fuel)%nat → path ≠ "" → ends_with_slash path = false →
  ∃ parts, split_loop fuel path acc = acc ++ parts ∧ path = String.concat "/" parts ∧
    parts ≠ [] ∧ Forall (λ s, no_slash s = true) parts ∧ last parts ≠ Some "".
Proof.
  revert path acc. induction fuel as [|fuel IH]; intros path acc Hl Hne He.
  { destruct path; simpl in *; [done|lia]. }
  cbn [split_loop]. destruct (String.eqb_spec path "") as [|_]; [done|].
  pose proof (find_slash_spec path) as Hsp.
  destruct (find_slash path) as [a [r|]]; destruct Hsp as [Ha Hp].
  - assert (r ≠ "") as Hr by (intros ->; subst; by rewrite ends_with_slash_app in He).
    rewrite Hp, ends_with_slash_app in He by done.
    rewrite ends_with_slash_cons in He by done.
    rewrite Hp, string_length_app in Hl. cbn [String.length] in Hl.
    destruct (IH r (acc ++ [a])) as (parts & Hs & Hr' & Hpn & Hf & Hlast); [lia|done..|].
    exists (a :: parts). rewrite Hs, <-app_assoc. destruct parts as [|p parts]; [done|].
    split_and!; [done|by rewrite concat_cons, <-Hr'|done|by constructor|done].
  - subst a. exists [path]. split_and!; [done..| |simpl; congruence]. by constructor.
Qed.

Lemma starts_concat parts :
  Forall (λ s, no_slash s = true) parts → head parts ≠ Some "" →
  starts_with_slash (String.concat "/" parts) = false.
Proof.
  intros Hf Hh. destruct parts as [|s parts]; [done|].
  apply Forall_cons in Hf as [Hs _]. destruct s as [|c s]; [done|].
  simpl in Hs. apply andb_prop in Hs as [Hc%bool_decide_eq_true _].
  destruct parts; simpl; by rewrite bool_decide_false.
Qed.

Lemma ends_concat parts :
  Forall (λ s, no_slash s = true) parts → last parts ≠ Some "" → 
  ends_with_slash (String.concat "/" parts) = false ∧
  (parts ≠ [] → String.concat "/" parts ≠ "").
Proof.
  intros Hf. induction Hf as [|s parts Hs Hf IH]; intros Hl; [done|].
  destruct parts as [|p parts].
  - simpl in *. split; [|intros _ ->; done].
    clear -Hs. induction s as [|c s IH]; [done|]. simpl in Hs.
    apply andb_prop in Hs as [Hc%bool_decide_eq_true Hs].
    destruct s; simpl; [by apply bool_decide_eq_false|]. by apply IH.
  - rewrite concat_cons. destruct (IH Hl) as [He Hne]. specialize (Hne ltac:(done)).
    split.
    + rewrite ends_with_slash_app by done. by rewrite ends_with_slash_cons.
    + intros _. by destruct s.
Qed.

(** C32. Splitting a path: leading and trailing separators are dropped in any
    number and the rest is split at every separator.  Joining a list of
    segments (without separators, the first and last not empty) and splitting
    gives the list back; conversely every path is its parts joined, between
    separators, and the parts are such a list or there are none. *)
Theorem splitPath_spec :
  (∀ n m parts, segments parts → parts ≠ [] →
     splitPath (slashes n +:+ String.concat "/" parts +:+ slashes m) = parts) ∧
  (∀ path, ∃ n m,
     path = slashes n +:+ String.concat "/" (splitPath path) +:+ slashes m ∧
     segments (splitPath path)).
Proof.
  split.
  - intros n m parts (Hf & Hh & Hl) Hne.
    destruct (ends_concat parts Hf Hl) as [He Hcn]. specialize (Hcn Hne).
    unfold splitPath. rewrite remove_leading_slashes.
    + rewrite remove_trailing_slashes; [|done|rewrite string_length_app; clear; induction m; simpl; lia].
      by rewrite split_loop_concat.
    + pose proof (starts_concat parts Hf Hh) as Hs.
      by destruct (String.concat "/" parts).
  - intros path. destruct (remove_leading_spec path) as (n & Hn & Hs).
    unfold splitPath. set (p := remove_leading path) in *.
    destruct (remove_trailing_spec (String.length p) p) as (m & Hm & He); [done|].
    set (q := remove_trailing (String.length p) p) in *.
    exists n, m. destruct (decide (q = "")) as [Hq|Hq].
    { rewrite Hq. simpl. split; [|by repeat split]. 
      rewrite Hq in Hm. etransitivity; [exact Hn|]. by f_equal. }
    destruct (split_loop_spec (String.length q) q []) as (parts & -> & Hc & Hpn & Hf & Hl);
      [done..|]. simpl. rewrite <-Hc, <-Hm. split; [exact Hn|]. split_and!; [done| |done].
    intros Hh. destruct parts as [|s parts]; [done|]. simpl in Hh. injection Hh as ->.
    rewrite Hm, Hc in Hs. destruct parts as [|s' parts]; [done|].
    by rewrite concat_cons in Hs.
Qed.

Lemma splitPath_spec_witness :
  segments ["job"; "20001"; "status"] ∧
  splitPath "//job/20001/status/" = ["job"; "20001"; "status"].
Proof.
  assert (segments ["job"; "20001"; "status"]) as Hs
    by (split_and!; [repeat constructor|discriminate..]).
  split; [exact Hs|].
  apply (proj1 splitPath_spec 2%nat 1%nat ["job"; "20001"; "status"] Hs). discriminate.
Defined.

(** ** Facts: payload fields *)

Lemma isfinite_integer x z : is_integer x z → isfinite x = true.
Proof. by intros [? _]. Qed.

Lemma int_min_double : is_integer (double_of_Z int_min) int_min.
Proof. by apply double_of_Z_exact. Qed.
Lemma int_max_double : is_integer (double_of_Z int_max) int_max.
Proof. by apply double_of_Z_exact. Qed.

(** C31. Integer fields of a JSON payload: [requiredInt] accepts exactly the
    number fields whose double has an integer value in the range of [int], and
    returns that value; NaN, infinities, fractions, numbers out of range, other
    kinds and absent fields are rejected, so the cast is always defined. *)
Theorem requiredInt_spec data key z :
  requiredInt data key = Some z ↔
  ∃ x, data !! key = Some (NumberValue x) ∧ is_integer x z ∧ is_int32 z.
Proof.
  unfold requiredInt, findField. split.
  - destruct (data !! key) as [[]|]; try done.
    destruct (isfinite number) eqn:Hf; [|done]. cbn [negb orb].
    destruct (eqb (trunc number) number) eqn:Ht; [|done]. cbn [negb orb].
    apply eqb_trunc in Ht; [|done].
    destruct (ltb number (double_of_Z int_min)) eqn:Hlo; [done|].
    destruct (ltb (double_of_Z int_max) number) eqn:Hhi; [done|].
    intros [= <-]. exists number. split_and!; [done..|].
    apply not_true_iff_false in Hlo, Hhi.
    rewrite (ltb_integer _ _ _ _ Ht int_min_double) in Hlo.
    rewrite (ltb_integer _ _ _ _ int_max_double Ht) in Hhi.
    unfold is_int32, int_min, int_max in *. lia.
  - intros (x & -> & Hx & Hz). pose proof (is_integer_cast _ _ Hx) as Hc.
    rewrite (isfinite_integer _ _ Hx). cbn [negb orb].
    assert (eqb (trunc x) x = true) as ->.
    { apply eqb_trunc; [exact (isfinite_integer _ _ Hx)|]. by rewrite Hc. }
    destruct (ltb x (double_of_Z int_min)) eqn:Hlo.
    { apply (ltb_integer _ _ _ _ Hx int_min_double) in Hlo.
      unfold is_int32, int_min in *. lia. }
    destruct (ltb (double_of_Z int_max) x) eqn:Hhi.
    { apply (ltb_integer _ _ _ _ int_max_double Hx) in Hhi.
      unfold is_int32, int_max in *. lia. }
    cbn [orb]. by rewrite Hc.
Qed.

Lemma string_values_spec entries acc r :
  string_values entries acc = Some r ↔ ∃ l, entries = StringValue <$> l ∧ r = acc ++ l.
Proof.
  revert acc. induction entries as [|v entries IH]; intros acc; simpl.
  - split; [intros [= <-]; exists []; by rewrite app_nil_r|].
    intros ([|??] & Hl & ->); [by rewrite app_nil_r|done].
  - split.
    + destruct v; try done. intros (l & -> & ->)%IH. exists (str :: l).
      by rewrite <-app_assoc.
    + intros ([|s l] & Hl & ->); [done|]. simplify_eq/=. apply IH. exists l.
      by rewrite <-app_assoc.
Qed.

Lemma requiredStringList_spec data key l :
  requiredStringList data key = Some l ↔ data !! key = Some (ListValue (StringValue <$> l)).
Proof.
  unfold requiredStringList, findField. split.
  - destruct (data !! key) as [[]|]; try done.
    intros (l' & -> & ->)%string_values_spec. done.
  - intros ->. apply string_values_spec. by exists l.
Qed.

Lemma requiredString_spec data key s :
  requiredString data key = Some s ↔ data !! key = Some (StringValue s).
Proof.
  unfold requiredString, findField. destruct (data !! key) as [[]|]; naive_solver.
Qed.

Lemma requiredBool_spec data key b :
  requiredBool data key = Some b ↔ data !! key = Some (BoolValue b).
Proof.
  unfold requiredBool, findField. destruct (data !! key) as [[]|]; naive_solver.
Qed.

(** A payload describing a creation command. *)
Definition describes (data : Struct) (c : CreateQuantumTaskCommand) : Prop :=
  (∃ x, data !! "shots" = Some (NumberValue x) ∧ is_integer x (shots c)) ∧
  0 <= shots c < 2147483648 ∧
  data !! "circuit" = Some (ListValue (StringValue <$> circuit_files c)) ∧
  data !! "circuit_format" = Some (StringValue (circuit_format c)) ∧
  data !! "resource_name" = Some (StringValue (resource_name c)) ∧
  data !! "no_modify" = Some (BoolValue (no_modify c)).

Lemma createTaskCommand_create request c :
  createTaskCommand request = CreateQuantumTask c ↔
  APIRequest.method request = "POST" ∧ describes (APIRequest.data request) c.
Proof.
  unfold createTaskCommand, describes; literals. set (data := APIRequest.data request).
  destruct (String.eqb_spec (APIRequest.method request) "POST") as [Hm|Hm]; simpl;
    [|naive_solver].
  rewrite <-requiredStringList_spec, <-!requiredString_spec, <-requiredBool_spec.
  split.
  - destruct (requiredInt data "shots") as [n|] eqn:Hn; [|done].
    destruct (requiredStringList data "circuit"); [|done].
    destruct (requiredString data "circuit_format"); [|done].
    destruct (requiredString data "resource_name"); [|done].
    destruct (requiredBool data "no_modify"); [|done].
    destruct (Z.ltb_spec n 0); [done|]. intros [= <-].
    apply requiredInt_spec in Hn as (x & Hx & Hi & Hr). unfold is_int32 in Hr.
    split_and!; simpl; try done; try lia. by exists x.
  - intros (_ & (x & Hx & Hi) & Hr & -> & -> & -> & ->).
    assert (requiredInt data "shots" = Some (shots c)) as ->.
    { apply requiredInt_spec. exists x. split_and!; [done..|]. unfold is_int32. lia. }
    destruct (Z.ltb_spec (shots c) 0); [lia|]. by destruct c.
Qed.

Lemma createTaskCommand_invalid request :
  (∃ c, createTaskCommand request = CreateQuantumTask c) ∨
  createTaskCommand request =
    InvalidControl (if String.eqb (APIRequest.method request) "POST"
                    then "INVALID JOB REQUEST" else "INVALID METHOD").
Proof.
  unfold createTaskCommand; literals. destruct (String.eqb _ _); simpl; [|by right].
  repeat case_match; eauto.
Qed.

Lemma route_job_not_create id what c : route_job id what ≠ CreateQuantumTask c.
Proof. unfold route_job. by repeat case_match. Qed.
Lemma route_resources_not_create path c : route_resources path ≠ CreateQuantumTask c.
Proof. unfold route_resources, unknown_request. by repeat case_match. Qed.

(** C30. Task creation over REST: a request is turned into the creation of [c]
    exactly when its path has the single segment [job], the method is POST and
    the payload describes [c]; a request to that path that creates nothing is
    answered with one of the two diagnostics. *)
Theorem rest_create_spec request :
  let path := splitPath (APIRequest.request request) in
  (∀ c, command (decode request) = CreateQuantumTask c ↔
   path = ["job"] ∧ APIRequest.method request = "POST" ∧
   describes (APIRequest.data request) c) ∧
  (path = ["job"] → (∀ c, command (decode request) ≠ CreateQuantumTask c) →
   command (decode request) =
     InvalidControl (if String.eqb (APIRequest.method request) "POST"
                     then "INVALID JOB REQUEST" else "INVALID METHOD")).
Proof.
  intros path. unfold decode. cbn [command]. fold path. unfold route, is_job_path; literals.
  destruct (decide (path = ["job"])) as [Hp|Hp].
  - rewrite bool_decide_true by done. split.
    + intros c. rewrite createTaskCommand_create. tauto.
    + intros _ Hc. destruct (createTaskCommand_invalid request) as [[c Hcr]|]; [|done].
      by destruct (Hc c).
  - rewrite bool_decide_false by done. split; [|done]. intros c. split; [|tauto].
    destruct (negb _); [done|]. intros H. exfalso. revert H.
    destruct path as [|p0 [|p1 [|p2 [|]]]]; try apply route_resources_not_create.
    destruct (String.eqb p0 "job"); [apply route_job_not_create|].
    apply route_resources_not_create.
Qed.

Lemma rest_create_spec_witness :
  let data : Struct :=
    <["shots" := NumberValue (double_of_Z 100)]> (<["circuit" := ListValue [StringValue "qasm"]]>
    (<["circuit_format" := StringValue "QASM2"]> (<["resource_name" := StringValue "Q20"]>
    {["no_modify" := BoolValue false]}))) in
  let request := APIRequest.mk "" "POST" "/job" (Some data) "reply" None in
  command (decode request) =
    CreateQuantumTask (mkCreate 100 ["qasm"] "QASM2" "Q20" false).
Proof.
  apply (proj1 (rest_create_spec _)). split; [reflexivity|]. split; [reflexivity|].
  split_and!; try reflexivity; [|discriminate].
  exists (double_of_Z 100). split; [reflexivity|]. by apply double_of_Z_exact.
Defined.

(** ** Facts: identifiers and routes *)

Lemma parseTaskId_to_string id : is_uint64 id → parseTaskId (to_string id) = Some id.
Proof.
  intros Hid. unfold parseTaskId.
  pose proof (from_chars_all_to_string uint64_t id) as H. unfold from_chars_all in H.
  specialize (H ltac:(simpl; unfold is_uint64 in Hid; lia) ltac:(done)).
  destruct (String.eqb_spec (to_string id) "") as [He|_]; [by rewrite He in H|].
  case_bool_decide as Hb; [|done]. rewrite bool_decide_false by (destruct Hb; tauto).
  done.
Qed.

Lemma digits_no_slash s :
  (∀ c, c ∈ String.list_ascii_of_string s → is_Some (digit_value c)) → no_slash s = true.
Proof.
  induction s as [|c s IH]; intros Hd; [done|]. simpl.
  rewrite bool_decide_true.
  2:{ intros ->. assert (is_Some (digit_value "/")) as [? [=]] by (apply Hd; left). }
  apply IH. intros c' Hc'. apply Hd. by right.
Qed.

Lemma to_string_segment id : is_uint64 id → no_slash (to_string id) = true ∧ to_string id ≠ "".
Proof.
  intros Hid. pose proof (from_chars_all_to_string uint64_t id) as H.
  specialize (H ltac:(simpl; unfold is_uint64 in Hid; lia) ltac:(done)).
  apply from_chars_all_unsigned in H as (Hne & Hd & _); [|done].
  split; [by apply digits_no_slash|done].
Qed.

Lemma segments_job id what :
  is_uint64 id → no_slash what = true → what ≠ "" →
  segments ["job"; to_string id; what].
Proof.
  intros Hid Hs Hne. destruct (to_string_segment id Hid) as [??].
  split_and!; [by repeat constructor|done|]. simpl. congruence.
Qed.

(** A path as a client writes it: the segments between any separators. *)
Definition path_of (n m : nat) (parts : list string) : string :=
  slashes n +:+ String.concat "/" parts +:+ slashes m.

Lemma decode_path request n m parts :
  APIRequest.request request = path_of n m parts → segments parts → parts ≠ [] →
  command (decode request) = route request parts.
Proof.
  intros Hp Hs Hne. unfold decode. cbn [command]. rewrite Hp.
  unfold path_of. by rewrite (proj1 splitPath_spec).
Qed.

(** C33. The task identifier handed out over REST works: the [uuid] text of the
    creation response, put into the status, result or cancel-reason path
    between any number of separators, is decoded to the command for the same
    task, for every [uint64] identifier. *)
Theorem rest_uuid_roundtrip id dest request n m uuid what :
  is_uint64 id →
  (APIResponse.response_body (encode (TaskCreatedResult id) dest) ≫= (.!! "uuid")) =
    Some (StringValue uuid) →
  APIRequest.method request = "GET" →
  what ∈ ["status"; "result"; "cancel_reason"] →
  APIRequest.request request = path_of n m ["job"; uuid; what] →
  command (decode request) =
    (if String.eqb what "status" then GetTaskStatus id
     else if String.eqb what "result" then GetTaskResult id else GetCancelReason id).
Proof.
  intros Hid Hu Hm Hw Hp. cbn in Hu. unfold setString in Hu.
  rewrite lookup_insert_eq in Hu. injection Hu as <-.
  assert (no_slash what = true ∧ what ≠ "") as [Hs Hne].
  { rewrite !elem_of_cons in Hw.
    destruct Hw as [->|[->|[->|Hw]]]; try done. by apply elem_of_nil in Hw. }
  rewrite (decode_path _ n m _ Hp); [|by apply segments_job|done].
  unfold route, is_job_path; literals. rewrite bool_decide_false by done. rewrite Hm. simpl.
  unfold route_job; literals. rewrite parseTaskId_to_string by done.
  rewrite !elem_of_cons in Hw.
  destruct Hw as [->|[->|[->|Hw]]]; try done. by apply elem_of_nil in Hw.
Qed.

Lemma rest_uuid_roundtrip_witness :
  command (decode (APIRequest.mk "" "GET" "/job/18446744073709551615/result" None "r" None)) =
  GetTaskResult 18446744073709551615.
Proof.
  apply (rest_uuid_roundtrip 18446744073709551615 "r" _ 1 0 "18446744073709551615" "result").
  - split; [discriminate|reflexivity].
  - reflexivity.
  - reflexivity.
  - right. left.
  - reflexivity.
Defined.

(** ** The two adapters agree *)

(** The REST form of a typed request, [None] where REST has none: a negative
    number of shots or identifier, or a resource name that is no path segment. *)
Definition rest_form (t : APIRequest.typed_request)
    : option (string * string * option Struct) :=
  let task (what : string) (r : TaskRequest) :=
    if decide (0 <= TaskRequest.uuid r) then
      Some ("GET", path_of 1 0 ["job"; to_string (TaskRequest.uuid r); what], None)
    else None in
  let resource (tail : list string) (r : ResourceRequest) :=
    let n := ResourceRequest.resource_name r in
    if decide (no_slash n = true ∧ n ≠ "") then
      Some ("GET", path_of 1 0 ("resources" :: n :: tail), None)
    else None in
  match t with
  | APIRequest.create_task r =>
      if decide (0 <= CreateTaskRequest.shots r) then
        Some ("POST", path_of 1 0 ["job"], Some
          (setNumber "shots" (double_of_Z (CreateTaskRequest.shots r))
          (<["circuit" := ListValue (StringValue <$> CreateTaskRequest.circuit r)]>
          (setString "circuit_format" (CreateTaskRequest.circuit_format r)
          (setString "resource_name" (CreateTaskRequest.resource_name r)
          (setBool "no_modify" (CreateTaskRequest.no_modify r) ∅))))))
      else None
  | APIRequest.task_status r => task "status" r
  | APIRequest.task_result r => task "result" r
  | APIRequest.cancel_reason r => task "cancel_reason" r
  | APIRequest.list_resources => Some ("GET", path_of 1 0 ["resources"], None)
  | APIRequest.resource_info r => resource [] r
  | APIRequest.pending_tasks r => resource ["num_pending_jobs"] r
  end.

(** The [int32] fields of a typed request are in range. *)
Definition typed_wf (t : APIRequest.typed_request) : Prop :=
  match t with
  | APIRequest.create_task r => is_int32 (CreateTaskRequest.shots r)
  | APIRequest.task_status r | APIRequest.task_result r | APIRequest.cancel_reason r =>
      is_int32 (TaskRequest.uuid r)
  | _ => True
  end.

Lemma decode_eq r1 r2 :
  APIRequest.response_queue r1 = APIRequest.response_queue r2 →
  command (decode r1) = command (Typed.decode r2) → decode r1 = Typed.decode r2.
Proof. unfold decode, Typed.decode. simpl. by intros -> ->. Qed.

Lemma decode_task auth queue uuid what :
  is_int32 uuid → 0 <= uuid → no_slash what = true → what ≠ "" →
  command (decode (APIRequest.mk auth "GET" (path_of 1 0 ["job"; to_string uuid; what])
                     None queue None)) = route_job (to_string uuid) what ∧
  parseTaskId (to_string uuid) = Some (to_uint64 uuid).
Proof.
  intros Hr Hu Hs Hne. assert (is_uint64 uuid) as Hid by wrap_lia.
  split.
  - erewrite decode_path; [|reflexivity|by apply segments_job|done]. done.
  - rewrite parseTaskId_to_string by done. f_equal. symmetry. by apply to_uint64_id.
Qed.

Lemma decode_resource auth queue n tail :
  no_slash n = true → n ≠ "" → Forall (λ s, no_slash s = true ∧ s ≠ "") tail →
  command (decode (APIRequest.mk auth "GET" (path_of 1 0 ("resources" :: n :: tail))
                     None queue None)) = route_resources ("resources" :: n :: tail).
Proof.
  intros Hs Hne Ht. erewrite decode_path; [|reflexivity| |done].
  - unfold route; literals. simpl. destruct tail as [|t [|]]; done.
  - split_and!; [|done|].
    + repeat constructor; [done|]. eapply Forall_impl; [done|]. by intros ? [].
    + clear Hs. rewrite last_cons_cons. revert n Hne.
      induction Ht as [|t tail [_ Ht] _ IH]; intros n Hne; simpl; [congruence|].
      apply (IH t Ht).
Qed.

(** C34. The two control protocols agree: a typed request that has a REST form is
    decoded to the same command, for the same reply queue, by the typed adapter
    and, in its REST form, by the REST adapter. *)
Theorem typed_rest_agree t method path data auth queue :
  typed_wf t → rest_form t = Some (method, path, data) →
  decode (APIRequest.mk auth method path data queue None) =
  Typed.decode (APIRequest.mk auth "" "" None queue (Some t)).
Proof.
  intros Hwf Hform. apply decode_eq; [done|].
  destruct t as [r|r|r|r| |r|r]; simpl in Hform, Hwf.
  - destruct (decide (0 <= CreateTaskRequest.shots r)) as [Hsh|]; simplify_eq.
    apply (proj1 (rest_create_spec _)). split; [reflexivity|]. split; [done|].
    unfold describes, Typed.makeCreateCommand, APIRequest.data. simpl.
    unfold is_int32 in Hwf. split_and!; try done; try lia.
    exists (double_of_Z (CreateTaskRequest.shots r)). split; [done|].
    apply double_of_Z_exact. lia.
  - case_decide as Hu; simplify_eq.
    destruct (decode_task auth queue (TaskRequest.uuid r) "status") as [-> Hp]; [done..|].
    unfold route_job; literals. by rewrite Hp.
  - case_decide as Hu; simplify_eq.
    destruct (decode_task auth queue (TaskRequest.uuid r) "result") as [-> Hp]; [done..|].
    unfold route_job; literals. by rewrite Hp.
  - case_decide as Hu; simplify_eq.
    destruct (decode_task auth queue (TaskRequest.uuid r) "cancel_reason") as [-> Hp];
      [done..|].
    unfold route_job; literals. by rewrite Hp.
  - by simplify_eq.
  - case_decide as Hn; simplify_eq. destruct Hn as [Hs Hne].
    rewrite decode_resource by done. simpl.
    by destruct (String.eqb_spec (ResourceRequest.resource_name r) "").
  - case_decide as Hn; simplify_eq. destruct Hn as [Hs Hne].
    rewrite decode_resource by (done || by repeat constructor). simpl.
    by destruct (String.eqb_spec (ResourceRequest.resource_name r) "").
Qed.

Lemma typed_rest_agree_witness :
  let t := APIRequest.task_status (TaskRequest.mk 20001) in
  rest_form t = Some ("GET", "/job/20001/status", None) ∧
  decode (APIRequest.mk "" "GET" "/job/20001/status" None "r" None) =
  Typed.decode (APIRequest.mk "" "" "" None "r" (Some t)).
Proof.
  split; [reflexivity|].
  apply (typed_rest_agree (APIRequest.task_status (TaskRequest.mk 20001))).
  - split; [discriminate|reflexivity].
  - reflexivity.
Defined.
