(* ===== verification/Control.v ===== *)
(** * Control processing (qoffload/Control.hpp, src/Control.cpp)

    A decoded command is executed on the task store, the catalog and the
    forwarder; the adapter that decoded the request encodes the result. *)

From S2P Require Import Prelude CharConv Protocol TaskStore QOffloadConfig ResourceRegistry Forward ControlProtocol.
From S2P Require RestControlProtocol.

(** ** Data *)

Record ControlExecutionOutcome := mkExecution {
  result : ControlResult;
  execution_task : option QuantumTask;
}.

Record ControlMessageOutcome := mkControlOutcome {
  outbound_task : option QuantumTask;
  response : APIResponse;
}.

(** [controlProtocolFor] *)
Definition controlProtocolFor (request : APIRequest) : ControlProtocol :=
  match APIRequest.typed_request_case request with
  | Some _ => Typed.protocol
  | None => RestControlProtocol.protocol
  end.

(** ** Commands *)

Definition JobIsWaiting : string := "JOB IS WAITING".
Definition JobNotFound : string := "JOB NOT FOUND".
Definition ResourceNotFound : string := "RESOURCE NOT FOUND".

(** The [handleCommand] overloads: each returns the result and the store. *)
Section HandleCommand.
Context (tasks : TaskStore) (resources : ResourceRegistry).

Definition handle_GetTaskStatus (id : Z) : ControlResult * TaskStore :=
  (TaskStatusResult (status id tasks), tasks).

Definition handle_GetTaskResult (id : Z) : ControlResult * TaskStore :=
  if decide (status id tasks = Waiting) then (ControlError JobIsWaiting, tasks)
  else
    match takeCompletedControlTask id tasks with
    | (None, tasks) => (ControlError JobNotFound, tasks)
    | (Some task, tasks) => (TaskResultResult task, tasks)
    end.

Definition handle_GetCancelReason (id : Z) : ControlResult * TaskStore :=
  if decide (status id tasks = Waiting) then (ControlError JobIsWaiting, tasks)
  else
    match takeCompletedControlTask id tasks with
    | (None, tasks) => (ControlError JobNotFound, tasks)
    | (Some task, tasks) => (CancelReasonResult (cancel_reason task), tasks)
    end.

Definition handle_ListResources : ControlResult * TaskStore :=
  (ResourceListResult (ResourceRegistry.resources resources), tasks).

Definition handle_GetResourceInfo (name : string) : ControlResult * TaskStore :=
  match find resources name with
  | None => (ControlError ResourceNotFound, tasks)
  | Some resource => (ResourceInfoResult resource, tasks)
  end.

Definition handle_QueryPendingTasks (name : string) : ControlResult * TaskStore :=
  match find resources name with
  | None => (ControlError ResourceNotFound, tasks)
  | Some _ => (PendingTasksResult (pendingCount tasks), tasks)
  end.

Definition handle_InvalidControl (message : string) : ControlResult * TaskStore :=
  (ControlError message, tasks).
End HandleCommand.

Definition applyCreateTaskCommand (task : QuantumTask) (command : CreateQuantumTaskCommand)
    : QuantumTask :=
  let task := QuantumTask.set_n_qbits 0 task in
  let task := QuantumTask.set_n_shots (shots command) task in
  let task := QuantumTask.set_circuit_file_type (circuit_format command) task in
  let task := QuantumTask.set_preferred_qpu (resource_name command) task in
  let task := QuantumTask.set_no_modify (no_modify command) task in
  let task := QuantumTask.set_via_hpc true task in
  foldl (λ task file, QuantumTask.add_circuit_files file task) task (circuit_files command).

Definition executeControlCommand (command : ControlCommand) (tasks : TaskStore)
    (config : Config) (resources : ResourceRegistry) (forwarder : Forward)
    : ControlExecutionOutcome * TaskStore * Forward :=
  let handled '(result, tasks) := (mkExecution result None, tasks, forwarder) in
  match command with
  | CreateQuantumTask c =>
      let task := applyCreateTaskCommand QuantumTask.default_instance c in
      let '(forwarded, tasks, forwarder) :=
        createControlTask task tasks config forwarder in
      (mkExecution (TaskCreatedResult (to_uint64 (QuantumTask.task_id forwarded)))
         (Some forwarded), tasks, forwarder)
  | GetTaskStatus id => handled (handle_GetTaskStatus tasks id)
  | GetTaskResult id => handled (handle_GetTaskResult tasks id)
  | GetCancelReason id => handled (handle_GetCancelReason tasks id)
  | ListResources => handled (handle_ListResources tasks resources)
  | GetResourceInfo name => handled (handle_GetResourceInfo tasks resources name)
  | QueryPendingTasks name => handled (handle_QueryPendingTasks tasks resources name)
  | InvalidControl message => handled (handle_InvalidControl tasks message)
  end.

Definition process (request : APIRequest) (tasks : TaskStore) (config : Config)
    (resources : ResourceRegistry) (forwarder : Forward)
    : ControlMessageOutcome * TaskStore * Forward :=
  let protocol := controlProtocolFor request in
  let decoded := decode protocol request in
  let '(outcome, tasks, forwarder) :=
    executeControlCommand (command decoded) tasks config resources forwarder in
  let response := encode protocol (result outcome) (response_queue decoded) in
  (mkControlOutcome (execution_task outcome) response, tasks, forwarder).

(** ** Facts *)

Lemma applyCreateTaskCommand_fields c :
  applyCreateTaskCommand QuantumTask.default_instance c =
  QuantumTask.mk 0 0 (shots c) (circuit_files c) (circuit_format c) "" (resource_name c)
    "" 0 0 (no_modify c) false 0 "" [] "" [] "" "" true.
Proof.
  unfold applyCreateTaskCommand, QuantumTask.default_instance. simpl.
  assert (∀ l ti nq ns cf ct rd pq sq pr ol nm tf rt st cq ai rr ui tk vh,
    foldl (λ task file, QuantumTask.add_circuit_files file task)
      (QuantumTask.mk ti nq ns cf ct rd pq sq pr ol nm tf rt st cq ai rr ui tk vh) l =
    QuantumTask.mk ti nq ns (cf ++ l) ct rd pq sq pr ol nm tf rt st cq ai rr ui tk vh)
    as Hfold.
  { induction l as [|x l IH]; intros; simpl; [by rewrite app_nil_r|].
    by rewrite IH, <-app_assoc. }
  by rewrite Hfold.
Qed.

(** The task a creation command sends to the resource manager. *)
Definition created_task (c : CreateQuantumTaskCommand) (config : Config) (id : Z)
    : QuantumTask :=
  QuantumTask.mk (to_int32 id) 0 (shots c) (circuit_files c) (circuit_format c)
    (QOffloadConfig.result (queues config)) (resource_name c) ""
    (if hpc_node (policy config) then 1 else 0) 0 (no_modify c) false 0 "" [] "" [] "" ""
    true.

Lemma createControlTask_created c tasks config f :
  createControlTask (applyCreateTaskCommand QuantumTask.default_instance c) tasks config f =
  (created_task c config (nextTaskId f).1, addControlTask (nextTaskId f).1 tasks,
   (nextTaskId f).2).
Proof.
  rewrite applyCreateTaskCommand_fields. unfold createControlTask, created_task. simpl.
  by destruct (hpc_node (policy config)).
Qed.

(** A task handed out: the store without its result. *)
Definition without_result (id : Z) (tasks : TaskStore) : TaskStore :=
  mkTaskStore (pending_ tasks) (delete id (completed_control_tasks_ tasks)).

Lemma takeCompleted_without id tasks :
  (takeCompletedControlTask id tasks).2 = without_result id tasks ∧
  (takeCompletedControlTask id tasks).1 = completed_control_tasks_ tasks !! id.
Proof.
  unfold takeCompletedControlTask, without_result.
  destruct (completed_control_tasks_ tasks !! id) eqn:Hc; simpl; [done|].
  rewrite delete_id by done. by destruct tasks.
Qed.

Lemma handle_GetTaskResult_store tasks id :
  (handle_GetTaskResult tasks id).2 =
  if decide (status id tasks = Waiting) then tasks else without_result id tasks.
Proof.
  unfold handle_GetTaskResult. case_decide; [done|].
  destruct (takeCompleted_without id tasks) as [<- _].
  by destruct (takeCompletedControlTask id tasks) as [[]].
Qed.

Lemma handle_GetCancelReason_store tasks id :
  (handle_GetCancelReason tasks id).2 =
  if decide (status id tasks = Waiting) then tasks else without_result id tasks.
Proof.
  unfold handle_GetCancelReason. case_decide; [done|].
  destruct (takeCompleted_without id tasks) as [<- _].
  by destruct (takeCompletedControlTask id tasks) as [[]].
Qed.

Lemma controlProtocolFor_queue request :
  response_queue (decode (controlProtocolFor request) request) =
  APIRequest.response_queue request.
Proof. unfold controlProtocolFor. by destruct (APIRequest.typed_request_case request). Qed.

Lemma controlProtocolFor_dest request r q :
  APIResponse.destination_queue (encode (controlProtocolFor request) r q) = q.
Proof. unfold controlProtocolFor. by destruct (APIRequest.typed_request_case request). Qed.

(** What a control request may change: creation assigns the next identifier,
    registers it as waiting and sends the described task out; fetching a result
    or a cancel reason drops the stored result of that task unless it is still
    waiting; every other command changes nothing.  Only creation sends a task,
    and the response always goes to the queue the request names. *)
Theorem process_effects request tasks config resources f :
  let '(outcome, tasks', f') := process request tasks config resources f in
  APIResponse.destination_queue (response outcome) = APIRequest.response_queue request ∧
  match command (decode (controlProtocolFor request) request) with
  | CreateQuantumTask c =>
      let id := (nextTaskId f).1 in
      outbound_task outcome = Some (created_task c config id) ∧
      tasks' = addControlTask id tasks ∧ f' = (nextTaskId f).2
  | GetTaskResult id | GetCancelReason id =>
      outbound_task outcome = None ∧ f' = f ∧
      tasks' = if decide (status id tasks = Waiting) then tasks else without_result id tasks
  | _ => outbound_task outcome = None ∧ f' = f ∧ tasks' = tasks
  end.
Proof.
  unfold process.
  pose proof (controlProtocolFor_queue request) as Hq.
  destruct (decode (controlProtocolFor request) request) as [cmd q]. simpl in Hq. subst q.
  cbn [command response_queue].
  destruct cmd as [c|id|id|id| |n|n|m]; cbn [executeControlCommand].
  - rewrite createControlTask_created. cbn. by rewrite controlProtocolFor_dest.
  - cbn. by rewrite controlProtocolFor_dest.
  - rewrite <-handle_GetTaskResult_store.
    destruct (handle_GetTaskResult tasks id). cbn. by rewrite controlProtocolFor_dest.
  - rewrite <-handle_GetCancelReason_store.
    destruct (handle_GetCancelReason tasks id). cbn. by rewrite controlProtocolFor_dest.
  - cbn. by rewrite controlProtocolFor_dest.
  - unfold handle_GetResourceInfo. destruct (find resources n); cbn;
      by rewrite controlProtocolFor_dest.
  - unfold handle_QueryPendingTasks. destruct (find resources n); cbn;
      by rewrite controlProtocolFor_dest.
  - cbn. by rewrite controlProtocolFor_dest.
Qed.

Lemma created_not_found tasks id task :
  pending_ tasks !! id = None → completed_control_tasks_ tasks !! id = Some task →
  status id tasks ≠ Waiting.
Proof.
  intros Hp Hc. unfold status. rewrite decide_False by (rewrite Hp; apply is_Some_None).
  rewrite Hc. by destruct (execution_status task).
Qed.

(** Asking for the cancel reason of a finished control task discards its
    result: the reason is always empty, as no operation ever records one, and a
    later request for the result finds no job. *)
Theorem cancel_reason_discards_result tasks id result :
  to_uint64 (QuantumResult.task_id result) = id →
  pending_ tasks !! id = Some (mkPendingTask ControlTask id id "") →
  let tasks' := (processResult result tasks).2 in
  let '(reason, tasks'') := handle_GetCancelReason tasks' id in
  status id tasks' ≠ Waiting ∧ status id tasks' ≠ NotFound ∧
  reason = CancelReasonResult "" ∧
  (handle_GetTaskResult tasks'' id).1 = ControlError "JOB NOT FOUND".
Proof.
  intros Hid Hp. unfold processResult, takePending. rewrite Hid, Hp.
  unfold completed_of_result. cbn.
  set (t := mkCompleted _ _ _ _ _ _ _).
  set (tasks' := storeCompletedControlTask t _).
  assert (pending_ tasks' !! id = None) as Hp' by (by cbn; rewrite lookup_delete_eq).
  assert (completed_control_tasks_ tasks' !! id = Some t) as Hc'
    by (by cbn; rewrite lookup_insert_eq).
  pose proof (created_not_found tasks' id t Hp' Hc') as Hs.
  unfold handle_GetCancelReason. rewrite decide_False by done.
  destruct (takeCompleted_without id tasks') as [H2 H1].
  destruct (takeCompletedControlTask id tasks') as [o tasks''].
  cbn [fst snd] in H1, H2. rewrite H1, H2, Hc'. split_and!; [done| |done|].
  - unfold status. rewrite decide_False by (rewrite Hp'; apply is_Some_None).
    rewrite Hc'. by destruct (execution_status t).
  - unfold handle_GetTaskResult. rewrite decide_False.
    + unfold takeCompletedControlTask, without_result.
      cbn [completed_control_tasks_]. by rewrite lookup_delete_eq.
    + unfold status, without_result. cbn [pending_ completed_control_tasks_].
      rewrite decide_False by (rewrite Hp'; apply is_Some_None).
      by rewrite lookup_delete_eq.
Qed.

Lemma cancel_reason_discards_result_witness :
  let tasks := addControlTask 3 empty_store in
  let result := QuantumResult.set_task_id 3 QuantumResult.default_instance in
  let tasks' := (processResult result tasks).2 in
  (handle_GetCancelReason tasks' 3).1 = CancelReasonResult "" ∧
  (handle_GetTaskResult (handle_GetCancelReason tasks' 3).2 3).1 =
    ControlError "JOB NOT FOUND".
Proof.
  destruct (cancel_reason_discards_result (addControlTask 3 empty_store) 3
    (QuantumResult.set_task_id 3 QuantumResult.default_instance)
    ltac:(reflexivity) ltac:(reflexivity)) as (_ & _ & H1 & H2).
  split; [exact H1|exact H2].
Defined.

(** ** REST jobs end to end *)

Lemma counts_struct_fmap (c : Counts) :
  RestControlProtocol.counts_struct c = (λ n, NumberValue (double_of_Z n)) <$> c.
Proof.
  unfold RestControlProtocol.counts_struct.
  apply (map_fold_weak_ind
    (λ (s : Struct) (m : Counts), s = (λ n, NumberValue (double_of_Z n)) <$> m)).
  - by rewrite fmap_empty.
  - intros k v m r _ ->. by rewrite fmap_insert.
Qed.

(** A field of the JSON body of a response. *)
Definition body_field (outcome : ControlMessageOutcome) (key : string) : option Value :=
  APIResponse.response_body (response outcome) ≫= (.!! key).

(** A REST query for the result of [uuid], between any separators. *)
Definition result_query (n m : nat) (uuid auth queue : string) : APIRequest :=
  APIRequest.mk auth "GET" (RestControlProtocol.path_of n m ["job"; uuid; "result"])
    None queue None.

Lemma decode_result_query n m id auth queue :
  is_uint64 id →
  decode RestControlProtocol.protocol (result_query n m (to_string id) auth queue) =
  mkDecoded (GetTaskResult id) queue.
Proof.
  intros Hid. unfold RestControlProtocol.protocol. cbn [decode].
  assert (command (RestControlProtocol.decode (result_query n m (to_string id) auth queue)) =
          GetTaskResult id) as <-; [|done].
  erewrite RestControlProtocol.decode_path;
    [|reflexivity|by apply RestControlProtocol.segments_job|done].
  unfold RestControlProtocol.route. simpl. unfold RestControlProtocol.route_job; RestControlProtocol.literals.
  by rewrite RestControlProtocol.parseTaskId_to_string.
Qed.

(** The answer to a result query, in each state of the store. *)
Lemma process_result_query n m id auth queue tasks config resources f :
  is_uint64 id →
  process (result_query n m (to_string id) auth queue) tasks config resources f =
  let '(r, tasks') := handle_GetTaskResult tasks id in
  (mkControlOutcome None (RestControlProtocol.encode r queue), tasks', f).
Proof.
  intros Hid. unfold process.
  change (controlProtocolFor (result_query n m (to_string id) auth queue))
    with RestControlProtocol.protocol.
  rewrite decode_result_query by done. cbn [command response_queue executeControlCommand].
  by destruct (handle_GetTaskResult tasks id).
Qed.

(** The store through the life of a control task. *)
Lemma addControlTask_waiting id tasks : status id (addControlTask id tasks) = Waiting.
Proof.
  unfold status, addControlTask, addDirectTask. cbn [pending_ forwarded_task_id].
  rewrite decide_True; [done|]. rewrite lookup_insert_eq. eauto.
Qed.

Lemma unknown_not_found id tasks :
  pending_ tasks !! id = None → completed_control_tasks_ tasks !! id = None →
  handle_GetTaskResult tasks id = (ControlError "JOB NOT FOUND", tasks).
Proof.
  intros Hp Hc. unfold handle_GetTaskResult, status.
  rewrite (decide_False (P := is_Some (pending_ tasks !! id)))
    by (rewrite Hp; apply is_Some_None).
  rewrite Hc. unfold takeCompletedControlTask. by rewrite Hc.
Qed.

Lemma stored_result_fetched id result tasks :
  pending_ tasks !! id = None → completed_control_tasks_ tasks !! id = None →
  to_uint64 (QuantumResult.task_id result) = id →
  ∃ task, handle_GetTaskResult (processResult result (addControlTask id tasks)).2 id =
    (TaskResultResult task, tasks) ∧
  result_counts task = counts <$> QuantumResult.results result.
Proof.
  intros Hp Hc Hid. exists (completed_of_result (mkPendingTask ControlTask id id "") result).
  split; [|apply list_fmap_ext; intros; apply copy_counts_id].
  unfold processResult, takePending, addControlTask, addDirectTask.
  cbn [pending_ forwarded_task_id completed_control_tasks_].
  rewrite Hid, lookup_insert_eq. cbn [kind]. rewrite delete_insert_id by done.
  unfold handle_GetTaskResult. rewrite decide_False.
  - unfold takeCompletedControlTask, storeCompletedControlTask.
    cbn [snd completed_control_tasks_ pending_ completed_of_result task_id original_task_id].
    rewrite lookup_insert_eq, delete_insert_id by done. by destruct tasks.
  - eapply created_not_found; [done|]. cbn. by rewrite lookup_insert_eq.
Qed.

(** C25. A REST job from end to end, for an identifier that survives the [int32]
    field of the messages (it is not from 2^31 to 2^64 - 2^31 - 1) and that is
    not in use in the store: the creation response carries the identifier
    and the described task goes out; while no result has arrived, asking for the
    result reports a waiting job; after the result with the task's wire
    identifier, asking returns the counts of every circuit as numbers, and the
    store is what it was before the job; asking again finds no job. *)
Theorem rest_job_end_to_end request c tasks config resources f :
  APIRequest.typed_request_case request = None →
  command (RestControlProtocol.decode request) = CreateQuantumTask c →
  ¬ (2147483648 <= (nextTaskId f).1 < 18446744071562067968) →
  pending_ tasks !! (nextTaskId f).1 = None →
  completed_control_tasks_ tasks !! (nextTaskId f).1 = None →
  let id := (nextTaskId f).1 in
  let '(created, tasks1, f1) := process request tasks config resources f in
  body_field created "uuid" = Some (StringValue (to_string id)) ∧
  outbound_task created = Some (created_task c config id) ∧
  ∀ result n m auth queue,
    QuantumResult.task_id result = to_int32 id →
    let ask ts := process (result_query n m (to_string id) auth queue)
                    ts config resources f1 in
    let tasks2 := (processResult result tasks1).2 in
    let '(early, _, _) := ask tasks1 in
    let '(answer, tasks3, _) := ask tasks2 in
    let '(late, _, _) := ask tasks3 in
    body_field early "Error" = Some (StringValue "JOB IS WAITING") ∧
    body_field answer "result" = Some (ListValue
      ((λ r, StructValue ((λ n, NumberValue (double_of_Z n)) <$> counts r))
         <$> QuantumResult.results result)) ∧
    tasks3 = tasks ∧
    body_field late "Error" = Some (StringValue "JOB NOT FOUND").
Proof.
  intros Ht Hc Hid Hp Hcm id.
  assert (is_uint64 id) as Hu by (unfold id; simpl; apply (to_uint64_range _)).
  assert (controlProtocolFor request = RestControlProtocol.protocol) as Hpr
    by (unfold controlProtocolFor; by rewrite Ht).
  unfold process at 1. rewrite Hpr. cbn [decode RestControlProtocol.protocol]. rewrite Hc.
  cbn [executeControlCommand]. rewrite createControlTask_created.
  change (nextTaskId f).1 with id in Hid, Hp, Hcm |- *.
  assert (to_uint64 (to_int32 id) = id) as Hw by (by apply int32_roundtrip).
  cbn [QuantumTask.task_id created_task]. rewrite Hw. cbv beta iota zeta.
  split; [by apply lookup_insert_eq|]. split; [done|].
  intros result n m auth queue Hr. rewrite !process_result_query by done.
  unfold handle_GetTaskResult at 1.
  rewrite decide_True by apply addControlTask_waiting.
  destruct (stored_result_fetched id result tasks Hp Hcm) as (t & -> & Ht');
    [by rewrite Hr|].
  rewrite process_result_query, unknown_not_found by done. split_and!.
  - by apply lookup_insert_eq.
  - cbn. unfold RestControlProtocol.setTaskResult, RestControlProtocol.setString.
    rewrite !lookup_insert_ne by done. rewrite lookup_insert_eq, Ht', <-list_fmap_compose.
    do 2 f_equal. apply list_fmap_ext. intros i r _. simpl. by rewrite counts_struct_fmap.
  - done.
  - by apply lookup_insert_eq.
Qed.

Lemma rest_job_end_to_end_witness :
  let data : Struct :=
    <["shots" := NumberValue (double_of_Z 100)]> (<["circuit" := ListValue [StringValue "q"]]>
    (<["circuit_format" := StringValue "QASM2"]> (<["resource_name" := StringValue "Q20"]>
    {["no_modify" := BoolValue false]}))) in
  let request := APIRequest.mk "" "POST" "job/" (Some data) "reply" None in
  let config := makeDefaultConfig (mkBuildPaths "" "" "") in
  let '(created, _, _) := process request empty_store config resources_ (new_forward 7) in
  body_field created "uuid" = Some (StringValue "7") ∧
  outbound_task created =
    Some (created_task (mkCreate 100 ["q"] "QASM2" "Q20" false) config 7).
Proof.
  pose proof (rest_job_end_to_end
    (APIRequest.mk "" "POST" "job/"
      (Some (<["shots" := NumberValue (double_of_Z 100)]>
        (<["circuit" := ListValue [StringValue "q"]]>
        (<["circuit_format" := StringValue "QASM2"]>
        (<["resource_name" := StringValue "Q20"]>
        {["no_modify" := BoolValue false]}))))) "reply" None)
    (mkCreate 100 ["q"] "QASM2" "Q20" false) empty_store
    (makeDefaultConfig (mkBuildPaths "" "" "")) resources_ (new_forward 7)
    ltac:(reflexivity) ltac:(vm_compute; reflexivity) ltac:(vm_compute; intros [H _]; by apply H)
    ltac:(reflexivity) ltac:(reflexivity)) as (H1 & H2 & _).
  split; [exact H1|exact H2].
Defined.
