(* ===== verification/RabbitMqSimpleTransport.v ===== *)
(** * RabbitMQ transport (src/transport/RabbitMqSimpleTransport.cpp)

    The transport over the SimpleAmqpClient library, which is a parameter: a
    class of channel operations on a broker world [B], each of which may throw
    (the [what()] text).  The world also carries the clock.  The destructor of
    the transport may run on another thread at any time; the schedule [others]
    says, for each read of the [stopped] flag, whether it happened before. *)

From S2P Require Import Prelude Status Message Transport.

(** ** Options *)

Record TransportOptions := mkOptions {
  host : string; port : Z; username : string; password : string; vhost : string }.

(** The backend tag. *)
Inductive RabbitMqSimple : Set := rabbitmq_simple.

Definition default_options : TransportOptions :=
  mkOptions "127.0.0.1" 5672 "guest" "guest" "/".

(** ** The client library *)

(** The readable part of an [AmqpClient::BasicMessage]; [None] is a property
    that is not set. *)
Record MessageView (V : Type) := mkView {
  body : string;
  content_type_prop : option string;
  correlation_id_prop : option string;
  reply_to_prop : option string;
  header_table : option (gmap string V);
}.
Arguments mkView {V}.
Arguments body {V}.
Arguments content_type_prop {V}.
Arguments correlation_id_prop {V}.
Arguments reply_to_prop {V}.
Arguments header_table {V}.

(** A computation on the broker that may throw. *)
Definition Exc (B A : Type) : Type := B → (string + A) * B.

#[export] Instance exc_ret {B} : MRet (Exc B) := λ A a b, (inr a, b).
#[export] Instance exc_bind {B} : MBind (Exc B) := λ A C k m b,
  match m b with (inl what, b) => (inl what, b) | (inr a, b) => k a b end.

Class AmqpClient (B : Type) := {
  Channel : Type;
  Delivery : Type;
  BasicMessage : Type;
  TableValue : Type;
  (* AmqpClient::Channel *)
  Create : string → Z → string → string → string → Exc B Channel;
  DeclareQueue : Channel → string → bool → bool → bool → bool → Exc B unit;
  BasicPublish : Channel → string → string → BasicMessage → Exc B unit;
  BasicGet : Channel → string → bool → Exc B (option Delivery);
  BasicConsume : Channel → string → string → bool → bool → bool → Z → Exc B string;
  BasicConsumeMessage : Channel → string → Z → Exc B (option Delivery);
  BasicCancel : Channel → string → Exc B unit;
  BasicAck : Channel → Delivery → Exc B unit;
  BasicReject : Channel → Delivery → bool → Exc B unit;
  Close : Channel → B → B;                  (* the last reference goes away *)
  (* AmqpClient::Envelope, BasicMessage, TableValue *)
  DeliveredMessage : Delivery → BasicMessage;
  CreateMessage : string → BasicMessage;
  ContentType : string → BasicMessage → BasicMessage;
  CorrelationId : string → BasicMessage → BasicMessage;
  ReplyTo : string → BasicMessage → BasicMessage;
  HeaderTable : gmap string TableValue → BasicMessage → BasicMessage;
  message_view : BasicMessage → MessageView TableValue;
  TableString : string → TableValue;
  GetString : TableValue → option string;   (* [None] throws *)
  (* std::chrono::steady_clock, in nanoseconds *)
  now : B → Z;
}.

(** Documented behaviour of the message class: a property that was set is read
    back, and setting one leaves the others alone. *)
Class BasicMessageLaws (B : Type) `{AmqpClient B} := {
  view_create p : message_view (CreateMessage p) = mkView p None None None None;
  view_content_type s m : message_view (ContentType s m) =
    let v := message_view m in
    mkView (body v) (Some s) (correlation_id_prop v) (reply_to_prop v) (header_table v);
  view_correlation_id s m : message_view (CorrelationId s m) =
    let v := message_view m in
    mkView (body v) (content_type_prop v) (Some s) (reply_to_prop v) (header_table v);
  view_reply_to s m : message_view (ReplyTo s m) =
    let v := message_view m in
    mkView (body v) (content_type_prop v) (correlation_id_prop v) (Some s) (header_table v);
  view_header_table t m : message_view (HeaderTable t m) =
    let v := message_view m in
    mkView (body v) (content_type_prop v) (correlation_id_prop v) (reply_to_prop v) (Some t);
  get_table_string s : GetString (TableString s) = Some s;
}.

(** Documented behaviour of waiting: a wait that ends without a message took at
    least its timeout, and the clock advances. *)
Class ConsumeClockLaws (B : Type) `{AmqpClient B} := {
  consume_waits ch tag ms b b' :
    BasicConsumeMessage ch tag ms b = (inr None, b') →
    now b + ms * 1000000 <= now b' ∧ now b < now b';
}.

Section RabbitMq.
Context {B : Type} `{AmqpClient B}.

(** ** State *)

Record State := mkState {
  opts : TransportOptions;
  stopped : bool;
  send_ch : option Channel;
}.

(** The per-message state shared by the two completion handlers. *)
Record AckState := mkAck { completed : bool; ch : Channel; delivery : Delivery }.

Record World := mkWorld {
  broker : B;
  state_ : option State;
  others : list bool;
  acks : list AckState;
}.

Definition with_broker (w : World) (b : B) : World :=
  mkWorld b (state_ w) (others w) (acks w).
Definition with_state (w : World) (st : State) : World :=
  mkWorld (broker w) (Some st) (others w) (acks w).
Definition stop (st : State) : State := mkState (opts st) true (send_ch st).

(** [state->stopped.load()], after what other threads did before it. *)
Definition load_stopped (w : World) (st : State) : bool * World * State :=
  match others w with
  | true :: rest =>
      let st := stop st in (true, mkWorld (broker w) (Some st) rest (acks w), st)
  | false :: rest =>
      (stopped st, mkWorld (broker w) (Some st) rest (acks w), st)
  | [] => (stopped st, w, st)
  end.

(** ** Messages *)

Definition toBasicMessage (e : Envelope) : BasicMessage :=
  let msg := CreateMessage (payload e) in
  let msg := if String.eqb (content_type e) "" then msg
             else ContentType (content_type e) msg in
  let msg := if String.eqb (correlation_id e) "" then msg
             else CorrelationId (correlation_id e) msg in
  let msg := match reply_to e with
             | Some a => if String.eqb (name a) "" then msg else ReplyTo (name a) msg
             | None => msg
             end in
  if decide (headers e = ∅) then msg
  else HeaderTable
         (map_fold (λ k v table, <[k := TableString v]> table) ∅ (headers e)) msg.

Definition fromBasicMessage (msg : BasicMessage) : Envelope :=
  let v := message_view msg in {|
    payload := body v;
    content_type := default "" (content_type_prop v);
    correlation_id := default "" (correlation_id_prop v);
    reply_to := mkAddress <$> reply_to_prop v;
    headers :=
      match header_table v with
      | None => ∅
      | Some table =>
          map_fold (λ k v hs,
            match GetString v with Some s => emplace k s hs | None => hs end) ∅ table
      end;
  |}.

Definition ack_fn (i : nat) (w : World) : Status * World :=
  match acks w !! i with
  | None => (Status.internal "", w)
  | Some st =>
      if completed st then (Status.internal "message already acked/nacked", w)
      else
        match BasicAck (ch st) (delivery st) (broker w) with
        | (inl what, b) => (Status.internal ("ack failed: " +:+ what), with_broker w b)
        | (inr _, b) =>
            (success, mkWorld b (state_ w) (others w)
                        (<[i := mkAck true (ch st) (delivery st)]> (acks w)))
        end
  end.

Definition nack_fn (i : nat) (requeue : bool) (w : World) : Status * World :=
  match acks w !! i with
  | None => (Status.internal "", w)
  | Some st =>
      if completed st then (Status.internal "message already acked/nacked", w)
      else
        match BasicReject (ch st) (delivery st) requeue (broker w) with
        | (inl what, b) => (Status.internal ("nack failed: " +:+ what), with_broker w b)
        | (inr _, b) =>
            (success, mkWorld b (state_ w) (others w)
                        (<[i := mkAck true (ch st) (delivery st)]> (acks w)))
        end
  end.

(** The handlers of a message are destroyed, and with them the delivery and the
    channel they share; its entry stays in the list but nothing refers to it. *)
Definition release_fn (i : nat) (w : World) : World :=
  match acks w !! i with
  | None => w
  | Some st => with_broker w (Close (ch st) (broker w))
  end.

(** In manual mode the handlers keep the channel alive; otherwise it is closed
    when the local pointer goes away. *)
Definition makeMessageFromDelivery (c : Channel) (d : Delivery) (mode : AckMode)
    (w : World) : Message World * World :=
  let msg := mkMessage (fromBasicMessage (DeliveredMessage d)) None None None in
  match mode with
  | Auto => (msg, with_broker w (Close c (broker w)))
  | Manual =>
      let i := length (acks w) in
      (Transport.setAckHandlers msg (ack_fn i) (nack_fn i) (release_fn i),
       mkWorld (broker w) (state_ w) (others w) (acks w ++ [mkAck false c d]))
  end.

(** ** Sending *)

Definition features (_ : unit) : FeatureSet := of_features [ManualAck; Requeue].

Definition openChannel (o : TransportOptions) : Exc B Channel :=
  Create (host o) (port o) (username o) (password o) (vhost o).

Definition send_failed (what : string) : Status := unavailable ("send failed: " +:+ what).

Definition publish (c : Channel) (queue : string) (bm : BasicMessage) : Exc B unit :=
  DeclareQueue c queue false false false false ≫= λ _, BasicPublish c "" queue bm.

(** The body of [send] under [send_mu], after the second check. *)
Definition send_locked (st : State) (queue : string) (bm : BasicMessage) (w : World)
    : Status * World :=
  match (match send_ch st with
         | Some c => mret c
         | None => openChannel (opts st)
         end) (broker w) with
  | (inl what, b) => (send_failed what, with_broker w b)
  | (inr c, b) =>
      let w := with_state w (mkState (opts st) (stopped st) (Some c)) in
      match publish c queue bm b with
      | (inl what, b) => (send_failed what, with_broker w b)
      | (inr _, b) => (success, with_broker w b)
      end
  end.

Definition send (_ : unit) (dest : Address) (e : Envelope) (args : SendArgs)
    (w : World) : Status * World :=
  if bool_decide (name dest = "") then
    (invalidArgument "send destination name is empty", w)
  else if confirm args then
    (unsupported "send confirmation is not supported", w)
  else
    match state_ w with
    | None => (unavailable "transport not initialized", w)
    | Some st =>
        let '(stop, w, st) := load_stopped w st in
        if stop : bool then (unavailable "transport shut down", w)
        else
          let bm := toBasicMessage e in
          let '(stop, w, st) := load_stopped w st in
          if stop : bool then (unavailable "transport shut down", w)
          else send_locked st (name dest) bm w
    end.

(** ** Receiving *)

(** [cancel_consumer]: errors of the cleanup are ignored. *)
Definition cancel_consumer (c : Channel) (tag : string) (b : B) : B :=
  (BasicCancel c tag b).2.

(** How a wait for a message ends. *)
Inductive Wait := Got (d : Delivery) | Gave (s : Status).

(** The polling loops.  [budget] is [None] when the deadline has passed and
    otherwise the timeout of the next poll in milliseconds; [sched] says for
    each later test of [stopped] whether the transport was destroyed before.
    [None]: the call has not returned when the schedule ends.  The result
    carries the flag, the rest of the schedule and the broker. *)
Fixpoint poll_loop (budget : B → option Z) (c : Channel) (tag : string)
    (sched : list bool) (stopped : bool) (b : B)
    : option ((string + Wait) * (bool * list bool * B)) :=
  if stopped then
    Some (inr (Gave (unavailable "transport shut down")),
          (stopped, sched, cancel_consumer c tag b))
  else
    match budget b with
    | None =>
        Some (inr (Gave (Status.timeout "receive timed out")),
              (stopped, sched, cancel_consumer c tag b))
    | Some wait_ms =>
        match BasicConsumeMessage c tag wait_ms b with
        | (inl what, b) => Some (inl what, (stopped, sched, b))
        | (inr (Some d), b) =>
            Some (inr (Got d), (stopped, sched, cancel_consumer c tag b))
        | (inr None, b) =>
            match sched with
            | [] => None
            | s :: sched => poll_loop budget c tag sched (stopped || s) b
            end
        end
    end.

(** [std::min(remaining, 200ms)] *)
Definition wait_ms (deadline : Z) (b : B) : Z :=
  let remaining := (deadline - now b) ÷ 1000000 in
  if remaining <=? 200 then remaining else 200.

Definition timed_budget (deadline : Z) (b : B) : option Z :=
  if deadline <=? now b then None else Some (wait_ms deadline b).
Definition untimed_budget (_ : B) : option Z := Some 200.

(** Opening the channel and declaring the queue; a channel that was opened is
    closed when a later call throws. *)
Definition open_source (o : TransportOptions) (queue : string) : Exc B Channel :=
  λ b,
    match openChannel o b with
    | (inl what, b) => (inl what, b)
    | (inr c, b) =>
        match DeclareQueue c queue false false false false b with
        | (inl what, b) => (inl what, Close c b)
        | (inr _, b) => (inr c, b)
        end
    end.

Definition receive_failed (what : string) : Result (Message World) :=
  unexpected (unavailable ("receive failed: " +:+ what)).

(** Waiting on an open channel, by the timeout of the call; the tests of
    [stopped] before the first poll included.  The deadline is a number of
    nanoseconds that has to fit the 64 bits of the clock: with a timeout of some
    292 years or more the addition overflows, which is not modelled. *)
Definition wait_delivery (c : Channel) (queue : string) (args : ReceiveArgs)
    (st : State) (w : World)
    : option ((string + Wait) * World) :=
  let auto := bool_decide (ack_mode args = Auto) in
  if bool_decide (Transport.timeout args = Some 0) then
    match BasicGet c queue auto (broker w) with
    | (inl what, b) => Some (inl what, with_broker w b)
    | (inr None, b) =>
        Some (inr (Gave (Status.timeout "no message received")), with_broker w b)
    | (inr (Some d), b) => Some (inr (Got d), with_broker w b)
    end
  else
    match BasicConsume c queue "" true auto false 1 (broker w) with
    | (inl what, b) => Some (inl what, with_broker w b)
    | (inr tag, b) =>
        let budget :=
          match Transport.timeout args with
          | None => untimed_budget
          | Some ms => timed_budget (now b + ms * 1000000)
          end in
        let '(stop, w, st) := load_stopped (with_broker w b) st in
        match poll_loop budget c tag (others w) stop b with
        | None => None
        | Some (r, (stop, sched, b)) =>
            Some (r, mkWorld b (Some (mkState (opts st) stop (send_ch st))) sched (acks w))
        end
    end.

Definition receive (_ : unit) (src : Address) (args : ReceiveArgs) (w : World)
    : option (Result (Message World) * World) :=
  if bool_decide (name src = "") then
    Some (unexpected (invalidArgument "receive source name is empty"), w)
  else
    match state_ w with
    | None => Some (unexpected (unavailable "transport not initialized"), w)
    | Some st =>
        let '(stop, w, st) := load_stopped w st in
        if stop : bool then Some (unexpected (unavailable "transport shut down"), w)
        else
          match open_source (opts st) (name src) (broker w) with
          | (inl what, b) => Some (receive_failed what, with_broker w b)
          | (inr c, b) =>
              match wait_delivery c (name src) args st (with_broker w b) with
              | None => None
              | Some (inl what, w) =>
                  Some (receive_failed what, with_broker w (Close c (broker w)))
              | Some (inr (Gave s), w) =>
                  Some (unexpected s, with_broker w (Close c (broker w)))
              | Some (inr (Got d), w) =>
                  let '(msg, w) := makeMessageFromDelivery c d (ack_mode args) w in
                  Some (value msg, w)
              end
          end
    end.

(** ** Lifecycle *)

Definition shutdown (w : World) : World :=
  match state_ w with None => w | Some st => with_state w (stop st) end.

Definition createTransport (options : TransportOptions) (sched : list bool) (b : B)
    : World :=
  mkWorld b (Some (mkState options false None)) sched [].

#[export] Instance RabbitMq_Transport : Transport unit World := {
  Transport.features := features;
  Transport.send := send;
  Transport.receive := receive;
}.

#[export] Instance RabbitMq_Backend : TransportBackend RabbitMqSimple unit World := {
  Transport.TransportOptions := TransportOptions;
  Transport.default_options := default_options;
  Surroundings := list bool * B;
  Transport.createTransport options s := (tt, createTransport options s.1 s.2);
}.

(** ** Facts *)

(** Every failure of an operation is one of the documented codes. *)
Lemma send_locked_wf st q bm w : status_wf (send_locked st q bm w).1.
Proof. unfold send_locked. repeat case_match; done. Qed.

Lemma poll_loop_gave budget c tag sched st b s r :
  poll_loop budget c tag sched st b = Some (inr (Gave s), r) →
  s = unavailable "transport shut down" ∨
  (s = Status.timeout "receive timed out" ∧ ∃ b', budget b' = None).
Proof.
  revert st b. induction sched as [|x sched IH]; intros st b; simpl.
  - repeat case_match; intros; simplify_eq; eauto.
  - repeat case_match; intros; simplify_eq; eauto.
Qed.

Lemma wait_delivery_gave c q args st w s w' :
  wait_delivery c q args st w = Some (inr (Gave s), w') →
  code s = Unavailable ∨ (code s = Timeout ∧ is_Some (Transport.timeout args)).
Proof.
  unfold wait_delivery. case_bool_decide as H0.
  - rewrite H0. repeat case_match; intros; simplify_eq; eauto.
  - destruct (BasicConsume _ _ _ _ _ _ _ _) as [[|tag] b]; [done|].
    destruct (load_stopped _ _) as [[stop w1] st1].
    destruct (poll_loop _ _ _ _ _ _) as [[r [[? ?] ?]]|] eqn:Hp; [|done].
    intros [= -> _]. apply poll_loop_gave in Hp as [->|[-> [b' Hb']]]; [by left|].
    destruct (Transport.timeout args); [by right; eauto|done].
Qed.

#[export] Instance RabbitMq_Contract : TransportContract unit World.
Proof.
  split.
  - intros [] dest e args w. simpl. unfold send.
    repeat (case_match; try done). apply send_locked_wf.
  - intros [] dest e args w Hn. simpl. unfold send. by rewrite bool_decide_true.
  - intros [] dest e args w Hn Hc Hf. simpl. unfold send.
    rewrite bool_decide_false by done. by rewrite Hc.
  - intros [] src args w Hn. simpl. unfold receive. rewrite bool_decide_true by done.
    eauto.
  - intros [] src args w s w'. simpl. unfold receive.
    destruct (bool_decide _); [by intros [= <- _]|].
    destruct (state_ w) as [st|]; [|by intros [= <- _]].
    destruct (load_stopped w st) as [[[] w1] st1]; [by intros [= <- _]|].
    destruct (open_source _ _ _) as [[what|c] b]; [by intros [= <- _]|].
    destruct (wait_delivery _ _ _ _ _) as [[[what|[d|s']] w2]|] eqn:Hw; [| | |done].
    + by intros [= <- _].
    + destruct (makeMessageFromDelivery _ _ _ _). done.
    + intros [= <- _]. by apply wait_delivery_gave in Hw as [->|[-> _]].
Qed.

(** *** Messages *)

(** An empty reply address is not transmitted. *)
Definition normalise (e : Envelope) : Envelope :=
  mkEnvelope (payload e) (content_type e) (headers e) (correlation_id e)
    (match reply_to e with
     | Some a => if String.eqb (name a) "" then None else Some a
     | None => None
     end).

Lemma header_table_fmap (m : Headers) :
  map_fold (λ k v table, <[k := TableString v]> table) ∅ m = TableString <$> m.
Proof.
  apply (map_fold_weak_ind (λ r m, r = TableString <$> m)).
  - by rewrite fmap_empty.
  - intros k v m' r _ ->. by rewrite fmap_insert.
Qed.

Lemma string_headers (L : BasicMessageLaws B) (m : Headers) :
  map_fold (λ k v hs,
    match GetString v with Some s => emplace k s hs | None => hs end) ∅
    (TableString <$> m) = m.
Proof.
  rewrite map_fold_fmap. apply (map_fold_weak_ind (λ r m, r = m)); [done|].
  intros k v m' r Hk ->. unfold compose. rewrite get_table_string. unfold emplace. by rewrite Hk.
Qed.

Lemma envelope_view (L : BasicMessageLaws B) e :
  message_view (toBasicMessage e) =
  mkView (payload e)
    (if String.eqb (content_type e) "" then None else Some (content_type e))
    (if String.eqb (correlation_id e) "" then None else Some (correlation_id e))
    (name <$> reply_to (normalise e))
    (if decide (headers e = ∅) then None else Some (TableString <$> headers e)).
Proof.
  unfold toBasicMessage, normalise. rewrite header_table_fmap. cbn [reply_to].
  destruct (decide (headers e = ∅)); rewrite ?view_header_table;
    (destruct (reply_to e) as [a|]; [destruct (String.eqb (name a) "")|]);
    rewrite ?view_reply_to;
    destruct (String.eqb (correlation_id e) ""); rewrite ?view_correlation_id;
    destruct (String.eqb (content_type e) ""); rewrite ?view_content_type;
    by rewrite view_create.
Qed.

(** C36. Envelopes survive the broker's message format: converting an envelope to
    a message and back gives the same payload, content type, headers and
    correlation identifier, and the same reply address unless its name is
    empty, in which case there is none. *)
Theorem envelope_roundtrip (L : BasicMessageLaws B) e :
  fromBasicMessage (toBasicMessage e) = normalise e.
Proof.
  unfold fromBasicMessage. rewrite (envelope_view L).
  unfold normalise.
  cbn [body content_type_prop correlation_id_prop reply_to_prop header_table reply_to].
  destruct e as [p ct hs ci rt]. cbn [payload content_type headers correlation_id].
  f_equal.
  - by destruct (String.eqb_spec ct "").
  - destruct (decide (hs = ∅)) as [->|]; [done|]. apply (string_headers L).
  - by destruct (String.eqb_spec ci "").
  - destruct rt as [[n]|]; [|done]. simpl. by destruct (String.eqb n "").
Qed.

(** *** Completion handlers *)

Inductive Completion := DoAck | DoNack (requeue : bool).

Definition complete (i : nat) (op : Completion) (w : World) : Status * World :=
  match op with DoAck => ack_fn i w | DoNack requeue => nack_fn i requeue w end.

Fixpoint completes (i : nat) (ops : list Completion) (w : World) : list Status * World :=
  match ops with
  | [] => ([], w)
  | op :: ops =>
      let '(s, w) := complete i op w in
      let '(ss, w) := completes i ops w in
      (s :: ss, w)
  end.

Definition already : Status := Status.internal "message already acked/nacked".

(** A completed message. *)
Definition finished (i : nat) (w : World) : Prop :=
  ∃ st, acks w !! i = Some st ∧ completed st = true.

Lemma complete_done i op w : finished i w → complete i op w = (already, w).
Proof.
  intros (st & Hi & Hc). destruct op; simpl; unfold ack_fn, nack_fn; by rewrite Hi, Hc.
Qed.

Lemma mark_finished i st w b :
  acks w !! i = Some st →
  finished i (mkWorld b (state_ w) (others w)
                (<[i := mkAck true (ch st) (delivery st)]> (acks w))).
Proof.
  intros Hi. exists (mkAck true (ch st) (delivery st)). split; [|done].
  apply list_lookup_insert_eq. by eapply lookup_lt_Some.
Qed.

Lemma complete_success i op w w' : complete i op w = (success, w') → finished i w'.
Proof.
  destruct op; simpl; unfold ack_fn, nack_fn;
    destruct (acks w !! i) as [st|] eqn:Hi; try (by intros [=]);
    destruct (completed st); try (by intros [=]).
  - destruct (BasicAck _ _ _) as [[] b]; intros [= <-]. by apply mark_finished.
  - destruct (BasicReject _ _ _ _) as [[] b]; intros [= <-]. by apply mark_finished.
Qed.

Lemma completes_done i ops w :
  finished i w → completes i ops w = (replicate (length ops) already, w).
Proof.
  intros Hd. induction ops as [|op ops IH]; [done|]. simpl.
  rewrite complete_done by done. by rewrite IH.
Qed.

Lemma completes_app i ops1 ops2 w :
  completes i (ops1 ++ ops2) w =
  let '(s1, w1) := completes i ops1 w in
  let '(s2, w2) := completes i ops2 w1 in (s1 ++ s2, w2).
Proof.
  revert w. induction ops1 as [|op ops1 IH]; intros w; simpl.
  - by destruct (completes i ops2 w).
  - destruct (complete i op w) as [s w1]. rewrite IH.
    destruct (completes i ops1 w1) as [s1 w2]. by destruct (completes i ops2 w2).
Qed.

(** *** Waiting *)

Lemma timed_budget_bounds deadline b m :
  timed_budget deadline b = Some m → 0 <= m <= 200 ∧ now b < deadline.
Proof.
  unfold timed_budget, wait_ms. destruct (Z.leb_spec deadline (now b)); [done|].
  intros [= <-]. assert (0 <= (deadline - now b) ÷ 1000000) by (apply Z.quot_pos; lia).
  case_match; lia.
Qed.

Lemma poll_loop_timed (L : ConsumeClockLaws B) deadline c tag sched st b :
  (Z.to_nat (deadline - now b) <= length sched)%nat →
  is_Some (poll_loop (timed_budget deadline) c tag sched st b).
Proof.
  revert st b. induction sched as [|s sched IH]; intros st b Hl; simpl in *.
  - destruct st; [eauto|]. unfold timed_budget at 1.
    destruct (Z.leb_spec deadline (now b)); [eauto|lia].
  - destruct st; [eauto|]. destruct (timed_budget deadline b) as [m|] eqn:Hb; [|eauto].
    apply timed_budget_bounds in Hb.
    destruct (BasicConsumeMessage c tag m b) as [[what|[d|]] b'] eqn:Hc; [eauto..|].
    apply consume_waits in Hc. apply IH. lia.
Qed.

Lemma poll_loop_stop budget c tag sched st b :
  st = true ∨ true ∈ sched → is_Some (poll_loop budget c tag sched st b).
Proof.
  revert st b. induction sched as [|s sched IH]; intros st b Hs; simpl.
  - destruct Hs as [->|Hs]; [eauto|]. by apply elem_of_nil in Hs.
  - destruct st; [eauto|]. destruct (budget b) as [m|]; [|eauto].
    destruct (BasicConsumeMessage c tag m b) as [[what|[d|]] b']; [eauto..|].
    apply IH. destruct Hs as [|Hs]; [done|]. apply elem_of_cons in Hs as [<-|Hs]; auto.
Qed.

(** The schedule after one test of the flag. *)
Lemma load_stopped_others w st stop w' st' :
  load_stopped w st = (stop, w', st') →
  broker w' = broker w ∧ (length (others w) <= S (length (others w')))%nat ∧
  (true ∈ others w → stop = true ∨ true ∈ others w').
Proof.
  unfold load_stopped. destruct (others w) as [|[] rest] eqn:Ho;
    intros [= <- <- <-]; simpl; rewrite ?Ho; split_and!; simpl; auto; try lia.
  intros Hin. apply elem_of_cons in Hin as [|]; [done|auto].
Qed.

(** Enough of a schedule for the call to return: a poll needs no waiting, a
    timeout of [ms] milliseconds ends after at most one poll per nanosecond,
    and any receive ends once the transport is shut down. *)
Definition enough (args : ReceiveArgs) (sched : list bool) : Prop :=
  Transport.timeout args = Some 0 ∨
  (∃ ms, Transport.timeout args = Some ms ∧
         (S (S (Z.to_nat (ms * 1000000))) <= length sched)%nat) ∨
  true ∈ sched.

Lemma wait_delivery_returns (L : ConsumeClockLaws B) c q args st w :
  Transport.timeout args = Some 0 ∨
  (∃ ms, Transport.timeout args = Some ms ∧
         (S (Z.to_nat (ms * 1000000)) <= length (others w))%nat) ∨
  true ∈ others w →
  is_Some (wait_delivery c q args st w).
Proof.
  intros Hen. unfold wait_delivery. case_bool_decide as H0.
  { destruct (BasicGet _ _ _ _) as [[|[]] ?]; eauto. }
  destruct (BasicConsume _ _ _ _ _ _ _ _) as [[what|tag] b]; [eauto|].
  destruct (load_stopped (with_broker w b) st) as [[stop w1] st1] eqn:Hl.
  apply load_stopped_others in Hl as (Hb & Hlen & Htrue). simpl in Hb, Hlen, Htrue.
  assert (is_Some (poll_loop (match Transport.timeout args with
    | None => untimed_budget | Some ms => timed_budget (now b + ms * 1000000) end)
    c tag (others w1) stop b)) as [[r [[s1 s2] b2]] Hr].
  { destruct Hen as [|[(ms & Hms & Hle)|Hin]]; [done| |].
    - rewrite Hms. apply poll_loop_timed; [done|]. lia.
    - apply poll_loop_stop. auto. }
  rewrite Hr. eauto.
Qed.

(** C28. [receive] returns: with a zero timeout always, with a timeout of [ms]
    within one poll per nanosecond, and in any case once the transport is shut
    down by another thread; each poll waits between 0 and 200 ms, so a shut
    down is noticed within that time. *)
Theorem receive_returns (L : ConsumeClockLaws B) src args w :
  enough args (others w) →
  is_Some (receive tt src args w) ∧
  ∀ deadline b m, timed_budget deadline b = Some m ∨ untimed_budget b = Some m →
    0 <= m <= 200.
Proof.
  intros Hen. split.
  - unfold receive. case_bool_decide; [eauto|]. destruct (state_ w) as [st|]; [|eauto].
    destruct (load_stopped w st) as [[stop w1] st1] eqn:Hl.
    apply load_stopped_others in Hl as (_ & Hlen & Htrue). destruct stop; [eauto|].
    destruct (open_source _ _ _) as [[what|c] b]; [eauto|].
    destruct (wait_delivery_returns L c (name src) args st1 (with_broker w1 b))
      as [[[what|[d|s]] w2] ->]; simpl; [|eauto| |eauto].
    + destruct Hen as [|[(ms & Hms & Hle)|Hin]]; [auto| |].
      * right. left. exists ms. split; [done|]. lia.
      * right. right. by destruct (Htrue Hin).
    + destruct (makeMessageFromDelivery _ _ _ _). eauto.
  - intros deadline b m [Hm|[= <-]]; [|lia]. apply timed_budget_bounds in Hm. lia.
Qed.

(** Failures of the client library never escape: whatever the library does,
    a failed [send] reports an invalid argument, an unsupported confirmation or
    an unavailable transport; a failed [receive] an invalid argument, an
    unavailable transport or, only when a timeout was given, a timeout. *)
Theorem failure_codes :
  (∀ dest e args w, code (send tt dest e args w).1 ∈
     [Ok; InvalidArgument; Unsupported; Unavailable]) ∧
  (∀ src args w s w', receive tt src args w = Some (inl s, w') →
     code s = InvalidArgument ∨ code s = Unavailable ∨
     (code s = Timeout ∧ is_Some (Transport.timeout args))).
Proof.
  split.
  - intros dest e args w. unfold send, send_locked.
    repeat case_match; simpl; rewrite !elem_of_cons; auto.
  - intros src args w s w'. unfold receive.
    destruct (bool_decide _); [intros [= <- _]; auto|].
    destruct (state_ w) as [st|]; [|intros [= <- _]; auto].
    destruct (load_stopped w st) as [[[] w1] st1]; [intros [= <- _]; auto|].
    destruct (open_source _ _ _) as [[what|c] b]; [intros [= <- _]; auto|].
    destruct (wait_delivery _ _ _ _ _) as [[[what|[d|s']] w2]|] eqn:Hw; [| | |done].
    + intros [= <- _]; auto.
    + by destruct (makeMessageFromDelivery _ _ _ _).
    + intros [= -> _]. apply wait_delivery_gave in Hw. tauto.
Qed.

(** Acknowledgement: a message received in automatic mode supports neither
    ack nor nack; one received in manual mode is completed at most once: of
    any sequence of ack and nack calls, the first that succeeds is the last
    to touch the broker, and all later ones report an internal error. *)
Theorem completed_at_most_once src args w msg w1 :
  receive tt src args w = Some (inr msg, w1) →
  match ack_mode args with
  | Auto => ∀ v requeue, code (ack msg v).1 = Unsupported ∧
                         code (nack msg requeue v).1 = Unsupported
  | Manual =>
      let i := pred (length (acks w1)) in
      ¬ finished i w1 ∧
      (∀ v, ack msg v = complete i DoAck v) ∧
      (∀ requeue v, nack msg requeue v = complete i (DoNack requeue) v) ∧
      ∀ before op after,
        let '(ss, w2) := completes i before w1 in
        let '(s, w3) := complete i op w2 in
        s = success →
        completes i (before ++ op :: after) w1 =
          (ss ++ success :: replicate (length after) already, w3)
  end.
Proof.
  unfold receive. case_bool_decide; [done|]. destruct (state_ w) as [st|]; [|done].
  destruct (load_stopped w st) as [[[] w2] st1]; [done|].
  destruct (open_source _ _ _) as [[what|c] b]; [done|].
  destruct (wait_delivery _ _ _ _ _) as [[[what|[d|s]] w3]|]; try done.
  unfold makeMessageFromDelivery. destruct (ack_mode args); intros [= <- <-]; [done|].
  assert (pred (length (acks w3 ++ [mkAck false c d])) = length (acks w3)) as Hlen
    by (rewrite length_app; simpl; lia).
  cbn [acks]. rewrite Hlen. split_and!; [|done|done|].
  - intros (a & Ha & Hc). simpl in Ha. rewrite lookup_app_r, Nat.sub_diag in Ha by lia.
    by injection Ha as <-.
  - intros before op after.
    destruct (completes _ before _) as [ss w4] eqn:Hb.
    destruct (complete _ op w4) as [s w5] eqn:Hop. intros ->.
    rewrite completes_app, Hb. simpl. rewrite Hop.
    apply complete_success in Hop. by rewrite completes_done.
Qed.
End RabbitMq.

(** ** A concrete client

    Queues in memory, a clock that a wait advances by its timeout and one
    nanosecond, no failures: the laws hold of it. *)

Module Local.
Record Broker := mkBroker { clock : Z; boxes : gmap string (list (MessageView string)) }.

Definition pop (queue : string) (b : Broker) : option (MessageView string) * Broker :=
  match boxes b !! queue with
  | Some (m :: q) => (Some m, mkBroker (clock b) (<[queue := q]> (boxes b)))
  | _ => (None, b)
  end.

#[export] Instance client : AmqpClient Broker := {
  Channel := unit;
  Delivery := MessageView string;
  BasicMessage := MessageView string;
  TableValue := string;
  Create _ _ _ _ _ b := (inr tt, b);
  DeclareQueue _ _ _ _ _ _ b := (inr tt, b);
  BasicPublish _ _ queue m b :=
    (inr tt, mkBroker (clock b)
               (<[queue := default [] (boxes b !! queue) ++ [m]]> (boxes b)));
  BasicGet _ queue _ b := let '(m, b) := pop queue b in (inr m, b);
  BasicConsume _ queue _ _ _ _ _ b := (inr queue, b);
  BasicConsumeMessage _ queue ms b :=
    match pop queue b with
    | (Some m, b) => (inr (Some m), b)
    | (None, b) => (inr None, mkBroker (clock b + Z.max 0 ms * 1000000 + 1) (boxes b))
    end;
  BasicCancel _ _ b := (inr tt, b);
  BasicAck _ _ b := (inr tt, b);
  BasicReject _ _ _ b := (inr tt, b);
  Close _ b := b;
  DeliveredMessage m := m;
  CreateMessage p := mkView p None None None None;
  ContentType s v :=
    mkView (body v) (Some s) (correlation_id_prop v) (reply_to_prop v) (header_table v);
  CorrelationId s v :=
    mkView (body v) (content_type_prop v) (Some s) (reply_to_prop v) (header_table v);
  ReplyTo s v :=
    mkView (body v) (content_type_prop v) (correlation_id_prop v) (Some s) (header_table v);
  HeaderTable t v :=
    mkView (body v) (content_type_prop v) (correlation_id_prop v) (reply_to_prop v) (Some t);
  message_view v := v;
  TableString s := s;
  GetString := Some;
  now := clock;
}.

#[export] Instance client_messages : BasicMessageLaws Broker.
Proof. by split. Qed.

#[export] Instance client_clock : ConsumeClockLaws Broker.
Proof.
  split. intros c tag ms b b'. simpl.
  destruct (pop tag b) as [[m|] b1] eqn:Hp; [done|]. intros [= <-]. simpl.
  assert (clock b1 = clock b) as ->; [|lia].
  revert Hp. unfold pop. destruct (boxes b !! tag) as [[|]|]; by intros [= <-].
Qed.

Definition fresh (sched : list bool) : @World Broker client :=
  createTransport default_options sched (mkBroker 0 ∅).
End Local.
Import (hints) Local.

Lemma envelope_roundtrip_witness :
  let e := mkEnvelope "body" "text" {["k" := "v"]} "id" (Some (mkAddress "")) in
  fromBasicMessage (B := Local.Broker) (toBasicMessage e) = normalise e ∧
  reply_to (normalise e) = None ∧ headers (normalise e) = {["k" := "v"]}.
Proof.
  split; [|split; reflexivity].
  apply (envelope_roundtrip (B := Local.Broker) Local.client_messages
    (mkEnvelope "body" "text" {["k" := "v"]} "id" (Some (mkAddress "")))).
Defined.

Lemma receive_returns_witness :
  is_Some (receive tt (mkAddress "q") (mkReceiveArgs None Auto)
             (Local.fresh [false; false; false; true])).
Proof.
  apply (receive_returns Local.client_clock (mkAddress "q") (mkReceiveArgs None Auto)).
  right. right. do 3 right. left.
Defined.

(** A message received in manual mode from a queue of the concrete client. *)
Definition stocked : World :=
  with_broker (Local.fresh [])
    (Local.mkBroker 0 {["q" := [mkView "x" None None None None]]}).

Lemma completed_at_most_once_witness :
  ∃ msg w, receive tt (mkAddress "q") (mkReceiveArgs (Some 0) Manual) stocked =
             Some (inr msg, w) ∧
    (complete 0 DoAck w).1 = success ∧
    (completes 0 [DoAck; DoNack true; DoAck] w).1 = [success; already; already].
Proof.
  eexists _, _. split; [reflexivity|]. split; [reflexivity|].
  pose proof (completed_at_most_once (mkAddress "q") (mkReceiveArgs (Some 0) Manual)
    stocked _ _ eq_refl) as (_ & _ & _ & Hops).
  specialize (Hops [] DoAck [DoNack true; DoAck]).
  exact (f_equal fst (Hops eq_refl)).
Defined.

Lemma failure_codes_witness :
  ∃ s w, receive tt (mkAddress "q") (mkReceiveArgs (Some 0) Auto) (Local.fresh []) =
           Some (inl s, w) ∧
    code s = Timeout ∧
    (code s = InvalidArgument ∨ code s = Unavailable ∨
     (code s = Timeout ∧ is_Some (Some 0))).
Proof.
  eexists _, _. split; [reflexivity|]. split; [reflexivity|].
  apply (proj2 failure_codes (mkAddress "q") (mkReceiveArgs (Some 0) Auto) (Local.fresh [])
           _ _ eq_refl).
Defined.
