(* ===== verification/RabbitMqThreads.v ===== *)
(** * Threads over the RabbitMQ transport
    (src/transport/RabbitMqSimpleTransport.cpp, concurrency)

    Any number of threads call [send] of one transport, whose publishing channel
    is shared under [send_mu], and the completion handlers of one message, whose
    [AckState] has its own mutex [mu].  Every call of the client library inside
    a critical section is a step of its own.  The destructor sets [stopped]
    without a mutex.  What [send] does before it takes the mutex touches nothing
    shared but that flag. *)

From S2P Require Import Prelude Mutex Status Message Transport RabbitMqSimpleTransport.

Section Threads.
Context {B : Type} `{AmqpClient B}.

(** ** The critical section of [send] *)

(** The published message and its queue; where the section is. *)
Record SendCall := mkSend { queue : string; message : BasicMessage }.

Inductive SendLoc :=
  | Locked (call : SendCall)                   (* before the second check *)
  | NeedChannel (call : SendCall)
  | Declaring (c : Channel) (call : SendCall)
  | Publishing (c : Channel) (call : SendCall).

Definition shut_down : Status := unavailable "transport shut down".

(** One action on the shared channel and the broker. *)
Definition send_exec (o : TransportOptions) (stopped : bool) (l : SendLoc)
    (s : option Channel * B) : (SendLoc + Status) * (option Channel * B) :=
  let '(send_ch, b) := s in
  match l with
  | Locked call => if stopped then (inr shut_down, s) else (inl (NeedChannel call), s)
  | NeedChannel call =>
      match send_ch with
      | Some c => (inl (Declaring c call), s)
      | None =>
          match openChannel o b with
          | (inl what, b) => (inr (send_failed what), (None, b))
          | (inr c, b) => (inl (Declaring c call), (Some c, b))
          end
      end
  | Declaring c call =>
      match DeclareQueue c (queue call) false false false false b with
      | (inl what, b) => (inr (send_failed what), (send_ch, b))
      | (inr _, b) => (inl (Publishing c call), (send_ch, b))
      end
  | Publishing c call =>
      match BasicPublish c "" (queue call) (message call) b with
      | (inl what, b) => (inr (send_failed what), (send_ch, b))
      | (inr _, b) => (inr success, (send_ch, b))
      end
  end.

Notation send_step o := (step Locked (send_exec o)).

(** The whole section as [RabbitMqSimpleTransport] has it. *)
Definition send_whole (o : TransportOptions) (call : SendCall) (s : option Channel * B)
    : Status * (option Channel * B) :=
  let w := mkWorld s.2 (Some (mkState o false s.1)) [] [] in
  let '(st, w) := send_locked (mkState o false s.1) (queue call) (message call) w in
  (st, (state_ w ≫= send_ch, broker w)).

(** What a section has done when it is at a location. *)
Definition send_at (o : TransportOptions) (l : SendLoc) (s s' : option Channel * B) : Prop :=
  match l with
  | Locked _ | NeedChannel _ => s' = s
  | Declaring c _ =>
      (match s.1 with Some c => mret c | None => openChannel o end) s.2 = (inr c, s'.2) ∧
      s'.1 = Some c
  | Publishing c call =>
      ∃ b, (match s.1 with Some c => mret c | None => openChannel o end) s.2 = (inr c, b) ∧
        s'.1 = Some c ∧ DeclareQueue c (queue call) false false false false b = (inr tt, s'.2)
  end.

Definition call_of (l : SendLoc) : SendCall :=
  match l with
  | Locked call | NeedChannel call | Declaring _ call | Publishing _ call => call
  end.

Lemma send_reaches o f call s l s' :
  reaches Locked (send_exec o) f call s l s' → call_of l = call ∧ send_at o l s s'.
Proof.
  induction 1 as [|l [ch b] f' l' [ch' b'] _ [Hcall IH] _ Hx]; [done|].
  destruct l as [cl|cl|c cl|c cl]; simpl in *.
  - destruct f'; [done|]. by simplify_eq/=.
  - subst s. destruct ch as [c|].
    + by injection Hx as <- <- <-.
    + destruct (openChannel o b) as [[what|c] b1] eqn:Ho; [done|].
      by injection Hx as <- <- <-.
  - destruct IH as [IH1 IH2].
    destruct (DeclareQueue c (queue cl) false false false false b) as [[what|[]] b1] eqn:Hd; [done|].
    injection Hx as <- <- <-. split; [done|]. by exists b.
  - by destruct (BasicPublish _ _ _ _ _) as [[what|] ?].
Qed.

Lemma send_finishes o f call s r s' :
  finishes Locked (send_exec o) f call s r s' →
  (f = true ∧ r = shut_down ∧ s' = s) ∨ send_whole o call s = (r, s').
Proof.
  intros (l & [ch b] & f' & Hl & Hf & Hx). apply send_reaches in Hl as [<- Hat].
  destruct s as [ch0 b0]. unfold send_whole, send_locked, publish, mbind, exc_bind.
  destruct l as [cl|cl|c cl|c cl]; simpl in *.
  - destruct f'; [|done]. injection Hx as <- <-. left. destruct f; [done|by specialize (Hf eq_refl)].
  - right. injection Hat as -> ->. destruct ch0 as [c|]; [done|].
    destruct (openChannel o b0) as [[what|c] b1]; [|done]. by injection Hx as <- <-.
  - right. destruct Hat as [-> ->]. simpl.
    destruct (DeclareQueue c (queue cl) false false false false b) as [[what|[]] b1]; [|done].
    by injection Hx as <- <-.
  - right. destruct Hat as (b1 & -> & -> & ->). simpl.
    by destruct (BasicPublish _ _ _ _ _) as [[what|[]] b2]; injection Hx as <- <-.
Qed.

(** The completed sends, one after the other: refused once the transport was
    shut down, or as the whole section. *)
Inductive sends (o : TransportOptions) (f : bool) (s : option Channel * B)
    : list (SendCall * Status) → option Channel * B → Prop :=
  | sends_nil : sends o f s [] s
  | sends_refused done s1 call :
      sends o f s done s1 → f = true → sends o f s (done ++ [(call, shut_down)]) s1
  | sends_whole done s1 call r s2 :
      sends o f s done s1 → send_whole o call s1 = (r, s2) →
      sends o f s (done ++ [(call, r)]) s2.

(** C21. Sends are linearizable: in any interleaving of threads sending over one
    transport, at any moment at which no thread is in the critical section the
    channel and the broker are as if the completed sends had been made one
    after the other, each returning what it returned, in the order in which
    they left the section; as long as the transport is not shut down none is
    refused. *)
Theorem sends_linearizable o b tr s :
  run (send_step o) (mkSys (None, b) None false) tr s → owner s = None →
  sends o (flag s) (None, b) (released tr) (shared s).
Proof.
  intros Hr Hown. apply linearizable in Hr as (s1 & Hs & Ho). rewrite Hown in Ho. subst s1.
  induction Hs as [|calls s1 c r s2 _ IH Hfin]; [constructor|].
  apply send_finishes in Hfin as [(Hf & -> & ->)|Hw].
  - by apply sends_refused.
  - by eapply sends_whole.
Qed.

(** ** One channel, and shutdown *)

Notation SendLabel := (@Label SendCall Status SendLoc).
Notation SendSys := (@Sys (option Channel * B) SendCall SendLoc).

(** The locations at which the section acted. *)
Definition actions : list SendLabel → list SendLoc :=
  omap (λ l, match l with LExec _ l | LRelease _ _ l _ => Some l | _ => None end).
(** The channel an action calls. *)
Definition used (l : SendLoc) : option Channel :=
  match l with Declaring c _ | Publishing c _ => Some c | _ => None end.
Definition publication (l : SendLoc) : bool :=
  match l with Publishing _ _ => true | _ => false end.
Definition publications (tr : list SendLabel) : nat := length (List.filter publication (actions tr)).

(** The section under way, if any, uses the shared channel. *)
Definition consistent (s : SendSys) : Prop :=
  match owner s with
  | Some (_, _, l) => used l = None ∨ used l = (shared s).1
  | None => True
  end.

Lemma consistent_step o s l s' :
  send_step o s l s' → consistent s →
  consistent s' ∧
  (∀ c, (shared s).1 = Some c → (shared s').1 = Some c) ∧
  (∀ loc c, loc ∈ actions [l] → used loc = Some c → (shared s).1 = Some c).
Proof.
  unfold consistent. destruct 1 as [s f t c|[ch b] f t c l l' [ch' b'] Hx
    |[ch b] f t c l r [ch' b'] Hx|s o' f]; simpl; intros Hc.
  - split_and!; [by left|done|]. intros loc c' Hin. by apply elem_of_nil in Hin.
  - assert (∀ loc c, loc ∈ [l] → used loc = Some c → ch = Some c) as Huse.
    { intros loc c' ->%list_elem_of_singleton Hu. destruct Hc; congruence. }
    split_and!; [| |exact Huse]; destruct l as [cl|cl|c1 cl|c1 cl]; simpl in *.
    all: try (destruct f; [done|]; injection Hx as <- <- <-; by auto).
    all: repeat (case_match; simplify_eq/=); auto; done.
  - assert (∀ loc c, loc ∈ [l] → used loc = Some c → ch = Some c) as Huse.
    { intros loc c' ->%list_elem_of_singleton Hu. destruct Hc; congruence. }
    split_and!; [done| |exact Huse]; destruct l as [cl|cl|c1 cl|c1 cl]; simpl in *.
    all: repeat (case_match; simplify_eq/=); auto; done.
  - split_and!; [done..|]. intros loc c' Hin. by apply elem_of_nil in Hin.
Qed.

(** A section that may still publish. *)
Definition past_check (s : SendSys) : nat :=
  match owner s with
  | None | Some (_, _, Locked _) => 0
  | Some _ => 1
  end.

Lemma stopped_step o s l s' :
  send_step o s l s' → flag s = true →
  (publications [l] + past_check s' <= past_check s)%nat.
Proof.
  unfold publications, past_check.
  destruct 1 as [s f t c|[ch b] f t c l l' s' Hx|[ch b] f t c l r s' Hx|s o' f]; simpl; intros Hf.
  - lia.
  - subst f. destruct l as [cl|cl|c1 cl|c1 cl]; simpl in *.
    all: repeat (case_match; simplify_eq/=); simpl; lia.
  - subst f. destruct l; simpl; lia.
  - lia.
Qed.

Lemma publications_snoc tr l :
  publications (tr ++ [l]) = (publications tr + publications [l])%nat.
Proof. unfold publications, actions. by rewrite omap_app, List.filter_app, length_app. Qed.

(** C22. The publishing channel under threads: once opened it stays the one
    channel of the transport, and every declaration and publication uses it;
    and after the transport was shut down at most one more message is
    published, by the thread that had passed the second check, if any. *)
Theorem one_channel_and_shutdown o b tr1 s tr2 s' :
  run (send_step o) (mkSys (None, b) None false) tr1 s → run (send_step o) s tr2 s' →
  (∀ c, (shared s).1 = Some c →
     (shared s').1 = Some c ∧
     ∀ l c', l ∈ actions tr2 → used l = Some c' → c' = c) ∧
  (flag s = true → (publications tr2 <= past_check s <= 1)%nat).
Proof.
  intros Hr1 Hr2. assert (consistent s) as Hc.
  { pattern tr1, s. revert tr1 s Hr1 Hr2. intros tr1 s Hr1 _. revert tr1 s Hr1.
    apply run_invariant; [done|]. intros tr s l s1 _ Hc Hstep. by eapply consistent_step. }
  assert (past_check s <= 1)%nat by (unfold past_check; repeat case_match; lia).
  clear Hr1 tr1. split.
  - intros c Hch. assert (consistent s' ∧ (shared s').1 = Some c ∧
      ∀ l c', l ∈ actions tr2 → used l = Some c' → c' = c) as (_ & ? & ?); [|done].
    induction Hr2 as [|tr s' l s'' _ (Hc' & Hch' & Huse) Hstep].
    + split_and!; [done..|]. intros l c' Hin. by apply elem_of_nil in Hin.
    + destruct (consistent_step o _ _ _ Hstep Hc') as (Hc'' & Hkeep & Hu).
      split_and!; [done|by apply Hkeep|]. intros loc c' Hin Hl.
      unfold actions in Hin. rewrite omap_app in Hin.
      apply elem_of_app in Hin as [Hin|Hin]; [by eapply Huse|].
      pose proof (Hu _ _ Hin Hl). congruence.
  - intros Hf. assert (flag s' = true ∧ (publications tr2 + past_check s' <= past_check s)%nat)
      as [_ ?]; [|lia].
    induction Hr2 as [|tr s' l s'' _ [Hf' IH] Hstep]; [done|].
    pose proof (stopped_step o _ _ _ Hstep Hf'). rewrite publications_snoc.
    split; [by eapply step_flag_mono|lia].
Qed.

(** ** The completion handlers *)

(** Where a handler is: before the test, before the call of the library, before
    the message is marked. *)
Inductive AckLoc := Testing (op : Completion) | Calling (op : Completion) | Marking.

Definition ack_exec (c : Channel) (d : Delivery) (_ : bool) (l : AckLoc) (s : bool * B)
    : (AckLoc + Status) * (bool * B) :=
  let '(completed, b) := s in
  match l with
  | Testing op => if completed then (inr already, s) else (inl (Calling op), s)
  | Calling DoAck =>
      match BasicAck c d b with
      | (inl what, b) => (inr (Status.internal ("ack failed: " +:+ what)), (completed, b))
      | (inr _, b) => (inl Marking, (completed, b))
      end
  | Calling (DoNack requeue) =>
      match BasicReject c d requeue b with
      | (inl what, b) => (inr (Status.internal ("nack failed: " +:+ what)), (completed, b))
      | (inr _, b) => (inl Marking, (completed, b))
      end
  | Marking => (inr success, (true, b))
  end.

Notation ack_step c d := (step Testing (ack_exec c d)).

(** The message's state in the world of [RabbitMqSimpleTransport]. *)
Definition ack_world (c : Channel) (d : Delivery) (s : bool * B) : World :=
  mkWorld s.2 None [] [mkAck s.1 c d].

Definition ack_at (c : Channel) (d : Delivery) (op : Completion) (l : AckLoc) (s s' : bool * B)
    : Prop :=
  match l with
  | Testing op' => op' = op ∧ s' = s
  | Calling op' => op' = op ∧ s' = s ∧ s.1 = false
  | Marking => s.1 = false ∧ s'.1 = false ∧
      match op with
      | DoAck => BasicAck c d s.2
      | DoNack requeue => BasicReject c d requeue s.2
      end = (inr tt, s'.2)
  end.

Lemma ack_reaches c d f op s l s' :
  reaches Testing (ack_exec c d) f op s l s' → ack_at c d op l s s'.
Proof.
  induction 1 as [|l [comp b] f' l' [comp' b'] _ IH _ Hx]; [done|].
  destruct l as [op'|op'|]; simpl in *; [|..|done].
  - destruct IH as [-> <-]. destruct comp; [done|]. by injection Hx as <- <- <-.
  - destruct IH as (-> & <- & Hc). simpl in Hc. subst comp.
    destruct op as [|requeue]; simpl in Hx.
    + destruct (BasicAck c d b) as [[what|[]] b1] eqn:Ha; [done|]. by injection Hx as <- <- <-.
    + destruct (BasicReject c d requeue b) as [[what|[]] b1] eqn:Ha; [done|].
      by injection Hx as <- <- <-.
Qed.

(** A handler on its own is the handler of [RabbitMqSimpleTransport]. *)
Lemma ack_finishes c d f op s r s' :
  finishes Testing (ack_exec c d) f op s r s' →
  complete 0 op (ack_world c d s) = (r, ack_world c d s').
Proof.
  intros (l & [comp b] & f' & Hl & _ & Hx). apply ack_reaches in Hl.
  destruct s as [comp0 b0], l as [op'|op'|]; simpl in *.
  - destruct Hl as [-> [= -> ->]]. destruct comp0; [|done]. injection Hx as <- <-.
    by destruct op.
  - destruct Hl as (-> & [= -> ->] & ->). destruct op as [|requeue]; simpl in *.
    + unfold ack_fn. simpl. destruct (BasicAck c d b0) as [[what|[]] b1]; [|done].
      by injection Hx as <- <-.
    + unfold nack_fn. simpl. destruct (BasicReject c d requeue b0) as [[what|[]] b1]; [|done].
      by injection Hx as <- <-.
  - destruct Hl as (-> & -> & Hcall). injection Hx as <- <-.
    destruct op as [|requeue]; simpl; [unfold ack_fn|unfold nack_fn]; simpl; by rewrite Hcall.
Qed.

Lemma no_success n : filter (λ s, s = success) (replicate n already) = [].
Proof. induction n as [|n IH]; [done|]. simpl. by rewrite filter_cons, decide_False. Qed.

Lemma one_success i ops w :
  (length (filter (λ s, s = success) (completes i ops w).1) <= 1)%nat.
Proof.
  revert w. induction ops as [|op ops IH]; intros w; simpl; [lia|].
  destruct (complete i op w) as [s w1] eqn:Hop.
  specialize (IH w1). destruct (completes i ops w1) as [ss w2] eqn:Hops. simpl in *.
  rewrite filter_cons. case_decide as Hs; [|done]. subst s. simpl.
  apply complete_success, (completes_done i ops) in Hop. rewrite Hops in Hop.
  injection Hop as -> ->. rewrite no_success. simpl. lia.
Qed.

(** C23. Acknowledging from several threads: however calls of the two completion
    handlers of one message interleave, the completed calls return, in the
    order in which they left the mutex, what the handlers called one after the
    other return, with the same effect on the broker; at most one of them
    succeeds. *)
Theorem one_completion c d b tr s :
  run (ack_step c d) (mkSys (false, b) None false) tr s → owner s = None →
  completes 0 (released tr).*1 (ack_world c d (false, b)) =
    ((released tr).*2, ack_world c d (shared s)) ∧
  (length (filter (λ st, st = success) (released tr).*2) <= 1)%nat.
Proof.
  intros Hr Hown. apply linearizable in Hr as (s1 & Hs & Ho). rewrite Hown in Ho. subst s1.
  assert (completes 0 (released tr).*1 (ack_world c d (false, b)) =
    ((released tr).*2, ack_world c d (shared s))) as Heq.
  { induction Hs as [|calls s1 op r s2 _ IH Hfin]; [done|].
    rewrite !fmap_app, completes_app, IH. apply ack_finishes in Hfin. simpl. by rewrite Hfin. }
  split; [done|]. pose proof (one_success 0 (released tr).*1 (ack_world c d (false, b))) as H1.
  by rewrite Heq in H1.
Qed.
End Threads.

(** ** Concrete runs *)

Import (hints) Local.

Module Example.
Notation Msg := (MessageView string).

Definition call (s : string) : @SendCall Local.Broker Local.client :=
  mkSend "q" (mkView s None None None None : BasicMessage).
Notation send_run := (run (step Locked (send_exec (B := Local.Broker) default_options))).
Definition start := mkSys (Loc := SendLoc) (Call := SendCall)
  (None : option (@Channel Local.Broker Local.client), Local.mkBroker 0 ∅) None false.

(** Thread 1 passes the second check; the transport is shut down; thread 1
    publishes, thread 2 is refused. *)
Lemma before : ∃ tr s, send_run start tr s ∧ flag s = true ∧ past_check s = 1%nat ∧
  (shared s).1 = Some tt ∧
  ∃ tr2 s2, send_run s tr2 s2 ∧ owner s2 = None ∧ publications tr2 = 1%nat ∧
    released (tr ++ tr2) = [(call "a", success); (call "b", shut_down)].
Proof.
  eexists _, _. split.
  { eapply run_cons; [apply (step_acquire _ _ _ _ 1%nat (call "a"))|].
    eapply run_cons; [by apply step_exec|].
    eapply run_cons; [by apply step_exec|].
    apply run_one, step_flag. }
  split_and!; [reflexivity..|]. eexists _, _. split.
  { eapply run_cons; [by apply step_exec|].
    eapply run_cons; [by apply step_release|].
    eapply run_cons; [apply (step_acquire _ _ _ _ 2%nat (call "b"))|].
    apply run_one. by apply step_release. }
  split_and!; reflexivity.
Qed.
End Example.

Lemma sends_linearizable_witness :
  ∃ s, sends (B := Local.Broker) default_options true (None, Local.mkBroker 0 ∅)
         [(Example.call "a", success); (Example.call "b", shut_down)] s.
Proof.
  destruct Example.before as (tr & s & Hr & Hf & _ & _ & tr2 & s2 & Hr2 & Ho & _ & Hrel).
  exists (shared s2). rewrite <- Hrel.
  assert (flag s2 = true) as <-.
  { clear Ho Hrel Hr. induction Hr2 as [|tr2 s2 l s3 _ IH Hstep]; [exact Hf|].
    exact (step_flag_mono _ _ _ _ _ Hstep IH). }
  exact (sends_linearizable default_options _ _ _ (run_app _ _ _ _ _ _ Hr Hr2) Ho).
Defined.

Lemma one_channel_and_shutdown_witness :
  ∃ tr2 s2 s, run (step Locked (send_exec (B := Local.Broker) default_options)) s tr2 s2 ∧
    is_Some (shared s2).1 ∧ (publications tr2 <= 1)%nat.
Proof.
  destruct Example.before as (tr & s & Hr & Hf & Hp & Hc & tr2 & s2 & Hr2 & _).
  destruct (one_channel_and_shutdown default_options _ _ _ _ _ Hr Hr2) as [H1 H2].
  exists tr2, s2, s. split; [exact Hr2|]. split; [exists tt; apply (H1 tt Hc)|].
  rewrite <- Hp. apply (H2 Hf).
Defined.

Lemma one_completion_witness :
  ∃ tr s, run (step Testing (ack_exec (B := Local.Broker) tt
                               (mkView "x" None None None None : MessageView string)))
            (mkSys (false, Local.mkBroker 0 ∅) None false) tr s ∧
    (released tr).*2 = [success; already] ∧
    (length (filter (λ st, st = success) (released tr).*2) <= 1)%nat.
Proof.
  assert (∃ tr s, run (step Testing (ack_exec (B := Local.Broker) tt
                               (mkView "x" None None None None : MessageView string)))
            (mkSys (false, Local.mkBroker 0 ∅) None false) tr s ∧ owner s = None ∧
    (released tr).*2 = [success; already]) as (tr & s & Hr & Ho & Hrel).
  { eexists _, _. split.
    - eapply run_cons; [apply (step_acquire _ _ _ _ 1%nat DoAck)|].
      eapply run_cons; [by apply step_exec|].
      eapply run_cons; [by apply step_exec|].
      eapply run_cons; [by apply step_release|].
      eapply run_cons; [apply (step_acquire _ _ _ _ 2%nat (DoNack true))|].
      apply run_one. by apply step_release.
    - split; reflexivity. }
  exists tr, s. split; [exact Hr|]. split; [exact Hrel|].
  exact (proj2 (one_completion _ _ _ _ _ Hr Ho)).
Defined.
