(* ===== verification/RabbitMqQueues.v ===== *)
(** * Queues behind the RabbitMQ transport

    What [send] and [receive] of RabbitMqSimpleTransport.cpp do to the queues of
    a broker, given documented facts about AMQP 0-9-1 and the client library:
    - messages published to the default exchange are appended to the declared
      queue named by the routing key;
    - [basic.get] takes the oldest message; a consumer is sent messages from
      the front of its queue;
    - for a consumer without acknowledgements ([no_ack]) a message is settled
      once it is sent, however many the broker sends: the prefetch count is
      ignored (basic.qos, "if the no-ack option is set").  What such a channel
      still holds when it is closed is gone;
    - messages sent to an acknowledging consumer that were not handed to the
      program return to their place when the channel is closed.

    Calls may throw in these laws.  Further classes add that they do not and that
    a poll returns a message that is there; that a message handed to the program
    and not acknowledged returns as well; and that a broker has sent a [no_ack]
    consumer the whole backlog. *)

From S2P Require Import Prelude Status Message Transport Codec QueueTransport.
From S2P Require Import RabbitMqSimpleTransport.
From S2P Require Messenger.

(** ** Laws of the broker *)

(** [queued]: the messages of a queue that no program has been handed and that
    are not settled; [pushed]: what was sent to the [no_ack] consumer of a
    channel and waits in it; [outstanding]: handed over on a channel, with the
    queue it came from, and neither acknowledged nor rejected. *)
Class QueueViews (B : Type) `{AmqpClient B} := {
  queued : B → string → list BasicMessage;
  pushed : B → Channel → list BasicMessage;
  outstanding : B → Channel → list (string * BasicMessage);
  declared : B → string → Prop;
  consumer : B → Channel → string → option (string * bool);
}.

Section Views.
Context {B : Type} `{QueueViews B}.

Definition unmoved (b b' : B) : Prop := ∀ k, queued b' k = queued b k.
(** Only the front of [q] changed. *)
Definition drained (q : string) (b b' : B) : Prop :=
  (∃ gone, queued b q = gone ++ queued b' q) ∧
  ∀ k, k ≠ q → queued b' k = queued b k.
(** What the consumer of [q] on [c] is yet to receive. *)
Definition stream (c : Channel) (q : string) (b : B) : list BasicMessage :=
  pushed b c ++ queued b q.

Lemma unmoved_drained q b b' : unmoved b b' → drained q b b'.
Proof. intros Hu. split; [by exists []; rewrite Hu|auto]. Qed.
Lemma unmoved_trans b1 b2 b3 : unmoved b1 b2 → unmoved b2 b3 → unmoved b1 b3.
Proof. intros H1 H2 k. by rewrite H2, H1. Qed.
Lemma drained_trans q b1 b2 b3 : drained q b1 b2 → drained q b2 b3 → drained q b1 b3.
Proof.
  intros [[g1 H1] O1] [[g2 H2] O2]. split.
  - exists (g1 ++ g2). by rewrite H1, H2, app_assoc.
  - intros k Hk. by rewrite O2, O1.
Qed.
End Views.

Class AmqpQueueLaws (B : Type) `{QueueViews B} := {
  create_law h p u pw v (b b' : B) r :
    Create h p u pw v b = (r, b') →
    unmoved b b' ∧ ∀ c, r = inr c → pushed b' c = [] ∧ outstanding b' c = [];
  (* a regular queue: not passive, durable, exclusive or auto-deleted *)
  declare_law c q (b b' : B) r :
    DeclareQueue c q false false false false b = (r, b') →
    unmoved b b' ∧ pushed b' c = pushed b c ∧ outstanding b' c = outstanding b c ∧
    (r = inr tt → declared b' q);
  publish_law c q m (b b' : B) r :
    BasicPublish c "" q m b = (r, b') → declared b q →
    (∀ k, k ≠ q → queued b' k = queued b k) ∧
    (queued b' q = queued b q ++ [m] ∨ r ≠ inr tt ∧ queued b' q = queued b q);
  get_law c q no_ack (b b' : B) r :
    BasicGet c q no_ack b = (r, b') →
    drained q b b' ∧
    match r with
    | inr (Some d) => queued b q = DeliveredMessage d :: queued b' q
    | inr None => unmoved b b'
    | inl _ => no_ack = false → unmoved b b'
    end ∧
    ((∀ d, r = inr (Some d) → no_ack = true) → outstanding b' c = outstanding b c);
  consume_law c q no_ack (b b' : B) r :
    BasicConsume c q "" true no_ack false 1 b = (r, b') →
    drained q b b' ∧ outstanding b' c = outstanding b c ∧
    (no_ack = false → unmoved b b') ∧
    ∀ tag, r = inr tag → consumer b' c tag = Some (q, no_ack) ∧
      stream c q b' = stream c q b ∧ (no_ack = false → pushed b' c = pushed b c);
  wait_law c tag q no_ack ms (b b' : B) r :
    consumer b c tag = Some (q, no_ack) →
    BasicConsumeMessage c tag ms b = (r, b') →
    consumer b' c tag = Some (q, no_ack) ∧ drained q b b' ∧
    match r with
    | inr (Some d) => stream c q b = DeliveredMessage d :: stream c q b'
    | inr None => stream c q b = stream c q b'
    | inl _ => no_ack = false → unmoved b b'
    end ∧
    (no_ack = false → pushed b' c = pushed b c) ∧
    ((∀ d, r = inr (Some d) → no_ack = true) → outstanding b' c = outstanding b c);
  cancel_law c tag q no_ack (b b' : B) r :
    consumer b c tag = Some (q, no_ack) → BasicCancel c tag b = (r, b') →
    drained q b b' ∧ outstanding b' c = outstanding b c ∧ (no_ack = false → unmoved b b');
  ack_law c d (b b' : B) r : BasicAck c d b = (r, b') → unmoved b b';
  close_law c (b : B) : outstanding b c = [] → unmoved b (Close c b);
}.

(** A broker that answers: no call throws, and a poll with time to wait returns
    the next message when there is one. *)
Class AmqpUpLaws (B : Type) `{QueueViews B} := {
  up : B → Prop;
  create_up h p u pw v b : up b → ∃ c b', Create h p u pw v b = (inr c, b') ∧ up b';
  declare_up c q b : up b →
    ∃ b', DeclareQueue c q false false false false b = (inr tt, b') ∧ up b';
  publish_up c q m b : up b → declared b q →
    ∃ b', BasicPublish c "" q m b = (inr tt, b') ∧ up b';
  get_up c q no_ack b : up b → queued b q ≠ [] →
    ∃ d b', BasicGet c q no_ack b = (inr (Some d), b') ∧ up b';
  consume_up c q no_ack b : up b →
    ∃ tag b', BasicConsume c q "" true no_ack false 1 b = (inr tag, b') ∧ up b';
  wait_up c tag q no_ack ms b :
    up b → consumer b c tag = Some (q, no_ack) → (no_ack = false → pushed b c = []) →
    0 < ms → stream c q b ≠ [] →
    ∃ d b', BasicConsumeMessage c tag ms b = (inr (Some d), b') ∧ up b';
  cancel_up c tag b : up b → up (BasicCancel c tag b).2;
  close_up c b : up b → up (Close c b);
}.

(** Messages that were handed over to be acknowledged belong to the channel, and
    the only one there is returns to the front of its queue when the channel is
    closed. *)
Class AmqpRequeueLaws (B : Type) `{QueueViews B} := {
  get_hands c q d (b b' : B) :
    BasicGet c q false b = (inr (Some d), b') →
    outstanding b' c = outstanding b c ++ [(q, DeliveredMessage d)];
  wait_hands c tag q ms d (b b' : B) :
    consumer b c tag = Some (q, false) → BasicConsumeMessage c tag ms b = (inr (Some d), b') →
    outstanding b' c = outstanding b c ++ [(q, DeliveredMessage d)];
  close_returns c q m (b : B) :
    outstanding b c = [(q, m)] →
    queued (Close c b) q = m :: queued b q ∧ ∀ k, k ≠ q → queued (Close c b) k = queued b k;
}.

(** A broker that has sent a [no_ack] consumer all there is by the time it
    confirms the subscription, as nothing limits it. *)
Class AmqpPushLaws (B : Type) `{QueueViews B} := {
  consume_pushes c q tag (b b' : B) :
    BasicConsume c q "" true true false 1 b = (inr tag, b') → queued b' q = [];
}.

(** ** One receive *)

Section Queues.
Context {B : Type} `{L : AmqpQueueLaws B}.

(** Cancelling a consumer, after the next message [m] came or without. *)
Lemma cancel_effect c tag q no_ack b :
  consumer b c tag = Some (q, no_ack) →
  drained q b (cancel_consumer c tag b) ∧
  outstanding (cancel_consumer c tag b) c = outstanding b c ∧
  (no_ack = false → unmoved b (cancel_consumer c tag b)).
Proof.
  intros Hc. unfold cancel_consumer. destruct (BasicCancel c tag b) as [r0 b1] eqn:Hb.
  by apply (cancel_law _ _ _ _ _ _ _ Hc) in Hb.
Qed.

Lemma cancel_got c tag q no_ack b b1 m :
  consumer b1 c tag = Some (q, no_ack) → (no_ack = false → pushed b1 c = []) →
  (no_ack = true → outstanding b1 c = []) →
  drained q b b1 → stream c q b = m :: stream c q b1 →
  let b' := cancel_consumer c tag b1 in
  drained q b b' ∧ ∃ lost, stream c q b = m :: lost ++ queued b' q ∧
    (no_ack = false → lost = []) ∧ (no_ack = true → outstanding b' c = []).
Proof.
  intros Hc Hp Ho Hd Hs b'. destruct (cancel_effect c tag q no_ack b1 Hc) as (Hd' & Ho' & Hu).
  fold b' in Hd', Ho', Hu. split; [by eapply drained_trans|].
  destruct (proj1 Hd') as [gone Hg]. exists (pushed b1 c ++ gone). split_and!.
  - rewrite Hs. unfold stream. by rewrite Hg, app_assoc.
  - intros Hn. rewrite Hp by done. rewrite Hu in Hg by done. simpl.
    by apply (app_inv_tail (queued b1 q)).
  - intros Hn. by rewrite Ho', Ho.
Qed.

(** Waiting on a consumer of [q]: what it hands over was the next message, and
    only an automatic consumer loses messages behind it. *)
Lemma poll_loop_effect budget c tag sched st b q no_ack r st' sched' b' :
  consumer b c tag = Some (q, no_ack) → outstanding b c = [] →
  (no_ack = false → pushed b c = []) →
  poll_loop budget c tag sched st b = Some (r, (st', sched', b')) →
  drained q b b' ∧
  match r with
  | inr (Got d) => ∃ lost, stream c q b = DeliveredMessage d :: lost ++ queued b' q ∧
      (no_ack = false → lost = []) ∧ (no_ack = true → outstanding b' c = [])
  | _ => outstanding b' c = [] ∧ (no_ack = false → unmoved b b')
  end.
Proof.
  revert st b. induction sched as [|x sched IH]; intros st b Hc Ho Hp; simpl;
    pose proof (cancel_effect c tag q no_ack b Hc) as Hcancel; rewrite Ho in Hcancel;
    (destruct st; [by intros [= <- <- <- <-]|]);
    (destruct (budget b) as [ms|]; [|by intros [= <- <- <- <-]]);
    destruct (BasicConsumeMessage c tag ms b) as [[what|[d|]] b1] eqn:Hw;
    apply (wait_law _ _ _ _ _ _ _ _ Hc) in Hw as (Hc1 & Hd1 & Hs1 & Hp1 & Ho1);
    rewrite Ho in Ho1.
  1, 4: intros [= <- <- <- <-]; split; [done|]; split; [by apply Ho1|done].
  1, 3: intros [= <- <- <- <-]; eapply (cancel_got c tag q no_ack b b1); [done| |  |done..];
    intros Hn; [by rewrite Hp1, Hp|by apply Ho1].
  { done. }
  intros Hl. apply IH in Hl as [Hd2 Hr]; [|done|by apply Ho1|intros Hn; by rewrite Hp1, Hp].
  split; [by eapply drained_trans|]. rewrite Hs1. destruct r as [what|[d|s]]; [|done|].
  all: destruct Hr as [? Hu]; split; [done|]; intros Hn; specialize (Hu Hn).
  all: unfold stream in Hs1; rewrite Hp1, Hp in Hs1 by done; simpl in Hs1.
  all: intros k; rewrite Hu; destruct (decide (k = q)) as [->|Hk]; [done|by apply Hd1].
Qed.

Lemma open_source_effect o q b r b' :
  open_source o q b = (r, b') →
  unmoved b b' ∧ ∀ c, r = inr c → pushed b' c = [] ∧ outstanding b' c = [] ∧ declared b' q.
Proof.
  unfold open_source. destruct (openChannel o b) as [[what|c] b1] eqn:Hc.
  { apply create_law in Hc as [Hu _]. by intros [= <- <-]. }
  apply create_law in Hc as [Hu Hc]. destruct (Hc c eq_refl) as [Hp Ho].
  destruct (DeclareQueue _ _ _ _ _ _ b1) as [[what|[]] b2] eqn:Hd;
    apply declare_law in Hd as (Hu2 & Hp2 & Ho2 & Hdecl); intros [= <- <-].
  - split; [|done]. eapply unmoved_trans; [exact Hu|].
    eapply unmoved_trans; [exact Hu2|]. apply close_law. by rewrite Ho2.
  - split; [by eapply unmoved_trans|]. intros c' [= <-]. rewrite Hp2, Ho2. auto.
Qed.

(** Arguments with which nothing is lost: acknowledgement by the program, or a
    poll, which takes one message with [basic.get]. *)
Definition is_lossless (args : ReceiveArgs) : bool :=
  bool_decide (ack_mode args = Manual) || bool_decide (Transport.timeout args = Some 0).

Lemma wait_delivery_effect c q args st w r w' :
  pushed (broker w) c = [] → outstanding (broker w) c = [] →
  wait_delivery c q args st w = Some (r, w') →
  drained q (broker w) (broker w') ∧
  match r with
  | inr (Got d) => ∃ lost, queued (broker w) q = DeliveredMessage d :: lost ++ queued (broker w') q ∧
      (is_lossless args = true → lost = []) ∧
      (ack_mode args = Auto → outstanding (broker w') c = [])
  | _ => outstanding (broker w') c = [] ∧
      (ack_mode args = Manual → unmoved (broker w) (broker w'))
  end.
Proof.
  intros Hp Ho. unfold wait_delivery, is_lossless.
  assert (bool_decide (ack_mode args = Auto) = true ↔ ack_mode args = Auto) as Hauto
    by apply bool_decide_eq_true.
  assert (ack_mode args = Manual → bool_decide (ack_mode args = Auto) = false) as Hman
    by (intros ->; done).
  set (auto := bool_decide (ack_mode args = Auto)) in *.
  destruct (bool_decide (Transport.timeout args = Some 0)).
  - destruct (BasicGet _ _ _ _) as [[what|[d|]] b] eqn:Hg;
      apply get_law in Hg as (Hd & Hr & Hout); rewrite Ho in Hout; intros [= <- <-]; simpl.
    + split; [done|]. split; [by apply Hout|auto].
    + split; [done|]. exists []. split_and!; [done|done|]. intros Ha. apply Hout.
      intros _ _. by apply Hauto.
    + split; [done|]. split; [by apply Hout|auto].
  - rewrite orb_false_r. destruct (BasicConsume _ _ _ _ _ _ _ _) as [[what|tag] b] eqn:Hc;
      apply consume_law in Hc as (Hd & Hout & Hu & Htag).
    { intros [= <- <-]. simpl. rewrite Hout, Ho. auto. }
    destruct (Htag tag eq_refl) as (Hcons & Hs & Hpush). rewrite Ho in Hout.
    destruct (load_stopped (with_broker w b) st) as [[stop w1] st1] eqn:Hl.
    apply load_stopped_others in Hl as (Hb & _). simpl in Hb.
    destruct (poll_loop _ _ _ _ _ _) as [[r' [[st2 sched2] b2]]|] eqn:Hloop; [|done].
    intros [= -> <-]. simpl. eapply poll_loop_effect in Hloop as [Hd2 Hr];
      [|exact Hcons|exact Hout|intros Hn; by rewrite Hpush].
    split; [by eapply drained_trans|]. rewrite Hs in Hr. unfold stream in Hr.
    rewrite Hp in Hr. simpl in Hr. destruct r as [what|[d|s]].
    + destruct Hr as [? Hr]. split; [done|]. intros Hm. eapply unmoved_trans; eauto.
    + destruct Hr as (lost & Hq & Hlost & Hout2). exists lost. split_and!; [done| |].
      * intros Hm%bool_decide_eq_true. auto.
      * intros Ha. apply Hout2. by apply Hauto.
    + destruct Hr as [? Hr]. split; [done|]. intros Hm. eapply unmoved_trans; eauto.
Qed.

(** What a receive with result [r] may do to the queues: take the oldest message
    of [q] and return it, or nothing; and lose a number of messages behind. *)
Definition consumed (q : string) (args : ReceiveArgs) (r : Result (Message World))
    (b b' : B) : Prop :=
  (∀ k, k ≠ q → queued b' k = queued b k) ∧
  ∃ lost,
    match r with
    | inr msg => ∃ m, envelope msg = fromBasicMessage m ∧
        queued b q = m :: lost ++ queued b' q ∧ (is_lossless args = true → lost = [])
    | inl _ => queued b q = lost ++ queued b' q ∧ (ack_mode args = Manual → lost = [])
    end.

Lemma consumed_nothing q args s b b' : unmoved b b' → consumed q args (inl s) b b'.
Proof. intros Hu. split; [auto|]. exists []. by rewrite Hu. Qed.

Lemma consumed_failed q args s b b1 b2 c :
  drained q b b1 → outstanding b1 c = [] → (ack_mode args = Manual → unmoved b b1) →
  b2 = Close c b1 → consumed q args (inl s) b b2.
Proof.
  intros [[gone Hd] Hoth] Ho Hm ->. pose proof (close_law _ _ Ho) as Hcl. split.
  - intros k Hk. by rewrite Hcl, Hoth.
  - exists gone. rewrite Hcl. split; [done|]. intros Hman.
    rewrite (Hm Hman) in Hd. by apply (app_inv_tail (queued b q)).
Qed.

Lemma consumed_start q args r b b1 b2 :
  unmoved b b1 → consumed q args r b1 b2 → consumed q args r b b2.
Proof.
  intros Hu [Hoth Hr]. split; [intros k Hk; by rewrite Hoth, Hu|]. by rewrite Hu in Hr.
Qed.

Lemma receive_effect src args w r w' :
  receive tt src args w = Some (r, w') →
  consumed (name src) args r (broker w) (broker w').
Proof.
  unfold receive. case_bool_decide; [intros [= <- <-]; by apply consumed_nothing|].
  destruct (state_ w) as [st|]; [|intros [= <- <-]; by apply consumed_nothing].
  destruct (load_stopped w st) as [[stop w1] st1] eqn:Hl.
  apply load_stopped_others in Hl as (<- & _).
  destruct stop; [intros [= <- <-]; by apply consumed_nothing|].
  destruct (open_source _ _ _) as [[what|c] b] eqn:Hop;
    apply open_source_effect in Hop as [Hu Hc];
    [intros [= <- <-]; by apply consumed_nothing|].
  destruct (Hc c eq_refl) as (Hp & Ho & _).
  destruct (wait_delivery _ _ _ _ _) as [[r' w2]|] eqn:Hwait; [|done].
  apply wait_delivery_effect in Hwait as [Hd Hr]; [|done..]. simpl in Hd, Hr.
  intros Hres. eapply consumed_start; [exact Hu|].
  destruct r' as [what|[d|s]].
  - destruct Hr. simplify_eq. by eapply consumed_failed.
  - destruct Hr as (lost & Hq & Hlost & Hout). revert Hres.
    unfold makeMessageFromDelivery.
    destruct (ack_mode args) eqn:Hmode; intros [= <- <-]; simpl.
    + pose proof (close_law _ _ (Hout eq_refl)) as Hcl. split.
      { intros k Hk. rewrite Hcl. by apply Hd. }
      exists lost. eexists. by rewrite Hcl.
    + split; [apply Hd|]. exists lost. by eexists.
  - destruct Hr. simplify_eq. by eapply consumed_failed.
Qed.

Lemma load_stopped_acks w st stop w' st' :
  load_stopped w st = (stop, w', st') → acks w' = acks w.
Proof. unfold load_stopped. destruct (others w) as [|[]]; by intros [= _ <- _]. Qed.

(** Received automatically, a message holds nothing. *)
Lemma receive_captured src args w msg w' :
  receive tt src args w = Some (inr msg, w') → ack_mode args = Auto → captured_ msg = None.
Proof.
  unfold receive, makeMessageFromDelivery. intros Hr Ha. rewrite Ha in Hr.
  repeat case_match; by simplify_eq.
Qed.

(** ** One send *)

Lemma send_locked_effect st q m w s w' :
  send_locked st q m w = (s, w') →
  (∀ k, k ≠ q → queued (broker w') k = queued (broker w) k) ∧
  (queued (broker w') q = queued (broker w) q ++ [m] ∨
   ok s = false ∧ queued (broker w') q = queued (broker w) q).
Proof.
  unfold send_locked, publish.
  destruct ((match send_ch st with Some c => mret c | None => openChannel (opts st) end)
              (broker w)) as [[what|c] b] eqn:Hc.
  all: assert (unmoved (broker w) b) as Hu by
    (destruct (send_ch st); [by injection Hc as _ <-|by apply create_law in Hc as [Hu _]]).
  { intros [= <- <-]. simpl. split; [auto|right]. by rewrite Hu. }
  unfold mbind, exc_bind. simpl.
  destruct (DeclareQueue _ _ _ _ _ _ _) as [[what|[]] b1] eqn:Hd;
    apply declare_law in Hd as (Hu1 & _ & _ & Hdecl).
  { intros [= <- <-]. simpl. split; [intros k _|right]; rewrite ?Hu1, ?Hu; done. }
  destruct (BasicPublish _ _ _ _ _) as [[what|[]] b2] eqn:Hp;
    apply publish_law in Hp as [Hoth Hq]; try (by apply Hdecl);
    rewrite Hu1, Hu in Hq; intros [= <- <-]; simpl;
    (split; [intros k Hk; by rewrite Hoth, Hu1, Hu|]).
  - destruct Hq as [|[_ Hq]]; [by left|by right].
  - destruct Hq as [|[Hne _]]; [by left|done].
Qed.

Lemma send_effect dest e args w s w' :
  send tt dest e args w = (s, w') →
  (∀ k, k ≠ name dest → queued (broker w') k = queued (broker w) k) ∧
  (queued (broker w') (name dest) = queued (broker w) (name dest) ++ [toBasicMessage e] ∨
   ok s = false ∧ queued (broker w') (name dest) = queued (broker w) (name dest)).
Proof.
  unfold send. case_bool_decide; [by intros [= <- <-]; auto|].
  destruct (confirm args); [by intros [= <- <-]; auto|].
  destruct (state_ w) as [st|]; [|by intros [= <- <-]; auto].
  destruct (load_stopped w st) as [[stop w1] st1] eqn:Hl.
  apply load_stopped_others in Hl as (<- & _). destruct stop; [by intros [= <- <-]; auto|].
  destruct (load_stopped w1 st1) as [[stop w2] st2] eqn:Hl.
  apply load_stopped_others in Hl as (<- & _). destruct stop; [by intros [= <- <-]; auto|].
  apply send_locked_effect.
Qed.

(** ** Conversations on one queue *)

Inductive Op := OSend (e : Envelope) (args : SendArgs) | OReceive (args : ReceiveArgs)
              | OAck (i : nat).
Inductive Event := Sent (e : Envelope) (s : Status) | Received (r : Result (Message World))
                 | Acked (s : Status).

Definition perform (n : string) (op : Op) (w : World) : option (Event * World) :=
  match op with
  | OSend e args => let '(s, w) := send tt (mkAddress n) e args w in Some (Sent e s, w)
  | OReceive args =>
      match receive tt (mkAddress n) args w with
      | Some (r, w) => Some (Received r, w)
      | None => None
      end
  | OAck i => let '(s, w) := ack_fn i w in Some (Acked s, w)
  end.

Fixpoint converse (n : string) (ops : list Op) (w : World) : option (list Event * World) :=
  match ops with
  | [] => Some ([], w)
  | op :: ops =>
      match perform n op w with
      | None => None
      | Some (ev, w) =>
          match converse n ops w with
          | None => None
          | Some (evs, w) => Some (ev :: evs, w)
          end
      end
  end.

(** What was sent, what of it was reported accepted, what was received. *)
Definition attempted : list Event → list Envelope :=
  omap (λ ev, match ev with Sent e _ => Some e | _ => None end).
Definition accepted : list Event → list Envelope :=
  omap (λ ev, match ev with Sent e s => if ok s then Some e else None | _ => None end).
Definition received : list Event → list Envelope :=
  omap (λ ev, match ev with Received (inr msg) => Some (envelope msg) | _ => None end).

(** The envelopes waiting in a queue. *)
Definition waiting (w : World) (n : string) : list Envelope :=
  fromBasicMessage <$> queued (broker w) n.

Definition acknowledging (op : Op) : bool :=
  match op with OReceive args => bool_decide (ack_mode args = Manual) | _ => true end.

Lemma perform_effect (M : BasicMessageLaws B) n op w ev w' :
  perform n op w = Some (ev, w') →
  ∃ stored lost, accepted [ev] `sublist_of` stored ∧ stored `sublist_of` attempted [ev] ∧
    waiting w n ++ (normalise <$> stored) = received [ev] ++ lost ++ waiting w' n ∧
    (acknowledging op = true → lost = []).
Proof.
  unfold waiting. destruct op as [e args|args|i]; simpl.
  - destruct (send _ _ _ _ _) as [s w1] eqn:Hs. intros [= <- <-].
    apply send_effect in Hs as [_ [Hq|[Hf Hq]]]; simpl in Hq; rewrite Hq.
    + exists [e], []. simpl. split_and!; [destruct (ok s); repeat constructor|done| |done].
      by rewrite fmap_app, <- (envelope_roundtrip M).
    + exists [], []. simpl. rewrite Hf, app_nil_r. split_and!; auto using sublist_nil_l.
  - destruct (receive _ _ _ _) as [[r w1]|] eqn:Hr; [|done]. intros [= <- <-].
    apply receive_effect in Hr as [_ [lost Hr]]. simpl in Hr.
    exists [], (fromBasicMessage <$> lost). rewrite app_nil_r.
    destruct r as [s|msg]; simpl.
    + destruct Hr as [-> Hl]. split_and!; [done..|by rewrite fmap_app|].
      intros Hm%bool_decide_eq_true. by rewrite Hl.
    + destruct Hr as (m & Hm & -> & Hl). split_and!; [done..| |].
      * by rewrite Hm, fmap_cons, fmap_app.
      * intros Hman. rewrite Hl; [done|]. unfold is_lossless. by rewrite Hman.
  - destruct (ack_fn i w) as [s w1] eqn:Ha. intros [= <- <-]. exists [], [].
    split_and!; [done|done| |done]. rewrite app_nil_r. simpl. f_equal.
    revert Ha. unfold ack_fn. destruct (acks w !! i) as [st|]; [|by intros [= _ <-]].
    destruct (completed st); [by intros [= _ <-]|].
    destruct (BasicAck _ _ _) as [[] b] eqn:Hb; apply ack_law in Hb; by intros [= _ <-].
Qed.

(** C11. Conversations over RabbitMQ, as documented and whatever calls fail: of
    the envelopes sent to a queue, those reported accepted and possibly some
    reported failed reach it; what is received, followed by what is left
    waiting, is a subsequence of what was waiting at the start followed by
    what reached the queue: nothing is duplicated, reordered or made up.  When
    all receives acknowledge by hand, the two are equal: nothing is lost. *)
Theorem conversation_fifo (M : BasicMessageLaws B) n ops w evs w' :
  converse n ops w = Some (evs, w') →
  ∃ stored, accepted evs `sublist_of` stored ∧ stored `sublist_of` attempted evs ∧
    received evs ++ waiting w' n `sublist_of` waiting w n ++ (normalise <$> stored) ∧
    (forallb acknowledging ops = true →
     received evs ++ waiting w' n = waiting w n ++ (normalise <$> stored)).
Proof.
  revert w evs. induction ops as [|op ops IH]; intros w evs; simpl.
  { intros [= <- <-]. exists []. simpl. rewrite app_nil_r. split_and!; done. }
  destruct (perform n op w) as [[ev w1]|] eqn:Hop; [|done].
  destruct (converse n ops w1) as [[evs1 w2]|] eqn:Hops; [|done]. intros [= <- <-].
  apply (perform_effect M) in Hop as (st0 & lost & Ha0 & Ht0 & Hq & Hl0).
  destruct (IH _ _ Hops) as (st1 & Ha1 & Ht1 & Hs1 & He1). exists (st0 ++ st1).
  assert (∀ (f : Event → option Envelope), omap f (ev :: evs1) = omap f [ev] ++ omap f evs1)
    as Hcons by (intros f; by rewrite <- omap_app).
  unfold accepted, attempted, received in *. rewrite !Hcons, fmap_app, app_assoc, Hq.
  rewrite <- !app_assoc.
  split_and!; [by apply sublist_app..| |].
  - apply sublist_app; [done|]. by apply sublist_inserts_l.
  - intros [Hop Hacks]%andb_true_iff. by rewrite (Hl0 Hop), (He1 Hacks).
Qed.
End Queues.

(** ** A broker that answers *)

Section Answers.
Context {B : Type} `{L : AmqpQueueLaws B} `{U : !AmqpUpLaws B}.

(** The transport is running and undisturbed. *)
Definition running (w : World) : Prop :=
  others w = [] ∧ ∃ st, state_ w = Some st ∧ stopped st = false.

Lemma load_running w st : others w = [] → load_stopped w st = (stopped st, w, st).
Proof. unfold load_stopped. by intros ->. Qed.

Lemma send_answers dest e args w :
  running w → up (broker w) → name dest ≠ "" → confirm args = false →
  ∃ w', send tt dest e args w = (success, w') ∧ running w' ∧ up (broker w').
Proof.
  intros [Ho (st & Hst & Hs)] Hup Hn Hc. unfold send.
  rewrite bool_decide_false, Hc, Hst by done.
  rewrite (load_running w st Ho), Hs, (load_running w st Ho), Hs. unfold send_locked.
  assert (∃ c b, (match send_ch st with Some c => mret c | None => openChannel (opts st) end)
    (broker w) = (inr c, b) ∧ up b) as (c & b & -> & Hb).
  { destruct (send_ch st) as [c|]; [by exists c, (broker w)|by apply create_up]. }
  unfold publish, mbind, exc_bind. simpl.
  destruct (declare_up c (name dest) b Hb) as (b1 & Hd & Hb1). rewrite Hd.
  apply declare_law in Hd as (_ & _ & _ & Hd).
  destruct (publish_up c (name dest) (toBasicMessage e) b1 Hb1 (Hd eq_refl)) as (b2 & -> & Hb2).
  eexists. split_and!; [done| |done]. split; [done|]. by eexists.
Qed.

(** The first poll has time to wait. *)
Lemma budget_positive args b :
  prompt args → Transport.timeout args ≠ Some 0 →
  ∃ ms, match Transport.timeout args with
        | None => untimed_budget
        | Some ms => timed_budget (now b + ms * 1000000)
        end b = Some ms ∧ 0 < ms.
Proof.
  unfold prompt. intros Hp Hnz. destruct (Transport.timeout args) as [ms|]; [|by exists 200].
  assert (0 < ms) by (destruct (decide (ms = 0)); [by subst|lia]).
  unfold timed_budget, wait_ms. rewrite (proj2 (Z.leb_gt _ _)) by lia.
  replace (now b + ms * 1000000 - now b) with (ms * 1000000) by lia.
  rewrite Z.quot_mul by lia. eexists. split; [done|]. case_match; lia.
Qed.

Lemma open_source_answers o q b :
  up b → ∃ c b', open_source o q b = (inr c, b') ∧ up b'.
Proof.
  intros Hb. unfold open_source, openChannel.
  destruct (create_up (host o) (port o) (username o) (password o) (vhost o) b Hb)
    as (c & b1 & -> & Hb1).
  destruct (declare_up c q b1 Hb1) as (b2 & -> & Hb2). eauto.
Qed.

Lemma wait_answers c q args st w :
  others w = [] → stopped st = false → up (broker w) →
  pushed (broker w) c = [] → queued (broker w) q ≠ [] → prompt args →
  ∃ d w', wait_delivery c q args st w = Some (inr (Got d), w') ∧ up (broker w') ∧
    others w' = [] ∧ (state_ w' = state_ w ∨ ∃ st', state_ w' = Some st' ∧ stopped st' = false).
Proof.
  intros Ho Hs Hup Hp Hq Hargs. unfold wait_delivery. case_bool_decide as H1.
  - destruct (get_up c q (bool_decide (ack_mode args = Auto)) (broker w) Hup Hq)
      as (d & b & -> & Hb). exists d, (with_broker w b). auto.
  - destruct (consume_up c q (bool_decide (ack_mode args = Auto)) (broker w) Hup)
      as (tag & b & Hc & Hb). rewrite Hc.
    apply consume_law in Hc as (_ & _ & _ & Htag).
    destruct (Htag tag eq_refl) as (Hcons & Hstr & Hpush).
    rewrite (load_running (with_broker w b) st Ho), Hs. simpl. rewrite Ho.
    destruct (budget_positive args b Hargs H1) as (ms & Hms & Hpos).
    destruct (wait_up c tag q _ ms b Hb Hcons) as (d & b' & Hw & Hb'); [|done| |].
    { intros Hn. by rewrite Hpush. }
    { rewrite Hstr. unfold stream. by rewrite Hp. }
    simpl. rewrite Hms, Hw. eexists _, _. split_and!; [done|by apply cancel_up|done|].
    right. by eexists.
Qed.

Lemma receive_answers src args w :
  running w → up (broker w) → name src ≠ "" → prompt args →
  queued (broker w) (name src) ≠ [] →
  ∃ msg w', receive tt src args w = Some (inr msg, w') ∧ running w' ∧ up (broker w').
Proof.
  intros [Ho (st & Hst & Hs)] Hup Hn Hargs Hq. unfold receive.
  rewrite bool_decide_false, Hst by done. rewrite (load_running w st Ho), Hs.
  destruct (open_source_answers (opts st) (name src) (broker w) Hup) as (c & b & Hop & Hb).
  rewrite Hop. apply open_source_effect in Hop as [Hu Hc].
  destruct (Hc c eq_refl) as (Hp & _ & _).
  destruct (wait_answers c (name src) args st (with_broker w b)) as
    (d & w1 & -> & Hb1 & Ho1 & Hst1); [done..|by rewrite Hu|done|].
  assert (∃ st', state_ w1 = Some st' ∧ stopped st' = false) as (st' & Hst' & Hs').
  { destruct Hst1 as [->|]; [by exists st|done]. }
  unfold makeMessageFromDelivery.
  destruct (ack_mode args); eexists _, _; (split_and!; [done| |by try apply close_up]);
    (split; [done|]); by exists st'.
Qed.
End Answers.

(** ** Receiving the head of a backlog *)

(** What the receive returns of [m], the first message of the queue, and what it
    leaves of those behind it. *)
Section Backlog.
Context {B : Type} `{L : AmqpQueueLaws B} `{U : !AmqpUpLaws B} `{P : !AmqpPushLaws B}.

(** Once a subscription without acknowledgements has taken everything, nothing
    is left, however the wait ends. *)
Lemma wait_delivery_pushes c q args st w r w' d :
  is_lossless args = false → r = inr (Got d) → outstanding (broker w) c = [] →
  wait_delivery c q args st w = Some (r, w') → queued (broker w') q = [].
Proof.
  unfold is_lossless, wait_delivery. intros [Ha Ht]%orb_false_iff -> Hout. rewrite Ht.
  apply bool_decide_eq_false in Ha.
  assert (ack_mode args = Auto) as -> by (by destruct (ack_mode args)).
  rewrite bool_decide_true by done.
  destruct (BasicConsume _ _ _ _ _ _ _ _) as [[what|tag] b] eqn:Hc; [done|].
  pose proof (consume_pushes _ _ _ _ _ Hc) as Hempty.
  apply consume_law in Hc as (_ & Ho & _ & Htag). destruct (Htag tag eq_refl) as (Hcons & _ & _).
  destruct (load_stopped (with_broker w b) st) as [[stop w1] st1] eqn:Hl.
  destruct (poll_loop _ _ _ _ _ _) as [[r' [[st2 sched2] b2]]|] eqn:Hloop; [|done].
  intros [= _ <-]. eapply poll_loop_effect in Hloop as [[[gone Hd] _] _];
    [|exact Hcons|by rewrite Ho|done].
  rewrite Hempty in Hd. by symmetry in Hd; apply app_eq_nil in Hd as [_ ?].
Qed.

Lemma receive_pushes src args w msg w' :
  is_lossless args = false → receive tt src args w = Some (inr msg, w') →
  queued (broker w') (name src) = [].
Proof.
  intros Hl. unfold receive. case_bool_decide; [done|].
  destruct (state_ w) as [st|]; [|done].
  destruct (load_stopped w st) as [[stop w1] st1]. destruct stop; [done|].
  destruct (open_source _ _ _) as [[what|c] b] eqn:Hop; [done|].
  apply open_source_effect in Hop as [_ Hc]. destruct (Hc c eq_refl) as (Hp & Ho & _).
  destruct (wait_delivery _ _ _ _ _) as [[[what|[d|s]] w2]|] eqn:Hwait; try done.
  pose proof Hwait as Hempty. eapply wait_delivery_pushes in Hempty; [|done..].
  apply wait_delivery_effect in Hwait as [_ (lost & _ & _ & Hout)]; [|done..].
  unfold makeMessageFromDelivery, is_lossless in *.
  destruct (ack_mode args); [|done]. intros [= _ <-]. simpl. by rewrite close_law by auto.
Qed.

(** C27. A backlog is lost.  Over any broker that answers as documented and has
    sent a subscriber without acknowledgements the whole backlog, any receive
    from a queue that holds [m] and then [backlog] returns [m]; with automatic
    acknowledgement and a wait, as every worker of both systems receives, all
    of [backlog], however long, is then gone from the queue.  Received with
    acknowledgement by the program, or by a poll, it stays there.  Other queues
    are as they were, and the transport and the broker go on. *)
Theorem auto_receive_loses_burst n args m backlog w :
  running w → up (broker w) → n ≠ "" → prompt args → queued (broker w) n = m :: backlog →
  ∃ msg w', receive tt (mkAddress n) args w = Some (inr msg, w') ∧
    envelope msg = fromBasicMessage m ∧
    queued (broker w') n =
      (if bool_decide (ack_mode args = Manual) || bool_decide (Transport.timeout args = Some 0)
       then backlog else []) ∧
    (∀ k, k ≠ n → queued (broker w') k = queued (broker w) k) ∧ running w' ∧ up (broker w').
Proof.
  intros Hr Hup Hn Hargs Hq.
  destruct (receive_answers (mkAddress n) args w Hr Hup Hn Hargs) as (msg & w' & Hrec & Hr' & Hup');
    [simpl; by rewrite Hq|].
  exists msg, w'. pose proof Hrec as Heff.
  apply receive_effect in Heff as [Hoth (lost & m' & Hm & Htake & Hlost)]. simpl in *.
  rewrite Hq in Htake. injection Htake as <- Htake. split_and!; try done.
  fold (is_lossless args). destruct (is_lossless args) eqn:Hl.
  - by rewrite Htake, (Hlost eq_refl).
  - by eapply receive_pushes in Hrec.
Qed.
End Backlog.

(** ** Messages that are not acknowledged *)

Section Unacknowledged.
Context {B : Type} `{L : AmqpQueueLaws B} `{U : !AmqpUpLaws B} `{R : !AmqpRequeueLaws B}.
Context {Format A : Type} `{Codec A Format}.

Lemma poll_loop_hands budget c tag sched st b q d st' sched' b' :
  consumer b c tag = Some (q, false) → outstanding b c = [] →
  poll_loop budget c tag sched st b = Some (inr (Got d), (st', sched', b')) →
  outstanding b' c = [(q, DeliveredMessage d)].
Proof.
  revert st b. induction sched as [|x sched IH]; intros st b Hc Ho; simpl;
    (destruct st; [done|]); (destruct (budget b) as [ms|]; [|done]);
    destruct (BasicConsumeMessage c tag ms b) as [[what|[d'|]] b1] eqn:Hw; try done.
  1, 2: intros [= <- <- <- <-]; pose proof (wait_hands _ _ _ _ _ _ _ Hc Hw) as Hout;
    apply (wait_law _ _ _ _ _ _ _ _ Hc) in Hw as (Hc1 & _);
    destruct (cancel_effect c tag q false b1 Hc1) as (_ & -> & _); by rewrite Hout, Ho.
  apply (wait_law _ _ _ _ _ _ _ _ Hc) in Hw as (Hc1 & _ & _ & _ & Ho1).
  apply IH; [done|]. by rewrite Ho1.
Qed.

Lemma wait_delivery_hands c q args st w d w' :
  ack_mode args = Manual → outstanding (broker w) c = [] →
  wait_delivery c q args st w = Some (inr (Got d), w') →
  outstanding (broker w') c = [(q, DeliveredMessage d)] ∧ acks w' = acks w.
Proof.
  unfold wait_delivery. intros -> Ho. rewrite (bool_decide_false (Manual = Auto)) by done.
  case_bool_decide.
  - destruct (BasicGet _ _ _ _) as [[what|[d'|]] b] eqn:Hg; [done| |done].
    intros [= <- <-]. split; [|done]. simpl. by rewrite (get_hands _ _ _ _ _ Hg), Ho.
  - destruct (BasicConsume _ _ _ _ _ _ _ _) as [[what|tag] b] eqn:Hc; [done|].
    apply consume_law in Hc as (_ & Hout & _ & Htag). destruct (Htag tag eq_refl) as (Hcons & _ & _).
    destruct (load_stopped (with_broker w b) st) as [[stop w1] st1] eqn:Hl.
    destruct (poll_loop _ _ _ _ _ _) as [[r' [[st2 sched2] b2]]|] eqn:Hloop; [|done].
    intros [= -> <-]. simpl. split; [|by apply load_stopped_acks in Hl].
    eapply poll_loop_hands in Hloop; [done|exact Hcons|by rewrite Hout].
Qed.

(** A receive to be acknowledged: the channel that the message keeps has the
    message outstanding. *)
Lemma receive_hands n args w msg w' :
  ack_mode args = Manual → receive tt (mkAddress n) args w = Some (inr msg, w') →
  ∃ c d, captured_ msg = Some (release_fn (length (acks w))) ∧
    acks w' = acks w ++ [mkAck false c d] ∧
    envelope msg = fromBasicMessage (DeliveredMessage d) ∧
    outstanding (broker w') c = [(n, DeliveredMessage d)] ∧
    queued (broker w) n = DeliveredMessage d :: queued (broker w') n ∧
    ∀ k, k ≠ n → queued (broker w') k = queued (broker w) k.
Proof.
  intros Ha. unfold receive. case_bool_decide; [done|].
  destruct (state_ w) as [st|]; [|done].
  destruct (load_stopped w st) as [[stop w1] st1] eqn:Hl.
  pose proof (load_stopped_acks _ _ _ _ _ Hl) as Hacks.
  apply load_stopped_others in Hl as (Hb & _). destruct stop; [done|].
  destruct (open_source _ _ _) as [[what|c] b] eqn:Hop; [done|].
  apply open_source_effect in Hop as [Hu Hc]. destruct (Hc c eq_refl) as (Hp & Ho & _).
  destruct (wait_delivery _ _ _ _ _) as [[[what|[d|s]] w2]|] eqn:Hwait; try done.
  pose proof Hwait as Hout. apply wait_delivery_hands in Hout as [Hout Hacks2]; [|done..].
  apply wait_delivery_effect in Hwait as [[_ Hoth] (lost & Hq & Hlost & _)]; [|done..].
  simpl in *. rewrite Hlost in Hq by (unfold is_lossless; by rewrite Ha).
  unfold makeMessageFromDelivery. rewrite Ha. intros [= <- <-]. exists c, d. simpl.
  rewrite Hacks2, Hacks. split_and!; try done.
  - rewrite <- Hb, <- Hu. exact Hq.
  - intros k Hk. by rewrite Hoth, Hu, Hb.
Qed.

(** Destroying it without having acknowledged it. *)
Lemma receive_destroyed n args w msg w' :
  ack_mode args = Manual → running w' → up (broker w') →
  receive tt (mkAddress n) args w = Some (inr msg, w') →
  running (destroy msg w') ∧ up (broker (destroy msg w')) ∧ unmoved (broker w) (broker (destroy msg w')).
Proof.
  intros Ha Hr Hup Hrec. apply receive_hands in Hrec as (c & d & Hcap & Hacks & _ & Hout & Hq & Hoth);
    [|done].
  unfold destroy. rewrite Hcap. unfold release_fn. rewrite Hacks, list_lookup_middle by done. simpl.
  destruct (close_returns _ _ _ _ Hout) as [Hback Hsame].
  split_and!; [exact Hr|by apply close_up|]. intros k.
  destruct (decide (k = n)) as [->|Hk]; [by rewrite Hback, Hq|by rewrite Hsame, Hoth].
Qed.

(** C13. A typed receive with acknowledgement by the program, the default mode,
    consumes nothing.  [Messenger::receive] decodes the message and destroys it,
    and with it the only means to acknowledge it.  Over a broker that answers
    and takes back what was not acknowledged on a channel that is closed, both
    as documented, the same message is received again however often the call is
    made, whether it decodes or not, with a timeout, without one or as a poll;
    the messages behind it are never reached, and every queue stays as it was. *)
Theorem manual_receive_repeats n args m rest w k :
  running w → up (broker w) → n ≠ "" → prompt args → ack_mode args = Manual →
  queued (broker w) n = m :: rest →
  ∃ w', Messenger.receive_n (Format := Format) (A := A) tt (mkAddress n) args k w =
      Some (replicate k (decode Format (fromBasicMessage m)), w') ∧
    running w' ∧ up (broker w') ∧ ∀ q, queued (broker w') q = queued (broker w) q.
Proof.
  intros Hr Hup Hn Hargs Ha. revert w Hr Hup. induction k as [|k IH]; intros w Hr Hup Hq.
  { exists w. by split_and!. }
  destruct (receive_answers (mkAddress n) args w Hr Hup Hn Hargs) as (msg & w1 & Hrec & Hr1 & Hup1);
    [simpl; by rewrite Hq|].
  destruct (receive_destroyed n args w msg w1 Ha Hr1 Hup1 Hrec) as (Hr2 & Hup2 & Hu).
  destruct (IH _ Hr2 Hup2) as (w' & Hn' & Hr' & Hup' & Hq'); [by rewrite Hu|].
  exists w'. split_and!; [|done..|intros q; by rewrite Hq', Hu].
  pose proof (Messenger.receive_step (T := unit) (W := World) (Format := Format) (A := A)
    tt (mkAddress n) args w msg w1 Hrec) as Hstep.
  cbn [Messenger.receive_n]. rewrite Hstep, Hn'.
  apply receive_hands in Hrec as (c & d & _ & _ & He & _ & Hd & _); [|done].
  rewrite Hq in Hd. injection Hd as -> _. by rewrite He.
Qed.
End Unacknowledged.

(** ** Several transports on several brokers

    Each transport object has its own state; those linked to the same broker
    share its queues. *)

Record Client := mkClient { ident : nat; link : nat }.

Section Hub.
Context {B : Type} `{AmqpClient B}.

Record Own := mkOwn { own_state : option State; own_others : list bool; own_acks : list AckState }.
Record Hub := mkHub { brokers : nat → B; locals : nat → Own }.

Definition view (t : Client) (h : Hub) : World :=
  let l := locals h (ident t) in
  mkWorld (brokers h (link t)) (own_state l) (own_others l) (own_acks l).
Definition update (t : Client) (w : World) (h : Hub) : Hub :=
  mkHub (<[link t := broker w]> (brokers h))
    (<[ident t := mkOwn (state_ w) (others w) (acks w)]> (locals h)).

Definition within {A} (t : Client) (f : World → A * World) (h : Hub) : A * Hub :=
  let '(a, w) := f (view t h) in (a, update t w h).

Definition hub_message (t : Client) (msg : Message World) : Message Hub :=
  mkMessage (envelope msg) ((λ f, within t f) <$> ack_impl_ msg)
    ((λ f requeue, within t (f requeue)) <$> nack_impl_ msg)
    ((λ f h, update t (f (view t h)) h) <$> captured_ msg).

#[export] Instance Hub_Transport : Transport Client Hub := {
  Transport.features _ := features tt;
  Transport.send t dest e args := within t (send tt dest e args);
  Transport.receive t src args h :=
    match receive tt src args (view t h) with
    | None => None
    | Some (inl s, w) => Some (inl s, update t w h)
    | Some (inr msg, w) => Some (inr (hub_message t msg), update t w h)
    end;
}.
End Hub.

Section HubQueues.
Context {B : Type} `{L : AmqpQueueLaws B} `{U : !AmqpUpLaws B} `{M : !BasicMessageLaws B}.

Definition hub_settled (h : Hub) : Prop :=
  (∀ i, up (brokers h i)) ∧
  ∀ j, own_others (locals h j) = [] ∧
       ∃ st, own_state (locals h j) = Some st ∧ stopped st = false.
Definition hub_contents (h : Hub) (p : nat * string) : list Envelope :=
  fromBasicMessage <$> queued (brokers h p.1) p.2.

Lemma hub_view t h : hub_settled h → running (view t h) ∧ up (broker (view t h)).
Proof. intros [Hup Hl]. split; [apply Hl|apply Hup]. Qed.

Lemma hub_update t w h :
  hub_settled h → running w → up (broker w) → hub_settled (update t w h).
Proof.
  intros [Hup Hl] Hr Hw. split.
  - intros i. simpl. destruct (decide (i = link t)) as [->|].
    + by rewrite fn_lookup_insert.
    + by rewrite fn_lookup_insert_ne.
  - intros j. simpl. destruct (decide (j = ident t)) as [->|].
    + rewrite fn_lookup_insert. apply Hr.
    + rewrite fn_lookup_insert_ne by done. apply Hl.
Qed.

(** The contents after a transport's operation on queue [n]. *)
Lemma hub_contents_update t w h n p :
  (∀ k, k ≠ n → queued (broker w) k = queued (broker (view t h)) k) →
  hub_contents (update t w h) p =
  if decide (p = (link t, n)) then fromBasicMessage <$> queued (broker w) n
  else hub_contents h p.
Proof.
  intros Hoth. destruct p as [i k]. unfold hub_contents. simpl.
  destruct (decide (i = link t)) as [->|Hi].
  - rewrite fn_lookup_insert. destruct (decide (k = n)) as [->|Hk].
    + by rewrite decide_True.
    + rewrite decide_False by congruence. by rewrite Hoth.
  - rewrite fn_lookup_insert_ne by done. by rewrite decide_False by congruence.
Qed.

#[export] Program Instance Hub_Queues : QueueTransport Client Hub := {
  Place := nat * string;
  place t n := (link t, n);
  settled := hub_settled;
  contents := hub_contents;
  carried := normalise;
  lossless := is_lossless;
}.
Next Obligation.
  intros e He. unfold normalise. rewrite He. destruct e. simpl in *. by subst.
Qed.
Next Obligation.
  intros t dest e args h Hh Hn Hc. simpl. unfold within.
  destruct (hub_view t h Hh) as [Hr Hup].
  destruct (send_answers dest e args (view t h) Hr Hup Hn Hc) as (w & Hs & Hr' & Hup').
  rewrite Hs. apply send_effect in Hs as [Hoth [Hq|[? _]]]; [|done].
  eexists. split_and!; [done|by apply hub_update|]. intros p.
  rewrite (hub_contents_update t w h (name dest) p Hoth). case_decide as Hp.
  - subst p. unfold hub_contents. rewrite Hq, fmap_app. simpl.
    by rewrite (envelope_roundtrip M).
  - by rewrite app_nil_r.
Qed.
Next Obligation.
  intros t src args h e q Hh Hn Hargs Hq. simpl in *. unfold hub_contents in Hq. simpl in Hq.
  destruct (hub_view t h Hh) as [Hr Hup].
  destruct (receive_answers src args (view t h) Hr Hup Hn Hargs) as (msg & w & Hrec & Hr' & Hup').
  { simpl. intros He. by rewrite He in Hq. }
  rewrite Hrec. pose proof (receive_captured _ _ _ _ _ Hrec) as Hcap.
  apply receive_effect in Hrec as [Hoth (lost & m & Hm & Htake & Hlost)].
  simpl in Htake. rewrite Htake in Hq. injection Hq as <- <-.
  eexists _, _, (fromBasicMessage <$> lost).
  split_and!; [done|by apply hub_update|done| | | |].
  - intros Ha. simpl. by rewrite (Hcap Ha).
  - rewrite (hub_contents_update t w h (name src) _ Hoth), decide_True by done.
    by rewrite fmap_app.
  - intros Hl. by rewrite (Hlost Hl).
  - intros p Hp. by rewrite (hub_contents_update t w h (name src) _ Hoth), decide_False.
Qed.

(** Whatever calls of the client fail and whoever shuts a transport down. *)
#[export] Program Instance Hub_Faulty : FaultyQueues Client Hub := {
  calm _ := True;
  failsafe args := bool_decide (ack_mode args = Manual);
}.
Next Obligation. done. Qed.
Next Obligation.
  intros t dest e args h st h' _. simpl. unfold within.
  destruct (send tt dest e args (view t h)) as [s w] eqn:Hs. intros [= <- <-].
  apply send_effect in Hs as [Hoth Hq]. split; [done|].
  assert (∃ ms, (ms = [] ∨ ms = [toBasicMessage e]) ∧ (ok s = true → ms = [toBasicMessage e]) ∧
    queued (broker w) (name dest) = queued (broker (view t h)) (name dest) ++ ms)
    as (ms & Hms & Hok & Hq').
  { destruct Hq as [Hq|[Hf Hq]]; [exists [toBasicMessage e]|exists []]; rewrite Hq;
      split_and!; rewrite ?app_nil_r; auto. by rewrite Hf. }
  assert (fromBasicMessage <$> [toBasicMessage e] = [normalise e]) as Hround
    by (simpl; by rewrite (envelope_roundtrip M)).
  exists (fromBasicMessage <$> ms). split_and!.
  - destruct Hms as [->| ->]; [by left|by right].
  - by intros ->%Hok.
  - intros p. rewrite (hub_contents_update t w h (name dest) p Hoth). case_decide as Hp.
    + subst p. unfold hub_contents. by rewrite Hq', fmap_app.
    + by rewrite app_nil_r.
Qed.
Next Obligation.
  intros t src args h r h' _. simpl.
  destruct (receive tt src args (view t h)) as [[r0 w]|] eqn:Hr; [|done].
  pose proof (λ msg, receive_captured src args (view t h) msg w) as Hcap.
  rewrite Hr in Hcap.
  apply receive_effect in Hr as [Hoth [lost Hl]]. intros Hres.
  assert (h' = update t w h) as -> by (destruct r0; by simplify_eq).
  split; [done|]. split.
  - exists (fromBasicMessage <$> lost).
    rewrite (hub_contents_update t w h (name src) _ Hoth), decide_True by done.
    unfold hub_contents. simpl in *. destruct r0 as [s|msg]; simplify_eq.
    + destruct Hl as [-> Hl]. rewrite fmap_app. split; [done|].
      intros Hm%bool_decide_eq_true. by rewrite Hl.
    + destruct Hl as (mm & Hm & -> & Hl). simpl. rewrite fmap_app, Hm. split_and!; [done| |].
      * intros Hx. by rewrite Hl.
      * intros Ha. by rewrite (Hcap msg eq_refl Ha).
  - intros p Hp. by rewrite (hub_contents_update t w h (name src) _ Hoth), decide_False.
Qed.
End HubQueues.

(** ** A concrete broker

    A broker that sends a consumer without acknowledgements everything it has,
    as one may; no call fails.  The laws hold of it. *)

Module Eager.
Notation Msg := (MessageView string).

Record Broker := mkBroker {
  clock : Z;
  next_channel : nat;
  queues : gmap string (list Msg);
  consumers : gmap nat (string * bool);
  buffers : gmap nat (list Msg);             (* sent, waiting in the channel *)
  unacked : gmap nat (list (string * Msg));
}.

Definition queue (b : Broker) (q : string) : list Msg := default [] (queues b !! q).
Definition with_queues (b : Broker) (qs : gmap string (list Msg)) : Broker :=
  mkBroker (clock b) (next_channel b) qs (consumers b) (buffers b) (unacked b).
Definition with_buffer (b : Broker) (c : nat) (ms : list Msg) : Broker :=
  mkBroker (clock b) (next_channel b) (queues b) (consumers b) (<[c := ms]> (buffers b)) (unacked b).
Definition with_unacked (b : Broker) (c : nat) (ms : list (string * Msg)) : Broker :=
  mkBroker (clock b) (next_channel b) (queues b) (consumers b) (buffers b) (<[c := ms]> (unacked b)).
Definition wait (b : Broker) (ms : Z) : Broker :=
  mkBroker (clock b + Z.max 0 ms * 1000000 + 1) (next_channel b) (queues b) (consumers b)
    (buffers b) (unacked b).
Definition buffer (b : Broker) (c : nat) : list Msg := default [] (buffers b !! c).
Definition unsettled (b : Broker) (c : nat) : list (string * Msg) := default [] (unacked b !! c).

Definition create (b : Broker) : (string + nat) * Broker :=
  let c := next_channel b in
  (inr c, mkBroker (clock b) (S c) (queues b) (delete c (consumers b))
            (delete c (buffers b)) (delete c (unacked b))).

(** Handing the front message of [q] to the program. *)
Definition take (c : nat) (q : string) (no_ack : bool) (b : Broker)
    : (string + option Msg) * Broker :=
  match queue b q with
  | [] => (inr None, b)
  | m :: ms =>
      let b := with_queues b (<[q := ms]> (queues b)) in
      (inr (Some m), if no_ack then b else with_unacked b c (unsettled b c ++ [(q, m)]))
  end.

Definition consume (c : nat) (q : string) (no_ack : bool) (b : Broker)
    : (string + string) * Broker :=
  let b := mkBroker (clock b) (next_channel b) (queues b) (<[c := (q, no_ack)]> (consumers b))
             (buffers b) (unacked b) in
  (inr "tag",
   if no_ack then with_queues (with_buffer b c (buffer b c ++ queue b q)) (<[q := []]> (queues b))
   else b).

Definition consume_message (c : nat) (ms : Z) (b : Broker) : (string + option Msg) * Broker :=
  match consumers b !! c with
  | None => (inl "no consumer", b)
  | Some (q, no_ack) =>
      match buffer b c with
      | m :: rest => if no_ack then (inr (Some m), with_buffer b c rest)
                     else (inl "not pushed", b)
      | [] => match queue b q with
              | [] => (inr None, wait b ms)
              | _ :: _ => take c q no_ack b
              end
      end
  end.

Definition give_back (qs : gmap string (list Msg)) (ms : list (string * Msg))
    : gmap string (list Msg) :=
  foldr (λ '(q, m) qs, <[q := m :: default [] (qs !! q)]> qs) qs ms.
Definition close (c : nat) (b : Broker) : Broker :=
  mkBroker (clock b) (next_channel b) (give_back (queues b) (unsettled b c))
    (delete c (consumers b)) (delete c (buffers b)) (delete c (unacked b)).

#[export] Instance client : AmqpClient Broker := {
  Channel := nat;
  Delivery := Msg;
  BasicMessage := Msg;
  TableValue := string;
  Create _ _ _ _ _ := create;
  DeclareQueue _ q _ _ _ _ b :=
    (inr tt, with_queues b (<[q := queue b q]> (queues b)));
  BasicPublish _ _ q m b :=
    (inr tt, match queues b !! q with
             | Some ms => with_queues b (<[q := ms ++ [m]]> (queues b))
             | None => b
             end);
  BasicGet c q no_ack b := take c q no_ack b;
  BasicConsume c q _ _ no_ack _ _ b := consume c q no_ack b;
  BasicConsumeMessage c _ ms b := consume_message c ms b;
  BasicCancel c _ b := (inr tt, b);
  BasicAck c _ b := (inr tt, with_unacked b c (tail (unsettled b c)));
  BasicReject c _ requeue b :=
    (inr tt,
     with_unacked
       (if requeue : bool then with_queues b (give_back (queues b) (firstn 1 (unsettled b c))) else b)
       c (tail (unsettled b c)));
  Close := close;
  DeliveredMessage m := m;
  CreateMessage := @CreateMessage _ Local.client;
  ContentType := @ContentType _ Local.client;
  CorrelationId := @CorrelationId _ Local.client;
  ReplyTo := @ReplyTo _ Local.client;
  HeaderTable := @HeaderTable _ Local.client;
  message_view := @message_view _ Local.client;
  TableString s := s;
  GetString := Some;
  now := clock;
}.

#[export] Instance client_messages : BasicMessageLaws Broker.
Proof. by split. Qed.

#[export] Instance views : QueueViews Broker := {
  queued := queue;
  pushed := buffer;
  outstanding b c := unsettled b c;
  declared b q := is_Some (queues b !! q);
  consumer b c tag := if decide (tag = "tag") then consumers b !! c else None;
}.

Lemma queue_insert b q ms k :
  queue (with_queues b (<[q := ms]> (queues b))) k = if decide (k = q) then ms else queue b k.
Proof. unfold queue. simpl. case_decide; by simplify_map_eq. Qed.

Lemma take_effect c q no_ack b r b' :
  take c q no_ack b = (r, b') →
  drained q b b' ∧ consumers b' = consumers b ∧ buffers b' = buffers b ∧
  match r with
  | inr (Some m) => queue b q = m :: queue b' q ∧ (no_ack = true → unacked b' = unacked b)
  | inr None => b' = b ∧ queue b q = []
  | inl _ => False
  end.
Proof.
  unfold take. destruct (queue b q) as [|m ms] eqn:Hq; intros [= <- <-].
  { split; [by apply unmoved_drained|done]. }
  assert (∀ k, queue (if no_ack then with_queues b (<[q := ms]> (queues b))
      else with_unacked (with_queues b (<[q := ms]> (queues b))) c (unsettled b c ++ [(q, m)])) k =
    if decide (k = q) then ms else queue b k) as Hk
    by (intros k; rewrite <- (queue_insert b q ms k); by destruct no_ack).
  split_and!; [|by destruct no_ack..| |by intros ->].
  - split; simpl; [exists [m]|intros k Hne]; rewrite Hk.
    + by rewrite decide_True, Hq.
    + by rewrite decide_False.
  - by rewrite Hk, decide_True.
Qed.

Lemma give_back_none qs : give_back qs [] = qs.
Proof. done. Qed.

#[export] Instance laws : AmqpQueueLaws Broker.
Proof.
  split; simpl.
  - intros _ _ _ _ _ b b' r. unfold create. intros [= <- <-]. split; [done|].
    intros c [= <-]. unfold buffer, unsettled. simpl. by rewrite !lookup_delete_eq.
  - intros c q b b' r [= <- <-]. split_and!; [|done|done|].
    + intros k. simpl. rewrite queue_insert. by case_decide; subst.
    + intros _. simpl. by rewrite lookup_insert_eq.
  - intros c q m b b' r [= <- <-] [ms Hq]. rewrite Hq. split.
    + intros k Hk. by rewrite queue_insert, decide_False.
    + left. rewrite queue_insert, decide_True by done. unfold queue. by rewrite Hq.
  - intros c q no_ack b b' r Ht. pose proof (take_effect _ _ _ _ _ _ Ht) as (Hd & _ & _ & Hr).
    split; [done|]. destruct r as [what|[m|]]; [done| |].
    + destruct Hr as [Hq Hu]. split; [done|]. intros Hn. unfold unsettled.
      by rewrite Hu by eauto.
    + destruct Hr as [-> _]. done.
  - intros c q no_ack b b' r. unfold consume. intros [= <- <-]. destruct no_ack.
    + assert (∀ k, queue (with_queues (with_buffer (mkBroker (clock b) (next_channel b)
          (queues b) (<[c := (q, true)]> (consumers b)) (buffers b) (unacked b)) c
          (buffer b c ++ queue b q)) (<[q := []]> (queues b))) k =
        if decide (k = q) then [] else queue b k) as Hk
        by (intros k; unfold queue; simpl; case_decide; by simplify_map_eq).
      split_and!; [split| | |].
      * exists (queue b q). simpl. rewrite Hk, decide_True by done. by rewrite app_nil_r.
      * intros k Hne. simpl. rewrite Hk. by rewrite decide_False.
      * done.
      * done.
      * intros tag [= <-]. rewrite decide_True by done. simpl. rewrite lookup_insert_eq.
        split_and!; [done| |done]. unfold stream. simpl. rewrite Hk, decide_True by done.
        unfold buffer. simpl. rewrite lookup_insert_eq. simpl. by rewrite app_nil_r.
    + split_and!; [by apply unmoved_drained|done|done|].
      intros tag [= <-]. rewrite decide_True by done. simpl. by rewrite lookup_insert_eq.
  - intros c tag q no_ack ms b b' r. case_decide; [|done]. intros Hc. unfold consume_message.
    rewrite Hc. unfold stream. simpl. destruct (buffer b c) as [|m rest] eqn:Hb.
    + destruct (queue b q) as [|m rest] eqn:Hq.
      { intros [= <- <-]. split_and!; [done|by apply unmoved_drained| | |done].
        - unfold wait, buffer, queue in *. simpl. by rewrite Hb, Hq.
        - intros _. by unfold buffer. }
      intros Ht. pose proof (take_effect _ _ _ _ _ _ Ht) as (Hd & Hcons & Hbuf & Hr).
      unfold buffer in *. rewrite Hcons, Hbuf, Hb. simpl.
      destruct r as [what|[m'|]]; [done| |by destruct Hr; congruence].
      destruct Hr as [Hr Hu]. split_and!; [done..| |done|].
      * by rewrite <- Hr.
      * intros Hn. unfold unsettled. by rewrite Hu by eauto.
    + destruct no_ack; intros [= <- <-].
      * split_and!; [done|by apply unmoved_drained| |done|done].
        unfold buffer, queue. simpl. by rewrite lookup_insert_eq.
      * split_and!; [done|by apply unmoved_drained|done|done|done].
  - intros c tag q no_ack b b' r _ [= <- <-]. split; [by apply unmoved_drained|done].
  - intros c d b b' r [= <- <-]. done.
  - intros c b Ho k. simpl. unfold close, queue. simpl.
    destruct (unsettled b c); [done|]. by simpl in Ho.
Qed.

#[export] Instance up_laws : AmqpUpLaws Broker.
Proof.
  refine {| up _ := True |}; simpl; eauto.
  - intros c q no_ack b _ Hq. unfold take. destruct (queue b q) as [|m ms]; [done|].
    by eexists _, _.
  - intros c tag q no_ack ms b _. case_decide; [|done]. intros Hc Hp _ Hs.
    unfold consume_message, stream in *. simpl in *. rewrite Hc.
    destruct (buffer b c) as [|m rest].
    + unfold take. destruct (queue b q) as [|m ms']; [done|]. by eexists _, _.
    + destruct no_ack; [by eexists _, _|]. by specialize (Hp eq_refl).
Defined.

#[export] Instance requeue_laws : AmqpRequeueLaws Broker.
Proof.
  split; simpl.
  - intros c q d b b'. unfold take. destruct (queue b q) as [|m ms]; [done|].
    intros [= <- <-]. unfold unsettled at 1. simpl. by rewrite lookup_insert_eq.
  - intros c tag q ms d b b'. case_decide; [|done]. intros Hc. unfold consume_message. rewrite Hc.
    destruct (buffer b c); [|done]. destruct (queue b q) as [|m rest] eqn:Hq; [done|].
    unfold take. rewrite Hq. intros [= <- <-]. unfold unsettled at 1. simpl.
    by rewrite lookup_insert_eq.
  - intros c q m b Ho. unfold close, queue. simpl. rewrite Ho. simpl.
    split; [by rewrite lookup_insert_eq|]. intros k Hk. by rewrite lookup_insert_ne.
Qed.

#[export] Instance push_laws : AmqpPushLaws Broker.
Proof.
  split. intros c q tag b b'. simpl. unfold consume. intros [= <- <-].
  unfold queue. simpl. by rewrite lookup_insert_eq.
Qed.

(** A transport that has just been made. *)
Definition fresh : @World Broker client :=
  createTransport default_options [] (mkBroker 0 0 ∅ ∅ ∅ ∅).
Definition text (s : string) : Envelope := mkEnvelope s "" ∅ "" None.
End Eager.
Import (hints) Eager.

(** A queue with a backlog of three. *)
Definition backlogged : @World Eager.Broker Eager.client :=
  createTransport default_options []
    (Eager.mkBroker 0 0 {["q" := toBasicMessage <$> [Eager.text "a"; Eager.text "b"; Eager.text "c"]]}
       ∅ ∅ ∅).

Lemma backlogged_running : running backlogged.
Proof. split; [reflexivity|]. eexists. split; reflexivity. Qed.

Lemma auto_receive_loses_burst_witness :
  ∃ msg w', receive tt (mkAddress "q") (mkReceiveArgs (Some 500) Auto) backlogged = Some (inr msg, w') ∧
    envelope msg = Eager.text "a" ∧ queued (broker w') "q" = [].
Proof.
  destruct (auto_receive_loses_burst "q" (mkReceiveArgs (Some 500) Auto)
    (toBasicMessage (Eager.text "a")) (toBasicMessage <$> [Eager.text "b"; Eager.text "c"]) backlogged)
    as (msg & w' & Hr & He & Hq & _);
    [exact backlogged_running|exact I|discriminate|discriminate|reflexivity|].
  exists msg, w'. split; [exact Hr|]. split; [exact He|exact Hq].
Defined.

#[local] Instance payload_codec : Codec string unit :=
  {| encode s := inr (Eager.text s); decode e := inr (payload e) |}.

Lemma manual_receive_repeats_witness :
  ∃ w', Messenger.receive_n (Format := unit) (A := string) tt (mkAddress "q") default_receive_args 3
      backlogged = Some ([inr "a"; inr "a"; inr "a"], w') ∧
    queued (broker w') "q" = queued (broker backlogged) "q".
Proof.
  destruct (manual_receive_repeats (Format := unit) (A := string) "q" default_receive_args
    (toBasicMessage (Eager.text "a")) (toBasicMessage <$> [Eager.text "b"; Eager.text "c"])
    backlogged 3) as (w' & Hr & _ & _ & Hq);
    [exact backlogged_running|exact I|discriminate|exact I|reflexivity|reflexivity|].
  exists w'. split; [exact Hr|apply Hq].
Defined.

Definition by_hand : list Op :=
  [OSend (Eager.text "a") default_send_args;
   OReceive (mkReceiveArgs (Some 500) Manual); OAck 0].

Lemma by_hand_accepted :
  (λ r, (accepted r.1, received r.1)) <$> converse "q" by_hand Eager.fresh =
  Some ([Eager.text "a"], [Eager.text "a"]).
Proof. vm_compute. reflexivity. Qed.

Lemma conversation_fifo_witness :
  ∃ evs w stored, converse "q" by_hand Eager.fresh = Some (evs, w) ∧
    received evs = [Eager.text "a"] ∧ [Eager.text "a"] `sublist_of` stored ∧
    received evs ++ waiting w "q" = waiting Eager.fresh "q" ++ (normalise <$> stored).
Proof.
  pose proof by_hand_accepted as Hrun.
  destruct (converse "q" by_hand Eager.fresh) as [[evs w]|] eqn:Hc; [|discriminate Hrun].
  injection Hrun as Ha Hr. 
  destruct (conversation_fifo (B := Eager.Broker) Eager.client_messages "q" by_hand Eager.fresh
    evs w Hc) as (stored & Hs & _ & _ & Heq).
  simpl in Ha. rewrite Ha in Hs.
  exists evs, w, stored. split; [reflexivity|]. split; [exact Hr|]. split; [exact Hs|].
  exact (Heq eq_refl).
Defined.
