(* ===== verification/Service.v ===== *)
(** * The service workers (qoffload/QOffload.hpp, src/QOffload.cpp)

    The three workers as threads over the shared task store and forwarder.  A
    step is one critical section of the store, one [fetch_add], one received or
    one sent message; everything between is local to a worker.  A send that
    fails is logged and otherwise handled like one that succeeds, so the label
    of a send carries whether the transport accepted it. *)

From S2P Require Import Prelude Protocol TaskStore QOffloadConfig ResourceRegistry Forward ControlProtocol Control.

(** ** Worker states *)

(** Task worker: between [receive] and the forwarding [send]. *)
Inductive TaskPc :=
  | TIdle
  | TReceived (request : QuantumTask)
  | TRegister (id : Z) (request : QuantumTask)
  | TSend (forwarded : QuantumTask).

(** Control worker; the request is kept for the protocol and the reply queue. *)
Inductive ControlPc :=
  | CIdle
  | CExec (request : APIRequest)
  | CRegister (id : Z) (c : CreateQuantumTaskCommand) (request : APIRequest)
  | CTake (id : Z) (reason : bool) (request : APIRequest)
  | CForward (task : QuantumTask) (result : ControlResult) (request : APIRequest)
  | CReply (result : ControlResult) (request : APIRequest).

(** Result worker: inside [processResult] and before the mapped result is sent. *)
Inductive ResultPc :=
  | RIdle
  | RReceived (result : QuantumResult)
  | RStore (pending : PendingTask) (result : QuantumResult)
  | RDeliver (pending : PendingTask) (result : QuantumResult).

Record Sys := mkSys {
  store : TaskStore;
  forwarder : Forward;
  task_pc : TaskPc;
  control_pc : ControlPc;
  result_pc : ResultPc;
}.

Definition initial (uid : Z) : Sys :=
  mkSys empty_store (new_forward uid) TIdle CIdle RIdle.

Inductive Label :=
  | LReceive                                     (** a message is received *)
  | LIssue (id : Z)                              (** [nextTaskId] *)
  | LRegister (id : Z) (request : QuantumTask)   (** [addDirectTask] *)
  | LCreated (id : Z)                            (** [addControlTask] *)
  | LStatus (id : Z) (st : TaskStatus)           (** a status query *)
  | LFetch (id : Z) (r : option CompletedControlTask)
  | LCommand                                     (** any other command *)
  | LTaken (id : Z) (p : PendingTask)            (** [takePending] *)
  | LUnknown (id : Z)
  | LStored (id : Z)                             (** [storeCompletedControlTask] *)
  | LDeliver (id : Z) (dest : string) (result : QuantumResult) (accepted : bool)
  | LForwarded (task : QuantumTask) (accepted : bool)
  | LResponse (r : APIResponse) (accepted : bool).

(** The command a request is decoded to, and the response to its result. *)
Definition command_of (request : APIRequest) : ControlCommand :=
  command (decode (controlProtocolFor request) request).
Definition response_to (request : APIRequest) (r : ControlResult) : APIResponse :=
  encode (controlProtocolFor request) r (APIRequest.response_queue request).

(** The result of a taken entry. *)
Definition fetched (reason : bool) (r : option CompletedControlTask) : ControlResult :=
  match r with
  | None => ControlError "JOB NOT FOUND"
  | Some task => if reason then CancelReasonResult (cancel_reason task)
                 else TaskResultResult task
  end.

(** Commands that neither create a task nor name one. *)
Definition simple_command (cmd : ControlCommand) (tasks : TaskStore)
    (resources : ResourceRegistry) : option ControlResult :=
  match cmd with
  | ListResources => Some (handle_ListResources tasks resources).1
  | GetResourceInfo n => Some (handle_GetResourceInfo tasks resources n).1
  | QueryPendingTasks n => Some (handle_QueryPendingTasks tasks resources n).1
  | InvalidControl m => Some (handle_InvalidControl tasks m).1
  | _ => None
  end.

(** The task identifier and kind of a fetching command. *)
Definition fetch_command (cmd : ControlCommand) : option (Z * bool) :=
  match cmd with
  | GetTaskResult id => Some (id, false)
  | GetCancelReason id => Some (id, true)
  | _ => None
  end.

Section Steps.
Context (config : Config) (resources : ResourceRegistry).

(** The message a direct task is forwarded as, once it has its identifier. *)
Definition forwarded_message (id : Z) (request : QuantumTask) : QuantumTask :=
  let t := QuantumTask.set_task_id (to_int32 id) request in
  let t := QuantumTask.set_result_destination
             (QOffloadConfig.result (queues config)) t in
  if hpc_node (policy config) then QuantumTask.set_priority 1 t else t.

Definition pending_of (id : Z) (request : QuantumTask) : PendingTask :=
  mkPendingTask DirectTask id (to_uint64 (QuantumTask.task_id request))
    (QuantumTask.result_destination request).

Definition mapped_result (p : PendingTask) (result : QuantumResult) : QuantumResult :=
  QuantumResult.set_destination (original_result_destination p)
    (QuantumResult.set_task_id (to_int32 (original_task_id p)) result).

Inductive step : Sys → Label → Sys → Prop :=
  (* the task worker *)
  | step_task_receive st f c r request :
      task_wf request →
      step (mkSys st f TIdle c r) LReceive (mkSys st f (TReceived request) c r)
  | step_task_issue st f c r request :
      step (mkSys st f (TReceived request) c r) (LIssue (nextTaskId f).1)
        (mkSys st (nextTaskId f).2 (TRegister (nextTaskId f).1 request) c r)
  | step_task_register st f c r id request :
      step (mkSys st f (TRegister id request) c r) (LRegister id request)
        (mkSys (addDirectTask (pending_of id request) st) f
           (TSend (forwarded_message id request)) c r)
  | step_task_send st f c r t accepted :
      step (mkSys st f (TSend t) c r) (LForwarded t accepted) (mkSys st f TIdle c r)
  (* the control worker *)
  | step_control_receive st f t r request :
      step (mkSys st f t CIdle r) LReceive (mkSys st f t (CExec request) r)
  | step_control_issue st f t r request cmd :
      command_of request = CreateQuantumTask cmd →
      step (mkSys st f t (CExec request) r) (LIssue (nextTaskId f).1)
        (mkSys st (nextTaskId f).2 t (CRegister (nextTaskId f).1 cmd request) r)
  | step_control_create st f t r id cmd request :
      let task := created_task cmd config id in
      step (mkSys st f t (CRegister id cmd request) r) (LCreated id)
        (mkSys (addControlTask id st) f t
           (CForward task (TaskCreatedResult (to_uint64 (QuantumTask.task_id task)))
              request) r)
  | step_control_forward st f t r task result request accepted :
      step (mkSys st f t (CForward task result request) r) (LForwarded task accepted)
        (mkSys st f t (CReply result request) r)
  | step_control_status st f t r id request :
      command_of request = GetTaskStatus id →
      step (mkSys st f t (CExec request) r) (LStatus id (status id st))
        (mkSys st f t (CReply (TaskStatusResult (status id st)) request) r)
  | step_control_waiting st f t r id reason request :
      fetch_command (command_of request) = Some (id, reason) →
      status id st = Waiting →
      step (mkSys st f t (CExec request) r) (LStatus id Waiting)
        (mkSys st f t (CReply (ControlError "JOB IS WAITING") request) r)
  | step_control_checked st f t r id reason request :
      fetch_command (command_of request) = Some (id, reason) →
      status id st ≠ Waiting →
      step (mkSys st f t (CExec request) r) (LStatus id (status id st))
        (mkSys st f t (CTake id reason request) r)
  | step_control_take st f t r id reason request task st' :
      takeCompletedControlTask id st = (task, st') →
      step (mkSys st f t (CTake id reason request) r) (LFetch id task)
        (mkSys st' f t (CReply (fetched reason task) request) r)
  | step_control_other st f t r request result :
      simple_command (command_of request) st resources = Some result →
      step (mkSys st f t (CExec request) r) LCommand
        (mkSys st f t (CReply result request) r)
  | step_control_reply st f t r result request accepted :
      APIRequest.response_queue request ≠ "" →
      step (mkSys st f t (CReply result request) r)
        (LResponse (response_to request result) accepted) (mkSys st f t CIdle r)
  | step_control_no_reply st f t r result request :
      APIRequest.response_queue request = "" →
      step (mkSys st f t (CReply result request) r) LCommand (mkSys st f t CIdle r)
  (* the result worker *)
  | step_result_receive st f t c result :
      result_wf result →
      step (mkSys st f t c RIdle) LReceive (mkSys st f t c (RReceived result))
  | step_result_unknown st f t c result :
      let id := to_uint64 (QuantumResult.task_id result) in
      (takePending id st).1 = None →
      step (mkSys st f t c (RReceived result)) (LUnknown id) (mkSys st f t c RIdle)
  | step_result_take st f t c result p st' :
      let id := to_uint64 (QuantumResult.task_id result) in
      takePending id st = (Some p, st') →
      step (mkSys st f t c (RReceived result)) (LTaken id p)
        (mkSys st' f t c (match kind p with
                          | ControlTask => RStore p result
                          | DirectTask => RDeliver p result
                          end))
  | step_result_store st f t c p result :
      step (mkSys st f t c (RStore p result)) (LStored (forwarded_task_id p))
        (mkSys (storeCompletedControlTask (completed_of_result p result) st) f t c RIdle)
  | step_result_deliver st f t c p result accepted :
      step (mkSys st f t c (RDeliver p result))
        (LDeliver (forwarded_task_id p) (original_result_destination p)
           (mapped_result p result) accepted)
        (mkSys st f t c RIdle).


(** ** Counting events *)

Definition count (P : Label → bool) (tr : list Label) : nat :=
  length (List.filter P tr).

Lemma count_snoc P tr l :
  count P (tr ++ [l]) = (count P tr + (if P l then 1 else 0))%nat.
Proof.
  unfold count. rewrite List.filter_app, length_app. simpl. by destruct (P l).
Qed.

Lemma count_pos P tr l : l ∈ tr → P l = true → (0 < count P tr)%nat.
Proof.
  intros Hin HP. unfold count.
  assert (l ∈ List.filter P tr) as Hf
    by (apply list_elem_of_In, filter_In; by rewrite <-list_elem_of_In).
  destruct (List.filter P tr); [by apply elem_of_nil in Hf|simpl; lia].
Qed.

Definition is_issue (l : Label) : bool :=
  match l with LIssue _ => true | _ => false end.
Definition issues (id : Z) (l : Label) : bool :=
  match l with LIssue i => bool_decide (i = id) | _ => false end.
Definition registers (id : Z) (l : Label) : bool :=
  match l with LRegister i _ | LCreated i => bool_decide (i = id) | _ => false end.
Definition takes (id : Z) (l : Label) : bool :=
  match l with LTaken i _ => bool_decide (i = id) | _ => false end.
Definition finishes (id : Z) (l : Label) : bool :=
  match l with
  | LStored i | LDeliver i _ _ _ => bool_decide (i = id)
  | _ => false
  end.

(** One when the condition holds. *)
Definition one (P : Prop) `{Decision P} : nat := if decide P then 1%nat else 0%nat.

(** Workers holding the identifier: not yet registered, or not yet finished. *)
Definition holds_task (id : Z) (pc : TaskPc) : nat :=
  match pc with TRegister i _ => one (i = id) | _ => 0%nat end.
Definition holds_control (id : Z) (pc : ControlPc) : nat :=
  match pc with CRegister i _ _ => one (i = id) | _ => 0%nat end.
Definition holds_result (id : Z) (pc : ResultPc) : nat :=
  match pc with
  | RStore p _ | RDeliver p _ => one (forwarded_task_id p = id)
  | _ => 0%nat
  end.

Lemma count_zero P tr : (∀ l, l ∈ tr → P l = false) → count P tr = 0%nat.
Proof.
  induction tr as [|l tr IH]; intros H; [done|]. unfold count in *. simpl.
  rewrite (H l) by (by left). apply IH. intros l' ?. apply H. by right.
Qed.

Lemma count_le_length P tr : (count P tr <= length tr)%nat.
Proof. unfold count. induction tr as [|l tr IH]; simpl; [lia|]. destruct (P l); simpl; lia. Qed.

Lemma elem_snoc_mono (l l' : Label) tr : l ∈ tr → l ∈ tr ++ [l'].
Proof. intros. apply elem_of_app. by left. Qed.
Lemma elem_snoc_last (l : Label) tr : l ∈ tr ++ [l].
Proof. apply elem_of_app. right. by left. Qed.
Hint Resolve elem_snoc_mono elem_snoc_last : mqss.

Notation runs uid tr s := (run step (initial uid) tr s).

(** *** Identifiers: the index counts the issued ones, which are distinct *)

Record Issued (uid : Z) (tr : list Label) (s : Sys) : Prop := {
  issued_uid : instance_uid_ (forwarder s) = uid;
  issued_index : next_task_index_ (forwarder s) = Z.of_nat (count is_issue tr);
  issued_ids id : LIssue id ∈ tr →
    ∃ k, 0 <= k < Z.of_nat (count is_issue tr) ∧ id = id_of uid k;
  issued_once id : (count (issues id) tr <= 1)%nat;
}.

(** Fewer than 2^60 steps: the bound below which identifiers are distinct. *)
Definition short (tr : list Label) : Prop := Z.of_nat (length tr) < 2 ^ 60.

Lemma short_prefix tr l : short (tr ++ [l]) → short tr.
Proof. unfold short. rewrite length_app. lia. Qed.

Lemma nextTaskId_small uid n :
  0 <= n < 2 ^ 60 →
  (nextTaskId (mkForward uid n)).1 = id_of uid n ∧
  (nextTaskId (mkForward uid n)).2 = mkForward uid (n + 1).
Proof.
  intros Hn. split; [apply nextTaskId_id|]. unfold nextTaskId. simpl. f_equal.
  apply to_uint64_id. unfold is_uint64. lia.
Qed.

Lemma id_of_small_inj uid i j :
  0 <= i < 2 ^ 60 → 0 <= j < 2 ^ 60 → id_of uid i = id_of uid j → i = j.
Proof.
  intros Hi Hj Heq. unfold id_of, to_uint64 in Heq.
  apply (index_congr (2 ^ 60) uid i j) in Heq; [|done..].
  by rewrite !Z.mod_small in Heq by lia.
Qed.

Lemma issues_zero id tr : LIssue id ∉ tr → count (issues id) tr = 0%nat.
Proof.
  intros Hn. apply count_zero. intros [] Hin; try done. simpl.
  apply bool_decide_false. by intros ->.
Qed.

(** Steps that issue nothing leave the invariant alone. *)
Lemma issued_frame uid tr l s s' :
  is_issue l = false → forwarder s' = forwarder s →
  Issued uid tr s → Issued uid (tr ++ [l]) s'.
Proof.
  intros Hl Hf [Hu Hx Hi Ho].
  assert (∀ id, issues id l = false) as Hli by (intros id; by destruct l).
  split; rewrite ?Hf, ?count_snoc, ?Hl, ?Nat.add_0_r; [done|done| |].
  - intros id [Hin|Hin]%elem_of_app; [auto|].
    apply list_elem_of_singleton in Hin as <-. done.
  - intros id. by rewrite count_snoc, Hli, Nat.add_0_r.
Qed.

Lemma issued_step uid tr f s s' :
  short (tr ++ [LIssue (nextTaskId f).1]) →
  forwarder s = f → forwarder s' = (nextTaskId f).2 →
  Issued uid tr s → Issued uid (tr ++ [LIssue (nextTaskId f).1]) s'.
Proof.
  intros Hs Hf Hf' [Hu Hx Hi Ho]. set (n := Z.of_nat (count is_issue tr)) in *.
  assert (0 <= n < 2 ^ 60) as Hn.
  { pose proof (count_le_length is_issue tr). apply short_prefix in Hs. unfold short in Hs. lia. }
  assert (f = mkForward uid n) as -> by (subst f; destruct (forwarder s); simpl in *; by subst).
  destruct (nextTaskId_small uid n Hn) as [Hid Hnext]. rewrite Hid in *.
  assert (LIssue (id_of uid n) ∉ tr) as Hnew.
  { intros (k & Hk & Heq)%Hi. apply id_of_small_inj in Heq; lia. }
  split; rewrite ?Hf', ?Hnext, ?count_snoc; simpl; [done|lia| |].
  - intros id [Hin|Hin]%elem_of_app.
    + destruct (Hi _ Hin) as (k & Hk & ->). exists k. split; [unfold n in *; lia|done].
    + apply list_elem_of_singleton in Hin. injection Hin as ->. exists n.
      split; [unfold n in *; lia|done].
  - intros id. rewrite count_snoc. simpl. case_bool_decide as Hd.
    + subst. by rewrite issues_zero.
    + rewrite Nat.add_0_r. apply Ho.
Qed.

Lemma runs_issued uid tr s : runs uid tr s → short tr → Issued uid tr s.
Proof.
  intros Hr. pattern tr, s. revert tr s Hr. apply run_invariant.
  - intros _. split; simpl; [done|done| |intros; unfold count; simpl; lia].
    intros id Hin. by apply elem_of_nil in Hin.
  - intros tr s l s' _ IH Hstep Hs. specialize (IH (short_prefix _ _ Hs)).
    destruct Hstep; first [ eapply issued_frame; [..|exact IH]; done
                          | eapply issued_step; [exact Hs|..|exact IH]; done ].
Qed.

(** *** Provenance: where the entries of the store come from *)

Definition came_from (tr : list Label) (id : Z) (p : PendingTask) : Prop :=
  match kind p with
  | DirectTask => ∃ request, LRegister id request ∈ tr ∧ p = pending_of id request
  | ControlTask => LCreated id ∈ tr ∧ p = mkPendingTask ControlTask id id ""
  end.

Record Provenance (tr : list Label) (s : Sys) : Prop := {
  prov_pending id p : pending_ (store s) !! id = Some p → came_from tr id p;
  prov_completed id c : completed_control_tasks_ (store s) !! id = Some c →
    task_id c = id ∧ LCreated id ∈ tr;
  prov_task : match task_pc s with
              | TReceived request | TRegister _ request => task_wf request
              | _ => True
              end;
  prov_result : match result_pc s with
                | RStore p _ => kind p = ControlTask ∧ came_from tr (forwarded_task_id p) p
                | RDeliver p _ => kind p = DirectTask ∧ came_from tr (forwarded_task_id p) p
                | _ => True
                end;
  prov_registered id request : LRegister id request ∈ tr → task_wf request;
  prov_delivered id dest result accepted : LDeliver id dest result accepted ∈ tr →
    ∃ request, LRegister id request ∈ tr ∧
      dest = QuantumTask.result_destination request ∧
      QuantumResult.destination result = dest ∧
      QuantumResult.task_id result = QuantumTask.task_id request;
}.

Lemma came_from_mono tr l id p : came_from tr id p → came_from (tr ++ [l]) id p.
Proof.
  unfold came_from. destruct (kind p).
  - intros (r & Hr & ->). eauto with mqss.
  - intros [Hc ->]. auto with mqss.
Qed.
Hint Resolve came_from_mono : mqss.

Lemma came_from_id tr id p : came_from tr id p → forwarded_task_id p = id.
Proof.
  unfold came_from. destruct (kind p); [intros (?&?&->)|intros [? ->]]; done.
Qed.

Lemma elem_snoc_other (l l' : Label) tr : l ∈ tr ++ [l'] → l ≠ l' → l ∈ tr.
Proof.
  intros [Hin|Hin]%elem_of_app Hne; [done|]. by apply list_elem_of_singleton in Hin.
Qed.

(** A step that leaves the store and the result worker alone, and registers
    and delivers nothing. *)
Lemma prov_frame tr l s s' :
  (match l with LRegister _ _ | LDeliver _ _ _ _ => False | _ => True end) →
  store s' = store s → result_pc s' = result_pc s →
  (match task_pc s' with
   | TReceived request | TRegister _ request => task_wf request
   | _ => True
   end) →
  Provenance tr s → Provenance (tr ++ [l]) s'.
Proof.
  intros Hl Hst Hr Ht [Hp Hc _ Hrs Hreg Hd]. split; rewrite ?Hst, ?Hr.
  - intros id p H. eauto with mqss.
  - intros id c H. destruct (Hc id c H). auto with mqss.
  - done.
  - destruct (result_pc s); try done; destruct Hrs; auto with mqss.
  - intros id request Hin. apply (Hreg id). apply elem_snoc_other in Hin; [done|].
    by intros <-.
  - intros id dest result acc Hin. apply elem_snoc_other in Hin; [|by intros <-].
    destruct (Hd _ _ _ _ Hin) as (request & Hq & ?). exists request. auto with mqss.
Qed.

Lemma prov_register tr f c r st id request :
  Provenance tr (mkSys st f (TRegister id request) c r) →
  Provenance (tr ++ [LRegister id request])
    (mkSys (addDirectTask (pending_of id request) st) f
       (TSend (forwarded_message id request)) c r).
Proof.
  intros [Hp Hc Ht Hrs Hreg Hd]; simpl in *. split; simpl.
  - intros id' p Hl. apply lookup_insert_Some in Hl as [[<- <-]|[_ Hl]]; [|eauto with mqss].
    simpl. exists request. auto with mqss.
  - intros id' c' H. destruct (Hc id' c' H). auto with mqss.
  - done.
  - destruct r; try done; destruct Hrs; auto with mqss.
  - intros id' request' Hin. apply elem_of_app in Hin as [Hin|Hin]; [eauto|].
    apply list_elem_of_singleton in Hin. by injection Hin as -> ->.
  - intros id' dest result acc Hin. apply elem_snoc_other in Hin; [|done].
    destruct (Hd _ _ _ _ Hin) as (q & Hq & ?). exists q. auto with mqss.
Qed.

Lemma prov_create tr f t st r id cmd request pc :
  Provenance tr (mkSys st f t (CRegister id cmd request) r) →
  Provenance (tr ++ [LCreated id]) (mkSys (addControlTask id st) f t pc r).
Proof.
  intros [Hp Hc Ht Hrs Hreg Hd]; simpl in *. split; simpl.
  - intros id' p Hl. apply lookup_insert_Some in Hl as [[<- <-]|[_ Hl]]; [|eauto with mqss].
    split; [apply elem_snoc_last|done].
  - intros id' c' H. destruct (Hc id' c' H). auto with mqss.
  - done.
  - destruct r; try done; destruct Hrs; auto with mqss.
  - intros id' request' Hin. apply elem_snoc_other in Hin; [eauto|done].
  - intros id' dest result acc Hin. apply elem_snoc_other in Hin; [|done].
    destruct (Hd _ _ _ _ Hin) as (q & Hq & ?). exists q. auto with mqss.
Qed.

(** Removing entries keeps provenance. *)
Lemma prov_shrink tr l f t c r st st' s :
  (match l with LRegister _ _ | LDeliver _ _ _ _ => False | _ => True end) →
  (∀ id p, pending_ st' !! id = Some p → pending_ st !! id = Some p) →
  (∀ id p, completed_control_tasks_ st' !! id = Some p →
           completed_control_tasks_ st !! id = Some p) →
  store s = st → task_pc s = t →
  (match r with
   | RStore p _ => kind p = ControlTask ∧ came_from tr (forwarded_task_id p) p
   | RDeliver p _ => kind p = DirectTask ∧ came_from tr (forwarded_task_id p) p
   | _ => True
   end) →
  Provenance tr s → Provenance (tr ++ [l]) (mkSys st' f t c r).
Proof.
  intros Hl Hsp Hsc Hst Ht Hr [Hp Hc Ht' _ Hreg Hd]. subst. split; simpl.
  - eauto with mqss.
  - intros id' c' H%Hsc. destruct (Hc id' c' H). auto with mqss.
  - done.
  - destruct r; try done; destruct Hr; auto with mqss.
  - intros id' request' Hin. apply elem_snoc_other in Hin; [eauto|by intros <-].
  - intros id' dest result acc Hin. apply elem_snoc_other in Hin; [|by intros <-].
    destruct (Hd _ _ _ _ Hin) as (q & Hq & ?). exists q. auto with mqss.
Qed.

Lemma takePending_Some id st p st' :
  takePending id st = (Some p, st') →
  pending_ st !! id = Some p ∧
  st' = mkTaskStore (delete id (pending_ st)) (completed_control_tasks_ st).
Proof. unfold takePending. destruct (pending_ st !! id); [|done]. by intros [= -> <-]. Qed.

Lemma takeCompleted_shrinks id st r st' :
  takeCompletedControlTask id st = (r, st') →
  pending_ st' = pending_ st ∧
  ∀ i c, completed_control_tasks_ st' !! i = Some c →
         completed_control_tasks_ st !! i = Some c.
Proof.
  unfold takeCompletedControlTask. destruct (completed_control_tasks_ st !! id);
    intros [= <- <-]; [|done]. split; [done|]. simpl. intros i c' H.
  by apply lookup_delete_Some in H as [_ H].
Qed.

Lemma prov_take tr f t c result st id p st' :
  takePending id st = (Some p, st') →
  Provenance tr (mkSys st f t c (RReceived result)) →
  Provenance (tr ++ [LTaken id p])
    (mkSys st' f t c (match kind p with
                      | ControlTask => RStore p result
                      | DirectTask => RDeliver p result
                      end)).
Proof.
  intros [Hl ->]%takePending_Some Hprov.
  pose proof (prov_pending _ _ Hprov _ _ Hl) as Hcame.
  pose proof (came_from_id _ _ _ Hcame) as Hid.
  eapply (prov_shrink _ _ _ _ _ _ st); [| | | | | |exact Hprov]; try done.
  - simpl. intros i p' H. by apply lookup_delete_Some in H as [_ H].
  - destruct (kind p) eqn:Hk; rewrite Hid; auto.
Qed.

Lemma prov_store tr f t c p result st :
  Provenance tr (mkSys st f t c (RStore p result)) →
  Provenance (tr ++ [LStored (forwarded_task_id p)])
    (mkSys (storeCompletedControlTask (completed_of_result p result) st) f t c RIdle).
Proof.
  intros [Hp Hc Ht Hrs Hreg Hd]; simpl in *. split; simpl; try done.
  - eauto with mqss.
  - intros id c' H. apply lookup_insert_Some in H as [[<- <-]|[_ H]].
    + destruct Hrs as [Hk Hcame]. unfold came_from in Hcame. rewrite Hk in Hcame.
      destruct Hcame as [Hcr Hp']. rewrite Hp'. simpl. rewrite Hp' in Hcr. simpl in Hcr.
      auto with mqss.
    + destruct (Hc _ _ H). auto with mqss.
  - intros id' request' Hin. apply elem_snoc_other in Hin; [eauto|done].
  - intros id' dest r' acc Hin. apply elem_snoc_other in Hin; [|done].
    destruct (Hd _ _ _ _ Hin) as (q & Hq & ?). exists q. auto with mqss.
Qed.

Lemma prov_deliver tr f t c p result st accepted :
  Provenance tr (mkSys st f t c (RDeliver p result)) →
  Provenance
    (tr ++ [LDeliver (forwarded_task_id p) (original_result_destination p)
              (mapped_result p result) accepted])
    (mkSys st f t c RIdle).
Proof.
  intros [Hp Hc Ht Hrs Hreg Hd]; simpl in *. split; simpl; try done.
  - eauto with mqss.
  - intros id c' H. destruct (Hc _ _ H). auto with mqss.
  - intros id' request' Hin. apply elem_snoc_other in Hin; [eauto|done].
  - intros id' dest r' acc Hin. apply elem_of_app in Hin as [Hin|Hin].
    + destruct (Hd _ _ _ _ Hin) as (q & Hq & ?). exists q. auto with mqss.
    + apply list_elem_of_singleton in Hin. injection Hin as -> -> -> ->.
      destruct Hrs as [Hk Hcame]. unfold came_from in Hcame. rewrite Hk in Hcame.
      destruct Hcame as (request & Hq & Hpeq). exists request.
      split; [auto with mqss|]. pose proof (Hreg _ _ Hq) as Hwf.
      rewrite Hpeq. unfold mapped_result. destruct result. simpl.
      split_and!; [done|done|]. by apply to_int32_uint64.
Qed.

Lemma runs_provenance uid tr s : runs uid tr s → Provenance tr s.
Proof.
  intros Hr. pattern tr, s. revert tr s Hr. apply run_invariant.
  - split; simpl; try done; intros *; rewrite ?lookup_empty; try done;
      intros Hin; by apply elem_of_nil in Hin.
  - intros tr s l s' _ IH Hstep. pose proof (prov_task _ _ IH) as Htask.
    destruct Hstep; simpl in Htask;
      first
        [ by apply prov_register
        | by eapply prov_create
        | eapply prov_take; eassumption
        | by apply prov_store
        | by apply prov_deliver
        | by (eapply prov_frame; [..|exact IH])
        | idtac ].
    + match goal with H : takeCompletedControlTask _ _ = _ |- _ =>
        apply takeCompleted_shrinks in H as [Hp Hc] end.
      eapply (prov_shrink _ _ _ _ _ _ st); [done| | | | | |exact IH]; try done; [by rewrite Hp|].
      exact (prov_result _ _ IH).
    + by eapply (prov_shrink _ _ _ _ _ _ st); [done| | | | | |exact IH].
    + by eapply (prov_shrink _ _ _ _ _ _ st); [done| | | | | |exact IH].
Qed.

(** *** Balance: every identifier is in one place at a time *)

Record Balance (tr : list Label) (s : Sys) : Prop := {
  bal_issue id :
    (count (registers id) tr + holds_task id (task_pc s) + holds_control id (control_pc s) =
     count (issues id) tr)%nat;
  bal_pending id :
    (one (is_Some (pending_ (store s) !! id)) + count (takes id) tr =
     count (registers id) tr)%nat;
  bal_finish id :
    (count (finishes id) tr + holds_result id (result_pc s) = count (takes id) tr)%nat;
}.

Lemma one_insert (m : gmap Z PendingTask) i x id :
  one (is_Some (<[i := x]> m !! id)) =
  if decide (i = id) then 1%nat else one (is_Some (m !! id)).
Proof.
  unfold one at 1. destruct (decide (i = id)) as [->|].
  - rewrite lookup_insert_eq, decide_True; eauto.
  - by rewrite lookup_insert_ne.
Qed.

Lemma one_delete (m : gmap Z PendingTask) i id :
  one (is_Some (delete i m !! id)) =
  if decide (i = id) then 0%nat else one (is_Some (m !! id)).
Proof.
  unfold one at 1. destruct (decide (i = id)) as [->|].
  - rewrite lookup_delete_eq, decide_False; [done|apply is_Some_None].
  - by rewrite lookup_delete_ne.
Qed.

Lemma one_true (P : Prop) `{Decision P} : P → one P = 1%nat.
Proof. unfold one. intros. by rewrite decide_True. Qed.

(** The counters of one identifier at the last step. *)
Ltac balance_split id IH :=
  split; intros id; rewrite !count_snoc; simpl;
  pose proof (bal_issue _ _ IH id) as HI; pose proof (bal_pending _ _ IH id) as HP;
  pose proof (bal_finish _ _ IH id) as HF; simpl in HI, HP, HF.
Ltac one_lia := unfold one in *; repeat case_bool_decide; repeat case_decide; lia.

Lemma balance_step tr s l s' :
  (∀ id, (count (issues id) tr <= 1)%nat) → Provenance tr s →
  step s l s' → Balance tr s → Balance (tr ++ [l]) s'.
Proof.
  intros Honce Hprov Hstep IH. destruct Hstep.
  all: try (by (balance_split id' IH; one_lia)).
  - balance_split id' IH; [one_lia| |one_lia].
    specialize (Honce id'). rewrite one_insert. one_lia.
  - balance_split id' IH; [one_lia| |one_lia].
    specialize (Honce id'). rewrite one_insert. one_lia.
  - match goal with H : takeCompletedControlTask _ _ = _ |- _ =>
      apply takeCompleted_shrinks in H as [Hp _] end.
    balance_split id' IH; rewrite ?Hp; one_lia.
  - match goal with H : takePending _ _ = _ |- _ => apply takePending_Some in H as [Hl ->] end.
    pose proof (came_from_id _ _ _ (prov_pending _ _ Hprov _ _ Hl)) as Hid.
    balance_split id' IH; [one_lia| |].
    + simpl in HP. rewrite one_delete. case_bool_decide as Hd; case_decide; try done.
      * subst id'. rewrite one_true in HP by eauto. lia.
      * lia.
    + destruct (kind p); simpl; rewrite Hid; one_lia.
Qed.

Lemma runs_balance uid tr s : runs uid tr s → short tr → Balance tr s.
Proof.
  intros Hr. pattern tr, s. revert tr s Hr. apply run_invariant.
  - intros _. by split.
  - intros tr s l s' Hr IH Hstep Hs. pose proof (short_prefix _ _ Hs) as Hs'.
    eapply balance_step; [|by eapply runs_provenance|done|by apply IH].
    apply (runs_issued _ _ _ Hr Hs').
Qed.

(** ** Properties *)

Lemma balance_bounds uid tr s id :
  runs uid tr s → short tr →
  (count (finishes id) tr <= count (takes id) tr <= 1)%nat ∧
  (one (is_Some (pending_ (store s) !! id)) + count (takes id) tr <= 1)%nat.
Proof.
  intros Hr Hs. pose proof (runs_balance _ _ _ Hr Hs) as [HI HP HF].
  pose proof (issued_once _ _ _ (runs_issued _ _ _ Hr Hs) id).
  specialize (HI id). specialize (HP id). specialize (HF id). lia.
Qed.

Lemma registers_once uid tr s id :
  runs uid tr s → short tr → (count (registers id) tr <= 1)%nat.
Proof.
  intros Hr Hs. pose proof (bal_issue _ _ (runs_balance _ _ _ Hr Hs) id).
  pose proof (issued_once _ _ _ (runs_issued _ _ _ Hr Hs) id). lia.
Qed.

(** C1. Direct results are delivered exactly once and to their owner: in any
    interleaving of the three workers (below 2^60 steps), a delivery for a
    forwarded identifier is the only one for it, the identifier is no longer
    waiting, and it was registered for a request whose result destination and
    task identifier the delivery carries. *)
Theorem direct_delivery_exactly_once uid tr s id dest result accepted :
  runs uid tr s → short tr → LDeliver id dest result accepted ∈ tr →
  count (finishes id) tr = 1%nat ∧ pending_ (store s) !! id = None ∧
  ∃ request, LRegister id request ∈ tr ∧
    dest = QuantumTask.result_destination request ∧
    QuantumResult.destination result = dest ∧
    QuantumResult.task_id result = QuantumTask.task_id request.
Proof.
  intros Hr Hs Hd. pose proof (balance_bounds _ _ _ id Hr Hs) as [Hf Hp].
  pose proof (count_pos (finishes id) tr _ Hd ltac:(simpl; by apply bool_decide_true)).
  split; [lia|]. split.
  - destruct (pending_ (store s) !! id) eqn:Hl; [|done].
    rewrite one_true in Hp by eauto. lia.
  - apply (prov_delivered _ _ (runs_provenance _ _ _ Hr) _ _ _ _ Hd).
Qed.

Lemma count_cons P l tr : count P (l :: tr) = ((if P l then 1 else 0) + count P tr)%nat.
Proof. unfold count. simpl. by destruct (P l). Qed.

(** Events that are counted at most once are the same. *)
Lemma count_unique P tr l1 l2 :
  (count P tr <= 1)%nat → l1 ∈ tr → l2 ∈ tr → P l1 = true → P l2 = true → l1 = l2.
Proof.
  induction tr as [|l tr IH]; intros Hc H1 H2 HP1 HP2; [by apply elem_of_nil in H1|].
  rewrite count_cons in Hc. apply elem_of_cons in H1 as [->|H1], H2 as [->|H2].
  - done.
  - rewrite HP1 in Hc. pose proof (count_pos P tr l2 H2 HP2). lia.
  - rewrite HP2 in Hc. pose proof (count_pos P tr l1 H1 HP1). lia.
  - apply IH; try done. lia.
Qed.

Lemma count_two P tr l1 l2 :
  l1 ∈ tr → l2 ∈ tr → l1 ≠ l2 → P l1 = true → P l2 = true → (2 <= count P tr)%nat.
Proof.
  intros H1 H2 Hne HP1 HP2. destruct (decide (count P tr <= 1)%nat) as [Hle|]; [|lia].
  by destruct (Hne (count_unique P tr l1 l2 Hle H1 H2 HP1 HP2)).
Qed.

Lemma count_elem P tr : (0 < count P tr)%nat → ∃ l, l ∈ tr ∧ P l = true.
Proof.
  induction tr as [|l tr IH]; unfold count; simpl; [lia|].
  destruct (P l) eqn:Hl; intros Hc.
  - exists l. split; [by left|done].
  - destruct (IH Hc) as (l' & ? & ?). exists l'. split; [by right|done].
Qed.

(** A stored result stays until it is fetched. *)
Lemma runs_stored uid tr s id :
  runs uid tr s → LStored id ∈ tr →
  is_Some (completed_control_tasks_ (store s) !! id) ∨ ∃ c, LFetch id (Some c) ∈ tr.
Proof.
  intros Hr. pattern tr, s. revert tr s Hr. apply run_invariant.
  { intros Hin. by apply elem_of_nil in Hin. }
  intros tr s l s' Hr IH Hstep Hin.
  assert (LStored id ∈ tr ∨ l = LStored id) as [Hin'|Heq].
  { apply elem_of_app in Hin as [|Hin]; [by left|]. apply list_elem_of_singleton in Hin. auto. }
  - destruct (IH Hin') as [Hc|[c Hc]]; [|right; exists c; auto with mqss].
    destruct Hstep; try (by left); simpl in *.
    + match goal with H : takeCompletedControlTask ?i _ = _ |- _ => rename H into Ht end.
      unfold takeCompletedControlTask in Ht.
      destruct (completed_control_tasks_ st !! id0) as [c'|] eqn:Hl; simplify_eq/=; [|by left].
      destruct (decide (id0 = id)) as [->|].
      * right. exists c'. apply elem_snoc_last.
      * left. by rewrite lookup_delete_ne.
    + match goal with H : takePending _ _ = _ |- _ => apply takePending_Some in H as [_ ->] end.
      by left.
    + left. destruct (decide (original_task_id p = id)) as [->|].
      * rewrite lookup_insert_eq. eauto.
      * by rewrite lookup_insert_ne.
  - subst l. left. inversion Hstep; subst; simpl.
    pose proof (prov_result _ _ (runs_provenance _ _ _ Hr)) as Hres. simpl in Hres.
    destruct Hres as [Hk Hcame]. unfold came_from in Hcame. rewrite Hk in Hcame.
    destruct Hcame as [_ Hp].
    assert (original_task_id p = forwarded_task_id p) as -> by (by rewrite Hp).
    rewrite lookup_insert_eq. eauto.
Qed.

(** A stored result was stored by the result worker. *)
Lemma runs_completed uid tr s id c :
  runs uid tr s → completed_control_tasks_ (store s) !! id = Some c → LStored id ∈ tr.
Proof.
  intros Hr. revert id c. pattern tr, s. revert tr s Hr. apply run_invariant.
  { intros id c H. simpl in H. by rewrite lookup_empty in H. }
  intros tr s l s' Hr IH Hstep id c Hc.
  destruct Hstep; simpl in *; try (by eapply elem_snoc_mono, IH).
  - match goal with H : takeCompletedControlTask _ _ = _ |- _ =>
      apply takeCompleted_shrinks in H as [_ Hsh] end.
    eapply elem_snoc_mono, IH, Hsh, Hc.
  - match goal with H : takePending _ _ = _ |- _ => apply takePending_Some in H as [_ ->] end.
    by eapply elem_snoc_mono, IH.
  - apply lookup_insert_Some in Hc as [[<- _]|[_ Hc]]; [|by eapply elem_snoc_mono, IH].
    pose proof (prov_result _ _ (runs_provenance _ _ _ Hr)) as Hres. simpl in Hres.
    destruct Hres as [Hk Hcame]. unfold came_from in Hcame. rewrite Hk in Hcame.
    destruct Hcame as [_ Hp].
    assert (original_task_id p = forwarded_task_id p) as -> by (by rewrite Hp).
    apply elem_snoc_last.
Qed.

(** An identifier is registered for one purpose only. *)
Lemma created_not_registered uid tr s id request :
  runs uid tr s → short tr → LCreated id ∈ tr → LRegister id request ∉ tr.
Proof.
  intros Hr Hs Hc Hg. pose proof (registers_once _ _ _ id Hr Hs).
  assert (2 <= count (registers id) tr)%nat; [|lia].
  by eapply count_two; [exact Hc|exact Hg|..]; simpl; try apply bool_decide_true.
Qed.

Lemma registered_one_request uid tr s id q q' :
  runs uid tr s → short tr → LRegister id q ∈ tr → LRegister id q' ∈ tr → q = q'.
Proof.
  intros Hr Hs Hq Hq'.
  assert (LRegister id q = LRegister id q') as [= ->]; [|done].
  eapply count_unique; [by eapply registers_once|done..| |]; simpl; by apply bool_decide_true.
Qed.

(** Only results of control tasks are stored. *)
Lemma stored_created uid tr s id : runs uid tr s → LStored id ∈ tr → LCreated id ∈ tr.
Proof.
  intros Hr. pattern tr, s. revert tr s Hr. apply run_invariant.
  { intros Hin. by apply elem_of_nil in Hin. }
  intros tr s l s' Hr IH Hstep [Hin|Hin]%elem_of_app; [by apply elem_snoc_mono, IH|].
  apply list_elem_of_singleton in Hin. subst l. inversion Hstep; subst.
  pose proof (prov_result _ _ (runs_provenance _ _ _ Hr)) as [Hk Hcame].
  unfold came_from in Hcame. rewrite Hk in Hcame. by apply elem_snoc_mono, Hcame.
Qed.

(** C2. A control task never gets lost: once created, in any interleaving, its
    status is waiting exactly under its own registration, completed or
    cancelled only after its result was stored, and not found only after the
    result was handed out or while the result worker, having taken the task
    out of the waiting ones, has not yet stored its result. *)
Theorem control_task_not_lost uid tr s id :
  runs uid tr s → short tr → LCreated id ∈ tr →
  match status id (store s) with
  | Waiting => pending_ (store s) !! id = Some (mkPendingTask ControlTask id id "")
  | Completed | Cancelled => LStored id ∈ tr
  | NotFound => (∃ c, LFetch id (Some c) ∈ tr) ∨
                (∃ p r, result_pc s = RStore p r ∧ forwarded_task_id p = id)
  end.
Proof.
  intros Hr Hs Hc. pose proof (runs_balance _ _ _ Hr Hs) as [_ HP HF].
  specialize (HP id). specialize (HF id).
  assert (∀ request, LRegister id request ∉ tr) as Hnr
    by (intros request; by eapply created_not_registered).
  pose proof (count_pos (registers id) tr _ Hc ltac:(simpl; by apply bool_decide_true)) as Hreg.
  pose proof (runs_provenance _ _ _ Hr) as Hprov.
  unfold status. case_decide as Hp.
  - destruct Hp as [p Hp]. pose proof (prov_pending _ _ Hprov _ _ Hp) as Hcame.
    unfold came_from in Hcame. destruct (kind p).
    + destruct Hcame as (request & Hq & _). by destruct (Hnr _ Hq).
    + destruct Hcame as [_ ->]. done.
  - unfold one in HP. rewrite decide_False in HP by done. simpl in HP.
    destruct (completed_control_tasks_ (store s) !! id) as [c|] eqn:Hcm.
    { pose proof (runs_completed _ _ _ _ _ Hr Hcm). by destruct (execution_status c). }
    destruct (Nat.eq_dec (count (finishes id) tr) 0) as [Hz|Hz].
    + right. rewrite Hz in HF. simpl in HF. pose proof (prov_result _ _ Hprov) as Hres.
      destruct (result_pc s) as [| |p r|p r]; simpl in HF; try lia;
        unfold one in HF; case_decide as Hid; try lia.
      * by exists p, r.
      * destruct Hres as [Hk Hcame]. unfold came_from in Hcame. rewrite Hk in Hcame.
        destruct Hcame as (request & Hq & _). rewrite Hid in Hq.
        by destruct (Hnr _ Hq).
    + left. destruct (count_elem (finishes id) tr ltac:(lia)) as (l & Hl & Hf).
      destruct l; try done; simpl in Hf; apply bool_decide_eq_true in Hf; subst.
      * destruct (runs_stored _ _ _ _ Hr Hl) as [[? Hc']|]; [|done]. by rewrite Hcm in Hc'.
      * destruct (prov_delivered _ _ Hprov _ _ _ _ Hl) as (request & Hq & _).
        by destruct (Hnr _ Hq).
Qed.

(** ** The workers run the sequential functions *)

(** Steps that neither send nor receive. *)
Definition local (l : Label) : bool :=
  match l with
  | LReceive | LForwarded _ _ | LDeliver _ _ _ _ | LResponse _ _ => false
  | _ => true
  end.

(** What a history sends out. *)
Definition deliveries (tr : list Label) : list (string * QuantumResult) :=
  omap (λ l, match l with LDeliver _ d r _ => Some (d, r) | _ => None end) tr.
Definition forwarded (tr : list Label) : list QuantumTask :=
  omap (λ l, match l with LForwarded t _ => Some t | _ => None end) tr.
Definition responses (tr : list Label) : list APIResponse :=
  omap (λ l, match l with LResponse r _ => Some r | _ => None end) tr.

Lemma forwardDirectTask_message request st f :
  forwardDirectTask request st config f =
  (forwarded_message (nextTaskId f).1 request,
   addDirectTask (pending_of (nextTaskId f).1 request) st, (nextTaskId f).2).
Proof. done. Qed.

Ltac take_step := eapply run_cons; [by econstructor|].
Ltac last_step := apply run_one; by econstructor.

Lemma task_worker_sequential st f c r request :
  task_wf request →
  let '(t, st', f') := forwardDirectTask request st config f in
  ∃ tr, run step (mkSys st f TIdle c r) tr (mkSys st' f' TIdle c r) ∧
    forwarded tr = [t].
Proof.
  intros Hwf. rewrite forwardDirectTask_message.
  exists [LReceive; LIssue (nextTaskId f).1; LRegister (nextTaskId f).1 request;
          LForwarded (forwarded_message (nextTaskId f).1 request) true].
  split; [|done]. do 3 take_step. last_step.
Qed.

Lemma result_worker_sequential st f t c result :
  result_wf result →
  let '(o, st') := processResult result st in
  ∃ tr, run step (mkSys st f t c RIdle) tr (mkSys st' f t c RIdle) ∧
    deliveries tr = match direct_result o with
                    | Some r => [(direct_result_destination o, r)]
                    | None => []
                    end.
Proof.
  intros Hwf. unfold processResult.
  destruct (takePending _ st) as [[p|] st'] eqn:Ht.
  - destruct (kind p) eqn:Hk.
    + eexists. split.
      * do 2 (eapply run_cons; [by econstructor|]). rewrite Hk.
        apply run_one, (step_result_deliver _ _ _ _ _ _ true).
      * done.
    + eexists. split.
      * do 2 (eapply run_cons; [by econstructor|]). rewrite Hk.
        apply run_one, step_result_store.
      * done.
  - assert (st' = st) as -> by (unfold takePending in Ht; by case_match; simplify_eq).
    eexists. split.
    + eapply run_cons; [by econstructor|]. apply run_one, step_result_unknown. by rewrite Ht.
    + done.
Qed.

(** The response, when the request names a queue for it. *)
Definition reply (request : APIRequest) (resp : APIResponse) : list APIResponse :=
  if decide (APIRequest.response_queue request = "") then [] else [resp].

Lemma responses_app tr1 tr2 : responses (tr1 ++ tr2) = responses tr1 ++ responses tr2.
Proof. apply omap_app. Qed.
Lemma forwarded_app tr1 tr2 : forwarded (tr1 ++ tr2) = forwarded tr1 ++ forwarded tr2.
Proof. apply omap_app. Qed.

Lemma control_reply st f t r result request :
  ∃ tr, run step (mkSys st f t (CReply result request) r) tr (mkSys st f t CIdle r) ∧
    forwarded tr = [] ∧ responses tr = reply request (response_to request result).
Proof.
  unfold reply. case_decide as Hq; eexists; (split; [|split]).
  1: by apply run_one, step_control_no_reply.
  3: by apply run_one, (step_control_reply _ _ _ _ _ _ true).
  all: done.
Qed.

(** The two steps that fetch a stored result. *)
Lemma control_fetch st f t r request id reason task st' :
  fetch_command (command_of request) = Some (id, reason) → status id st ≠ Waiting →
  takeCompletedControlTask id st = (task, st') →
  run step (mkSys st f t (CExec request) r) [LStatus id (status id st); LFetch id task]
    (mkSys st' f t (CReply (fetched reason task) request) r).
Proof.
  intros Hc Hw Ht. eapply run_cons; [by eapply step_control_checked|].
  by apply run_one, step_control_take.
Qed.

(** Once executed, a request waits for its reply, after its task has been
    forwarded if it has one. *)
Definition executed (task : option QuantumTask) (result : ControlResult) (request : APIRequest)
    : ControlPc :=
  match task with
  | Some task => CForward task result request
  | None => CReply result request
  end.

(** The command of the request is run through the steps [labels]. *)
Ltac through labels result :=
  exists labels, result; split; [by repeat constructor|split; [done|]].

(** Between the receive and the first send, control does what [process] does. *)
Lemma control_executes st f t r request :
  let '(o, st', f') := process request st config resources f in
  ∃ tr result, Forall (λ l, local l = true) tr ∧ response o = response_to request result ∧
    run step (mkSys st f t (CExec request) r) tr
      (mkSys st' f' t (executed (outbound_task o) result request) r).
Proof.
  unfold process. fold (command_of request).
  assert (∀ res, encode (controlProtocolFor request) res
            (response_queue (decode (controlProtocolFor request) request)) =
          response_to request res) as Hresp
    by (intros; unfold response_to; by rewrite controlProtocolFor_queue).
  destruct (command_of request) as [c|id|id|id| |n|n|m] eqn:Hcmd;
    cbn [executeControlCommand].
  - rewrite createControlTask_created. cbn. rewrite Hresp.
    through [LIssue (nextTaskId f).1; LCreated (nextTaskId f).1]
      (TaskCreatedResult (to_uint64
         (QuantumTask.task_id (created_task c config (nextTaskId f).1)))).
    eapply run_cons; [by eapply step_control_issue|]. apply run_one, step_control_create.
  - cbn. rewrite Hresp. through [LStatus id (status id st)] (TaskStatusResult (status id st)).
    by apply run_one, step_control_status.
  - unfold handle_GetTaskResult. case_decide as Hw.
    + cbn. rewrite Hresp. through [LStatus id Waiting] (ControlError "JOB IS WAITING").
      apply run_one. eapply step_control_waiting; [by rewrite Hcmd|done].
    + destruct (takeCompletedControlTask id st) as [[task|] st'] eqn:Ht; cbn; rewrite Hresp;
        [through [LStatus id (status id st); LFetch id (Some task)] (fetched false (Some task))
        |through [LStatus id (status id st); LFetch id None] (fetched false None)];
        apply control_fetch; by rewrite ?Hcmd.
  - unfold handle_GetCancelReason. case_decide as Hw.
    + cbn. rewrite Hresp. through [LStatus id Waiting] (ControlError "JOB IS WAITING").
      apply run_one. eapply step_control_waiting; [by rewrite Hcmd|done].
    + destruct (takeCompletedControlTask id st) as [[task|] st'] eqn:Ht; cbn; rewrite Hresp;
        [through [LStatus id (status id st); LFetch id (Some task)] (fetched true (Some task))
        |through [LStatus id (status id st); LFetch id None] (fetched true None)];
        apply control_fetch; by rewrite ?Hcmd.
  - cbn. rewrite Hresp. eexists [LCommand], _. split_and!; [by repeat constructor|done|].
    apply run_one, step_control_other. by rewrite Hcmd.
  - unfold handle_GetResourceInfo. destruct (find resources n) eqn:Hf; cbn; rewrite Hresp;
      (eexists [LCommand], _; split_and!; [by repeat constructor|done|]);
      apply run_one, step_control_other; rewrite Hcmd; simpl;
      unfold handle_GetResourceInfo; by rewrite Hf.
  - unfold handle_QueryPendingTasks. destruct (find resources n) eqn:Hf; cbn; rewrite Hresp;
      (eexists [LCommand], _; split_and!; [by repeat constructor|done|]);
      apply run_one, step_control_other; rewrite Hcmd; simpl;
      unfold handle_QueryPendingTasks; by rewrite Hf.
  - cbn. rewrite Hresp. eexists [LCommand], _. split_and!; [by repeat constructor|done|].
    apply run_one, step_control_other. by rewrite Hcmd.
Qed.

Lemma local_silent tr :
  Forall (λ l, local l = true) tr → forwarded tr = [] ∧ responses tr = [].
Proof.
  unfold forwarded, responses. induction 1 as [|l tr Hl _ [IH1 IH2]]; [done|].
  by destruct l; try discriminate Hl; split.
Qed.

Lemma control_worker_sequential st f t r request :
  let '(o, st', f') := process request st config resources f in
  ∃ tr, run step (mkSys st f t CIdle r) tr (mkSys st' f' t CIdle r) ∧
    forwarded tr = option_list (outbound_task o) ∧
    responses tr = reply request (response o).
Proof.
  pose proof (control_executes st f t r request) as Hex.
  destruct (process _ _ _ _ _) as [[o st'] f'].
  destruct Hex as (tr & result & Hl & -> & Hr). destruct (local_silent tr Hl) as [Hf Hp].
  destruct (control_reply st' f' t r result request) as (tr2 & H2 & Hf2 & Hp2).
  set (fw := (λ task, LForwarded task true) <$> option_list (outbound_task o)).
  assert (run step (mkSys st' f' t (executed (outbound_task o) result request) r) fw
            (mkSys st' f' t (CReply result request) r)) as Hfw.
  { unfold fw. destruct (outbound_task o); simpl; [|constructor].
    apply run_one, step_control_forward. }
  exists (LReceive :: (tr ++ fw) ++ tr2). split.
  - eapply run_cons; [by apply step_control_receive|]. eapply run_app; [|done].
    by eapply run_app.
  - assert (forwarded fw = option_list (outbound_task o) ∧ responses fw = []) as [Hf1 Hp1]
      by (unfold fw; by destruct (outbound_task o)).
    split.
    + change (forwarded ((tr ++ fw) ++ tr2) = option_list (outbound_task o)).
      by rewrite !forwarded_app, Hf, Hf1, Hf2, app_nil_r.
    + change (responses ((tr ++ fw) ++ tr2) = reply request (response_to request result)).
      by rewrite !responses_app, Hp, Hp1, Hp2.
Qed.

(** The interleaving model refines the sequential functions: run without
    interference, the steps of each worker have exactly the effect of
    [forwardDirectTask], [Control::process] and [processResult] on the store
    and the forwarder, and send out exactly what those return. *)
Theorem workers_run_functions st f t c r :
  (∀ request, task_wf request →
     let '(fw, st', f') := forwardDirectTask request st config f in
     ∃ tr, run step (mkSys st f TIdle c r) tr (mkSys st' f' TIdle c r) ∧
       forwarded tr = [fw]) ∧
  (∀ request,
     let '(o, st', f') := process request st config resources f in
     ∃ tr, run step (mkSys st f t CIdle r) tr (mkSys st' f' t CIdle r) ∧
       forwarded tr = option_list (outbound_task o) ∧
       responses tr = reply request (response o)) ∧
  (∀ result, result_wf result →
     let '(o, st') := processResult result st in
     ∃ tr, run step (mkSys st f t c RIdle) tr (mkSys st' f t c RIdle) ∧
       deliveries tr = match direct_result o with
                       | Some r => [(direct_result_destination o, r)]
                       | None => []
                       end).
Proof.
  split_and!; intros.
  - by apply task_worker_sequential.
  - apply control_worker_sequential.
  - by apply result_worker_sequential.
Qed.
End Steps.

(** ** Concrete runs *)

Module Example.
Definition config : Config := makeDefaultConfig (mkBuildPaths "" "" "").
Definition create : APIRequest := APIRequest.mk "" "" "" None ""
  (Some (APIRequest.create_task (CreateTaskRequest.mk 1 ["q"] "QASM2" "Q20" false))).
Definition ask_status : APIRequest := APIRequest.mk "" "" "" None ""
  (Some (APIRequest.task_status (TaskRequest.mk 7))).
Definition result : QuantumResult :=
  QuantumResult.mk 7 [mkCircuitResult {["00" := 1]}] "" true "" [] "" (S754_zero false).
Definition request : QuantumTask :=
  QuantumTask.set_task_id 42
    (QuantumTask.set_result_destination "client" QuantumTask.default_instance).

Notation runs tr s := (run (step config resources_) (initial 7) tr s).

(** A control task is created, its status asked before, between and after the
    two store operations of [processResult]. *)
Lemma control_run : ∃ tr s, runs tr s ∧ short tr ∧ LCreated 7 ∈ tr ∧
  status 7 (store s) = Completed ∧
  omap (λ l, match l with LStatus i st => Some (i, st) | _ => None end) tr =
    [(7, Waiting); (7, NotFound); (7, Completed)] ∧
  omap (λ l, match l with LFetch i _ => Some i | _ => None end) tr = [].
Proof.
  eexists _, _. split.
  - eapply run_cons; [apply (step_control_receive _ _ _ _ _ _ create)|].
    eapply run_cons; [by eapply step_control_issue|].
    eapply run_cons; [apply step_control_create|].
    eapply run_cons; [apply (step_control_forward _ _ _ _ _ _ _ _ _ true)|].
    eapply run_cons; [by apply step_control_no_reply|].
    eapply run_cons; [apply (step_control_receive _ _ _ _ _ _ ask_status)|].
    eapply run_cons; [by eapply (step_control_status _ _ _ _ _ _ 7)|].
    eapply run_cons; [by apply step_control_no_reply|].
    eapply run_cons; [by apply (step_result_receive _ _ _ _ _ _ result)|].
    eapply run_cons; [by eapply step_result_take|].
    eapply run_cons; [apply (step_control_receive _ _ _ _ _ _ ask_status)|].
    eapply run_cons; [by eapply (step_control_status _ _ _ _ _ _ 7)|].
    eapply run_cons; [by apply step_control_no_reply|].
    eapply run_cons; [apply step_result_store|].
    eapply run_cons; [apply (step_control_receive _ _ _ _ _ _ ask_status)|].
    eapply run_cons; [by eapply (step_control_status _ _ _ _ _ _ 7)|].
    apply run_one. by apply step_control_no_reply.
  - split; [reflexivity|]. split; [do 2 right; left|]. split_and!; reflexivity.
Qed.

(** A direct task is forwarded, and its result delivered. *)
Lemma direct_run : ∃ tr s, runs tr s ∧ short tr ∧
  LDeliver 7 "client"
    (mapped_result (pending_of 7 request) result) true ∈ tr.
Proof.
  eexists _, _. split.
  - eapply run_cons; [by apply (step_task_receive _ _ _ _ _ _ request)|].
    eapply run_cons; [by eapply step_task_issue|].
    eapply run_cons; [by apply step_task_register|].
    eapply run_cons; [apply (step_task_send _ _ _ _ _ _ _ true)|].
    eapply run_cons; [by apply (step_result_receive _ _ _ _ _ _ result)|].
    eapply run_cons; [by eapply step_result_take|].
    apply run_one. apply (step_result_deliver _ _ _ _ _ _ _ _ true).
  - split; [reflexivity|]. do 6 right. left.
Qed.
End Example.

Lemma direct_delivery_exactly_once_witness :
  ∃ tr s request, run (step Example.config resources_) (initial 7) tr s ∧
    LRegister 7 request ∈ tr ∧ QuantumTask.result_destination request = "client" ∧
    count (finishes 7) tr = 1%nat.
Proof.
  destruct Example.direct_run as (tr & s & Hr & Hs & Hd).
  destruct (direct_delivery_exactly_once _ _ _ _ _ _ _ _ _ Hr Hs Hd)
    as (H1 & _ & request & H2 & H3 & _).
  exists tr, s, request. split; [exact Hr|]. split; [exact H2|].
  split; [exact (eq_sym H3)|exact H1].
Defined.

Lemma control_task_not_lost_witness :
  ∃ tr s, run (step Example.config resources_) (initial 7) tr s ∧ LStored 7 ∈ tr.
Proof.
  destruct Example.control_run as (tr & s & Hr & Hs & Hc & Hst & _).
  pose proof (control_task_not_lost _ _ _ _ _ 7 Hr Hs Hc) as H.
  rewrite Hst in H. exists tr, s. split; [exact Hr|exact H].
Defined.

(** The window between the two store operations of [processResult] is
    visible: there is an interleaving in which three successive status queries
    for one control task, never fetched, answer waiting, not found and
    completed. *)
Theorem status_not_monotone : ∃ uid id tr s,
  run (step Example.config resources_) (initial uid) tr s ∧ LCreated id ∈ tr ∧
  omap (λ l, match l with LStatus i st => Some (i, st) | _ => None end) tr =
    [(id, Waiting); (id, NotFound); (id, Completed)] ∧
  omap (λ l, match l with LFetch i _ => Some i | _ => None end) tr = [].
Proof.
  destruct Example.control_run as (tr & s & Hr & _ & Hc & _ & Hq & Hf).
  by exists 7, 7, tr, s.
Qed.

Lemma workers_run_functions_witness :
  ∃ tr, run (step Example.config resources_) (mkSys empty_store (new_forward 7) TIdle CIdle RIdle)
          tr (mkSys (addDirectTask (pending_of 7 Example.request) empty_store)
                (mkForward 7 1) TIdle CIdle RIdle) ∧
    forwarded tr = [forwarded_message Example.config 7 Example.request].
Proof.
  apply (workers_run_functions Example.config resources_ empty_store (new_forward 7)
    TIdle CIdle RIdle).
  split; [discriminate|reflexivity].
Defined.
