(* ===== verification/ServiceTypes.v ===== *)
(** * Progress of the QOffload workers

    Facts about the step relation of [Service] that do not depend on how a run
    began: which worker a step belongs to, that no worker waits for another, and
    what becomes of a result a worker holds. *)

From S2P Require Import Prelude Protocol TaskStore QOffloadConfig ResourceRegistry Forward ControlProtocol Control Service.

Section Steps.
Context (config : Config) (resources : ResourceRegistry).

(** ** Progress *)

Inductive Worker := TaskWorker | ControlWorker | ResultWorker.

#[export] Instance Worker_eq_dec : EqDecision Worker.
Proof. solve_decision. Defined.

(** Steps left until the worker waits for a message again, at most. *)
Definition left_to_do (w : Worker) (s : Sys) : nat :=
  match w with
  | TaskWorker =>
      match task_pc s with TIdle => 0 | TReceived _ => 3 | TRegister _ _ => 2 | TSend _ => 1 end
  | ControlWorker =>
      match control_pc s with
      | CIdle => 0 | CExec _ => 4 | CRegister _ _ _ => 3 | CTake _ _ _ => 2
      | CForward _ _ _ => 2 | CReply _ _ => 1
      end
  | ResultWorker =>
      match result_pc s with RIdle => 0 | RReceived _ => 2 | RStore _ _ => 1 | RDeliver _ _ => 1 end
  end%nat.

(** The other workers are where they were. *)
Definition others_stay (w : Worker) (s s' : Sys) : Prop :=
  (w ≠ TaskWorker → task_pc s' = task_pc s) ∧
  (w ≠ ControlWorker → control_pc s' = control_pc s) ∧
  (w ≠ ResultWorker → result_pc s' = result_pc s).

(** A step, and the worker that makes it. *)
Definition step_of (s : Sys) (wl : Worker * Label) (s' : Sys) : Prop :=
  step config resources s wl.2 s' ∧ others_stay wl.1 s s' ∧
  left_to_do wl.1 s' ≠ left_to_do wl.1 s.

(** Every step is the step of exactly one worker. *)
Lemma step_has_worker s l s' :
  step config resources s l s' → ∃ w, step_of s (w, l) s'.
Proof.
  intros Hstep. unfold step_of, others_stay. simpl.
  destruct Hstep;
    first [ exists TaskWorker; split; [by econstructor|]; by split_and!
          | exists ControlWorker; split; [by econstructor|]; by split_and!
          | exists ResultWorker; split; [by econstructor|]; split_and!;
            by try destruct (kind p) ].
Qed.

(** No worker waits for another: unless it waits for a message, it can step. *)
Lemma worker_enabled w s : left_to_do w s ≠ 0%nat → ∃ l s', step_of s (w, l) s'.
Proof.
  assert (∀ l s', step config resources s l s' → others_stay w s s' →
    left_to_do w s' ≠ left_to_do w s → ∃ l s', step_of s (w, l) s') as Hmk
    by (intros l s'; exists l, s'; done).
  destruct s as [st f t c r], w; simpl; [destruct t|destruct c|destruct r]; try done; intros _.
  all: try (eapply Hmk; [by econstructor|by split_and!|done]).
  - destruct (command_of request) as [cmd|id|id|id| |n|n|m] eqn:Hc.
    all: try (eapply Hmk; [eapply step_control_other; rewrite Hc; done|by split_and!|done]).
    3, 4: destruct (decide (status id st = Waiting));
      (eapply Hmk; [first [ eapply step_control_waiting; [rewrite Hc; reflexivity|done]
                          | eapply step_control_checked; [rewrite Hc; reflexivity|done] ]
                   |by split_and!|done]).
    + eapply Hmk; [by eapply step_control_issue|by split_and!|done].
    + eapply Hmk; [by eapply step_control_status|by split_and!|done].
  - destruct (takeCompletedControlTask id st) as [task st'] eqn:Ht.
    eapply Hmk; [by eapply step_control_take|by split_and!|done].
  - destruct (decide (APIRequest.response_queue request = "")).
    + eapply Hmk; [by apply step_control_no_reply|by split_and!|done].
    + eapply Hmk; [by apply (step_control_reply _ _ _ _ _ _ _ _ true)|by split_and!|done].
  - destruct (takePending (to_uint64 (QuantumResult.task_id result)) st) as [[p|] st'] eqn:Ht.
    + eapply Hmk; [by eapply step_result_take|by split_and!|]. simpl. by destruct (kind p).
    + eapply Hmk; [apply step_result_unknown; by rewrite Ht|by split_and!|done].
  Unshelve. all: exact true.
Qed.

Lemma own_step w s l s' :
  step_of s (w, l) s' → left_to_do w s ≠ 0%nat → (left_to_do w s' < left_to_do w s)%nat.
Proof.
  intros (Hstep & _ & Hmove). simpl in *.
  destruct Hstep, w; simpl in *; try done; try lia. destruct (kind p); lia.
Qed.

Lemma other_step w w' s l s' :
  step_of s (w', l) s' → w ≠ w' → left_to_do w s' = left_to_do w s.
Proof.
  intros (_ & (Ht & Hc & Hr) & _) Hne. simpl in *.
  destruct w; simpl; [rewrite Ht|rewrite Hc|rewrite Hr]; congruence.
Qed.

(** The steps of a worker in a run. *)
Definition own (w : Worker) (tr : list (Worker * Label)) : nat :=
  length (filter (λ wl, wl.1 = w) tr).

Lemma own_snoc w tr wl :
  own w (tr ++ [wl]) = (own w tr + if decide (wl.1 = w) then 1 else 0)%nat.
Proof.
  unfold own. rewrite filter_app, length_app. f_equal.
  rewrite filter_cons. by case_decide.
Qed.

(** Until the worker is idle again, each of its steps uses up its measure. *)
Lemma busy_run w s tr s' :
  run step_of s tr s' →
  (∃ tr1 s1 tr2, tr = tr1 ++ tr2 ∧ run step_of s tr1 s1 ∧ left_to_do w s1 = 0%nat ∧
     run step_of s1 tr2 s') ∨
  (own w tr + left_to_do w s' <= left_to_do w s ∧ left_to_do w s' ≠ 0)%nat.
Proof.
  intros Hr. induction Hr as [|tr s' [w' l] s'' Hr IH Hstep].
  - destruct (decide (left_to_do w s = 0%nat)) as [H0|]; [|right; simpl; split; [done|lia]].
    left. exists [], s, []. split_and!; try done; constructor.
  - destruct IH as [(tr1 & s1 & tr2 & -> & H1 & H0 & H2)|[Hle Hne]].
    { left. exists tr1, s1, (tr2 ++ [(w', l)]). split_and!; [by rewrite app_assoc|done..|].
      by econstructor. }
    destruct (decide (left_to_do w s'' = 0%nat)) as [H0|Hne'].
    { left. exists (tr ++ [(w', l)]), s'', []. split_and!; [by rewrite app_nil_r| |done|constructor].
      by econstructor. }
    right. split; [|done]. rewrite own_snoc. simpl. case_decide as Hw.
    + subst w'. pose proof (own_step _ _ _ _ Hstep Hne). lia.
    + rewrite (other_step _ _ _ _ _ Hstep) by congruence. lia.
Qed.

(** C14. The workers are wait-free: every step belongs to one worker; whatever
    the state, a worker that is not waiting for a message has a step to make,
    and after at most four steps of its own, whatever the others do in the
    meantime, it has been back at its receive. *)
Theorem workers_wait_free w s :
  (∀ l s', step config resources s l s' → ∃ w', step_of s (w', l) s') ∧
  (left_to_do w s <= 4)%nat ∧
  (left_to_do w s ≠ 0%nat → ∃ l s', step_of s (w, l) s') ∧
  (∀ tr s', run step_of s tr s' → (left_to_do w s <= own w tr)%nat →
   ∃ tr1 s1 tr2, tr = tr1 ++ tr2 ∧ run step_of s tr1 s1 ∧ left_to_do w s1 = 0%nat ∧
     run step_of s1 tr2 s').
Proof.
  split_and!.
  - apply step_has_worker.
  - destruct s as [st f t c r], w; simpl; [destruct t|destruct c|destruct r]; lia.
  - apply worker_enabled.
  - intros tr s' Hr Hown. destruct (busy_run w s tr s' Hr) as [|[Hle Hne]]; [done|lia].
Qed.

(** A run of workers is a run. *)
Lemma run_labels s tr s' : run step_of s tr s' → run (step config resources) s tr.*2 s'.
Proof.
  induction 1 as [|tr s' [w l] s'' _ IH [Hstep _]]; [constructor|].
  rewrite fmap_app. by econstructor.
Qed.

(** Only the result worker removes a waiting task, and only a registration under
    the same identifier replaces it. *)
Lemma pending_kept w s l s' id :
  step_of s (w, l) s' → w ≠ ResultWorker → registers id l = false →
  pending_ (store s') !! id = pending_ (store s) !! id.
Proof.
  intros (Hstep & (_ & _ & Hr) & _) Hw Hreg. specialize (Hr Hw). simpl in *.
  destruct Hstep; simpl in *; try done.
  - by rewrite lookup_insert_ne by (by eapply bool_decide_eq_false_1).
  - by rewrite lookup_insert_ne by (by eapply bool_decide_eq_false_1).
  - match goal with H : takeCompletedControlTask _ _ = _ |- _ =>
      apply takeCompleted_shrinks in H as [-> _] end. done.
  - by destruct (kind p).
Qed.

(** A registered identifier is not registered again. *)
Lemma not_registered_again uid tr s l s' id :
  run (step config resources) (initial uid) tr s → step config resources s l s' →
  short (tr ++ [l]) → is_Some (pending_ (store s) !! id) → registers id l = false.
Proof.
  intros Hr Hstep Hs Hp. assert (run (step config resources) (initial uid) (tr ++ [l]) s') as Hr'
    by (by econstructor).
  pose proof (bal_pending _ _ (runs_balance _ _ _ _ _ Hr (short_prefix _ _ Hs)) id) as Hb.
  rewrite one_true in Hb by done.
  pose proof (bal_issue _ _ (runs_balance _ _ _ _ _ Hr' Hs) id) as Hi.
  pose proof (issued_once _ _ _ (runs_issued _ _ _ _ _ Hr' Hs) id) as Ho.
  rewrite !count_snoc in *. destruct (registers id l); [lia|done].
Qed.

(** The two steps of the result worker on a direct result. *)
Lemma result_taken s l s' r p :
  step_of s (ResultWorker, l) s' → result_pc s = RReceived r →
  pending_ (store s) !! to_uint64 (QuantumResult.task_id r) = Some p → kind p = DirectTask →
  result_pc s' = RDeliver p r.
Proof.
  intros (Hstep & _ & Hmove) Hpc Hp Hk. simpl in *.
  destruct Hstep; simpl in *; subst; try done; try discriminate.
  - injection Hpc as ->. unfold id, takePending in *. by rewrite Hp in *.
  - injection Hpc as ->. unfold id, takePending in *. rewrite Hp in *. simplify_eq.
    by rewrite Hk.
Qed.

Lemma result_delivered s l s' r p :
  step_of s (ResultWorker, l) s' → result_pc s = RDeliver p r →
  ∃ accepted, l = LDeliver (forwarded_task_id p) (original_result_destination p)
                    (mapped_result p r) accepted.
Proof.
  intros (Hstep & _ & Hmove) Hpc. simpl in *.
  destruct Hstep; simpl in *; subst; try done; try discriminate. simplify_eq. by eexists.
Qed.

(** C15. A received result reaches its client: from any reachable state (below
    2^60 steps) in which the result worker has received the result of a waiting
    direct task, once the result worker has made two more steps, however the
    other workers interleave, the result has been sent to the destination of
    the task with the task's own identifier. *)
Theorem received_result_delivered uid tr0 s r p tr s' :
  run (step config resources) (initial uid) tr0 s → short (tr0 ++ tr.*2) →
  result_pc s = RReceived r →
  pending_ (store s) !! to_uint64 (QuantumResult.task_id r) = Some p → kind p = DirectTask →
  run step_of s tr s' → (2 <= own ResultWorker tr)%nat →
  ∃ accepted, LDeliver (to_uint64 (QuantumResult.task_id r)) (original_result_destination p)
                (mapped_result p r) accepted ∈ tr.*2.
Proof.
  intros Hr0 Hshort Hpc Hp Hk Hr Hown. set (id := to_uint64 (QuantumResult.task_id r)) in *.
  assert (forwarded_task_id p = id) as Hid.
  { eapply came_from_id, prov_pending; [|done]. by eapply runs_provenance. }
  assert ((own ResultWorker tr = 0%nat ∧ result_pc s' = RReceived r ∧
             pending_ (store s') !! id = Some p) ∨
    (own ResultWorker tr = 1%nat ∧ result_pc s' = RDeliver p r) ∨
    ∃ accepted, LDeliver id (original_result_destination p) (mapped_result p r) accepted ∈ tr.*2)
    as [[? _]|[[? _]|?]]; [|lia|lia|done].
  clear Hown. induction Hr as [|tr s' [w l] s'' Hr IH Hstep]; [auto|].
  rewrite fmap_app, app_assoc in Hshort. specialize (IH (short_prefix _ _ Hshort)).
  assert (run (step config resources) (initial uid) (tr0 ++ tr.*2) s') as Hrun
    by (eapply run_app; [done|by apply run_labels]).
  rewrite own_snoc, fmap_app. simpl.
  destruct IH as [(H0 & Hpc' & Hp')|[[H1 Hpc']|[acc Hacc]]].
  - case_decide as Hw.
    + right. left. split; [lia|]. subst w. by eapply result_taken.
    + left. split; [lia|]. split.
      * destruct Hstep as (_ & (_ & _ & Hsame) & _). by rewrite (Hsame Hw).
      * rewrite (pending_kept _ _ _ _ _ Hstep Hw); [done|].
        eapply not_registered_again; [done|apply Hstep|done|]. by rewrite Hp'.
  - case_decide as Hw.
    + right. right. subst w. destruct (result_delivered _ _ _ _ _ Hstep Hpc') as [acc ->].
      exists acc. rewrite Hid. apply elem_of_app. right. by left.
    + right. left. split; [lia|]. destruct Hstep as (_ & (_ & _ & Hsame) & _).
      by rewrite (Hsame Hw).
  - right. right. exists acc. apply elem_of_app. by left.
Qed.
End Steps.

(** ** Concrete runs *)

Module Delivery.
(** A direct task is forwarded; its result is received. *)
Lemma received : ∃ tr, run (step Example.config resources_) (initial 7) tr
    (mkSys (addDirectTask (pending_of 7 Example.request) empty_store) (mkForward 7 1)
       TIdle CIdle (RReceived Example.result)) ∧ length tr = 5%nat.
Proof.
  eexists. split.
  - eapply run_cons; [by apply (step_task_receive _ _ _ _ _ _ Example.request)|].
    eapply run_cons; [by eapply step_task_issue|].
    eapply run_cons; [by apply step_task_register|].
    eapply run_cons; [apply (step_task_send _ _ _ _ _ _ _ true)|].
    apply run_one. by apply step_result_receive.
  - reflexivity.
Qed.

(** The control worker receives a request between the two steps of the result
    worker. *)
Definition trace : list (Worker * Label) :=
  [(ResultWorker, LTaken 7 (pending_of 7 Example.request));
   (ControlWorker, LReceive);
   (ResultWorker, LDeliver 7 "client" (mapped_result (pending_of 7 Example.request) Example.result)
                    false)].

Lemma delivering : ∃ s', run (step_of Example.config resources_)
    (mkSys (addDirectTask (pending_of 7 Example.request) empty_store) (mkForward 7 1)
       TIdle CIdle (RReceived Example.result)) trace s'.
Proof.
  eexists. eapply run_cons; [|eapply run_cons; [|apply run_one]].
  - split; [by eapply step_result_take|]. by split_and!.
  - split; [apply (step_control_receive _ _ _ _ _ _ Example.ask_status)|]. by split_and!.
  - split; [apply step_result_deliver|]. by split_and!.
Qed.
End Delivery.

Lemma received_result_delivered_witness :
  ∃ accepted, LDeliver 7 "client"
    (mapped_result (pending_of 7 Example.request) Example.result) accepted ∈ Delivery.trace.*2.
Proof.
  destruct Delivery.received as (tr0 & Hr0 & Hlen). destruct Delivery.delivering as (s' & Hr).
  apply (received_result_delivered Example.config resources_ 7 tr0 _ Example.result
    (pending_of 7 Example.request) Delivery.trace s' Hr0).
  - unfold short. rewrite length_app, Hlen. reflexivity.
  - reflexivity.
  - reflexivity.
  - reflexivity.
  - exact Hr.
  - vm_compute. lia.
Defined.

Lemma workers_wait_free_witness :
  let s := mkSys (addDirectTask (pending_of 7 Example.request) empty_store) (mkForward 7 1)
             TIdle CIdle (RReceived Example.result) in
  ∃ tr1 s1, run (step_of Example.config resources_) s tr1 s1 ∧ left_to_do ResultWorker s1 = 0%nat.
Proof.
  intros s. destruct Delivery.delivering as (s' & Hr).
  destruct (workers_wait_free Example.config resources_ ResultWorker s) as (_ & _ & _ & H).
  destruct (H Delivery.trace s' Hr ltac:(vm_compute; lia)) as (tr1 & s1 & _ & _ & H1 & H0 & _).
  exists tr1, s1. split; [exact H1|exact H0].
Defined.
