(* ===== verification/Workers.v ===== *)
(** * The QOffload workers over a transport (src/QOffload.cpp, startWorkers)

    The bodies of the three worker loops as functions on the task store, the
    forwarder and the world of the transports, and the loops themselves.  The
    message transports are any with the interface [QueueTransport]; each worker
    has its own handles ([local_messenger], [qrm_messenger]).  [Service] is about
    how the workers interleave; here one worker runs at a time, and the messages
    travel. *)

From S2P Require Import Prelude Status Message Transport Codec Protocol TaskStore QOffloadConfig ResourceRegistry Forward Control QueueTransport.
From S2P Require Messenger RabbitMqSimpleTransport RabbitMqQueues.

(** ** Options *)

Definition makeTransportOptions (config : RabbitMqConfig)
    : RabbitMqSimpleTransport.TransportOptions :=
  RabbitMqSimpleTransport.mkOptions (host config) (port config) (user config)
    (password config) (vhost config).

(** [{.timeout = 500ms, .ack_mode = AckMode::Auto}] *)
Definition worker_args : ReceiveArgs := mkReceiveArgs (Some 500) Auto.

(** ** The loop bodies *)

Section Turns.
Context {T W : Type} `{Transport T W} {Format : Type}
  `{Codec QuantumTask Format} `{Codec QuantumResult Format}
  `{Codec APIRequest Format} `{Codec APIResponse Format}.
Context (config : Config) (resources : ResourceRegistry).

(** What the workers share, and the transports. *)
Record Core := mkCore { tasks_ : TaskStore; forwarder_ : Forward; net : W }.

(** The status of a send is only logged. *)
Definition send_logged {A} `{Codec A Format} (t : T) (queue : string) (v : A) (w : W) : W :=
  (Messenger.send (Format := Format) t (mkAddress queue) v default_send_args w).2.

(** A turn: [None] while the receive has not returned; a failed receive, a
    timeout or another, leads to the next turn. *)
Definition task_turn (local_messenger qrm_messenger : T) (c : Core) : option Core :=
  match Messenger.receive (Format := Format) (A := QuantumTask) local_messenger
          (mkAddress (request (queues config))) worker_args (net c) with
  | None => None
  | Some (inl _, w) => Some (mkCore (tasks_ c) (forwarder_ c) w)
  | Some (inr received, w) =>
      let '(qrm_task_, tasks, forwarder) :=
        forwardDirectTask received (tasks_ c) config (forwarder_ c) in
      Some (mkCore tasks forwarder
              (send_logged qrm_messenger (qrm_task (queues config)) qrm_task_ w))
  end.

Definition control_turn (local_messenger qrm_messenger : T) (c : Core) : option Core :=
  match Messenger.receive (Format := Format) (A := APIRequest) local_messenger
          (mkAddress (control_request (queues config))) worker_args (net c) with
  | None => None
  | Some (inl _, w) => Some (mkCore (tasks_ c) (forwarder_ c) w)
  | Some (inr received, w) =>
      let '(outcome, tasks, forwarder) :=
        process received (tasks_ c) config resources (forwarder_ c) in
      let w := match outbound_task outcome with
               | None => w
               | Some task => send_logged qrm_messenger (qrm_task (queues config)) task w
               end in
      let dest := APIResponse.destination_queue (response outcome) in
      let w := if String.eqb dest "" then w
               else send_logged local_messenger dest (response outcome) w in
      Some (mkCore tasks forwarder w)
  end.

Definition result_turn (local_messenger : T) (c : Core) : option Core :=
  match Messenger.receive (Format := Format) (A := QuantumResult) local_messenger
          (mkAddress (QOffloadConfig.result (queues config))) worker_args (net c) with
  | None => None
  | Some (inl _, w) => Some (mkCore (tasks_ c) (forwarder_ c) w)
  | Some (inr received, w) =>
      let '(outcome, tasks) := processResult received (tasks_ c) in
      let w :=
        if negb (bool_decide (outcome_kind outcome = DirectResult)) then w
        else match direct_result outcome with
             | None => w
             | Some r => send_logged local_messenger (direct_result_destination outcome) r w
             end in
      Some (mkCore tasks (forwarder_ c) w)
  end.

(** [while (!stop.stop_requested())]: [stops] are the answers of the token, one
    per test. *)
Fixpoint worker_loop (turn : Core → option Core) (stops : list bool) (c : Core)
    : option Core :=
  match stops with
  | [] => None
  | true :: _ => Some c
  | false :: stops =>
      match turn c with
      | None => None
      | Some c => worker_loop turn stops c
      end
  end.

(** [n] turns, then the request to stop. *)
Definition turns (n : nat) : list bool := replicate n false ++ [true].
End Turns.

(** ** One turn *)

Section Exact.
Context {T W : Type} `{QueueTransport T W} {Format : Type}
  `{CodecLaws QuantumTask Format} `{CodecLaws QuantumResult Format}
  `{CodecLaws APIRequest Format} `{CodecLaws APIResponse Format}
  `{!PlainCodec QuantumTask Format} `{!PlainCodec QuantumResult Format}
  `{!PlainCodec APIRequest Format} `{!PlainCodec APIResponse Format}.
Context (config : Config) (resources : ResourceRegistry).

(** The queues must be named. *)
Definition queues_named : Prop :=
  request (queues config) ≠ "" ∧ control_request (queues config) ≠ "" ∧
  QOffloadConfig.result (queues config) ≠ "" ∧ qrm_task (queues config) ≠ "".
Context (named : queues_named).

(** A message appended to the queue at [p0]. *)
Definition appended (p0 : Place) (e : Envelope) (p : Place) : list Envelope :=
  if decide (p = p0) then [e] else [].

Lemma send_logged_spec {A} `{CodecLaws A Format} `{!PlainCodec A Format} t n (v : A) e w :
  settled w → n ≠ "" → encode Format v = inr e →
  settled (send_logged (Format := Format) t n v w) ∧
  ∀ p, contents (send_logged (Format := Format) t n v w) p =
       contents w p ++ appended (place t n) e p.
Proof.
  intros Hw Hn He. destruct (send_typed t n v e w Hw Hn He) as (w' & Hs & Hw' & Hp).
  unfold send_logged. by rewrite Hs.
Qed.

(** The queue at [p0] reduced to [q]. *)
Definition taken (p0 : Place) (q : list Envelope) (w : W) (p : Place) : list Envelope :=
  if decide (p = p0) then q else contents w p.

Lemma task_turn_spec local qrm c v e e' q :
  let place_in := place local (request (queues config)) in
  let '(forwarded, tasks, f) := forwardDirectTask v (tasks_ c) config (forwarder_ c) in
  settled (net c) → contents (net c) place_in = e :: q → exact worker_args q →
  encode Format v = inr e → encode Format forwarded = inr e' →
  ∃ w, task_turn (Format := Format) config local qrm c = Some (mkCore tasks f w) ∧ settled w ∧
    ∀ p, contents w p = taken place_in q (net c) p ++
                        appended (place qrm (qrm_task (queues config))) e' p.
Proof.
  intros place_in. destruct (forwardDirectTask _ _ _ _) as [[fw tasks] f] eqn:Hf.
  intros Hw Hq Hex He He'. destruct named as (N1 & _ & _ & N4).
  destruct (receive_value local (request (queues config)) worker_args v e q (net c))
    as (w1 & Hr & Hw1 & Hp1); [done..|].
  destruct (send_logged_spec qrm _ fw e' w1 Hw1 N4 He') as [Hw2 Hp2].
  unfold task_turn. rewrite Hr, Hf. eexists. split_and!; [done..|].
  intros p. by rewrite Hp2, Hp1.
Qed.

(** A message that does not decode is dropped: nothing else happens. *)
Lemma task_turn_undecodable local qrm c e q s :
  let place_in := place local (request (queues config)) in
  settled (net c) → contents (net c) place_in = e :: q → exact worker_args q →
  decode Format (T := QuantumTask) e = inl s →
  ∃ w, task_turn (Format := Format) config local qrm c =
         Some (mkCore (tasks_ c) (forwarder_ c) w) ∧ settled w ∧
    ∀ p, contents w p = taken place_in q (net c) p.
Proof.
  intros place_in Hw Hq Hex Hd. destruct named as (N1 & _).
  destruct (receive_typed (A := QuantumTask) local (request (queues config)) worker_args e q
    (net c)) as (w1 & Hr & Hw1 & Hp1); [done..|].
  unfold task_turn. rewrite Hr, Hd. by exists w1.
Qed.

Lemma control_turn_spec local qrm c v e q :
  let place_in := place local (control_request (queues config)) in
  let '(outcome, tasks, f) := process v (tasks_ c) config resources (forwarder_ c) in
  let dest := APIResponse.destination_queue (response outcome) in
  settled (net c) → contents (net c) place_in = e :: q → exact worker_args q →
  encode Format v = inr e →
  ∀ et er,
  (∀ task, outbound_task outcome = Some task → encode Format task = inr et) →
  (dest ≠ "" → encode Format (response outcome) = inr er) →
  ∃ w, control_turn (Format := Format) config resources local qrm c =
         Some (mkCore tasks f w) ∧ settled w ∧
    ∀ p, contents w p = taken place_in q (net c) p ++
           (if outbound_task outcome then appended (place qrm (qrm_task (queues config))) et p
            else []) ++
           (if decide (dest = "") then [] else appended (place local dest) er p).
Proof.
  intros place_in. destruct (process _ _ _ _ _) as [[o tasks] f] eqn:Ho. intros dest.
  intros Hw Hq Hex He et er Het Her. destruct named as (_ & N2 & _ & N4).
  destruct (receive_value local (control_request (queues config)) worker_args v e q (net c))
    as (w1 & Hr & Hw1 & Hp1); [done..|].
  unfold control_turn. rewrite Hr, Ho. fold dest.
  set (w2 := match outbound_task o with
             | None => w1
             | Some task => send_logged qrm (qrm_task (queues config)) task w1
             end).
  assert (settled w2 ∧ ∀ p, contents w2 p = contents w1 p ++
    (if outbound_task o then appended (place qrm (qrm_task (queues config))) et p else []))
    as [Hw2 Hp2].
  { unfold w2. destruct (outbound_task o) as [task|].
    - by apply send_logged_spec; [..|apply Het].
    - split; [done|]. intros p. by rewrite app_nil_r. }
  destruct (String.eqb_spec dest "") as [Hd|Hd].
  - exists w2. split_and!; [done..|]. intros p. rewrite decide_True by done.
    by rewrite Hp2, Hp1, app_nil_r.
  - destruct (send_logged_spec local dest (response o) er w2 Hw2 Hd (Her Hd)) as [Hw3 Hp3].
    eexists. split_and!; [done..|]. intros p. rewrite decide_False by done.
    by rewrite Hp3, Hp2, Hp1, app_assoc.
Qed.

(** What the result worker sends for an outcome, and where. *)
Definition delivery (o : ResultProcessingOutcome) : option (string * QuantumResult) :=
  if bool_decide (outcome_kind o = DirectResult)
  then (λ r, (direct_result_destination o, r)) <$> direct_result o else None.

Lemma result_turn_spec local c v e q e' :
  let place_in := place local (QOffloadConfig.result (queues config)) in
  let '(o, tasks) := processResult v (tasks_ c) in
  settled (net c) → contents (net c) place_in = e :: q → exact worker_args q →
  encode Format v = inr e →
  match delivery o with
  | Some (dest, r) => dest ≠ "" ∧ encode Format r = inr e'
  | None => True
  end →
  ∃ w, result_turn (Format := Format) config local c = Some (mkCore tasks (forwarder_ c) w) ∧
    settled w ∧
    ∀ p, contents w p = taken place_in q (net c) p ++
           (match delivery o with
            | Some (dest, _) => appended (place local dest) e' p
            | None => []
            end).
Proof.
  intros place_in. destruct (processResult _ _) as [o tasks] eqn:Ho.
  intros Hw Hq Hex He. destruct named as (_ & _ & N3 & _).
  destruct (receive_value local (QOffloadConfig.result (queues config)) worker_args v e q
    (net c)) as (w1 & Hr & Hw1 & Hp1); [done..|].
  unfold result_turn, delivery. rewrite Hr, Ho.
  destruct (bool_decide _); [destruct (direct_result o) as [r|]|]; simpl.
  - intros [Hd He']. destruct (send_logged_spec local _ r e' w1 Hw1 Hd He') as [Hw2 Hp2].
    eexists. split_and!; [done..|]. intros p. by rewrite Hp2, Hp1.
  - intros _. exists w1. split_and!; [done..|]. intros p. by rewrite Hp1, app_nil_r.
  - intros _. exists w1. split_and!; [done..|]. intros p. by rewrite Hp1, app_nil_r.
Qed.
End Exact.

(** ** A batch of direct tasks: the functions *)

Section Batch.
Context (config : Config).

Fixpoint forward_all (requests : list QuantumTask) (tasks : TaskStore) (f : Forward)
    : list QuantumTask * TaskStore * Forward :=
  match requests with
  | [] => ([], tasks, f)
  | r :: rs =>
      let '(fw, tasks, f) := forwardDirectTask r tasks config f in
      let '(fws, tasks, f) := forward_all rs tasks f in
      (fw :: fws, tasks, f)
  end.

Fixpoint process_all (results : list QuantumResult) (tasks : TaskStore)
    : list ResultProcessingOutcome * TaskStore :=
  match results with
  | [] => ([], tasks)
  | r :: rs =>
      let '(o, tasks) := processResult r tasks in
      let '(os, tasks) := process_all rs tasks in
      (o :: os, tasks)
  end.

(** The identifiers of [n] tasks from index [i] on; they fit [int32]. *)
Definition ids (uid i : Z) (n : nat) : list Z :=
  (λ k, (i + Z.of_nat k) * 10000 + uid) <$> seq 0 n.
Definition fitting (uid i : Z) (n : nat) : Prop :=
  0 <= uid ∧ 0 <= i ∧ (i + Z.of_nat n) * 10000 + uid < 2147483648.

Lemma ids_cons uid i n : ids uid i (S n) = (i * 10000 + uid) :: ids uid (i + 1) n.
Proof.
  unfold ids. simpl. f_equal; [lia|]. rewrite <- (fmap_S_seq 0 n), <- list_fmap_compose.
  apply list_fmap_ext. intros k x _. simpl. lia.
Qed.

Lemma ids_range uid i n id :
  fitting uid i n → id ∈ ids uid i n → 0 <= i * 10000 + uid <= id ∧ id < 2147483648.
Proof.
  intros (Hu & Hi & Hn) Hin. apply list_elem_of_fmap in Hin as (k & -> & Hk).
  apply elem_of_seq in Hk. nia.
Qed.

Lemma ids_NoDup uid i n : NoDup (ids uid i n).
Proof. apply NoDup_fmap; [intros k l Hkl; lia|apply NoDup_seq]. Qed.

Lemma nextTaskId_fitting uid i n :
  fitting uid i (S n) →
  nextTaskId (mkForward uid i) = (i * 10000 + uid, mkForward uid (i + 1)).
Proof.
  intros (Hu & Hi & Hn). unfold nextTaskId. simpl. f_equal; [|f_equal]; wrap_lia.
Qed.

Definition entry (id : Z) (r : QuantumTask) : PendingTask :=
  mkPendingTask DirectTask id (to_uint64 (QuantumTask.task_id r))
    (QuantumTask.result_destination r).

Lemma forwardDirectTask_fitting r tasks uid i n :
  fitting uid i (S n) →
  ∃ fw, forwardDirectTask r tasks config (mkForward uid i) =
      (fw, addDirectTask (entry (i * 10000 + uid) r) tasks, mkForward uid (i + 1)) ∧
    QuantumTask.task_id fw = to_int32 (i * 10000 + uid).
Proof.
  intros Hfit. pose proof (forwarded_fields r tasks config (mkForward uid i)) as Hf.
  unfold forwardDirectTask in *. rewrite (nextTaskId_fitting _ _ _ Hfit) in *.
  eexists. split; [done|]. apply Hf.
Qed.

(** The store after forwarding: one entry per request, under its identifier. *)
Lemma forward_all_spec rs tasks uid i :
  fitting uid i (length rs) →
  let '(fws, tasks', f') := forward_all rs tasks (mkForward uid i) in
  length fws = length rs ∧
  QuantumTask.task_id <$> fws = to_int32 <$> ids uid i (length rs) ∧
  completed_control_tasks_ tasks' = completed_control_tasks_ tasks ∧
  (∀ id r, (id, r) ∈ zip (ids uid i (length rs)) rs → pending_ tasks' !! id = Some (entry id r)) ∧
  (∀ id, id ∉ ids uid i (length rs) → pending_ tasks' !! id = pending_ tasks !! id).
Proof.
  revert tasks i. induction rs as [|r rs IH]; intros tasks i Hfit;
    cbn [forward_all length] in *.
  { split_and!; [done..| |done]. intros id r Hin. by apply elem_of_nil in Hin. }
  destruct (forwardDirectTask_fitting r tasks uid i _ Hfit) as (fw & -> & Hid).
  set (tasks1 := addDirectTask _ tasks).
  assert (fitting uid (i + 1) (length rs)) as Hfit' by (unfold fitting in *; lia).
  specialize (IH tasks1 (i + 1) Hfit').
  destruct (forward_all rs tasks1 (mkForward uid (i + 1))) as [[fws tasks2] f2].
  destruct IH as (Hlen & Hids & Hcomp & Hin & Hout). rewrite ids_cons.
  assert (i * 10000 + uid ∉ ids uid (i + 1) (length rs)) as Hfresh.
  { intros Hx. apply ids_range in Hx; [lia|done]. }
  cbn -[ids fitting]. split_and!.
  - by rewrite Hlen.
  - by rewrite Hids, Hid.
  - done.
  - intros id r' [[= -> ->]|Hz]%elem_of_cons; [|by apply Hin].
    rewrite Hout by done. unfold tasks1. simpl. by rewrite lookup_insert_eq.
  - intros id [Hne Hni]%not_elem_of_cons. rewrite Hout by done. unfold tasks1. simpl.
    by rewrite lookup_insert_ne.
Qed.

(** An answer: the identifier it was forwarded under, the request, the result. *)
Notation Answer := (Z * QuantumTask * QuantumResult)%type.
Definition answers_for (a : Answer) : Prop :=
  task_wf a.1.2 ∧ 0 <= a.1.1 < 2147483648 ∧ QuantumResult.task_id a.2 = to_int32 a.1.1.

Lemma processResult_entry id r res tasks :
  answers_for (id, r, res) → pending_ tasks !! id = Some (entry id r) →
  processResult res tasks =
    (delivered_to r res,
     mkTaskStore (delete id (pending_ tasks)) (completed_control_tasks_ tasks)).
Proof.
  intros (Hwf & Hid & Hres) Hp. simpl in *. unfold processResult, takePending.
  rewrite Hres, wire_id, Hp by lia. simpl. unfold delivered_to.
  by rewrite to_int32_uint64.
Qed.

Lemma process_all_spec (l : list Answer) tasks :
  NoDup l.*1.*1 → Forall answers_for l →
  (∀ a, a ∈ l → pending_ tasks !! a.1.1 = Some (entry a.1.1 a.1.2)) →
  let '(os, tasks') := process_all l.*2 tasks in
  os = (λ a, delivered_to a.1.2 a.2) <$> l ∧
  completed_control_tasks_ tasks' = completed_control_tasks_ tasks ∧
  ∀ id, pending_ tasks' !! id = if decide (id ∈ l.*1.*1) then None else pending_ tasks !! id.
Proof.
  revert tasks. induction l as [|[[id r] res] l IH]; intros tasks Hnd Hwf Hp.
  { by split_and!. }
  rewrite !fmap_cons in *. cbn [process_all fst snd] in *.
  apply NoDup_cons in Hnd as [Hni Hnd]. apply Forall_cons in Hwf as [Ha Hwf].
  rewrite (processResult_entry id r res tasks Ha) by (by apply (Hp (id, r, res)); left).
  set (tasks1 := mkTaskStore _ _). specialize (IH tasks1 Hnd Hwf).
  destruct (process_all l.*2 tasks1) as [os tasks2].
  destruct IH as (-> & Hc & Hpend).
  { intros a Hin. unfold tasks1. simpl. rewrite lookup_delete_ne.
    - apply Hp. by right.
    - intros ->. apply Hni. by apply (list_elem_of_fmap_2 fst), (list_elem_of_fmap_2 fst). }
  split_and!; [done..|]. intros id'. rewrite Hpend.
  destruct (decide (id' ∈ id :: l.*1.*1)) as [Hin|Hnin].
  - apply elem_of_cons in Hin as [->|Hin]; [|by rewrite decide_True].
    unfold tasks1. simpl. rewrite lookup_delete_eq. by case_decide.
  - apply not_elem_of_cons in Hnin as [Hne Hnin]. rewrite decide_False by done.
    unfold tasks1. simpl. by rewrite lookup_delete_ne.
Qed.
End Batch.

(** ** A batch of direct tasks: the loops *)

Section Loops.
Context {T W : Type} `{QueueTransport T W} {Format : Type}
  `{CodecLaws QuantumTask Format} `{CodecLaws QuantumResult Format}
  `{!PlainCodec QuantumTask Format} `{!PlainCodec QuantumResult Format}.
Context (config : Config) (named : queues_named config).

Notation encodes := (Forall2 (λ v e, encode Format v = inr e)).

(** The receives of the workers lose nothing, or there is one message. *)
Definition no_burst (n : nat) : Prop := lossless worker_args = true ∨ (n <= 1)%nat.

Lemma no_burst_exact {A} n (l : list A) (es : list Envelope) :
  no_burst (S n) → length es = n → exact worker_args es ∧ no_burst n.
Proof.
  intros [Hl|Hn] Hlen; [by split; left|]. split; right; [|lia].
  destruct es; simpl in *; [done|lia].
Qed.

Lemma task_loop local qrm c reqs ereqs efws :
  let place_in := place local (request (queues config)) in
  let place_out := place qrm (qrm_task (queues config)) in
  let '(fws, tasks, f) := forward_all config reqs (tasks_ c) (forwarder_ c) in
  settled (net c) → place_in ≠ place_out → no_burst (length reqs) →
  contents (net c) place_in = ereqs → encodes reqs ereqs → encodes fws efws →
  ∃ w, worker_loop (task_turn (Format := Format) config local qrm) (turns (length reqs)) c =
         Some (mkCore tasks f w) ∧ settled w ∧
    ∀ p, contents w p = taken place_in [] (net c) p ++
                        (if decide (p = place_out) then efws else []).
Proof.
  intros place_in place_out. revert c ereqs efws.
  induction reqs as [|r reqs IH]; intros c ereqs efws; cbn [forward_all].
  { intros Hw Hne _ Hq Hreq Hfw. inversion Hreq; subst. inversion Hfw; subst.
    exists (net c). destruct c; simpl in *. split_and!; [done..|]. intros p.
    unfold taken. repeat case_decide; by subst; rewrite ?app_nil_r. }
  pose proof (task_turn_spec (Format := Format) config named local qrm c r) as Hturn.
  destruct (forwardDirectTask r (tasks_ c) config (forwarder_ c)) as [[fw tasks1] f1].
  specialize (λ w, IH (mkCore tasks1 f1 w)). simpl in IH.
  destruct (forward_all config reqs tasks1 f1) as [[fws tasks2] f2].
  intros Hw Hne Hb Hq Hreq Hfw. apply Forall2_cons_inv_l in Hreq as (er & ereqs' & Her & Hreqs & ->).
  apply Forall2_cons_inv_l in Hfw as (ef & efws' & Hef & Hfws & ->).
  destruct (no_burst_exact _ reqs ereqs' Hb) as [Hex Hb'].
  { symmetry. by eapply Forall2_length. }
  destruct (Hturn er ef ereqs' Hw Hq Hex Her Hef) as (w1 & Hturn1 & Hw1 & Hp1).
  destruct (IH w1 ereqs' efws' Hw1 Hne Hb') as (w2 & Hl & Hw2 & Hp2); [|done..|].
  { rewrite Hp1. unfold taken, appended. rewrite decide_True by done.
    rewrite decide_False by done. by rewrite app_nil_r. }
  exists w2. split_and!; [|done|].
  - simpl. by rewrite Hturn1.
  - intros p. rewrite Hp2. unfold taken. simpl. rewrite Hp1. unfold taken, appended.
    repeat case_decide; subst; rewrite ?app_nil_r; try done. by rewrite <- app_assoc.
Qed.

(** What the outcomes [os], encoded as [es], put into the queue at [p]. *)
Definition mail (local : T) (os : list ResultProcessingOutcome) (es : list Envelope)
    (p : Place) : list Envelope :=
  concat (zip_with (λ o e, match delivery o with
                           | Some (dest, _) => appended (place local dest) e p
                           | None => []
                           end) os es).

Definition deliverable (local : T) (o : ResultProcessingOutcome) (e : Envelope) : Prop :=
  match delivery o with
  | Some (dest, r) =>
      dest ≠ "" ∧ place local dest ≠ place local (QOffloadConfig.result (queues config)) ∧
      encode Format r = inr e
  | None => True
  end.

Lemma mail_not_back local os es :
  Forall2 (deliverable local) os es →
  mail local os es (place local (QOffloadConfig.result (queues config))) = [].
Proof.
  unfold mail. induction 1 as [|o e os es Ho _ IH]; [done|]. simpl. rewrite IH, app_nil_r.
  unfold deliverable in Ho. destruct (delivery o) as [[dest r]|]; [|done].
  unfold appended. rewrite decide_False; [done|]. destruct Ho as (_ & Hne & _).
  by apply not_eq_sym.
Qed.

Lemma result_loop local c results eress es :
  let place_in := place local (QOffloadConfig.result (queues config)) in
  let '(os, tasks) := process_all results (tasks_ c) in
  settled (net c) → no_burst (length results) →
  contents (net c) place_in = eress → encodes results eress →
  Forall2 (deliverable local) os es →
  ∃ w, worker_loop (result_turn (Format := Format) config local) (turns (length results)) c =
         Some (mkCore tasks (forwarder_ c) w) ∧ settled w ∧
    ∀ p, contents w p = taken place_in [] (net c) p ++ mail local os es p.
Proof.
  intros place_in. revert c eress es.
  induction results as [|r results IH]; intros c eress es; cbn [process_all].
  { intros Hw _ Hq Hres Hes. inversion Hres; subst. inversion Hes; subst.
    exists (net c). destruct c; simpl in *. split_and!; [done..|]. intros p.
    unfold taken. case_decide; by subst; rewrite ?app_nil_r. }
  pose proof (result_turn_spec (Format := Format) config named local c r) as Hturn.
  destruct (processResult r (tasks_ c)) as [o tasks1].
  specialize (λ w, IH (mkCore tasks1 (forwarder_ c) w)). simpl in IH.
  destruct (process_all results tasks1) as [os tasks2].
  intros Hw Hb Hq Hres Hes. apply Forall2_cons_inv_l in Hres as (er & eress' & Her & Hress & ->).
  apply Forall2_cons_inv_l in Hes as (e & es' & He & Hess & ->).
  destruct (no_burst_exact _ results eress' Hb) as [Hex Hb'].
  { symmetry. by eapply Forall2_length. }
  assert (match delivery o with Some (dest, _) => appended (place local dest) e place_in
          | None => [] end = []) as Hnot.
  { pose proof (mail_not_back local [o] [e] ltac:(by repeat constructor)) as Hm.
    unfold mail in Hm. simpl in Hm. by rewrite app_nil_r in Hm. }
  destruct (Hturn er eress' e Hw Hq Hex Her) as (w1 & Hturn1 & Hw1 & Hp1).
  { unfold deliverable in He. destruct (delivery o) as [[dest r']|]; [|done]. naive_solver. }
  destruct (IH w1 eress' es' Hw1 Hb') as (w2 & Hl & Hw2 & Hp2); [|done..|].
  { rewrite Hp1, Hnot. unfold taken. rewrite decide_True by done. by rewrite app_nil_r. }
  exists w2. split_and!; [|done|].
  - simpl. by rewrite Hturn1.
  - intros p. rewrite Hp2. unfold taken at 1. simpl. unfold mail. simpl.
    case_decide as Hp.
    + subst p. rewrite Hnot. unfold taken. by case_decide.
    + rewrite Hp1, app_assoc. unfold taken. by rewrite !decide_False by done.
Qed.

(** An answer of the resource manager: the request, what it was forwarded as, and
    the result, which names its task by the identifier of the latter. *)
Notation Reply := (QuantumTask * QuantumTask * QuantumResult)%type.
Definition to_answer (a : Reply) : Z * QuantumTask * QuantumResult :=
  (to_uint64 (QuantumTask.task_id a.1.2), a.1.1, a.2).
Lemma forwarded_ids (rs fws : list QuantumTask) uid i :
  fitting uid i (length rs) →
  QuantumTask.task_id <$> fws = to_int32 <$> ids uid i (length rs) →
  (λ fw, to_uint64 (QuantumTask.task_id fw)) <$> fws = ids uid i (length rs).
Proof.
  intros Hfit Hids.
  transitivity (to_uint64 <$> (QuantumTask.task_id <$> fws)); [by rewrite <- list_fmap_compose|].
  rewrite Hids, <- list_fmap_compose. rewrite <- (list_fmap_id (ids uid i (length rs))) at 2.
  apply list_fmap_ext. intros k id Hk. apply (wire_id id).
  apply list_elem_of_lookup_2, (ids_range _ _ _ _ Hfit) in Hk. unfold fitting in Hfit. lia.
Qed.

(** All results of a batch are correlated, in whatever order they come. *)
Lemma answers_processed reqs uid i tasks answers :
  fitting uid i (length reqs) → Forall task_wf reqs →
  (∀ id, id ∈ ids uid i (length reqs) → pending_ tasks !! id = None) →
  let '(fws, tasks1, _) := forward_all config reqs tasks (mkForward uid i) in
  answers.*1 ≡ₚ zip reqs fws →
  (∀ a, a ∈ answers → QuantumResult.task_id a.2 = QuantumTask.task_id a.1.2) →
  process_all answers.*2 tasks1 =
    ((λ a, delivered_to a.1.1 a.2) <$> answers, tasks).
Proof.
  intros Hfit Hwf Hfresh. pose proof (forward_all_spec config reqs tasks uid i Hfit) as Hall.
  destruct (forward_all config reqs tasks (mkForward uid i)) as [[fws tasks1] f1].
  destruct Hall as (Hlen & Hids & Hcomp & Hin & Hout).
  pose proof (forwarded_ids _ _ _ _ Hfit Hids) as Hwire. intros Hperm Hres.
  assert ((to_answer <$> answers).*1.*1 ≡ₚ ids uid i (length reqs)) as Hkeys.
  { rewrite <- Hwire, <- !list_fmap_compose.
    transitivity ((λ p, to_uint64 (QuantumTask.task_id p.2)) <$> answers.*1).
    { by rewrite <- list_fmap_compose. }
    rewrite Hperm.
    transitivity ((λ fw, to_uint64 (QuantumTask.task_id fw)) <$> (zip reqs fws).*2).
    { by rewrite <- list_fmap_compose. }
    by rewrite snd_zip by lia. }
  assert (∀ a, a ∈ answers → ∃ k, reqs !! k = Some a.1.1 ∧ fws !! k = Some a.1.2) as Hsrc.
  { intros a Ha. apply (list_elem_of_fmap_2 fst) in Ha. rewrite Hperm in Ha.
    apply list_elem_of_lookup in Ha as [k Hk].
    apply lookup_zip_with_Some in Hk as (r & fw & Ha & Hr & Hf). exists k. by rewrite Ha. }
  assert (∀ a, a ∈ answers → (to_uint64 (QuantumTask.task_id a.1.2), a.1.1) ∈
    zip (ids uid i (length reqs)) reqs) as Hzip.
  { intros a Ha. destruct (Hsrc a Ha) as (k & Hr & Hf). apply list_elem_of_lookup. exists k.
    apply lookup_zip_with_Some. eexists _, _. split_and!; [done| |done].
    by rewrite <- Hwire, list_lookup_fmap, Hf. }
  pose proof (process_all_spec (to_answer <$> answers) tasks1) as Hproc.
  assert ((to_answer <$> answers).*2 = answers.*2) as Hsnd by (by rewrite <- list_fmap_compose).
  rewrite Hsnd in Hproc. destruct (process_all answers.*2 tasks1) as [os tasks2].
  destruct Hproc as (-> & Hcomp2 & Hpend).
  - rewrite Hkeys. apply ids_NoDup.
  - apply Forall_fmap, Forall_forall. intros a Ha. pose proof (Hzip a Ha) as Hz.
    apply elem_of_zip_l in Hz. pose proof (ids_range _ _ _ _ Hfit Hz) as Hr.
    destruct (Hsrc a Ha) as (k & Hr1 & Hf). unfold answers_for, to_answer. simpl. split_and!.
    + by eapply Forall_lookup_1.
    + unfold fitting in Hfit. lia.
    + lia.
    + rewrite (Hres a Ha). 
      assert (QuantumTask.task_id a.1.2 ∈ to_int32 <$> ids uid i (length reqs)) as Hw.
      { rewrite <- Hids. by eapply list_elem_of_fmap_2, list_elem_of_lookup_2. }
      apply list_elem_of_fmap in Hw as (id & Hw & Hid). rewrite Hw. f_equal.
      apply (ids_range _ _ _ _ Hfit) in Hid. rewrite wire_id; unfold fitting in Hfit; lia.
  - intros a (b & -> & Hb)%list_elem_of_fmap. simpl. by apply Hin, Hzip.
  - f_equal; [by rewrite <- list_fmap_compose|].
    destruct tasks as [pend comp], tasks2 as [pend2 comp2]; simpl in *. f_equal; [|congruence].
    apply map_eq. intros id. rewrite Hpend. case_decide as Hd; rewrite Hkeys in Hd.
    + by rewrite Hfresh.
    + by apply Hout.
Qed.

(** What the clients find: each result in the queue its request names. *)
Definition posted (local : T) (answers : list Reply) (es : list Envelope) (p : Place)
    : list Envelope :=
  concat (zip_with (λ a e,
    appended (place local (QuantumTask.result_destination a.1.1)) e p) answers es).

Lemma posted_mail local answers es p :
  mail local ((λ a, delivered_to a.1.1 a.2) <$> answers) es p = posted local answers es p.
Proof.
  unfold mail, posted. f_equal. revert es.
  induction answers as [|a answers IH]; intros [|e es]; [done..|]. simpl. by rewrite IH.
Qed.

(** C9. Batches of direct tasks, from the clients' queue and back, over any
    transport with queues and any codec that round trips: with identifiers that
    fit [int32] and receives that lose nothing (or a single message), the task
    worker empties the request queue and puts, in order, one task per request
    into the queue of the resource manager; and whenever the results for these
    tasks have arrived, in any order, the result worker empties the result
    queue and puts each result, with the request's own identifier and
    destination, into the queue its request names, and nothing elsewhere.  The
    store is then what it was before. *)
Theorem batch_roundtrip local qrm local_result w tasks uid i reqs ereqs :
  settled w → no_burst (length reqs) → fitting uid i (length reqs) → Forall task_wf reqs →
  (∀ id, id ∈ ids uid i (length reqs) → pending_ tasks !! id = None) →
  place local (request (queues config)) ≠ place qrm (qrm_task (queues config)) →
  contents w (place local (request (queues config))) = ereqs → encodes reqs ereqs →
  let place_out := place qrm (qrm_task (queues config)) in
  let place_back := place local_result (QOffloadConfig.result (queues config)) in
  let '(fws, tasks1, f1) := forward_all config reqs tasks (mkForward uid i) in
  ∀ efws, encodes fws efws →
  ∃ w1,
    worker_loop (task_turn (Format := Format) config local qrm) (turns (length reqs))
      (mkCore tasks (mkForward uid i) w) = Some (mkCore tasks1 f1 w1) ∧ settled w1 ∧
    contents w1 (place local (request (queues config))) = [] ∧
    contents w1 place_out = contents w place_out ++ efws ∧
    ∀ answers w2 eanswers eback,
      answers.*1 ≡ₚ zip reqs fws →
      (∀ a, a ∈ answers → QuantumResult.task_id a.2 = QuantumTask.task_id a.1.2) →
      settled w2 → contents w2 place_back = eanswers → encodes answers.*2 eanswers →
      Forall2 (λ a e, deliverable local_result (delivered_to a.1.1 a.2) e) answers eback →
      ∃ w3,
        worker_loop (result_turn (Format := Format) config local_result) (turns (length reqs))
          (mkCore tasks1 f1 w2) = Some (mkCore tasks f1 w3) ∧ settled w3 ∧
        contents w3 place_back = [] ∧
        ∀ p, p ≠ place_back → contents w3 p = contents w2 p ++ posted local_result answers eback p.
Proof.
  intros Hw Hb Hfit Hwf Hfresh Hne Hq Hreqs place_out place_back.
  pose proof (task_loop local qrm (mkCore tasks (mkForward uid i) w) reqs ereqs) as Htask.
  pose proof (λ answers, answers_processed reqs uid i tasks answers Hfit Hwf Hfresh) as Hans.
  pose proof (forward_all_spec config reqs tasks uid i Hfit) as Hall. simpl in Htask.
  destruct (forward_all config reqs tasks (mkForward uid i)) as [[fws tasks1] f1].
  destruct Hall as (Hlen & _). intros efws Hfws.
  destruct (Htask efws Hw Hne Hb Hq Hreqs Hfws) as (w1 & Hloop & Hw1 & Hp1).
  exists w1. split_and!; [done|done| | |].
  { rewrite Hp1. unfold taken. by rewrite decide_True, decide_False. }
  { rewrite Hp1. unfold taken. rewrite decide_False, decide_True by (done || by apply not_eq_sym).
    done. }
  intros answers w2 eanswers eback Hperm Hres Hw2 Hq2 Henc Hback.
  pose proof (result_loop local_result (mkCore tasks1 f1 w2) answers.*2 eanswers eback) as Hresult.
  assert (length answers.*2 = length reqs) as Hlen2.
  { rewrite length_fmap, <- (length_fmap fst), Hperm, length_zip_with. lia. }
  simpl in Hresult. rewrite (Hans answers Hperm Hres), Hlen2 in Hresult.
  destruct Hresult as (w3 & Hloop3 & Hw3 & Hp3); [done..|by apply Forall2_fmap_l|].
  exists w3. split_and!; [done|done| |].
  - rewrite Hp3. unfold taken. rewrite decide_True by done.
    apply mail_not_back. by apply Forall2_fmap_l.
  - intros p Hp. rewrite Hp3, posted_mail. unfold taken. by rewrite decide_False.
Qed.
End Loops.

(** ** A concrete run

    The service between two RabbitMQ brokers, one for its clients and one for
    the resource manager; tasks and results are written as their identifiers. *)

Import (hints) RabbitMqQueues.
Import (hints) RabbitMqQueues.Eager.

Module Example.
Inductive Text : Set := text.

Definition print_task (t : QuantumTask) : Envelope :=
  mkEnvelope (CharConv.to_string (QuantumTask.task_id t)) "" ∅
    (QuantumTask.result_destination t) None.
Definition read_task (e : Envelope) : QuantumTask :=
  QuantumTask.set_result_destination (correlation_id e)
    (QuantumTask.set_task_id
       (default 0 (CharConv.from_chars_all CharConv.int32_t (payload e)))
       QuantumTask.default_instance).
#[export] Instance task_codec : Codec QuantumTask Text := checked same_task print_task read_task.
#[export] Instance task_laws : CodecLaws QuantumTask Text.
Proof. apply checked_laws, same_task_eq. Qed.
#[export] Instance task_plain : PlainCodec QuantumTask Text.
Proof. split; intros v; [intros e; by apply checked_plain|apply checked_not_ok]. Qed.

Definition print_result (r : QuantumResult) : Envelope :=
  mkEnvelope (CharConv.to_string (QuantumResult.task_id r)) "" ∅ (QuantumResult.destination r) None.
Definition read_result (e : Envelope) : QuantumResult :=
  QuantumResult.set_destination (correlation_id e)
    (QuantumResult.set_task_id
       (default 0 (CharConv.from_chars_all CharConv.int32_t (payload e)))
       QuantumResult.default_instance).
#[export] Instance result_codec : Codec QuantumResult Text :=
  checked same_result print_result read_result.
#[export] Instance result_laws : CodecLaws QuantumResult Text.
Proof. apply checked_laws, same_result_eq. Qed.
#[export] Instance result_plain : PlainCodec QuantumResult Text.
Proof. split; intros v; [intros e; by apply checked_plain|apply checked_not_ok]. Qed.

Definition config : Config := makeDefaultConfig (mkBuildPaths "" "" "").
Definition request : QuantumTask :=
  QuantumTask.set_result_destination "client"
    (QuantumTask.set_task_id 42 QuantumTask.default_instance).
Definition answer : QuantumResult := QuantumResult.set_task_id 7 QuantumResult.default_instance.
Definition own : QuantumResult :=
  QuantumResult.set_destination "client" (QuantumResult.set_task_id 42 answer).

(** Broker 0 holds [ms] in queue [q]; every transport is running. *)
Definition stored (ms : list Envelope) : list (RabbitMqSimpleTransport.MessageView string) :=
  @RabbitMqSimpleTransport.toBasicMessage _ RabbitMqQueues.Eager.client <$> ms.
Definition network (q : string) (ms : list Envelope)
    : @RabbitMqQueues.Hub _ RabbitMqQueues.Eager.client :=
  RabbitMqQueues.mkHub
    (λ i, RabbitMqQueues.Eager.mkBroker 0 0
            (if decide (i = 0%nat)
             then {[q := stored ms]} else ∅) ∅ ∅ ∅)
    (λ _, RabbitMqQueues.mkOwn
       (Some (RabbitMqSimpleTransport.mkState (makeTransportOptions (rabbitmq config)) false None))
       [] []).

Lemma network_settled q ms : settled (network q ms).
Proof. split; [intros i; exact I|]. intros j. split; [reflexivity|]. by eexists. Qed.
End Example.
Import (hints) Example.

Lemma batch_roundtrip_witness :
  let local := RabbitMqQueues.mkClient 0 0 in
  let qrm := RabbitMqQueues.mkClient 1 1 in
  let local_result := RabbitMqQueues.mkClient 2 0 in
  let w := Example.network (request (queues Example.config)) [Example.print_task Example.request] in
  let w2 := Example.network (QOffloadConfig.result (queues Example.config))
              [Example.print_result Example.answer] in
  ∃ w1 w3, contents w1 (1%nat, "quantum_task_collection_queue") =
      [Example.print_task (QuantumTask.set_task_id 7
         (QuantumTask.set_result_destination "qoffload_result_reception_queue" Example.request))] ∧
    worker_loop (result_turn (Format := Example.Text) Example.config local_result) (turns 1)
      (mkCore (addDirectTask (entry 7 Example.request) empty_store) (mkForward 7 1) w2) =
      Some (mkCore empty_store (mkForward 7 1) w3) ∧
    contents w3 (0%nat, "client") = [Example.print_result Example.own].
Proof.
  intros local qrm local_result w w2.
  destruct (batch_roundtrip (Format := Example.Text) Example.config ltac:(done) local qrm
    local_result w empty_store 7 0 [Example.request] [Example.print_task Example.request]
    (Example.network_settled _ _) ltac:(right; done) ltac:(done)
    ltac:(repeat constructor; done) ltac:(done) ltac:(discriminate) ltac:(vm_compute; reflexivity)
    ltac:(repeat constructor)
    [Example.print_task (QuantumTask.set_task_id 7
         (QuantumTask.set_result_destination "qoffload_result_reception_queue" Example.request))]
    ltac:(repeat constructor))
    as (w1 & _ & _ & _ & H1 & Hback).
  destruct (Hback [(Example.request, QuantumTask.set_task_id 7
         (QuantumTask.set_result_destination "qoffload_result_reception_queue" Example.request),
         Example.answer)] w2 [Example.print_result Example.answer]
         [Example.print_result Example.own])
    as (w3 & H3 & _ & _ & H4).
  - reflexivity.
  - intros a Ha. apply list_elem_of_singleton in Ha. subst a. reflexivity.
  - apply Example.network_settled.
  - vm_compute. reflexivity.
  - repeat constructor.
  - repeat constructor; discriminate.
  - exists w1, w3. split; [exact H1|]. split; [exact H3|].
    exact (H4 (0%nat, "client") ltac:(discriminate)).
Defined.
