(* ===== verification/ServiceRuns.v ===== *)
(** * What the QOffload workers do with messages (src/QOffload.cpp)

    The histories of the workers' system, without the transports: what its
    clients and its environment do, and every receive, send and other step of a
    worker.  [sys_step] says which of these can happen next in which state of the
    workers.  The theorems on its runs hold wherever the messages come from:
    [ServiceNet] and [ServiceFaults] put the queues of a transport below, which
    work or fail. *)

From S2P Require Import Prelude Status Message Transport Codec Protocol TaskStore QOffloadConfig ResourceRegistry Forward ControlProtocol Control Service QueueTransport.
From S2P Require Import Workers Codec.
From S2P Require ServiceTypes.

(** What travels between the service and the rest of the system. *)
Inductive Mail :=
  | MTask (task : QuantumTask)
  | MResult (result : QuantumResult)
  | MResponse (response : APIResponse).

(** The steps of the system one by one. *)
Ltac sys_cases :=
  intros [| | |? ? ? [] ?|? [] Hl]; simpl; try done; try discriminate Hl; rewrite ?app_nil_r.

Section Runs.
Context {T W : Type} `{QueueTransport T W} {Format : Type}
  `{CodecLaws QuantumTask Format} `{CodecLaws QuantumResult Format}
  `{CodecLaws APIRequest Format} `{CodecLaws APIResponse Format}
  `{!PlainCodec QuantumTask Format} `{!PlainCodec QuantumResult Format}
  `{!PlainCodec APIRequest Format} `{!PlainCodec APIResponse Format}.
Context (config : Config) (resources : ResourceRegistry).

(** The messengers the workers make for themselves. *)
Record Messengers := mkMessengers {
  task_local : T; task_qrm : T;
  control_local : T; control_qrm : T;
  result_local : T;
}.
Context (m : Messengers).

Definition q_request : Place := place (task_local m) (request (queues config)).
Definition q_control : Place := place (control_local m) (control_request (queues config)).
Definition q_result : Place := place (result_local m) (QOffloadConfig.result (queues config)).
Definition q_qrm : Place := place (task_qrm m) (qrm_task (queues config)).
(** Both workers that forward tasks reach the same queue, and the queues the
    service reads are different ones. *)
Definition wired : Prop :=
  queues_named config ∧ place (control_qrm m) (qrm_task (queues config)) = q_qrm ∧
  q_request ≠ q_control ∧ q_request ≠ q_result ∧ q_control ≠ q_result ∧ q_request ≠ q_qrm.

Definition inputs : list Place := [q_request; q_control; q_result].

Inductive NetLabel :=
  | NSubmitted (task : QuantumTask) (accepted : bool)   (** by a client *)
  | NEnvironment
  | NTask (request : QuantumTask)                       (** received by the task worker *)
  | NControl (request : APIRequest)                     (** by the control worker *)
  | NResult (result : QuantumResult)                    (** by the result worker *)
  | NUndecodable (p : Place)                            (** received and dropped, or nothing received *)
  | NStep (l : Label).                                  (** a step of [Service] *)

(** ** Histories *)

(** The history of the workers alone. *)
Definition served (l : NetLabel) : option Label :=
  match l with
  | NTask _ | NControl _ | NResult _ => Some LReceive
  | NStep l => Some l
  | _ => None
  end.
Definition service (tr : list NetLabel) : list Label := omap served tr.

Definition submits (l : NetLabel) : list QuantumTask :=
  match l with NSubmitted t true => [t] | _ => [] end.
Definition attempts (l : NetLabel) : list QuantumTask :=
  match l with NSubmitted t _ => [t] | _ => [] end.
Definition receives (l : NetLabel) : list QuantumTask :=
  match l with NTask t => [t] | _ => [] end.
Definition asks (l : NetLabel) : list APIRequest :=
  match l with NControl r => [r] | _ => [] end.
Definition answers (l : NetLabel) : list QuantumResult :=
  match l with NResult r => [r] | _ => [] end.
Definition registers (l : NetLabel) : list (Z * QuantumTask) :=
  match l with NStep (LRegister id t) => [(id, t)] | _ => [] end.
Definition forwards (l : NetLabel) : list QuantumTask :=
  match l with NStep (LForwarded t _) => [t] | _ => [] end.
(** A direct result that is sent: identifier, destination, message. *)
Definition delivers (l : NetLabel) : list (Z * (string * QuantumResult)) :=
  match l with NStep (LDeliver id d r _) => [(id, (d, r))] | _ => [] end.
Definition responds (l : NetLabel) : list APIResponse :=
  match l with NStep (LResponse r _) => [r] | _ => [] end.

Definition submitted (tr : list NetLabel) : list QuantumTask := tr ≫= submits.
Definition attempted (tr : list NetLabel) : list QuantumTask := tr ≫= attempts.
Definition received (tr : list NetLabel) : list QuantumTask := tr ≫= receives.
Definition asked (tr : list NetLabel) : list APIRequest := tr ≫= asks.
Definition answered (tr : list NetLabel) : list QuantumResult := tr ≫= answers.
Definition registered (tr : list NetLabel) : list (Z * QuantumTask) := tr ≫= registers.
Definition forwarded (tr : list NetLabel) : list QuantumTask := tr ≫= forwards.
Definition delivered (tr : list NetLabel) : list (Z * (string * QuantumResult)) :=
  tr ≫= delivers.
Definition responded (tr : list NetLabel) : list APIResponse := tr ≫= responds.

(** What a step puts into the queues, where it was accepted. *)
Definition sent (l : NetLabel) : list (Place * Mail) :=
  match l with
  | NSubmitted t true => [(q_request, MTask t)]
  | NStep (LForwarded t true) => [(q_qrm, MTask t)]
  | NStep (LDeliver _ d r true) => [(place (result_local m) d, MResult r)]
  | NStep (LResponse r true) =>
      [(place (control_local m) (APIResponse.destination_queue r), MResponse r)]
  | _ => []
  end.
(** Accepted or not. *)
Definition offers (l : NetLabel) : list (Place * Mail) :=
  match l with
  | NSubmitted t _ => [(q_request, MTask t)]
  | NStep (LForwarded t _) => [(q_qrm, MTask t)]
  | NStep (LDeliver _ d r _) => [(place (result_local m) d, MResult r)]
  | NStep (LResponse r _) =>
      [(place (control_local m) (APIResponse.destination_queue r), MResponse r)]
  | _ => []
  end.
Definition to (p : Place) (mail : list (Place * Mail)) : list Mail :=
  (filter (λ pm, pm.1 = p) mail).*2.
Definition posted (p : Place) (tr : list NetLabel) : list Mail :=
  to p (tr ≫= sent).
Definition offered (p : Place) (tr : list NetLabel) : list Mail := to p (tr ≫= offers).

Definition encoded (ml : Mail) (e : Envelope) : Prop :=
  match ml with
  | MTask t => encode Format t = inr e
  | MResult r => encode Format r = inr e
  | MResponse r => encode Format r = inr e
  end.

(** ** Steps of the workers and their surroundings *)

Inductive sys_step : Sys → NetLabel → Sys → Prop :=
  | sys_task st f c r request :
      task_wf request →
      sys_step (mkSys st f TIdle c r) (NTask request) (mkSys st f (TReceived request) c r)
  | sys_control st f t r request :
      sys_step (mkSys st f t CIdle r) (NControl request) (mkSys st f t (CExec request) r)
  | sys_result st f t c result :
      result_wf result →
      sys_step (mkSys st f t c RIdle) (NResult result) (mkSys st f t c (RReceived result))
  | sys_moves s l s' :
      Service.step config resources s l s' → l ≠ LReceive → sys_step s (NStep l) s'
  | sys_stays s l : served l = None → sys_step s l s.

Lemma sys_step_served s l s' :
  sys_step s l s' →
  match served l with
  | Some l' => Service.step config resources s l' s'
  | None => s' = s
  end.
Proof. intros [| | | |? ? Hl]; simpl; try constructor; try done. by rewrite Hl. Qed.

Lemma service_snoc tr l : service (tr ++ [l]) = service tr ++ option_list (served l).
Proof. unfold service. rewrite omap_app. simpl. by destruct (served l). Qed.

(** Hiding the receives and the surroundings, a run is a run of [Service]. *)
Lemma sys_run_served s tr s' :
  run sys_step s tr s' → run (Service.step config resources) s (service tr) s'.
Proof.
  induction 1 as [|tr s1 l s2 _ IH Hl]; [constructor|].
  apply sys_step_served in Hl. rewrite service_snoc.
  destruct (served l); [by econstructor|]. by rewrite Hl, app_nil_r.
Qed.

Lemma posted_one p l : posted p [l] = to p (sent l).
Proof. unfold posted. simpl. by rewrite app_nil_r. Qed.

(** Messages are sent to named queues only. *)
Definition addressed (l : NetLabel) : Prop :=
  match l with NStep (LDeliver _ d _ _) => d ≠ "" | _ => True end.

Lemma reply_queue request r :
  APIResponse.destination_queue (response_to request r) = APIRequest.response_queue request.
Proof. apply controlProtocolFor_dest. Qed.

(** ** Polite clients *)

(** Clients name queues [outside] the service for their answers: not the one it
    takes their requests from. *)
Context (outside : Place → Prop) (Houtside : ∀ p, outside p → p ≠ q_request).

Definition answerable (task : QuantumTask) : Prop :=
  QuantumTask.result_destination task ≠ "" ∧
  outside (place (result_local m) (QuantumTask.result_destination task)).
Definition polite (l : NetLabel) : Prop :=
  match l with
  | NSubmitted task _ => answerable task
  | NControl r => APIRequest.response_queue r ≠ "" →
                  outside (place (control_local m) (APIRequest.response_queue r))
  | _ => True
  end.
(** The same of what the service sends. *)
Definition outward (l : NetLabel) : Prop :=
  match l with
  | NStep (LDeliver _ d _ _) => d ≠ "" ∧ outside (place (result_local m) d)
  | NStep (LResponse r _) =>
      outside (place (control_local m) (APIResponse.destination_queue r))
  | _ => True
  end.

Lemma outward_addressed l : outward l → addressed l.
Proof. destruct l as [| | | | | |[]]; simpl; naive_solver. Qed.

(** ** The workers *)

Definition task_holds (pc : TaskPc) : list QuantumTask :=
  match pc with TReceived r | TRegister _ r => [r] | _ => [] end.

(** The task worker registers what it receives. *)
Lemma registered_step s l s' :
  sys_step s l s' →
  task_holds (task_pc s) ++ receives l =
  (registers l).*2 ++ task_holds (task_pc s').
Proof. by sys_cases. Qed.

Definition message_of (r : Z * QuantumTask) : QuantumTask := forwarded_message config r.1 r.2.
Definition task_sends (pc : TaskPc) : list QuantumTask :=
  match pc with TSend t => [t] | _ => [] end.

(** And forwards what it has registered. *)
Lemma forwarded_step s l s' :
  sys_step s l s' →
  ∃ fw, fw `sublist_of` forwards l ∧
    task_sends (task_pc s) ++ (message_of <$> registers l) = fw ++ task_sends (task_pc s').
Proof.
  sys_cases;
    first [by exists [] | by eexists [_]; split; [constructor|] | idtac].
  exists []. split; [apply sublist_nil_l|done].
Qed.

Definition control_holds (pc : ControlPc) : list APIRequest :=
  match pc with
  | CIdle => []
  | CExec r | CRegister _ _ r | CTake _ _ r | CForward _ _ r | CReply _ r => [r]
  end.
Definition answer_to (request : APIRequest) (r : APIResponse) : Prop :=
  ∃ result, r = response_to request result.
(** Requests that name a queue for the answer. *)
Notation expecting := (filter (λ r, APIRequest.response_queue r ≠ "")).

(** The control worker answers what it receives. *)
Lemma responded_step s l s' :
  sys_step s l s' →
  ∃ dn, control_holds (control_pc s) ++ asks l =
      dn ++ control_holds (control_pc s') ∧
    Forall2 answer_to (expecting dn) (responds l).
Proof.
  sys_cases;
    first [done | by exists []; split; [|constructor] | idtac].
  - exists [request]. split; [done|]. rewrite filter_cons_True by done.
    repeat constructor. by exists result.
  - exists [request]. split; [done|]. rewrite filter_cons_False by naive_solver. constructor.
Qed.

Definition result_holds (pc : ResultPc) : list QuantumResult :=
  match pc with RReceived r | RDeliver _ r => [r] | _ => [] end.

(** The message a client gets for its request when the result is [r]. *)
Definition answer (request : QuantumTask) (r : QuantumResult) : string * QuantumResult :=
  (QuantumTask.result_destination request,
   QuantumResult.set_destination (QuantumTask.result_destination request)
     (QuantumResult.set_task_id (QuantumTask.task_id request) r)).

Lemma elem_service l tr : NStep l ∈ tr → l ∈ service tr.
Proof. intros Hin. apply list_elem_of_omap. by exists (NStep l). Qed.
Lemma elem_registered id request tr :
  LRegister id request ∈ service tr ↔ (id, request) ∈ registered tr.
Proof.
  unfold service, registered. rewrite list_elem_of_omap, list_elem_of_bind. split.
  - intros (l & Hin & Hl). exists l. split; [|done]. destruct l; simplify_eq/=. by left.
  - intros (l & Hl & Hin). exists l. split; [done|].
    destruct l as [| | | | | |[]]; simpl in *; try by apply elem_of_nil in Hl.
    apply list_elem_of_singleton in Hl. by simplify_eq.
Qed.

(** ** Histories *)

Context (uid : Z).
Notation runs tr s := (run sys_step (initial uid) tr s).

Lemma run_registered tr s :
  runs tr s → received tr = (registered tr).*2 ++ task_holds (task_pc s).
Proof.
  intros Hr. unfold registered. rewrite list_fmap_of_bind.
  exact (run_conserved _ receives (λ l, (registers l).*2) _ _ _ _ registered_step Hr).
Qed.

Lemma run_forwarded tr s :
  runs tr s → ∃ fw, fw `sublist_of` forwarded tr ∧
    message_of <$> registered tr = fw ++ task_sends (task_pc s).
Proof.
  unfold forwarded, registered. induction 1 as [|tr s l s' _ (fw & Hsub & Heq) Hl].
  { by exists []. }
  destruct (forwarded_step s l s' Hl) as (fw' & Hsub' & Heq').
  exists (fw ++ fw'). rewrite !bind_snoc, fmap_app, Heq, <- !app_assoc, Heq'.
  split; [by apply sublist_app|done].
Qed.

Lemma run_responded tr s :
  runs tr s → ∃ dn, asked tr = dn ++ control_holds (control_pc s) ∧
    Forall2 answer_to (expecting dn) (responded tr).
Proof.
  unfold asked, responded. induction 1 as [|tr s l s' _ (dn & Heq & Hall) Hl].
  { exists []. by split; [|constructor]. }
  destruct (responded_step s l s' Hl) as (dn' & Heq' & Hall').
  exists (dn ++ dn'). rewrite !bind_snoc, filter_app, Heq, <- !app_assoc, Heq'.
  split; [done|by apply Forall2_app].
Qed.

(** A delivery [d] of the result [r]: the result carries the identifier under
    which a request was registered, and [d] is what that client expects. *)
Definition matches (tr : list NetLabel) (r : QuantumResult) (d : Z * (string * QuantumResult))
    : Prop :=
  ∃ request, (d.1, request) ∈ registered tr ∧ QuantumResult.task_id r = to_int32 d.1 ∧
    d.2 = answer request r.

Definition correlated (pc : ResultPc) : Prop :=
  match pc with
  | RReceived r => result_wf r
  | RDeliver p r => QuantumResult.task_id r = to_int32 (forwarded_task_id p)
  | _ => True
  end.

Lemma answer_mapped id request r :
  task_wf request → (original_result_destination (pending_of id request),
    mapped_result (pending_of id request) r) = answer request r.
Proof.
  intros Hwf. unfold answer, mapped_result. simpl. by rewrite to_int32_uint64.
Qed.

Lemma delivered_step tr s l s' :
  Provenance (service tr) s → correlated (result_pc s) → sys_step s l s' →
  correlated (result_pc s') ∧
  ∃ rs, rs ++ result_holds (result_pc s') `sublist_of`
          result_holds (result_pc s) ++ answers l ∧
    Forall2 (matches tr) rs (delivers l).
Proof.
  intros Hprov Hc Hs. revert Hs Hprov Hc.
  sys_cases; intros Hprov Hc;
    first [discriminate | split; [done|]; exists []; split; [reflexivity|constructor] | idtac].
  - split; [done|]. exists []. split; [apply sublist_nil_l|constructor].
  - match goal with Ht : takePending _ _ = _ |- _ => apply takePending_Some in Ht as [Hl _] end.
    pose proof (came_from_id _ _ _ (prov_pending _ _ Hprov _ _ Hl)) as Hid.
    destruct (kind p); simpl; (split; [|exists []; split; [first [reflexivity|apply sublist_nil_l]|constructor]]).
    + rewrite Hid. symmetry. by apply to_int32_uint64.
    + done.
  - split; [done|]. exists [result]. split; [done|]. repeat constructor.
    destruct (prov_result _ _ Hprov) as [Hk Hcame]. unfold came_from in Hcame.
    rewrite Hk in Hcame. destruct Hcame as (request & Hq & Hp).
    exists request. split_and!; [by apply elem_registered|done|]. simpl.
    rewrite Hp. apply answer_mapped. by eapply prov_registered.
Qed.

Lemma matches_mono tr tr' r d : matches tr r d → matches (tr ++ tr') r d.
Proof.
  intros (request & Hin & H1' & H2'). exists request. split_and!; [|done..].
  unfold registered. rewrite bind_app. apply elem_of_app. by left.
Qed.

Lemma run_delivered tr s :
  runs tr s →
  correlated (result_pc s) ∧
  ∃ rs, rs ++ result_holds (result_pc s) `sublist_of` answered tr ∧
    Forall2 (matches tr) rs (delivered tr).
Proof.
  unfold answered, delivered. induction 1 as [|tr s l s' Hr (Hc & rs & Hsub & Hall) Hl].
  { split; [done|]. by exists []. }
  pose proof (runs_provenance _ _ _ _ _ (sys_run_served _ _ _ Hr)) as Hprov.
  destruct (delivered_step tr s l s' Hprov Hc Hl) as (Hc' & rs' & Hsub' & Hall').
  split; [done|]. exists (rs ++ rs'). rewrite !bind_snoc, <- app_assoc. split.
  - etransitivity; [by apply sublist_app|]. rewrite app_assoc. by apply sublist_app.
  - apply Forall2_app; (eapply Forall2_impl; [done|intros; by apply matches_mono]).
Qed.

Lemma polite_tasks tr : Forall polite tr → Forall answerable (attempted tr).
Proof.
  intros Hp. apply Forall_forall. intros t (l & Hl & Hin)%list_elem_of_bind.
  rewrite Forall_forall in Hp. specialize (Hp l Hin).
  destruct l; simpl in *; try by apply elem_of_nil in Hl.
  by apply list_elem_of_singleton in Hl as ->.
Qed.

Lemma polite_requests tr r :
  Forall polite tr → r ∈ asked tr → APIRequest.response_queue r ≠ "" →
  outside (place (control_local m) (APIRequest.response_queue r)).
Proof.
  intros Hp (l & Hl & Hin)%list_elem_of_bind. rewrite Forall_forall in Hp. specialize (Hp l Hin).
  destruct l; simpl in *; try by apply elem_of_nil in Hl.
  by apply list_elem_of_singleton in Hl as ->.
Qed.

(** What is accepted has been attempted. *)
Lemma submitted_attempted tr : submitted tr `sublist_of` attempted tr.
Proof.
  unfold submitted, attempted. induction tr as [|l tr IH]; simpl; [done|].
  apply sublist_app; [|done]. destruct l as [? []| | | | | |]; simpl; auto using sublist_nil_l.
Qed.

(** Polite clients keep the service from writing to its own request queue. *)
Lemma outward_label tr s l s' :
  runs tr s → sys_step s l s' → Forall polite tr → received tr `sublist_of` attempted tr →
  outward l.
Proof.
  intros Hr Hs Hp Hsub.
  destruct l as [| | | | | |[| | | | | | | | | |id d r acc| |r acc]]; simpl; try done.
  - destruct (run_delivered tr s Hr) as (Hc & _).
    pose proof (runs_provenance _ _ _ _ _ (sys_run_served _ _ _ Hr)) as Hprov.
    destruct (delivered_step tr s _ s' Hprov Hc Hs) as (_ & rs & _ & Hall). simpl in Hall.
    apply Forall2_cons_inv_r in Hall as (r' & ? & (request & Hin & _ & Ha) & _ & _).
    injection Ha as -> _. pose proof (polite_tasks tr Hp) as Hall.
    rewrite Forall_forall in Hall. apply Hall, (sublist_subseteq _ _ Hsub).
    rewrite (run_registered tr s Hr). apply elem_of_app. left.
    by apply (list_elem_of_fmap_2 snd _ _) in Hin.
  - destruct (responded_step s _ s' Hs) as (dn & Heq & Hall). simpl in Hall.
    apply Forall2_cons_inv_r in Hall as (q & ? & [result ->] & _ & Hq).
    assert (q ∈ expecting dn) as [Hne Hin]%list_elem_of_filter by (rewrite Hq; by left).
    rewrite reply_queue. apply (polite_requests tr); [done| |done].
    destruct (run_responded tr s Hr) as (dn' & -> & _). apply elem_of_app. right.
    simpl in Heq. rewrite app_nil_r in Heq. rewrite Heq. apply elem_of_app. by left.
Qed.

(** *** Identifiers are used once *)

Lemma short_service tr l : short (service (tr ++ [l])) → short (service tr).
Proof. rewrite service_snoc. unfold short. rewrite length_app. lia. Qed.

Lemma delivered_NoDup tr s : runs tr s → short (service tr) → NoDup (delivered tr).*1.
Proof.
  unfold delivered. induction 1 as [|tr s l s' Hr IH Hs]; intros Hsh; [constructor|].
  pose proof (IH (short_service _ _ Hsh)) as Hnd. rewrite bind_snoc, fmap_app.
  destruct l as [| | | | | |[| | | | | | | | | |id d r acc| |]]; simpl; rewrite ?app_nil_r; try done.
  apply NoDup_app. split_and!; [done| |apply NoDup_singleton].
  intros i Hi ->%list_elem_of_singleton.
  apply list_elem_of_fmap in Hi as ([i [d' r']] & -> & Hi). simpl in *.
  apply list_elem_of_bind in Hi as (l & Hl & Hin).
  destruct l as [| | | | | |[| | | | | | | | | |i' d'' r'' acc'| |]]; simpl in Hl;
    try by apply elem_of_nil in Hl.
  apply list_elem_of_singleton in Hl. simplify_eq. apply elem_service in Hin.
  assert (runs (tr ++ [NStep (LDeliver i' d r acc)]) s') as Hr' by (by econstructor).
  pose proof (balance_bounds _ _ _ _ _ i' (sys_run_served _ _ _ Hr') Hsh) as [Hb _].
  rewrite service_snoc in Hb. simpl in Hb. rewrite !count_snoc in Hb. simpl in Hb.
  rewrite bool_decide_true in Hb by done.
  pose proof (count_pos (finishes i') (service tr) _ Hin ltac:(simpl; by apply bool_decide_true)).
  lia.
Qed.

Lemma registered_NoDup tr s : runs tr s → short (service tr) → NoDup (registered tr).*1.
Proof.
  induction 1 as [|tr s l s' Hr IH Hs]; intros Hsh; [constructor|].
  pose proof (IH (short_service _ _ Hsh)) as Hnd.
  unfold registered in *. rewrite bind_snoc, fmap_app.
  destruct l as [| | | | | |[| |id q| | | | | | | | | |]]; simpl; rewrite ?app_nil_r; try done.
  apply NoDup_app. split_and!; [done| |apply NoDup_singleton].
  intros i Hi ->%list_elem_of_singleton.
  apply list_elem_of_fmap in Hi as ([i q'] & -> & Hi%elem_registered). simpl in *.
  assert (runs (tr ++ [NStep (LRegister i q)]) s') as Hr' by (by econstructor).
  pose proof (registers_once _ _ _ _ _ i (sys_run_served _ _ _ Hr') Hsh) as Hc.
  rewrite service_snoc in Hc. simpl in Hc. rewrite count_snoc in Hc. simpl in Hc.
  rewrite bool_decide_true in Hc by done.
  pose proof (count_pos (Service.registers i) _ _ Hi ltac:(simpl; by apply bool_decide_true)). lia.
Qed.

Lemma registered_once tr s id q q' :
  runs tr s → short (service tr) → (id, q) ∈ registered tr → (id, q') ∈ registered tr → q = q'.
Proof.
  rewrite <- !elem_registered. intros Hr Hsh. apply sys_run_served in Hr.
  by eapply registered_one_request.
Qed.

(** The deliveries, each with its identifier, its request and its result. *)
Lemma delivered_pairs tr rs ds :
  Forall2 (matches tr) rs ds →
  ∃ pairs : list (Z * (QuantumTask * QuantumResult)),
    pairs.*2.*2 = rs ∧ pairs.*1 = ds.*1 ∧ ds.*2 = (λ x, answer x.2.1 x.2.2) <$> pairs ∧
    Forall (λ x, (x.1, x.2.1) ∈ registered tr ∧ QuantumResult.task_id x.2.2 = to_int32 x.1) pairs.
Proof.
  induction 1 as [|r [id d] rs ds (q & Hq & Hid & Hd) _ (ps & <- & Hi & Hds & Hall)].
  { by exists []. }
  exists ((id, (q, r)) :: ps). csimpl. simpl in Hq, Hid, Hd. rewrite Hi, Hds, Hd. split_and!; [done..|].
  by constructor.
Qed.

(** Every answer belongs to one of the requests received, in any history. *)
Lemma answers_paired tr s :
  runs tr s → short (service tr) →
  ∃ pairs : list (Z * (QuantumTask * QuantumResult)),
    (delivered tr).*2 = (λ x, answer x.2.1 x.2.2) <$> pairs ∧ NoDup pairs.*1 ∧
    pairs.*2.*1 ⊆+ received tr ∧ pairs.*2.*2 `sublist_of` answered tr ∧
    Forall (λ x, (x.1, x.2.1) ∈ registered tr ∧ QuantumResult.task_id x.2.2 = to_int32 x.1) pairs.
Proof.
  intros Hr Hsh. destruct (run_delivered tr s Hr) as (_ & rs & Hsub & Hall).
  destruct (delivered_pairs tr rs _ Hall) as (ps & <- & Hids & Hds & Hreg).
  pose proof (delivered_NoDup tr s Hr Hsh) as Hnd. rewrite <- Hids in Hnd.
  exists ps. split_and!; [done|done| | |done].
  - transitivity (registered tr).*2.
    + replace ps.*2.*1 with (((λ x, (x.1, x.2.1)) <$> ps).*2)
        by (by rewrite <- !list_fmap_compose).
      apply fmap_submseteq, NoDup_submseteq.
      * apply (NoDup_fmap_1 fst). by rewrite <- list_fmap_compose.
      * intros x (y & -> & Hy)%list_elem_of_fmap. rewrite Forall_forall in Hreg.
        by apply Hreg.
    + rewrite (run_registered tr s Hr). by apply submseteq_inserts_r.
  - etransitivity; [|exact Hsub]. by apply sublist_inserts_r.
Qed.

(** The control worker's answers go where the requests say. *)
Lemma responses_addressed tr s :
  runs tr s → ∃ done, asked tr = done ++ control_holds (control_pc s) ∧
    Forall2 (λ request r, answer_to request r ∧
               APIResponse.destination_queue r = APIRequest.response_queue request)
      (expecting done) (responded tr).
Proof.
  intros Hr. destruct (run_responded tr s Hr) as (dn & Heq & Hall). exists dn. split; [done|].
  eapply Forall2_impl; [done|]. intros q r Ha. split; [done|].
  destruct Ha as [result ->]. apply reply_queue.
Qed.

(** Where a registered request is. *)
Definition in_hand (tr : list NetLabel) (s : Sys) (id : Z) (q : QuantumTask) : Prop :=
  pending_ (store s) !! id = Some (pending_of id q) ∨
  (∃ r, result_pc s = RDeliver (pending_of id q) r) ∨
  ∃ r, (id, answer q r) ∈ delivered tr.

Lemma registered_in_hand tr s id q :
  runs tr s → short (service tr) → (id, q) ∈ registered tr → in_hand tr s id q.
Proof.
  intros Hn Hsh Hq%elem_registered. pose proof (sys_run_served _ _ _ Hn) as Hr.
  pose proof (runs_provenance _ _ _ _ _ Hr) as Hprov.
  assert (∀ p, came_from (service tr) id p → p = pending_of id q) as Hone.
  { intros p Hp. unfold came_from in Hp. destruct (kind p).
    - destruct Hp as (q' & Hq' & ->).
      by rewrite (registered_one_request _ _ _ _ _ id q' q Hr Hsh Hq' Hq).
    - destruct Hp as [Hc _]. by destruct (created_not_registered _ _ _ _ _ _ q Hr Hsh Hc). }
  pose proof (runs_balance _ _ _ _ _ Hr Hsh) as [_ HP HF]. specialize (HP id). specialize (HF id).
  pose proof (count_pos (Service.registers id) _ _ Hq ltac:(simpl; by apply bool_decide_true)).
  destruct (pending_ (store s) !! id) as [p|] eqn:Hl.
  { left. by rewrite Hl, (Hone p) by by apply (prov_pending _ _ Hprov). }
  unfold one in HP. rewrite decide_False in HP by (by intros [? ?]). simpl in HP.
  right. destruct (decide (count (finishes id) (service tr) = 0%nat)) as [Hz|Hz].
  - left. pose proof (prov_result _ _ Hprov) as Hres.
    destruct (result_pc s) as [| |p r|p r]; simpl in HF; try lia; unfold one in HF;
      (case_decide as Hid; [|lia]); destruct Hres as [Hk Hcame]; rewrite Hid in Hcame;
      pose proof (Hone p Hcame) as ->; [done|by exists r].
  - right. destruct (count_elem (finishes id) (service tr) ltac:(lia)) as (l & Hin & Hf).
    destruct l as [| | | | | | | | |id'|id' d r acc| |]; try done; simpl in Hf;
      apply bool_decide_eq_true in Hf as ->.
    + apply (stored_created _ _ _ _ _ _ Hr) in Hin.
      by destruct (created_not_registered _ _ _ _ _ _ q Hr Hsh Hin).
    + destruct (run_delivered tr s Hn) as (_ & rs & _ & Hall).
      assert ((id, (d, r)) ∈ delivered tr) as Hd.
      { apply list_elem_of_omap in Hin as ([| | | | | |l] & Hin & Hserved); simplify_eq/=.
        apply list_elem_of_bind. eexists. split; [|done]. by left. }
      apply list_elem_of_lookup_1 in Hd as [i Hi].
      destruct (Forall2_lookup_r _ _ _ _ _ Hall Hi) as (r' & _ & q' & Hq' & _ & Heq).
      simpl in *. apply elem_registered in Hq'.
      rewrite (registered_one_request _ _ _ _ _ id q q' Hr Hsh Hq Hq').
      exists r'. rewrite <- Heq. by apply list_elem_of_lookup_2 in Hi.
Qed.
End Runs.
