(* ===== verification/ServiceNet.v ===== *)
(** * The QOffload workers interleaved over transports (src/QOffload.cpp)

    [Service] interleaves the workers and leaves the transports out; [Workers]
    has the transports and runs one worker at a time.  Here the three workers
    run at once and their messages travel through the queues of any
    [QueueTransport].  A step is a send or a receive of a worker, together with
    the step of [Service] it belongs to; another step of [Service]; a task
    handed in by a client; or anything else that happens to queues that are
    not the service's own.  Sends succeed and receives find what is there;
    [ServiceFaults] adds the ones that fail. *)

From S2P Require Import Prelude Status Message Transport Codec Protocol TaskStore QOffloadConfig ResourceRegistry Forward ControlProtocol Control Service QueueTransport.
From S2P Require Import Workers ServiceRuns Codec.
From S2P Require Messenger ServiceTypes.

(** ** The system *)

Section Net.
Context {T W : Type} `{QueueTransport T W} {Format : Type}
  `{CodecLaws QuantumTask Format} `{CodecLaws QuantumResult Format}
  `{CodecLaws APIRequest Format} `{CodecLaws APIResponse Format}
  `{!PlainCodec QuantumTask Format} `{!PlainCodec QuantumResult Format}
  `{!PlainCodec APIRequest Format} `{!PlainCodec APIResponse Format}.
Context (config : Config) (resources : ResourceRegistry).

Context (m : Messengers (T := T)).
Notation NetLabel := (NetLabel (T := T) (W := W)).
Notation q_request := (q_request config m).
Notation q_control := (q_control config m).
Notation q_result := (q_result config m).
Notation inputs := (inputs config m).
Notation wired := (wired config m).
Notation sent := (sent config m).
Notation posted := (posted config m).
Notation encoded := (encoded (Format := Format)).
Notation sys_step := (sys_step config resources).
Notation message_of := (message_of config).

(** The shared state and the workers, and the queues. *)
Record Net := mkNet { sys : Sys; world : W }.

(** Queues that only the service and its clients touch. *)
Context (kept : list Place).

(** Receives of the workers, and sends. *)
Definition gets {A} `{Codec A Format} (t : T) (queue : string) (w : W) (v : A) (w' : W) : Prop :=
  found (Format := Format) worker_args t queue w (inr v) w'.
Definition gets_junk (A : Type) `{Codec A Format} (t : T) (queue : string) (w w' : W) : Prop :=
  ∃ st, found (Format := Format) (A := A) worker_args t queue w (inl st) w'.
Definition puts {A} `{Codec A Format} (t : T) (queue : string) (v : A) (w : W) (accepted : bool)
    (w' : W) : Prop :=
  ∃ st, put (Format := Format) t queue v w = (st, w') ∧ ok st = accepted.

Inductive worker_step : Net → NetLabel → Net → Prop :=
  (* the task worker *)
  | net_task st f c r w w' request :
      gets (task_local m) (QOffloadConfig.request (queues config)) w request w' →
      task_wf request →
      worker_step (mkNet (mkSys st f TIdle c r) w) (NTask request)
        (mkNet (mkSys st f (TReceived request) c r) w')
  | net_task_junk st f c r w w' :
      gets_junk QuantumTask (task_local m) (QOffloadConfig.request (queues config)) w w' →
      worker_step (mkNet (mkSys st f TIdle c r) w) (NUndecodable q_request)
        (mkNet (mkSys st f TIdle c r) w')
  | net_task_forward st f c r w w' task accepted :
      puts (task_qrm m) (qrm_task (queues config)) task w accepted w' →
      worker_step (mkNet (mkSys st f (TSend task) c r) w) (NStep (LForwarded task accepted))
        (mkNet (mkSys st f TIdle c r) w')
  (* the control worker *)
  | net_control st f t r w w' request :
      gets (control_local m) (control_request (queues config)) w request w' →
      worker_step (mkNet (mkSys st f t CIdle r) w) (NControl request)
        (mkNet (mkSys st f t (CExec request) r) w')
  | net_control_junk st f t r w w' :
      gets_junk APIRequest (control_local m) (control_request (queues config)) w w' →
      worker_step (mkNet (mkSys st f t CIdle r) w) (NUndecodable q_control)
        (mkNet (mkSys st f t CIdle r) w')
  | net_control_forward st f t r w w' task result request accepted :
      puts (control_qrm m) (qrm_task (queues config)) task w accepted w' →
      worker_step (mkNet (mkSys st f t (CForward task result request) r) w)
        (NStep (LForwarded task accepted))
        (mkNet (mkSys st f t (CReply result request) r) w')
  | net_control_reply st f t r w w' result request accepted :
      let response := response_to request result in
      APIRequest.response_queue request ≠ "" →
      puts (control_local m) (APIResponse.destination_queue response) response w accepted w' →
      worker_step (mkNet (mkSys st f t (CReply result request) r) w)
        (NStep (LResponse response accepted)) (mkNet (mkSys st f t CIdle r) w')
  (* the result worker *)
  | net_result st f t c w w' result :
      gets (result_local m) (QOffloadConfig.result (queues config)) w result w' →
      result_wf result →
      worker_step (mkNet (mkSys st f t c RIdle) w) (NResult result)
        (mkNet (mkSys st f t c (RReceived result)) w')
  | net_result_junk st f t c w w' :
      gets_junk QuantumResult (result_local m) (QOffloadConfig.result (queues config)) w w' →
      worker_step (mkNet (mkSys st f t c RIdle) w) (NUndecodable q_result)
        (mkNet (mkSys st f t c RIdle) w')
  | net_result_deliver st f t c w w' p result accepted :
      let mapped := mapped_result p result in
      puts (result_local m) (original_result_destination p) mapped w accepted w' →
      worker_step (mkNet (mkSys st f t c (RDeliver p result)) w)
        (NStep (LDeliver (forwarded_task_id p) (original_result_destination p) mapped accepted))
        (mkNet (mkSys st f t c RIdle) w')
  (* between receives and sends *)
  | net_local s l s' w :
      Service.step config resources s l s' → local l = true →
      worker_step (mkNet s w) (NStep l) (mkNet s' w).

Inductive net_step : Net → NetLabel → Net → Prop :=
  | net_submit t task s w w' accepted :
      place t (request (queues config)) = q_request →
      puts t (request (queues config)) task w accepted w' →
      net_step (mkNet s w) (NSubmitted task accepted) (mkNet s w')
  | net_environment s w w' :
      settled w → settled w' → (∀ p, p ∈ q_request :: kept → contents w' p = contents w p) →
      net_step (mkNet s w) NEnvironment (mkNet s w')
  | net_worker n l n' : worker_step n l n' → net_step n l n'.

(** ** The workers are those of [Service] *)

Lemma net_step_served n l n' :
  net_step n l n' →
  match served l with
  | Some l' => Service.step config resources (sys n) l' (sys n')
  | None => sys n' = sys n
  end.
Proof. by intros [| |? ? ? []]; simpl; try constructor. Qed.

Lemma net_sys_step n l n' : net_step n l n' → sys_step (sys n) l (sys n').
Proof.
  intros [| |? ? ? []]; simpl; try by constructor.
  - apply sys_moves; [constructor|done].
  - apply sys_moves; [by constructor|done].
  - apply sys_moves; [by constructor|done].
  - apply sys_moves; [by constructor|done].
  - apply sys_moves; [done|]. by intros ->.
Qed.

(** Hiding the queues, a run is a run of the workers. *)
Lemma run_sys n tr n' : run net_step n tr n' → run sys_step (sys n) tr (sys n').
Proof.
  induction 1; [constructor|]. econstructor; [done|]. by eapply net_sys_step.
Qed.

Lemma net_run_served n tr n' :
  run net_step n tr n' → run (Service.step config resources) (sys n) (service tr) (sys n').
Proof. intros Hr. by apply sys_run_served, run_sys. Qed.

(** ** What a step does to the queues *)

Context (Hwired : wired).

Definition fetches (l : NetLabel) : bool :=
  match l with NTask _ | NControl _ | NResult _ | NUndecodable _ => true | _ => false end.

(** The queue a worker reads. *)
Definition reads (l : NetLabel) (q : Place) (e : Envelope) : Prop :=
  match l with
  | NTask v => q = q_request ∧ decode Format e = inr v
  | NControl v => q = q_control ∧ decode Format e = inr v
  | NResult v => q = q_result ∧ decode Format e = inr v
  | NUndecodable q' =>
      q = q' ∧ (q = q_request → ∃ st, decode Format (T := QuantumTask) e = inl st) ∧
      (q = q_result → ∃ st, decode Format (T := QuantumResult) e = inl st)
  | _ => False
  end.

(** One message taken from a queue, and the ones the receive loses with it; or
    messages put at the ends of queues. *)
Definition takes_one (l : NetLabel) (w w' : W) : Prop :=
  ∃ q e skipped, q ∈ inputs ∧ reads l q e ∧ contents w q = e :: skipped ++ contents w' q ∧
    (lossless worker_args = true → skipped = []) ∧
    ∀ p, p ≠ q → contents w' p = contents w p.
Definition puts_some (l : NetLabel) (w w' : W) : Prop :=
  fetches l = false ∧
  ∀ p, ∃ es, contents w' p = contents w p ++ es ∧ Forall2 encoded (posted p [l]) es.

Lemma got {A : Type} `{CodecLaws A Format} `{!PlainCodec A Format} t n w (r : Result A) w' l :
  settled w → n ≠ "" → place t n ∈ inputs →
  (∀ e, r = decode Format e → reads l (place t n) e) →
  found (Format := Format) worker_args t n w r w' → settled w' ∧ takes_one l w w'.
Proof.
  intros Hw Hn Hin Hl Hf.
  destruct (found_spec worker_args t n w r w' Hw Hn ltac:(done) eq_refl Hf)
    as (Hw' & (e & skipped & Hq & Hr & Hs) & Hp).
  split; [done|]. exists (place t n), e, skipped. auto.
Qed.

Lemma nothing_sent l w : fetches l = false → sent l = [] → puts_some l w w.
Proof.
  intros Hr Hl. split; [done|]. intros p. exists []. rewrite app_nil_r. split; [done|].
  rewrite posted_one, Hl. constructor.
Qed.

Lemma gave {A : Type} `{CodecLaws A Format} `{!PlainCodec A Format} t n (v : A) ml w (accepted : bool) w' l :
  settled w → n ≠ "" → fetches l = false →
  (∀ e, encode Format v = inr e → encoded ml e) →
  sent l = (if accepted then [(place t n, ml)] else []) →
  puts t n v w accepted w' → settled w' ∧ puts_some l w w'.
Proof.
  intros Hw Hn Hr Hml Hl (st & Hp & <-).
  destruct (put_spec t n v w st w' Hw Hn Hp) as [Hw' [[Hok ->]|[Hok (e & He & Hc)]]];
    rewrite Hok in Hl; (split; [done|]).
  - by apply nothing_sent.
  - split; [done|]. intros p. exists (if decide (p = place t n) then [e] else []).
    split; [done|]. rewrite posted_one, Hl. unfold to. rewrite filter_cons. simpl.
    destruct (decide (place t n = p)) as [->|Hne].
    + rewrite decide_True by done. repeat constructor. by apply Hml.
    + rewrite decide_False by congruence. constructor.
Qed.

Ltac gives ml :=
  match goal with Hp : puts _ _ _ _ ?accepted _, Hw : settled _ |- _ =>
    eapply (gave _ _ _ ml _ _ _ _ Hw) in Hp as [? ?]; [by split; [|right]|..];
    try first [done|by destruct accepted] end.

Lemma worker_effect n l n' :
  settled (world n) → addressed l → worker_step n l n' →
  settled (world n') ∧ (takes_one l (world n) (world n') ∨ puts_some l (world n) (world n')).
Proof.
  destruct Hwired as ((N1 & N2 & N3 & N4) & Eq & D1 & D2 & D3 & D4).
  intros Hw Ha Hs.
  destruct Hs; simpl in *;
    repeat match goal with
    | Hg : gets_junk _ _ _ _ _ |- _ => destruct Hg as [? Hg]
    | Hg : gets _ _ _ _ _ |- _ => unfold gets in Hg
    end.
  all: try match goal with Hg : found _ _ _ _ _ _ |- _ =>
    eapply (got _ _ _ _ _ _ Hw) in Hg as [? ?]; [by split; [|left]|done|set_solver|];
    intros e He; simpl; split_and!; first [done|by eauto|naive_solver] end.
  - gives (MTask task).
  - gives (MTask task). rewrite Eq. by destruct accepted.
  - gives (MResponse response). subst response. by rewrite reply_queue.
  - by gives (MResult mapped).
  - split; [done|]. right. by apply nothing_sent; [|destruct l].
Qed.

(** The request queue holds the tasks of clients. *)
Notation encodes := (Forall2 (λ (t : QuantumTask) e, encode Format t = inr e)).

Context (outside : Place → Prop) (Houtside : ∀ p, outside p → p ≠ q_request).
Notation polite := (polite m outside).
Notation outward := (outward m outside).
Notation expecting := (filter (λ r, APIRequest.response_queue r ≠ "")).

Lemma outward_posted l : outward l → posted q_request [l] = MTask <$> submits l.
Proof.
  destruct Hwired as (_ & _ & _ & _ & _ & D3). intros Ho. rewrite posted_one.
  destruct l as [? []| | | | | |[]]; simpl in *; try done; try destruct accepted; try done;
    unfold to; rewrite filter_cons; simpl; case_decide as Hd; try done; try congruence;
    first [destruct Ho as [_ Ho]|idtac]; by destruct (Houtside _ Ho).
Qed.

(** The request queue, its messages the tasks [ts], over one step. *)
Lemma request_step n l n' ts :
  settled (world n) → outward l → encodes ts (contents (world n) q_request) → net_step n l n' →
  settled (world n') ∧ ∃ ts', encodes ts' (contents (world n') q_request) ∧
    receives l ++ ts' `sublist_of` ts ++ submits l ∧
    (lossless worker_args = true → receives l ++ ts' = ts ++ submits l).
Proof.
  destruct Hwired as ((N1 & _) & _ & D1 & D2 & _).
  intros Hw Ho Hts Hs.
  assert (∀ es, contents (world n') q_request = contents (world n) q_request ++ es →
    Forall2 encoded (MTask <$> submits l) es → receives l = [] →
    ∃ ts', encodes ts' (contents (world n') q_request) ∧
      receives l ++ ts' `sublist_of` ts ++ submits l ∧
      (lossless worker_args = true → receives l ++ ts' = ts ++ submits l)) as Hput.
  { intros es Hq Hes Hr. exists (ts ++ submits l). rewrite Hq, Hr. split; [|done].
    apply Forall2_app; [done|]. rewrite Forall2_fmap_l in Hes. exact Hes. }
  destruct Hs as [t task s w w' accepted Ht Hp|s w w' _ Hw' Hp|n l n' Hs]; cbn [world] in *.
  - destruct (gave t _ task (MTask task) w accepted w' (NSubmitted task accepted) Hw N1)
      as [Hw' [_ Hq]]; [done|done|by rewrite Ht; destruct accepted|done|].
    split; [done|]. destruct (Hq q_request) as (es & Hq' & Hes).
    rewrite outward_posted in Hes by done. by apply (Hput es).
  - split; [done|]. apply (Hput []); [|done..]. rewrite app_nil_r. apply Hp. by left.
  - destruct (worker_effect n l n' Hw) as [Hw' [Hq|[Hr Hq]]];
      [by eapply outward_addressed|done|split; [done|]|split; [done|]].
    + destruct Hq as (q & e & skipped & Hin & Hr & Hq & Hl & Hp).
      destruct (decide (q = q_request)) as [->|Hne].
      * rewrite Hq in Hts. apply Forall2_cons_inv_r in Hts as (v & vs & He & Hvs & ->).
        apply Forall2_app_inv_r in Hvs as (l1 & l2 & Hl1 & Hl2 & ->).
        pose proof (decode_encode v e He) as Hd.
        destruct l; simpl in Hr; try done; destruct Hr as [Eq Hr]; try done;
          [|destruct (proj1 Hr eq_refl) as [st ?]; congruence].
        assert (request = v) as -> by congruence. exists l2. simpl. rewrite app_nil_r.
        split_and!; [done| |].
        -- apply sublist_skip, sublist_inserts_l. done.
        -- intros Hx. rewrite (Hl Hx) in Hl1. by apply Forall2_nil_inv_r in Hl1 as ->.
      * apply (Hput []); rewrite ?app_nil_r; [by apply Hp|..]; destruct l; try done;
          simpl in Hr; naive_solver.
    + destruct (Hq q_request) as (es & Hq' & Hes). rewrite outward_posted in Hes by done.
      apply (Hput es); [done..|]. by destruct l.
Qed.

(** Queues that are not the service's own collect what is sent to them. *)
Lemma mail_step n l n' p :
  settled (world n) → addressed l → net_step n l n' → p ∈ kept → p ∉ inputs →
  ∃ es, contents (world n') p = contents (world n) p ++ es ∧ Forall2 encoded (posted p [l]) es.
Proof.
  destruct Hwired as ((N1 & _) & _).
  intros Hw Ha Hs Hk Hin.
  destruct Hs as [t task s w w' accepted Ht Hp|s w w' _ Hw' Hp|n l n' Hs]; cbn [world] in *.
  - destruct (gave t _ task (MTask task) w accepted w' (NSubmitted task accepted) Hw N1)
      as [_ [_ Hq]]; [done|done|by rewrite Ht; destruct accepted|done|]. apply Hq.
  - exists []. rewrite app_nil_r. split; [apply Hp; by right|constructor].
  - destruct (worker_effect n l n' Hw Ha Hs) as [_ [Hq|[_ Hq]]]; [|apply Hq].
    destruct Hq as (q & e & skipped & Hq & Hr & _ & _ & Hp). exists []. rewrite app_nil_r.
    split; [apply Hp; congruence|]. rewrite posted_one. destruct l; try done; constructor.
Qed.

Section Runs.
Context (w0 : W) (uid : Z).
Notation runs tr n := (run net_step (mkNet (initial uid) w0) tr n).

Context (Hsettled : settled w0) (Hempty : contents w0 q_request = []).

Lemma run_requests tr n :
  runs tr n → Forall polite tr →
  Forall outward tr ∧ settled (world n) ∧
  ∃ ts, encodes ts (contents (world n) q_request) ∧
    received tr ++ ts `sublist_of` submitted tr ∧
    (lossless worker_args = true → received tr ++ ts = submitted tr).
Proof.
  induction 1 as [|tr n l n' Hr IH Hs]; intros Hp.
  { split_and!; [constructor|done|]. exists []. simpl. rewrite Hempty.
    by split_and!; [constructor|constructor|]. }
  apply Forall_app in Hp as [Hp _]. destruct (IH Hp) as (Ho & Hw & ts & Hts & Hsub & Heq).
  assert (outward l) as Hl.
  { eapply outward_label; [by apply run_sys in Hr|by eapply net_sys_step|done|].
    etransitivity; [|apply submitted_attempted]. etransitivity; [|exact Hsub].
    by apply sublist_inserts_r. }
  destruct (request_step n l n' ts Hw Hl Hts Hs) as (Hw' & ts' & Hts' & Hsub' & Heq').
  split; [by apply Forall_app_2; [|constructor]|]. split; [done|]. exists ts'. split; [done|].
  unfold received, submitted in *. rewrite !bind_snoc, <- !app_assoc. split.
  - etransitivity; [by apply sublist_app, Hsub'|]. rewrite app_assoc. by apply sublist_app.
  - intros Hx. by rewrite (Heq' Hx), app_assoc, (Heq Hx).
Qed.

(** Every answer belongs to a request: while the workers interleave and
    clients submit, over any transport with queues and with any resource
    manager, even one that repeats, reorders or invents results, the direct
    results sent correspond to different requests out of those submitted; each
    goes to the queue its request names, with the request's own identifier and
    otherwise unchanged, and the results sent are, in order, some of those
    received, each carrying the identifier its request was registered under. *)
Theorem answers_belong tr n :
  runs tr n → Forall polite tr → short (service tr) →
  ∃ pairs : list (Z * (QuantumTask * QuantumResult)),
    (delivered tr).*2 = (λ x, answer x.2.1 x.2.2) <$> pairs ∧ NoDup pairs.*1 ∧
    pairs.*2.*1 ⊆+ submitted tr ∧ pairs.*2.*2 `sublist_of` answered tr ∧
    Forall (λ x, (x.1, x.2.1) ∈ registered tr ∧ QuantumResult.task_id x.2.2 = to_int32 x.1) pairs.
Proof.
  intros Hr Hp Hsh.
  destruct (answers_paired config resources _ _ _ (run_sys _ _ _ Hr) Hsh)
    as (ps & H1' & H2' & H3' & H4' & H5').
  exists ps. split_and!; [done..| |done|done]. etransitivity; [exact H3'|].
  destruct (run_requests tr n Hr Hp) as (_ & _ & ts & _ & Hs & _).
  apply sublist_submseteq. etransitivity; [|exact Hs]. by apply sublist_inserts_r.
Qed.

(** No request is lost inside the service: the requests registered, the one
    the task worker holds and those still in the request queue are, in this
    order, some of those submitted, and all of them when receives lose nothing;
    the messages of the registered requests are forwarded in their order; and
    every registered request is waiting for its result, or its result is being
    delivered, or has been delivered. *)
Theorem requests_accounted tr n :
  runs tr n → Forall polite tr →
  (∃ waiting, encodes waiting (contents (world n) q_request) ∧
     let accounted := (registered tr).*2 ++ task_holds (task_pc (sys n)) ++ waiting in
     accounted `sublist_of` submitted tr ∧
     (lossless worker_args = true → accounted = submitted tr)) ∧
  (∃ fw, fw `sublist_of` forwarded tr ∧
     message_of <$> registered tr = fw ++ task_sends (task_pc (sys n))) ∧
  (short (service tr) → ∀ id q, (id, q) ∈ registered tr → in_hand tr (sys n) id q).
Proof.
  intros Hr Hp. split_and!.
  - destruct (run_requests tr n Hr Hp) as (_ & _ & ts & Hts & Hsub & Heq).
    exists ts. rewrite (run_registered _ _ _ _ _ (run_sys _ _ _ Hr)), <- app_assoc in Hsub, Heq.
    done.
  - by eapply run_forwarded, (run_sys _ _ _ Hr).
  - intros Hsh id q. by eapply registered_in_hand, Hsh; apply (run_sys _ _ _ Hr).
Qed.

(** Mail: a queue that is not one of the service's own, and that nobody has
    read from yet, holds in order the messages the service put there and
    nothing else; and what the control worker sends are the answers to the
    requests it has received, exactly one for each request that names a queue
    for it, in order, to that queue. *)
Theorem mail_posted tr n :
  runs tr n → Forall polite tr →
  (∀ p, p ∈ kept → p ∉ inputs →
     ∃ es, contents (world n) p = contents w0 p ++ es ∧ Forall2 encoded (posted p tr) es) ∧
  ∃ done, asked tr = done ++ control_holds (control_pc (sys n)) ∧
    Forall2 (λ request r, answer_to request r ∧
               APIResponse.destination_queue r = APIRequest.response_queue request)
      (expecting done) (responded tr).
Proof.
  intros Hr Hp. split.
  - intros p Hk Hin. induction Hr as [|tr n l n' Hr IH Hs].
    { exists []. rewrite app_nil_r. split; [done|constructor]. }
    destruct (run_requests _ _ (run_snoc _ _ _ _ _ _ Hr Hs) Hp) as (Ho & _).
    apply Forall_app in Ho as [_ [Ho _]%Forall_cons]. apply Forall_app in Hp as [Hp _].
    destruct (run_requests tr n Hr Hp) as (_ & Hw & _), (IH Hp) as (es & Hes & Hall).
    destruct (mail_step n l n' p Hw (outward_addressed m outside l Ho) Hs Hk Hin) as (es' & Hes' & Hall').
    exists (es ++ es'). rewrite Hes', Hes, app_assoc. split; [done|].
    unfold ServiceRuns.posted, to in *. rewrite bind_snoc, filter_app, fmap_app. apply Forall2_app; [done|].
    by rewrite <- (app_nil_r (sent l)).
  - by eapply responses_addressed, (run_sys _ _ _ Hr).
Qed.
End Runs.

(** ** The loop bodies as runs *)

Definition runs_to (n n' : Net) : Prop := ∃ tr, run worker_step n tr n'.

Lemma runs_to_refl n : runs_to n n.
Proof. exists []. constructor. Qed.
Lemma runs_to_step n l n1 n' : worker_step n l n1 → runs_to n1 n' → runs_to n n'.
Proof. intros Hs [tr Hr]. exists (l :: tr). by eapply run_cons. Qed.

Lemma run_local s tr s' w :
  run (Service.step config resources) s tr s' → Forall (λ l, local l = true) tr →
  ∀ n', runs_to (mkNet s' w) n' → runs_to (mkNet s w) n'.
Proof.
  induction 1 as [|tr s1 l s2 _ IH Hl]; intros Htr n' Hn'; [done|].
  apply Forall_app in Htr as [Htr [Hloc _]%Forall_cons]. apply IH; [done|].
  by eapply runs_to_step; [apply net_local|].
Qed.

Lemma sends {A} `{Codec A Format} t n (v : A) w :
  ∃ accepted, puts t n v w accepted (send_logged (Format := Format) t n v w).
Proof.
  unfold puts, put, send_logged. eexists _, _. split; [apply surjective_pairing|done].
Qed.

(** The state a worker loop works on, and the state it leaves. *)
Definition core (n : Net) : Core (W := W) :=
  mkCore (store (sys n)) (forwarder (sys n)) (world n).
Definition after (c : Core (W := W)) (t : TaskPc) (k : ControlPc) (r : ResultPc) : Net :=
  mkNet (mkSys (tasks_ c) (forwarder_ c) t k r) (net c).

(** Message fields of type [int32] hold such numbers. *)
Definition int32_fields : Prop :=
  (∀ e t, decode Format (T := QuantumTask) e = inr t → task_wf t) ∧
  (∀ e r, decode Format (T := QuantumResult) e = inr r → result_wf r).

Lemma turn_found {A} `{CodecLaws A Format} t n w :
  settled w → n ≠ "" → contents w (place t n) ≠ [] →
  ∃ r w', found (Format := Format) (A := A) worker_args t n w r w' ∧
    Messenger.receive (Format := Format) (A := A) t (mkAddress n) worker_args w = Some (r, w') ∧
    ∃ e, r = decode Format e.
Proof.
  intros Hw Hn Hne.
  destruct (found_exists (Format := Format) (A := A) worker_args t n w) as (r & w' & Hf);
    [done..|].
  destruct (found_spec worker_args t n w r w' Hw Hn ltac:(done) eq_refl Hf)
    as (_ & (e & _ & _ & He & _) & _).
  exists r, w'. split; [done|]. split; [apply Hf|by exists e].
Qed.

(** ** Progress *)

Definition idle (s : Sys) : Prop := task_pc s = TIdle ∧ control_pc s = CIdle ∧ result_pc s = RIdle.

(** A worker that is not waiting for a message can step. *)
Lemma net_enabled wk s w :
  ServiceTypes.left_to_do wk s ≠ 0%nat →
  ∃ l n', worker_step (mkNet s w) (NStep l) n' ∧
    ServiceTypes.left_to_do wk (sys n') ≠ ServiceTypes.left_to_do wk s.
Proof.
  intros Hn. destruct (ServiceTypes.worker_enabled config resources wk s Hn)
    as (l & s' & Hs & _ & Hmove). simpl in *.
  destruct (local l) eqn:Hl; [exists l, (mkNet s' w); split; [by apply net_local|done]|].
  destruct Hs; try discriminate Hl; try (by destruct wk).
  - destruct (sends (task_qrm m) (qrm_task (queues config)) t w) as [a Ha].
    eexists _, _. split; [by apply net_task_forward|done].
  - destruct (sends (control_qrm m) (qrm_task (queues config)) task w) as [a Ha].
    eexists _, _. split; [by apply net_control_forward|done].
  - destruct (sends (control_local m) (APIResponse.destination_queue (response_to request result))
      (response_to request result) w) as [a Ha].
    eexists _, _. split; [by apply net_control_reply|done].
  - destruct (sends (result_local m) (original_result_destination p) (mapped_result p result) w)
      as [a Ha].
    eexists _, _. split; [by apply net_result_deliver|done].
Qed.

Lemma busy_or_idle s : idle s ∨ ∃ wk, ServiceTypes.left_to_do wk s ≠ 0%nat.
Proof.
  destruct s as [st f t c r]. unfold idle. simpl.
  destruct t; try by (right; exists ServiceTypes.TaskWorker).
  destruct c; try by (right; exists ServiceTypes.ControlWorker).
  destruct r; [by left|by (right; exists ServiceTypes.ResultWorker)..].
Qed.

(** Unless every worker waits at an empty queue, one of them can step. *)
Lemma net_progress n :
  settled (world n) → int32_fields →
  (idle (sys n) ∧ ∀ q, q ∈ inputs → contents (world n) q = []) ∨ ∃ l n', worker_step n l n'.
Proof.
  destruct Hwired as ((N1 & N2 & N3 & _) & _), n as [s w]. simpl. intros Hw [Ht Hr].
  destruct (busy_or_idle s) as [Hi|[wk Hwk]]; [|right; destruct (net_enabled wk s w Hwk) as (l & n' & ? & _); by eexists _, _].
  destruct (decide (Forall (λ q, contents w q = []) inputs)) as [He|He].
  { left. split; [done|]. by apply Forall_forall. }
  right. destruct s as [st f t c r], Hi as (Et & Ec & Er). simpl in *. subst.
  apply not_Forall_Exists in He; [|intros q; apply _].
  apply Exists_cons in He as [He|[He|[He|He%Exists_nil]%Exists_cons]%Exists_cons]; [| | |done].
  - destruct (turn_found (A := QuantumTask) (task_local m) _ w Hw N1 He)
      as ([x|v] & w1 & Hf & _ & e & Hd).
    + eexists _, _. apply net_task_junk. by exists x.
    + eexists _, _. apply net_task; [done|by eapply Ht].
  - destruct (turn_found (A := APIRequest) (control_local m) _ w Hw N2 He)
      as ([x|v] & w1 & Hf & _ & e & Hd).
    + eexists _, _. apply net_control_junk. by exists x.
    + eexists _, _. by apply net_control.
  - destruct (turn_found (A := QuantumResult) (result_local m) _ w Hw N3 He)
      as ([x|v] & w1 & Hf & _ & e & Hd).
    + eexists _, _. apply net_result_junk. by exists x.
    + eexists _, _. apply net_result; [done|by eapply Hr].
Qed.

(** ** The loop bodies *)

Notation task_body c := (task_turn (Format := Format) config (task_local m) (task_qrm m) c).
Notation control_body c :=
  (control_turn (Format := Format) config resources (control_local m) (control_qrm m) c).
Notation result_body c := (result_turn (Format := Format) config (result_local m) c).

(** A message received: the rest of the turn. *)
Lemma task_message n (request : QuantumTask) w1 :
  task_pc (sys n) = TIdle →
  gets (task_local m) (QOffloadConfig.request (queues config)) (world n) request w1 →
  task_wf request →
  ∃ c, task_body (core n) = Some c ∧
    runs_to n (after c TIdle (control_pc (sys n)) (result_pc (sys n))).
Proof.
  destruct n as [[st f t k r] w]. simpl. intros -> Hf Hwf. pose proof (proj2 Hf) as Hr.
  unfold task_turn, core. cbn [tasks_ forwarder_ net store forwarder sys world]. rewrite Hr.
  rewrite forwardDirectTask_message. eexists. split; [done|]. unfold after. simpl.
  eapply runs_to_step; [by apply net_task|].
  destruct (sends (task_qrm m) (qrm_task (queues config))
    (forwarded_message config (nextTaskId f).1 request) w1) as [acc Hs].
  eapply run_local;
    [eapply run_cons; [apply step_task_issue|apply run_one, step_task_register]
    |by repeat constructor|].
  eapply runs_to_step; [by apply net_task_forward|apply runs_to_refl].
Qed.

Lemma control_message n (request : APIRequest) w1 :
  control_pc (sys n) = CIdle →
  gets (control_local m) (control_request (queues config)) (world n) request w1 →
  ∃ c, control_body (core n) = Some c ∧
    runs_to n (after c (task_pc (sys n)) CIdle (result_pc (sys n))).
Proof.
  destruct n as [[st f t k r] w]. simpl. intros -> Hf. pose proof (proj2 Hf) as Hr.
  unfold control_turn, core. cbn [tasks_ forwarder_ net store forwarder sys world]. rewrite Hr.
  pose proof (control_executes config resources st f t r request) as Hex.
  destruct (process _ _ _ _ _) as [[o st'] f'].
  destruct Hex as (tr & result & Hl & Hresp & Hrun). eexists. split; [done|].
  unfold after. simpl. eapply runs_to_step; [by apply net_control|].
  eapply run_local; [done..|]. rewrite Hresp, reply_queue.
  set (w2 := match outbound_task o with Some _ => _ | None => w1 end).
  assert (∀ n', runs_to (mkNet (mkSys st' f' t (CReply result request) r) w2) n' →
    runs_to (mkNet (mkSys st' f' t (executed (outbound_task o) result request) r) w1) n') as Hfw.
  { intros n' Hn'. unfold w2 in Hn'. destruct (outbound_task o) as [task|]; [|done].
    destruct (sends (control_qrm m) (qrm_task (queues config)) task w1) as [acc Hs].
    by eapply runs_to_step; [by apply net_control_forward|]. }
  apply Hfw. destruct (String.eqb_spec (APIRequest.response_queue request) "") as [Hq|Hq].
  + eapply runs_to_step; [|apply runs_to_refl]. by apply net_local; [apply step_control_no_reply|].
  + destruct (sends (control_local m) (APIRequest.response_queue request)
      (response_to request result) w2) as [acc Hs].
    eapply runs_to_step; [|apply runs_to_refl]. apply net_control_reply; [done|].
    by rewrite reply_queue.
Qed.

Lemma result_message n (result : QuantumResult) w1 :
  result_pc (sys n) = RIdle →
  gets (result_local m) (QOffloadConfig.result (queues config)) (world n) result w1 →
  result_wf result →
  ∃ c, result_body (core n) = Some c ∧
    runs_to n (after c (task_pc (sys n)) (control_pc (sys n)) RIdle).
Proof.
  destruct n as [[st f t k r] w]. simpl. intros -> Hf Hwf. pose proof (proj2 Hf) as Hr.
  unfold result_turn, core. cbn [tasks_ forwarder_ net store forwarder sys world]. rewrite Hr.
  unfold processResult. destruct (takePending _ st) as [[p|] st'] eqn:Ht.
  - destruct (kind p) eqn:Hk; eexists; (split; [done|]); unfold after; simpl;
      (eapply runs_to_step; [by apply net_result|]);
      (eapply runs_to_step; [by apply net_local; [by eapply step_result_take|]|]); rewrite Hk.
    + destruct (sends (result_local m) (original_result_destination p) (mapped_result p result) w1)
        as [acc Hs].
      eapply runs_to_step; [by apply net_result_deliver|apply runs_to_refl].
    + eapply runs_to_step; [|apply runs_to_refl]. by apply net_local; [apply step_result_store|].
  - assert (st' = st) as -> by (unfold takePending in Ht; by case_match; simplify_eq).
    eexists. split; [done|]. unfold after. simpl. eapply runs_to_step; [by apply net_result|].
    eapply runs_to_step; [|apply runs_to_refl].
    by apply net_local; [apply step_result_unknown; rewrite Ht|].
Qed.

Lemma task_turn_runs n :
  settled (world n) → int32_fields → task_pc (sys n) = TIdle →
  contents (world n) q_request ≠ [] →
  ∃ c, task_body (core n) = Some c ∧
    runs_to n (after c TIdle (control_pc (sys n)) (result_pc (sys n))).
Proof.
  destruct Hwired as ((N1 & _) & _). intros Hw Hint Hpc Hne.
  destruct (turn_found (A := QuantumTask) (task_local m) _ _ Hw N1 Hne)
    as ([s|request] & w1 & Hf & Hr & e & He); [|by eapply task_message, Hint; first done].
  destruct n as [[st f t k r] w]. simpl in *. subst t. unfold task_turn, core.
  cbn [tasks_ forwarder_ net store forwarder sys world]. rewrite Hr. eexists. split; [done|].
  eapply runs_to_step; [|apply runs_to_refl]. apply net_task_junk. by exists s.
Qed.

Lemma control_turn_runs n :
  settled (world n) → control_pc (sys n) = CIdle → contents (world n) q_control ≠ [] →
  ∃ c, control_body (core n) = Some c ∧
    runs_to n (after c (task_pc (sys n)) CIdle (result_pc (sys n))).
Proof.
  destruct Hwired as ((_ & N2 & _) & _). intros Hw Hpc Hne.
  destruct (turn_found (A := APIRequest) (control_local m) _ _ Hw N2 Hne)
    as ([s|request] & w1 & Hf & Hr & e & He); [|by eapply control_message].
  destruct n as [[st f t k r] w]. simpl in *. subst k. unfold control_turn, core.
  cbn [tasks_ forwarder_ net store forwarder sys world]. rewrite Hr. eexists. split; [done|].
  eapply runs_to_step; [|apply runs_to_refl]. apply net_control_junk. by exists s.
Qed.

Lemma result_turn_runs n :
  settled (world n) → int32_fields → result_pc (sys n) = RIdle →
  contents (world n) q_result ≠ [] →
  ∃ c, result_body (core n) = Some c ∧
    runs_to n (after c (task_pc (sys n)) (control_pc (sys n)) RIdle).
Proof.
  destruct Hwired as ((_ & _ & N3 & _) & _). intros Hw Hint Hpc Hne.
  destruct (turn_found (A := QuantumResult) (result_local m) _ _ Hw N3 Hne)
    as ([s|result] & w1 & Hf & Hr & e & He); [|by eapply result_message, Hint; first done].
  destruct n as [[st f t k r] w]. simpl in *. subst r. unfold result_turn, core.
  cbn [tasks_ forwarder_ net store forwarder sys world]. rewrite Hr. eexists. split; [done|].
  eapply runs_to_step; [|apply runs_to_refl]. apply net_result_junk. by exists s.
Qed.

(** The steps are those of the loops: whatever the other workers are doing,
    a turn of a worker loop that finds a message, decodable or not, returns,
    and is a run of steps of that worker with the effect of the turn on the
    store, the forwarder and the queues. *)
Theorem turns_run n :
  settled (world n) → int32_fields →
  (task_pc (sys n) = TIdle → contents (world n) q_request ≠ [] →
   ∃ c, task_turn (Format := Format) config (task_local m) (task_qrm m) (core n) = Some c ∧
     runs_to n (after c TIdle (control_pc (sys n)) (result_pc (sys n)))) ∧
  (control_pc (sys n) = CIdle → contents (world n) q_control ≠ [] →
   ∃ c, control_turn (Format := Format) config resources (control_local m) (control_qrm m) (core n)
          = Some c ∧
     runs_to n (after c (task_pc (sys n)) CIdle (result_pc (sys n)))) ∧
  (result_pc (sys n) = RIdle → contents (world n) q_result ≠ [] →
   ∃ c, result_turn (Format := Format) config (result_local m) (core n) = Some c ∧
     runs_to n (after c (task_pc (sys n)) (control_pc (sys n)) RIdle)).
Proof.
  intros Hw Hint. split_and!.
  - by apply task_turn_runs.
  - by apply control_turn_runs.
  - by apply result_turn_runs.
Qed.
End Net.

(** ** A concrete run

    A client's task through the service and its result back to the client,
    while another client asks for the status of the task, over the in-memory
    transport. *)

Import (hints) InMemoryTransport.
Import (hints) Workers.Example.

Module Demo.
Import Workers.Example.
Import InMemoryTransport(World).

(** Status requests and their answers as texts. *)
#[export] Instance ApiTaskStatus_eq_dec : EqDecision ApiTaskStatus.
Proof. solve_decision. Defined.

Definition print_ask (r : APIRequest) : Envelope :=
  match APIRequest.typed_request_case r with
  | Some (APIRequest.task_status q) =>
      mkEnvelope (CharConv.to_string (TaskRequest.uuid q)) "" ∅ (APIRequest.response_queue r) None
  | _ => mkEnvelope "" "" ∅ "" None
  end.
Definition read_ask (e : Envelope) : APIRequest :=
  APIRequest.mk "" "" "" None (correlation_id e) (Some (APIRequest.task_status (TaskRequest.mk
    (default 0 (CharConv.from_chars_all CharConv.int32_t (payload e)))))).
Definition same_ask (r r' : APIRequest) : bool :=
  match r, r' with
  | APIRequest.mk "" "" "" None q (Some (APIRequest.task_status (TaskRequest.mk i))),
    APIRequest.mk "" "" "" None q' (Some (APIRequest.task_status (TaskRequest.mk i'))) =>
      bool_decide (q = q' ∧ i = i')
  | _, _ => false
  end.
Lemma same_ask_eq r r' : same_ask r r' = true → r = r'.
Proof.
  unfold same_ask. repeat (case_match; try done).
  intros [-> ->]%bool_decide_eq_true. by subst.
Qed.
#[export] Instance ask_codec : Codec APIRequest Text := checked same_ask print_ask read_ask.
#[export] Instance ask_laws : CodecLaws APIRequest Text.
Proof. apply checked_laws, same_ask_eq. Qed.
#[export] Instance ask_plain : PlainCodec APIRequest Text.
Proof.
  split; intros v; [intros e; apply checked_plain|apply checked_not_ok].
  intros r. unfold print_ask. by repeat case_match.
Qed.

Definition print_status (r : APIResponse) : Envelope :=
  mkEnvelope (match APIResponse.typed_response_case r with
              | Some (APIResponse.task_status API_TASK_STATUS_WAITING) => "WAITING"
              | _ => "" end) "" ∅ (APIResponse.destination_queue r) None.
Definition read_status (e : Envelope) : APIResponse :=
  APIResponse.mk None (correlation_id e)
    (Some (APIResponse.task_status
             (if String.eqb (payload e) "WAITING" then API_TASK_STATUS_WAITING
              else API_TASK_STATUS_UNSPECIFIED))).
Definition same_status (r r' : APIResponse) : bool :=
  match r, r' with
  | APIResponse.mk None q (Some (APIResponse.task_status st)),
    APIResponse.mk None q' (Some (APIResponse.task_status st')) =>
      bool_decide (q = q' ∧ st = st')
  | _, _ => false
  end.
Lemma same_status_eq r r' : same_status r r' = true → r = r'.
Proof.
  unfold same_status. repeat (case_match; try done).
  intros [-> ->]%bool_decide_eq_true. by subst.
Qed.
#[export] Instance status_codec : Codec APIResponse Text :=
  checked same_status print_status read_status.
#[export] Instance status_laws : CodecLaws APIResponse Text.
Proof. apply checked_laws, same_status_eq. Qed.
#[export] Instance status_plain : PlainCodec APIResponse Text.
Proof. split; intros v; [intros e; by apply checked_plain|apply checked_not_ok]. Qed.

Definition ask : APIRequest := APIRequest.mk "" "" "" None "answers"
  (Some (APIRequest.task_status (TaskRequest.mk 7))).
Definition waiting_response : APIResponse := response_to ask (TaskStatusResult Waiting).

Definition handles : Messengers := mkMessengers tt tt tt tt tt.
Definition kept : list (Place (T := unit) (W := World)) := ["client"; "answers"].
Definition sent_to {A} `{Codec A Text} (q : string) (v : A) (w : World) : World :=
  (put (Format := Text) tt q v w).2.
Definition got (A : Type) `{Codec A Text} (q : string) (w : World) : World :=
  default w (snd <$> Messenger.receive (Format := Text) (A := A) tt (mkAddress q) worker_args w).

Definition world0 : World := InMemoryTransport.createTransport [].
Definition fw : QuantumTask := forwarded_message config 7 request.
Definition w1 := sent_to (QOffloadConfig.request (queues config)) request world0.
Definition w2 := got QuantumTask (QOffloadConfig.request (queues config)) w1.
Definition w3 := sent_to (qrm_task (queues config)) fw w2.
(** The resource manager takes the task and answers; a client asks. *)
Definition w4 := sent_to (control_request (queues config)) ask
  (sent_to (QOffloadConfig.result (queues config)) answer (got QuantumTask (qrm_task (queues config)) w3)).
Definition w5 := got APIRequest (control_request (queues config)) w4.
Definition w6 := sent_to "answers" waiting_response w5.
Definition w7 := got QuantumResult (QOffloadConfig.result (queues config)) w6.
Definition w8 := sent_to "client" own w7.

Definition pending : PendingTask := pending_of 7 request.
Definition full : TaskStore := addDirectTask pending empty_store.
Definition trace : list (NetLabel (T := unit) (W := World)) :=
  [NSubmitted request true; NTask request; NStep (LIssue 7); NStep (LRegister 7 request);
   NStep (LForwarded fw true); NEnvironment; NControl ask; NStep (LStatus 7 Waiting);
   NStep (LResponse waiting_response true); NResult answer; NStep (LTaken 7 pending);
   NStep (LDeliver 7 "client" own true)].

Notation step := (net_step (Format := Text) config resources_ handles kept).
Definition start : Net (W := World) := mkNet (initial 7) world0.
Definition submitted1 : Net (W := World) := mkNet (initial 7) w1.
Definition final : Net (W := World) :=
  mkNet (mkSys empty_store (mkForward 7 1) TIdle CIdle RIdle) w8.

Lemma demo_found {A} `{CodecLaws A Text} q (w w' : World) (v : A) :
  (0 < length (contents w (place tt q)))%nat →
  Messenger.receive (Format := Text) (A := A) tt (mkAddress q) worker_args w = Some (inr v, w') →
  gets (Format := Text) tt q w v w'.
Proof. intros Hl Ht. split; [|exact Ht]. intros Hq. rewrite Hq in Hl. simpl in Hl. lia. Qed.

Ltac evaluated := vm_compute; first [reflexivity|discriminate|repeat constructor].
Ltac putting := eexists; split; [vm_compute; reflexivity|reflexivity].

Lemma demo_environment : step (mkNet (mkSys full (mkForward 7 1) TIdle CIdle RIdle) w3) NEnvironment
  (mkNet (mkSys full (mkForward 7 1) TIdle CIdle RIdle) w4).
Proof.
  apply net_environment.
  - split; [reflexivity|]. eexists. split; reflexivity.
  - split; [reflexivity|]. eexists. split; reflexivity.
  - intros p Hp. repeat (apply elem_of_cons in Hp as [->|Hp]; [vm_compute; reflexivity|]).
    by apply elem_of_nil in Hp.
Qed.

Lemma demo_run : run step start trace final.
Proof.
  eapply run_cons; [eapply (net_submit _ _ _ _ tt request _ _ w1); [done|putting]|].
  eapply run_cons; [eapply net_worker, (net_task _ _ _ _ _ _ _ _ w2);
                    [apply demo_found; evaluated|split; [discriminate|reflexivity]]|].
  eapply run_cons; [eapply net_worker, net_local; [apply step_task_issue|done]|].
  eapply run_cons; [eapply net_worker, net_local; [apply step_task_register|done]|].
  eapply run_cons; [eapply net_worker, (net_task_forward _ _ _ _ _ _ _ _ w3); putting|].
  eapply run_cons; [apply demo_environment|].
  eapply run_cons; [eapply net_worker, (net_control _ _ _ _ _ _ _ _ w5); apply demo_found; evaluated|].
  eapply run_cons; [eapply net_worker, net_local;
                    [by apply (step_control_status _ _ full _ _ _ 7)|done]|].
  eapply run_cons; [eapply net_worker, (net_control_reply _ _ _ _ _ _ _ _ w6); [done|putting]|].
  eapply run_cons; [eapply net_worker, (net_result _ _ _ _ _ _ _ _ w7);
                    [apply demo_found; evaluated|split; [discriminate|reflexivity]]|].
  eapply run_cons; [eapply net_worker, net_local; [by eapply step_result_take|done]|].
  apply run_one, net_worker. apply (net_result_deliver _ _ _ _ _ _ _ _ w8). putting.
Qed.

Lemma demo_wired : wired (T := unit) (W := World) config handles.
Proof. unfold wired, queues_named. repeat split; vm_compute; congruence. Qed.

Lemma demo_settled : settled world0.
Proof. split; [reflexivity|]. eexists. split; reflexivity. Qed.

Definition outside (p : Place (T := unit) (W := World)) : Prop :=
  p ≠ q_request config handles.

Lemma demo_polite : Forall (polite handles outside) trace.
Proof.
  repeat (apply Forall_cons; split; [first [exact I|split; vm_compute; congruence|vm_compute; congruence]|]).
  constructor.
Qed.

Lemma demo_short : short (service trace).
Proof. vm_compute. reflexivity. Qed.

Lemma read_int32 text : is_int32 (default 0 (CharConv.from_chars_all CharConv.int32_t text)).
Proof.
  destruct (CharConv.from_chars_all CharConv.int32_t text) as [z|] eqn:Hz; [|done].
  apply CharConv.from_chars_all_range in Hz. unfold is_int32. simpl in *. lia.
Qed.

Lemma demo_int32 : int32_fields (Format := Text).
Proof. split; intros e v [= <-]; apply read_int32. Qed.
End Demo.
Import (hints) Demo.

Lemma answers_belong_witness :
  ∃ pairs : list (Z * (QuantumTask * QuantumResult)),
    [("client", Workers.Example.own)] = (λ x, answer x.2.1 x.2.2) <$> pairs ∧
    pairs.*2.*1 ⊆+ [Workers.Example.request] ∧ pairs.*2.*2 `sublist_of` [Workers.Example.answer].
Proof.
  destruct (answers_belong (Format := Workers.Example.Text) Workers.Example.config resources_
    Demo.handles Demo.kept Demo.demo_wired Demo.outside (λ _, id) Demo.world0 7 Demo.demo_settled eq_refl Demo.trace
    Demo.final Demo.demo_run Demo.demo_polite Demo.demo_short) as (ps & H1 & _ & H2 & H3 & _).
  exists ps. split; [exact H1|]. split; [exact H2|exact H3].
Defined.

Lemma requests_accounted_witness :
  ∃ waiting, [Workers.Example.request] ++ waiting = [Workers.Example.request].
Proof.
  destruct (requests_accounted (Format := Workers.Example.Text) Workers.Example.config resources_
    Demo.handles Demo.kept Demo.demo_wired Demo.outside (λ _, id) Demo.world0 7 Demo.demo_settled eq_refl Demo.trace
    Demo.final Demo.demo_run Demo.demo_polite) as ((ts & _ & _ & H) & _ & _).
  exists ts. exact (H eq_refl).
Defined.

Lemma mail_posted_witness :
  ∃ es, contents (world Demo.final) "client" = es ∧
    Forall2 (encoded (Format := Workers.Example.Text)) [MResult Workers.Example.own] es.
Proof.
  destruct (proj1 (mail_posted (Format := Workers.Example.Text) Workers.Example.config resources_
    Demo.handles Demo.kept Demo.demo_wired Demo.outside (λ _, id) Demo.world0 7 Demo.demo_settled eq_refl Demo.trace
    Demo.final Demo.demo_run Demo.demo_polite) "client") as (es & H1 & H2).
  - left.
  - apply (bool_decide_unpack _). vm_compute. exact I.
  - exists es. split; [exact H1|exact H2].
Defined.

Lemma turns_run_witness :
  ∃ c, task_turn (Format := Workers.Example.Text) Workers.Example.config tt tt
      (core Demo.submitted1) = Some c ∧
    runs_to (Format := Workers.Example.Text) Workers.Example.config resources_ Demo.handles
      Demo.submitted1 (after c TIdle CIdle RIdle).
Proof.
  destruct (turns_run (Format := Workers.Example.Text) Workers.Example.config resources_
    Demo.handles Demo.demo_wired Demo.submitted1) as (H & _).
  - split; [reflexivity|]. eexists. split; reflexivity.
  - exact Demo.demo_int32.
  - apply H; [reflexivity|]. vm_compute. discriminate.
Defined.
