(* ===== verification/ServiceFaults.v ===== *)
(** * The QOffload workers when calls fail (src/QOffload.cpp)

    [ServiceNet] is about transports on which sends succeed and receives find
    what is there.  Here any call may fail: a receive may time out, fail, or
    fail and lose messages; a send reported failed may have been stored; a
    transport may be shut down under the workers ([FaultyQueues]).  A worker
    whose receive fails goes round its loop; one whose send fails only logs it.
    Every turn of a loop that returns, and the loop as a whole, is a run of
    these steps; what holds of their runs holds of the program. *)

From S2P Require Import Prelude Status Message Transport Codec Protocol TaskStore QOffloadConfig ResourceRegistry Forward ControlProtocol Control Service QueueTransport.
From S2P Require Import Workers ServiceRuns ServiceNet Codec.
From S2P Require Messenger.

Section Faults.
Context {T W : Type} `{FaultyQueues T W} {Format : Type}
  `{CodecLaws QuantumTask Format} `{CodecLaws QuantumResult Format}
  `{CodecLaws APIRequest Format} `{CodecLaws APIResponse Format}
  `{!PlainCodec QuantumTask Format} `{!PlainCodec QuantumResult Format}
  `{!PlainCodec APIRequest Format} `{!PlainCodec APIResponse Format}.
Context (config : Config) (resources : ResourceRegistry) (m : Messengers (T := T))
  (kept : list (Place (T := T) (W := W))).

Notation Net := (Net (W := W)).
Notation NetLabel := (NetLabel (T := T) (W := W)).
Notation worker_step := (worker_step (Format := Format) config resources m).
Notation puts := (puts (Format := Format)).
Notation q_request := (q_request config m).
Notation q_control := (q_control config m).
Notation q_result := (q_result config m).
Notation inputs := (inputs config m).
Notation sent := (sent config m).
Notation offers := (offers config m).
Notation encoded := (encoded (Format := Format)).
Notation after := (after (W := W)).

(** ** Steps *)

(** A receive of a worker that fails: a timeout, an error of the transport, a
    message that does not decode. *)
Definition fails (A : Type) `{Codec A Format} (t : T) (queue : string) (w w' : W) : Prop :=
  ∃ st, Messenger.receive (Format := Format) (A := A) t (mkAddress queue) worker_args w =
    Some (inl st, w').

Inductive faulty_worker : Net → NetLabel → Net → Prop :=
  | fault_worker n l n' : worker_step n l n' → faulty_worker n l n'
  | fault_task st f c r w w' :
      fails QuantumTask (task_local m) (request (queues config)) w w' →
      faulty_worker (mkNet (mkSys st f TIdle c r) w) (NUndecodable q_request)
        (mkNet (mkSys st f TIdle c r) w')
  | fault_control st f t r w w' :
      fails APIRequest (control_local m) (control_request (queues config)) w w' →
      faulty_worker (mkNet (mkSys st f t CIdle r) w) (NUndecodable q_control)
        (mkNet (mkSys st f t CIdle r) w')
  | fault_result st f t c w w' :
      fails QuantumResult (result_local m) (QOffloadConfig.result (queues config)) w w' →
      faulty_worker (mkNet (mkSys st f t c RIdle) w) (NUndecodable q_result)
        (mkNet (mkSys st f t c RIdle) w').

Inductive faulty_step : Net → NetLabel → Net → Prop :=
  | fault_submit t task s w w' accepted :
      place t (request (queues config)) = q_request →
      puts t (request (queues config)) task w accepted w' →
      faulty_step (mkNet s w) (NSubmitted task accepted) (mkNet s w')
  | fault_environment s w w' :
      calm w → calm w' → (∀ p, p ∈ q_request :: kept → contents w' p = contents w p) →
      faulty_step (mkNet s w) NEnvironment (mkNet s w')
  | fault_service n l n' : faulty_worker n l n' → faulty_step n l n'.

(** What happens without failures can happen. *)
Lemma net_faulty n l n' :
  net_step (Format := Format) config resources m kept n l n' → faulty_step n l n'.
Proof.
  intros []; [by eapply fault_submit| |by apply fault_service, fault_worker].
  by apply fault_environment; [apply calm_settled..|].
Qed.

Lemma faulty_sys_step n l n' :
  faulty_step n l n' → sys_step config resources (sys n) l (sys n').
Proof.
  intros [| |? ? ? [|st f c r w w' Hf|st f t r w w' Hf|st f t c w w' Hf]]; simpl;
    try by constructor.
  by eapply (net_sys_step config resources m []), net_worker.
Qed.

Lemma faulty_run_sys n tr n' :
  run faulty_step n tr n' → run (sys_step config resources) (sys n) tr (sys n').
Proof.
  induction 1; [constructor|]. econstructor; [done|]. by eapply faulty_sys_step.
Qed.

(** ** What a step does to the queues *)

Context (Hwired : wired config m).

(** What a worker takes from the queue [q], which holds [old] before and [new]
    after it. *)
Definition takes (l : NetLabel) (q : Place) (old new : list Envelope) : Prop :=
  let took {A} `{Codec A Format} (r : Result A) :=
    took (Format := Format) worker_args r old new in
  match l with
  | NTask v => q = q_request ∧ took (inr v)
  | NControl v => q = q_control ∧ took (inr v)
  | NResult v => q = q_result ∧ took (inr v)
  | NUndecodable q' => q = q' ∧ (q = q_request → ∃ st, took (A := QuantumTask) (inl st))
  | _ => False
  end.

(** What a step stores of what it offers: all that is accepted. *)
Definition stores (l : NetLabel) (stored : list (Place * Mail)) : Prop :=
  stored = offers l ∨ (stored = [] ∧ sent l = []).

Definition fetched (l : NetLabel) (w w' : W) : Prop :=
  ∃ q, q ∈ inputs ∧ takes l q (contents w q) (contents w' q) ∧
    ∀ p, p ≠ q → contents w' p = contents w p.
Definition stored_some (l : NetLabel) (w w' : W) : Prop :=
  fetches l = false ∧ ∃ stored, stores l stored ∧
    ∀ p, p ∈ q_request :: kept →
      ∃ es, contents w' p = contents w p ++ es ∧ Forall2 encoded (to p stored) es.

Lemma fetch_effect {A : Type} `{CodecLaws A Format} t n (r : Result A) w w' l :
  calm w → place t n ∈ inputs →
  Messenger.receive (Format := Format) t (mkAddress n) worker_args w = Some (r, w') →
  (∀ old new, took (Format := Format) worker_args r old new → takes l (place t n) old new) →
  calm w' ∧ fetched l w w'.
Proof.
  intros Hw Hin Hr Hl. apply receive_took in Hr as (Hw' & Ht & Hp); [|done..].
  split; [done|]. exists (place t n). auto.
Qed.

Lemma offer_effect {A : Type} `{CodecLaws A Format} `{!PlainCodec A Format}
    t n (v : A) ml w (accepted : bool) w' l :
  calm w → fetches l = false → (∀ e, encode Format v = inr e → encoded ml e) →
  offers l = [(place t n, ml)] → sent l = (if accepted then offers l else []) →
  puts t n v w accepted w' → calm w' ∧ stored_some l w w'.
Proof.
  intros Hw Hf Hml Ho Hs (st & Hp & <-).
  apply put_faulty in Hp as (Hw' & es & Hes & Hok & Hp); [|done]. split; [done|]. split; [done|].
  destruct Hes as [->|(e & -> & He)].
  - exists []. split.
    + right. split; [done|]. rewrite Hs. by destruct (ok st); [destruct Hok|].
    + intros p _. exists []. rewrite Hp. split; [by case_decide|constructor].
  - exists (offers l). split; [by left|]. intros p _.
    exists (if decide (p = place t n) then [e] else []). split; [apply Hp|].
    rewrite Ho. unfold to. rewrite filter_cons. simpl.
    destruct (decide (place t n = p)) as [->|Hne].
    + rewrite decide_True by done. repeat constructor. by apply Hml.
    + rewrite decide_False by congruence. constructor.
Qed.

Lemma unchanged l w w' :
  fetches l = false → sent l = [] → (∀ p, p ∈ q_request :: kept → contents w' p = contents w p) →
  stored_some l w w'.
Proof.
  intros Hf Hs Hp. split; [done|]. exists []. split; [by right|]. intros p Hin.
  exists []. rewrite app_nil_r. split; [by apply Hp|constructor].
Qed.

Ltac sends_mail ml :=
  right; match goal with Hp : puts _ _ _ _ ?accepted _, Hw : calm _ |- _ =>
    eapply (offer_effect _ _ _ ml _ _ _ _ Hw) in Hp; [exact Hp|..];
    try first [done|by destruct accepted] end.

Lemma step_effect n l n' :
  calm (world n) → faulty_step n l n' →
  (calm (world n') ∧ fetched l (world n) (world n')) ∨
  (calm (world n') ∧ stored_some l (world n) (world n')).
Proof.
  destruct Hwired as (_ & Eq & D1 & D2 & D3 & _).
  intros Hw Hs.
  destruct Hs as [t task s w w' accepted Ht Hp|s w w' _ Hw' Hp|? ? ? Hs]; simpl in *.
  - sends_mail (MTask task). by rewrite Ht.
  - right. split; [done|]. by apply unchanged.
  - destruct Hs as [? ? ? []| | |]; simpl in *;
      repeat match goal with
      | Hg : gets_junk _ _ _ _ _ |- _ => destruct Hg as [? [_ Hg]]
      | Hg : gets _ _ _ _ _ |- _ => destruct Hg as [_ Hg]
      | Hg : fails _ _ _ _ _ |- _ => destruct Hg as [? Hg]
      end.
    all: try match goal with Hg : Messenger.receive _ _ _ _ = _ |- _ => left;
      eapply (fetch_effect _ _ _ _ _ _ Hw) in Hg; [exact Hg|set_solver|];
      intros old new Htook; simpl; split; first [done|by eauto|naive_solver] end.
    + sends_mail (MTask task).
    + sends_mail (MTask task). simpl. by rewrite Eq.
    + by sends_mail (MResponse response).
    + by sends_mail (MResult mapped).
    + right. split; [done|]. apply unchanged; [done| |done].
      match goal with Hl : local ?l = true |- _ => by destruct l end.
Qed.

Lemma steps_calm n tr n' : calm (world n) → run faulty_step n tr n' → calm (world n').
Proof.
  intros Hw. induction 1 as [|tr n1 l n2 _ IH Hs]; [done|].
  by destruct (step_effect n1 l n2 IH Hs) as [[? _]|[? _]].
Qed.

(** ** Accounting for messages *)

Notation encodes := (Forall2 (λ (t : QuantumTask) e, encode Format t = inr e)).
Context (outside : Place (T := T) (W := W) → Prop) (Houtside : ∀ p, outside p → p ≠ q_request).
Notation polite := (polite m outside).
Notation outward := (outward m outside).

(** Receives that never lose a message, whether they succeed or fail. *)
Definition keeping : Prop := lossless worker_args = true ∧ failsafe worker_args = true.

Lemma stores_bounds l stored :
  stores l stored → sent l `sublist_of` stored ∧ stored `sublist_of` offers l.
Proof.
  assert (sent l `sublist_of` offers l) as Hso.
  { destruct l as [? []| | | | | |[]]; simpl; try destruct accepted; auto using sublist_nil_l. }
  intros [->|[-> ->]]; split; auto using sublist_nil_l.
Qed.

Lemma offered_request l : outward l → to q_request (offers l) = MTask <$> attempts l.
Proof.
  destruct Hwired as (_ & _ & _ & _ & _ & D3). intros Ho. unfold to.
  destruct l as [| | | | | |[]]; simpl in *; try done;
    rewrite filter_cons; simpl; case_decide as Hd; try done; try congruence;
    first [destruct Ho as [_ Ho]|idtac]; by destruct (Houtside _ Ho).
Qed.

Lemma stored_requests l stored :
  outward l → stores l stored → ∃ requests, to q_request stored = MTask <$> requests ∧
    submits l `sublist_of` requests ∧ requests `sublist_of` attempts l.
Proof.
  intros Ho [->|[-> Hs]].
  - exists (attempts l). split; [by apply offered_request|]. split; [|done].
    destruct l as [? []| | | | | |]; simpl; auto using sublist_nil_l.
  - exists []. split; [done|]. split; [|apply sublist_nil_l]. by destruct l as [? []| | | | | |].
Qed.

(** What happens to the request queue, which holds the tasks [ts]. *)
Definition requests_move (l : NetLabel) (ts requests ts' : list QuantumTask) : Prop :=
  receives l ++ ts' `sublist_of` ts ++ requests ∧
  (keeping → receives l ++ ts' = ts ++ requests).

Lemma requests_same l ts requests : receives l = [] → requests_move l ts requests (ts ++ requests).
Proof. intros Hr. unfold requests_move. by rewrite Hr. Qed.

Lemma fetched_requests l w w' ts :
  fetched l w w' → encodes ts (contents w q_request) →
  ∃ ts', encodes ts' (contents w' q_request) ∧ requests_move l ts [] ts'.
Proof.
  destruct Hwired as (_ & _ & D1 & D2 & _). intros (q & _ & Ht & Hp) Hts.
  destruct (decide (q = q_request)) as [->|Hne].
  - unfold requests_move. rewrite app_nil_r.
    destruct l; simpl in Ht; try done; destruct Ht as [Eq Ht]; try done.
    + destruct (took_values _ _ _ _ _ Hts Ht) as (lost & ts' & Hts' & -> & Hl).
      exists ts'. split; [done|]. simpl. split; [by apply sublist_skip, sublist_inserts_l|].
      intros [Hk _]. by rewrite (Hl Hk).
    + destruct (Ht eq_refl) as [st Ht'].
      destruct (took_values _ _ _ _ _ Hts Ht') as (lost & ts' & Hts' & -> & Hl).
      exists ts'. split; [done|]. simpl. split; [by apply sublist_inserts_l|].
      intros [_ Hk]. by rewrite (Hl Hk).
  - exists ts. rewrite (Hp q_request) by done. split; [done|].
    rewrite <- (app_nil_r ts) at 2. apply requests_same. destruct l; simpl in Ht; naive_solver.
Qed.

Lemma fetched_label l w w' : fetched l w w' → offers l = [].
Proof. intros (q & _ & Ht & _). by destruct l. Qed.

(** One step: what it stores, and the requests among it. *)
Lemma step_accounts n l n' ts :
  calm (world n) → outward l → encodes ts (contents (world n) q_request) → faulty_step n l n' →
  calm (world n') ∧ ∃ stored requests ts',
    stores l stored ∧ to q_request stored = MTask <$> requests ∧
    submits l `sublist_of` requests ∧ requests `sublist_of` attempts l ∧
    encodes ts' (contents (world n') q_request) ∧ requests_move l ts requests ts' ∧
    ∀ p, p ∈ kept → p ∉ inputs →
      ∃ es, contents (world n') p = contents (world n) p ++ es ∧ Forall2 encoded (to p stored) es.
Proof.
  intros Hw Ho Hts Hs. destruct (step_effect n l n' Hw Hs) as [[Hw' Hf]|[Hw' [Hf (stored & Hst & Hp)]]];
    (split; [done|]).
  - destruct (fetched_requests l _ _ ts Hf Hts) as (ts' & Hts' & Hmove).
    pose proof (fetched_label _ _ _ Hf) as Hl.
    destruct (stored_requests l [] Ho (or_introl (eq_sym Hl))) as (rs & Hrs & Hsub & Hatt).
    symmetry in Hrs. apply fmap_nil_inv in Hrs as ->.
    exists [], [], ts'. split_and!; try done; [by left|].
    destruct Hf as (q & Hq & _ & Hsame). intros p _ Hin. exists []. rewrite app_nil_r.
    split; [apply Hsame; congruence|constructor].
  - destruct (stored_requests l stored Ho Hst) as (rs & Hrs & Hsub & Hatt).
    exists stored, rs, (ts ++ rs). split_and!; try done.
    + destruct (Hp q_request ltac:(by left)) as (es & -> & Hes). apply Forall2_app; [done|].
      rewrite Hrs, Forall2_fmap_l in Hes. exact Hes.
    + apply requests_same. by destruct l.
    + intros p Hk _. apply Hp. by right.
Qed.

Section Runs.
Context (w0 : W) (uid : Z) (Hcalm : calm w0) (Hempty : contents w0 q_request = []).
Notation runs tr n := (run faulty_step (mkNet (initial uid) w0) tr n).

Lemma to_app p mail1 mail2 : to (T := T) (W := W) p (mail1 ++ mail2) = to p mail1 ++ to p mail2.
Proof. unfold to. by rewrite filter_app, fmap_app. Qed.

(** What has been stored in the whole run, and the requests among it. *)
Lemma run_accounts tr n :
  runs tr n → Forall polite tr →
  calm (world n) ∧ ∃ stored requests waiting,
    (tr ≫= sent) `sublist_of` stored ∧ stored `sublist_of` (tr ≫= offers) ∧
    submitted tr `sublist_of` requests ∧ requests `sublist_of` attempted tr ∧
    encodes waiting (contents (world n) q_request) ∧
    received tr ++ waiting `sublist_of` requests ∧
    (keeping → received tr ++ waiting = requests) ∧
    ∀ p, p ∈ kept → p ∉ inputs →
      ∃ es, contents (world n) p = contents w0 p ++ es ∧ Forall2 encoded (to p stored) es.
Proof.
  induction 1 as [|tr n l n' Hr IH Hs]; intros Hpol.
  { split; [done|]. exists [], [], []. simpl. rewrite Hempty. split_and!; try done.
    intros p _ _. exists []. rewrite app_nil_r. by split; [|constructor]. }
  apply Forall_app in Hpol as [Hpol _].
  destruct (IH Hpol) as (Hw & st & rs & ts & Hsent & Hoff & Hsub & Hatt & Hts & Hrec & Hkeep & Hmail).
  assert (outward l) as Hl.
  { eapply outward_label; [exact (faulty_run_sys _ _ _ Hr)|by eapply faulty_sys_step|done|].
    etransitivity; [|exact Hatt]. etransitivity; [|exact Hrec]. by apply sublist_inserts_r. }
  destruct (step_accounts n l n' ts Hw Hl Hts Hs)
    as (Hw' & st' & rs' & ts' & Hst' & _ & Hsub' & Hatt' & Hts' & [Hrec' Hkeep'] & Hmail').
  apply stores_bounds in Hst' as [Hsent' Hoff']. split; [done|].
  exists (st ++ st'), (rs ++ rs'), ts'. unfold submitted, attempted, received in *.
  rewrite !bind_snoc, <- !app_assoc. split_and!; try by apply sublist_app.
  - done.
  - etransitivity; [by apply sublist_app, Hrec'|]. rewrite app_assoc. by apply sublist_app.
  - intros Hk. by rewrite (Hkeep' Hk), app_assoc, (Hkeep Hk).
  - intros p Hk Hin. destruct (Hmail p Hk Hin) as (es & Hes & Hall).
    destruct (Hmail' p Hk Hin) as (es' & Hes' & Hall').
    exists (es ++ es'). rewrite Hes', Hes, app_assoc, to_app. split; [done|].
    by apply Forall2_app.
Qed.

(** C3. Every answer belongs to a request, whatever calls fail: while the
    workers interleave and clients submit, over any transport with queues, with
    sends that fail, receives that time out, fail or lose messages and
    transports that are shut down, and with any resource manager, even one that
    repeats, reorders or invents results, the direct results sent correspond to
    different requests out of those clients sent; each goes to the queue its
    request names, with the request's own identifier and otherwise unchanged,
    and the results sent are, in order, some of those received, each carrying
    the identifier its request was registered under. *)
Theorem answers_belong_always tr n :
  run faulty_step (mkNet (initial uid) w0) tr n → Forall polite tr → short (service tr) →
  ∃ pairs : list (Z * (QuantumTask * QuantumResult)),
    (delivered tr).*2 = (λ x, answer x.2.1 x.2.2) <$> pairs ∧ NoDup pairs.*1 ∧
    pairs.*2.*1 ⊆+ attempted tr ∧ pairs.*2.*2 `sublist_of` answered tr ∧
    Forall (λ x, (x.1, x.2.1) ∈ registered tr ∧ QuantumResult.task_id x.2.2 = to_int32 x.1) pairs.
Proof.
  intros Hr Hp Hsh.
  destruct (answers_paired config resources _ _ _ (faulty_run_sys _ _ _ Hr) Hsh)
    as (ps & H1' & H2' & H3' & H4' & H5').
  exists ps. split_and!; [done..| |done|done]. etransitivity; [exact H3'|].
  destruct (run_accounts tr n Hr Hp) as (_ & st & rs & ts & _ & _ & _ & Hatt & _ & Hrec & _).
  apply sublist_submseteq. etransitivity; [|exact Hatt]. etransitivity; [|exact Hrec].
  by apply sublist_inserts_r.
Qed.

(** C4. Requests are accounted for, whatever calls fail: the requests that
    reached the request queue are, in order, all those reported accepted and
    possibly some reported failed; the requests registered, the one the task
    worker holds and those still in the queue are, in this order, some of them,
    and all of them when receives lose nothing; the messages of the registered
    requests are forwarded in their order; and every registered request is
    waiting for its result, or its result is being delivered, or has been. *)
Theorem requests_accounted_always tr n :
  run faulty_step (mkNet (initial uid) w0) tr n → Forall polite tr →
  (∃ requests waiting,
     submitted tr `sublist_of` requests ∧ requests `sublist_of` attempted tr ∧
     encodes waiting (contents (world n) q_request) ∧
     let accounted := (registered tr).*2 ++ task_holds (task_pc (sys n)) ++ waiting in
     accounted `sublist_of` requests ∧ (keeping → accounted = requests)) ∧
  (∃ fw, fw `sublist_of` forwarded tr ∧
     message_of config <$> registered tr = fw ++ task_sends (task_pc (sys n))) ∧
  (short (service tr) → ∀ id q, (id, q) ∈ registered tr → in_hand tr (sys n) id q).
Proof.
  intros Hr Hp. pose proof (faulty_run_sys _ _ _ Hr) as Hsys. split_and!.
  - destruct (run_accounts tr n Hr Hp)
      as (_ & st & rs & ts & _ & _ & Hsub & Hatt & Hts & Hrec & Hkeep & _).
    rewrite (run_registered _ _ _ _ _ Hsys), <- app_assoc in Hrec, Hkeep. by exists rs, ts.
  - by eapply run_forwarded, Hsys.
  - intros Hsh id q. by eapply registered_in_hand, Hsh; apply Hsys.
Qed.

(** C5. Mail, whatever calls fail: there is a sequence of stored messages, all
    those whose sends were reported accepted and possibly some reported failed,
    in order, such that a queue that is not one of the service's own and that
    nobody has read from yet holds, after what it held at the start, exactly
    those stored for it; and what the control worker sends are the answers to
    the requests it has received, exactly one for each request that names a
    queue for it, in order, to that queue. *)
Theorem mail_posted_always tr n :
  run faulty_step (mkNet (initial uid) w0) tr n → Forall polite tr →
  (∃ stored, (tr ≫= sent) `sublist_of` stored ∧ stored `sublist_of` (tr ≫= offers) ∧
     ∀ p, p ∈ kept → p ∉ inputs →
       ∃ es, contents (world n) p = contents w0 p ++ es ∧ Forall2 encoded (to p stored) es) ∧
  ∃ done, asked tr = done ++ control_holds (control_pc (sys n)) ∧
    Forall2 (λ request r, answer_to request r ∧
               APIResponse.destination_queue r = APIRequest.response_queue request)
      (filter (λ r, APIRequest.response_queue r ≠ "") done) (responded tr).
Proof.
  intros Hr Hp. split.
  - destruct (run_accounts tr n Hr Hp) as (_ & st & _ & _ & Hsent & Hoff & _ & _ & _ & _ & _ & Hm).
    by exists st.
  - by eapply responses_addressed, (faulty_run_sys _ _ _ Hr).
Qed.
End Runs.

(** ** The loops *)

Definition faulty_runs (n n' : Net) : Prop := ∃ tr, run faulty_worker n tr n'.

Lemma faulty_runs_one n l n' : faulty_worker n l n' → faulty_runs n n'.
Proof. intros Hs. exists [l]. by apply run_one. Qed.
Lemma faulty_runs_trans n n1 n' : faulty_runs n n1 → faulty_runs n1 n' → faulty_runs n n'.
Proof. intros [tr1 H1'] [tr2 H2']. exists (tr1 ++ tr2). by eapply run_app. Qed.
Lemma runs_faulty n n' : runs_to (Format := Format) config resources m n n' → faulty_runs n n'.
Proof.
  intros [tr Hr]. exists tr. induction Hr; [constructor|]. econstructor; [done|].
  by apply fault_worker.
Qed.

Lemma faulty_runs_calm n n' : calm (world n) → faulty_runs n n' → calm (world n').
Proof.
  intros Hw [tr Hr]. apply (steps_calm n tr); [done|].
  induction Hr; [constructor|]. econstructor; [done|]. by apply fault_service.
Qed.

(** What is observed of a worker from [n] on: its turn or loop returns and leaves
    [c]; or it has not returned, though its receives need not return ([ends]). *)
Definition explains (ends : Prop) (at_ : Core (W := W) → Net) (n : Net)
    (r : option (Core (W := W))) : Prop :=
  match r with Some c => faulty_runs n (at_ c) | None => ¬ ends end.

(** A loop is explained by its turns; once told to stop it returns. *)
Lemma loop_explained ends at_ (turn : Core (W := W) → option (Core (W := W))) stops c :
  (∀ c, world (at_ c) = net c) →
  (∀ c, calm (net c) → explains ends at_ (at_ c) (turn c)) → calm (net c) →
  explains (ends ∧ true ∈ stops) at_ (at_ c) (worker_loop turn stops c).
Proof.
  intros Hat Hturn. revert c. induction stops as [|[] stops IH]; intros c Hw; simpl.
  - intros [_ Hin]. by apply elem_of_nil in Hin.
  - exists []. constructor.
  - pose proof (Hturn c Hw) as Hr. destruct (turn c) as [c1|]; simpl in Hr; [|by intros [? _]].
    assert (calm (net c1)) as Hw1.
    { rewrite <- Hat. eapply faulty_runs_calm; [|exact Hr]. by rewrite Hat. }
    specialize (IH c1 Hw1). destruct (worker_loop turn stops c1) as [c2|]; simpl in *.
    + by eapply faulty_runs_trans.
    + intros [He Hin]. apply IH. split; [done|]. by apply elem_of_cons in Hin as [|].
Qed.

(** A receive of a worker returns, as one with a timeout should. *)
Definition receives_end (A : Type) `{Codec A Format} (t : T) (queue : string) : Prop :=
  ∀ w, calm w →
    is_Some (Messenger.receive (Format := Format) (A := A) t (mkAddress queue) worker_args w).

Context (Hint : int32_fields (Format := Format)).

Ltac turn_fails := eapply faulty_runs_one; unfold after; simpl; constructor; by eexists.
Ltac turn_waits Hr Hw := intros He; destruct (He _ Hw) as [? E]; congruence.

Lemma task_turn_explained k r c :
  calm (net c) →
  explains (receives_end QuantumTask (task_local m) (request (queues config)))
    (λ c, after c TIdle k r) (after c TIdle k r)
    (task_turn (Format := Format) config (task_local m) (task_qrm m) c).
Proof.
  destruct c as [st f w]. simpl. intros Hw.
  destruct (Messenger.receive (Format := Format) (A := QuantumTask) (task_local m)
    (mkAddress (request (queues config))) worker_args w) as [[[s|v] w1]|] eqn:Hr.
  - unfold task_turn. simpl. rewrite Hr. turn_fails.
  - apply receive_found in Hr as [Hf [e Hd]]; [|done..].
    destruct (task_message (Format := Format) config resources m (mkNet (mkSys st f TIdle k r) w)
      v w1 eq_refl Hf (proj1 Hint _ _ Hd)) as (c1 & Hc & Hrun).
    unfold core in Hc. simpl in *. rewrite Hc. by apply runs_faulty.
  - unfold task_turn. simpl. rewrite Hr. turn_waits Hr Hw.
Qed.

Lemma control_turn_explained t r c :
  calm (net c) →
  explains (receives_end APIRequest (control_local m) (control_request (queues config)))
    (λ c, after c t CIdle r) (after c t CIdle r)
    (control_turn (Format := Format) config resources (control_local m) (control_qrm m) c).
Proof.
  destruct c as [st f w]. simpl. intros Hw.
  destruct (Messenger.receive (Format := Format) (A := APIRequest) (control_local m)
    (mkAddress (control_request (queues config))) worker_args w) as [[[s|v] w1]|] eqn:Hr.
  - unfold control_turn. simpl. rewrite Hr. turn_fails.
  - apply receive_found in Hr as [Hf _]; [|done..].
    destruct (control_message (Format := Format) config resources m (mkNet (mkSys st f t CIdle r) w)
      v w1 eq_refl Hf) as (c1 & Hc & Hrun).
    unfold core in Hc. simpl in *. rewrite Hc. by apply runs_faulty.
  - unfold control_turn. simpl. rewrite Hr. turn_waits Hr Hw.
Qed.

Lemma result_turn_explained t k c :
  calm (net c) →
  explains (receives_end QuantumResult (result_local m) (QOffloadConfig.result (queues config)))
    (λ c, after c t k RIdle) (after c t k RIdle)
    (result_turn (Format := Format) config (result_local m) c).
Proof.
  destruct c as [st f w]. simpl. intros Hw.
  destruct (Messenger.receive (Format := Format) (A := QuantumResult) (result_local m)
    (mkAddress (QOffloadConfig.result (queues config))) worker_args w) as [[[s|v] w1]|] eqn:Hr.
  - unfold result_turn. simpl. rewrite Hr. turn_fails.
  - apply receive_found in Hr as [Hf [e Hd]]; [|done..].
    destruct (result_message (Format := Format) config resources m (mkNet (mkSys st f t k RIdle) w)
      v w1 eq_refl Hf (proj2 Hint _ _ Hd)) as (c1 & Hc & Hrun).
    unfold core in Hc. simpl in *. rewrite Hc. by apply runs_faulty.
  - unfold result_turn. simpl. rewrite Hr. turn_waits Hr Hw.
Qed.

(** C12. The steps are those of the loops: whatever calls fail, whatever the stop
    token answers and whatever the other workers are doing, a worker loop that
    returns has made a run of the steps of its worker, failed receives and
    sends among them, from the store, the forwarder and the queues it started
    with to those it leaves; and it does return once it is told to stop, if its
    receives, which have a timeout, do. *)
Theorem loops_are_runs stops c t k r :
  calm (net c) →
  explains
    (receives_end QuantumTask (task_local m) (request (queues config)) ∧ true ∈ stops)
    (λ c, after c TIdle k r) (after c TIdle k r)
    (worker_loop (task_turn (Format := Format) config (task_local m) (task_qrm m)) stops c) ∧
  explains
    (receives_end APIRequest (control_local m) (control_request (queues config)) ∧ true ∈ stops)
    (λ c, after c t CIdle r) (after c t CIdle r)
    (worker_loop (control_turn (Format := Format) config resources (control_local m)
       (control_qrm m)) stops c) ∧
  explains
    (receives_end QuantumResult (result_local m) (QOffloadConfig.result (queues config)) ∧
     true ∈ stops)
    (λ c, after c t k RIdle) (after c t k RIdle)
    (worker_loop (result_turn (Format := Format) config (result_local m)) stops c).
Proof.
  intros Hw. split_and!; apply (loop_explained _ (λ c, after c _ _ _)); try done; intros c1.
  - apply task_turn_explained.
  - apply control_turn_explained.
  - apply result_turn_explained.
Qed.
End Faults.

(** ** A concrete run

    Over the in-memory transport: the task worker's receive times out, a
    client's task goes through the service and its result back to the client;
    then the transport is shut down, so that the next task is rejected and the
    next receive fails. *)

Import (hints) InMemoryTransport.
Import (hints) Workers.Example.
Import (hints) ServiceNet.Demo.

Module Failing.
Import Workers.Example.
Import ServiceNet.Demo.
Import InMemoryTransport(World, shutdown).

Definition v4 : World := sent_to (QOffloadConfig.result (queues config)) answer
  (got QuantumTask (qrm_task (queues config)) w3).
Definition v5 := got QuantumResult (QOffloadConfig.result (queues config)) v4.
Definition v6 := sent_to "client" own v5.
Definition v7 := shutdown v6.

Definition history : list (NetLabel (T := unit) (W := World)) :=
  [NUndecodable (q_request config handles); NSubmitted request true; NTask request;
   NStep (LIssue 7); NStep (LRegister 7 request); NStep (LForwarded fw true); NEnvironment;
   NResult answer; NStep (LTaken 7 pending); NStep (LDeliver 7 "client" own true);
   NEnvironment; NSubmitted request false; NUndecodable (q_control config handles)].

Notation step := (faulty_step (Format := Text) config resources_ handles kept).
Definition stopped : Net (W := World) :=
  mkNet (mkSys empty_store (mkForward 7 1) TIdle CIdle RIdle) v7.

Lemma calm_environment s (w w' : World) :
  InMemoryTransport.others w = [] → InMemoryTransport.others w' = [] →
  forallb (λ p, bool_decide (InMemoryTransport.pending tt w' p = InMemoryTransport.pending tt w p))
    (q_request config handles :: kept) = true →
  step (mkNet s w) NEnvironment (mkNet s w').
Proof.
  intros Hw Hw' Hp. apply fault_environment; [done..|]. intros p Hin.
  rewrite forallb_forall in Hp. apply list_elem_of_In, Hp, bool_decide_eq_true in Hin. done.
Qed.

Ltac fault := eexists; vm_compute; reflexivity.

Lemma failing_run : run step start history stopped.
Proof.
  eapply run_cons; [eapply fault_service, (fault_task _ _ _ _ _ _ _ _ world0); fault|].
  eapply run_cons; [eapply (fault_submit _ _ _ _ tt request _ _ w1); [done|putting]|].
  eapply run_cons; [eapply fault_service, fault_worker, (net_task _ _ _ _ _ _ _ _ w2);
                    [apply demo_found; evaluated|split; [discriminate|reflexivity]]|].
  eapply run_cons; [eapply fault_service, fault_worker, net_local; [apply step_task_issue|done]|].
  eapply run_cons; [eapply fault_service, fault_worker, net_local; [apply step_task_register|done]|].
  eapply run_cons; [eapply fault_service, fault_worker, (net_task_forward _ _ _ _ _ _ _ _ w3); putting|].
  eapply run_cons; [apply (calm_environment _ w3 v4); vm_compute; reflexivity|].
  eapply run_cons; [eapply fault_service, fault_worker, (net_result _ _ _ _ _ _ _ _ v5);
                    [apply demo_found; evaluated|split; [discriminate|reflexivity]]|].
  eapply run_cons; [eapply fault_service, fault_worker, net_local; [by eapply step_result_take|done]|].
  eapply run_cons; [eapply fault_service, fault_worker, (net_result_deliver _ _ _ _ _ _ _ _ v6); putting|].
  eapply run_cons; [apply (calm_environment _ v6 v7); vm_compute; reflexivity|].
  eapply run_cons; [eapply (fault_submit _ _ _ _ tt request _ _ v7); [done|putting]|].
  apply run_one, fault_service, (fault_control _ _ _ _ _ _ _ _ v7). fault.
Qed.

Lemma failing_polite : Forall (polite handles outside) history.
Proof.
  repeat (apply Forall_cons; split; [first [exact I|split; vm_compute; congruence|vm_compute; congruence]|]).
  constructor.
Qed.

Lemma failing_short : short (service history).
Proof. vm_compute. reflexivity. Qed.
End Failing.

Lemma answers_belong_always_witness :
  ∃ pairs : list (Z * (QuantumTask * QuantumResult)),
    [("client", Workers.Example.own)] = (λ x, answer x.2.1 x.2.2) <$> pairs ∧
    pairs.*2.*1 ⊆+ [Workers.Example.request; Workers.Example.request] ∧
    pairs.*2.*2 `sublist_of` [Workers.Example.answer].
Proof.
  destruct (answers_belong_always (Format := Workers.Example.Text) Workers.Example.config resources_
    Demo.handles Demo.kept Demo.demo_wired Demo.outside (λ _, id) Demo.world0 7 (calm_settled _ Demo.demo_settled) eq_refl
    Failing.history Failing.stopped Failing.failing_run Failing.failing_polite Failing.failing_short)
    as (ps & H1 & _ & H2 & H3 & _).
  exists ps. split; [exact H1|]. split; [exact H2|exact H3].
Defined.

Lemma requests_accounted_always_witness :
  ∃ requests waiting, [Workers.Example.request] `sublist_of` requests ∧
    requests `sublist_of` [Workers.Example.request; Workers.Example.request] ∧
    [Workers.Example.request] ++ waiting = requests.
Proof.
  destruct (requests_accounted_always (Format := Workers.Example.Text) Workers.Example.config resources_
    Demo.handles Demo.kept Demo.demo_wired Demo.outside (λ _, id) Demo.world0 7 (calm_settled _ Demo.demo_settled) eq_refl
    Failing.history Failing.stopped Failing.failing_run Failing.failing_polite)
    as ((rs & ts & H1 & H2 & _ & _ & H3) & _ & _).
  exists rs, ts. split; [exact H1|]. split; [exact H2|]. apply H3. split; reflexivity.
Defined.

Lemma mail_posted_always_witness :
  ∃ es, contents (world Failing.stopped) "client" = es ∧ es ≠ [].
Proof.
  destruct (proj1 (mail_posted_always (Format := Workers.Example.Text) Workers.Example.config resources_
    Demo.handles Demo.kept Demo.demo_wired Demo.outside (λ _, id) Demo.world0 7 (calm_settled _ Demo.demo_settled) eq_refl
    Failing.history Failing.stopped Failing.failing_run Failing.failing_polite))
    as (st & _ & _ & Hm).
  destruct (Hm "client") as (es & H1 & H2).
  - left.
  - apply (bool_decide_unpack _). vm_compute. exact I.
  - exists es. split; [exact H1|]. intros E. rewrite E in H1. discriminate H1.
Defined.

Lemma loops_are_runs_witness :
  ∃ c, worker_loop (task_turn (Format := Workers.Example.Text) Workers.Example.config tt tt)
         [false; false; true] (core Demo.submitted1) = Some c ∧
    faulty_runs (Format := Workers.Example.Text) Workers.Example.config resources_ Demo.handles
      (after (core Demo.submitted1) TIdle CIdle RIdle) (after c TIdle CIdle RIdle).
Proof.
  assert (calm (net (core Demo.submitted1))) as Hcalm.
  { apply calm_settled. split; [reflexivity|]. eexists. split; reflexivity. }
  pose proof (proj1 (loops_are_runs (Format := Workers.Example.Text) Workers.Example.config
    resources_ Demo.handles Demo.kept Demo.demo_wired Demo.demo_int32 [false; false; true]
    (core Demo.submitted1) TIdle CIdle RIdle Hcalm)) as Hl.
  destruct (worker_loop _ _ _) as [c|] eqn:Hloop.
  - exists c. split; [reflexivity|exact Hl].
  - destruct Hl. split; [|do 2 right; left].
    intros w _. by apply (in_memory_receive_returns _ _ 500).
Defined.
