(* ===== verification/ServiceLife.v ===== *)
(** * Stopping the QOffload workers (src/QOffload.cpp)

    [QOffloadMain] has the calls that start and stop the workers, as events; here
    the worker threads and the thread that stops them run at once.  A worker is
    at the head of its loop, where it tests its stop token, in its receive, at
    work on a message, or has ended; its receives and sends are those of
    [ServiceFaults], and may fail.  [requestStop] asks one worker after the other
    to stop and then joins them in this order ([workers_.clear()] destroys the
    threads). *)

From S2P Require Import Prelude Status Message Transport Codec Protocol TaskStore QOffloadConfig ResourceRegistry Forward ControlProtocol Control Service ServiceTypes QueueTransport.
From S2P Require Import Workers ServiceRuns ServiceNet ServiceFaults Codec.
From S2P Require Messenger.

Inductive Phase := Head | Receiving | Working | Ended.
(** The thread that calls [requestStop]. *)
Inductive MainPc := Serving | Asking (ws : list Worker) | Joining (ws : list Worker).
Definition workers_ : list Worker := [TaskWorker; ControlWorker; ResultWorker].

Section Life.
Context {T W : Type} `{FaultyQueues T W} {Format : Type}
  `{CodecLaws QuantumTask Format} `{CodecLaws QuantumResult Format}
  `{CodecLaws APIRequest Format} `{CodecLaws APIResponse Format}
  `{!PlainCodec QuantumTask Format} `{!PlainCodec QuantumResult Format}
  `{!PlainCodec APIRequest Format} `{!PlainCodec APIResponse Format}.
Context (config : Config) (resources : ResourceRegistry) (m : Messengers (T := T))
  (kept : list (Place (T := T) (W := W))).

Notation Net := (Net (W := W)).
Notation NetLabel := (NetLabel (T := T) (W := W)).
Notation faulty_step := (faulty_step (Format := Format) config resources m kept).
Notation faulty_worker := (faulty_worker (Format := Format) config resources m).

(** ** The threads *)

Record Life := mkLife {
  inner : Net;
  phase : Worker → Phase;
  stop_requested : Worker → bool;     (* the stop token of the worker *)
  main : MainPc;
}.

Inductive LifeLabel :=
  | LTested (w : Worker)
  | LMoves (w : Worker) (l : NetLabel)
  | LOutside (l : NetLabel)
  | LStop                             (** [requestStop] is called *)
  | LAsked (w : Worker)
  | LClear
  | LJoined (w : Worker).

Definition reads_from (w : Worker) : Place :=
  match w with
  | TaskWorker => q_request config m
  | ControlWorker => q_control config m
  | ResultWorker => q_result config m
  end.

(** The worker whose local state a step changes. *)
Definition moved (w : Worker) (n n' : Net) : Prop :=
  left_to_do w (sys n') ≠ left_to_do w (sys n).

Definition after_step (w : Worker) (n : Net) : Phase :=
  if decide (left_to_do w (sys n) = 0%nat) then Head else Working.

Inductive life_step : Life → LifeLabel → Life → Prop :=
  (* while (!stop.stop_requested()) *)
  | life_test n ph st mn w :
      ph w = Head →
      life_step (mkLife n ph st mn) (LTested w)
        (mkLife n (<[w := if st w then Ended else Receiving]> ph) st mn)
  (* the receive *)
  | life_failed n n' ph st mn w :
      ph w = Receiving → faulty_worker n (NUndecodable (reads_from w)) n' →
      life_step (mkLife n ph st mn) (LMoves w (NUndecodable (reads_from w)))
        (mkLife n' (<[w := Head]> ph) st mn)
  | life_message n l n' ph st mn w :
      ph w = Receiving → faulty_worker n l n' → fetches l = true → moved w n n' →
      life_step (mkLife n ph st mn) (LMoves w l) (mkLife n' (<[w := Working]> ph) st mn)
  (* the rest of the body *)
  | life_work n l n' ph st mn w :
      ph w = Working → faulty_worker n (NStep l) n' → moved w n n' →
      life_step (mkLife n ph st mn) (LMoves w (NStep l))
        (mkLife n' (<[w := after_step w n']> ph) st mn)
  (* clients and other queues *)
  | life_submitted n task accepted n' ph st mn :
      faulty_step n (NSubmitted task accepted) n' →
      life_step (mkLife n ph st mn) (LOutside (NSubmitted task accepted)) (mkLife n' ph st mn)
  | life_environment n n' ph st mn :
      faulty_step n NEnvironment n' →
      life_step (mkLife n ph st mn) (LOutside NEnvironment) (mkLife n' ph st mn)
  (* requestStop *)
  | life_stop n ph st :
      life_step (mkLife n ph st Serving) LStop (mkLife n ph st (Asking workers_))
  | life_ask n ph st w ws :
      life_step (mkLife n ph st (Asking (w :: ws))) (LAsked w)
        (mkLife n ph (<[w := true]> st) (Asking ws))
  | life_clear n ph st :
      life_step (mkLife n ph st (Asking [])) LClear (mkLife n ph st (Joining workers_))
  | life_join n ph st w ws :
      ph w = Ended →
      life_step (mkLife n ph st (Joining (w :: ws))) (LJoined w) (mkLife n ph st (Joining ws)).

(** The threads as [start] leaves them. *)
Definition started (n : Net) : Life := mkLife n (λ _, Head) (λ _, false) Serving.

(** What happens to the service. *)
Definition visible (l : LifeLabel) : option NetLabel :=
  match l with LMoves _ l | LOutside l => Some l | _ => None end.
Definition history (tr : list LifeLabel) : list NetLabel := omap visible tr.

Lemma history_snoc tr l : history (tr ++ [l]) = history tr ++ option_list (visible l).
Proof. unfold history. rewrite omap_app. simpl. by destruct (visible l). Qed.

Lemma life_visible s l s' :
  life_step s l s' →
  match visible l with
  | Some l' => faulty_step (inner s) l' (inner s')
  | None => inner s' = inner s
  end.
Proof. intros []; simpl; first [done|by apply fault_service]. Qed.

(** The service does what [ServiceFaults] says, whatever the threads do. *)
Lemma life_net s tr s' :
  run life_step s tr s' → run faulty_step (inner s) (history tr) (inner s').
Proof.
  induction 1 as [|tr s1 l s2 _ IH Hl]; [constructor|].
  apply life_visible in Hl. rewrite history_snoc.
  destruct (visible l); [by econstructor|]. by rewrite Hl, app_nil_r.
Qed.

(** ** Where the threads are *)

Lemma step_served n l n' :
  faulty_step n l n' →
  match served l with
  | Some l' => Service.step config resources (sys n) l' (sys n')
  | None => sys n' = sys n
  end.
Proof. intros Hs. by eapply sys_step_served, faulty_sys_step. Qed.
Lemma worker_served n l n' :
  faulty_worker n l n' →
  match served l with
  | Some l' => Service.step config resources (sys n) l' (sys n')
  | None => sys n' = sys n
  end.
Proof. intros Hs. by eapply step_served, fault_service. Qed.

(** A worker's step moves no other worker. *)
Lemma one_moves w w' n l n' :
  faulty_worker n l n' → moved w n n' → w' ≠ w →
  left_to_do w' (sys n') = left_to_do w' (sys n).
Proof.
  intros Hs Hm Hne. apply worker_served in Hs. destruct (served l) as [l'|]; [|by rewrite Hs].
  destruct (step_has_worker config resources _ _ _ Hs) as [w0 Hw0].
  assert (w0 = w) as ->; [|by eapply other_step].
  destruct (decide (w = w0)) as [->|Hd]; [done|].
  destruct Hm. by eapply other_step.
Qed.

Lemma work_decreases w n l n' :
  faulty_worker n l n' → moved w n n' → left_to_do w (sys n) ≠ 0%nat →
  (left_to_do w (sys n') < left_to_do w (sys n))%nat.
Proof.
  intros Hs Hm Hne. apply worker_served in Hs as Hs'. destruct (served l) as [l'|]; [|by destruct Hm; rewrite Hs'].
  destruct (step_has_worker config resources _ _ _ Hs') as [w0 Hw0].
  destruct (decide (w0 = w)) as [->|Hd]; [by eapply own_step|].
  destruct Hm. eapply other_step; [exact Hw0|congruence].
Qed.

Record alive (s : Life) : Prop := {
  alive_phase w : phase s w = Working ↔ left_to_do w (sys (inner s)) ≠ 0%nat;
  alive_ended w : phase s w = Ended → stop_requested s w = true;
  alive_main :
    match main s with
    | Serving => True
    | Asking ws => ∀ w, stop_requested s w = false → w ∈ ws
    | Joining ws => (length ws <= 3)%nat ∧
        ∀ w, stop_requested s w = true ∧ (phase s w = Ended ∨ w ∈ ws)
    end;
}.

Lemma every_worker (w : Worker) : w ∈ workers_.
Proof. unfold workers_. rewrite !elem_of_cons. destruct w; auto. Qed.

(** A worker [w] goes from [ph w] to [p]. *)
Lemma alive_worker n n' ph st mn w p :
  alive (mkLife n ph st mn) → ph w ≠ Ended →
  (∀ w', w' ≠ w → left_to_do w' (sys n') = left_to_do w' (sys n)) →
  (p = Working ↔ left_to_do w (sys n') ≠ 0%nat) → (p = Ended → st w = true) →
  alive (mkLife n' (<[w := p]> ph) st mn).
Proof.
  intros [Hp He Hm] Hne Hother Hwork Hend. split; simpl in *.
  - intros w'. destruct (decide (w' = w)) as [->|Hd]; [by rewrite fn_lookup_insert|].
    by rewrite fn_lookup_insert_ne, Hp, Hother.
  - intros w'. destruct (decide (w' = w)) as [->|Hd]; [by rewrite fn_lookup_insert|].
    rewrite fn_lookup_insert_ne by done. apply He.
  - destruct mn as [| |ws]; [done..|]. destruct Hm as [Hl Hm]. split; [done|]. intros w'.
    destruct (Hm w') as [Hst [Hen|Hin]]; (split; [done|]); [left|by right].
    by rewrite fn_lookup_insert_ne by (intros ->; congruence).
Qed.

Lemma alive_step s l s' : alive s → life_step s l s' → alive s'.
Proof.
  intros Ha Hs.
  destruct Hs as [n ph st mn w Hw|n n' ph st mn w Hw Hs|n l n' ph st mn w Hw Hs Hf Hm
    |n l n' ph st mn w Hw Hs Hm|n task acc n' ph st mn Hs|n n' ph st mn Hs|n ph st|n ph st w ws|n ph st
    |n ph st w ws Hw].
  - apply (alive_worker n); [done|congruence|done| |by destruct (st w)].
    rewrite <- (alive_phase _ Ha w). simpl. rewrite Hw. by destruct (st w).
  - assert (sys n' = sys n) as Heq.
    { by apply worker_served in Hs. }
    apply (alive_worker n); [done|congruence|by rewrite Heq| |done].
    rewrite Heq, <- (alive_phase _ Ha w). simpl. by rewrite Hw.
  - apply (alive_worker n); [done|congruence|intros; by eapply one_moves| |done].
    split; [|done]. intros _. pose proof (alive_phase _ Ha w) as Hp. simpl in Hp. rewrite Hw in Hp.
    unfold moved in Hm. destruct (decide (left_to_do w (sys n) = 0%nat)) as [E|E]; [congruence|].
    by apply Hp in E.
  - apply (alive_worker n); [done|congruence|intros; by eapply one_moves| |].
    + unfold after_step. by case_decide.
    + unfold after_step. by case_decide.
  - destruct Ha as [Hp He Hmn]. apply step_served in Hs. simpl in Hs.
    split; simpl in *; [by rewrite Hs|done..].
  - destruct Ha as [Hp He Hmn]. apply step_served in Hs. simpl in Hs.
    split; simpl in *; [by rewrite Hs|done..].
  - destruct Ha as [Hp He _]. split; simpl in *; [done..|]. intros w _. apply every_worker.
  - destruct Ha as [Hp He Hmn]. split; simpl in *; [done| |].
    + intros w' Hw'. destruct (decide (w' = w)) as [->|Hd]; [by rewrite fn_lookup_insert|].
      rewrite fn_lookup_insert_ne by done. by apply He.
    + intros w' Hw'. destruct (decide (w' = w)) as [->|Hd]; [by rewrite fn_lookup_insert in Hw'|].
      rewrite fn_lookup_insert_ne in Hw' by done. apply Hmn in Hw'.
      by apply elem_of_cons in Hw' as [->|].
  - destruct Ha as [Hp He Hmn]. split; simpl in *; [done..|]. split; [lia|]. intros w.
    split; [|right; apply every_worker].
    destruct (st w) eqn:Hst; [done|]. by apply Hmn, elem_of_nil in Hst.
  - destruct Ha as [Hp He [Hl Hmn]]. split; simpl in *; [done..|]. split; [lia|]. intros w'.
    destruct (Hmn w') as [Hst [Hen|Hin]]; (split; [done|]); [by left|].
    apply elem_of_cons in Hin as [->|Hin]; [by left|by right].
Qed.

Lemma alive_started uid w0 : alive (started (mkNet (initial uid) w0)).
Proof. split; simpl; [|done..]. intros w. split; [done|]. by destruct w. Qed.

Lemma alive_run s tr s' : alive s → run life_step s tr s' → alive s'.
Proof. intros Ha. induction 1 as [|tr s1 l s2 _ IH Hl]; [done|]. by eapply alive_step. Qed.

(** ** Nothing is left half done *)

(** The last step of the result worker on a result. *)
Definition settles (l : Label) : bool :=
  match l with LUnknown _ | LStored _ | LDeliver _ _ _ _ => true | _ => false end.
Definition holds_one (pc : ResultPc) : nat := match pc with RIdle => 0 | _ => 1 end.

Lemma settled_step s l s' :
  sys_step config resources s l s' →
  (holds_one (result_pc s) + length (answers l) =
   (match served l with Some l => if settles l then 1 else 0 | None => 0 end) +
   holds_one (result_pc s'))%nat.
Proof. sys_cases. by destruct (kind p). Qed.

Lemma run_settled uid tr s :
  run (sys_step config resources) (initial uid) tr s →
  length (answered tr) = (count settles (service tr) + holds_one (result_pc s))%nat.
Proof.
  induction 1 as [|tr s l s' _ IH Hl]; [done|]. apply settled_step in Hl.
  unfold answered in *. rewrite bind_snoc, length_app, IH, service_snoc.
  destruct (served l); simpl; rewrite ?app_nil_r, ?count_snoc; lia.
Qed.

(** When the last worker has been joined. *)
Definition returned (s : Life) : Prop := main s = Joining [].

Lemma returned_ended s : alive s → returned s → ∀ w, phase s w = Ended.
Proof.
  intros [_ _ Hm] Hr w. rewrite Hr in Hm. destruct Hm as [_ Hm].
  destruct (Hm w) as [_ [|Hin%elem_of_nil]]; done.
Qed.

Lemma ended_idle s : alive s → (∀ w, phase s w = Ended) → idle (sys (inner s)).
Proof.
  intros [Hp _ _] He.
  assert (∀ w, left_to_do w (sys (inner s)) = 0%nat) as H0'.
  { intros w. destruct (decide (left_to_do w (sys (inner s)) = 0%nat)) as [|Hne]; [done|].
    apply Hp in Hne. by rewrite He in Hne. }
  pose proof (H0' TaskWorker) as Ht. pose proof (H0' ControlWorker) as Hc.
  pose proof (H0' ResultWorker) as Hr. unfold idle. simpl in *.
  by destruct (task_pc (sys (inner s))), (control_pc (sys (inner s))), (result_pc (sys (inner s))).
Qed.

Lemma returned_step s l s' :
  (∀ w, phase s w = Ended) → returned s → life_step s l s' →
  (∀ w, phase s' w = Ended) ∧ returned s' ∧ sys (inner s') = sys (inner s).
Proof.
  unfold returned. intros He Hr Hs.
  destruct Hs as [n ph st mn w Hw|n n' ph st mn w Hw Hs|n l n' ph st mn w Hw Hs Hf Hm
    |n l n' ph st mn w Hw Hs Hm|n task acc n' ph st mn Hs|n n' ph st mn Hs|n ph st|n ph st w ws|n ph st
    |n ph st w ws Hw]; simpl in *; try congruence; try (by specialize (He w); congruence).
  - by apply step_served in Hs.
  - by apply step_served in Hs.
Qed.

(** C16. Stopping is graceful: when [requestStop] has returned, however the
    workers, the thread that stops them, the clients and the rest of the system
    interleaved and whatever calls failed, no message a worker received is left half done: every request
    received was registered and its message handed to the transport, in order;
    every control request received that names a queue for its answer was
    answered there, in order; every result received was delivered, stored or
    recognised as unknown; and from then on nothing touches what the workers
    shared, so that it can be destroyed. *)
Theorem requestStop_graceful uid w0 tr s :
  run life_step (started (mkNet (initial uid) w0)) tr s → returned s →
  let h := history tr in
  received h = (registered h).*2 ∧
  (message_of config <$> registered h) `sublist_of` forwarded h ∧
  Forall2 answer_to (filter (λ r, APIRequest.response_queue r ≠ "") (asked h)) (responded h) ∧
  length (answered h) = count settles (service h) ∧
  ∀ tr' s', run life_step s tr' s' → sys (inner s') = sys (inner s).
Proof.
  intros Hr Hret h. pose proof (alive_run _ _ _ (alive_started uid w0) Hr) as Ha.
  pose proof (returned_ended s Ha Hret) as Hend.
  destruct (ended_idle s Ha Hend) as (Ht & Hc & Hres). apply life_net in Hr as Hnet.
  apply faulty_run_sys in Hnet. simpl in Hnet. subst h. split_and!.
  - rewrite (run_registered _ _ _ _ _ Hnet), Ht. simpl. by rewrite app_nil_r.
  - destruct (run_forwarded _ _ _ _ _ Hnet) as (fw & Hsub & ->).
    rewrite Ht. simpl. by rewrite app_nil_r.
  - destruct (run_responded _ _ _ _ _ Hnet) as (dn & Heq & Hall).
    rewrite Hc in Heq. simpl in Heq. rewrite app_nil_r in Heq. by rewrite Heq.
  - rewrite (run_settled _ _ _ Hnet), Hres. simpl. lia.
  - intros tr' s' Hrun.
    assert ((∀ w, phase s' w = Ended) ∧ returned s' ∧ sys (inner s') = sys (inner s))
      as (_ & _ & ?); [|done].
    induction Hrun as [|tr' s1 l s2 _ IH Hl]; [done|]. destruct IH as (He1 & Hr1 & <-).
    by apply (returned_step _ _ _ He1 Hr1) in Hl.
Qed.

(** ** Stopping ends *)

(** The steps of a worker that has been asked to stop, at most. *)
Definition worker_effort (s : Life) (w : Worker) : nat :=
  match phase s w with
  | Head => 1 | Receiving => 6 | Working => S (left_to_do w (sys (inner s))) | Ended => 0
  end.
Definition effort (s : Life) : nat :=
  (match main s with Joining ws => length ws | _ => 0 end +
   worker_effort s TaskWorker + worker_effort s ControlWorker + worker_effort s ResultWorker)%nat.

(** Workers and [requestStop]. *)
Definition internal (l : LifeLabel) : bool := match l with LOutside _ => false | _ => true end.

Lemma left_le w s : (left_to_do w s <= 4)%nat.
Proof. destruct w; simpl; [destruct (task_pc s)|destruct (control_pc s)|destruct (result_pc s)]; lia. Qed.

Lemma effort_worker n n' ph st ws w p :
  (∀ w', w' ≠ w → left_to_do w' (sys n') = left_to_do w' (sys n)) →
  (worker_effort (mkLife n' (<[w := p]> ph) st (Joining ws)) w <
   worker_effort (mkLife n ph st (Joining ws)) w)%nat →
  (effort (mkLife n' (<[w := p]> ph) st (Joining ws)) < effort (mkLife n ph st (Joining ws)))%nat.
Proof.
  intros Hother Hlt.
  assert (∀ w', w' ≠ w → worker_effort (mkLife n' (<[w := p]> ph) st (Joining ws)) w' =
    worker_effort (mkLife n ph st (Joining ws)) w') as Hsame.
  { intros w' Hne. unfold worker_effort. simpl. rewrite fn_lookup_insert_ne by done.
    by rewrite Hother. }
  unfold effort. cbn [main].
  destruct w;
    [rewrite (Hsame ControlWorker), (Hsame ResultWorker) by done
    |rewrite (Hsame TaskWorker), (Hsame ResultWorker) by done
    |rewrite (Hsame TaskWorker), (Hsame ControlWorker) by done]; lia.
Qed.

Lemma effort_step s l s' ws :
  alive s → main s = Joining ws → life_step s l s' →
  (∃ ws', main s' = Joining ws') ∧ ((if internal l then 1 else 0) + effort s' <= effort s)%nat.
Proof.
  assert (∀ a b, (a < b → 1 + a <= b)%nat) as Hlt by lia.
  intros Ha Hmain Hs.
  destruct Hs as [n ph st mn w Hw|n n' ph st mn w Hw Hs|n l n' ph st mn w Hw Hs Hf Hm
    |n l n' ph st mn w Hw Hs Hm|n task acc n' ph st mn Hs|n n' ph st mn Hs|n ph st|n ph st w ws'|n ph st
    |n ph st w ws' Hw]; simpl in Hmain; try discriminate Hmain; subst;
    (split; [by eexists|]); cbn [internal].
  - apply Hlt, effort_worker; [done|]. unfold worker_effort. simpl. rewrite fn_lookup_insert, Hw.
    destruct Ha as [_ _ [_ Hst]]. simpl in Hst. rewrite (proj1 (Hst w)). lia.
  - apply Hlt, effort_worker.
    + intros w' _. apply worker_served in Hs.
      simpl in Hs. by rewrite Hs.
    + unfold worker_effort. simpl. rewrite fn_lookup_insert, Hw. lia.
  - apply Hlt, effort_worker; [intros; by eapply one_moves|].
    unfold worker_effort. simpl. rewrite fn_lookup_insert, Hw. pose proof (left_le w (sys n')). lia.
  - apply Hlt, effort_worker; [intros; by eapply one_moves|].
    pose proof (work_decreases w n (NStep l) n' Hs Hm) as Hdec.
    pose proof (alive_phase _ Ha w) as Hp. simpl in Hp. rewrite Hw in Hp.
    specialize (Hdec (proj1 Hp eq_refl)).
    unfold worker_effort, after_step. simpl. rewrite fn_lookup_insert, Hw.
    destruct (decide _); lia.
  - apply step_served in Hs. simpl in Hs. unfold effort, worker_effort. simpl. by rewrite Hs.
  - apply step_served in Hs. simpl in Hs. unfold effort, worker_effort. simpl. by rewrite Hs.
  - unfold effort, worker_effort. simpl. lia.
Qed.

(** The receive of a worker, whatever it gives. *)
Definition receive_ends (w : Worker) (n : Net) : Prop :=
  let ends A `{Codec A Format} (t : T) (queue : string) :=
    is_Some (Messenger.receive (Format := Format) (A := A) t (mkAddress queue) worker_args (world n))
  in
  match w with
  | TaskWorker => ends QuantumTask (task_local m) (request (queues config))
  | ControlWorker => ends APIRequest (control_local m) (control_request (queues config))
  | ResultWorker => ends QuantumResult (result_local m) (QOffloadConfig.result (queues config))
  end.

Lemma receiving_moves n ph st mn w :
  calm (world n) → int32_fields (Format := Format) → ph w = Receiving →
  left_to_do w (sys n) = 0%nat → receive_ends w n →
  ∃ l s', life_step (mkLife n ph st mn) l s' ∧ internal l = true.
Proof.
  destruct n as [[s f t c r] w0]. simpl. intros Hw [Ht Hr] Hph Hidle.
  assert (∀ l n', faulty_worker (mkNet (mkSys s f t c r) w0) l n' →
    l = NUndecodable (reads_from w) ∨
      (fetches l = true ∧ moved w (mkNet (mkSys s f t c r) w0) n') →
    ∃ l s', life_step (mkLife (mkNet (mkSys s f t c r) w0) ph st mn) l s' ∧ internal l = true)
    as Hstep.
  { intros l n' Hs [->|[Hf Hm]]; eexists (LMoves w _), _; (split; [|done]);
      [by apply life_failed|by eapply life_message]. }
  destruct w; simpl in *; intros [[[x|v] w1] Hrec].
  - destruct t; try done.
    eapply Hstep; [apply fault_task; by exists x|by left].
  - destruct t; try done. apply receive_found in Hrec as [Hf [e Hd]]; [|done..].
    eapply Hstep; [apply fault_worker, net_task; [exact Hf|by eapply Ht]|by right].
  - destruct c; try done.
    eapply Hstep; [apply fault_control; by exists x|by left].
  - destruct c; try done. apply receive_found in Hrec as [Hf _]; [|done..].
    eapply Hstep; [apply fault_worker, net_control; exact Hf|by right].
  - destruct r; try done.
    eapply Hstep; [apply fault_result; by exists x|by left].
  - destruct r; try done. apply receive_found in Hrec as [Hf [e Hd]]; [|done..].
    eapply Hstep; [apply fault_worker, net_result; [exact Hf|by eapply Hr]|by right].
Qed.

(** The worker that is waited for can step, or has ended. *)
Lemma joining_moves s w ws :
  alive s → calm (world (inner s)) → int32_fields (Format := Format) →
  (phase s w = Receiving → receive_ends w (inner s)) →
  main s = Joining (w :: ws) → ∃ l s', life_step s l s' ∧ internal l = true.
Proof.
  intros Ha Hw Hint Hends Hmain. pose proof (alive_phase _ Ha w) as Hp.
  destruct s as [n ph st mn]. simpl in *. subst mn. destruct (ph w) eqn:Hph.
  - eexists _, _. split; [by apply life_test|done].
  - apply (receiving_moves n ph st _ w); [done..| |by apply Hends].
    destruct (decide (left_to_do w (sys n) = 0%nat)) as [|E]; [done|].
    by apply Hp in E.
  - destruct n as [s0 w0].
    destruct (net_enabled config resources m w s0 w0) as (l & n' & Hs & Hm); [by apply Hp|].
    eexists _, _. split; [by eapply life_work; [done|apply fault_worker; exact Hs|exact Hm]|done].
  - eexists _, _. split; [by apply life_join|done].
Qed.

(** C17. Stopping ends, whatever calls fail: once every worker has been asked to
    stop, the workers and [requestStop] take at most 21 more steps between them,
    in whatever order and however many messages arrive meanwhile: each worker
    ends after at most the one message it may take in the receive it is in.
    Until [requestStop] has returned, one of them can take a step, as receives
    with a timeout end, so that it does return. *)
Theorem requestStop_returns uid w0 tr s ws tr' s' :
  wired config m → calm w0 → int32_fields (Format := Format) →
  run life_step (started (mkNet (initial uid) w0)) tr s → main s = Joining ws →
  run life_step s tr' s' →
  (length (List.filter internal tr') <= 21)%nat ∧
  ((∀ w, phase s' w = Receiving → receive_ends w (inner s')) →
   returned s' ∨ ∃ l s'', life_step s' l s'' ∧ internal l = true).
Proof.
  intros Hwired Hw0 Hint Hr Hmain Hr'.
  pose proof (alive_run _ _ _ (alive_started uid w0) Hr) as Ha.
  assert (alive s' ∧ (∃ ws', main s' = Joining ws') ∧ (length (List.filter internal tr') + effort s' <= effort s)%nat)
    as (Ha' & [ws' Hmain'] & Heff).
  { induction Hr' as [|tr' s1 l s2 _ IH Hl]; [by split_and!; [|eexists|]|].
    destruct IH as (Ha1 & [ws1 Hm1] & He1).
    destruct (effort_step s1 l s2 ws1 Ha1 Hm1 Hl) as [Hm2 He2].
    split_and!; [by eapply alive_step|done|].
    rewrite List.filter_app, length_app. simpl. destruct (internal l); simpl in *; lia. }
  assert (effort s <= 21)%nat as Hle.
  { destruct Ha as [_ _ Hm]. rewrite Hmain in Hm. destruct Hm as [Hlen _].
    assert (∀ w, worker_effort s w <= 6)%nat as Hw.
    { intros w. unfold worker_effort. pose proof (left_le w (sys (inner s))).
      destruct (phase s w); lia. }
    unfold effort. rewrite Hmain.
    pose proof (Hw TaskWorker). pose proof (Hw ControlWorker). pose proof (Hw ResultWorker). lia. }
  split; [lia|]. intros Hends. destruct ws' as [|w ws']; [by left|right].
  apply (joining_moves s' w ws'); [done| |done|by apply Hends|done].
  assert (run life_step (started (mkNet (initial uid) w0)) (tr ++ tr') s') as Hall
    by (by eapply run_app).
  apply life_net in Hall. eapply (steps_calm config resources m kept Hwired); [|exact Hall]. done.
Qed.
End Life.

(** ** A concrete run

    A client's request arrives while the task worker is in its receive and the
    service is asked to stop. *)

Import (hints) InMemoryTransport.
Import (hints) Workers.Example.
Import (hints) ServiceNet.Demo.

Module Demo.
Import Workers.Example.
Import ServiceNet.Demo.
Import InMemoryTransport(World).

Notation life := (life_step (Format := Text) config resources_ handles kept).
Definition stopping : list (LifeLabel (T := unit) (W := World)) :=
  [LOutside (NSubmitted request true); LTested TaskWorker; LStop; LAsked TaskWorker;
   LAsked ControlWorker; LAsked ResultWorker; LClear].
Definition ending : list (LifeLabel (T := unit) (W := World)) :=
  [LMoves TaskWorker (NTask request); LMoves TaskWorker (NStep (LIssue 7));
   LMoves TaskWorker (NStep (LRegister 7 request));
   LMoves TaskWorker (NStep (LForwarded fw true)); LTested TaskWorker; LTested ControlWorker;
   LTested ResultWorker; LJoined TaskWorker; LJoined ControlWorker; LJoined ResultWorker].

Lemma life_runs :
  ∃ s s', run life (started ServiceNet.Demo.start) stopping s ∧ main s = Joining workers_ ∧
    run life s ending s' ∧ returned s'.
Proof.
  eexists _, _. split; [|split; [|split]].
  - eapply run_cons; [apply life_submitted; eapply (fault_submit _ _ _ _ tt request _ _ w1);
                      [done|putting]|].
    eapply run_cons; [by apply life_test|].
    eapply run_cons; [apply life_stop|].
    do 3 (eapply run_cons; [apply life_ask|]).
    apply run_one, life_clear.
  - reflexivity.
  - eapply run_cons; [eapply life_message; [done|eapply fault_worker, (net_task _ _ _ _ _ _ _ _ w2);
                        [apply demo_found; evaluated|split; [discriminate|reflexivity]]|done|done]|].
    eapply run_cons; [eapply life_work; [done|apply fault_worker, net_local; [apply step_task_issue|done]|done]|].
    eapply run_cons; [eapply life_work; [done|apply fault_worker, net_local; [apply step_task_register|done]|done]|].
    eapply run_cons; [eapply life_work; [done|apply fault_worker, (net_task_forward _ _ _ _ _ _ _ _ w3); putting|done]|].
    do 3 (eapply run_cons; [by apply life_test|]).
    do 2 (eapply run_cons; [by apply life_join|]).
    apply run_one. by apply life_join.
  - reflexivity.
Qed.
End Demo.

Lemma requestStop_graceful_witness :
  received (history (Demo.stopping ++ Demo.ending)) = [Workers.Example.request] ∧
  message_of Workers.Example.config <$> [(7, Workers.Example.request)] `sublist_of`
    [ServiceNet.Demo.fw].
Proof.
  destruct Demo.life_runs as (s & s' & Hr & _ & Hr' & Hret).
  destruct (requestStop_graceful (Format := Workers.Example.Text) Workers.Example.config resources_
    ServiceNet.Demo.handles ServiceNet.Demo.kept 7 ServiceNet.Demo.world0 (Demo.stopping ++ Demo.ending) s'
    (run_app _ _ _ _ _ _ Hr Hr') Hret) as (H1 & H2 & _).
  split; [exact H1|exact H2].
Defined.

Lemma requestStop_returns_witness : (length (List.filter internal Demo.ending) <= 21)%nat.
Proof.
  destruct Demo.life_runs as (s & s' & Hr & Hm & Hr' & _).
  exact (proj1 (requestStop_returns (Format := Workers.Example.Text) Workers.Example.config resources_
    ServiceNet.Demo.handles ServiceNet.Demo.kept 7 ServiceNet.Demo.world0 Demo.stopping s workers_
    Demo.ending s' ServiceNet.Demo.demo_wired (calm_settled _ ServiceNet.Demo.demo_settled)
    ServiceNet.Demo.demo_int32 Hr Hm Hr')).
Defined.
