(* ===== verification/Cxx.v ===== *)
(** * C++ computations

    A function of the program that calls a library changes the library's world
    [B] and may end in other ways than by returning.  Shared by the parts of the
    QRM workflow that drive the compiler and the device libraries. *)

From S2P Require Import Prelude.

(** How a call ends: it returns, an exception with this [what()] leaves it, an
    assertion aborts the process, or its behaviour is undefined. *)
Inductive Outcome (A : Type) :=
  | Returned (a : A)
  | Thrown (what : string)
  | Aborted
  | Undefined.
Arguments Returned {A}.
Arguments Thrown {A}.
Arguments Aborted {A}.
Arguments Undefined {A}.

Definition Prog (B A : Type) : Type := B → Outcome A * B.

#[export] Instance prog_ret {B} : MRet (Prog B) := λ A a b, (Returned a, b).
#[export] Instance prog_bind {B} : MBind (Prog B) := λ A C k m b,
  match m b with
  | (Returned a, b) => k a b
  | (Thrown what, b) => (Thrown what, b)
  | (Aborted, b) => (Aborted, b)
  | (Undefined, b) => (Undefined, b)
  end.

Definition throw {B A} (what : string) : Prog B A := λ b, (Thrown what, b).
Definition undefined {B A} : Prog B A := λ b, (Undefined, b).

(** A library call that only changes the world, and one that also returns. *)
Definition effect {B} (f : B → B) : Prog B unit := λ b, (Returned tt, f b).
Definition call {B A} (f : B → A * B) : Prog B A :=
  λ b, let '(a, b) := f b in (Returned a, b).

(** [assert(condition)], which a build with [NDEBUG] leaves out. *)
Definition assert {B} (NDEBUG condition : bool) : Prog B unit :=
  λ b, (if NDEBUG || condition then Returned tt else Aborted, b).

Section Laws.
Context {B A C : Type}.

Lemma bind_returned (m : Prog B A) (k : A → Prog B C) a b b' :
  m b = (Returned a, b') → (m ≫= k) b = k a b'.
Proof. intros H. unfold mbind, prog_bind. by rewrite H. Qed.

Lemma bind_thrown (m : Prog B A) (k : A → Prog B C) what b b' :
  m b = (Thrown what, b') → (m ≫= k) b = (Thrown what, b').
Proof. intros H. unfold mbind, prog_bind. by rewrite H. Qed.

Lemma bind_undefined (m : Prog B A) (k : A → Prog B C) b b' :
  m b = (Undefined, b') → (m ≫= k) b = (Undefined, b').
Proof. intros H. unfold mbind, prog_bind. by rewrite H. Qed.

Lemma bind_bind {D : Type} (m : Prog B A) (k : A → Prog B C) (h : C → Prog B D) b :
  ((m ≫= k) ≫= h) b = (m ≫= λ a, k a ≫= h) b.
Proof. unfold mbind, prog_bind. by destruct (m b) as [[] ?]. Qed.

Lemma bind_ext (m : Prog B A) (k h : A → Prog B C) b :
  (∀ a b, k a b = h a b) → (m ≫= k) b = (m ≫= h) b.
Proof. intros H. unfold mbind, prog_bind. destruct (m b) as [[] ?]; auto. Qed.
End Laws.

Lemma call_returned {B A} (f : B → A * B) a b b' :
  f b = (a, b') → call f b = (Returned a, b').
Proof. intros H. unfold call. by rewrite H. Qed.

Lemma assert_true {B} NDEBUG (b : B) : assert NDEBUG true b = (Returned tt, b).
Proof. unfold assert. by rewrite orb_true_r. Qed.

(** ** Buffers *)

(** A text buffer of [n] characters, initially NUL, after [text] was written. *)
Fixpoint fit (n : nat) (text : string) : string :=
  match n with
  | 0%nat => ""
  | S n =>
      match text with
      | EmptyString => String "000" (fit n "")
      | String c text => String c (fit n text)
      end
  end.

Lemma fit_id text : fit (String.length text) text = text.
Proof. induction text as [|c text IH]; simpl; [done|]. by rewrite IH. Qed.
