(* ===== verification/Consumer.v ===== *)
(** * Consumer example (examples/mqss_consumer/main.cpp)

    A task sent to and received from the in-memory transport within one thread;
    the exit code tells whether it came back as it was sent. *)

From S2P Require Import Prelude Status Message Transport Codec Protocol.
From S2P Require Messenger InMemoryTransport.
Import (hints) InMemoryTransport.

Definition task : QuantumTask :=
  QuantumTask.mk 119 5 1024 [] "" "results.queue" "" "" 0 0 false false 0 "" [] "" [] "" ""
    false.

Definition tasks_address : Address := mkAddress "tasks".
Definition receive_args : ReceiveArgs := mkReceiveArgs (Some 0) Auto.

(** [None]: the receive has not returned. *)
Definition main `{Codec QuantumTask ProtoBinary} : option Z :=
  let messenger := InMemoryTransport.createTransport [] in
  let '(send_st, messenger) :=
    Messenger.send (Format := ProtoBinary) tt tasks_address task default_send_args messenger in
  if negb (ok send_st) then Some 1
  else
    match Messenger.receive (Format := ProtoBinary) (A := QuantumTask) tt tasks_address
            receive_args messenger with
    | None => None
    | Some (inl _, _) => Some 1
    | Some (inr decoded, _) =>
        if bool_decide (QuantumTask.task_id decoded ≠ 119) ||
           bool_decide (QuantumTask.n_qbits decoded ≠ 5) ||
           bool_decide (QuantumTask.n_shots decoded ≠ 1024) ||
           bool_decide (QuantumTask.result_destination decoded ≠ "results.queue")
        then Some 1
        else Some 0
    end.

(** The consumer example always returns, and its exit code tells whether the
    task survives serialization: over the Protobuf codec it is 0 when the task
    can be serialized and 1 when it cannot. *)
Theorem consumer_exit_code `{ProtobufLaws QuantumTask} :
  main = Some (match SerializeToString task with Some _ => 0 | None => 1 end).
Proof.
  unfold main, Messenger.send.
  destruct (SerializeToString task) as [s|] eqn:Hs.
  - assert (encode ProtoBinary task =
      value (mkEnvelope s "application/x-protobuf" ∅ "" None)) as He
      by (simpl; unfold binary_encode; by rewrite Hs).
    rewrite He. set (e := mkEnvelope _ _ _ _ _) in *. cbv beta iota delta [value].
    destruct (send_fifo tt tasks_address e default_send_args
      (InMemoryTransport.createTransport [])) as (w1 & -> & Hq & Hp);
      [split; [done|]; eexists; by split|done..|].
    rewrite ok_success. cbn [negb].
    destruct (Messenger.receive_head (Format := ProtoBinary) (A := QuantumTask) tt
      tasks_address receive_args w1 e []) as (w2 & -> & _); [done..| |].
    { rewrite Hp. reflexivity. }
    by rewrite (decode_encode _ _ He).
  - assert (encode ProtoBinary task =
      inl (serialization "protobuf binary serialization failed")) as He
      by (simpl; unfold binary_encode; by rewrite Hs).
    by rewrite He.
Qed.


(** A message class that can serialize the example task and nothing else. *)
Module OneTask.
#[export] Instance message : ProtobufMessage QuantumTask := {
  SerializeToString t := if same_task t task then Some "task" else None;
  ParseFromString s := if String.eqb s "task" then Some task else None;
  MessageToJsonString _ := None;
  JsonStringToMessage _ := None;
}.

#[export] Instance message_laws : ProtobufLaws QuantumTask.
Proof.
  split; [|done]. intros t s. cbn. destruct (same_task t task) eqn:Ht; [|done].
  intros [= <-]. by rewrite (same_task_eq _ _ Ht).
Qed.
End OneTask.
Import (hints) OneTask.

Lemma consumer_exit_code_witness : main = Some 0.
Proof. exact (consumer_exit_code (H0 := OneTask.message_laws)). Defined.
