(* ===== verification/QOffloadMain.v ===== *)
(** * QOffload lifecycle and entry point (QOffload.cpp, main.cpp)

    Starting and stopping the set of worker threads, and the process from its
    configuration to its exit code (the debug lines of the log left out).  What
    a worker does is the subject of [Service]; here a worker is a thread that
    can be asked to stop and joined (its loop tests the stop token after every
    receive, which has a timeout). *)

From S2P Require Import Prelude Status Cxx Config QOffloadConfig.

(** ** Worker threads *)

Inductive Worker := TaskInterface | ControlInterface | ResultInterface.

(** What the process does, in order. *)
Inductive Event :=
  | Info (text : string)                  (* [logger_->info] *)
  | Logged (text : string)                (* [logger_->error] *)
  | Cerr (text : string)                  (* a line on [std::cerr] *)
  | Directory (path : string)             (* created if missing *)
  | Blocked (signals : gset Z)            (* for this thread and those it starts *)
  | Waited (signals : gset Z) (received : Z)
  | Spawned (w : Worker)
  | StopRequested (w : Worker)
  | Joined (w : Worker).

(** ** The runtime object (QOffload) *)

Record QOffload := mkQOffload {
  config_ : Config;
  logger_ : LoggerSpec;
  workers_ : list Worker;
  running_ : bool;
}.

Record Process := mkProcess { stored : Storage Config; events : list Event }.

Definition emit (es : list Event) : Prog Process unit :=
  effect (λ p, mkProcess (stored p) (events p ++ es)).

Definition new_QOffload (config : Config) (logger : LoggerSpec) : QOffload :=
  mkQOffload config logger [] false.

Definition set_workers (q : QOffload) (running : bool) (ws : list Worker) : QOffload :=
  mkQOffload (config_ q) (logger_ q) ws running.

Definition startWorkers (q : QOffload) : Prog Process QOffload :=
  let ws := [TaskInterface; ControlInterface; ResultInterface] in
  emit (Spawned <$> ws) ≫= λ _, mret (set_workers q (running_ q) (workers_ q ++ ws)).

(** [running_.compare_exchange_strong(expected, true)] *)
Definition start (q : QOffload) : Prog Process QOffload :=
  if running_ q then mret q
  else
    emit [Info "Starting QOffload workers"] ≫= λ _,
    startWorkers (set_workers q true (workers_ q)).

(** [workers_.clear()] destroys the threads, which joins them. *)
Definition requestStop (q : QOffload) : Prog Process QOffload :=
  if negb (running_ q) then mret q
  else
    emit [Info "Stopping QOffload workers"] ≫= λ _,
    emit (StopRequested <$> workers_ q) ≫= λ _,
    emit (Joined <$> workers_ q) ≫= λ _,
    mret (set_workers q false []).

(** [~QOffload()] *)
Definition destroy (q : QOffload) : Prog Process unit := requestStop q ≫= λ _, mret tt.

(** ** main.cpp

    [create_directories path] and [ctor_error sink] are the texts of the
    exceptions thrown for a directory and a log sink, if any; [sigwait signals]
    is the signal a wait for one of [signals] returns with. *)

(** The signal numbers of Linux. *)
Definition SIGINT : Z := 2.
Definition SIGTERM : Z := 15.
Definition stop_signals : gset Z := {[SIGINT; SIGTERM]}.

(** [sigemptyset], two times [sigaddset] and [pthread_sigmask]. *)
Definition blockStopSignals : Prog Process (gset Z) :=
  let signals : gset Z := {[SIGTERM]} ∪ ({[SIGINT]} ∪ ∅) in
  emit [Blocked signals] ≫= λ _, mret signals.

Section Main.
Context (b : BuildPaths) (env : Env) (argv : list string)
  (create_directories : string → option string)
  (ctor_error : Sink → option string) (sigwait : gset Z → Z).

Definition make_directory (path : string) : Prog Process unit :=
  match create_directories path with
  | Some what => throw what
  | None => emit [Directory path]
  end.

Definition waitForStopSignal (signals : gset Z) : Prog Process Z :=
  let received_signal := sigwait signals in
  emit [Waited signals received_signal] ≫= λ _, mret received_signal.

(** From the accepted configuration to the end of the process. *)
Definition serve (signals : gset Z) (config : Config) (logger : LoggerSpec) : Prog Process Z :=
  emit [Info "QOffload starting"] ≫= λ _,
  start (new_QOffload config logger) ≫= λ q,
  waitForStopSignal signals ≫= λ signal,
  emit [Info ("QOffload stopping after signal " +:+ pretty signal)] ≫= λ _,
  requestStop q ≫= λ q,
  destroy q ≫= λ _,
  mret 0.

Definition main : Prog Process Z :=
  blockStopSignals ≫= λ signals,
  match loadConfig b env argv with
  | inl e => emit [Cerr (reason e)] ≫= λ _, mret 1
  | inr loaded_config =>
      make_directory (runtime_dir (paths loaded_config)) ≫= λ _,
      make_directory (log_dir (paths loaded_config)) ≫= λ _,
      let log_file := logPath (log_dir (paths loaded_config)) "qoffload.log" in
      match makeLogger ctor_error "qoffload" (logging loaded_config) log_file with
      | inl e => emit [Cerr (reason e)] ≫= λ _, mret 1
      | inr logger =>
          (λ p, let '(status, stored) := initConfig loaded_config (stored p) in
                (Returned status, mkProcess stored (events p))) ≫= λ status,
          if negb (ok status) then
            emit [Logged ("Failed to initialize configuration: " +:+ reason status)]
            ≫= λ _, mret 1
          else
            (λ p, (Returned (getConfig (stored p)), p)) ≫= λ config,
            match config with
            | inl e =>
                emit [Logged ("Failed to access configuration: " +:+ reason e)]
                ≫= λ _, mret 1
            | inr config => serve signals config logger
            end
      end
  end.
End Main.

(** ** Calls on one object *)

Inductive Call := Start | RequestStop.

#[global] Instance Call_eq_dec : EqDecision Call.
Proof. solve_decision. Defined.

Definition make_call (q : QOffload) (c : Call) : Prog Process QOffload :=
  match c with Start => start q | RequestStop => requestStop q end.

Fixpoint calls (cs : list Call) (q : QOffload) : Prog Process QOffload :=
  match cs with
  | [] => mret q
  | c :: cs => make_call q c ≫= calls cs
  end.

Definition all_workers : list Worker := [TaskInterface; ControlInterface; ResultInterface].

Definition spawned : list Event → list Worker :=
  omap (λ e, match e with Spawned w => Some w | _ => None end).
Definition asked : list Event → list Worker :=
  omap (λ e, match e with StopRequested w => Some w | _ => None end).
Definition joined : list Event → list Worker :=
  omap (λ e, match e with Joined w => Some w | _ => None end).

(** The worker set is complete or empty. *)
Definition runtime_wf (q : QOffload) : Prop :=
  workers_ q = if running_ q then all_workers else [].

(** [m] returns [a], with [es] as its events and the stored configuration kept. *)
Definition emits {A} (m : Prog Process A) (p : Process) (a : A) (es : list Event) : Prop :=
  m p = (Returned a, mkProcess (stored p) (events p ++ es)).

Lemma emits_ret {A} (a : A) p : emits (mret a) p a [].
Proof. unfold emits. destruct p. simpl. by rewrite app_nil_r. Qed.

Lemma emits_bind {A C} (m : Prog Process A) (k : A → Prog Process C) p a c es1 es2 :
  emits m p a es1 → (∀ p, emits (k a) p c es2) →
  emits (m ≫= k) p c (es1 ++ es2).
Proof.
  intros Hm Hk. unfold emits. rewrite (bind_returned _ _ _ _ _ Hm), app_assoc.
  apply (Hk (mkProcess (stored p) (events p ++ es1))).
Qed.

Lemma emits_emit es p : emits (emit es) p tt es.
Proof. done. Qed.

Lemma emit_bind {C} es (k : () → Prog Process C) p c es2 :
  (∀ p, emits (k tt) p c es2) → emits (emit es ≫= k) p c (es ++ es2).
Proof. intros Hk. by eapply emits_bind; [apply emits_emit|]. Qed.

Lemma start_emits q p :
  runtime_wf q →
  emits (start q) p (mkQOffload (config_ q) (logger_ q) all_workers true)
    (if running_ q then [] else Info "Starting QOffload workers" :: (Spawned <$> all_workers)).
Proof.
  intros Hq. unfold start. destruct q as [c l ws []]; unfold runtime_wf in Hq; simpl in Hq;
    subst ws; [apply emits_ret|].
  apply (emit_bind [_]). intros p1. rewrite <-(app_nil_r (_ <$> _)).
  apply emit_bind. intros p2. apply emits_ret.
Qed.

Lemma requestStop_emits q p :
  runtime_wf q →
  emits (requestStop q) p (mkQOffload (config_ q) (logger_ q) [] false)
    (if running_ q
     then Info "Stopping QOffload workers"
            :: (StopRequested <$> all_workers) ++ (Joined <$> all_workers)
     else []).
Proof.
  intros Hq. unfold requestStop. destruct q as [c l ws []]; unfold runtime_wf in Hq;
    simpl in Hq; subst ws; cbn [negb running_ workers_]; [|apply emits_ret].
  apply (emit_bind [_]). intros p1. apply emit_bind. intros p2.
  rewrite <-(app_nil_r (_ <$> _)). apply emit_bind. intros p3. apply emits_ret.
Qed.

(** The worker sets of a run of calls: each is complete, and all but a running
    one were asked to stop and joined. *)
Lemma call_emits q c :
  runtime_wf q →
  ∃ q' es, (∀ p, emits (make_call q c) p q' es) ∧ runtime_wf q' ∧
    config_ q' = config_ q ∧ logger_ q' = logger_ q ∧
    running_ q' = match c with Start => true | RequestStop => false end ∧
    workers_ q ++ spawned es = joined es ++ workers_ q' ∧ asked es = joined es.
Proof.
  intros Hq. destruct c; do 2 eexists;
    (split; [intros p; by (apply start_emits || apply requestStop_emits)|]);
    unfold runtime_wf in *; rewrite Hq; by destruct (running_ q).
Qed.

Lemma calls_emits cs q :
  runtime_wf q →
  ∃ q' es, (∀ p, emits (calls cs q) p q' es) ∧ runtime_wf q' ∧
    config_ q' = config_ q ∧ logger_ q' = logger_ q ∧
    running_ q' = match last cs with
                  | Some Start => true
                  | Some RequestStop => false
                  | None => running_ q
                  end ∧
    workers_ q ++ spawned es = joined es ++ workers_ q' ∧ asked es = joined es.
Proof.
  revert q. induction cs as [|c cs IH]; intros q Hq.
  { exists q, []. split; [apply emits_ret|]. simpl. by rewrite app_nil_r. }
  destruct (call_emits q c Hq) as (q1 & es1 & H1 & W1 & C1 & L1 & R1 & S1 & A1).
  destruct (IH q1 W1) as (q2 & es2 & H2 & W2 & C2 & L2 & R2 & S2 & A2).
  exists q2, (es1 ++ es2). split.
  { intros p. by eapply emits_bind. }
  unfold spawned, asked, joined in *. rewrite !omap_app. split_and!; try congruence.
  - rewrite R2, last_cons, R1. by destruct (last cs) as [[]|].
  - by rewrite app_assoc, S1, <-app_assoc, S2, app_assoc.
Qed.

(** Lifecycle of the runtime: after any sequence of start and stop calls the
    object runs exactly when the last call was a start, with one complete set
    of workers and otherwise none; repeated calls have no effect; every worker
    spawned is either in the running set or was asked to stop and joined, once,
    in the order of creation; and after the destructor all were joined. *)
Theorem lifecycle cs config logger p :
  ∃ q es es', emits (calls cs (new_QOffload config logger)) p q es ∧
    running_ q = bool_decide (last cs = Some Start) ∧
    workers_ q = (if running_ q then all_workers else []) ∧
    config_ q = config ∧ logger_ q = logger ∧
    spawned es = joined es ++ workers_ q ∧ asked es = joined es ∧
    (∀ p, emits (destroy q) p tt es') ∧ joined (es ++ es') = spawned (es ++ es').
Proof.
  destruct (calls_emits cs (new_QOffload config logger) eq_refl)
    as (q & es & H & W & C & L & R & S & A).
  eexists q, es, (_ ++ []). split_and!; [done| |done..|exact S|done| |].
  - rewrite R. by destruct (last cs) as [[]|].
  - intros p1. eapply emits_bind; [by apply requestStop_emits|]. intros. apply emits_ret.
  - rewrite app_nil_r. unfold spawned, joined in *. simpl in S. rewrite !omap_app, S, W.
    by destruct (running_ q); rewrite <-?app_assoc.
Qed.

Lemma logPath_nonempty dir : logPath dir "qoffload.log" ≠ "".
Proof. unfold logPath. cbn [is_absolute]. destruct dir; [|done]. by simpl. Qed.

Lemma waitForStopSignal_emits sigwait signals p :
  emits (waitForStopSignal sigwait signals) p (sigwait signals)
    [Waited signals (sigwait signals)].
Proof.
  unfold waitForStopSignal. rewrite <- (app_nil_r [Waited _ _]).
  apply emit_bind. intros p1. apply emits_ret.
Qed.

(** The threads live between the start and the stop, and the wait is in between. *)
Lemma serve_emits sigwait signals config logger :
  ∃ es1 es2, (∀ p, emits (serve sigwait signals config logger) p 0
                     (es1 ++ Waited signals (sigwait signals) :: es2)) ∧
    spawned es1 = all_workers ∧ joined es1 = [] ∧
    spawned es2 = [] ∧ asked es2 = all_workers ∧ joined es2 = all_workers.
Proof.
  exists (Info "QOffload starting" :: Info "Starting QOffload workers" :: (Spawned <$> all_workers)).
  eexists. split.
  - intros p. unfold serve. apply (emit_bind [_]). intros p1.
    eapply (emits_bind _ _ _ _ _ (Info "Starting QOffload workers" :: (Spawned <$> all_workers)));
      [by apply start_emits|]. intros p2.
    apply (emits_bind _ _ _ (sigwait signals) _ [_]); [apply waitForStopSignal_emits|]. intros p3.
    apply emit_bind. intros p4.
    eapply emits_bind; [by apply requestStop_emits|]. intros p5.
    eapply emits_bind; [|intros p6; apply emits_ret].
    eapply emits_bind; [by apply requestStop_emits|]. intros p6. apply emits_ret.
  - done.
Qed.

(** C37. The process from end to end, when log sinks can be made: the stop
    signals are blocked before anything else, so that the threads started later
    never take them; a malformed value in the environment, the first in the
    order of the settings, is named on the error stream and the exit code is 1;
    a directory that cannot be created ends the process by an exception; in both
    cases no worker is ever started.  Otherwise the process serves with the
    defaults overridden by the environment, keeps them as the process
    configuration, waits with its three workers running for one of the blocked
    signals, and exits with 0 after it, when each worker has been asked to stop
    and joined. *)
Theorem main_spec b env argv create_directories sigwait p :
  stored p = None → sigwait stop_signals ∈ stop_signals →
  let run := main b env argv create_directories (λ _, None) sigwait p in
  let begun := events p ++ [Blocked stop_signals] in
  match first_error checks env with
  | Some e => run = (Returned 1, mkProcess None (begun ++ [Cerr (reason e)]))
  | None =>
      let c := overridden env (makeDefaultConfig b) in
      match create_directories (runtime_dir (paths c)),
            create_directories (log_dir (paths c)) with
      | None, None =>
          ∃ es1 signal es2,
            run = (Returned 0, mkProcess (Some c)
                     (begun ++ es1 ++ Waited stop_signals signal :: es2)) ∧
            signal ∈ stop_signals ∧
            spawned es1 = all_workers ∧ joined es1 = [] ∧
            spawned es2 = [] ∧ asked es2 = all_workers ∧ joined es2 = all_workers
      | _, _ =>
          ∃ what es, run = (Thrown what, mkProcess None (begun ++ es)) ∧ spawned es = []
      end
  end.
Proof.
  intros Hp Hsig run begun. subst run begun. unfold main, blockStopSignals.
  replace ({[SIGTERM]} ∪ ({[SIGINT]} ∪ ∅) : gset Z) with stop_signals by reflexivity.
  rewrite loadConfig_cases.
  destruct (first_error checks env) as [e|]; unfold unexpected, value.
  { unfold mbind, prog_bind, emit, effect. simpl. by rewrite Hp. }
  set (c := overridden env (makeDefaultConfig b)).
  rewrite makeLogger_cases, decide_False by (intros [_ H]; by apply logPath_nonempty in H).
  unfold value. cbv zeta.
  match goal with |- context [mkLogger ?n ?ss ?l] => set (logger := mkLogger n ss l) end.
  destruct (serve_emits sigwait stop_signals c logger) as (es1 & es2 & H & Hes).
  unfold mbind, prog_bind, make_directory, emit, effect. cbn [stored events].
  destruct (create_directories (runtime_dir (paths c))) as [what|].
  { exists what, []. by rewrite app_nil_r, <-Hp. }
  destruct (create_directories (log_dir (paths c))) as [what|].
  { eexists what, _. by rewrite <-Hp. }
  rewrite Hp. simpl.
  exists (Directory (runtime_dir (paths c)) :: Directory (log_dir (paths c)) :: es1).
  exists (sigwait stop_signals), es2. rewrite H. split; [|by split; [|exact Hes]].
  cbn [stored events]. f_equal. f_equal. by rewrite <-!app_assoc.
Qed.

(** ** Witnesses *)

Lemma main_spec_witness :
  let run env := main (mkBuildPaths "/run" "/log" "/state") env [] (λ _, None) (λ _, None)
                   (λ _, SIGTERM) (mkProcess None []) in
  (run (λ name, if decide (name = "QOFFLOAD_AMQP_PORT") then Some "50x" else None)).1
    = Returned 1 ∧
  (run (λ _, None)).1 = Returned 0 ∧ spawned (events (run (λ _, None)).2) = all_workers.
Proof.
  intros run. assert (SIGTERM ∈ stop_signals) as Hs
    by (apply (bool_decide_unpack _); vm_compute; exact I). split.
  - exact (f_equal fst (main_spec (mkBuildPaths "/run" "/log" "/state")
      (λ name, if decide (name = "QOFFLOAD_AMQP_PORT") then Some "50x" else None) []
      (λ _, None) (λ _, SIGTERM) (mkProcess None []) eq_refl Hs)).
  - destruct (main_spec (mkBuildPaths "/run" "/log" "/state") (λ _, None) []
      (λ _, None) (λ _, SIGTERM) (mkProcess None []) eq_refl Hs)
      as (es1 & signal & es2 & H & _ & H1 & _ & H2 & _).
    unfold run. rewrite H. split; [reflexivity|]. cbn [snd events app].
    change (spawned (es1 ++ Waited stop_signals signal :: es2) = all_workers).
    unfold spawned in *. rewrite omap_app, H1.
    exact (eq_trans (f_equal (app all_workers) H2) (app_nil_r all_workers)).
Defined.
