(* ===== verification/QdmiCommon.v ===== *)
(** * QDMI helpers (examples/qrm_workflow/include/common.hpp)

    The base class of objects with one instance, the names of the enumerators
    of the device interface, and the macros a device answers property queries
    with.  The enumerations hold the values that have a name; for any other
    value the code is marked unreachable. *)

From S2P Require Import Prelude Cxx.

(** ** One instance

    [Singleton::get]: [static auto *instance = new Concrete()].  A static local
    variable is initialised by the first call that reaches it; an initialisation
    that throws is tried again by the next call.  [construct] is the constructor
    of the derived class. *)

Module Singleton.
Section Singleton.
Context {B Concrete : Type} (construct : Prog B Concrete).

Definition get : Prog (option Concrete * B) Concrete := λ s,
  match s.1 with
  | Some instance => (Returned instance, s)
  | None =>
      let '(o, b) := construct s.2 in
      (o, (match o with Returned instance => Some instance | _ => None end, b))
  end.

(** Any number of calls. *)
Fixpoint gets (n : nat) : Prog (option Concrete * B) (list Concrete) :=
  match n with
  | O => mret []
  | S n => get ≫= λ c, gets n ≫= λ cs, mret (c :: cs)
  end.

Lemma gets_again n c b : gets n (Some c, b) = (Returned (replicate n c), (Some c, b)).
Proof.
  induction n as [|n IH]; simpl; [done|]. unfold mbind, prog_bind in *. simpl. by rewrite IH.
Qed.

(** All calls return the same instance, and the constructor runs once. *)
Lemma gets_one n b c b' :
  construct b = (Returned c, b') →
  gets (S n) (None, b) = (Returned (replicate (S n) c), (Some c, b')).
Proof.
  intros Hc. simpl. unfold mbind, prog_bind. unfold get at 1. simpl. rewrite Hc.
  by rewrite gets_again.
Qed.

(** A constructor that throws leaves no instance behind. *)
Lemma get_thrown b what b' :
  construct b = (Thrown what, b') → get (None, b) = (Thrown what, (None, b')).
Proof. intros Hc. unfold get. simpl. by rewrite Hc. Qed.
End Singleton.
End Singleton.

(** [unreachable()]: undefined behaviour. *)
Definition unreachable {B A : Type} : Prog B A := undefined.

(** The end of each [toString]: [enumerator] gives the enumerator with a value,
    if one has it. *)
Definition toString {B V : Type} (enumerator : Z → option V) (name : V → string) (value : Z)
    : Prog B string :=
  match enumerator value with
  | Some v => mret (name v)
  | None => unreachable
  end.

(** ** Names *)

Inductive QDMI_STATUS :=
  | QDMI_WARN_GENERAL | QDMI_SUCCESS | QDMI_ERROR_FATAL | QDMI_ERROR_OUTOFMEM
  | QDMI_ERROR_NOTIMPLEMENTED | QDMI_ERROR_LIBNOTFOUND | QDMI_ERROR_NOTFOUND
  | QDMI_ERROR_OUTOFRANGE | QDMI_ERROR_INVALIDARGUMENT | QDMI_ERROR_PERMISSIONDENIED
  | QDMI_ERROR_NOTSUPPORTED | QDMI_ERROR_BADSTATE | QDMI_ERROR_TIMEOUT.

Definition toString_QDMI_STATUS (v : QDMI_STATUS) : string :=
  match v with
  | QDMI_WARN_GENERAL => "General warning"
  | QDMI_SUCCESS => "Success"
  | QDMI_ERROR_FATAL => "A fatal error"
  | QDMI_ERROR_OUTOFMEM => "Out of memory"
  | QDMI_ERROR_NOTIMPLEMENTED => "Not implemented"
  | QDMI_ERROR_LIBNOTFOUND => "Library not found"
  | QDMI_ERROR_NOTFOUND => "Element not found"
  | QDMI_ERROR_OUTOFRANGE => "Out of range"
  | QDMI_ERROR_INVALIDARGUMENT => "Invalid argument"
  | QDMI_ERROR_PERMISSIONDENIED => "Permission denied"
  | QDMI_ERROR_NOTSUPPORTED => "Not supported"
  | QDMI_ERROR_BADSTATE => "Bad state"
  | QDMI_ERROR_TIMEOUT => "Timeout"
  end.

Inductive QDMI_Session_Parameter :=
  | QDMI_SESSION_PARAMETER_TOKEN | QDMI_SESSION_PARAMETER_AUTHFILE
  | QDMI_SESSION_PARAMETER_AUTHURL | QDMI_SESSION_PARAMETER_USERNAME
  | QDMI_SESSION_PARAMETER_PASSWORD | QDMI_SESSION_PARAMETER_PROJECTID
  | QDMI_SESSION_PARAMETER_MAX | QDMI_SESSION_PARAMETER_CUSTOM1
  | QDMI_SESSION_PARAMETER_CUSTOM2 | QDMI_SESSION_PARAMETER_CUSTOM3
  | QDMI_SESSION_PARAMETER_CUSTOM4 | QDMI_SESSION_PARAMETER_CUSTOM5.

Definition toString_QDMI_Session_Parameter (v : QDMI_Session_Parameter) : string :=
  match v with
  | QDMI_SESSION_PARAMETER_TOKEN => "TOKEN"
  | QDMI_SESSION_PARAMETER_AUTHFILE => "AUTH FILE"
  | QDMI_SESSION_PARAMETER_AUTHURL => "AUTH URL"
  | QDMI_SESSION_PARAMETER_USERNAME => "USERNAME"
  | QDMI_SESSION_PARAMETER_PASSWORD => "PASSWORD"
  | QDMI_SESSION_PARAMETER_PROJECTID => "PROJECT ID"
  | QDMI_SESSION_PARAMETER_MAX => "MAX"
  | QDMI_SESSION_PARAMETER_CUSTOM1 => "CUSTOM1"
  | QDMI_SESSION_PARAMETER_CUSTOM2 => "CUSTOM2"
  | QDMI_SESSION_PARAMETER_CUSTOM3 => "CUSTOM3"
  | QDMI_SESSION_PARAMETER_CUSTOM4 => "CUSTOM4"
  | QDMI_SESSION_PARAMETER_CUSTOM5 => "CUSTOM5"
  end.

Inductive QDMI_Session_Property :=
  | QDMI_SESSION_PROPERTY_DEVICES | QDMI_SESSION_PROPERTY_MAX
  | QDMI_SESSION_PROPERTY_CUSTOM1 | QDMI_SESSION_PROPERTY_CUSTOM2
  | QDMI_SESSION_PROPERTY_CUSTOM3 | QDMI_SESSION_PROPERTY_CUSTOM4
  | QDMI_SESSION_PROPERTY_CUSTOM5.

Definition toString_QDMI_Session_Property (v : QDMI_Session_Property) : string :=
  match v with
  | QDMI_SESSION_PROPERTY_DEVICES => "DEVICES"
  | QDMI_SESSION_PROPERTY_MAX => "MAX"
  | QDMI_SESSION_PROPERTY_CUSTOM1 => "CUSTOM1"
  | QDMI_SESSION_PROPERTY_CUSTOM2 => "CUSTOM2"
  | QDMI_SESSION_PROPERTY_CUSTOM3 => "CUSTOM3"
  | QDMI_SESSION_PROPERTY_CUSTOM4 => "CUSTOM4"
  | QDMI_SESSION_PROPERTY_CUSTOM5 => "CUSTOM5"
  end.

Inductive QDMI_Device_Session_Parameter :=
  | QDMI_DEVICE_SESSION_PARAMETER_BASEURL | QDMI_DEVICE_SESSION_PARAMETER_TOKEN
  | QDMI_DEVICE_SESSION_PARAMETER_AUTHFILE | QDMI_DEVICE_SESSION_PARAMETER_AUTHURL
  | QDMI_DEVICE_SESSION_PARAMETER_USERNAME | QDMI_DEVICE_SESSION_PARAMETER_PASSWORD
  | QDMI_DEVICE_SESSION_PARAMETER_MAX | QDMI_DEVICE_SESSION_PARAMETER_CUSTOM1
  | QDMI_DEVICE_SESSION_PARAMETER_CUSTOM2 | QDMI_DEVICE_SESSION_PARAMETER_CUSTOM3
  | QDMI_DEVICE_SESSION_PARAMETER_CUSTOM4 | QDMI_DEVICE_SESSION_PARAMETER_CUSTOM5.

Definition toString_QDMI_Device_Session_Parameter (v : QDMI_Device_Session_Parameter) : string :=
  match v with
  | QDMI_DEVICE_SESSION_PARAMETER_BASEURL => "BASE URL"
  | QDMI_DEVICE_SESSION_PARAMETER_TOKEN => "TOKEN"
  | QDMI_DEVICE_SESSION_PARAMETER_AUTHFILE => "AUTH FILE"
  | QDMI_DEVICE_SESSION_PARAMETER_AUTHURL => "AUTH URL"
  | QDMI_DEVICE_SESSION_PARAMETER_USERNAME => "USERNAME"
  | QDMI_DEVICE_SESSION_PARAMETER_PASSWORD => "PASSWORD"
  | QDMI_DEVICE_SESSION_PARAMETER_MAX => "MAX"
  | QDMI_DEVICE_SESSION_PARAMETER_CUSTOM1 => "CUSTOM1"
  | QDMI_DEVICE_SESSION_PARAMETER_CUSTOM2 => "CUSTOM2"
  | QDMI_DEVICE_SESSION_PARAMETER_CUSTOM3 => "CUSTOM3"
  | QDMI_DEVICE_SESSION_PARAMETER_CUSTOM4 => "CUSTOM4"
  | QDMI_DEVICE_SESSION_PARAMETER_CUSTOM5 => "CUSTOM5"
  end.

Inductive QDMI_Site_Property :=
  | QDMI_SITE_PROPERTY_INDEX | QDMI_SITE_PROPERTY_T1 | QDMI_SITE_PROPERTY_T2
  | QDMI_SITE_PROPERTY_NAME | QDMI_SITE_PROPERTY_XCOORDINATE
  | QDMI_SITE_PROPERTY_YCOORDINATE | QDMI_SITE_PROPERTY_ZCOORDINATE
  | QDMI_SITE_PROPERTY_ISZONE | QDMI_SITE_PROPERTY_XEXTENT | QDMI_SITE_PROPERTY_YEXTENT
  | QDMI_SITE_PROPERTY_ZEXTENT | QDMI_SITE_PROPERTY_MODULEINDEX
  | QDMI_SITE_PROPERTY_SUBMODULEINDEX | QDMI_SITE_PROPERTY_MAX | QDMI_SITE_PROPERTY_CUSTOM1
  | QDMI_SITE_PROPERTY_CUSTOM2 | QDMI_SITE_PROPERTY_CUSTOM3 | QDMI_SITE_PROPERTY_CUSTOM4
  | QDMI_SITE_PROPERTY_CUSTOM5.

Definition toString_QDMI_Site_Property (v : QDMI_Site_Property) : string :=
  match v with
  | QDMI_SITE_PROPERTY_INDEX => "INDEX"
  | QDMI_SITE_PROPERTY_T1 => "T1"
  | QDMI_SITE_PROPERTY_T2 => "T2"
  | QDMI_SITE_PROPERTY_NAME => "NAME"
  | QDMI_SITE_PROPERTY_XCOORDINATE => "X COORDINATE"
  | QDMI_SITE_PROPERTY_YCOORDINATE => "Y COORDINATE"
  | QDMI_SITE_PROPERTY_ZCOORDINATE => "Z COORDINATE"
  | QDMI_SITE_PROPERTY_ISZONE => "IS ZONE"
  | QDMI_SITE_PROPERTY_XEXTENT => "X EXTENT"
  | QDMI_SITE_PROPERTY_YEXTENT => "Y EXTENT"
  | QDMI_SITE_PROPERTY_ZEXTENT => "Z EXTENT"
  | QDMI_SITE_PROPERTY_MODULEINDEX => "MODULE INDEX"
  | QDMI_SITE_PROPERTY_SUBMODULEINDEX => "SUBMODULE INDEX"
  | QDMI_SITE_PROPERTY_MAX => "MAX"
  | QDMI_SITE_PROPERTY_CUSTOM1 => "CUSTOM1"
  | QDMI_SITE_PROPERTY_CUSTOM2 => "CUSTOM2"
  | QDMI_SITE_PROPERTY_CUSTOM3 => "CUSTOM3"
  | QDMI_SITE_PROPERTY_CUSTOM4 => "CUSTOM4"
  | QDMI_SITE_PROPERTY_CUSTOM5 => "CUSTOM5"
  end.

Inductive QDMI_Operation_Property :=
  | QDMI_OPERATION_PROPERTY_NAME | QDMI_OPERATION_PROPERTY_QUBITSNUM
  | QDMI_OPERATION_PROPERTY_PARAMETERSNUM | QDMI_OPERATION_PROPERTY_DURATION
  | QDMI_OPERATION_PROPERTY_FIDELITY | QDMI_OPERATION_PROPERTY_INTERACTIONRADIUS
  | QDMI_OPERATION_PROPERTY_BLOCKINGRADIUS | QDMI_OPERATION_PROPERTY_IDLINGFIDELITY
  | QDMI_OPERATION_PROPERTY_ISZONED | QDMI_OPERATION_PROPERTY_SITES
  | QDMI_OPERATION_PROPERTY_MEANSHUTTLINGSPEED | QDMI_OPERATION_PROPERTY_MAX
  | QDMI_OPERATION_PROPERTY_CUSTOM1 | QDMI_OPERATION_PROPERTY_CUSTOM2
  | QDMI_OPERATION_PROPERTY_CUSTOM3 | QDMI_OPERATION_PROPERTY_CUSTOM4
  | QDMI_OPERATION_PROPERTY_CUSTOM5.

Definition toString_QDMI_Operation_Property (v : QDMI_Operation_Property) : string :=
  match v with
  | QDMI_OPERATION_PROPERTY_NAME => "NAME"
  | QDMI_OPERATION_PROPERTY_QUBITSNUM => "QUBITS NUM"
  | QDMI_OPERATION_PROPERTY_PARAMETERSNUM => "PARAMETERS NUM"
  | QDMI_OPERATION_PROPERTY_DURATION => "DURATION"
  | QDMI_OPERATION_PROPERTY_FIDELITY => "FIDELITY"
  | QDMI_OPERATION_PROPERTY_INTERACTIONRADIUS => "INTERACTION RADIUS"
  | QDMI_OPERATION_PROPERTY_BLOCKINGRADIUS => "BLOCKING RADIUS"
  | QDMI_OPERATION_PROPERTY_IDLINGFIDELITY => "IDLING FIDELITY"
  | QDMI_OPERATION_PROPERTY_ISZONED => "IS ZONED"
  | QDMI_OPERATION_PROPERTY_SITES => "SITES"
  | QDMI_OPERATION_PROPERTY_MEANSHUTTLINGSPEED => "MEAN SHUTTLING SPEED"
  | QDMI_OPERATION_PROPERTY_MAX => "MAX"
  | QDMI_OPERATION_PROPERTY_CUSTOM1 => "CUSTOM1"
  | QDMI_OPERATION_PROPERTY_CUSTOM2 => "CUSTOM2"
  | QDMI_OPERATION_PROPERTY_CUSTOM3 => "CUSTOM3"
  | QDMI_OPERATION_PROPERTY_CUSTOM4 => "CUSTOM4"
  | QDMI_OPERATION_PROPERTY_CUSTOM5 => "CUSTOM5"
  end.

Inductive QDMI_Device_Property :=
  | QDMI_DEVICE_PROPERTY_NAME | QDMI_DEVICE_PROPERTY_VERSION | QDMI_DEVICE_PROPERTY_STATUS
  | QDMI_DEVICE_PROPERTY_LIBRARYVERSION | QDMI_DEVICE_PROPERTY_QUBITSNUM
  | QDMI_DEVICE_PROPERTY_SITES | QDMI_DEVICE_PROPERTY_OPERATIONS
  | QDMI_DEVICE_PROPERTY_COUPLINGMAP | QDMI_DEVICE_PROPERTY_NEEDSCALIBRATION
  | QDMI_DEVICE_PROPERTY_LENGTHUNIT | QDMI_DEVICE_PROPERTY_LENGTHSCALEFACTOR
  | QDMI_DEVICE_PROPERTY_DURATIONUNIT | QDMI_DEVICE_PROPERTY_DURATIONSCALEFACTOR
  | QDMI_DEVICE_PROPERTY_MINATOMDISTANCE | QDMI_DEVICE_PROPERTY_PULSESUPPORT
  | QDMI_DEVICE_PROPERTY_SUPPORTEDPROGRAMFORMATS | QDMI_DEVICE_PROPERTY_MAX
  | QDMI_DEVICE_PROPERTY_CUSTOM1 | QDMI_DEVICE_PROPERTY_CUSTOM2
  | QDMI_DEVICE_PROPERTY_CUSTOM3 | QDMI_DEVICE_PROPERTY_CUSTOM4
  | QDMI_DEVICE_PROPERTY_CUSTOM5.

Definition toString_QDMI_Device_Property (v : QDMI_Device_Property) : string :=
  match v with
  | QDMI_DEVICE_PROPERTY_NAME => "NAME"
  | QDMI_DEVICE_PROPERTY_VERSION => "VERSION"
  | QDMI_DEVICE_PROPERTY_STATUS => "STATUS"
  | QDMI_DEVICE_PROPERTY_LIBRARYVERSION => "LIBRARY VERSION"
  | QDMI_DEVICE_PROPERTY_QUBITSNUM => "QUBITS NUM"
  | QDMI_DEVICE_PROPERTY_SITES => "SITES"
  | QDMI_DEVICE_PROPERTY_OPERATIONS => "OPERATIONS"
  | QDMI_DEVICE_PROPERTY_COUPLINGMAP => "COUPLING MAP"
  | QDMI_DEVICE_PROPERTY_NEEDSCALIBRATION => "NEEDS CALIBRATION"
  | QDMI_DEVICE_PROPERTY_LENGTHUNIT => "LENGTH UNIT"
  | QDMI_DEVICE_PROPERTY_LENGTHSCALEFACTOR => "LENGTH SCALE FACTOR"
  | QDMI_DEVICE_PROPERTY_DURATIONUNIT => "DURATION UNIT"
  | QDMI_DEVICE_PROPERTY_DURATIONSCALEFACTOR => "DURATION SCALE FACTOR"
  | QDMI_DEVICE_PROPERTY_MINATOMDISTANCE => "MIN ATOM DISTANCE"
  | QDMI_DEVICE_PROPERTY_PULSESUPPORT => "PULSE SUPPORT"
  | QDMI_DEVICE_PROPERTY_SUPPORTEDPROGRAMFORMATS => "SUPPORTED PROGRAM FORMATS"
  | QDMI_DEVICE_PROPERTY_MAX => "MAX"
  | QDMI_DEVICE_PROPERTY_CUSTOM1 => "CUSTOM1"
  | QDMI_DEVICE_PROPERTY_CUSTOM2 => "CUSTOM2"
  | QDMI_DEVICE_PROPERTY_CUSTOM3 => "CUSTOM3"
  | QDMI_DEVICE_PROPERTY_CUSTOM4 => "CUSTOM4"
  | QDMI_DEVICE_PROPERTY_CUSTOM5 => "CUSTOM5"
  end.

(** ** Property queries

    A query gives the size of a buffer and two optional outputs: the buffer
    itself and the size of the property.  A macro answers it ([Some]) or goes on
    to the next property ([None]). *)

Record Query (P : Type) := mkQuery {
  prop : P; size : Z; value : bool; size_ret : bool }.
Arguments mkQuery {P}.
Arguments prop {P}.
Arguments size {P}.
Arguments value {P}.
Arguments size_ret {P}.

(** The status, the buffer if it was written, the reported size. *)
Record Answer (A : Type) := mkAnswer {
  status : QDMI_STATUS; written : option A; reported : option Z }.
Arguments mkAnswer {A}.
Arguments status {A}.
Arguments written {A}.
Arguments reported {A}.

Section Macros.
Context {P : Type} `{EqDecision P}.

(** The common shape: [needed] bytes, and what is written to a large enough
    buffer. *)
Definition answer {A} (prop_name : P) (needed : Z) (write : A) (q : Query P)
    : option (Answer A) :=
  if decide (prop q = prop_name) then
    if value q && (size q <? needed) then
      Some (mkAnswer QDMI_ERROR_INVALIDARGUMENT None None)
    else
      Some (mkAnswer QDMI_SUCCESS (if value q then Some write else None)
              (if size_ret q then Some needed else None))
  else None.

Definition ADD_SINGLE_VALUE_PROPERTY {A} (prop_name : P) (sizeof : Z) (prop_value : A)
    (q : Query P) : option (Answer A) :=
  answer prop_name sizeof prop_value q.

(** [strncpy] writes [size] characters: the text, and NUL behind it. *)
Definition STRNCPY (src : string) (size : Z) : string := fit (Z.to_nat size) src.

(** The last character of a buffer of [size] is set to NUL. *)
Definition terminate (size : Z) (buffer : string) : string :=
  String.substring 0 (Z.to_nat (size - 1)) buffer +:+ String "000" "".

Definition ADD_STRING_PROPERTY (prop_name : P) (prop_value : string) (q : Query P)
    : option (Answer string) :=
  answer prop_name (Z.of_nat (String.length prop_value) + 1)
    (terminate (size q) (STRNCPY prop_value (size q))) q.

(** [memcpy] of the whole list. *)
Definition ADD_LIST_PROPERTY {A} (prop_name : P) (sizeof : Z) (prop_values : list A)
    (q : Query P) : option (Answer (list A)) :=
  answer prop_name (Z.of_nat (length prop_values) * sizeof) prop_values q.
End Macros.

(** [IS_INVALID_ARGUMENT], over the values of the enumerators. *)
Definition IS_INVALID_ARGUMENT (prop MAX : Z) (CUSTOM : list Z) : bool :=
  (MAX <=? prop) && negb (bool_decide (prop ∈ CUSTOM)).

(** ** Facts *)

Lemma toString_QDMI_STATUS_inj a b : toString_QDMI_STATUS a = toString_QDMI_STATUS b → a = b.
Proof. by destruct a, b. Qed.

Lemma toString_QDMI_Session_Parameter_inj a b : toString_QDMI_Session_Parameter a = toString_QDMI_Session_Parameter b → a = b.
Proof. by destruct a, b. Qed.

Lemma toString_QDMI_Session_Property_inj a b : toString_QDMI_Session_Property a = toString_QDMI_Session_Property b → a = b.
Proof. by destruct a, b. Qed.

Lemma toString_QDMI_Device_Session_Parameter_inj a b : toString_QDMI_Device_Session_Parameter a = toString_QDMI_Device_Session_Parameter b → a = b.
Proof. by destruct a, b. Qed.

Lemma toString_QDMI_Site_Property_inj a b : toString_QDMI_Site_Property a = toString_QDMI_Site_Property b → a = b.
Proof. by destruct a, b. Qed.

Lemma toString_QDMI_Operation_Property_inj a b : toString_QDMI_Operation_Property a = toString_QDMI_Operation_Property b → a = b.
Proof. by destruct a, b. Qed.

Lemma toString_QDMI_Device_Property_inj a b : toString_QDMI_Device_Property a = toString_QDMI_Device_Property b → a = b.
Proof. by destruct a, b. Qed.

Lemma substring_fit n text : String.substring 0 n (fit (S n) text) = fit n text.
Proof.
  revert text. induction n as [|n IH]; intros [|c text]; try done.
  - change (String "000" (String.substring 0 n (fit (S n) "")) = String "000" (fit n "")).
    by rewrite IH.
  - change (String c (String.substring 0 n (fit (S n) text)) = String c (fit n text)).
    by rewrite IH.
Qed.

(** Asking for the size and then for the text gives the text back: the protocol
    of a client that reads into a buffer of the reported size. *)
Lemma string_property_protocol {P} `{EqDecision P} (p : P) text :
  ∃ n, ADD_STRING_PROPERTY p text (mkQuery p 0 false true) =
         Some (mkAnswer QDMI_SUCCESS None (Some n)) ∧
    ADD_STRING_PROPERTY p text (mkQuery p n true false) =
      Some (mkAnswer QDMI_SUCCESS (Some (text +:+ String "000" "")) None).
Proof.
  unfold ADD_STRING_PROPERTY, answer. cbn [prop size value size_ret].
  eexists. split; [by rewrite decide_True|].
  cbn [andb]. rewrite (proj2 (Z.ltb_ge _ _)) by lia.
  unfold terminate, STRNCPY.
  replace (Z.to_nat (Z.of_nat (String.length text) + 1 - 1)) with (String.length text) by lia.
  replace (Z.to_nat (Z.of_nat (String.length text) + 1)) with (S (String.length text)) by lia.
  by rewrite substring_fit, fit_id, decide_True.
Qed.

(** A buffer that is too small is refused and left alone. *)
Lemma small_buffer_refused {P} `{EqDecision P} (p : P) text n sr :
  0 <= n <= Z.of_nat (String.length text) →
  ADD_STRING_PROPERTY p text (mkQuery p n true sr) =
    Some (mkAnswer QDMI_ERROR_INVALIDARGUMENT None None).
Proof.
  intros Hn. unfold ADD_STRING_PROPERTY, answer. cbn [prop size value size_ret].
  rewrite decide_True by done. simpl. by rewrite (proj2 (Z.ltb_lt _ _)) by lia.
Qed.
