(* ===== verification/QrmConfig.v ===== *)
(** * QRM workflow configuration (examples/qrm_workflow: Config.hpp, Config.cpp)

    The settings of the four processes, read from the environment with static
    defaults; a malformed number is ignored.  The process-wide storage, and what
    each process makes of the settings when it starts (Logger.hpp and the
    [main] functions): its logger and the options of its messenger. *)

From S2P Require Import Prelude CharConv Config Cxx.
From S2P Require QOffloadConfig RabbitMqSimpleTransport.

(** ** Configuration (include/Config.hpp, src/Config.cpp) *)

Record RabbitMqConfig := mkRabbitMq {
  host : string; port : Z; user : string; password : string; vhost : string }.
Record QueueConfig := mkQueues {
  scheduler : string; compiler : string; results : string; submitter : string }.
Record LoggingConfig := mkLogging {
  log_dir : string;
  daemon_logger : string; scheduler_logger : string;
  compiler_logger : string; submitter_logger : string;
  daemon_log : string; scheduler_log : string;
  compiler_log : string; submitter_log : string }.
Record PathConfig := mkPaths { benchmark_dir : string; qdmi_device_objs_dir : string }.
Record QDMIDevices := mkDevices { qdmi_device_obj : string; qdmi_device_prefix : string }.
Record Config := mkConfig {
  rabbitmq : RabbitMqConfig; queues : QueueConfig; logging : LoggingConfig;
  paths : PathConfig; devices : QDMIDevices }.

Definition getEnvOr_string (env : Env) (name fallback : string) : string :=
  match env name with Some value => value | None => fallback end.

(** A malformed number is ignored. *)
Definition getEnvOr_int (env : Env) (name : string) (fallback : Z) : Z :=
  match env name with
  | Some text =>
      let r := from_chars int32_t text fallback in
      if bool_decide (ec r = errc_none ∧ ptr r = "") then result r else fallback
  | None => fallback
  end.

(** [(std::filesystem::path(log_dir) / file_name).string()] *)
Definition logPath (log_dir file_name : string) : string :=
  QOffloadConfig.logPath log_dir file_name.

(** The two directories are substituted when the defaults are generated. *)
Definition loadConfig (QRM_LOG_DIR QRM_BENCHMARK_DIR : string) (env : Env) : Config :=
  let log_dir := getEnvOr_string env "QRM_LOG_DIR" QRM_LOG_DIR in {|
    rabbitmq := {|
      host := getEnvOr_string env "QRM_AMQP_HOST" "localhost";
      port := getEnvOr_int env "QRM_AMQP_PORT" 5672;
      user := getEnvOr_string env "QRM_AMQP_USER" "myuser";
      password := getEnvOr_string env "QRM_AMQP_PASSWORD" "mypassword";
      vhost := getEnvOr_string env "QRM_AMQP_VHOST" "/" |};
    queues := {|
      scheduler := getEnvOr_string env "QRM_SCHEDULER_QUEUE" "scheduler.tasks.queue";
      compiler := getEnvOr_string env "QRM_COMPILER_QUEUE" "compiler.tasks.queue";
      results := getEnvOr_string env "QRM_RESULTS_QUEUE" "test.results.queue";
      submitter := getEnvOr_string env "QRM_SUBMITTER_QUEUE" "submitter.tasks.queue" |};
    logging := {|
      log_dir := log_dir;
      daemon_logger := "mqss::Daemon";
      scheduler_logger := "mqss::Scheduler";
      compiler_logger := "mqss::Compiler";
      submitter_logger := "mqss::Submitter";
      daemon_log := logPath log_dir "daemon.log";
      scheduler_log := logPath log_dir "scheduler.log";
      compiler_log := logPath log_dir "compiler.log";
      submitter_log := logPath log_dir "submitter.log" |};
    paths := {|
      benchmark_dir := getEnvOr_string env "QRM_BENCHMARK_DIR" QRM_BENCHMARK_DIR;
      qdmi_device_objs_dir := "" |};
    devices := mkDevices "" "" |}.

(** ** Storage: the two globals of Config.cpp *)

Record Store := mkStore { config : Config; config_initialized : bool }.

(** Static storage: every member zero or empty. *)
Definition initial_store : Store :=
  mkStore (mkConfig (mkRabbitMq "" 0 "" "" "") (mkQueues "" "" "" "")
             (mkLogging "" "" "" "" "" "" "" "" "") (mkPaths "" "") (mkDevices "" "")) false.

Section Startup.
Context (NDEBUG : bool).

Definition initConfig (new_config : Config) : Prog Store unit := λ s,
  (assert NDEBUG (negb (config_initialized s)) ≫= λ _,
   effect (λ _, mkStore new_config true)) s.

Definition getConfig : Prog Store Config := λ s,
  (assert NDEBUG (config_initialized s) ≫= λ _, mret (config s)) s.

(** ** Logger.hpp

    The sinks of a logger; its level is always info.  Opening the file may
    throw, which no process catches. *)

Inductive Sink := stdout_color_sink | truncated_file_sink (path : string).

Record Logger := mkLogger { logger_name : string; sinks : list Sink }.

Definition makeLogger (open_error : string → option string) (name log_file : string)
    : Prog Store Logger :=
  if String.eqb log_file "" then mret (mkLogger name [stdout_color_sink])
  else
    match open_error log_file with
    | Some what => throw what
    | None => mret (mkLogger name [stdout_color_sink; truncated_file_sink log_file])
    end.

(** ** The start of each [main]: configuration, logger, messenger options *)

(** The virtual host is left at its default. *)
Definition messenger_options (config : Config)
    : RabbitMqSimpleTransport.TransportOptions := {|
  RabbitMqSimpleTransport.host := host (rabbitmq config);
  RabbitMqSimpleTransport.port := port (rabbitmq config);
  RabbitMqSimpleTransport.username := user (rabbitmq config);
  RabbitMqSimpleTransport.password := password (rabbitmq config);
  RabbitMqSimpleTransport.vhost :=
    RabbitMqSimpleTransport.vhost RabbitMqSimpleTransport.default_options |}.

(** [name] and [log] select the process's own settings. *)
Definition startup (QRM_LOG_DIR QRM_BENCHMARK_DIR : string) (env : Env)
    (open_error : string → option string) (name log : LoggingConfig → string)
    : Prog Store (Config * Logger * RabbitMqSimpleTransport.TransportOptions) :=
  initConfig (loadConfig QRM_LOG_DIR QRM_BENCHMARK_DIR env) ≫= λ _,
  getConfig ≫= λ config,
  makeLogger open_error (name (logging config)) (log (logging config)) ≫= λ logger,
  mret (config, logger, messenger_options config).

(** ** Facts *)

(** A process starts with the settings of its environment and keeps them. *)
Lemma startup_returns log_dir bench env name log :
  let c := loadConfig log_dir bench env in
  log (logging c) ≠ "" →
  startup log_dir bench env (λ _, None) name log initial_store =
    (Returned (c, mkLogger (name (logging c)) [stdout_color_sink;
                    truncated_file_sink (log (logging c))], messenger_options c),
     mkStore c true).
Proof.
  intros c Hlog. unfold startup. fold c. clearbody c.
  unfold initConfig, getConfig, makeLogger, mbind, prog_bind, effect, assert. simpl.
  rewrite orb_true_r. simpl. rewrite orb_true_r.
  unfold mret, prog_ret. by rewrite (proj2 (String.eqb_neq _ _) Hlog).
Qed.

(** The virtual host of the environment has no effect on the connection. *)
Lemma vhost_ignored log_dir bench env env' :
  (∀ n, n ≠ "QRM_AMQP_VHOST" → env n = env' n) →
  messenger_options (loadConfig log_dir bench env) =
  messenger_options (loadConfig log_dir bench env').
Proof.
  intros H. unfold messenger_options, loadConfig, getEnvOr_string, getEnvOr_int. simpl.
  by rewrite !H.
Qed.
End Startup.
