(* ===== verification/Circuits.v ===== *)
(** * Circuit texts (examples/qrm_workflow/src/Compiler.cpp)

    [std::getline] and [std::string::find], and the clean-up of the circuits the
    compiler prints: gate definitions are dropped line by line. *)

From S2P Require Import Prelude.

(** ** Texts: std::getline and std::string::find *)

(** [std::getline(stream, line, delim)] until it fails: the text between
    delimiters; nothing after a final one. *)
Fixpoint getlines_from (delim : Ascii.ascii) (line : string) (text : string) : list string :=
  match text with
  | EmptyString => if String.eqb line "" then [] else [line]
  | String c r =>
      if decide (c = delim) then line :: getlines_from delim "" r
      else getlines_from delim (line +:+ String c "") r
  end.
Definition getlines (delim : Ascii.ascii) (text : string) : list string :=
  getlines_from delim "" text.

Definition newline : Ascii.ascii := Ascii.ascii_of_nat 10.

(** [line.find(sub) != std::string::npos] *)
Fixpoint contains (sub line : string) : bool :=
  String.prefix sub line ||
  match line with EmptyString => false | String _ r => contains sub r end.

(** ** Gate definitions (stripSpuriousGateDefs) *)

(** [line.find("gate ") != npos && line.find("{") != npos] *)
Definition opens_gate (line : string) : bool := contains "gate " line && contains "{" line.

Fixpoint strip_lines (inGateBlock : bool) (lines : list string) (result : string) : string :=
  match lines with
  | [] => result
  | line :: lines =>
      if opens_gate line then strip_lines true lines result
      else if inGateBlock then
        strip_lines (if contains "}" line then false else inGateBlock) lines result
      else strip_lines inGateBlock lines (result +:+ line +:+ String newline "")
  end.

Definition stripSpuriousGateDefs (qasm : string) : string :=
  strip_lines false (getlines newline qasm) "".

(** ** Facts: texts *)

(** Lines written one after the other, each ended by a newline. *)
Definition unlines (ls : list string) : string :=
  foldr (λ l s, l +:+ String newline s) "" ls.

Fixpoint no_char (d : Ascii.ascii) (s : string) : bool :=
  match s with
  | EmptyString => true
  | String c r => bool_decide (c ≠ d) && no_char d r
  end.

Lemma no_char_app d a b : no_char d (a +:+ b) = no_char d a && no_char d b.
Proof. induction a as [|c a IH]; simpl; [done|]. by rewrite IH, andb_assoc. Qed.

Lemma getlines_from_no_char d line text :
  no_char d line = true → Forall (λ l, no_char d l = true) (getlines_from d line text).
Proof.
  revert line. induction text as [|c text IH]; intros line Hl; simpl.
  - destruct (String.eqb line ""); auto.
  - destruct (decide (c = d)) as [->|Hc]; [by auto|].
    apply IH. rewrite no_char_app, Hl. simpl. by rewrite bool_decide_true.
Qed.

Lemma getlines_from_line d line l rest :
  no_char d l = true →
  getlines_from d line (l +:+ String d rest) = (line +:+ l) :: getlines_from d "" rest.
Proof.
  revert line. induction l as [|c l IH]; intros line Hl; simpl.
  - by rewrite decide_True, string_app_nil_r.
  - simpl in Hl. apply andb_prop in Hl as [Hc%bool_decide_eq_true Hl].
    rewrite decide_False by done. rewrite IH by done. by rewrite string_app_assoc.
Qed.

Lemma getlines_unlines ls :
  Forall (λ l, no_char newline l = true) ls → getlines newline (unlines ls) = ls.
Proof.
  unfold getlines. induction 1 as [|l ls Hl _ IH]; [done|]. simpl.
  rewrite getlines_from_line by done. by rewrite IH.
Qed.

(** The lines that are kept, from inside or outside a gate block. *)
Fixpoint kept (inGateBlock : bool) (lines : list string) : list string :=
  match lines with
  | [] => []
  | line :: lines =>
      if opens_gate line then kept true lines
      else if inGateBlock then kept (negb (contains "}" line)) lines
      else line :: kept false lines
  end.

Lemma unlines_app l1 l2 : unlines (l1 ++ l2) = unlines l1 +:+ unlines l2.
Proof.
  induction l1 as [|l l1 IH]; simpl; [done|]. rewrite IH.
  by rewrite string_app_assoc.
Qed.

Lemma strip_lines_kept b lines acc :
  strip_lines b lines acc = acc +:+ unlines (kept b lines).
Proof.
  revert b acc. induction lines as [|l lines IH]; intros b acc; simpl.
  - by rewrite string_app_nil_r.
  - destruct (opens_gate l); [apply IH|]. destruct b.
    + rewrite IH. by destruct (contains "}" l).
    + rewrite IH. simpl. by rewrite !string_app_assoc.
Qed.

Lemma kept_lines b lines :
  Forall (λ l, l ∈ lines ∧ opens_gate l = false) (kept b lines).
Proof.
  revert b. induction lines as [|l lines IH]; intros b; simpl; [done|].
  assert (∀ b, Forall (λ x, x ∈ l :: lines ∧ opens_gate x = false) (kept b lines)) as H.
  { intros b'. eapply Forall_impl; [apply IH|]. intros x [? ?]. split; [by right|done]. }
  destruct (opens_gate l) eqn:Hg; [done|]. destruct b; [done|].
  constructor; [|done]. split; [by left|done].
Qed.

Lemma kept_id lines : Forall (λ l, opens_gate l = false) lines → kept false lines = lines.
Proof. induction 1 as [|l lines Hl _ IH]; simpl; [done|]. by rewrite Hl, IH. Qed.

Lemma kept_in_block lines :
  Forall (λ l, contains "}" l = false) lines → kept true lines = [].
Proof.
  induction 1 as [|l lines Hl _ IH]; simpl; [done|].
  destruct (opens_gate l); [done|]. by rewrite Hl.
Qed.

Lemma strip_unlines s :
  stripSpuriousGateDefs s = unlines (kept false (getlines newline s)).
Proof. unfold stripSpuriousGateDefs. by rewrite strip_lines_kept. Qed.

Lemma getlines_strip s :
  getlines newline (stripSpuriousGateDefs s) = kept false (getlines newline s).
Proof.
  rewrite strip_unlines. apply getlines_unlines.
  pose proof (getlines_from_no_char newline "" s eq_refl) as Hn.
  pose proof (kept_lines false (getlines newline s)) as Hk.
  apply Forall_forall. intros l Hl. rewrite Forall_forall in Hk, Hn.
  apply Hn, (Hk l Hl).
Qed.

(** Stripping gate definitions is a projection: the result has no line that
    opens a gate definition, only lines of the input, and stripping again
    changes nothing; a text without such a line keeps all its lines. *)
Theorem strip_projection s :
  Forall (λ l, l ∈ getlines newline s ∧ opens_gate l = false)
    (getlines newline (stripSpuriousGateDefs s)) ∧
  stripSpuriousGateDefs (stripSpuriousGateDefs s) = stripSpuriousGateDefs s ∧
  (Forall (λ l, opens_gate l = false) (getlines newline s) →
   stripSpuriousGateDefs s = unlines (getlines newline s)).
Proof.
  rewrite getlines_strip. split_and!.
  - apply kept_lines.
  - rewrite (strip_unlines (stripSpuriousGateDefs s)), getlines_strip, kept_id.
    + by rewrite strip_unlines.
    + eapply Forall_impl; [apply kept_lines|]. by intros l [_ ?].
  - intros Hs. by rewrite strip_unlines, kept_id.
Qed.

Lemma strip_projection_witness :
  stripSpuriousGateDefs (unlines ["h q[0];"; "cx q[0],q[1];"]) =
  unlines ["h q[0];"; "cx q[0],q[1];"].
Proof.
  apply (strip_projection (unlines ["h q[0];"; "cx q[0],q[1];"])).
  repeat constructor.
Defined.

(** A gate definition written on one line swallows the circuit: everything
    after it, up to the next line with a closing brace, is dropped, whether or
    not the definition was closed on its own line. *)
Theorem one_line_gate_swallows g rest :
  no_char newline g = true → Forall (λ l, no_char newline l = true) rest →
  opens_gate g = true → Forall (λ l, contains "}" l = false) rest →
  stripSpuriousGateDefs (unlines (g :: rest)) = "".
Proof.
  intros Hg Hr Ho Hc. rewrite strip_unlines, getlines_unlines by (by constructor).
  simpl. rewrite Ho. by rewrite kept_in_block.
Qed.

Lemma one_line_gate_swallows_witness :
  stripSpuriousGateDefs
    (unlines ["gate g a { h a; }"; "qreg q[1];"; "g q[0];"; "measure q -> c;"]) = "".
Proof.
  apply (one_line_gate_swallows "gate g a { h a; }"
    ["qreg q[1];"; "g q[0];"; "measure q -> c;"]); repeat constructor.
Defined.
