(* ===== verification/QrmCompiler.v ===== *)
(** * The compiler process's work (examples/qrm_workflow/src/Compiler.cpp)

    Lowering a circuit file and compiling a task.  MLIR and the passes are a
    parameter: a class of module transformations that may fail, over a world of
    files. *)

From S2P Require Import Prelude Cxx Protocol Circuits.

(** ** The compiler library *)

Class Mlir (F : Type) := {
  ModuleOp : Type;
  mkstemp : F → option F;                     (* a new temporary file, or no *)
  parseSourceFile : string → F → option ModuleOp;
  (* the passes: whether they succeed, the module afterwards, the text printed *)
  O1 : ModuleOp → bool * ModuleOp;
  BasisConversion : string → ModuleOp → bool * ModuleOp;
  QuakeToQASM2 : ModuleOp → bool * ModuleOp * string;
}.

(** The passes the program adds to its pass manager. *)
Inductive Pass := O1Pipeline | BasisConversionPass (gates : string) | QuakeToQASM2Pass.

Section Compiler.
Context {F : Type} `{Mlir F}.

Definition run_pass (p : Pass) (m : ModuleOp) : bool * ModuleOp * string :=
  match p with
  | O1Pipeline => (O1 m, "")
  | BasisConversionPass gates => (BasisConversion gates m, "")
  | QuakeToQASM2Pass => QuakeToQASM2 m
  end.

(** [pm.run] on the module: the passes in order, up to the first that fails. *)
Fixpoint pm_run (pm : list Pass) (m : ModuleOp) (result : string)
    : bool * ModuleOp * string :=
  match pm with
  | [] => (true, m, result)
  | p :: pm =>
      let '(ok, m, text) := run_pass p m in
      if ok then pm_run pm m (result +:+ text) else (false, m, result +:+ text)
  end.

Definition native_gates (target_qpu : string) : string :=
  if String.eqb target_qpu "planqc" then "rx,cz,rz" else "phased_rx, cz".

(** Failures of [parseSourceFile] and of the passes are only logged. *)
Definition lowerToOutputFormat (src_path : string) (opt_level : Z)
    (target_qpu result_type : string) : Prog F string := λ f,
  match mkstemp f with
  | None => throw "mkstemp failed" f
  | Some f =>
      match parseSourceFile src_path f with
      | None => undefined f                   (* [*module] of a null module *)
      | Some m =>
          let pm := [O1Pipeline] in
          let '(_, m, _) := pm_run pm m "" in
          let pm := pm ++ [BasisConversionPass (native_gates target_qpu)] in
          let pm := if String.eqb result_type "OpenQasm2"
                    then pm ++ [QuakeToQASM2Pass] else pm in
          let '(_, _, result) := pm_run pm m "" in
          (Returned result, f)
      end
  end.

(** ** Compiling a task *)

(** The first loop: the outputs by index. *)
Fixpoint lower_all (task : QuantumTask) (i : nat) (files : list string)
    : Prog F (list (nat * string)) :=
  match files with
  | [] => mret []
  | circuit_file :: files =>
      lowerToOutputFormat circuit_file (QuantumTask.optimisation_level task)
        (QuantumTask.preferred_qpu task) "OpenQasm2" ≫= λ out_res,
      lower_all task (S i) files ≫= λ updated_circuit_files,
      mret ((i, stripSpuriousGateDefs out_res) :: updated_circuit_files)
  end.

Definition set_circuit_files (i : nat) (file : string) (task : QuantumTask) : QuantumTask :=
  let '(QuantumTask.mk ti nq ns cf ct rd pq sq pr ol nm tf rt st cq ai rr ui tk vh) := task in
  QuantumTask.mk ti nq ns (<[i := file]> cf) ct rd pq sq pr ol nm tf rt st cq ai rr ui tk vh.

(** The second loop runs over an unordered map: [order] is any arrangement of
    its entries. *)
Definition applyOptimizationPasses (order : list (nat * string) → list (nat * string))
    (task : QuantumTask) : Prog F QuantumTask :=
  lower_all task 0 (QuantumTask.circuit_files task) ≫= λ updated_circuit_files,
  mret (foldl (λ task '(i, file), set_circuit_files i file task) task
          (order updated_circuit_files)).
End Compiler.

(** ** Facts: replacing the circuits *)

Lemma foldl_insert_length (entries : list (nat * string)) (cf : list string) :
  length (foldl (λ cf '(i, f), <[i := f]> cf) cf entries) = length cf.
Proof.
  revert cf. induction entries as [|[i f] es IH]; intros cf; simpl; [done|].
  by rewrite IH, length_insert.
Qed.

Lemma foldl_insert_other (entries : list (nat * string)) (cf : list string) i :
  i ∉ entries.*1 → foldl (λ cf '(i, f), <[i := f]> cf) cf entries !! i = cf !! i.
Proof.
  revert cf. induction entries as [|[j f] es IH]; intros cf Hi; simpl; [done|].
  simpl in Hi. apply not_elem_of_cons in Hi as [Hij Hi].
  by rewrite IH, list_lookup_insert_ne.
Qed.

Lemma foldl_insert_in (entries : list (nat * string)) (cf : list string) i f :
  NoDup entries.*1 → (i, f) ∈ entries → (i < length cf)%nat →
  foldl (λ cf '(i, f), <[i := f]> cf) cf entries !! i = Some f.
Proof.
  revert cf. induction entries as [|[j g] es IH]; intros cf Hnd Hin Hi; simpl.
  { by apply elem_of_nil in Hin. }
  apply NoDup_cons in Hnd as [Hj Hnd]. apply elem_of_cons in Hin as [[= -> ->]|Hin].
  - rewrite foldl_insert_other by done. by apply list_lookup_insert_eq.
  - apply IH; [done..|]. by rewrite length_insert.
Qed.

(** Replacing every entry, in any order. *)
Lemma foldl_insert_all (fs cf : list string) (entries : list (nat * string)) :
  length fs = length cf → entries ≡ₚ imap pair fs →
  foldl (λ cf '(i, f), <[i := f]> cf) cf entries = fs.
Proof.
  intros Hlen Hperm. assert (entries.*1 ≡ₚ seq 0 (length fs)) as Hk.
  { rewrite Hperm. clear. rewrite fmap_imap. simpl.
    assert (∀ (l : list string) k, imap (λ n _, (k + n)%nat) l = seq k (length l)) as H.
    { induction l as [|x l IH]; intros k; simpl; [done|]. f_equal; [lia|].
      rewrite <-(IH (S k)). apply imap_ext. intros. simpl. lia. }
    by rewrite <-(H fs 0%nat). }
  apply list_eq. intros i. destruct (decide (i < length fs)%nat) as [Hi|Hi].
  - destruct (lookup_lt_is_Some_2 fs i Hi) as [f Hf]. rewrite Hf.
    apply foldl_insert_in; [|by rewrite Hperm; eapply elem_of_lookup_imap_2|lia].
    rewrite Hk. apply NoDup_seq.
  - rewrite !(proj2 (lookup_ge_None _ _)); [done|lia|]. rewrite foldl_insert_length. lia.
Qed.

Definition with_circuit_files (fs : list string) (task : QuantumTask) : QuantumTask :=
  let '(QuantumTask.mk ti nq ns _ ct rd pq sq pr ol nm tf rt st cq ai rr ui tk vh) := task in
  QuantumTask.mk ti nq ns fs ct rd pq sq pr ol nm tf rt st cq ai rr ui tk vh.

Lemma circuit_files_with fs task :
  QuantumTask.circuit_files (with_circuit_files fs task) = fs.
Proof. by destruct task. Qed.

Lemma foldl_set_circuit_files entries task :
  foldl (λ task '(i, file), set_circuit_files i file task) task entries =
  with_circuit_files
    (foldl (λ cf '(i, f), <[i := f]> cf) (QuantumTask.circuit_files task) entries) task.
Proof.
  revert task. induction entries as [|[i f] es IH]; intros task; simpl.
  - by destruct task.
  - rewrite IH. by destruct task.
Qed.

(** ** Facts: compiling *)

Section Facts.
Context {F : Type} `{Mlir F}.

(** The circuit a file is compiled to for a task. *)
Definition compile (task : QuantumTask) (file : string) : Prog F string :=
  lowerToOutputFormat file (QuantumTask.optimisation_level task)
    (QuantumTask.preferred_qpu task) "OpenQasm2" ≫= λ out,
  mret (stripSpuriousGateDefs out).

Lemma compile_eq task file f :
  compile task file f =
  match lowerToOutputFormat file (QuantumTask.optimisation_level task)
          (QuantumTask.preferred_qpu task) "OpenQasm2" f with
  | (Returned out, f) => (Returned (stripSpuriousGateDefs out), f)
  | (Thrown what, f) => (Thrown what, f)
  | (Aborted, f) => (Aborted, f)
  | (Undefined, f) => (Undefined, f)
  end.
Proof. done. Qed.

Lemma lower_all_mapM task files k f :
  lower_all task k files f =
  (mapM (compile task) files ≫= λ outs, mret (imap (λ i o, ((k + i)%nat, o)) outs)) f.
Proof.
  revert k f. induction files as [|file files IH]; intros k f; [done|].
  cbn [lower_all mapM]. unfold mbind, prog_bind. rewrite compile_eq.
  destruct (lowerToOutputFormat _ _ _ _ f) as [[out| | |] f1]; try done.
  rewrite IH. unfold mbind, prog_bind.
  destruct (mapM (compile task) files f1) as [[outs| | |] f2]; try done.
  unfold mret, prog_ret. simpl. do 3 f_equal; [f_equal; lia|].
  apply imap_ext. intros. simpl. f_equal. lia.
Qed.

Lemma mapM_length {A C} (g : A → Prog F C) (l : list A) outs f f' :
  mapM g l f = (Returned outs, f') → length outs = length l.
Proof.
  revert outs f. induction l as [|x l IH]; intros outs f; simpl; [by intros [= <- _]|].
  unfold mbind, prog_bind. destruct (g x f) as [[y| | |] f1]; try done.
  destruct (mapM g l f1) as [[ys| | |] f2] eqn:Hm; try done.
  intros [= <- ->]. simpl. f_equal. by eapply IH.
Qed.
Lemma apply_mapM order task f :
  (∀ l, order l ≡ₚ l) →
  applyOptimizationPasses order task f =
  (mapM (compile task) (QuantumTask.circuit_files task) ≫= λ outs,
   mret (with_circuit_files outs task)) f.
Proof.
  intros Hord. unfold applyOptimizationPasses, mbind, prog_bind.
  rewrite lower_all_mapM. unfold mbind, prog_bind.
  destruct (mapM (compile task) (QuantumTask.circuit_files task) f)
    as [[outs| | |] f'] eqn:Hm; try done.
  unfold mret, prog_ret. do 2 f_equal. rewrite foldl_set_circuit_files. f_equal.
  apply foldl_insert_all; [by eapply mapM_length|]. by rewrite Hord.
Qed.

(** Compiling a task: whatever the iteration order of the map of results,
    it is the compilation of its circuit files one after the other, each
    replaced at its own position by its cleaned-up output; nothing else of the
    task changes, and an exception or undefined behaviour for one file ends
    the whole call in the same way. *)
Theorem applyOptimizationPasses_spec order task f :
  (∀ l, order l ≡ₚ l) →
  applyOptimizationPasses order task f =
  (mapM (compile task) (QuantumTask.circuit_files task) ≫= λ outs,
   mret (with_circuit_files outs task)) f.
Proof. apply apply_mapM. Qed.

(** The second run of the pass manager, on a module [m] that the first run has
    transformed: what is printed. *)
Definition printed (target_qpu : string) (m : ModuleOp) : string :=
  let '(ok2, m2) := O1 (O1 m).2 in
  let '(ok3, m3) := BasisConversion (native_gates target_qpu) m2 in
  if ok2 && ok3 then (QuakeToQASM2 m3).2 else "".

Lemma lower_parsed src_path level target_qpu f f' m :
  mkstemp f = Some f' → parseSourceFile src_path f' = Some m →
  lowerToOutputFormat src_path level target_qpu "OpenQasm2" f =
    (Returned (printed target_qpu m), f').
Proof.
  intros Hf Hm. unfold lowerToOutputFormat, printed. rewrite Hf, Hm. simpl.
  destruct (O1 m) as [[] m1]; simpl;
    (destruct (O1 m1) as [[] m2]; simpl; [|by destruct (BasisConversion _ _)];
     destruct (BasisConversion _ m2) as [[] m3]; simpl; [|done];
     by destruct (QuakeToQASM2 m3) as [[[] m4] text]).
Qed.

Lemma compile_parsed task file f f' m :
  mkstemp f = Some f' → parseSourceFile file f' = Some m →
  compile task file f =
    (Returned (stripSpuriousGateDefs (printed (QuantumTask.preferred_qpu task) m)), f').
Proof. intros Hf Hm. by rewrite compile_eq, (lower_parsed _ _ _ _ _ _ Hf Hm). Qed.

(** Temporary files can be made and the files parse. *)
Definition parses (files : list string) : Prop :=
  (∀ f, is_Some (mkstemp f)) ∧ ∀ file f, file ∈ files → is_Some (parseSourceFile file f).

Lemma mapM_parses task files f :
  parses files → ∃ outs f', mapM (compile task) files f = (Returned outs, f') ∧
    Forall2 (λ file out, ∃ f m, parseSourceFile file f = Some m ∧
      out = stripSpuriousGateDefs (printed (QuantumTask.preferred_qpu task) m)) files outs.
Proof.
  intros [Htmp Hparse]. revert f. induction files as [|file files IH]; intros f.
  { exists [], f. by split. }
  destruct (Htmp f) as [f1 Hf1].
  destruct (Hparse file f1) as [m Hm]; [by left|].
  destruct (IH (λ file f Hin, Hparse file f (list_elem_of_further _ _ _ Hin)) f1)
    as (outs & f' & Hmap & Houts).
  eexists (_ :: outs), f'. split; [|constructor; [|exact Houts]].
  - simpl. rewrite (bind_returned _ _ _ _ _ (compile_parsed _ _ _ _ _ Hf1 Hm)).
    by rewrite (bind_returned _ _ _ _ _ Hmap).
  - by exists f1, m.
Qed.

(** C40. A failing compiler pass is not noticed.  Compiling a task whose files all
    parse always returns, with as many circuits.  What replaces a circuit is
    decided by the second run of the pass manager alone, on the module the
    first run has left, whether that run failed or not: the empty text if the
    optimisation or the basis conversion fails in the second run, and otherwise,
    cleaned up, what the conversion to QASM printed, whether it failed or not. *)
Theorem failed_pass_empties_circuit order task f :
  (∀ l, order l ≡ₚ l) → parses (QuantumTask.circuit_files task) →
  ∃ task' f', applyOptimizationPasses order task f = (Returned task', f') ∧
    length (QuantumTask.circuit_files task') = length (QuantumTask.circuit_files task) ∧
    ∀ i file, QuantumTask.circuit_files task !! i = Some file →
      ∃ f0 m, parseSourceFile file f0 = Some m ∧
        let '(first_ok, m1) := O1 m in
        let '(second_ok, m2) := O1 m1 in
        let '(basis_ok, m3) :=
          BasisConversion (native_gates (QuantumTask.preferred_qpu task)) m2 in
        let '(qasm_ok, m4, text) := QuakeToQASM2 m3 in
        QuantumTask.circuit_files task' !! i =
          Some (if second_ok && basis_ok then stripSpuriousGateDefs text else "").
Proof.
  intros Hord Hp. destruct (mapM_parses task _ f Hp) as (outs & f' & Hm & Ho).
  exists (with_circuit_files outs task), f'. rewrite apply_mapM by done.
  rewrite (bind_returned _ _ _ _ _ Hm), circuit_files_with. split_and!; [done| |].
  - symmetry. by eapply Forall2_length.
  - intros i file Hi.
    destruct (Forall2_lookup_l _ _ _ _ _ Ho Hi) as (out & -> & f2 & m & Hparse & ->).
    exists f2, m. split; [done|]. unfold printed.
    destruct (O1 m) as [ok1 m1]. cbn [snd]. destruct (O1 m1) as [ok2 m2].
    destruct (BasisConversion _ m2) as [ok3 m3]. destruct (QuakeToQASM2 m3) as [[ok4 m4] text].
    by destruct ok2, ok3.
Qed.
End Facts.

(** ** A concrete compiler

    Files are texts by name, a module is its text, the optimisation rejects a
    module that holds the word [bad], and printing prints the text. *)

Module TextMlir.
#[export] Instance mlir : Mlir (gmap string string) := {
  ModuleOp := string;
  mkstemp f := Some (<[ "/tmp/mqss_quake_" +:+ pretty (size f) := "" ]> f);
  parseSourceFile path f := f !! path;
  O1 m := (negb (contains "bad" m), m);
  BasisConversion gates m := (true, m);
  QuakeToQASM2 m := (true, m, m);
}.

(** The same, with every file present. *)
#[export] Instance anything : Mlir unit := {
  ModuleOp := string;
  mkstemp f := Some f;
  parseSourceFile path f := Some path;
  O1 m := (negb (contains "bad" m), m);
  BasisConversion gates m := (true, m);
  QuakeToQASM2 m := (true, m, m);
}.
End TextMlir.
Import (hints) TextMlir.

Lemma applyOptimizationPasses_spec_witness :
  let circuit := unlines ["gate spurious a {"; "}"; "h q[0];"] in
  let task := with_circuit_files ["bell"] QuantumTask.default_instance in
  ∃ f, applyOptimizationPasses id task {["bell" := circuit]} =
         (Returned (with_circuit_files [unlines ["h q[0];"]] task), f).
Proof.
  eexists. etransitivity.
  { apply (applyOptimizationPasses_spec (F := gmap string string) id). reflexivity. }
  vm_compute. reflexivity.
Defined.

Lemma failed_pass_empties_circuit_witness :
  ∃ task f, applyOptimizationPasses id
      (with_circuit_files ["good"; "bad"] QuantumTask.default_instance) tt =
      (Returned task, f) ∧
    QuantumTask.circuit_files task !! 1%nat = Some "".
Proof.
  destruct (failed_pass_empties_circuit id
    (with_circuit_files ["good"; "bad"] QuantumTask.default_instance) tt)
    as (task & f & Ht & _ & Hi); [reflexivity|split; intros; eexists; reflexivity|].
  exists task, f. split; [exact Ht|].
  destruct (Hi 1%nat "bad" eq_refl) as (f0 & m & [= <-] & Hout). exact Hout.
Defined.
