(* ===== verification/QrmSubmitter.v ===== *)
(** * The submitter's job (examples/qrm_workflow/src/Submitter.cpp)

    Running a circuit on a device through the QDMI client library, which is a
    parameter: a class of calls that change the library's world and return
    status codes.  [NDEBUG] says whether the build leaves the assertions out. *)

From S2P Require Import Prelude Cxx CharConv Protocol Circuits.

(** ** The device library (qdmi/client.h) *)

(** The parameters the program sets on a job.  A number of shots is passed as a
    pointer to an [int] together with the number of bytes to read there. *)
Inductive JobParameter :=
  | PROGRAMFORMAT_QASM2
  | PROGRAM (text : string)
  | SHOTSNUM (size : Z) (num_shots : Z).

Inductive JobResult := HIST_KEYS | HIST_VALUES.

Definition QDMI_SUCCESS : Z := 0.

(** A handle that the library did not fill in is [None]. *)
Class QdmiClient (B : Type) := {
  Session : Type;
  Device : Type;
  Job : Type;
  session_alloc : B → option Session * B;
  session_init : option Session → B → B;
  (* the size in bytes, and what is written to a buffer *)
  session_query_devices_size : option Session → B → Z * B;
  session_query_devices : option Session → Z → B → list Device * B;
  device_query_name_size : option Device → B → (Z * Z) * B;
  device_query_name : option Device → Z → B → (Z * string) * B;
  device_create_job : option Device → B → (Z * option Job) * B;
  job_set_parameter : option Job → JobParameter → B → Z * B;
  job_submit : option Job → B → Z * B;
  job_wait : option Job → Z → B → Z * B;
  job_check : option Job → B → Z * B;
  job_get_results_size : option Job → JobResult → B → (Z * Z) * B;
  job_get_keys : option Job → Z → B → (Z * string) * B;
  job_get_values : option Job → Z → B → (Z * list Z) * B;
  job_free : option Job → B → B;
  session_free : option Session → B → B;
}.

(** ** The histogram *)

(** [key_vec] from the comma-separated key list. *)
Definition key_vec (key_list : string) : list string := getlines "," key_list.

(** [counts[key_vec[i]] = counts[i]] for every key; [None] is an access past the
    end of [counts].  A [size_t] count is stored as an [int32]. *)
Fixpoint gather (keys : list string) (cs : list Z) (m : gmap string Z)
    : option (gmap string Z) :=
  match keys with
  | [] => Some m
  | key :: keys =>
      match cs with
      | [] => None
      | c :: cs => gather keys cs (<[key := to_int32 c]> m)
      end
  end.

(** The [QuantumResult] built from the histogram of the job. *)
Definition make_result (task : QuantumTask) (key_list : string) (cs : list Z)
    : option QuantumResult :=
  match QuantumTask.circuit_files task with
  | [] => None
  | circuit :: _ =>
      match gather (key_vec key_list) cs ∅ with
      | None => None
      | Some m =>
          Some (QuantumResult.mk (QuantumTask.task_id task) [mkCircuitResult m] "" false
                  "" [circuit] "" (S754_zero false))
      end
  end.

(** ** The job *)

Section Submitter.
Context {B : Type} `{QdmiClient B} (NDEBUG : bool).

Definition assert_success (ret : Z) : Prog B unit := assert NDEBUG (ret =? QDMI_SUCCESS).

(** [std::string(size - 1, NUL)]: with [std::size_t], [0 - 1] is longer than any
    string can be. *)
Definition text_buffer (size : Z) : Prog B nat :=
  if size =? 0 then throw "basic_string::_M_create" else mret (Z.to_nat (size - 1)).

Definition PrintDeviceName (device : option Device) : Prog B unit :=
  call (device_query_name_size device) ≫= λ '(ret, namesSize),
  assert_success ret ≫= λ _,
  text_buffer namesSize ≫= λ _,
  call (device_query_name device namesSize) ≫= λ '(ret, _),
  assert_success ret.

(** [devices[1]] on the vector of handles the session reports. *)
Definition select_device (session : option Session) : Prog B (option Device) :=
  call (session_query_devices_size session) ≫= λ size,
  call (session_query_devices session size) ≫= λ written,
  match resize (Z.to_nat (size / 8)) None (Some <$> written) !! 1%nat with
  | Some device => mret device
  | None => undefined
  end.

Definition set_parameters (job : option Job) (circuit : string) (num_shots : Z) : Prog B unit :=
  call (job_set_parameter job PROGRAMFORMAT_QASM2) ≫= λ ret,
  assert_success ret ≫= λ _,
  call (job_set_parameter job (PROGRAM circuit)) ≫= λ ret,
  assert_success ret ≫= λ _,
  if 0 <? num_shots then
    call (job_set_parameter job (SHOTSNUM 8 num_shots)) ≫= λ ret, assert_success ret
  else mret tt.

Definition run (job : option Job) : Prog B unit :=
  call (job_submit job) ≫= λ ret,
  assert_success ret ≫= λ _,
  call (job_wait job 0) ≫= λ ret,
  assert_success ret ≫= λ _,
  call (job_check job) ≫= λ ret,
  assert_success ret.

Definition get_keys (job : option Job) : Prog B string :=
  call (job_get_results_size job HIST_KEYS) ≫= λ '(ret, result_size),
  assert_success ret ≫= λ _,
  text_buffer result_size ≫= λ length,
  call (job_get_keys job result_size) ≫= λ '(ret, key_list),
  assert_success ret ≫= λ _,
  mret (fit length key_list).

Definition get_values (job : option Job) : Prog B (list Z) :=
  call (job_get_results_size job HIST_VALUES) ≫= λ '(ret, val_size),
  assert_success ret ≫= λ _,
  let type := Z.to_nat (val_size / 8) in
  call (job_get_values job val_size) ≫= λ '(ret, counts),
  assert_success ret ≫= λ _,
  mret (resize type 0 counts).

(** The part of the call after the job was created, up to the results. *)
Definition job_results (job : option Job) (circuit : string) (num_shots : Z)
    : Prog B (string * list Z) :=
  set_parameters job circuit num_shots ≫= λ _,
  run job ≫= λ _,
  get_keys job ≫= λ key_list,
  get_values job ≫= λ counts,
  mret (key_list, counts).

(** The job for the first circuit, and the release of the job and the session. *)
Definition submit_circuit (session : option Session) (device : option Device)
    (task : QuantumTask) : Prog B QuantumResult :=
  match QuantumTask.circuit_files task with
  | [] => undefined                                      (* element 0 *)
  | circuit :: _ =>
      call (device_create_job device) ≫= λ '(ret, job),
      assert_success ret ≫= λ _,
      job_results job circuit (QuantumTask.n_shots task) ≫= λ '(key_list, counts),
      match make_result task key_list counts with
      | None => undefined                                (* past the end of counts *)
      | Some result =>
          effect (job_free job) ≫= λ _,
          effect (session_free session) ≫= λ _,
          mret result
      end
  end.

Definition createAndSubmitQDMIJobToQDMIDevice (task : QuantumTask) : Prog B QuantumResult :=
  call session_alloc ≫= λ session,
  effect (session_init session) ≫= λ _,
  select_device session ≫= λ device,
  PrintDeviceName device ≫= λ _,
  submit_circuit session device task.
End Submitter.

(** ** Documented behaviour of the library

    A session is allocated, then initialised, and only then asked for its
    devices; a job is created for a device of such a session, its parameters are
    set, it is submitted, waited for, and has results once it has finished.
    Each call is given a law for the state it is documented to be made in, and
    for no other. *)

Inductive SessionState := SessionAllocated | SessionInitialized.
Inductive JobState := JobCreated | JobSubmitted | JobFinished.

(** A parameter of a job as the library has read it. *)
Inductive Setting := SetFormat | SetProgram (text : string) | SetShots (shots : Z).

(** What the library knows of a job. *)
Record JobView (Session Machine : Type) := mkJob {
  job_session : Session; job_machine : Machine; job_settings : list Setting; job_state : JobState }.
Arguments mkJob {Session Machine}.
Arguments job_session {Session Machine}.
Arguments job_machine {Session Machine}.
Arguments job_settings {Session Machine}.
Arguments job_state {Session Machine}.

(** The program and the number of shots of a job that can be submitted. *)
Definition program_of (ps : list Setting) : option (string * option Z) :=
  match ps with
  | [SetFormat; SetProgram text] => Some (text, None)
  | [SetFormat; SetProgram text; SetShots shots] => Some (text, Some shots)
  | _ => None
  end.

(** A [size_t] whose first four bytes are the [int] [n]. *)
Definition read_as (n shots : Z) : Prop := is_uint64 shots ∧ to_int32 shots = n.

(** [m] returns [a] from [b], in a world that satisfies [P]. *)
Definition returns {B A} (m : Prog B A) (b : B) (a : A) (P : B → Prop) : Prop :=
  ∃ b', m b = (Returned a, b') ∧ P b'.

(** [machines]: the devices the library offers; each session has handles of its
    own for them.  [accepts]: which parameters a device takes; [completes]: which
    programs, with which number of shots, it brings to an end, and [execute] the
    histogram then.  [reads_past]: whether the platform lets the library read the
    four bytes behind an [int], as the program makes it do for the number of
    shots; C++ promises nothing of the kind, and what is read there is unknown. *)
Class QdmiLaws (B : Type) `{QdmiClient B} := {
  session_eq_dec :: EqDecision Session;
  job_eq_dec :: EqDecision Job;
  Machine : Type;
  machines : list Machine;
  handle : Session → Machine → Device;
  machine_name : Machine → string;
  accepts : Machine → Setting → Prop;
  completes : Machine → string → option Z → Prop;
  execute : Machine → string → option Z → string * list Z;
  reads_past : Prop;
  jobs : B → Job → option (JobView Session Machine);
  sessions : B → Session → option SessionState;
  same (b b' : B) : Prop :=
    (∀ i, jobs b' i = jobs b i) ∧ (∀ i, sessions b' i = sessions b i);
  updated (j : Job) (v : option (JobView Session Machine)) (b b' : B) : Prop :=
    (∀ i, jobs b' i = if decide (i = j) then v else jobs b i) ∧
    (∀ i, sessions b' i = sessions b i);
  session_updated (s : Session) (v : option SessionState) (b b' : B) : Prop :=
    (∀ i, jobs b' i = jobs b i) ∧
    (∀ i, sessions b' i = if decide (i = s) then v else sessions b i);
  text_size (text : string) : Z := Z.of_nat (String.length text) + 1;
  (* a session that is not open, and without jobs *)
  session_alloc_ok b :
    ∃ s, sessions b s = None ∧ (∀ j v, jobs b j = Some v → job_session v ≠ s) ∧
      returns (call session_alloc) b (Some s) (session_updated s (Some SessionAllocated) b);
  session_init_ok s b :
    sessions b s = Some SessionAllocated →
    session_updated s (Some SessionInitialized) b (session_init (Some s) b);
  query_devices_size_ok s b :
    sessions b s = Some SessionInitialized →
    returns (call (session_query_devices_size (Some s))) b (8 * Z.of_nat (length machines)) (same b);
  query_devices_ok s b :
    sessions b s = Some SessionInitialized →
    returns (call (session_query_devices (Some s) (8 * Z.of_nat (length machines)))) b
      (handle s <$> machines) (same b);
  query_name_size_ok s m b :
    sessions b s = Some SessionInitialized → m ∈ machines →
    returns (call (device_query_name_size (Some (handle s m)))) b
      (QDMI_SUCCESS, text_size (machine_name m)) (same b);
  query_name_ok s m b :
    sessions b s = Some SessionInitialized → m ∈ machines →
    returns (call (device_query_name (Some (handle s m)) (text_size (machine_name m)))) b
      (QDMI_SUCCESS, machine_name m) (same b);
  create_job_ok s m b :
    sessions b s = Some SessionInitialized → m ∈ machines →
    ∃ j, jobs b j = None ∧
      returns (call (device_create_job (Some (handle s m)))) b (QDMI_SUCCESS, Some j)
        (updated j (Some (mkJob s m [] JobCreated)) b);
  set_format_ok j s m ps b :
    jobs b j = Some (mkJob s m ps JobCreated) → accepts m SetFormat →
    returns (call (job_set_parameter (Some j) PROGRAMFORMAT_QASM2)) b QDMI_SUCCESS
      (updated j (Some (mkJob s m (ps ++ [SetFormat]) JobCreated)) b);
  set_program_ok j text s m ps b :
    jobs b j = Some (mkJob s m ps JobCreated) → accepts m (SetProgram text) →
    returns (call (job_set_parameter (Some j) (PROGRAM text))) b QDMI_SUCCESS
      (updated j (Some (mkJob s m (ps ++ [SetProgram text]) JobCreated)) b);
  (* eight bytes are read where an [int] is *)
  set_shots_ok j n s m ps b :
    reads_past → 0 < n < 2147483648 → jobs b j = Some (mkJob s m ps JobCreated) →
    (∀ shots, read_as n shots → accepts m (SetShots shots)) →
    ∃ shots, read_as n shots ∧
      returns (call (job_set_parameter (Some j) (SHOTSNUM 8 n))) b QDMI_SUCCESS
        (updated j (Some (mkJob s m (ps ++ [SetShots shots]) JobCreated)) b);
  submit_ok j s m ps prog b :
    jobs b j = Some (mkJob s m ps JobCreated) → program_of ps = Some prog →
    returns (call (job_submit (Some j))) b QDMI_SUCCESS
      (updated j (Some (mkJob s m ps JobSubmitted)) b);
  (* a timeout of 0 is none *)
  wait_ok j s m ps text shots b :
    jobs b j = Some (mkJob s m ps JobSubmitted) → program_of ps = Some (text, shots) →
    completes m text shots →
    returns (call (job_wait (Some j) 0)) b QDMI_SUCCESS
      (updated j (Some (mkJob s m ps JobFinished)) b);
  check_ok j v b :
    jobs b j = Some v → returns (call (job_check (Some j))) b QDMI_SUCCESS (same b);
  keys_size_ok j s m ps text shots b :
    jobs b j = Some (mkJob s m ps JobFinished) → program_of ps = Some (text, shots) →
    returns (call (job_get_results_size (Some j) HIST_KEYS)) b
      (QDMI_SUCCESS, text_size (execute m text shots).1) (same b);
  keys_ok j s m ps text shots b :
    jobs b j = Some (mkJob s m ps JobFinished) → program_of ps = Some (text, shots) →
    returns (call (job_get_keys (Some j) (text_size (execute m text shots).1))) b
      (QDMI_SUCCESS, (execute m text shots).1) (same b);
  values_size_ok j s m ps text shots b :
    jobs b j = Some (mkJob s m ps JobFinished) → program_of ps = Some (text, shots) →
    returns (call (job_get_results_size (Some j) HIST_VALUES)) b
      (QDMI_SUCCESS, 8 * Z.of_nat (length (execute m text shots).2)) (same b);
  values_ok j s m ps text shots b :
    jobs b j = Some (mkJob s m ps JobFinished) → program_of ps = Some (text, shots) →
    returns (call (job_get_values (Some j) (8 * Z.of_nat (length (execute m text shots).2)))) b
      (QDMI_SUCCESS, (execute m text shots).2) (same b);
  job_free_ok j v b : jobs b j = Some v → updated j None b (job_free (Some j) b);
  (* a session without jobs *)
  session_free_ok s b :
    sessions b s = Some SessionInitialized →
    (∀ j v, jobs b j = Some v → job_session v ≠ s) →
    session_updated s None b (session_free (Some s) b);
}.

(** ** Facts: the histogram *)

Lemma gather_length keys cs m : is_Some (gather keys cs m) ↔ (length keys <= length cs)%nat.
Proof.
  revert cs m. induction keys as [|k keys IH]; intros cs m; simpl.
  - split; [lia|eauto].
  - destruct cs as [|c cs]; simpl.
    + split; [by intros [? [=]]|lia].
    + rewrite IH. lia.
Qed.

Lemma gather_lookup_other keys cs m m' k :
  gather keys cs m = Some m' → k ∉ keys → m' !! k = m !! k.
Proof.
  revert cs m. induction keys as [|k' keys IH]; intros cs m; simpl; [by intros [= ->]|].
  destruct cs as [|c cs]; [done|]. intros Hg [Hne Hk]%not_elem_of_cons.
  rewrite (IH _ _ Hg Hk). by rewrite lookup_insert_ne.
Qed.

(** The counts of a job: collecting them is defined exactly when there are at
    least as many counts as keys (with fewer, the loop reads past the end), and
    for distinct keys each key gets the count at its own position, narrowed to
    the [int32] of the message. *)
Theorem gather_spec keys cs :
  (is_Some (gather keys cs ∅) ↔ (length keys <= length cs)%nat) ∧
  ∀ m, NoDup keys → gather keys cs ∅ = Some m →
    (∀ i k c, keys !! i = Some k → cs !! i = Some c → m !! k = Some (to_int32 c)) ∧
    (∀ k, k ∉ keys → m !! k = None).
Proof.
  split; [apply gather_length|]. intros m Hnd Hg. split.
  - revert cs Hg. generalize (∅ : gmap string Z).
    induction Hnd as [|k keys Hk Hnd IH]; intros m0 cs Hg i k' c Hi Hc; [done|].
    destruct cs as [|c0 cs]; [done|]. simpl in Hg. destruct i as [|i]; simplify_eq/=.
    + rewrite (gather_lookup_other _ _ _ _ _ Hg Hk). by rewrite lookup_insert_eq.
    + by eapply IH.
  - intros k Hk. by rewrite (gather_lookup_other _ _ _ _ _ Hg Hk).
Qed.

Lemma gather_spec_witness :
  ∃ m, gather (key_vec "00,11") [512; 4294967297] ∅ = Some m ∧ m !! "11" = Some 1.
Proof.
  eexists. split; [reflexivity|].
  apply (proj1 (proj2 (gather_spec (key_vec "00,11") [512; 4294967297]) _
    ltac:(apply (bool_decide_unpack _); vm_compute; exact I) eq_refl) 1%nat _ 4294967297);
    reflexivity.
Defined.

(** ** Facts: the job *)

Section Facts.
Context {B : Type} `{QdmiLaws B} (NDEBUG : bool).

Lemma returns_bind {A C} (m : Prog B A) (k : A → Prog B C) b a c P Q :
  returns m b a P → (∀ b', P b' → returns (k a) b' c Q) → returns (m ≫= k) b c Q.
Proof.
  intros (b1 & Hm & HP) Hk. destruct (Hk b1 HP) as (b2 & Hc & HQ).
  exists b2. by rewrite (bind_returned _ _ _ _ _ Hm).
Qed.

Lemma returns_ret {A} (a : A) b (P : B → Prop) : P b → returns (mret a) b a P.
Proof. by exists b. Qed.

Lemma returns_success b (P : B → Prop) :
  P b → returns (assert_success NDEBUG QDMI_SUCCESS) b tt P.
Proof. intros. exists b. by rewrite <-(assert_true NDEBUG b). Qed.

Lemma success_bind {C} (k : () → Prog B C) b c P :
  returns (k tt) b c P → returns (assert_success NDEBUG QDMI_SUCCESS ≫= k) b c P.
Proof.
  intros (b' & Hk & HP). exists b'. split; [|done].
  by rewrite (bind_returned _ _ _ _ _ (assert_true NDEBUG b)).
Qed.

Lemma text_buffer_bind {C} n (k : nat → Prog B C) b c P :
  returns (k n) b c P → returns (text_buffer (Z.of_nat n + 1) ≫= k) b c P.
Proof.
  intros (b' & Hk & HP). exists b'. split; [|done]. unfold text_buffer. rewrite (proj2 (Z.eqb_neq _ _)) by lia.
  by replace (Z.to_nat (Z.of_nat n + 1 - 1)) with n by lia.
Qed.

Lemma effect_bind {C} f (k : () → Prog B C) b c P :
  returns (k tt) (f b) c P → returns (effect f ≫= k) b c P.
Proof. done. Qed.

Lemma same_trans b1 b2 b3 : same b1 b2 → same b2 b3 → same b1 b3.
Proof. intros [J1 S1] [J2 S2]. split; intros i; [by rewrite J2, J1|by rewrite S2, S1]. Qed.

Lemma updated_at j v b b' : updated j v b b' → jobs b' j = v.
Proof. intros [J _]. by rewrite J, decide_True. Qed.

Lemma updated_trans j v v' b1 b2 b3 :
  updated j v b1 b2 → updated j v' b2 b3 → updated j v' b1 b3.
Proof.
  intros [J1 S1] [J2 S2]. split; intros i; [|by rewrite S2, S1]. rewrite J2, J1. by case_decide.
Qed.

Lemma updated_same j v b1 b2 b3 : updated j v b1 b2 → same b2 b3 → updated j v b1 b3.
Proof. intros [J1 S1] [J2 S2]. split; intros i; [by rewrite J2, J1|by rewrite S2, S1]. Qed.

(** One step of a computation: apply a law to its first call. *)
Ltac step law := eapply returns_bind; [apply law|]; cbv beta.
Ltac ok := apply success_bind.

(** The vector of handles has room for all of them. *)
Lemma handles_fit s :
  resize (Z.to_nat (8 * Z.of_nat (length machines) / 8)) None (Some <$> (handle s <$> machines)) =
  (Some ∘ handle s) <$> machines.
Proof.
  rewrite (Z.mul_comm 8), Z.div_mul, Nat2Z.id, <- list_fmap_compose by lia.
  apply resize_all_alt. by rewrite length_fmap.
Qed.

Lemma select_device_ok s m b :
  sessions b s = Some SessionInitialized → machines !! 1%nat = Some m →
  returns (select_device (Some s)) b (Some (handle s m)) (same b).
Proof.
  intros Hs Hm. unfold select_device. step (query_devices_size_ok s b Hs). intros b1 S1.
  rewrite <- (proj2 S1) in Hs. step (query_devices_ok s b1 Hs). intros b2 S2.
  rewrite handles_fit, list_lookup_fmap, Hm. simpl.
  apply returns_ret. by eapply same_trans.
Qed.

Lemma PrintDeviceName_ok s m b :
  sessions b s = Some SessionInitialized → m ∈ machines →
  returns (PrintDeviceName NDEBUG (Some (handle s m))) b tt (same b).
Proof.
  intros Hs Hm. unfold PrintDeviceName. step (query_name_size_ok s m b Hs Hm). intros b1 S1. ok.
  apply text_buffer_bind. rewrite <- (proj2 S1) in Hs. step (query_name_ok s m b1 Hs Hm).
  intros b2 S2. apply returns_success. by eapply same_trans.
Qed.

(** The number of shots the library gets to see: none is set unless the task has
    some, and then it is a [size_t] read where an [int] is. *)
Definition shots_given (n : Z) (shots : option Z) : Prop :=
  match shots with None => n <= 0 | Some k => 0 < n ∧ read_as n k end.

(** The device takes the job and brings it to its end. *)
Definition able (m : Machine) (circuit : string) (n : Z) : Prop :=
  (0 < n → reads_past ∧ n < 2147483648) ∧
  accepts m SetFormat ∧ accepts m (SetProgram circuit) ∧
  ∀ shots, shots_given n shots →
    completes m circuit shots ∧ ∀ k, shots = Some k → accepts m (SetShots k).

Lemma set_parameters_ok j s m circuit n b :
  able m circuit n → jobs b j = Some (mkJob s m [] JobCreated) →
  ∃ shots ps, shots_given n shots ∧ program_of ps = Some (circuit, shots) ∧
    returns (set_parameters NDEBUG (Some j) circuit n) b tt
      (updated j (Some (mkJob s m ps JobCreated)) b).
Proof.
  intros (Hplat & Hfmt & Hprog & Hable) Hj.
  destruct (set_format_ok j s m _ b Hj Hfmt) as (b1 & Hc1 & U1).
  destruct (set_program_ok j circuit s m _ b1 (updated_at _ _ _ _ U1) Hprog) as (b2 & Hc2 & U2).
  assert (∀ shots ps, returns (if 0 <? n then call (job_set_parameter (Some j) (SHOTSNUM 8 n))
        ≫= assert_success NDEBUG else mret tt) b2 tt
      (updated j (Some (mkJob s m ps JobCreated)) b2) →
    shots_given n shots → program_of ps = Some (circuit, shots) →
    ∃ shots ps, shots_given n shots ∧ program_of ps = Some (circuit, shots) ∧
      returns (set_parameters NDEBUG (Some j) circuit n) b tt
        (updated j (Some (mkJob s m ps JobCreated)) b)) as Hrest.
  { intros shots ps (b3 & Hr & U3) Hg Hp. exists shots, ps. split_and!; [done..|].
    exists b3. split; [|eapply updated_trans; [|exact U3]; by eapply updated_trans].
    unfold set_parameters. rewrite (bind_returned _ _ _ _ _ Hc1). cbv beta.
    rewrite (bind_returned _ _ _ _ _ (assert_true NDEBUG b1)).
    rewrite (bind_returned _ _ _ _ _ Hc2). cbv beta.
    by rewrite (bind_returned _ _ _ _ _ (assert_true NDEBUG b2)). }
  destruct (Z.ltb_spec 0 n) as [Hn|Hn].
  - destruct (Hplat Hn) as [Hpast Hint].
    destruct (set_shots_ok j n s m _ b2 Hpast (conj Hn Hint) (updated_at _ _ _ _ U2))
      as (shots & Hread & b3 & Hc3 & U3).
    { intros k Hk. by apply (Hable (Some k) (conj Hn Hk)). }
    apply (Hrest (Some shots) [SetFormat; SetProgram circuit; SetShots shots]); [|done|done].
    exists b3. split; [|exact U3]. rewrite (bind_returned _ _ _ _ _ Hc3).
    by rewrite <- (assert_true NDEBUG b3).
  - apply (Hrest None [SetFormat; SetProgram circuit]); [|done|done]. exists b2. split; [done|].
    destruct U2 as [J2 S2]. split; intros i; [|done]. case_decide; [subst|done].
    by rewrite J2, decide_True.
Qed.

Lemma run_ok j s m ps text shots b :
  jobs b j = Some (mkJob s m ps JobCreated) → program_of ps = Some (text, shots) →
  completes m text shots →
  returns (run NDEBUG (Some j)) b tt (updated j (Some (mkJob s m ps JobFinished)) b).
Proof.
  intros Hj Hp Hr. unfold run. step (submit_ok j s m ps _ b Hj Hp). intros b1 U1. ok.
  step (wait_ok j s m ps text shots b1 (updated_at _ _ _ _ U1) Hp Hr). intros b2 U2. ok.
  step (check_ok j _ b2 (updated_at _ _ _ _ U2)). intros b3 S3. apply returns_success.
  eapply updated_same; [|done]. by eapply updated_trans.
Qed.

Lemma get_keys_ok j s m ps text shots b :
  jobs b j = Some (mkJob s m ps JobFinished) → program_of ps = Some (text, shots) →
  returns (get_keys NDEBUG (Some j)) b (execute m text shots).1 (same b).
Proof.
  intros Hj Hp. unfold get_keys. step (keys_size_ok j s m ps text shots b Hj Hp). intros b1 S1. ok.
  apply text_buffer_bind. rewrite <-(proj1 S1) in Hj. step (keys_ok j s m ps text shots b1 Hj Hp).
  intros b2 S2. ok. rewrite fit_id. apply returns_ret. by eapply same_trans.
Qed.

Lemma get_values_ok j s m ps text shots b :
  jobs b j = Some (mkJob s m ps JobFinished) → program_of ps = Some (text, shots) →
  returns (get_values NDEBUG (Some j)) b (execute m text shots).2 (same b).
Proof.
  intros Hj Hp. unfold get_values. step (values_size_ok j s m ps text shots b Hj Hp).
  intros b1 S1. ok. rewrite <-(proj1 S1) in Hj. step (values_ok j s m ps text shots b1 Hj Hp).
  intros b2 S2. ok. rewrite (Z.mul_comm 8), Z.div_mul, Nat2Z.id, resize_all by lia.
  apply returns_ret. by eapply same_trans.
Qed.

(** [m] runs into undefined behaviour from [b]. *)
Definition runs_undefined {A} (m : Prog B A) (b : B) : Prop := ∃ b', m b = (Undefined, b').

Lemma returns_undefined {A C} (m : Prog B A) (k : A → Prog B C) b a P :
  returns m b a P → (∀ b', P b' → runs_undefined (k a) b') → runs_undefined (m ≫= k) b.
Proof.
  intros (b1 & Hm & HP) Hk. destruct (Hk b1 HP) as (b2 & Hu).
  exists b2. by rewrite (bind_returned _ _ _ _ _ Hm).
Qed.

Lemma undefined_bind {A C} (m : Prog B A) (k : A → Prog B C) b :
  runs_undefined m b → runs_undefined (m ≫= k) b.
Proof. intros [b' Hm]. exists b'. by apply bind_undefined. Qed.

Lemma select_device_undefined s b :
  sessions b s = Some SessionInitialized → machines !! 1%nat = None →
  runs_undefined (select_device (Some s)) b.
Proof.
  intros Hs Hm. unfold select_device.
  eapply returns_undefined; [by apply query_devices_size_ok|]. intros b1 S1. cbv beta.
  rewrite <- (proj2 S1) in Hs.
  eapply returns_undefined; [by apply query_devices_ok|]. intros b2 _. cbv beta.
  rewrite handles_fit, list_lookup_fmap, Hm. by exists b2.
Qed.

Lemma job_results_ok j s m circuit n b :
  able m circuit n → jobs b j = Some (mkJob s m [] JobCreated) →
  ∃ shots ps, shots_given n shots ∧
    returns (job_results NDEBUG (Some j) circuit n) b (execute m circuit shots)
      (updated j (Some (mkJob s m ps JobFinished)) b).
Proof.
  intros Ha Hj. destruct (set_parameters_ok j s m circuit n b Ha Hj) as (shots & ps & Hg & Hp & Hset).
  exists shots, ps. split; [done|]. unfold job_results.
  eapply returns_bind; [exact Hset|]. intros b1 U1. cbv beta.
  pose proof (proj1 (proj2 (proj2 (proj2 Ha)) shots Hg)) as Hruns.
  step (run_ok j s m ps circuit shots b1 (updated_at _ _ _ _ U1) Hp Hruns). intros b2 U2.
  pose proof (updated_at _ _ _ _ U2) as Hj2.
  step (get_keys_ok _ _ _ _ _ _ _ Hj2 Hp). intros b3 S3. rewrite <-(proj1 S3) in Hj2.
  step (get_values_ok _ _ _ _ _ _ _ Hj2 Hp). intros b4 S4.
  rewrite <-surjective_pairing. apply returns_ret.
  eapply updated_same; [by eapply updated_trans|]. by eapply same_trans.
Qed.

(** The result of a task with the counts [m]. *)
Definition result_of (task : QuantumTask) (circuit : string) (m : gmap string Z)
    : QuantumResult :=
  QuantumResult.mk (QuantumTask.task_id task) [mkCircuitResult m] "" false "" [circuit] ""
    (S754_zero false).

Lemma make_result_eq task circuit rest keys cs :
  QuantumTask.circuit_files task = circuit :: rest →
  make_result task keys cs = result_of task circuit <$> gather (key_vec keys) cs ∅.
Proof. intros Hc. unfold make_result. rewrite Hc. by destruct (gather _ _ _). Qed.

(** The session's and the job's lives are over, nothing else has changed: the
    session freed has no job left. *)
Lemma release_ok j s v b b1 b2 :
  sessions b s = None → (∀ j v, jobs b j = Some v → job_session v ≠ s) →
  session_updated s (Some SessionInitialized) b b1 → jobs b1 j = None → updated j (Some v) b1 b2 →
  same b (session_free (Some s) (job_free (Some j) b2)).
Proof.
  intros Hnone Hnew [J1 S1] Hj U2.
  destruct (job_free_ok j v b2 (updated_at _ _ _ _ U2)) as [J3 S3]. destruct U2 as [J2 S2].
  assert (∀ i, jobs (job_free (Some j) b2) i = jobs b i) as J.
  { intros i. rewrite J3, J2. case_decide; [subst; by rewrite <- J1|apply J1]. }
  assert (∀ i, sessions (job_free (Some j) b2) i = sessions b1 i) as HS
    by (intros i; by rewrite S3, S2).
  destruct (session_free_ok s (job_free (Some j) b2)) as [J4 S4].
  - by rewrite HS, S1, decide_True.
  - intros i w. rewrite J. apply Hnew.
  - split; intros i; [by rewrite J4|]. rewrite S4, HS, S1. case_decide; [by subst|done].
Qed.

(** The calls up to the choice of a device. *)
Lemma session_ok b :
  ∃ s b1, sessions b s = None ∧ (∀ j v, jobs b j = Some v → job_session v ≠ s) ∧
    session_updated s (Some SessionInitialized) b b1 ∧
    ∀ task, createAndSubmitQDMIJobToQDMIDevice NDEBUG task b =
      (select_device (Some s) ≫= λ device, PrintDeviceName NDEBUG device ≫= λ _,
       submit_circuit NDEBUG (Some s) device task) b1.
Proof.
  destruct (session_alloc_ok b) as (s & Hnone & Hnew & b1 & Ha & J1 & S1).
  destruct (session_init_ok s b1) as [J2 S2]; [by rewrite S1, decide_True|].
  exists s, (session_init (Some s) b1). split; [done|]. split; [done|]. split.
  - split; intros i; [by rewrite J2, J1|]. rewrite S2, S1. by case_decide.
  - intros task. unfold createAndSubmitQDMIJobToQDMIDevice.
    by rewrite (bind_returned _ _ _ _ _ Ha).
Qed.

(** The device and the job of a task can do what it asks for. *)
Definition workable (task : QuantumTask) : Prop :=
  ∀ m circuit, machines !! 1%nat = Some m → head (QuantumTask.circuit_files task) = Some circuit →
    able m circuit (QuantumTask.n_shots task).

Lemma submit_job_cases task b :
  workable task →
  match machines !! 1%nat, QuantumTask.circuit_files task with
  | Some m, circuit :: _ =>
      ∃ shots, shots_given (QuantumTask.n_shots task) shots ∧
      match gather (key_vec (execute m circuit shots).1) (execute m circuit shots).2 ∅ with
      | Some counts => returns (createAndSubmitQDMIJobToQDMIDevice NDEBUG task) b
                         (result_of task circuit counts) (same b)
      | None => runs_undefined (createAndSubmitQDMIJobToQDMIDevice NDEBUG task) b
      end
  | _, _ => runs_undefined (createAndSubmitQDMIJobToQDMIDevice NDEBUG task) b
  end.
Proof.
  intros Hwork. destruct (session_ok b) as (s & b1 & Hnone & Hnew & U1 & Heq).
  unfold returns, runs_undefined. rewrite !Heq. clear Heq.
  assert (sessions b1 s = Some SessionInitialized) as Hs by (by rewrite (proj2 U1), decide_True).
  destruct (machines !! 1%nat) as [m|] eqn:Hm;
    [|by apply undefined_bind, select_device_undefined].
  destruct (select_device_ok s m b1 Hs Hm) as (b2 & Hsel & J2 & S2).
  rewrite (bind_returned _ _ _ _ _ Hsel). rewrite <- S2 in Hs.
  pose proof (list_elem_of_lookup_2 _ _ _ Hm) as Hin.
  destruct (PrintDeviceName_ok s m b2 Hs Hin) as (b3 & Hp & J3 & S3).
  rewrite (bind_returned _ _ _ _ _ Hp). rewrite <- S3 in Hs. unfold submit_circuit.
  destruct (QuantumTask.circuit_files task) as [|circuit rest] eqn:Hc; [by exists b3|].
  destruct (create_job_ok s m b3 Hs Hin) as (j & Hj & b4 & Hcr & U4).
  rewrite (bind_returned _ _ _ _ _ Hcr). cbn beta iota.
  rewrite (bind_returned _ _ _ _ _ (assert_true NDEBUG b4)).
  destruct (job_results_ok j s m circuit (QuantumTask.n_shots task) b4) as
    (shots & ps & Hg & b5 & Hr & U5); [apply Hwork; by rewrite ?Hc|by eapply updated_at|].
  exists shots. split; [done|]. rewrite (bind_returned _ _ _ _ _ Hr).
  destruct (execute m circuit shots) as [keys cs]. cbn [fst snd].
  rewrite (make_result_eq _ _ _ _ _ Hc).
  destruct (gather (key_vec keys) cs ∅) as [g|]; [|by exists b5]. simpl.
  eexists. split; [reflexivity|]. eapply (release_ok j s); [done|exact Hnew| |exact Hj|by eapply updated_trans].
  destruct U1 as [J1 S1]. split; intros i; [by rewrite J3, J2, J1|by rewrite S3, S2, S1].
Qed.

(** The case of a device and a circuit. *)
Lemma submit_job_ok task m circuit rest b :
  machines !! 1%nat = Some m → QuantumTask.circuit_files task = circuit :: rest →
  able m circuit (QuantumTask.n_shots task) →
  ∃ shots, shots_given (QuantumTask.n_shots task) shots ∧
    ∀ counts, gather (key_vec (execute m circuit shots).1) (execute m circuit shots).2 ∅ = Some counts →
      returns (createAndSubmitQDMIJobToQDMIDevice NDEBUG task) b (result_of task circuit counts) (same b).
Proof.
  intros Hm Hc Ha.
  assert (workable task) as Hw by (intros m' c; rewrite Hm, Hc; by intros [= <-] [= <-]).
  pose proof (submit_job_cases task b Hw) as Hs. rewrite Hm, Hc in Hs.
  destruct Hs as (shots & Hg & Hs). exists shots. split; [done|]. intros counts Hcounts.
  by rewrite Hcounts in Hs.
Qed.

End Facts.

(** ** A concrete device library

    Two devices that give every program the same histogram, for sessions and
    jobs that are in the right state; other calls fail. *)

Module LocalQdmi.
Notation View := (JobView nat nat).
Record Library := mkLibrary { table : gmap nat View; open_sessions : gmap nat SessionState }.

Definition with_table (b : Library) (jobs : gmap nat View) : Library :=
  mkLibrary jobs (open_sessions b).
Definition with_sessions (b : Library) (sessions : gmap nat SessionState) : Library :=
  mkLibrary (table b) sessions.

(** A call on a job, which may not be possible in its state. *)
Definition on_job (f : View → option View) (job : option nat) (b : Library) : Z * Library :=
  match job with
  | None => (-1, b)
  | Some j =>
      match table b !! j ≫= f with
      | None => (-1, b)
      | Some v => (QDMI_SUCCESS, with_table b (<[j := v]> (table b)))
      end
  end.

Definition add_setting (p : Setting) (v : View) : option View :=
  match job_state v with
  | JobCreated => Some (mkJob (job_session v) (job_machine v) (job_settings v ++ [p]) JobCreated)
  | _ => None
  end.
Definition submit (v : View) : option View :=
  match job_state v, program_of (job_settings v) with
  | JobCreated, Some _ => Some (mkJob (job_session v) (job_machine v) (job_settings v) JobSubmitted)
  | _, _ => None
  end.
Definition wait (v : View) : option View :=
  match job_state v with
  | JobCreated => None
  | _ => Some (mkJob (job_session v) (job_machine v) (job_settings v) JobFinished)
  end.

Definition initialized (s : nat) (b : Library) : bool :=
  match open_sessions b !! s with Some SessionInitialized => true | _ => false end.

(** What a job that has finished gives. *)
Definition result {A} (x : A) (default : A) (job : option nat) (b : Library) : (Z * A) * Library :=
  (match job ≫= λ j, table b !! j with
   | Some (mkJob _ _ _ JobFinished) => (QDMI_SUCCESS, x)
   | _ => (-1, default)
   end, b).

Definition histogram : string * list Z := ("00,11", [497; 527]).

Definition new_session (b : Library) : nat :=
  fresh (dom (open_sessions b) ∪ list_to_set (job_session <$> (map_to_list (table b)).*2) : gset nat).

#[export] Instance client : QdmiClient Library := {
  Session := nat;
  Device := nat * nat;
  Job := nat;
  session_alloc b :=
    let s := new_session b in
    (Some s, with_sessions b (<[s := SessionAllocated]> (open_sessions b)));
  session_init s b :=
    match s with
    | Some s => with_sessions b (alter (λ _, SessionInitialized) s (open_sessions b))
    | None => b
    end;
  session_query_devices_size s b :=
    (match s with Some s => if initialized s b then 16 else 0 | None => 0 end, b);
  session_query_devices s size b :=
    (match s with Some s => if initialized s b then [(s, 0%nat); (s, 1%nat)] else [] | None => [] end, b);
  device_query_name_size d b := ((QDMI_SUCCESS, 7), b);
  device_query_name d size b := ((QDMI_SUCCESS, "device"), b);
  device_create_job d b :=
    match d with
    | Some (s, m) =>
        if initialized s b then
          let j := fresh (dom (table b)) in
          ((QDMI_SUCCESS, Some j), with_table b (<[j := mkJob s m [] JobCreated]> (table b)))
        else ((-1, None), b)
    | None => ((-1, None), b)
    end;
  job_set_parameter job p :=
    on_job (add_setting match p with
                        | PROGRAMFORMAT_QASM2 => SetFormat
                        | PROGRAM text => SetProgram text
                        | SHOTSNUM _ shots => SetShots shots    (* zeros behind it *)
                        end) job;
  job_submit := on_job submit;
  job_wait job timeout := on_job wait job;
  job_check := on_job Some;
  job_get_results_size job r :=
    result (match r with HIST_KEYS => 6 | HIST_VALUES => 16 end) 0 job;
  job_get_keys job size := result histogram.1 "" job;
  job_get_values job size := result histogram.2 [] job;
  job_free job b :=
    match job with Some j => with_table b (delete j (table b)) | None => b end;
  session_free s b :=
    match s with Some s => with_sessions b (delete s (open_sessions b)) | None => b end;
}.

Lemma on_job_ok f j v v' (b : Library) :
  table b !! j = Some v → f v = Some v' →
  call (on_job f (Some j)) b = (Returned QDMI_SUCCESS, with_table b (<[j := v']> (table b))) ∧
  (∀ i, table (with_table b (<[j := v']> (table b))) !! i =
        if decide (i = j) then Some v' else table b !! i).
Proof.
  intros Hj Hf. split.
  - unfold call, on_job. by rewrite Hj; simpl; rewrite Hf.
  - intros i. simpl. case_decide as Hi; [subst i; by rewrite lookup_insert_eq|].
    by rewrite lookup_insert_ne.
Qed.

Lemma result_ok {A} (x d : A) j s m ps (b : Library) :
  table b !! j = Some (mkJob s m ps JobFinished) →
  call (result x d (Some j)) b = (Returned (QDMI_SUCCESS, x), b).
Proof. intros Hj. unfold call, result. simpl. by rewrite Hj. Qed.

Lemma initialized_ok s (b : Library) :
  open_sessions b !! s = Some SessionInitialized → initialized s b = true.
Proof. unfold initialized. by intros ->. Qed.

Lemma new_session_none (b : Library) :
  open_sessions b !! new_session b = None ∧
  ∀ j v, table b !! j = Some v → job_session v ≠ new_session b.
Proof.
  pose proof (is_fresh (dom (open_sessions b) ∪
    list_to_set (job_session <$> (map_to_list (table b)).*2) : gset nat)) as Hf.
  fold (new_session b) in Hf. apply not_elem_of_union in Hf as [Ho Hi].
  split; [by apply not_elem_of_dom|]. intros j v Hj Heq. apply Hi.
  rewrite elem_of_list_to_set, <- Heq. apply list_elem_of_fmap_2, list_elem_of_fmap.
  exists (j, v). split; [done|]. by apply elem_of_map_to_list.
Qed.

(** The law of a call [f] that makes the job [v]. *)
Ltac job_call f Hj v :=
  let Hc := fresh in let Hl := fresh in
  destruct (on_job_ok f _ _ v _ Hj) as [Hc Hl];
  [done|eexists; split; [exact Hc|by split]].

#[export] Instance client_laws : QdmiLaws Library.
Proof.
  refine {|
    session_eq_dec := _ : EqDecision nat;
    job_eq_dec := _ : EqDecision nat;
    Machine := nat;
    machines := [0%nat; 1%nat];
    handle s m := (s, m) : Device (B := Library);
    machine_name _ := "device";
    accepts _ _ := True;
    completes _ _ _ := True;
    execute _ _ _ := histogram;
    reads_past := True;
    jobs b j := table b !! (j : nat);
    sessions b s := open_sessions b !! (s : nat) |}.
  - intros b. destruct (new_session_none b) as [Hn Hj]. exists (new_session b).
    split_and!; [done..|]. eexists. split; [reflexivity|]. split; [done|]. intros i. simpl.
    case_decide as Hi; [subst i; by rewrite lookup_insert_eq|by rewrite lookup_insert_ne].
  - intros s b Hs. split; [done|]. intros i. simpl.
    case_decide as Hi; [subst i; by rewrite lookup_alter_eq, Hs|by rewrite lookup_alter_ne].
  - intros s b Hs. exists b. simpl. unfold call. by rewrite (initialized_ok s b Hs).
  - intros s b Hs. exists b. simpl. unfold call. by rewrite (initialized_ok s b Hs).
  - intros s m b _ _. exists b. by split.
  - intros s m b _ _. exists b. by split.
  - intros s m b Hs _. exists (fresh (dom (table b))). split.
    { apply not_elem_of_dom. apply is_fresh. }
    eexists. split; [simpl; unfold call; by rewrite (initialized_ok s b Hs)|].
    split; [|done]. intros i. simpl.
    case_decide as Hi; [subst i; by rewrite lookup_insert_eq|by rewrite lookup_insert_ne].
  - intros j s m ps b Hj _. by job_call (add_setting SetFormat) Hj (mkJob s m (ps ++ [SetFormat]) JobCreated).
  - intros j text s m ps b Hj _.
    by job_call (add_setting (SetProgram text)) Hj (mkJob s m (ps ++ [SetProgram text]) JobCreated).
  - intros j n s m ps b _ Hn Hj _. exists n. split; [split; wrap_lia|].
    by job_call (add_setting (SetShots n)) Hj (mkJob s m (ps ++ [SetShots n]) JobCreated).
  - intros j s m ps prog b Hj Hp. assert (submit (mkJob s m ps JobCreated) = Some (mkJob s m ps JobSubmitted))
      as Hs by (unfold submit; simpl; by rewrite Hp).
    by job_call submit Hj (mkJob s m ps JobSubmitted).
  - intros j s m ps text shots b Hj _ _. by job_call wait Hj (mkJob s m ps JobFinished).
  - intros j v b Hj. destruct (on_job_ok Some j v v b Hj eq_refl) as [Hc Hl].
    eexists. split; [exact Hc|]. split; [|done]. intros i. rewrite Hl. by case_decide; subst.
  - intros. eexists. split; [by eapply result_ok|done].
  - intros. eexists. split; [by eapply result_ok|done].
  - intros. eexists. split; [by eapply result_ok|done].
  - intros. eexists. split; [by eapply result_ok|done].
  - intros j v b _. split; [|done]. intros i. simpl.
    case_decide as Hi; [subst i; by rewrite lookup_delete_eq|by rewrite lookup_delete_ne].
  - intros s b _ _. split; [done|]. intros i. simpl.
    case_decide as Hi; [subst i; by rewrite lookup_delete_eq|by rewrite lookup_delete_ne].
Defined.

(** Its devices can do everything. *)
Lemma all_able m circuit n : n < 2147483648 → able (B := Library) m circuit n.
Proof. by split. Qed.
End LocalQdmi.
Import (hints) LocalQdmi.

