(* ===== verification/QrmWorkflow.v ===== *)
(** * The QRM workflow processes (examples/qrm_workflow/src)

    Daemon, scheduler, compiler and submitter exchange tasks over queues.  Their
    loop bodies are modelled over any transport, codec, compiler library and
    device library, and composed: a task goes once around. *)

From S2P Require Import Prelude Status Message Transport Codec CharConv Protocol Config.
From S2P Require Import Cxx QrmConfig Circuits QrmCompiler QrmSubmitter.
From S2P Require Messenger QOffloadConfig InMemoryTransport RabbitMqSimpleTransport.

(** ** The processes *)

(** One turn of a [while (true)] loop: the receive has not returned, an uncaught
    exception or a failed assertion ends the process, the behaviour is
    undefined, or the next turn starts. *)
Inductive Turn (S : Type) := Waiting | Terminated | Unspecified | Next (s : S).
Arguments Waiting {S}.
Arguments Terminated {S}.
Arguments Unspecified {S}.
Arguments Next {S}.

Section Processes.
Context {T W : Type} `{Transport T W} {Format : Type}
  `{Codec QuantumTask Format} `{Codec QuantumResult Format}.
Context {F : Type} `{Mlir F} {B : Type} `{QdmiClient B}.

Definition poll_args : ReceiveArgs := mkReceiveArgs (Some 5000) Auto.
Definition daemon_args : ReceiveArgs := mkReceiveArgs (Some 60000) Auto.

(** src/Scheduler.cpp *)
Definition scheduler_turn (t : T) (config : Config) (w : W) : Turn W :=
  match Messenger.receive (Format := Format) (A := QuantumTask) t
          (mkAddress (scheduler (queues config))) poll_args w with
  | None => Waiting
  | Some (inl _, w) => Next w
  | Some (inr task, w) =>
      Next (Messenger.send (Format := Format) t (mkAddress (compiler (queues config)))
              task default_send_args w).2
  end.

(** src/Compiler.cpp: exceptions of the compilation are logged. *)
Definition compiler_turn (order : list (nat * string) → list (nat * string))
    (t : T) (config : Config) (w : W) (f : F) : Turn (W * F) :=
  match Messenger.receive (Format := Format) (A := QuantumTask) t
          (mkAddress (compiler (queues config))) poll_args w with
  | None => Waiting
  | Some (inl _, w) => Next (w, f)
  | Some (inr task, w) =>
      match applyOptimizationPasses order task f with
      | (Thrown _, f) => Next (w, f)
      | (Aborted, _) => Terminated
      | (Undefined, _) => Unspecified
      | (Returned task, f) =>
          Next ((Messenger.send (Format := Format) t
                   (mkAddress (submitter (queues config))) task default_send_args w).2, f)
      end
  end.

(** src/Submitter.cpp: exceptions are not caught. *)
Definition submitter_turn (NDEBUG : bool) (t : T) (config : Config) (w : W) (b : B)
    : Turn (W * B) :=
  match Messenger.receive (Format := Format) (A := QuantumTask) t
          (mkAddress (submitter (queues config))) poll_args w with
  | None => Waiting
  | Some (inl _, w) => Next (w, b)
  | Some (inr task, w) =>
      match createAndSubmitQDMIJobToQDMIDevice NDEBUG task b with
      | (Thrown _, _) | (Aborted, _) => Terminated
      | (Undefined, _) => Unspecified
      | (Returned circuit_result, b) =>
          Next ((Messenger.send (Format := Format) t
                   (mkAddress (QuantumTask.result_destination task)) circuit_result
                   default_send_args w).2, b)
      end
  end.

(** src/Daemon.cpp: the task, and sending it. *)
Definition daemon_task (config : Config) : QuantumTask :=
  QuantumTask.mk 111 2 0
    [QOffloadConfig.logPath (benchmark_dir (paths config)) "bell_state.mlir"] "cpp"
    (results (queues config)) "planqc" "" 0 1 false false 0 "" [] "" [] "" "" false.

Definition daemon_send (t : T) (config : Config) (w : W) : Status * W :=
  Messenger.send (Format := Format) t (mkAddress (scheduler (queues config)))
    (daemon_task config) default_send_args w.

Definition daemon_receive (t : T) (config : Config) (w : W)
    : option (Result QuantumResult * W) :=
  Messenger.receive (Format := Format) t (mkAddress (results (queues config)))
    daemon_args w.

(** What the daemon's [main] returns after the receive: it prints the counts of
    the first circuit, which the result must have. *)
Definition daemon_exit (res : Result QuantumResult) : Outcome Z :=
  match res with
  | inl _ => Returned 1
  | inr decoded =>
      match QuantumResult.results decoded with
      | [] => Undefined
      | _ :: _ => Returned 0
      end
  end.
End Processes.

(** ** The [main] functions

    Each starts, opens its messenger ([connect]) and loops; [n] bounds the turns
    looked at.  The loops have no exit: a process ends by an exception, an
    assertion or its daemon's return value. *)

(** The next [n] turns of [while (true)]. *)
Fixpoint forever {S : Type} (turn : S → Turn S) (n : nat) (s : S) : Turn S :=
  match n with
  | 0%nat => Next s
  | Datatypes.S n => match turn s with Next s => forever turn n s | r => r end
  end.

Section Mains.
Context {T W : Type} `{Transport T W} {Format : Type}
  `{Codec QuantumTask Format} `{Codec QuantumResult Format}.
Context {F : Type} `{Mlir F} {B : Type} `{QdmiClient B}.
Context (NDEBUG : bool) (log_dir benchmark_dir : string) (env : Config.Env)
  (open_error : string → option string)
  (connect : RabbitMqSimpleTransport.TransportOptions → W → T * W).

(** What a process does once it has started, if it starts. *)
Definition started {A} (name log : LoggingConfig → string)
    (k : T → Config → W → A) (w : W) : Prog Store A :=
  startup NDEBUG log_dir benchmark_dir env open_error name log ≫= λ '(config, _, opts),
  let '(messenger, w) := connect opts w in
  mret (k messenger config w).

Definition scheduler_main (n : nat) (w : W) : Prog Store (Turn W) :=
  started scheduler_logger scheduler_log
    (λ t config, forever (scheduler_turn (Format := Format) t config) n) w.

Definition compiler_main (order : list (nat * string) → list (nat * string))
    (n : nat) (f : F) (w : W) : Prog Store (Turn (W * F)) :=
  started compiler_logger compiler_log
    (λ t config w, forever (λ '(w, f), compiler_turn (Format := Format) order t config w f) n (w, f)) w.

Definition submitter_main (n : nat) (b : B) (w : W) : Prog Store (Turn (W * B)) :=
  started submitter_logger submitter_log
    (λ t config w, forever (λ '(w, b), submitter_turn (Format := Format) NDEBUG t config w b) n (w, b)) w.

(** The daemon: [None] while its receive has not returned. *)
Definition daemon_main (w : W) : Prog Store (option (Outcome Z * W)) :=
  started daemon_logger daemon_log
    (λ t config w,
      let '(send_st, w) := daemon_send (Format := Format) t config w in
      if negb (ok send_st) then Some (Returned 1, w)
      else
        match daemon_receive (Format := Format) t config w with
        | None => None
        | Some (res, w) => Some (daemon_exit res, w)
        end) w.
End Mains.

(** A process that starts works with the settings of its environment. *)
Lemma started_returns {T W A} NDEBUG log_dir bench env (connect : _ → W → T * W)
    name log (k : T → Config → W → A) w :
  let c := loadConfig log_dir bench env in
  log (logging c) ≠ "" →
  started NDEBUG log_dir bench env (λ _, None) connect name log k w initial_store =
    (Returned (let '(t, w) := connect (messenger_options c) w in k t c w), mkStore c true).
Proof.
  intros c Hlog. unfold started, mbind, prog_bind.
  pose proof (startup_returns NDEBUG log_dir bench env name log Hlog) as Hs. fold c in Hs.
  rewrite Hs. by destruct (connect (messenger_options c) w).
Qed.

(** A process that returns from its start has them. *)
Lemma started_inv {T W A} NDEBUG log_dir bench env open_error (connect : _ → W → T * W)
    name log (k : T → Config → W → A) w a st :
  started NDEBUG log_dir bench env open_error connect name log k w initial_store =
    (Returned a, st) →
  let c := loadConfig log_dir bench env in
  a = let '(t, w) := connect (messenger_options c) w in k t c w.
Proof.
  unfold started, startup, initConfig, getConfig, effect, assert, mbind, prog_bind, mret, prog_ret.
  simpl. rewrite orb_true_r. simpl. rewrite orb_true_r.
  destruct (makeLogger _ _ _ _) as [[] ?]; try done.
  destruct (connect _ w). by intros [= <- _].
Qed.

(** ** The pipeline from end to end *)

Section Pipeline.
Context {T W : Type} `{FifoTransport T W} {Format : Type}
  `{CodecLaws QuantumTask Format} `{CodecLaws QuantumResult Format}.
Context {F : Type} {MF : Mlir F} {B : Type} {QB : QdmiClient B} {QL : QdmiLaws B}.

(** Sending on a quiet transport appends to one queue. *)
Lemma send_appends {A} `{Codec A Format} t n (v : A) e w :
  quiet t w → n ≠ "" → encode Format v = inr e →
  ∃ w', Messenger.send (Format := Format) t (mkAddress n) v default_send_args w =
          (success, w') ∧ quiet t w' ∧
    ∀ k, pending t w' k = if decide (k = n) then pending t w k ++ [e] else pending t w k.
Proof.
  intros Hw Hn He. rewrite (Messenger.send_encoded _ _ _ _ _ _ He).
  by apply (send_fifo t (mkAddress n) e default_send_args w).
Qed.

Lemma receive_takes {A} `{CodecLaws A Format} t n args (v : A) e q w :
  quiet t w → n ≠ "" → pending t w n = e :: q → encode Format v = inr e →
  ∃ w', Messenger.receive (Format := Format) (A := A) t (mkAddress n) args w =
          Some (inr v, w') ∧ quiet t w' ∧
    ∀ k, pending t w' k = if decide (k = n) then q else pending t w k.
Proof.
  intros Hw Hn Hq He.
  destruct (Messenger.receive_head (Format := Format) (A := A) t (mkAddress n) args w e q)
    as (w' & Hr & Hw' & Hp); [done..|].
  exists w'. by rewrite Hr, (decode_encode _ _ He).
Qed.

(** The processes' queues. *)
Definition queue_names (config : Config) : list string :=
  [scheduler (queues config); compiler (queues config); submitter (queues config);
   results (queues config)].

(** Of the queues [ns], all are empty, or all but [n], which holds [e] alone. *)
Definition all_empty (t : T) (w : W) (ns : list string) : Prop :=
  quiet t w ∧ ∀ k, k ∈ ns → pending t w k = [].
Definition only_message (t : T) (w : W) (ns : list string) (n : string) (e : Envelope)
    : Prop :=
  quiet t w ∧ ∀ k, k ∈ ns → pending t w k = if decide (k = n) then [e] else [].

Lemma send_first {A} `{Codec A Format} t ns n (v : A) e w :
  all_empty t w ns → n ≠ "" → encode Format v = inr e →
  ∃ w', Messenger.send (Format := Format) t (mkAddress n) v default_send_args w =
          (success, w') ∧ only_message t w' ns n e.
Proof.
  intros [Hw Hempty] Hn He. destruct (send_appends t n v e w Hw Hn He) as (w' & Hs & Hw' & Hp).
  exists w'. split; [done|]. split; [done|]. intros k Hk. by rewrite Hp, Hempty.
Qed.

Lemma receive_only {A} `{CodecLaws A Format} t ns n args (v : A) e w :
  only_message t w ns n e → n ∈ ns → n ≠ "" → encode Format v = inr e →
  ∃ w', Messenger.receive (Format := Format) (A := A) t (mkAddress n) args w =
          Some (inr v, w') ∧ all_empty t w' ns.
Proof.
  intros [Hw Hm] Hin Hn He.
  destruct (receive_takes t n args v e [] w) as (w' & Hr & Hw' & Hp); [done..| |done|].
  { by rewrite Hm, decide_True. }
  exists w'. split; [done|]. split; [done|]. intros k Hk. rewrite Hp.
  case_decide; [done|]. by rewrite Hm, decide_False.
Qed.

(** The source file of the daemon's task. *)
Definition source (config : Config) : string :=
  QOffloadConfig.logPath (benchmark_dir (paths config)) "bell_state.mlir".

Lemma compile_daemon_task order config f f' m :
  (∀ l, order l ≡ₚ l) →
  mkstemp f = Some f' → parseSourceFile (source config) f' = Some m →
  applyOptimizationPasses order (daemon_task config) f =
    (Returned (with_circuit_files [stripSpuriousGateDefs (printed "planqc" m)]
                 (daemon_task config)), f').
Proof.
  intros Hord Hf Hm. rewrite apply_mapM by done. simpl.
  assert (mapM (compile (daemon_task config)) [source config] f =
    (Returned [stripSpuriousGateDefs (printed "planqc" m)], f')) as Hmap.
  { simpl. by rewrite (bind_returned _ _ _ _ _
      (compile_parsed (daemon_task config) _ _ _ _ Hf Hm)). }
  by rewrite (bind_returned _ _ _ _ _ Hmap).
Qed.

(** The daemon's task has no number of shots. *)
Lemma submit_daemon_task NDEBUG config d circuit m b :
  machines !! 1%nat = Some d → able d circuit 0 →
  gather (key_vec (execute d circuit None).1) (execute d circuit None).2 ∅ = Some m →
  let task := with_circuit_files [circuit] (daemon_task config) in
  returns (createAndSubmitQDMIJobToQDMIDevice NDEBUG task) b (result_of task circuit m) (same b).
Proof.
  intros Hd Ha Hg task.
  destruct (submit_job_ok NDEBUG task d circuit [] b Hd eq_refl Ha) as ([k|] & Hshots & Hs).
  - by destruct Hshots.
  - by apply Hs.
Qed.

(** The workflow from end to end: over any transport that delivers in order,
    any codec that round trips, a compiler library that parses the daemon's
    file and a device library that behaves as documented and whose second
    device accepts and runs the compiled circuit, with named, empty queues, the
    task the daemon sends comes back, after one
    turn of each process, as the result with its identifier, the cleaned-up
    compiled circuit and the histogram the device gives for it; all queues are
    empty again and the device library has the jobs and sessions it had
    before. *)
Theorem workflow_end_to_end NDEBUG order t config w f f' b d source_module m et ec er :
  (∀ l, order l ≡ₚ l) → "" ∉ queue_names config → all_empty t w (queue_names config) →
  mkstemp f = Some f' → parseSourceFile (source config) f' = Some source_module →
  machines !! 1%nat = Some d →
  let circuit := stripSpuriousGateDefs (printed "planqc" source_module) in
  let compiled := with_circuit_files [circuit] (daemon_task config) in
  able d circuit 0 →
  gather (key_vec (execute d circuit None).1) (execute d circuit None).2 ∅ = Some m →
  encode Format (daemon_task config) = inr et →
  encode Format compiled = inr ec →
  encode Format (result_of compiled circuit m) = inr er →
  ∃ w1 w2 w3 w4 w5 b',
    daemon_send (Format := Format) t config w = (success, w1) ∧
    scheduler_turn (Format := Format) t config w1 = Next w2 ∧
    compiler_turn (Format := Format) order t config w2 f = Next (w3, f') ∧
    submitter_turn (Format := Format) NDEBUG t config w3 b = Next (w4, b') ∧
    daemon_receive (Format := Format) t config w4 =
      Some (inr (result_of compiled circuit m), w5) ∧
    daemon_exit (inr (result_of compiled circuit m)) = Returned 0 ∧
    same b b' ∧ all_empty t w5 (queue_names config).
Proof.
  intros Hord Hne Hw Hf Hmod Hd circuit compiled Ha Hg Het Hec Her.
  destruct (submit_daemon_task NDEBUG config d circuit m b Hd Ha Hg) as (b' & Hsub & Hb).
  fold compiled in Hsub. unfold queue_names in *.
  set (qs := scheduler (queues config)) in *. set (qc := compiler (queues config)) in *.
  set (qb := submitter (queues config)) in *. set (qr := results (queues config)) in *.
  rewrite !not_elem_of_cons in Hne. destruct Hne as (Ns & Nc & Nb & Nr & _).
  destruct (send_first t _ qs _ _ w Hw (not_eq_sym Ns) Het) as (w1 & S1 & M1).
  destruct (receive_only t _ qs poll_args (daemon_task config) et w1 M1)
    as (v1 & R1 & E1); [set_solver|done..|].
  destruct (send_first t _ qc _ _ v1 E1 (not_eq_sym Nc) Het) as (w2 & S2 & M2).
  destruct (receive_only t _ qc poll_args (daemon_task config) et w2 M2)
    as (v2 & R2 & E2); [set_solver|done..|].
  destruct (send_first t _ qb _ _ v2 E2 (not_eq_sym Nb) Hec) as (w3 & S3 & M3).
  destruct (receive_only t _ qb poll_args compiled ec w3 M3)
    as (v3 & R3 & E3); [set_solver|done..|].
  destruct (send_first t _ qr _ _ v3 E3 (not_eq_sym Nr) Her) as (w4 & S4 & M4).
  destruct (receive_only t _ qr daemon_args (result_of compiled circuit m) er w4 M4)
    as (w5 & R5 & E5); [set_solver|done..|].
  exists w1, w2, w3, w4, w5, b'. split_and!; [exact S1| | | |exact R5|done|exact Hb|exact E5].
  - unfold scheduler_turn. fold qs qc. by rewrite R1, S2.
  - unfold compiler_turn. fold qc qb. rewrite R2.
    rewrite (compile_daemon_task order config f f' source_module Hord Hf Hmod).
    fold circuit compiled. by rewrite S3.
  - unfold submitter_turn. fold qb. rewrite R3, Hsub.
    change (QuantumTask.result_destination compiled) with qr. by rewrite S4.
Qed.
End Pipeline.

(** ** A concrete codec and run *)

Module Example.
Inductive Text : Set := text.

(** Tasks like the daemon's, by circuit and destination. *)
Definition task_envelope (t : QuantumTask) : Envelope :=
  mkEnvelope (default "" (head (QuantumTask.circuit_files t))) "" ∅
    (QuantumTask.result_destination t) None.
Definition task_of (e : Envelope) : QuantumTask :=
  QuantumTask.mk 111 2 0 [payload e] "cpp" (correlation_id e) "planqc" "" 0 1 false false
    0 "" [] "" [] "" "" false.

#[export] Instance task_codec : Codec QuantumTask Text := checked same_task task_envelope task_of.
#[export] Instance task_codec_laws : CodecLaws QuantumTask Text.
Proof. apply checked_laws, same_task_eq. Qed.

Definition result_envelope (r : QuantumResult) : Envelope :=
  mkEnvelope (default "" (head (QuantumResult.executed_circuits r))) ""
    (to_string <$> default ∅ (counts <$> head (QuantumResult.results r))) "" None.
Definition result_of (e : Envelope) : QuantumResult :=
  QuantumResult.mk 111 [mkCircuitResult (omap (from_chars_all int32_t) (headers e))] ""
    false "" [payload e] "" (S754_zero false).

#[export] Instance result_codec : Codec QuantumResult Text :=
  checked same_result result_envelope result_of.
#[export] Instance result_codec_laws : CodecLaws QuantumResult Text.
Proof. apply checked_laws, same_result_eq. Qed.

Definition config : Config := loadConfig "/log" "/bench" (λ _, None).
Definition world : InMemoryTransport.World := InMemoryTransport.createTransport [].
Definition histogram : gmap string Z := <["11" := 527]> {["00" := 497]}.
End Example.
Import (hints) Example.
Import (hints) InMemoryTransport.
Import (hints) TextMlir.
Import (hints) LocalQdmi.

Lemma workflow_end_to_end_witness :
  let source_text := unlines ["gate spurious a {"; "}"; "h q[0];"] in
  let files : gmap string string := {[source Example.config := source_text]} in
  let compiled := with_circuit_files [unlines ["h q[0];"]] (daemon_task Example.config) in
  let result := result_of compiled (unlines ["h q[0];"]) Example.histogram in
  ∃ w4 w5, daemon_receive (Format := Example.Text) tt Example.config w4 =
    Some (inr result, w5).
Proof.
  intros source_text files compiled result.
  destruct (workflow_end_to_end (Format := Example.Text) (MF := TextMlir.mlir)
    (QL := LocalQdmi.client_laws) false id tt Example.config
    Example.world files (<["/tmp/mqss_quake_1" := ""]> files)
    (LocalQdmi.mkLibrary ∅ ∅) 1%nat source_text Example.histogram
    (Example.task_envelope (daemon_task Example.config))
    (Example.task_envelope compiled) (Example.result_envelope result))
    as (_ & _ & _ & w4 & w5 & _ & _ & _ & _ & _ & H & _).
  - reflexivity.
  - apply (bool_decide_unpack _); vm_compute; exact I.
  - split; [split; [reflexivity|]; eexists; split; reflexivity|]. intros n _. reflexivity.
  - vm_compute. reflexivity.
  - vm_compute. reflexivity.
  - reflexivity.
  - exact (LocalQdmi.all_able 1%nat (unlines ["h q[0];"]) 0 eq_refl).
  - vm_compute. reflexivity.
  - vm_compute. reflexivity.
  - vm_compute. reflexivity.
  - vm_compute. reflexivity.
  - exists w4, w5. exact H.
Defined.
