(* ===== verification/QrmPipeline.v ===== *)
(** * The QRM workflow as concurrent processes

    Scheduler, compiler and submitter of examples/qrm_workflow run at the same
    time and exchange tasks over queues ([QueueTransport]); any number of
    daemons hand in tasks.  A step is one receive, one send or the work between
    them; the steps of the processes interleave freely.  Sends succeed and polls
    find something; [QrmFaults] adds the ones that fail.  The bodies are those of
    [QrmWorkflow]. *)

From S2P Require Import Prelude Status Message Transport Codec CharConv Protocol Config.
From S2P Require Import QueueTransport Cxx QrmConfig Circuits QrmCompiler QrmSubmitter QrmWorkflow.
From S2P Require Messenger.

(** ** What the work keeps of a task *)

Lemma bind_returned_inv {B A C} (m : Prog B A) (k : A → Prog B C) b c b' :
  (m ≫= k) b = (Returned c, b') → ∃ a b1, m b = (Returned a, b1) ∧ k a b1 = (Returned c, b').
Proof. unfold mbind, prog_bind. destruct (m b) as [[a| | |] b1]; naive_solver. Qed.

Section Kept.
Context {F : Type} `{Mlir F} {B : Type} `{QdmiClient B}.

Lemma compiled_task order task f task' f' :
  (∀ l, order l ≡ₚ l) → applyOptimizationPasses order task f = (Returned task', f') →
  QuantumTask.task_id task' = QuantumTask.task_id task ∧
  QuantumTask.result_destination task' = QuantumTask.result_destination task.
Proof.
  intros Hord. rewrite apply_mapM by done.
  intros (outs & f1 & _ & Hr)%bind_returned_inv. injection Hr as <- _. by destruct task.
Qed.

Lemma submitted_result NDEBUG task b r b' :
  createAndSubmitQDMIJobToQDMIDevice NDEBUG task b = (Returned r, b') →
  QuantumResult.task_id r = QuantumTask.task_id task.
Proof.
  unfold createAndSubmitQDMIJobToQDMIDevice, submit_circuit.
  intros (s & b1 & _ & Hr)%bind_returned_inv.
  apply bind_returned_inv in Hr as (? & b2 & _ & Hr).
  apply bind_returned_inv in Hr as (d & b3 & _ & Hr).
  apply bind_returned_inv in Hr as (? & b4 & _ & Hr).
  destruct (QuantumTask.circuit_files task) as [|circuit rest] eqn:Hc; [done|].
  apply bind_returned_inv in Hr as ([ret job] & b5 & _ & Hr).
  apply bind_returned_inv in Hr as (? & b6 & _ & Hr).
  apply bind_returned_inv in Hr as ([keys cs] & b7 & _ & Hr).
  rewrite (make_result_eq _ _ _ _ _ Hc) in Hr.
  destruct (gather (key_vec keys) cs ∅) as [m|]; [|done]. simpl in Hr.
  by injection Hr as <- _.
Qed.
End Kept.

(** ** The system *)

Inductive CompilerPc := CIdle | CTask (t : QuantumTask) | CDone (t : QuantumTask).
Inductive SubmitterPc :=
  | SIdle | STask (t : QuantumTask) | SDone (t : QuantumTask) (r : QuantumResult) | SDead.

(** Sequences of keys. *)
Ltac keys_simpl :=
  repeat rewrite ?fmap_cons, ?fmap_app; simpl; rewrite ?app_nil_r; repeat (rewrite <- !app_assoc; simpl).
Ltac sublists := keys_simpl; repeat first
  [ reflexivity | apply sublist_skip | apply sublist_app; [reflexivity|]
  | apply sublist_inserts_l | apply sublist_cons ].

Section Pipeline.
Context {T W : Type} `{QueueTransport T W} {Format : Type}
  `{CodecLaws QuantumTask Format} `{CodecLaws QuantumResult Format}
  `{!PlainCodec QuantumTask Format} `{!PlainCodec QuantumResult Format}.
Context {F : Type} `{Mlir F} {B : Type} `{QdmiClient B}.
Context (NDEBUG : bool) (order : list (nat * string) → list (nat * string))
  (config : Config).
(** The messengers of the three processes. *)
Context (scheduler_t compiler_t submitter_t : T).

Record Sys := mkSys {
  world : W;
  scheduler_holds : option QuantumTask;
  compiler_pc : CompilerPc; fs : F;
  submitter_pc : SubmitterPc; device : B;
}.

Inductive Label :=
  | LSubmitted (task : QuantumTask) (accepted : bool)     (** by a daemon *)
  | LMoved                                                (** within the pipeline *)
  | LLost (task : QuantumTask)                            (** failed, and only logged *)
  | LCrashed (task : QuantumTask)                         (** the submitter ends *)
  | LResult (dest : string) (r : QuantumResult) (accepted : bool)
  | LOther.                                               (** other queues *)

Definition take (t : T) (queue : string) (w : W) : option (Result QuantumTask * W) :=
  Messenger.receive (Format := Format) (A := QuantumTask) t (mkAddress queue) poll_args w.
(** A poll of a queue that holds something. *)
Definition delivery (t : T) (queue : string) (w : W) (task : QuantumTask) (w' : W) : Prop :=
  contents w (place t queue) ≠ [] ∧ take t queue w = Some (inr task, w').

Definition q_scheduler : Place := place scheduler_t (scheduler (queues config)).
Definition q_compiler : Place := place compiler_t (compiler (queues config)).
Definition q_submitter : Place := place submitter_t (submitter (queues config)).
(** Where the processes send to is where the next one receives from. *)
Definition connected : Prop :=
  place scheduler_t (compiler (queues config)) = q_compiler ∧
  place compiler_t (submitter (queues config)) = q_submitter ∧
  q_scheduler ≠ q_compiler ∧ q_scheduler ≠ q_submitter ∧ q_compiler ≠ q_submitter ∧
  scheduler (queues config) ≠ "" ∧ compiler (queues config) ≠ "" ∧
  submitter (queues config) ≠ "".
Definition pipeline : list Place := [q_scheduler; q_compiler; q_submitter].

(** Scheduler.cpp: the loop of [main]. *)
Inductive scheduler_step : Sys → Label → Sys → Prop :=
  | step_schedule w w' task c f b d :
      delivery scheduler_t (scheduler (queues config)) w task w' →
      scheduler_step (mkSys w None c f b d) LMoved (mkSys w' (Some task) c f b d)
  | step_scheduled w w' st task c f b d :
      put scheduler_t (compiler (queues config)) task w = (st, w') →
      scheduler_step (mkSys w (Some task) c f b d) (if ok st then LMoved else LLost task)
        (mkSys w' None c f b d).

(** Compiler.cpp: the loop of [main]. *)
Inductive compiler_step : Sys → Label → Sys → Prop :=
  | step_compile w w' task s f b d :
      delivery compiler_t (compiler (queues config)) w task w' →
      compiler_step (mkSys w s CIdle f b d) LMoved (mkSys w' s (CTask task) f b d)
  | step_passes w task task' s f f' b d :
      applyOptimizationPasses order task f = (Returned task', f') →
      compiler_step (mkSys w s (CTask task) f b d) LMoved (mkSys w s (CDone task') f' b d)
  | step_passes_failed w task what s f f' b d :
      applyOptimizationPasses order task f = (Thrown what, f') →
      compiler_step (mkSys w s (CTask task) f b d) (LLost task) (mkSys w s CIdle f' b d)
  | step_compiled w w' st task s f b d :
      put compiler_t (submitter (queues config)) task w = (st, w') →
      compiler_step (mkSys w s (CDone task) f b d) (if ok st then LMoved else LLost task)
        (mkSys w' s CIdle f b d).

(** Submitter.cpp: the loop of [main]. *)
Inductive submitter_step : Sys → Label → Sys → Prop :=
  | step_submission w w' task s c f d :
      delivery submitter_t (submitter (queues config)) w task w' →
      submitter_step (mkSys w s c f SIdle d) LMoved (mkSys w' s c f (STask task) d)
  | step_job w task r s c f d d' :
      createAndSubmitQDMIJobToQDMIDevice NDEBUG task d = (Returned r, d') →
      submitter_step (mkSys w s c f (STask task) d) LMoved (mkSys w s c f (SDone task r) d')
  | step_job_failed w task o s c f d d' :
      createAndSubmitQDMIJobToQDMIDevice NDEBUG task d = (o, d') →
      (∃ what, o = Thrown what) ∨ o = Aborted →
      submitter_step (mkSys w s c f (STask task) d) (LCrashed task) (mkSys w s c f SDead d')
  | step_result w w' st task r s c f d :
      put submitter_t (QuantumTask.result_destination task) r w = (st, w') →
      submitter_step (mkSys w s c f (SDone task r) d)
        (LResult (QuantumTask.result_destination task) r (ok st))
        (mkSys w' s c f SIdle d).

Inductive step : Sys → Label → Sys → Prop :=
  | step_submit t task w w' st s c f b d :
      place t (scheduler (queues config)) = q_scheduler →
      put t (scheduler (queues config)) task w = (st, w') →
      step (mkSys w s c f b d) (LSubmitted task (ok st)) (mkSys w' s c f b d)
  | step_other w w' s c f b d :
      settled w → settled w' → (∀ p, p ∈ pipeline → contents w' p = contents w p) →
      step (mkSys w s c f b d) LOther (mkSys w' s c f b d)
  | step_scheduler s l s' : scheduler_step s l s' → step s l s'
  | step_compiler s l s' : compiler_step s l s' → step s l s'
  | step_submitter s l s' : submitter_step s l s' → step s l s'.

(** ** What is under way

    A task stands for its identifier and where its result goes. *)

Definition Key : Type := Z * string.
Definition key (t : QuantumTask) : Key :=
  (QuantumTask.task_id t, QuantumTask.result_destination t).

Definition compiler_keys (c : CompilerPc) : list Key :=
  match c with CIdle => [] | CTask t | CDone t => [key t] end.
Definition submitter_keys (b : SubmitterPc) : list Key :=
  match b with
  | SIdle | SDead => []
  | STask t => [key t]
  | SDone t r => [(QuantumResult.task_id r, QuantumTask.result_destination t)]
  end.

Notation encodes := (Forall2 (λ v e, encode Format v = inr e)).

(** The tasks in the queues and the processes, the oldest first. *)
Definition carries (s : Sys) (ks : list Key) : Prop :=
  ∃ ts tc tb : list QuantumTask,
    encodes ts (contents (world s) q_scheduler) ∧
    encodes tc (contents (world s) q_compiler) ∧
    encodes tb (contents (world s) q_submitter) ∧
    ks = submitter_keys (submitter_pc s) ++ (key <$> tb) ++
         compiler_keys (compiler_pc s) ++ (key <$> tc) ++
         (key <$> option_list (scheduler_holds s)) ++ (key <$> ts).
(** The tasks under way. *)
Definition under_way (s : Sys) (ks : list Key) : Prop := settled (world s) ∧ carries s ks.

(** Results leave the pipeline. *)
Definition outward (k : Key) : Prop := k.2 ≠ "" ∧ place submitter_t k.2 ∉ pipeline.

Definition incoming (l : Label) : list Key :=
  match l with LSubmitted task true => [key task] | _ => [] end.
Definition outgoing (l : Label) : list Key :=
  match l with LResult dest r _ => [(QuantumResult.task_id r, dest)] | _ => [] end.
Definition lost (l : Label) : nat :=
  match l with LLost _ | LCrashed _ => 1 | _ => 0 end%nat.

(** Only the processes of the pipeline move. *)
Definition internal (l : Label) : bool :=
  match l with LSubmitted _ _ | LOther => false | _ => true end.

(** The steps the work under way can still take. *)
Definition compiler_effort (c : CompilerPc) : nat :=
  match c with CIdle => 0 | CTask _ => 5 | CDone _ => 4 end.
Definition submitter_effort (b : SubmitterPc) : nat :=
  match b with SIdle | SDead => 0 | STask _ => 2 | SDone _ _ => 1 end.
Definition effort (s : Sys) : nat :=
  (8 * length (contents (world s) q_scheduler) +
   7 * length (option_list (scheduler_holds s)) +
   6 * length (contents (world s) q_compiler) + compiler_effort (compiler_pc s) +
   3 * length (contents (world s) q_submitter) + submitter_effort (submitter_pc s))%nat.

(** ** One step *)

Context (Horder : ∀ l, order l ≡ₚ l) (Hconnected : connected).

Lemma delivery_spec t n w task w' (ts : list QuantumTask) :
  settled w → n ≠ "" → encodes ts (contents w (place t n)) → delivery t n w task w' →
  settled w' ∧ ∃ skipped ts',
    ts = task :: skipped ++ ts' ∧ encodes ts' (contents w' (place t n)) ∧
    (lossless poll_args = true → skipped = []) ∧
    (length (contents w' (place t n)) < length (contents w (place t n)))%nat ∧
    ∀ p, p ≠ place t n → contents w' p = contents w p.
Proof.
  intros Hw Hn Hts Hd.
  destruct (found_value poll_args t n w (inr task) w' ts) as
    (v & l & ts' & [= <-] & -> & Hts' & Hl); [done..|].
  destruct (found_spec poll_args t n w (inr task) w') as
    (Hw' & (e & q & Hq & _ & _) & Hp); [done..|].
  split; [done|]. exists l, ts'. split_and!; [done..| |done].
  rewrite Hq. simpl. rewrite length_app. lia.
Qed.

(** What every step does to the work under way. *)
Definition accounted (s : Sys) (ks : list Key) (l : Label) (s' : Sys) : Prop :=
  ∃ ks', under_way s' ks' ∧ outgoing l ++ ks' `sublist_of` ks ++ incoming l ∧
    (lossless poll_args = true →
     length (outgoing l ++ ks') + lost l = length (ks ++ incoming l))%nat ∧
    (internal l = true → (effort s' < effort s)%nat).

Ltac account ts tc tb :=
  eexists; split; [split; [done|]; exists ts, tc, tb; simpl; split_and!; [..|reflexivity]|
  split_and!; [sublists|intros Hx; keys_simpl; rewrite ?length_app; simpl|
   intros Hi; first [discriminate Hi|clear Hi; unfold effort; simpl]]].

(** After a send, and after a receive from the queue of [vs]. *)
Ltac sent :=
  match goal with Hs : put _ _ _ _ = _ |- _ =>
    apply put_spec in Hs as [Hw' [[-> ->]|[-> (e & He & Hp)]]]; [..|done|done] end.
Ltac received vs :=
  match goal with Hs : delivery _ _ _ _ _ |- _ =>
    apply (delivery_spec _ _ _ _ _ vs) in Hs
      as (Hw' & skipped & rest & -> & Hrest & Hskip & Hlen & Hp); [|done..] end.
(** The queues after it. *)
Ltac queues :=
  fold q_scheduler q_compiler q_submitter in *;
  repeat match goal with Hp : ∀ p, _ |- _ =>
    progress rewrite ?(Hp q_scheduler), ?(Hp q_compiler), ?(Hp q_submitter)
      by (congruence || done) end;
  repeat rewrite ?decide_True, ?decide_False, ?app_nil_r by (congruence || done);
  repeat first [done | apply Forall2_app | apply Forall2_cons; split | apply Forall2_nil].

Ltac settle := queues;
  try match goal with Hk : _ = true → _ = [], Hx : _ = true |- _ => rewrite (Hk Hx) end;
  rewrite ?length_app, ?length_fmap; simpl; lia || done.

Lemma step_accounted s ks l s' :
  under_way s ks → Forall outward ks → step s l s' → accounted s ks l s'.
Proof.
  destruct Hconnected as (Ec & Es & N1 & N2 & N3 & Ns & Nc & Nb).
  intros (Hw & ts & tc & tb & Hts & Htc & Htb & ->) Hout Hs.
  destruct Hs as [| |? ? ? []|? ? ? []|? ? ? []]; simpl in *.
  - sent; [account ts tc tb|account (ts ++ [task]) tc tb]; settle.
  - match goal with Hp : ∀ p, _ |- _ =>
      pose proof (Hp q_scheduler ltac:(by left)) as E1;
      pose proof (Hp q_compiler ltac:(right; by left)) as E2;
      pose proof (Hp q_submitter ltac:(right; right; by left)) as E3 end.
    account ts tc tb; rewrite ?E1, ?E2, ?E3; settle.
  - received ts; account rest tc tb; settle.
  - sent; [account ts tc tb|account ts (tc ++ [task]) tb]; settle.
  - received tc; account ts rest tb; settle.
  - match goal with Hc : applyOptimizationPasses _ _ _ = _ |- _ =>
      apply compiled_task in Hc as [Hid Hdest]; [|done] end.
    replace (key task) with (key task') by (unfold key; congruence).
    account ts tc tb; settle.
  - account ts tc tb; settle.
  - sent; [account ts tc tb|account ts tc (tb ++ [task])]; settle.
  - received tb; account ts tc rest; settle.
  - match goal with Hc : createAndSubmitQDMIJobToQDMIDevice _ _ _ = _ |- _ =>
      apply submitted_result in Hc end.
    replace (key task) with
      (QuantumResult.task_id r, QuantumTask.result_destination task) by (unfold key; congruence).
    account ts tc tb; settle.
  - account ts tc tb; settle.
  - apply Forall_cons in Hout as [[Hd Hpl] _]. simpl in Hd, Hpl.
    unfold pipeline in Hpl. rewrite !not_elem_of_cons in Hpl. destruct Hpl as (? & ? & ? & _).
    sent; account ts tc tb; settle.
Qed.

(** ** Runs *)

Definition submitted (tr : list Label) : list Key := tr ≫= incoming.
Definition posted (tr : list Label) : list Key := tr ≫= outgoing.
Definition losses (tr : list Label) : nat := sum_list_with lost tr.

Lemma run_accounted s ks tr s' :
  under_way s ks → Forall outward (ks ++ submitted tr) → Prelude.run step s tr s' →
  ∃ ks', under_way s' ks' ∧ posted tr ++ ks' `sublist_of` ks ++ submitted tr ∧
    (lossless poll_args = true →
     length (posted tr ++ ks') + losses tr = length (ks ++ submitted tr))%nat.
Proof.
  intros Hs Hout Hrun. revert Hout. induction Hrun as [|tr s1 l s2 Hrun IH Hl]; intros Hout.
  { exists ks. unfold posted, submitted, losses. simpl. rewrite app_nil_r.
    split_and!; [done..|]. intros _. lia. }
  unfold posted, submitted, losses in *. rewrite !bind_app in *. simpl in *.
  rewrite !app_nil_r, !app_assoc, sum_list_with_app in *.
  destruct IH as (k1 & Hs1 & Hsub1 & Hlen1); [by apply Forall_app in Hout as [? _]|].
  destruct (step_accounted s1 k1 l s2) as (k2 & Hs2 & Hsub2 & Hlen2 & _); [done| |done|].
  { apply Forall_app in Hout as [Hout _]. eapply Forall_sublist; [|exact Hout].
    etransitivity; [|exact Hsub1]. by apply sublist_inserts_l. }
  exists k2. split_and!; [done| |].
  - rewrite <- app_assoc. etransitivity; [by apply sublist_app|].
    rewrite app_assoc. by apply sublist_app.
  - intros Hx. specialize (Hlen1 Hx). specialize (Hlen2 Hx).
    rewrite !length_app in *. simpl. lia.
Qed.

(** Exactly once, in order: in any interleaving of the scheduler, the
    compiler, the submitter and any number of daemons, over any transport with
    queues, the results posted so far followed by the tasks under way are, by
    identifier and result queue, a subsequence of the tasks submitted: nothing
    is invented, duplicated or overtaken, and every result goes to the queue
    its task names.  Nothing is missing either if polls lose nothing, no
    exception or failed send was logged and the submitter is alive. *)
Theorem pipeline_order s tr s' :
  under_way s [] → Forall outward (submitted tr) → Prelude.run step s tr s' →
  ∃ ks, under_way s' ks ∧ posted tr ++ ks `sublist_of` submitted tr ∧
    (lossless poll_args = true → losses tr = 0%nat → posted tr ++ ks = submitted tr).
Proof.
  intros Hs Hout Hrun.
  destruct (run_accounted s [] tr s' Hs Hout Hrun) as (ks & Hs' & Hsub & Hlen).
  exists ks. split_and!; [done..|]. intros Hx H0'. specialize (Hlen Hx). simpl in *.
  apply sublist_same_length; [done|lia].
Qed.

(** ** Progress *)

(** The submitter has ended, or its library call does something undefined. *)
Definition submitter_halts (s : Sys) : Prop :=
  submitter_pc s = SDead ∨
  ∃ t, submitter_pc s = STask t ∧
    (createAndSubmitQDMIJobToQDMIDevice NDEBUG t (device s)).1 = Undefined.
(** The compilation aborts or does something undefined. *)
Definition compiler_halts (s : Sys) : Prop :=
  ∃ t o, compiler_pc s = CTask t ∧ (applyOptimizationPasses order t (fs s)).1 = o ∧
    (o = Undefined ∨ o = Aborted).
Definition halted (s : Sys) : Prop := submitter_halts s ∨ compiler_halts s.

Definition moves (s : Sys) : Prop := ∃ l s', step s l s' ∧ internal l = true.

Lemma delivery_exists t n w task (ts : list QuantumTask) :
  settled w → n ≠ "" → encodes (task :: ts) (contents w (place t n)) →
  ∃ w', delivery t n w task w'.
Proof.
  intros Hw Hn Hts. assert (contents w (place t n) ≠ []) as Hne.
  { intros Hq. rewrite Hq in Hts. by apply Forall2_nil_inv_r in Hts. }
  destruct (found_exists (Format := Format) (A := QuantumTask) poll_args t n w)
    as (r & w' & Hf); [done..|].
  destruct (found_value poll_args t n w r w' (task :: ts)) as
    (v & l & ts' & -> & [= <- _] & _); [done..|]. by exists w'.
Qed.

Lemma moves_by s l s' : step s l s' → internal l = true → moves s.
Proof. intros. by exists l, s'. Qed.

Lemma submitter_progress w h c f b d (tb : list QuantumTask) :
  settled w → encodes tb (contents w q_submitter) → key <$> tb ≠ [] ∨ b ≠ SIdle →
  halted (mkSys w h c f b d) ∨ moves (mkSys w h c f b d).
Proof.
  destruct Hconnected as (_ & _ & _ & _ & _ & _ & _ & Nb).
  intros Hw Htb Hb. destruct b as [|t|t r|]; [| | |by left; left; left].
  - destruct tb as [|t tb]; [naive_solver|]. right.
    destruct (delivery_exists submitter_t _ w t tb Hw Nb Htb) as [w' ?].
    by eapply moves_by; [by apply step_submitter, step_submission|].
  - destruct (createAndSubmitQDMIJobToQDMIDevice NDEBUG t d) as [o d'] eqn:Hj.
    destruct o as [r|what| |].
    + right. by eapply moves_by; [by apply step_submitter, step_job|].
    + right. eapply moves_by; [eapply step_submitter, step_job_failed; [done|eauto]|done].
    + right. eapply moves_by; [eapply step_submitter, step_job_failed; [done|eauto]|done].
    + left. left. right. exists t. simpl. by rewrite Hj.
  - right. destruct (put submitter_t (QuantumTask.result_destination t) r w) as [st w'] eqn:Hp.
    by eapply moves_by; [by eapply step_submitter, step_result|].
Qed.

Lemma compiler_progress w h c f b d (tc : list QuantumTask) :
  settled w → encodes tc (contents w q_compiler) → key <$> tc ≠ [] ∨ c ≠ CIdle →
  halted (mkSys w h c f b d) ∨ moves (mkSys w h c f b d).
Proof.
  destruct Hconnected as (_ & _ & _ & _ & _ & _ & Nc & _).
  intros Hw Htc Hc. destruct c as [|t|t].
  - destruct tc as [|t tc]; [naive_solver|]. right.
    destruct (delivery_exists compiler_t _ w t tc Hw Nc Htc) as [w' ?].
    by eapply moves_by; [by apply step_compiler, step_compile|].
  - destruct (applyOptimizationPasses order t f) as [o f'] eqn:Hj.
    destruct o as [t'|what| |].
    + right. by eapply moves_by; [by apply step_compiler, step_passes|].
    + right. by eapply moves_by; [by eapply step_compiler, step_passes_failed|].
    + left. right. exists t, Aborted. simpl. rewrite Hj. auto.
    + left. right. exists t, Undefined. simpl. rewrite Hj. auto.
  - right. destruct (put compiler_t (submitter (queues config)) t w) as [st w'] eqn:Hp.
    eapply moves_by; [by eapply step_compiler, step_compiled|]. by destruct (ok st).
Qed.

Lemma progress s ks : under_way s ks → ks ≠ [] → halted s ∨ moves s.
Proof.
  destruct Hconnected as (_ & _ & _ & _ & _ & Ns & _).
  intros (Hw & ts & tc & tb & Hts & Htc & Htb & ->) Hks.
  destruct s as [w h c f b d]. simpl in *.
  destruct (decide (key <$> tb = [])) as [Hb|Hb]; [|by eapply submitter_progress; eauto].
  destruct b as [|t|t r|]; try by eapply submitter_progress; eauto.
  destruct (decide (key <$> tc = [])) as [Hc|Hc]; [|by eapply compiler_progress; eauto].
  destruct c as [|t|t]; try by eapply compiler_progress; eauto.
  rewrite Hb, Hc in Hks. simpl in Hks. right. destruct h as [t|].
  - destruct (put scheduler_t (compiler (queues config)) t w) as [st w'] eqn:Hp.
    eapply moves_by; [by eapply step_scheduler, step_scheduled|]. by destruct (ok st).
  - destruct ts as [|t ts]; [done|].
    destruct (delivery_exists scheduler_t _ w t ts Hw Ns Hts) as [w' ?].
    by eapply moves_by; [by apply step_scheduler, step_schedule|].
Qed.

(** Runs of the processes alone. *)
Lemma internal_nothing tr : Forall (λ l, internal l = true) tr → submitted tr = [].
Proof.
  induction 1 as [|l tr Hl _ IH]; [done|].
  change (submitted (l :: tr)) with (incoming l ++ submitted tr). rewrite IH.
  by destruct l as [? []| | | | |].
Qed.

Lemma run_effort s ks tr s' :
  under_way s ks → Forall outward ks → Prelude.run step s tr s' →
  Forall (λ l, internal l = true) tr → (length tr + effort s' <= effort s)%nat.
Proof.
  intros Hs Hout Hrun. induction Hrun as [|tr s1 l s2 Hrun IH Hl]; intros Htr; [simpl; lia|].
  apply Forall_app in Htr as [Htr Hli]. apply Forall_cons in Hli as [Hli _].
  destruct (run_accounted s ks tr s1 Hs) as (k1 & Hs1 & Hsub1 & _); [|done|].
  { by rewrite (internal_nothing tr Htr), app_nil_r. }
  rewrite (internal_nothing tr Htr), app_nil_r in Hsub1.
  destruct (step_accounted s1 k1 l s2) as (_ & _ & _ & _ & Heff); [done| |done|].
  { eapply Forall_sublist; [|exact Hout]. etransitivity; [|exact Hsub1].
    by apply sublist_inserts_l. }
  specialize (IH Htr). specialize (Heff Hli). rewrite length_app. simpl. lia.
Qed.

(** The pipeline drains: once no more tasks are submitted, the three
    processes take at most [effort] steps, in whatever order (eight for a task
    waiting for the scheduler); and wherever they are, either nothing is under
    way any more, or the submitter has ended or a library call does something
    undefined, or one of them can take a step: they never block each other. *)
Theorem pipeline_drains s ks tr s' :
  under_way s ks → Forall outward ks → Prelude.run step s tr s' →
  Forall (λ l, internal l = true) tr →
  (length tr <= effort s)%nat ∧ (under_way s' [] ∨ halted s' ∨ moves s').
Proof.
  intros Hs Hout Hrun Htr. split.
  - pose proof (run_effort s ks tr s' Hs Hout Hrun Htr). lia.
  - destruct (run_accounted s ks tr s' Hs) as (k & Hs' & _ & _); [|done|].
    { by rewrite (internal_nothing tr Htr), app_nil_r. }
    destruct k as [|x k]; [by left|right]. by eapply progress.
Qed.
(** ** The loop bodies as runs *)

Definition runs_to (s s' : Sys) : Prop :=
  ∃ tr, Prelude.run step s tr s' ∧ Forall (λ l, internal l = true) tr.

Lemma one_step s l s' : step s l s' → internal l = true → runs_to s s'.
Proof. intros Hs ?. exists [l]. split; [by apply run_one|by constructor]. Qed.

Lemma two_steps s l1 s1 l2 s2 :
  step s l1 s1 → step s1 l2 s2 → internal l1 = true → internal l2 = true → runs_to s s2.
Proof.
  intros Hs1 Hs2 ? ?. exists [l1; l2]. split; [|by repeat constructor].
  by apply (run_cons _ _ _ _ _ _ Hs1), run_one.
Qed.

Lemma three_steps s l0 s0 s' : step s l0 s0 → internal l0 = true → runs_to s0 s' → runs_to s s'.
Proof.
  intros Hs Hl (tr & Hr & Htr). exists (l0 :: tr). split; [|by constructor].
  by apply (run_cons _ _ _ _ _ _ Hs).
Qed.

Lemma take_some t n w (ts : list QuantumTask) :
  settled w → n ≠ "" → encodes ts (contents w (place t n)) → contents w (place t n) ≠ [] →
  ∃ task w', take t n w = Some (inr task, w') ∧ delivery t n w task w'.
Proof.
  intros Hw Hn Hts Hne. destruct ts as [|task ts]; [by apply Forall2_nil_inv_l in Hts|].
  destruct (delivery_exists t n w task ts Hw Hn Hts) as [w' Hd].
  exists task, w'. split; [apply Hd|exact Hd].
Qed.

(** Replace the send of a loop body by its result. *)
Ltac sends Hp :=
  let Hs := fresh in pose proof Hp as Hs; unfold put in Hs; rewrite ?Hs; clear Hs; cbn [snd].

(** A task received: the rest of the turn. *)
Lemma scheduler_message s task w1 :
  scheduler_holds s = None → delivery scheduler_t (scheduler (queues config)) (world s) task w1 →
  ∃ w', scheduler_turn (Format := Format) scheduler_t config (world s) = Next w' ∧
    runs_to s (mkSys w' None (compiler_pc s) (fs s) (submitter_pc s) (device s)).
Proof.
  destruct s as [w h c f b d]. simpl. intros -> Hd. destruct Hd as [? Ht].
  unfold scheduler_turn. unfold take in Ht. rewrite Ht. eexists. split; [done|].
  destruct (put scheduler_t (compiler (queues config)) task w1) as [st w2] eqn:Hp; sends Hp.
  eapply two_steps; [by apply step_scheduler, step_schedule|
    by eapply step_scheduler, step_scheduled|done|by destruct (ok st)].
Qed.

Lemma compiler_message s task w1 :
  compiler_pc s = CIdle → delivery compiler_t (compiler (queues config)) (world s) task w1 →
  match compiler_turn (Format := Format) order compiler_t config (world s) (fs s) with
  | Next (w', f') => runs_to s (mkSys w' (scheduler_holds s) CIdle f' (submitter_pc s) (device s))
  | Terminated | Unspecified => ∃ s', runs_to s s' ∧ compiler_halts s'
  | Waiting => False
  end.
Proof.
  destruct s as [w h c f b d]. simpl. intros -> Hd. pose proof (proj2 Hd) as Ht.
  unfold compiler_turn. unfold take in Ht. rewrite Ht.
  destruct (applyOptimizationPasses order task f) as [o f1] eqn:Ho.
  assert (o = Undefined ∨ o = Aborted →
    ∃ s', runs_to (mkSys w h CIdle f b d) s' ∧ compiler_halts s') as Hhalt.
  { intros Hu. eexists. split; [by eapply one_step; [by apply step_compiler, step_compile|]|].
    exists task, o. simpl. by rewrite Ho. }
  destruct o as [task'|what| |]; [| |by apply Hhalt; right|by apply Hhalt; left].
  - destruct (put compiler_t (submitter (queues config)) task' w1) as [st w2] eqn:Hp; sends Hp.
    eapply three_steps; [by apply step_compiler, step_compile|done|].
    eapply two_steps; [by apply step_compiler, step_passes|
      by eapply step_compiler, step_compiled|done|by destruct (ok st)].
  - by eapply two_steps; [by apply step_compiler, step_compile|
      by eapply step_compiler, step_passes_failed| |].
Qed.

Lemma submitter_message s task w1 :
  submitter_pc s = SIdle → delivery submitter_t (submitter (queues config)) (world s) task w1 →
  match submitter_turn (Format := Format) NDEBUG submitter_t config (world s) (device s) with
  | Next (w', d') => runs_to s (mkSys w' (scheduler_holds s) (compiler_pc s) (fs s) SIdle d')
  | Terminated => ∃ w' d',
      runs_to s (mkSys w' (scheduler_holds s) (compiler_pc s) (fs s) SDead d')
  | Unspecified => ∃ s', runs_to s s' ∧ submitter_halts s'
  | Waiting => False
  end.
Proof.
  destruct s as [w h c f b d]. simpl. intros -> Hd. pose proof (proj2 Hd) as Ht.
  unfold submitter_turn. unfold take in Ht. rewrite Ht.
  destruct (createAndSubmitQDMIJobToQDMIDevice NDEBUG task d) as [o d1] eqn:Ho.
  assert ((∃ what, o = Thrown what) ∨ o = Aborted → ∃ w' d',
    runs_to (mkSys w h c f SIdle d) (mkSys w' h c f SDead d')) as Hend.
  { intros He. exists w1, d1. by eapply two_steps; [by apply step_submitter, step_submission|
      by eapply step_submitter, step_job_failed| |]. }
  destruct o as [r|what| |]; [|apply Hend; eauto..|].
  2: { eexists. split; [by eapply one_step; [by apply step_submitter, step_submission|]|].
       right. exists task. simpl. by rewrite Ho. }
  destruct (put submitter_t (QuantumTask.result_destination task) r w1) as [st w2] eqn:Hp; sends Hp.
  eapply three_steps; [by apply step_submitter, step_submission|done|].
  by eapply two_steps; [by apply step_submitter, step_job|by eapply step_submitter, step_result| |].
Qed.

(** The steps are those of the loop bodies: a turn of the scheduler, the
    compiler or the submitter that finds a task is a run of steps with the
    effect of the turn; when the submitter's turn ends the process, the run
    ends it too. *)
Theorem turns_are_steps s ks :
  under_way s ks →
  (∀ w', scheduler_holds s = None → contents (world s) q_scheduler ≠ [] →
     scheduler_turn (Format := Format) scheduler_t config (world s) = Next w' →
     runs_to s (mkSys w' None (compiler_pc s) (fs s) (submitter_pc s) (device s))) ∧
  (∀ w' f', compiler_pc s = CIdle → contents (world s) q_compiler ≠ [] →
     compiler_turn (Format := Format) order compiler_t config (world s) (fs s) = Next (w', f') →
     runs_to s (mkSys w' (scheduler_holds s) CIdle f' (submitter_pc s) (device s))) ∧
  (submitter_pc s = SIdle → contents (world s) q_submitter ≠ [] →
     let turn := submitter_turn (Format := Format) NDEBUG submitter_t config
                   (world s) (device s) in
     (∀ w' d', turn = Next (w', d') →
        runs_to s (mkSys w' (scheduler_holds s) (compiler_pc s) (fs s) SIdle d')) ∧
     (turn = Terminated → ∃ w' d',
        runs_to s (mkSys w' (scheduler_holds s) (compiler_pc s) (fs s) SDead d'))).
Proof.
  destruct Hconnected as (_ & _ & _ & _ & _ & Ns & Nc & Nb).
  intros (Hw & ts & tc & tb & Hts & Htc & Htb & _). split_and!.
  - intros w' Hpc Hne. destruct (take_some _ _ _ _ Hw Ns Hts Hne) as (task & w1 & _ & Hd).
    destruct (scheduler_message s task w1 Hpc Hd) as (w2 & -> & Hr). by intros [= <-].
  - intros w' f' Hpc Hne. destruct (take_some _ _ _ _ Hw Nc Htc Hne) as (task & w1 & _ & Hd).
    pose proof (compiler_message s task w1 Hpc Hd) as Hr. intros Ht. by rewrite Ht in Hr.
  - intros Hpc Hne. destruct (take_some _ _ _ _ Hw Nb Htb Hne) as (task & w1 & _ & Hd).
    pose proof (submitter_message s task w1 Hpc Hd) as Hr.
    split; [intros w' d' Ht|intros Ht]; by rewrite Ht in Hr.
Qed.
End Pipeline.

(** ** A concrete run

    The daemon's task through the three processes, over the in-memory transport. *)

Import (hints) InMemoryTransport.
Import (hints) TextMlir.
Import (hints) LocalQdmi.

Module Demo.
Import QrmWorkflow.Example.
#[export] Instance task_plain : PlainCodec QuantumTask Text.
Proof. split; intros v; [intros e; by apply checked_plain|apply checked_not_ok]. Qed.
#[export] Instance result_plain : PlainCodec QuantumResult Text.
Proof. split; intros v; [intros e; by apply checked_plain|apply checked_not_ok]. Qed.

Definition step := step (Format := Text) (F := gmap string string) false id config tt tt tt.
Definition files : gmap string string :=
  {[source config := unlines ["gate spurious a {"; "}"; "h q[0];"]]}.
Definition library : LocalQdmi.Library := LocalQdmi.mkLibrary ∅ ∅.
Definition start : Sys := mkSys world None CIdle files SIdle library.

Definition task := daemon_task config.
Definition compiled := applyOptimizationPasses (F := gmap string string) id task files.
Definition compiled_task := with_circuit_files [unlines ["h q[0];"]] task.
Definition job := createAndSubmitQDMIJobToQDMIDevice false compiled_task library.
Definition result := QrmSubmitter.result_of compiled_task (unlines ["h q[0];"]) histogram.
Definition sent (q : string) (t : QuantumTask) (w : InMemoryTransport.World) :=
  (put (Format := Text) tt q t w).2.
Definition got (q : string) (w : InMemoryTransport.World) :=
  default w (snd <$> take (Format := Text) tt q w).

Definition w1 := sent (scheduler (queues config)) task world.
Definition w2 := got (scheduler (queues config)) w1.
Definition w3 := sent (compiler (queues config)) task w2.
Definition w4 := got (compiler (queues config)) w3.
Definition w5 := sent (submitter (queues config)) compiled_task w4.
Definition w6 := got (submitter (queues config)) w5.
Definition w7 := (put (Format := Text) tt (results (queues config)) result w6).2.
Definition trace : list Label :=
  [LSubmitted task true; LMoved; LMoved; LMoved; LMoved; LMoved; LMoved; LMoved;
   LResult (results (queues config)) result true].
Definition submitted_task : Sys := mkSys w1 None CIdle files SIdle library.
Definition final : Sys := mkSys w7 None CIdle compiled.2 SIdle job.2.

(** A queue that holds something, decided by evaluation. *)
Lemma demo_delivered q (w w' : InMemoryTransport.World) t :
  (0 < length (contents w (place tt q)))%nat →
  take (Format := Text) tt q w = Some (inr t, w') → delivery (Format := Text) tt q w t w'.
Proof. intros Hl Ht. split; [|exact Ht]. intros Hq. rewrite Hq in Hl. simpl in Hl. lia. Qed.

Ltac evaluated := vm_compute; first [reflexivity|repeat constructor].

Lemma demo_step1 : step start (LSubmitted task true) submitted_task.
Proof. apply (step_submit false id config tt tt tt tt task world w1 success); evaluated. Qed.
Lemma demo_step2 : step submitted_task LMoved
  (mkSys w2 (Some task) CIdle files SIdle library).
Proof. apply step_scheduler, step_schedule, demo_delivered; evaluated. Qed.
Lemma demo_step3 : step (mkSys w2 (Some task) CIdle files SIdle library) LMoved
  (mkSys w3 None CIdle files SIdle library).
Proof. apply step_scheduler, (step_scheduled config tt w2 w3 success task); evaluated. Qed.
Lemma demo_step4 : step (mkSys w3 None CIdle files SIdle library) LMoved
  (mkSys w4 None (CTask task) files SIdle library).
Proof. apply step_compiler, step_compile, demo_delivered; evaluated. Qed.
Lemma demo_step5 : step (mkSys w4 None (CTask task) files SIdle library) LMoved
  (mkSys w4 None (CDone compiled_task) compiled.2 SIdle library).
Proof.
  apply step_compiler, (step_passes (F := gmap string string) id config tt w4 task compiled_task None
           files compiled.2 SIdle library).
  evaluated.
Qed.
Lemma demo_step6 : step (mkSys w4 None (CDone compiled_task) compiled.2 SIdle library) LMoved
  (mkSys w5 None CIdle compiled.2 SIdle library).
Proof. apply step_compiler, (step_compiled id config tt w4 w5 success compiled_task); evaluated. Qed.
Lemma demo_step7 : step (mkSys w5 None CIdle compiled.2 SIdle library) LMoved
  (mkSys w6 None CIdle compiled.2 (STask compiled_task) library).
Proof. apply step_submitter, step_submission, demo_delivered; evaluated. Qed.
Lemma demo_step8 : step (mkSys w6 None CIdle compiled.2 (STask compiled_task) library) LMoved
  (mkSys w6 None CIdle compiled.2 (SDone compiled_task result) job.2).
Proof. apply step_submitter, step_job; evaluated. Qed.
Lemma demo_step9 : step (mkSys w6 None CIdle compiled.2 (SDone compiled_task result) job.2)
  (LResult (results (queues config)) result true) final.
Proof. apply step_submitter, (step_result false config tt w6 w7 success compiled_task result); evaluated. Qed.

Lemma demo_drains : Prelude.run step submitted_task (drop 1 trace) final.
Proof.
  exact (run_cons _ _ _ _ _ _ demo_step2 (run_cons _ _ _ _ _ _ demo_step3
    (run_cons _ _ _ _ _ _ demo_step4 (run_cons _ _ _ _ _ _ demo_step5
    (run_cons _ _ _ _ _ _ demo_step6 (run_cons _ _ _ _ _ _ demo_step7
    (run_cons _ _ _ _ _ _ demo_step8 (run_one _ _ _ _ demo_step9)))))))).
Qed.

Lemma demo_runs : Prelude.run step start trace final.
Proof. exact (run_cons _ _ _ _ _ _ demo_step1 demo_drains). Qed.

Lemma demo_connected : connected config tt tt tt.
Proof. unfold connected. repeat split; vm_compute; congruence. Qed.

Lemma demo_start : under_way (Format := Text) config tt tt tt start [].
Proof.
  split; [|by exists [], [], []].
  split; [reflexivity|]. eexists. split; reflexivity.
Qed.

Lemma demo_under_way :
  under_way (Format := Text) config tt tt tt submitted_task [(111, "test.results.queue")].
Proof.
  split; [split; [reflexivity|]; eexists; split; reflexivity|].
  exists [task], [], []. split_and!; vm_compute; repeat constructor.
Qed.

Lemma demo_outward : outward config tt tt tt (111, "test.results.queue").
Proof. split; [discriminate|]. apply (bool_decide_unpack _). vm_compute. exact I. Qed.
End Demo.
Import (hints) QrmWorkflow.Example.
Import (hints) Demo.

Lemma pipeline_order_witness :
  ∃ ks, posted Demo.trace ++ ks = [(111, "test.results.queue")].
Proof.
  destruct (pipeline_order (Format := QrmWorkflow.Example.Text) (F := gmap string string)
    false id Example.config tt tt tt (λ l, Permutation_refl l) Demo.demo_connected Demo.start Demo.trace
    Demo.final Demo.demo_start) as (ks & _ & _ & H).
  - exact (proj2 (Forall_cons _ _ _) (conj Demo.demo_outward (Forall_nil_2 _))).
  - exact Demo.demo_runs.
  - exists ks. rewrite H by reflexivity. reflexivity.
Defined.

Lemma pipeline_drains_witness :
  (length (drop 1 Demo.trace) <= effort Example.config tt tt tt Demo.submitted_task)%nat.
Proof.
  apply (pipeline_drains (Format := QrmWorkflow.Example.Text) (F := gmap string string)
    false id Example.config tt tt tt (λ l, Permutation_refl l) Demo.demo_connected Demo.submitted_task
    [(111, "test.results.queue")] (drop 1 Demo.trace) Demo.final Demo.demo_under_way).
  - exact (proj2 (Forall_cons _ _ _) (conj Demo.demo_outward (Forall_nil_2 _))).
  - exact Demo.demo_drains.
  - repeat constructor.
Defined.

Lemma turns_are_steps_witness :
  scheduler_turn (Format := QrmWorkflow.Example.Text) tt Example.config Demo.w1 = Next Demo.w3 ∧
  runs_to (Format := QrmWorkflow.Example.Text) false id Example.config tt tt tt
    Demo.submitted_task (mkSys Demo.w3 None CIdle Demo.files SIdle Demo.library).
Proof.
  assert (scheduler_turn (Format := QrmWorkflow.Example.Text) tt Example.config Demo.w1 =
    Next Demo.w3) as Ht by (vm_compute; reflexivity).
  split; [exact Ht|].
  refine (proj1 (turns_are_steps (Format := QrmWorkflow.Example.Text) (F := gmap string string)
    false id Example.config tt tt tt Demo.demo_connected Demo.submitted_task
    [(111, "test.results.queue")] Demo.demo_under_way) Demo.w3 eq_refl _ Ht).
  intros H. vm_compute in H. discriminate.
Defined.
