(* ===== verification/QrmFaults.v ===== *)
(** * The QRM workflow when calls fail

    [QrmPipeline] is about queues on which sends succeed and receives find what
    is there.  Here any call of a transport may fail ([FaultyQueues]): polls time
    out or fail, and may lose tasks; a send reported failed may have been
    stored.  The processes log a failure and go on.  What the [main] functions
    of [QrmWorkflow] do, however long they are observed, is a run of these
    steps. *)

From S2P Require Import Prelude Status Message Transport Codec CharConv Protocol Config.
From S2P Require Import QueueTransport Cxx QrmConfig Circuits QrmCompiler QrmSubmitter QrmWorkflow QrmPipeline.
From S2P Require Messenger RabbitMqSimpleTransport.

Section Faults.
Context {T W : Type} `{FaultyQueues T W} {Format : Type}
  `{CodecLaws QuantumTask Format} `{CodecLaws QuantumResult Format}
  `{!PlainCodec QuantumTask Format} `{!PlainCodec QuantumResult Format}.
Context {F : Type} `{Mlir F} {B : Type} `{QdmiClient B}.
Context (NDEBUG : bool) (order : list (nat * string) → list (nat * string))
  (config : Config).
Context (scheduler_t compiler_t submitter_t : T).

Notation Sys := (Sys (W := W) (F := F) (B := B)).
Notation step := (step (Format := Format) NDEBUG order config scheduler_t compiler_t submitter_t).
Notation take := (take (Format := Format)).
Notation q_scheduler := (q_scheduler config scheduler_t).
Notation q_compiler := (q_compiler config compiler_t).
Notation q_submitter := (q_submitter config submitter_t).
Notation pipeline := (pipeline config scheduler_t compiler_t submitter_t).
Notation carries := (carries (Format := Format) config scheduler_t compiler_t submitter_t).
Notation outward := (outward config scheduler_t compiler_t submitter_t).

(** ** Steps *)

(** A poll that fails: nothing arrived, the transport failed, or what arrived
    does not decode. *)
Definition fails (t : T) (queue : string) (w w' : W) : Prop :=
  ∃ st, take t queue w = Some (inl st, w').

(** The steps of the three processes. *)
Inductive process_step : Sys → Label → Sys → Prop :=
  | fault_none s l s' : step s l s' → internal l = true → process_step s l s'
  | fault_scheduler w w' c f b d :
      fails scheduler_t (scheduler (queues config)) w w' →
      process_step (mkSys w None c f b d) LMoved (mkSys w' None c f b d)
  | fault_compiler w w' s f b d :
      fails compiler_t (compiler (queues config)) w w' →
      process_step (mkSys w s CIdle f b d) LMoved (mkSys w' s CIdle f b d)
  | fault_submitter w w' s c f d :
      fails submitter_t (submitter (queues config)) w w' →
      process_step (mkSys w s c f SIdle d) LMoved (mkSys w' s c f SIdle d).

Inductive faulty_step : Sys → Label → Sys → Prop :=
  | fault_submit t task w w' st s c f b d :
      place t (scheduler (queues config)) = q_scheduler →
      put (Format := Format) t (scheduler (queues config)) task w = (st, w') →
      faulty_step (mkSys w s c f b d) (LSubmitted task (ok st)) (mkSys w' s c f b d)
  | fault_other w w' s c f b d :
      calm w → calm w' → (∀ p, p ∈ pipeline → contents w' p = contents w p) →
      faulty_step (mkSys w s c f b d) LOther (mkSys w' s c f b d)
  | fault_process s l s' : process_step s l s' → faulty_step s l s'.

(** What happens without failures can happen. *)
Lemma step_faulty s l s' : step s l s' → faulty_step s l s'.
Proof.
  intros Hs. destruct (internal l) eqn:Hi; [by apply fault_process, fault_none|].
  destruct Hs as [t task w w' st s c f b d Ht Hp|w w' s c f b d Hw Hw' Hp|? ? ? []|? ? ? []|? ? ? []];
    simpl in Hi; try done; try (by destruct (ok st)).
  - by eapply fault_submit.
  - by apply fault_other; [apply calm_settled..|].
Qed.

(** ** Accounting for tasks *)

Definition attempts (l : Label) : list Key :=
  match l with LSubmitted task _ => [key task] | _ => [] end.
Definition attempted (tr : list Label) : list Key := tr ≫= attempts.

(** Polls that never lose a task, whether they succeed or fail. *)
Definition keeping : Prop := lossless poll_args = true ∧ failsafe poll_args = true.

Notation encodes := (Forall2 (λ (v : QuantumTask) e, encode Format v = inr e)).

Context (Horder : ∀ l, order l ≡ₚ l) (Hconnected : connected config scheduler_t compiler_t submitter_t).

(** What one step does: it stores some of what is handed in, all if that is
    accepted, and posts and drops some of what the pipeline carries. *)
Definition accounted (s : Sys) (ks : list Key) (l : Label) (s' : Sys) : Prop :=
  calm (world s') ∧ ∃ new ks', carries s' ks' ∧
    incoming l `sublist_of` new ∧ new `sublist_of` attempts l ∧
    outgoing l ++ ks' `sublist_of` ks ++ new ∧
    (keeping → length (ks ++ new) <= length (outgoing l ++ ks') + lost l)%nat.

Lemma poll_effect t n w (r : Result QuantumTask) w' (ts : list QuantumTask) :
  calm w → encodes ts (contents w (place t n)) → take t n w = Some (r, w') →
  calm w' ∧ (∃ skipped rest, encodes rest (contents w' (place t n)) ∧
    match r with inr v => ts = v :: skipped ++ rest | inl _ => ts = skipped ++ rest end ∧
    (keeping → skipped = [])) ∧
  ∀ p, p ≠ place t n → contents w' p = contents w p.
Proof.
  intros Hw Hts Ht. apply receive_took in Ht as (Hw' & Ht & Hp); [|done..].
  split; [done|]. split; [|done].
  destruct (took_values _ _ _ _ _ Hts Ht) as (l & rest & Hrest & Hl).
  exists l, rest. unfold keeping. destruct r; naive_solver.
Qed.

(** The queues are [ts], [tc] and [tb] afterwards, and [new] was stored. *)
Ltac account new ts tc tb :=
  split; [done|]; exists new; eexists; split; [exists ts, tc, tb; simpl; split_and!; [..|reflexivity]|
  split_and!; [try done; auto using sublist_nil_l|try done; auto using sublist_nil_l|sublists|
    intros Hx; keys_simpl; rewrite ?length_app; simpl]].

(** After a send, by what was stored, and after a poll of the queue of [vs]. *)
Ltac sent :=
  match goal with Hs : put _ _ _ _ = (?st, _) |- _ =>
    apply put_faulty in Hs as (Hw' & stored & [->|(e & -> & He)] & Hok & Hp); [| |done];
    [destruct (ok st); [by destruct Hok|]|destruct (ok st)] end.
Ltac polled vs :=
  repeat match goal with
  | Hs : delivery _ _ _ _ _ |- _ => destruct Hs as [_ Hs]
  | Hs : fails _ _ _ _ |- _ => destruct Hs as [? Hs]
  end;
  match goal with Hs : take _ _ _ = _ |- _ =>
    apply (poll_effect _ _ _ _ _ vs) in Hs
      as (Hw' & (skipped & rest & Hrest & -> & Hskip) & Hp); [|done..] end.
(** The queues after it. *)
Ltac queues :=
  fold q_scheduler q_compiler q_submitter in *;
  repeat match goal with Hp : ∀ p, _ |- _ =>
    progress rewrite ?(Hp q_scheduler), ?(Hp q_compiler), ?(Hp q_submitter)
      by (congruence || done) end;
  repeat rewrite ?decide_True, ?decide_False, ?app_nil_r by (congruence || done);
  repeat first [done | apply Forall2_app | apply Forall2_cons; split | apply Forall2_nil].
Ltac settle := queues;
  try match goal with Hk : keeping → _ = [], Hx : keeping |- _ => rewrite (Hk Hx) end;
  rewrite ?length_app, ?length_fmap; simpl; lia || done.

Lemma step_accounts_keys s ks l s' :
  calm (world s) → carries s ks → Forall outward ks → faulty_step s l s' → accounted s ks l s'.
Proof.
  destruct Hconnected as (Ec & Es & N1 & N2 & N3 & Ns & Nc & Nb).
  intros Hw (ts & tc & tb & Hts & Htc & Htb & ->) Hout Hs.
  destruct Hs as [| |? ? ? [? ? ? [| |? ? ? []|? ? ? []|? ? ? []] Hint| | |]]; simpl in *;
    try discriminate Hint.
  - sent; [account (@nil Key) ts tc tb|account [key task] (ts ++ [task]) tc tb..]; settle.
  - match goal with Hp : ∀ p, _ |- _ =>
      pose proof (Hp q_scheduler ltac:(by left)) as E1;
      pose proof (Hp q_compiler ltac:(right; by left)) as E2;
      pose proof (Hp q_submitter ltac:(right; right; by left)) as E3 end.
    account (@nil Key) ts tc tb; rewrite ?E1, ?E2, ?E3; settle.
  - polled ts; account (@nil Key) rest tc tb; settle.
  - sent; [account (@nil Key) ts tc tb|account (@nil Key) ts (tc ++ [task]) tb..]; settle.
  - polled tc; account (@nil Key) ts rest tb; settle.
  - match goal with Hc : applyOptimizationPasses _ _ _ = _ |- _ =>
      apply compiled_task in Hc as [Hid Hdest]; [|done] end.
    replace (key task) with (key task') by (unfold key; congruence).
    account (@nil Key) ts tc tb; settle.
  - account (@nil Key) ts tc tb; settle.
  - sent; [account (@nil Key) ts tc tb|account (@nil Key) ts tc (tb ++ [task])..]; settle.
  - polled tb; account (@nil Key) ts tc rest; settle.
  - match goal with Hc : createAndSubmitQDMIJobToQDMIDevice _ _ _ = _ |- _ =>
      apply submitted_result in Hc end.
    replace (key task) with
      (QuantumResult.task_id r, QuantumTask.result_destination task) by (unfold key; congruence).
    account (@nil Key) ts tc tb; settle.
  - account (@nil Key) ts tc tb; settle.
  - apply Forall_cons in Hout as [[Hd Hpl] _]. simpl in Hd, Hpl.
    unfold QrmPipeline.pipeline in Hpl. rewrite !not_elem_of_cons in Hpl.
    destruct Hpl as (? & ? & ? & _). sent; account (@nil Key) ts tc tb; settle.
  - polled ts; account (@nil Key) rest tc tb; settle.
  - polled tc; account (@nil Key) ts rest tb; settle.
  - polled tb; account (@nil Key) ts tc rest; settle.
Qed.

Lemma run_accounts_keys s ks tr s' :
  calm (world s) → carries s ks → Forall outward (ks ++ attempted tr) →
  Prelude.run faulty_step s tr s' →
  calm (world s') ∧ ∃ stored ks', carries s' ks' ∧
    submitted tr `sublist_of` stored ∧ stored `sublist_of` attempted tr ∧
    posted tr ++ ks' `sublist_of` ks ++ stored ∧
    (keeping → length (ks ++ stored) <= length (posted tr ++ ks') + losses tr)%nat.
Proof.
  intros Hw Hs Hout Hrun. revert Hout. induction Hrun as [|tr s1 l s2 Hrun IH Hl]; intros Hout.
  { split; [done|]. exists [], ks. unfold posted, submitted, losses. simpl. rewrite app_nil_r.
    split_and!; [done..|]. intros _. lia. }
  unfold posted, submitted, attempted, losses in *. rewrite !bind_app in *. simpl in *.
  rewrite !app_nil_r, !app_assoc, sum_list_with_app in *.
  destruct IH as (Hw1 & st1 & k1 & Hs1 & Hsub1 & Hatt1 & Hk1 & Hlen1);
    [by apply Forall_app in Hout as [? _]|].
  destruct (step_accounts_keys s1 k1 l s2 Hw1 Hs1) as (Hw2 & st2 & k2 & Hs2 & Hsub2 & Hatt2 & Hk2 & Hlen2);
    [|done|].
  { apply Forall_app in Hout as [Hout _]. eapply Forall_sublist; [|exact Hout].
    etransitivity; [apply sublist_inserts_l; reflexivity|]. etransitivity; [exact Hk1|].
    by apply sublist_app. }
  split; [done|]. exists (st1 ++ st2), k2. split_and!; [done|by apply sublist_app..| |].
  - rewrite <- app_assoc. etransitivity; [by apply sublist_app, Hk2|].
    rewrite !app_assoc. by apply sublist_app.
  - intros Hx. specialize (Hlen1 Hx). specialize (Hlen2 Hx).
    rewrite !length_app in *. simpl. lia.
Qed.

(** C10. Exactly once, in order, whatever calls fail: in any interleaving of the
    scheduler, the compiler, the submitter and any number of daemons, over any
    transport with queues, with polls that time out, fail or lose tasks and
    sends that fail although the task was stored, there is a sequence of stored
    tasks, all those reported accepted and possibly some reported failed, such
    that the results posted so far followed by the tasks under way are, by
    identifier and result queue, a subsequence of it: nothing is invented,
    duplicated or overtaken, and every result goes to the queue its task names.
    Nothing is missing either if polls lose nothing, no exception or failed send
    was logged and the submitter is alive. *)
Theorem pipeline_order_always s tr s' :
  calm (world s) → carries s [] → Forall outward (attempted tr) →
  Prelude.run faulty_step s tr s' →
  ∃ stored ks, submitted tr `sublist_of` stored ∧ stored `sublist_of` attempted tr ∧
    carries s' ks ∧ posted tr ++ ks `sublist_of` stored ∧
    (keeping → losses tr = 0%nat → posted tr ++ ks = stored).
Proof.
  intros Hw Hs Hout Hrun.
  destruct (run_accounts_keys s [] tr s' Hw Hs Hout Hrun)
    as (_ & st & ks & Hs' & Hsub & Hatt & Hk & Hlen).
  exists st, ks. split_and!; [done..|]. intros Hx Hl. specialize (Hlen Hx). simpl in *.
  apply sublist_same_length; [done|lia].
Qed.

(** ** The loops and the [main] functions *)

Definition process_runs (s s' : Sys) : Prop := ∃ tr, Prelude.run process_step s tr s'.

Lemma process_runs_one s l s' : process_step s l s' → process_runs s s'.
Proof. intros Hs. exists [l]. by apply run_one. Qed.
Lemma process_runs_trans s s1 s' : process_runs s s1 → process_runs s1 s' → process_runs s s'.
Proof. intros [tr1 Hr1] [tr2 Hr2]. exists (tr1 ++ tr2). by eapply run_app. Qed.
Lemma runs_process s s' :
  runs_to (Format := Format) NDEBUG order config scheduler_t compiler_t submitter_t s s' →
  process_runs s s'.
Proof.
  intros (tr & Hr & Hi). exists tr. induction Hr as [|tr s1 l s2 _ IH Hs]; [constructor|].
  apply Forall_app in Hi as [Hi [Hl _]%Forall_cons].
  econstructor; [by apply IH|by apply fault_none].
Qed.

Lemma process_calm s l s' : calm (world s) → process_step s l s' → calm (world s').
Proof.
  intros Hw Hs. destruct Hs as [? ? ? [| |? ? ? []|? ? ? []|? ? ? []] Hint| | |]; simpl in *;
    try discriminate Hint; try done;
    repeat match goal with
    | Hs : delivery _ _ _ _ _ |- _ => destruct Hs as [_ Hs]
    | Hs : fails _ _ _ _ |- _ => destruct Hs as [? Hs]
    | Hs : take _ _ _ = _ |- _ => by apply receive_took in Hs as [? _]
    | Hs : put _ _ _ _ = _ |- _ => by apply put_faulty in Hs as [? _]
    end.
Qed.

Lemma process_runs_calm s s' : calm (world s) → process_runs s s' → calm (world s').
Proof.
  intros Hw [tr Hr]. induction Hr as [|tr s1 l s2 _ IH Hs]; [done|]. by eapply process_calm.
Qed.

(** What is observed of a process from the state [s] on: its next turn starts in
    [at_ x]; it ends or does something undefined, and the state then is one in
    which it [halts]; or a poll has not returned, though polls need not return
    ([ends]). *)
Definition explains {S} (ends : Prop) (halts : Sys → Prop) (at_ : S → Sys) (s : Sys) (r : Turn S)
    : Prop :=
  match r with
  | Next x => process_runs s (at_ x)
  | Terminated | Unspecified => ∃ s', process_runs s s' ∧ halts s'
  | Waiting => ¬ ends
  end.

(** A loop is explained by its turns. *)
Lemma forever_explained {S} ends halts (at_ : S → Sys) (turn : S → Turn S) n x :
  (∀ x, calm (world (at_ x)) → explains ends halts at_ (at_ x) (turn x)) →
  calm (world (at_ x)) → explains ends halts at_ (at_ x) (forever turn n x).
Proof.
  intros Hturn. revert x. induction n as [|n IH]; intros x Hw; simpl.
  { exists []. constructor. }
  pose proof (Hturn x Hw) as Hr. destruct (turn x) as [| | |x1]; simpl in *; try done.
  specialize (IH x1 (process_runs_calm _ _ Hw Hr)).
  destruct (forever turn n x1) as [| | |x2]; simpl in *; try done.
  - destruct IH as (s' & Hr' & ?). exists s'. split; [by eapply process_runs_trans|done].
  - destruct IH as (s' & Hr' & ?). exists s'. split; [by eapply process_runs_trans|done].
  - by eapply process_runs_trans.
Qed.

(** A poll of this queue returns, as one with a timeout should. *)
Definition polls_end (t : T) (queue : string) : Prop :=
  ∀ w, calm w → is_Some (take t queue w).

(** The state in which a process starts its next turn. *)
Definition scheduler_at c f b d (w : W) : Sys := mkSys w None c f b d.
Definition compiler_at h b d '((w, f) : W * F) : Sys := mkSys w h CIdle f b d.
Definition submitter_at h c f '((w, d) : W * B) : Sys := mkSys w h c f SIdle d.

Lemma scheduler_explained c f b d w :
  calm w →
  explains (polls_end scheduler_t (scheduler (queues config))) (λ _, False) (scheduler_at c f b d)
    (scheduler_at c f b d w) (scheduler_turn (Format := Format) scheduler_t config w).
Proof.
  intros Hw. destruct (take scheduler_t (scheduler (queues config)) w) as [[[x|task] w1]|] eqn:Hr.
  - unfold QrmPipeline.take in Hr. unfold scheduler_turn. rewrite Hr.
    eapply process_runs_one, fault_scheduler. by exists x.
  - destruct (scheduler_message (Format := Format) NDEBUG order config scheduler_t compiler_t
      submitter_t (mkSys w None c f b d) task w1 eq_refl) as (w2 & Ht & Hrun).
    { by apply receive_found in Hr as [? _]. }
    simpl in Ht. rewrite Ht. by apply runs_process.
  - pose proof Hr as Hn. unfold QrmPipeline.take in Hr. unfold scheduler_turn. rewrite Hr.
    intros He. destruct (He w Hw) as [? E]. congruence.
Qed.

Lemma compiler_explained h b d w f :
  calm w →
  explains (polls_end compiler_t (compiler (queues config))) (compiler_halts order)
    (compiler_at h b d) (compiler_at h b d (w, f))
    (compiler_turn (Format := Format) order compiler_t config w f).
Proof.
  intros Hw. destruct (take compiler_t (compiler (queues config)) w) as [[[x|task] w1]|] eqn:Hr.
  - unfold QrmPipeline.take in Hr. unfold compiler_turn. rewrite Hr.
    eapply process_runs_one, fault_compiler. by exists x.
  - pose proof (compiler_message (Format := Format) NDEBUG order config scheduler_t compiler_t
      submitter_t (mkSys w h CIdle f b d) task w1 eq_refl) as Hm. simpl in Hm.
    apply receive_found in Hr as [Hd _]; [|done..]. specialize (Hm Hd).
    destruct (compiler_turn _ _ _ _ _) as [| | |[w' f']]; simpl; try done.
    + destruct Hm as (s' & Hm & ?). exists s'. by split; [apply runs_process|].
    + destruct Hm as (s' & Hm & ?). exists s'. by split; [apply runs_process|].
    + by apply runs_process.
  - pose proof Hr as Hn. unfold QrmPipeline.take in Hr. unfold compiler_turn. rewrite Hr.
    intros He. destruct (He w Hw) as [? E]. congruence.
Qed.

Lemma submitter_explained h c f w d :
  calm w →
  explains (polls_end submitter_t (submitter (queues config))) (submitter_halts NDEBUG)
    (submitter_at h c f) (submitter_at h c f (w, d))
    (submitter_turn (Format := Format) NDEBUG submitter_t config w d).
Proof.
  intros Hw. destruct (take submitter_t (submitter (queues config)) w) as [[[x|task] w1]|] eqn:Hr.
  - unfold QrmPipeline.take in Hr. unfold submitter_turn. rewrite Hr.
    eapply process_runs_one, fault_submitter. by exists x.
  - pose proof (submitter_message (Format := Format) NDEBUG order config scheduler_t compiler_t
      submitter_t (mkSys w h c f SIdle d) task w1 eq_refl) as Hm. simpl in Hm.
    apply receive_found in Hr as [Hd _]; [|done..]. specialize (Hm Hd).
    destruct (submitter_turn _ _ _ _ _) as [| | |[w' d']]; simpl; try done.
    + destruct Hm as (w' & d' & Hm). eexists. split; [by apply runs_process|by left].
    + destruct Hm as (s' & Hm & ?). exists s'. by split; [apply runs_process|].
    + by apply runs_process.
  - pose proof Hr as Hn. unfold QrmPipeline.take in Hr. unfold submitter_turn. rewrite Hr.
    intros He. destruct (He w Hw) as [? E]. congruence.
Qed.

(** A daemon hands in its task; then it reads a queue of its own. *)
Lemma daemon_runs log_dir bench env open_error connect w w1 t store o w' h c f b d :
  config = loadConfig log_dir bench env → calm w1 →
  connect (messenger_options config) w = (t, w1) →
  place t (scheduler (queues config)) = q_scheduler →
  place t (results (queues config)) ∉ pipeline →
  daemon_main (Format := Format) NDEBUG log_dir bench env open_error connect w initial_store =
    (Returned (Some (o, w')), store) →
  ∃ tr, Prelude.run faulty_step (mkSys w1 h c f b d) tr (mkSys w' h c f b d) ∧
    attempted tr = [key (daemon_task config)] ∧ posted tr = [].
Proof.
  intros Hconfig Hw Hc Hs Hres Hm. apply started_inv in Hm. rewrite <- Hconfig, Hc in Hm.
  destruct (daemon_send t config w1) as [st w2] eqn:Hsend.
  assert (faulty_step (mkSys w1 h c f b d) (LSubmitted (daemon_task config) (ok st))
    (mkSys w2 h c f b d)) as Hstep by (by eapply fault_submit).
  destruct (ok st); simpl in Hm.
  - destruct (daemon_receive t config w2) as [[r w3]|] eqn:Hr; [|done]. injection Hm as _ ->.
    unfold daemon_receive in Hr. apply put_faulty in Hsend as [Hw2 _]; [|done].
    apply receive_took in Hr as (Hw3 & _ & Hp); [|done..].
    eexists. split; [eapply run_cons; [exact Hstep|apply run_one, fault_other]|done]; try done.
    intros p Hin. apply Hp. congruence.
  - injection Hm as _ ->. eexists. split; [by apply run_one|done].
Qed.

(** C38. The steps are what the programs do: whatever calls fail and however
    many turns are observed, a scheduler, compiler or submitter that starts with
    the configuration of its environment and opens its messenger makes a run of
    the steps of its loop, failed polls and sends among them, from the queues
    and the library state it finds to those it leaves.  The scheduler never
    ends; the compiler and the submitter only where their libraries make them;
    none of them hangs if polls return.  A daemon that returns has handed in its
    one task, and leaves the queues of the pipeline alone otherwise. *)
Theorem mains_are_runs log_dir bench env open_error connect n w w1 store h c f b d :
  config = loadConfig log_dir bench env → calm w1 →
  (∀ r, connect (messenger_options config) w = (scheduler_t, w1) →
     scheduler_main (Format := Format) NDEBUG log_dir bench env open_error connect n w
       initial_store = (Returned r, store) →
     explains (polls_end scheduler_t (scheduler (queues config))) (λ _, False)
       (scheduler_at c f b d) (scheduler_at c f b d w1) r) ∧
  (∀ r, connect (messenger_options config) w = (compiler_t, w1) →
     compiler_main (Format := Format) NDEBUG log_dir bench env open_error connect order n f w
       initial_store = (Returned r, store) →
     explains (polls_end compiler_t (compiler (queues config))) (compiler_halts order)
       (compiler_at h b d) (compiler_at h b d (w1, f)) r) ∧
  (∀ r, connect (messenger_options config) w = (submitter_t, w1) →
     submitter_main (Format := Format) NDEBUG log_dir bench env open_error connect n d w
       initial_store = (Returned r, store) →
     explains (polls_end submitter_t (submitter (queues config))) (submitter_halts NDEBUG)
       (submitter_at h c f) (submitter_at h c f (w1, d)) r) ∧
  (∀ t o w', connect (messenger_options config) w = (t, w1) →
     place t (scheduler (queues config)) = q_scheduler →
     place t (results (queues config)) ∉ pipeline →
     daemon_main (Format := Format) NDEBUG log_dir bench env open_error connect w initial_store =
       (Returned (Some (o, w')), store) →
     ∃ tr, Prelude.run faulty_step (mkSys w1 h c f b d) tr (mkSys w' h c f b d) ∧
       attempted tr = [key (daemon_task config)] ∧ posted tr = []).
Proof.
  intros Hconfig Hw. split_and!; intros r.
  4: intros o w'; by apply daemon_runs.
  all: intros Hc Hm; apply started_inv in Hm; rewrite <- Hconfig, Hc in Hm; subst r;
    apply forever_explained; [|exact Hw].
  - intros x Hx. by apply scheduler_explained.
  - intros [x y] Hx. by apply compiler_explained.
  - intros [x y] Hx. by apply submitter_explained.
Qed.
End Faults.

(** ** A concrete run

    The run of [QrmPipeline.Demo], after polls of all processes that time out and
    before the transport is shut down: the next task is rejected and the next
    poll fails. *)

Import (hints) InMemoryTransport.
Import (hints) TextMlir.
Import (hints) LocalQdmi.
Import (hints) QrmWorkflow.Example.
Import (hints) QrmPipeline.Demo.

Module Failing.
Import QrmWorkflow.Example.
Import QrmPipeline.Demo.

Notation step := (faulty_step (Format := Text) (F := gmap string string) false id config tt tt tt).
Definition w8 := InMemoryTransport.shutdown w7.
Definition down : Sys := mkSys w8 None CIdle compiled.2 SIdle job.2.
Definition history : list Label :=
  [LMoved; LMoved; LMoved] ++ trace ++ [LOther; LSubmitted task false; LMoved].

Lemma idle_polls : Prelude.run step start [LMoved; LMoved; LMoved] start.
Proof.
  eapply run_cons; [apply fault_process, (fault_scheduler _ _ _ _ _ _ world world); eexists; vm_compute; reflexivity|].
  eapply run_cons; [apply fault_process, (fault_compiler _ _ _ _ _ _ world world); eexists; vm_compute; reflexivity|].
  apply run_one, fault_process, (fault_submitter _ _ _ _ _ _ world world). eexists. vm_compute. reflexivity.
Qed.

Lemma working : Prelude.run step start trace final.
Proof. pose proof demo_runs as Hr. induction Hr; [constructor|]. econstructor; [done|]. by apply step_faulty. Qed.

Lemma shut_down : Prelude.run step final [LOther; LSubmitted task false; LMoved] down.
Proof.
  eapply run_cons; [apply (fault_other _ _ _ _ _ _ w7 w8);
    [vm_compute; reflexivity|vm_compute; reflexivity|]|].
  { intros p Hp. repeat (apply elem_of_cons in Hp as [->|Hp]; [vm_compute; reflexivity|]).
    by apply elem_of_nil in Hp. }
  eapply run_cons; [apply (fault_submit false id config tt tt tt tt task w8 w8
    (unavailable "transport shut down")); vm_compute; reflexivity|].
  apply run_one, fault_process, (fault_scheduler _ _ _ _ _ _ w8 w8). eexists. vm_compute. reflexivity.
Qed.

Lemma failing_pipeline : Prelude.run step start history down.
Proof. exact (run_app _ _ _ _ _ _ idle_polls (run_app _ _ _ _ _ _ working shut_down)). Qed.

Lemma failing_outward : Forall (outward config tt tt tt) (attempted history).
Proof.
  exact (proj2 (Forall_cons _ _ _) (conj demo_outward (proj2 (Forall_cons _ _ _)
    (conj demo_outward (Forall_nil_2 _))))).
Qed.

Lemma started_calm : calm (QrmPipeline.world start).
Proof. apply calm_settled, demo_start. Qed.
End Failing.

Lemma pipeline_order_always_witness :
  ∃ stored ks, [(111, "test.results.queue")] `sublist_of` stored ∧
    posted Failing.history ++ ks = stored.
Proof.
  destruct (pipeline_order_always (Format := QrmWorkflow.Example.Text) (F := gmap string string)
    false id Example.config tt tt tt (λ l, Permutation_refl l) Demo.demo_connected Demo.start
    Failing.history Failing.down Failing.started_calm (proj2 Demo.demo_start) Failing.failing_outward
    Failing.failing_pipeline) as (st & ks & H1 & _ & _ & _ & H2).
  exists st, ks. split; [exact H1|]. apply H2; [split; reflexivity|reflexivity].
Defined.

Lemma mains_are_runs_witness :
  polls_end (Format := QrmWorkflow.Example.Text) tt (scheduler (queues Example.config)) ∧
  process_runs (Format := QrmWorkflow.Example.Text) false id Example.config tt tt tt
    Demo.submitted_task (mkSys Demo.w3 None CIdle Demo.files SIdle Demo.library).
Proof.
  split; [intros w _; by apply (in_memory_receive_returns _ _ 5000)|].
  refine (proj1 (mains_are_runs (Format := QrmWorkflow.Example.Text) (F := gmap string string)
    false id Example.config tt tt tt "/log" "/bench" (λ _, None) (λ _, None) (λ _ w, (tt, w)) 3
    Demo.w1 Demo.w1 (mkStore Example.config true) None CIdle Demo.files SIdle Demo.library eq_refl
    (calm_settled _ (proj1 Demo.demo_under_way))) (Next Demo.w3) eq_refl _).
  vm_compute. reflexivity.
Defined.
