(* ===== verification/Stack.v ===== *)
(** * The two example systems together

    QOffload forwards its clients' tasks to the queue of a resource manager and
    takes the results from a queue of its own; the QRM workflow is such a
    resource manager when its scheduler reads the first queue.  The turns of the
    QOffload workers ([Workers]) and of the workflow's processes ([QrmWorkflow])
    composed over one network of brokers. *)

From S2P Require Import Prelude Status Message Transport Codec Protocol TaskStore Forward QueueTransport Workers.
From S2P Require Import Cxx Circuits QrmCompiler QrmSubmitter QrmWorkflow.
From S2P Require QOffloadConfig QrmConfig Messenger.

Section Stack.
Context {T W : Type} `{QueueTransport T W} {Format : Type}
  `{CodecLaws QuantumTask Format} `{CodecLaws QuantumResult Format}
  `{!PlainCodec QuantumTask Format} `{!PlainCodec QuantumResult Format}.
Context {F : Type} `{Mlir F} {B : Type} {QB : QdmiClient B} {QL : QdmiLaws B}.
Context (config : QOffloadConfig.Config) (named : queues_named config).
Context (qrm : QrmConfig.Config).

(** ** A turn of each process of the workflow *)

Notation q_scheduler := (QrmConfig.scheduler (QrmConfig.queues qrm)).
Notation q_compiler := (QrmConfig.compiler (QrmConfig.queues qrm)).
Notation q_submitter := (QrmConfig.submitter (QrmConfig.queues qrm)).

Lemma scheduler_turn_spec t w (task : QuantumTask) e :
  settled w → q_scheduler ≠ "" → q_compiler ≠ "" → encode Format task = inr e →
  contents w (place t q_scheduler) = [e] →
  ∃ w', scheduler_turn (Format := Format) t qrm w = Next w' ∧ settled w' ∧
    ∀ p, contents w' p = taken (place t q_scheduler) [] w p ++ appended (place t q_compiler) e p.
Proof.
  intros Hw Hs Hc He Hq.
  destruct (receive_value t q_scheduler poll_args task e [] w) as (w1 & Hr & Hw1 & Hp1);
    [done..|by right|done|done|].
  destruct (send_logged_spec t q_compiler task e w1 Hw1 Hc He) as [Hw2 Hp2].
  unfold scheduler_turn. rewrite Hr. eexists. split_and!; [done|exact Hw2|].
  intros p. by rewrite Hp2, Hp1.
Qed.
Lemma compiler_turn_spec order t w f f' (task task' : QuantumTask) e e' :
  settled w → q_compiler ≠ "" → q_submitter ≠ "" → encode Format task = inr e →
  encode Format task' = inr e' → applyOptimizationPasses order task f = (Returned task', f') →
  contents w (place t q_compiler) = [e] →
  ∃ w', compiler_turn (Format := Format) order t qrm w f = Next (w', f') ∧ settled w' ∧
    ∀ p, contents w' p = taken (place t q_compiler) [] w p ++ appended (place t q_submitter) e' p.
Proof.
  intros Hw Hc Hb He He' Ha Hq.
  destruct (receive_value t q_compiler poll_args task e [] w) as (w1 & Hr & Hw1 & Hp1);
    [done..|by right|done|done|].
  destruct (send_logged_spec t q_submitter task' e' w1 Hw1 Hb He') as [Hw2 Hp2].
  unfold compiler_turn. rewrite Hr, Ha. eexists. split_and!; [done|exact Hw2|].
  intros p. by rewrite Hp2, Hp1.
Qed.

Lemma submitter_turn_spec NDEBUG t w b b' (task : QuantumTask) r e e' :
  settled w → q_submitter ≠ "" → QuantumTask.result_destination task ≠ "" →
  encode Format task = inr e → encode Format r = inr e' →
  createAndSubmitQDMIJobToQDMIDevice NDEBUG task b = (Returned r, b') →
  contents w (place t q_submitter) = [e] →
  ∃ w', submitter_turn (Format := Format) NDEBUG t qrm w b = Next (w', b') ∧ settled w' ∧
    ∀ p, contents w' p = taken (place t q_submitter) [] w p ++
           appended (place t (QuantumTask.result_destination task)) e' p.
Proof.
  intros Hw Hb Hd He He' Ha Hq.
  destruct (receive_value t q_submitter poll_args task e [] w) as (w1 & Hr & Hw1 & Hp1);
    [done..|by right|done|done|].
  destruct (send_logged_spec t _ r e' w1 Hw1 Hd He') as [Hw2 Hp2].
  unfold submitter_turn. rewrite Hr, Ha. eexists. split_and!; [done|exact Hw2|].
  intros p. by rewrite Hp2, Hp1.
Qed.

(** ** One message at a time *)

(** Among the queues [ps] only that at [p0] holds something, [e]; the others are
    as in [w0]. *)
Definition holds (w0 : W) (ps : list Place) (w : W) (p0 : Place) (e : Envelope) : Prop :=
  settled w ∧
  ∀ p, contents w p =
    if decide (p ∈ ps) then (if decide (p = p0) then [e] else []) else contents w0 p.

Lemma holds_at w0 ps w p0 e : holds w0 ps w p0 e → p0 ∈ ps → contents w p0 = [e].
Proof. intros [_ Hp] Hin. by rewrite Hp, !decide_True. Qed.

Lemma holds_taken w0 ps w p0 e p :
  holds w0 ps w p0 e → p0 ∈ ps →
  taken p0 [] w p = if decide (p ∈ ps) then [] else contents w0 p.
Proof.
  intros [_ Hp] Hin. unfold taken. rewrite Hp. by repeat case_decide; subst.
Qed.

Lemma moved w0 ps w p0 e w' p1 e' :
  holds w0 ps w p0 e → p0 ∈ ps → p1 ∈ ps → settled w' →
  (∀ p, contents w' p = taken p0 [] w p ++ appended p1 e' p) → holds w0 ps w' p1 e'.
Proof.
  intros Hw Hin Hin' Hw' Hp. split; [done|]. intros p.
  rewrite Hp, (holds_taken _ _ _ _ _ _ Hw Hin). unfold appended.
  repeat case_decide; subst; done || by rewrite app_nil_r.
Qed.

(** ** A client's request *)

(** The texts a request's circuits are compiled to depend on it only through
    its target and optimisation level. *)
Lemma compile_same (task task' : QuantumTask) file f :
  QuantumTask.optimisation_level task = QuantumTask.optimisation_level task' →
  QuantumTask.preferred_qpu task = QuantumTask.preferred_qpu task' →
  compile task file f = compile task' file f.
Proof. unfold compile. by intros -> ->. Qed.

Lemma mapM_same (task task' : QuantumTask) files f :
  QuantumTask.optimisation_level task = QuantumTask.optimisation_level task' →
  QuantumTask.preferred_qpu task = QuantumTask.preferred_qpu task' →
  mapM (compile task) files f = mapM (compile task') files f.
Proof.
  intros Hl Hq. revert f. induction files as [|file files IH]; intros f; [done|].
  simpl. unfold mbind, prog_bind. rewrite (compile_same task task') by done.
  destruct (compile task' file f) as [[out| | |] f1]; try done. by rewrite IH.
Qed.
Lemma forwarded_kept request tasks f :
  let fw := (forwardDirectTask request tasks config f).1.1 in
  QuantumTask.optimisation_level fw = QuantumTask.optimisation_level request ∧
  QuantumTask.preferred_qpu fw = QuantumTask.preferred_qpu request.
Proof.
  destruct request. unfold forwardDirectTask. simpl.
  by destruct (QOffloadConfig.hpc_node (QOffloadConfig.policy config)).
Qed.

(** Compiling and executing a forwarded request whose circuits compile to
    [circuit] and [rest]. *)
Lemma work_done order NDEBUG request tasks uid i f f' b circuit rest d :
  let fw := (forwardDirectTask request tasks config (mkForward uid i)).1.1 in
  let compiled := with_circuit_files (circuit :: rest) fw in
  (∀ l, order l ≡ₚ l) →
  mapM (compile request) (QuantumTask.circuit_files request) f =
    (Returned (circuit :: rest), f') →
  machines !! 1%nat = Some d → able d circuit (QuantumTask.n_shots request) →
  applyOptimizationPasses order fw f = (Returned compiled, f') ∧
  QuantumTask.result_destination compiled = QOffloadConfig.result (QOffloadConfig.queues config) ∧
  QuantumTask.task_id compiled = QuantumTask.task_id fw ∧
  ∃ shots, shots_given (QuantumTask.n_shots request) shots ∧
  ∀ m, gather (key_vec (execute d circuit shots).1) (execute d circuit shots).2 ∅ = Some m →
  ∃ b', createAndSubmitQDMIJobToQDMIDevice NDEBUG compiled b =
          (Returned (result_of compiled circuit m), b') ∧ same b b'.
Proof.
  intros fw compiled Hord Hf Hd Ha.
  destruct (forwarded_kept request tasks (mkForward uid i)) as [Hlevel Hqpu].
  pose proof (forwarded_fields request tasks config (mkForward uid i)) as Hfw.
  fold fw in Hlevel, Hqpu. subst fw compiled.
  destruct (forwardDirectTask request tasks config (mkForward uid i)) as [[fw tasks1] f1].
  destruct Hfw as (_ & Hdest & Hfiles & Hshots & _). simpl in *. split_and!.
  - rewrite apply_mapM by done. rewrite Hfiles.
    rewrite (bind_returned _ _ (circuit :: rest) _ f'); [done|]. by rewrite (mapM_same fw request).
  - rewrite <- Hdest. by destruct fw.
  - by destruct fw.
  - assert (QuantumTask.n_shots (with_circuit_files (circuit :: rest) fw) =
      QuantumTask.n_shots request) as Hn by (rewrite <- Hshots; by destruct fw).
    rewrite <- Hn in Ha |- *.
    apply (submit_job_ok NDEBUG _ d circuit rest b Hd (circuit_files_with _ _) Ha).
Qed.

(** How the processes are connected: by the queues that exist, on the brokers
    their handles lead to. *)
Context (local service_qrm scheduler_t compiler_t submitter_t result_t : T).
Notation request_place := (place local (QOffloadConfig.request (QOffloadConfig.queues config))).
Notation task_place :=
  (place service_qrm (QOffloadConfig.qrm_task (QOffloadConfig.queues config))).
Notation result_queue := (QOffloadConfig.result (QOffloadConfig.queues config)).

Definition internal_places : list Place :=
  [request_place; task_place; place compiler_t q_compiler; place submitter_t q_submitter;
   place submitter_t result_queue].

Definition workflow_connected : Prop :=
  place scheduler_t q_scheduler = task_place ∧
  place scheduler_t q_compiler = place compiler_t q_compiler ∧
  place compiler_t q_submitter = place submitter_t q_submitter ∧
  q_scheduler ≠ "" ∧ q_compiler ≠ "" ∧ q_submitter ≠ "".

(** The message of [holds] is in one of these queues. *)
Ltac here Hh := eapply holds_at; [exact Hh|unfold internal_places; set_solver].
Ltac advance Hh := eapply moved; [exact Hh|unfold internal_places; set_solver..|done|done].

(** The workflow's part: the task at its entrance is worked off, the outcome
    waits at its exit. *)
Lemma workflow_turns order NDEBUG w0 w1 (fw compiled : QuantumTask) outcome f f' b b' et ec eo :
  workflow_connected → result_queue ≠ "" →
  applyOptimizationPasses order fw f = (Returned compiled, f') →
  QuantumTask.result_destination compiled = result_queue →
  createAndSubmitQDMIJobToQDMIDevice NDEBUG compiled b = (Returned outcome, b') →
  encode Format fw = inr et → encode Format compiled = inr ec →
  encode Format outcome = inr eo → holds w0 internal_places w1 task_place et →
  ∃ w2 w3 w4,
    scheduler_turn (Format := Format) scheduler_t qrm w1 = Next w2 ∧
    compiler_turn (Format := Format) order compiler_t qrm w2 f = Next (w3, f') ∧
    submitter_turn (Format := Format) NDEBUG submitter_t qrm w3 b = Next (w4, b') ∧
    holds w0 internal_places w4 (place submitter_t result_queue) eo.
Proof.
  intros (Es & Ec & Eb & Ns & Nc & Nb) Nr Hcomp Hcd Hjob Het Hec Heo H1'.
  destruct (scheduler_turn_spec scheduler_t w1 fw et) as (w2 & Hs & Hw2 & Hp2);
    [apply H1'|done..|rewrite Es; here H1'|].
  rewrite Es, Ec in Hp2.
  assert (holds w0 internal_places w2 (place compiler_t q_compiler) et) as H2' by advance H1'.
  destruct (compiler_turn_spec order compiler_t w2 f f' fw compiled et ec) as (w3 & Hc & Hw3 & Hp3);
    [done..|here H2'|].
  rewrite Eb in Hp3.
  assert (holds w0 internal_places w3 (place submitter_t q_submitter) ec) as H3' by advance H2'.
  destruct (submitter_turn_spec NDEBUG submitter_t w3 b b' compiled outcome ec eo)
    as (w4 & Hj & Hw4 & Hp4);
    [done|done|by rewrite Hcd|done|done|done|here H3'|].
  rewrite Hcd in Hp4. exists w2, w3, w4. split_and!; [done..|]. by advance H3'.
Qed.

End Stack.

(** ** A concrete run

    All processes at one RabbitMQ broker, each with a connection of its own. *)

Import (hints) RabbitMqQueues.
Import (hints) RabbitMqQueues.Eager.
Import (hints) TextMlir.
Import (hints) LocalQdmi.

Module Demo.
Inductive Text : Set := text.

Definition print_task (t : QuantumTask) : Envelope :=
  mkEnvelope (CharConv.to_string (QuantumTask.task_id t))
    (CharConv.to_string (QuantumTask.n_shots t))
    {["file" := default "" (head (QuantumTask.circuit_files t))]}
    (QuantumTask.result_destination t) None.
Definition number (s : string) : Z := default 0 (CharConv.from_chars_all CharConv.int32_t s).
Definition read_task (e : Envelope) : QuantumTask :=
  QuantumTask.add_circuit_files (default "" (headers e !! "file"))
    (QuantumTask.set_result_destination (correlation_id e)
       (QuantumTask.set_n_shots (number (content_type e))
         (QuantumTask.set_task_id (number (payload e)) QuantumTask.default_instance))).
#[export] Instance task_codec : Codec QuantumTask Text := checked same_task print_task read_task.
#[export] Instance task_laws : CodecLaws QuantumTask Text.
Proof. apply checked_laws, same_task_eq. Qed.
#[export] Instance task_plain : PlainCodec QuantumTask Text.
Proof. split; intros v; [intros e; by apply checked_plain|apply checked_not_ok]. Qed.

Definition print_result (r : QuantumResult) : Envelope :=
  mkEnvelope (CharConv.to_string (QuantumResult.task_id r))
    (default "" (head (QuantumResult.executed_circuits r)))
    (CharConv.to_string <$> default ∅ (counts <$> head (QuantumResult.results r)))
    (QuantumResult.destination r) None.
Definition read_result (e : Envelope) : QuantumResult :=
  QuantumResult.mk (number (payload e)) [mkCircuitResult (number <$> headers e)]
    (correlation_id e) false "" [content_type e] "" (S754_zero false).
#[export] Instance result_codec : Codec QuantumResult Text :=
  checked same_result print_result read_result.
#[export] Instance result_laws : CodecLaws QuantumResult Text.
Proof. apply checked_laws, same_result_eq. Qed.
#[export] Instance result_plain : PlainCodec QuantumResult Text.
Proof. split; intros v; [intros e; by apply checked_plain|apply checked_not_ok]. Qed.

Definition config : QOffloadConfig.Config := Workers.Example.config.
Definition qrm : QrmConfig.Config :=
  QrmConfig.loadConfig "/log" "/bench" (λ name,
    if bool_decide (name = "QRM_SCHEDULER_QUEUE") then Some "quantum_task_collection_queue"
    else None).
Definition files : gmap string string :=
  {["bell" := unlines ["gate spurious a {"; "}"; "h q[0];"]]}.
Definition circuit : string := unlines ["h q[0];"].
Definition request : QuantumTask :=
  QuantumTask.add_circuit_files "bell" (QuantumTask.set_result_destination "client"
    (QuantumTask.set_n_shots 1024 (QuantumTask.set_task_id 42 QuantumTask.default_instance))).
Definition counted : gmap string Z := <["11" := 527]> {["00" := 497]}.
Definition outcome (id : Z) : QuantumResult :=
  QuantumResult.mk id [mkCircuitResult counted] "" false "" [circuit] "" (S754_zero false).
Definition answer : QuantumResult :=
  QuantumResult.set_destination "client" (outcome 42).
Definition forwarded : QuantumTask :=
  (forwardDirectTask request empty_store config (mkForward 7 1)).1.1.
Definition compiled : QuantumTask := with_circuit_files [circuit] forwarded.
Definition start := Workers.Example.network
  (QOffloadConfig.request (QOffloadConfig.queues config)) [print_task request].
Definition client (i : nat) : RabbitMqQueues.Client := RabbitMqQueues.mkClient i 0.

Lemma stack_start :
  holds start
    (internal_places config qrm (client 0) (client 1) (client 3) (client 4))
    start (0%nat, QOffloadConfig.request (QOffloadConfig.queues config)) (print_task request).
Proof.
  split; [apply Workers.Example.network_settled|]. intros p. case_decide as Hin; [|reflexivity].
  unfold internal_places in Hin. rewrite !elem_of_cons in Hin.
  destruct Hin as [->|[->|[->|[->|[->|Hin]]]]];
    [vm_compute; reflexivity..|by apply elem_of_nil in Hin].
Qed.
End Demo.
Import (hints) Demo.

