(* ===== verification/StackNet.v ===== *)
(** * The two example systems together, interleaved

    Everything at once: any number of clients, the three workers of QOffload
    ([ServiceNet]) and the three processes of the QRM workflow ([QrmPipeline]),
    over one network of queues.  A step is a step of one of them.  The two
    systems are connected as in [Stack]: the workflow's scheduler reads the
    queue QOffload forwards tasks to, and its submitter reaches the queue
    QOffload takes results from.

    A run of the whole is a run of each part ([run_parts]).  What links the
    parts is [in_step]: the identifiers of the messages under way, from the
    registration of a task to the arrival of its result ([tokens]), are those of
    the tasks that wait in QOffload's store. *)

From S2P Require Import Prelude Status Message Transport Protocol TaskStore QOffloadConfig ResourceRegistry Forward Control QueueTransport.
From S2P Require Import Workers Service ServiceRuns ServiceNet Codec.
From S2P Require QrmConfig QrmCompiler QrmSubmitter QrmPipeline QrmWorkflow ServiceTypes ControlProtocol.

Section StackNet.
Context {T W : Type} `{QueueTransport T W} {Format : Type}
  `{CodecLaws QuantumTask Format} `{CodecLaws QuantumResult Format}
  `{CodecLaws APIRequest Format} `{CodecLaws APIResponse Format}
  `{!PlainCodec QuantumTask Format} `{!PlainCodec QuantumResult Format}
  `{!PlainCodec APIRequest Format} `{!PlainCodec APIResponse Format}.
Context {F : Type} `{QrmCompiler.Mlir F} {B : Type} `{QrmSubmitter.QdmiClient B}.
Context (config : Config) (resources : ResourceRegistry) (m : Messengers (T := T)).
Context (NDEBUG : bool) (order : list (nat * string) → list (nat * string))
  (qrm : QrmConfig.Config) (scheduler_t compiler_t submitter_t : T).

Notation Pipe := (QrmPipeline.Sys (W := W) (F := F) (B := B)).
Notation pipeline := (QrmPipeline.pipeline qrm scheduler_t compiler_t submitter_t).
Notation pipe_step :=
  (QrmPipeline.step (Format := Format) NDEBUG order qrm scheduler_t compiler_t submitter_t).
Notation under_way :=
  (QrmPipeline.under_way (Format := Format) qrm scheduler_t compiler_t submitter_t).
Notation inputs := (inputs config m).
Notation result_queue := (QOffloadConfig.result (queues config)).

(** ** The system *)

Record Stack := mkStack { qoffload : Sys; pipe : Pipe }.

(** The workflow with the queues as they are in [w]. *)
Definition at_world (p : Pipe) (w : W) : Pipe :=
  QrmPipeline.mkSys w (QrmPipeline.scheduler_holds p) (QrmPipeline.compiler_pc p)
    (QrmPipeline.fs p) (QrmPipeline.submitter_pc p) (QrmPipeline.device p).

Definition front (s : Stack) : Net := mkNet (qoffload s) (QrmPipeline.world (pipe s)).

Inductive StackLabel :=
  | Front (l : NetLabel (T := T) (W := W))
  | Back (l : QrmPipeline.Label).

(** A step of the scheduler, the compiler or the submitter. *)
Inductive process_step : Pipe → QrmPipeline.Label → Pipe → Prop :=
  | process_scheduler p l p' :
      QrmPipeline.scheduler_step (Format := Format) qrm scheduler_t p l p' → process_step p l p'
  | process_compiler p l p' :
      QrmPipeline.compiler_step (Format := Format) order qrm compiler_t p l p' → process_step p l p'
  | process_submitter p l p' :
      QrmPipeline.submitter_step (Format := Format) NDEBUG qrm submitter_t p l p' →
      process_step p l p'.

Inductive stack_step : Stack → StackLabel → Stack → Prop :=
  (* a client hands in a task, or a control request *)
  | stack_submit t task s p w' accepted :
      place t (request (queues config)) = q_request config m →
      puts (Format := Format) t (request (queues config)) task (QrmPipeline.world p) accepted w' →
      stack_step (mkStack s p) (Front (NSubmitted task accepted)) (mkStack s (at_world p w'))
  | stack_ask t (r : APIRequest) s p w' accepted :
      place t (control_request (queues config)) = q_control config m →
      puts (Format := Format) t (control_request (queues config)) r (QrmPipeline.world p) accepted w' →
      stack_step (mkStack s p) (Front NEnvironment) (mkStack s (at_world p w'))
  | stack_front s s' p w' l :
      worker_step (Format := Format) config resources m
        (mkNet s (QrmPipeline.world p)) l (mkNet s' w') →
      stack_step (mkStack s p) (Front l) (mkStack s' (at_world p w'))
  | stack_back s p p' l : process_step p l p' → stack_step (mkStack s p) (Back l) (mkStack s p').

(** How the two systems are connected. *)
Definition joined : Prop :=
  wired config m ∧ QrmPipeline.connected qrm scheduler_t compiler_t submitter_t ∧
  qrm_task (queues config) = QrmConfig.scheduler (QrmConfig.queues qrm) ∧
  q_qrm config m = QrmPipeline.q_scheduler qrm scheduler_t ∧
  place submitter_t result_queue = q_result config m ∧
  ∀ p, p ∈ inputs → p ∉ pipeline.

(** Clients have their answers sent to queues that are neither. *)
Definition foreign (p : Place) : Prop := p ∉ inputs ∧ p ∉ pipeline.
Definition considerate (l : StackLabel) : Prop :=
  match l with Front l => polite m foreign l | Back _ => True end.

(** ** The parts of a run *)

Definition front_label (l : StackLabel) : NetLabel :=
  match l with Front l => l | Back _ => NEnvironment end.
Definition fronts (tr : list StackLabel) : list NetLabel := front_label <$> tr.

(** The service hands in the tasks it forwards. *)
Definition back_label (l : StackLabel) : QrmPipeline.Label :=
  match l with
  | Front (NStep (LForwarded task accepted)) => QrmPipeline.LSubmitted task accepted
  | Front _ => QrmPipeline.LOther
  | Back l => l
  end.

(** ** One step *)

Context (Horder : ∀ l, order l ≡ₚ l) (Hjoined : joined).

Lemma process_is_step p l p' : process_step p l p' → pipe_step p l p'.
Proof.
  intros [? ? ? Hs|? ? ? Hs|? ? ? Hs];
    [by apply QrmPipeline.step_scheduler|by apply QrmPipeline.step_compiler
    |by apply QrmPipeline.step_submitter].
Qed.

Lemma at_world_same p : at_world p (QrmPipeline.world p) = p.
Proof. by destruct p. Qed.

(** Messages of a step of the workflow to a queue that is not its own. *)
Definition results_to (q : Place) (l : QrmPipeline.Label) : list QuantumResult :=
  match l with
  | QrmPipeline.LResult d r true => if decide (place submitter_t d = q) then [r] else []
  | _ => []
  end.

Lemma delivered_elsewhere t n w task w' q :
  settled w → n ≠ "" → QrmPipeline.delivery (Format := Format) t n w task w' → q ≠ place t n →
  settled w' ∧ contents w' q = contents w q.
Proof.
  intros Hw Hn Hd Hq.
  destruct (found_spec QrmWorkflow.poll_args t n w (inr task) w' Hw Hn ltac:(done) eq_refl Hd)
    as (Hw' & _ & Hp). auto.
Qed.

Lemma put_to {A : Type} `{CodecLaws A Format} `{!PlainCodec A Format} t n (v : A) w st w' q :
  settled w → n ≠ "" → put (Format := Format) t n v w = (st, w') →
  settled w' ∧ ∃ es, contents w' q = contents w q ++ es ∧
    Forall2 (λ v e, encode Format v = inr e)
      (if ok st then if decide (place t n = q) then [v] else [] else []) es.
Proof.
  intros Hw Hn Hp.
  destruct (put_spec t n v w st w' Hw Hn Hp) as [Hw' [[-> ->]|[-> (e & He & Hc)]]];
    (split; [done|]).
  - exists []. by rewrite app_nil_r.
  - exists (if decide (q = place t n) then [e] else []). split; [done|].
    destruct (decide (place t n = q)) as [->|]; [|rewrite decide_False by congruence; constructor].
    rewrite decide_True by done. by repeat constructor.
Qed.

Lemma process_effect p l p' q :
  settled (QrmPipeline.world p) → process_step p l p' → q ∉ pipeline →
  (∀ d r a, l = QrmPipeline.LResult d r a → d ≠ "") →
  settled (QrmPipeline.world p') ∧
  ∃ es, contents (QrmPipeline.world p') q = contents (QrmPipeline.world p) q ++ es ∧
    Forall2 (λ r e, encode Format r = inr e) (results_to q l) es.
Proof.
  destruct Hjoined as (_ & (Ec & Es & _ & _ & _ & Ns & Nc & Nb) & _).
  intros Hw Hs Hq Hl. unfold QrmPipeline.pipeline in Hq.
  rewrite !not_elem_of_cons in Hq. destruct Hq as (Q1 & Q2 & Q3 & _).
  assert (∀ w w', settled w' ∧ contents w' q = contents w q → settled w' ∧
    ∃ es, contents w' q = contents w q ++ es ∧
      Forall2 (λ (r : QuantumResult) e, encode Format r = inr e) [] es) as Hsame.
  { intros w w' [? ->]. split; [done|]. exists []. by rewrite app_nil_r. }
  assert (∀ t n (v : QuantumTask) w st w', settled w → n ≠ "" → place t n ≠ q →
    put (Format := Format) t n v w = (st, w') → settled w' ∧ contents w' q = contents w q) as Hput.
  { intros t n v w st w' Hw0 Hn Hne Hp.
    destruct (put_to t n v w st w' q Hw0 Hn Hp) as (Hw' & es & -> & Hes). split; [done|].
    rewrite decide_False in Hes by done.
    destruct (ok st); apply Forall2_nil_inv_l in Hes as ->; by rewrite app_nil_r. }
  destruct Hs as [? ? ? Hs|? ? ? Hs|? ? ? Hs]; destruct Hs; simpl in *;
    try (apply Hsame; done).
  - apply Hsame. eapply delivered_elsewhere; [exact Hw|exact Ns|eassumption|exact Q1].
  - replace (results_to q _) with ([] : list QuantumResult) by (by destruct (ok st)).
    apply Hsame. eapply Hput; [..|eassumption]; [done|done|]. rewrite Ec. congruence.
  - apply Hsame. eapply delivered_elsewhere; [exact Hw|exact Nc|eassumption|exact Q2].
  - replace (results_to q _) with ([] : list QuantumResult) by (by destruct (ok st)).
    apply Hsame. eapply Hput; [..|eassumption]; [done|done|]. rewrite Es. congruence.
  - apply Hsame. eapply delivered_elsewhere; [exact Hw|exact Nb|eassumption|exact Q3].
  - eapply put_to; [done|by eapply Hl|done].
Qed.

(** Only forwarded tasks enter the queues of the workflow. *)
Definition enters (l : NetLabel (T := T) (W := W)) : bool :=
  match l with NSubmitted _ _ | NStep (LForwarded _ _) => true | _ => false end.

Lemma posted_none l q :
  outward m foreign l → ¬ foreign q → enters l = false → posted config m q [l] = [].
Proof.
  intros Ho Hq Hl. rewrite posted_one.
  destruct l as [| | | | | |[]]; simpl in *; try done; try destruct accepted; try done;
    unfold to; rewrite filter_cons; simpl; case_decide as Hd; try done; subst q;
    destruct Hq; first [exact Ho|exact (proj2 Ho)].
Qed.

Lemma pipeline_not_foreign q : q ∈ pipeline → ¬ foreign q.
Proof. by intros Hq [_ Hn]. Qed.
Lemma inputs_not_foreign q : q ∈ inputs → ¬ foreign q.
Proof. by intros Hq [Hn _]. Qed.

Lemma worker_step_settled s w l s' w' :
  settled w → outward m foreign l →
  worker_step (Format := Format) config resources m (mkNet s w) l (mkNet s' w') →
  settled w' ∧ (takes_one config m l w w' ∨ puts_some (Format := Format) config m l w w').
Proof.
  intros Hw Ho Hs. apply (worker_effect config resources m (proj1 Hjoined)
    (mkNet s w) l (mkNet s' w')); [done| |done].
  by eapply outward_addressed.
Qed.

Notation effort := (QrmPipeline.effort qrm scheduler_t compiler_t submitter_t).

(** The workflow when the queues change: not its own, or by a task handed in. *)
Lemma way_same p w' ks :
  settled w' → (∀ q, q ∈ pipeline → contents w' q = contents (QrmPipeline.world p) q) →
  under_way p ks → under_way (at_world p w') ks ∧ effort (at_world p w') = effort p.
Proof.
  intros Hw' Hsame (Hw & ts & tc & tb & Hts & Htc & Htb & ->). split.
  - split; [done|]. exists ts, tc, tb. simpl. rewrite !Hsame; [done|..].
    all: unfold QrmPipeline.pipeline; rewrite !elem_of_cons; auto.
  - unfold QrmPipeline.effort. simpl. rewrite !Hsame; [done|..].
    all: unfold QrmPipeline.pipeline; rewrite !elem_of_cons; auto.
Qed.

Lemma way_submitted p t task accepted w' ks :
  place t (qrm_task (queues config)) = q_qrm config m →
  puts (Format := Format) t (qrm_task (queues config)) task (QrmPipeline.world p) accepted w' →
  under_way p ks →
  let ins := if accepted then [QrmPipeline.key task] else [] in
  under_way (at_world p w') (ks ++ ins) ∧
  effort (at_world p w') = (effort p + 8 * length ins)%nat.
Proof.
  destruct Hjoined as (((_ & _ & _ & N4) & _) & (_ & _ & D1 & D2 & D3 & _) & Eqrm & Eq & _).
  intros Ht (st & Hp & <-) (Hw & ts & tc & tb & Hts & Htc & Htb & ->).
  destruct (put_spec t _ task _ st w' Hw N4 Hp) as [Hw' [[-> ->]|[-> (e & He & Hc)]]];
    cbv zeta.
  - rewrite app_nil_r, at_world_same, Nat.add_0_r. split; [|done]. split; [done|].
    by exists ts, tc, tb.
  - rewrite Ht, Eq in Hc.
    assert (contents w' (QrmPipeline.q_scheduler qrm scheduler_t) =
            contents (QrmPipeline.world p) (QrmPipeline.q_scheduler qrm scheduler_t) ++ [e]) as C1
      by (by rewrite Hc, decide_True).
    assert (∀ q, q ≠ QrmPipeline.q_scheduler qrm scheduler_t →
      contents w' q = contents (QrmPipeline.world p) q) as C2
      by (intros q Hq; by rewrite Hc, decide_False, app_nil_r).
    split.
    + split; [done|]. exists (ts ++ [task]), tc, tb. simpl. rewrite C1, !C2 by done.
      split_and!; [apply Forall2_app; [done|by repeat constructor]|done..|].
      by rewrite fmap_app, <- !app_assoc.
    + unfold QrmPipeline.effort. simpl. rewrite C1, !C2 by done. rewrite length_app. simpl. lia.
Qed.

(** A step of the service changes the queues of the workflow only by the tasks
    it forwards. *)
Lemma worker_step_way s p l s' w' ks :
  under_way p ks → outward m foreign l →
  worker_step (Format := Format) config resources m
    (mkNet s (QrmPipeline.world p)) l (mkNet s' w') →
  let ins := QrmPipeline.incoming (back_label (Front l)) in
  under_way (at_world p w') (ks ++ ins) ∧
  effort (at_world p w') = (effort p + 8 * length ins)%nat.
Proof.
  destruct Hjoined as ((_ & Eq & _) & _ & _ & _ & _ & Hdisj).
  intros Hway Ho Hs. destruct (worker_step_settled _ _ _ _ _ (proj1 Hway) Ho Hs) as [Hw' Heff].
  destruct (enters l) eqn:Hl.
  - inversion Hs; subst; try discriminate Hl; simpl.
    + by eapply (way_submitted p (task_qrm m)).
    + by eapply (way_submitted p (control_qrm m)).
    + by destruct l0.
  - replace (back_label (Front l)) with QrmPipeline.LOther by (by destruct l as [| | | | | |[]]).
    simpl. rewrite app_nil_r, Nat.add_0_r. apply way_same; [done| |done]. intros q Hq.
    destruct Heff as [(q' & e & sk & Hin & _ & _ & _ & Hp)|[_ Hp]].
    + apply Hp. intros ->. by destruct (Hdisj q').
    + destruct (Hp q) as (es & Hc & Hes).
      rewrite (posted_none l q Ho (pipeline_not_foreign q Hq) Hl) in Hes.
      apply Forall2_nil_inv_l in Hes as ->. by rewrite app_nil_r in Hc.
Qed.

Lemma worker_step_back s p l s' w' :
  settled (QrmPipeline.world p) → outward m foreign l →
  worker_step (Format := Format) config resources m (mkNet s (QrmPipeline.world p)) l (mkNet s' w') →
  pipe_step p (back_label (Front l)) (at_world p w').
Proof.
  destruct Hjoined as ((_ & Eq & _) & _ & Eqrm & Eplace & _ & Hdisj).
  intros Hw Ho Hs. destruct (worker_step_settled _ _ _ _ _ Hw Ho Hs) as [Hw' Heff].
  destruct (enters l) eqn:Hl.
  - assert (∀ t task a, place t (qrm_task (queues config)) = q_qrm config m →
      puts (Format := Format) t (qrm_task (queues config)) task (QrmPipeline.world p) a w' →
      pipe_step p (QrmPipeline.LSubmitted task a) (at_world p w')) as Hsub.
    { intros t task a Ht (st & Hp & <-). destruct p. rewrite Eqrm in Hp, Ht.
      apply (QrmPipeline.step_submit _ _ _ _ _ _ t); [by rewrite Ht|done]. }
    inversion Hs; subst; try discriminate Hl; simpl.
    + by eapply (Hsub (task_qrm m)).
    + by eapply (Hsub (control_qrm m)).
    + by destruct l0.
  - replace (back_label (Front l)) with QrmPipeline.LOther by (by destruct l as [| | | | | |[]]).
    destruct p. apply QrmPipeline.step_other; [done..|]. intros q Hq.
    destruct Heff as [(q' & e & sk & Hin & _ & _ & _ & Hp)|[_ Hp]].
    + apply Hp. intros ->. by destruct (Hdisj q').
    + destruct (Hp q) as (es & Hc & Hes).
      rewrite (posted_none l q Ho (pipeline_not_foreign q Hq) Hl) in Hes.
      apply Forall2_nil_inv_l in Hes as ->. by rewrite app_nil_r in Hc.
Qed.

(** ** What is under way

    A task is known by the identifier the service forwarded it under. *)

Notation key_id := (fst : QrmPipeline.Key → Z).

(** Identifiers in the hands of the workers that stand for a task or a result
    between the task's registration and the arrival of its result. *)
Definition task_token (pc : TaskPc) : list QuantumTask :=
  match pc with TSend t => [t] | _ => [] end.
Definition control_token (pc : ControlPc) : list QuantumTask :=
  match pc with CForward t _ _ => [t] | _ => [] end.
Definition result_token (pc : ResultPc) : list QuantumResult :=
  match pc with RReceived r => [r] | _ => [] end.

(** All of it: forwarded tasks, keys in the workflow, results. *)
Definition tokens (s : Sys) (ks : list QrmPipeline.Key) (rs : list QuantumResult) : list Z :=
  (QuantumTask.task_id <$> task_token (task_pc s)) ++
  (QuantumTask.task_id <$> control_token (control_pc s)) ++
  ks.*1 ++ (QuantumResult.task_id <$> rs) ++
  (QuantumResult.task_id <$> result_token (result_pc s)).

Definition waiting_ids (s : Sys) : list Z := (map_to_list (pending_ (store s))).*1.

(** Forwarded tasks carry the queue for results. *)
Definition addressed_back (t : QuantumTask) : Prop :=
  QuantumTask.result_destination t = result_queue.

Record linked (s : Stack) (ks : list QrmPipeline.Key) (rs : list QuantumResult) : Prop := {
  linked_way : under_way (pipe s) ks;
  linked_results : Forall2 (λ r e, encode Format r = inr e) rs
                     (contents (QrmPipeline.world (pipe s)) (q_result config m));
  linked_keys : Forall (λ k, k.2 = result_queue) ks;
  linked_tasks : Forall addressed_back
                   (task_token (task_pc (qoffload s)) ++ control_token (control_pc (qoffload s)));
}.

(** Nothing was rejected, failed or crashed. *)
Definition clean (l : StackLabel) : Prop :=
  match l with
  | Front (NStep (LForwarded _ false)) | Back (QrmPipeline.LLost _)
  | Back (QrmPipeline.LCrashed _) | Back (QrmPipeline.LResult _ _ false) => False
  | _ => True
  end.

Lemma linked_outward ks :
  Forall (λ k : QrmPipeline.Key, k.2 = result_queue) ks →
  Forall (QrmPipeline.outward qrm scheduler_t compiler_t submitter_t) ks.
Proof.
  destruct Hjoined as (((_ & _ & N3 & _) & _) & _ & _ & _ & Er & Hdisj).
  intros Hks. eapply Forall_impl; [done|]. intros [id d] Hd. simpl in Hd. subst d.
  split; [done|]. simpl. rewrite Er. apply Hdisj. do 2 right. left.
Qed.

(** A step of the workflow: its keys shrink to those that stay, and the results
    that leave arrive at the service. *)
Lemma back_linked s p p' l ks rs :
  linked (mkStack s p) ks rs → process_step p l p' →
  ∃ ks', linked (mkStack s p') ks' (rs ++ results_to (q_result config m) l) ∧
    QrmPipeline.outgoing l ++ ks' `sublist_of` ks ∧
    (lossless QrmWorkflow.poll_args = true →
     length (QrmPipeline.outgoing l ++ ks') + QrmPipeline.lost l = length ks)%nat ∧
    (QrmPipeline.effort qrm scheduler_t compiler_t submitter_t p' <
     QrmPipeline.effort qrm scheduler_t compiler_t submitter_t p)%nat.
Proof.
  intros [Hway Hrs Hks Hts] Hs. simpl in *.
  destruct (QrmPipeline.step_accounted NDEBUG order qrm scheduler_t compiler_t submitter_t Horder
    (proj1 (proj2 Hjoined)) p ks l p' Hway (linked_outward ks Hks) (process_is_step _ _ _ Hs))
    as (ks' & Hway' & Hsub & Hlen & Heff).
  assert (QrmPipeline.incoming l = []) as Hin.
  { destruct Hs as [? ? ? Hs|? ? ? Hs|? ? ? Hs]; destruct Hs; try done; by destruct (ok st). }
  assert (QrmPipeline.internal l = true) as Hint.
  { destruct Hs as [? ? ? Hs|? ? ? Hs|? ? ? Hs]; destruct Hs; try done; by destruct (ok st). }
  rewrite Hin, app_nil_r in Hsub, Hlen. exists ks'. split_and!; [|done|done|by apply Heff].
  assert (Forall (λ k : QrmPipeline.Key, k.2 = result_queue) (QrmPipeline.outgoing l ++ ks')) as Hall
    by (eapply Forall_sublist; [done|done]).
  destruct (process_effect p l p' (q_result config m)) as (_ & es & Hq & Hes).
  - apply Hway.
  - done.
  - apply Hjoined. do 2 right. left.
  - intros d r a ->. simpl in Hall. apply Forall_cons in Hall as [Hd _]. simpl in Hd. subst d.
    apply Hjoined.
  - split; simpl; [done| | |done].
    + rewrite Hq. by apply Forall2_app.
    + by apply Forall_app in Hall as [_ ?].
Qed.

(** The queues the service reads over a step of the workflow. *)
Lemma back_inputs s p p' l ks rs q :
  linked (mkStack s p) ks rs → process_step p l p' → q ∈ inputs →
  ∃ es, contents (QrmPipeline.world p') q = contents (QrmPipeline.world p) q ++ es ∧
    (length es <= 1)%nat ∧ (q ≠ q_result config m → es = []).
Proof.
  intros Hlk Hs Hq. destruct (back_linked s p p' l ks rs Hlk Hs) as (ks' & _ & Hsub & _).
  destruct Hjoined as ((_ & _) & _ & _ & _ & Er & Hdisj).
  assert (∀ d r a, l = QrmPipeline.LResult d r a → d = result_queue) as Hd.
  { intros d r a ->. pose proof (linked_keys _ _ _ Hlk) as Hk.
    eapply (Forall_sublist _ _ _ Hsub) in Hk. simpl in Hk. by apply Forall_cons in Hk as [? _]. }
  destruct (process_effect p l p' q) as (_ & es & -> & Hes);
    [apply (linked_way _ _ _ Hlk)|done|by apply Hdisj| |].
  { intros d r a ->. rewrite (Hd _ _ _ eq_refl). apply Hjoined. }
  exists es. split; [done|]. apply Forall2_length in Hes as Hlen. split.
  - rewrite <- Hlen. destruct l as [| | | |d r []|]; simpl; try lia. case_decide; simpl; lia.
  - intros Hne. destruct l as [| | | |d r []|]; simpl in Hes; try by apply Forall2_nil_inv_l in Hes.
    rewrite decide_False in Hes; [by apply Forall2_nil_inv_l in Hes|].
    rewrite (Hd _ _ _ eq_refl), Er. congruence.
Qed.

(** ** A step of the service *)

Lemma forwarded_back id request : addressed_back (forwarded_message config id request).
Proof.
  unfold addressed_back, forwarded_message.
  destruct request; by destruct (hpc_node (policy config)).
Qed.

Lemma tasks_linked s w l s' w' :
  worker_step (Format := Format) config resources m (mkNet s w) l (mkNet s' w') →
  Forall addressed_back (task_token (task_pc s) ++ control_token (control_pc s)) →
  Forall addressed_back (task_token (task_pc s') ++ control_token (control_pc s')) ∧
  Forall (λ k : QrmPipeline.Key, k.2 = result_queue)
    (QrmPipeline.incoming (back_label (Front l))).
Proof.
  intros Hs Hts. rewrite !Forall_app in *. destruct Hts as [H1' H2'].
  inversion Hs as [| | | | | | | | | |? ls ? ? Hloc Hlocal]; subst; simpl in *;
    try (split_and!; first [done|constructor]).
  - apply Forall_cons in H1' as [Ht _]. split; [by split|].
    destruct accepted; repeat constructor. exact Ht.
  - apply Forall_cons in H2' as [Ht _]. split; [by split|].
    destruct accepted; repeat constructor. exact Ht.
  - split; [|by destruct ls; try discriminate; constructor].
    destruct Hloc; simpl in *; try discriminate Hlocal; try done; split; try done;
      repeat constructor.
    apply forwarded_back.
Qed.

(** The service writes to none of the queues it reads. *)
Lemma posted_input s w l s' w' q :
  worker_step (Format := Format) config resources m (mkNet s w) l (mkNet s' w') →
  outward m foreign l → q ∈ inputs → posted config m q [l] = [].
Proof.
  destruct Hjoined as (_ & _ & _ & Eq & _ & Hdisj). intros Hs Ho Hq.
  destruct (enters l) eqn:Hl; [|by apply posted_none; [|apply inputs_not_foreign|]].
  assert (q_qrm config m ≠ q) as Hqrm.
  { rewrite Eq. intros <-. by apply (Hdisj _ Hq); left. }
  rewrite posted_one. unfold to.
  inversion Hs; subst; try discriminate Hl; simpl; [..|by destruct l0];
    (destruct accepted; [by rewrite filter_cons_False|done]).
Qed.

(** A step of the service reads one of its queues, or none. *)
Lemma inputs_after s w l s' w' :
  settled w → outward m foreign l →
  worker_step (Format := Format) config resources m (mkNet s w) l (mkNet s' w') →
  takes_one config m l w w' ∨
  fetches l = false ∧ ∀ q, q ∈ inputs → contents w' q = contents w q.
Proof.
  intros Hw Ho Hs. destruct (worker_step_settled _ _ _ _ _ Hw Ho Hs) as [_ [Ht|[Hf Hp]]];
    [by left|right]. split; [done|]. intros q Hq.
  destruct (Hp q) as (es & Hc & Hes). rewrite (posted_input _ _ _ _ _ _ Hs Ho Hq) in Hes.
  apply Forall2_nil_inv_l in Hes as ->. by rewrite app_nil_r in Hc.
Qed.

(** The queue of results over a step of the service. *)
Lemma results_taken w l s s' w' (rs : list QuantumResult) :
  settled w → outward m foreign l →
  worker_step (Format := Format) config resources m (mkNet s w) l (mkNet s' w') →
  Forall2 (λ r e, encode Format r = inr e) rs (contents w (q_result config m)) →
  ∃ rs', Forall2 (λ r e, encode Format r = inr e) rs' (contents w' (q_result config m)) ∧
    answers l ++ rs' `sublist_of` rs ∧
    (lossless worker_args = true → answers l ++ rs' = rs).
Proof.
  destruct Hjoined as ((_ & _ & _ & D2 & D3 & _) & _).
  intros Hw Ho Hs Hrs.
  destruct (inputs_after _ _ _ _ _ Hw Ho Hs) as [(q & e & sk & _ & Hr & Hq & Hl & Hp)|[Hf Hp]].
  - destruct (decide (q = q_result config m)) as [->|Hne].
    + rewrite Hq in Hrs. apply Forall2_cons_inv_r in Hrs as (r & rs1 & He & Hrs1 & ->).
      apply Forall2_app_inv_r in Hrs1 as (l1 & l2 & Hl1 & Hl2 & ->).
      pose proof (decode_encode r e He) as Hd.
      destruct l; simpl in Hr; try done; destruct Hr as [Eq Hr]; try done; try congruence;
        [|destruct (proj2 Hr eq_refl) as [st ?]; congruence].
      assert (result = r) as -> by congruence. exists l2. simpl. split_and!; [done| |].
      * by apply sublist_skip, sublist_inserts_l.
      * intros Hx. rewrite (Hl Hx) in Hl1. by apply Forall2_nil_inv_r in Hl1 as ->.
    + exists rs. rewrite Hp by done. destruct l; simpl in Hr; try done.
      destruct Hr as [-> _]. done.
  - exists rs. rewrite Hp by (do 2 right; left). split; [done|].
    destruct l; try discriminate Hf; done.
Qed.

Lemma front_linked s p l s' w' ks rs :
  linked (mkStack s p) ks rs → outward m foreign l →
  worker_step (Format := Format) config resources m
    (mkNet s (QrmPipeline.world p)) l (mkNet s' w') →
  ∃ rs', linked (mkStack s' (at_world p w'))
           (ks ++ QrmPipeline.incoming (back_label (Front l))) rs' ∧
    answers l ++ rs' `sublist_of` rs ∧ (lossless worker_args = true → answers l ++ rs' = rs).
Proof.
  intros [Hway Hrs Hks Hts] Ho Hs. simpl in *.
  destruct (results_taken _ _ _ _ _ rs (proj1 Hway) Ho Hs Hrs) as (rs' & Hrs' & Hsub & Heq).
  destruct (tasks_linked _ _ _ _ _ Hs Hts) as [Hts' Hinc].
  destruct (worker_step_way _ _ _ _ _ _ Hway Ho Hs) as [Hway' _].
  exists rs'. split; [|done]. split; simpl; [done..| |done]. by apply Forall_app.
Qed.

(** A message handed in by a client. *)
Lemma handed_in {A : Type} `{CodecLaws A Format} `{!PlainCodec A Format}
    s p t n (v : A) accepted w' ks rs :
  n ≠ "" → place t n ∈ [q_request config m; q_control config m] →
  puts (Format := Format) t n v (QrmPipeline.world p) accepted w' →
  linked (mkStack s p) ks rs →
  linked (mkStack s (at_world p w')) ks rs ∧ effort (at_world p w') = effort p.
Proof.
  destruct Hjoined as ((_ & _ & D1 & D2 & D3 & _) & _ & _ & _ & _ & Hdisj).
  intros Hn Hin (st & Hp & _) [Hway Hrs Hks Hts]. simpl in *.
  destruct (put_spec t n v _ st w' (proj1 Hway) Hn Hp) as [Hw' Hc].
  assert (∀ q, q ≠ place t n → contents w' q = contents (QrmPipeline.world p) q) as Hsame.
  { intros q Hq. destruct Hc as [[_ ->]|[_ (e & _ & Hc)]]; [done|].
    by rewrite Hc, decide_False, app_nil_r. }
  assert (place t n ∈ inputs ∧ place t n ≠ q_result config m) as [Hi Hr].
  { apply elem_of_cons in Hin as [->|Hin%list_elem_of_singleton]; [split; [left|done]|].
    rewrite Hin. split; [right; left|done]. }
  destruct (way_same p w' ks Hw') as [Hway' Heff]; [|done|].
  { intros q Hq. apply Hsame. intros ->. by destruct (Hdisj (place t n)). }
  split; [|done]. split; simpl; [done| |done..]. by rewrite Hsame.
Qed.

(** ** The identifiers under way are those that wait *)

Lemma waiting_insert id pt st :
  pending_ st !! id = None →
  (map_to_list (<[id := pt]> (pending_ st))).*1 ≡ₚ id :: (map_to_list (pending_ st)).*1.
Proof. intros Hn. by rewrite map_to_list_insert by done. Qed.

Lemma waiting_delete id pt st :
  pending_ st !! id = Some pt →
  (map_to_list (pending_ st)).*1 ≡ₚ id :: (map_to_list (delete id (pending_ st))).*1.
Proof. intros Hl. by rewrite <- (map_to_list_delete (pending_ st) id pt Hl). Qed.

Definition narrow_ids (s : Sys) : Prop :=
  ∀ id, is_Some (pending_ (store s) !! id) → 0 <= id < 2147483648.

Definition in_step (s : Sys) (ks : list QrmPipeline.Key) (rs : list QuantumResult) : Prop :=
  tokens s ks rs ≡ₚ to_int32 <$> waiting_ids s.

Lemma forwarded_id id request :
  QuantumTask.task_id (forwarded_message config id request) = to_int32 id.
Proof. unfold forwarded_message. destruct request; by destruct (hpc_node (policy config)). Qed.

(** A result under way is the result of a task that waits. *)
Lemma known (r : QuantumResult) st :
  result_wf r → (∀ id, is_Some (pending_ st !! id) → 0 <= id < 2147483648) →
  QuantumResult.task_id r ∈ to_int32 <$> (map_to_list (pending_ st)).*1 →
  is_Some (pending_ st !! to_uint64 (QuantumResult.task_id r)).
Proof.
  intros Hwf Hnarrow (id & Hid & Hin)%list_elem_of_fmap.
  apply list_elem_of_fmap in Hin as ([i pt] & -> & Hl%elem_of_map_to_list). simpl in *.
  pose proof (Hnarrow i (mk_is_Some _ _ Hl)) as Hi.
  replace (to_uint64 (QuantumResult.task_id r)) with i; [by eexists|].
  rewrite Hid. wrap_lia.
Qed.

Lemma front_tokens s w l s' w' ks rs rs' :
  worker_step (Format := Format) config resources m (mkNet s w) l (mkNet s' w') →
  clean (Front l) → correlated (result_pc s) → narrow_ids s →
  (∀ ls id, l = NStep ls → Service.registers id ls = true → pending_ (store s) !! id = None) →
  answers l ++ rs' = rs → in_step s ks rs →
  in_step s' (ks ++ QrmPipeline.incoming (back_label (Front l))) rs'.
Proof.
  intros Hs Hclean Hcor Hnarrow Hfresh Hrs Htok.
  inversion Hs as [| | | | | | | | | |? ls ? ? Hloc Hlocal]; subst;
    unfold in_step, tokens, waiting_ids in *; csimpl; simpl in Hclean;
    rewrite ?app_nil_r in *; try done.
  1, 2: destruct accepted; [|done]; csimpl; rewrite fmap_app, <- Htok; csimpl; solve_Permutation.
  - rewrite <- Htok. csimpl. solve_Permutation.
  - replace (QrmPipeline.incoming _) with ([] : list QrmPipeline.Key)
      by (by destruct ls; try discriminate).
    rewrite app_nil_r. revert Htok.
    destruct Hloc; simpl in Hlocal; try discriminate Hlocal; csimpl; try done; intros Htok.
    + rewrite (waiting_insert id _ st)
        by (eapply Hfresh; [done|simpl; by apply bool_decide_true]).
      csimpl. rewrite forwarded_id, <- Htok. solve_Permutation.
    + rewrite (waiting_insert id _ st)
        by (eapply Hfresh; [done|simpl; by apply bool_decide_true]).
      csimpl. rewrite <- Htok. solve_Permutation.
    + match goal with Hk : takeCompletedControlTask _ _ = _ |- _ =>
        apply takeCompleted_shrinks in Hk as [-> _] end. done.
    + destruct (known result st) as [pt Hpt]; [done|done| |].
      { rewrite <- Htok. rewrite !elem_of_app. do 4 right. by left. }
      unfold id, takePending in *. by rewrite Hpt in *.
    + match goal with Hk : takePending _ _ = _ |- _ => apply takePending_Some in Hk as [Hl ->] end.
      simpl. rewrite (waiting_delete id p st Hl) in Htok. csimpl in Htok.
      assert (to_int32 id = QuantumResult.task_id result) as Hid by (by apply to_int32_uint64).
      rewrite Hid in Htok. apply (Permutation_cons_inv (a := QuantumResult.task_id result)).
      rewrite <- Htok. destruct (kind p); csimpl; solve_Permutation.
Qed.

(** ** Runs *)

Lemma pending_narrow uid tr s :
  run (Service.step config resources) (initial uid) tr s → short tr →
  0 <= uid → uid + 10000 * Z.of_nat (count is_issue tr) < 2147483648 → narrow_ids s.
Proof.
  intros Hr Hsh Hu Hfit id Hp.
  pose proof (bal_pending _ _ (runs_balance _ _ _ _ _ Hr Hsh) id) as HP.
  pose proof (bal_issue _ _ (runs_balance _ _ _ _ _ Hr Hsh) id) as HI.
  rewrite one_true in HP by done.
  destruct (count_elem (issues id) tr ltac:(lia)) as (l & Hin & Hl).
  destruct l; try done. simpl in Hl. apply bool_decide_eq_true in Hl as ->.
  destruct (issued_ids _ _ _ (runs_issued _ _ _ _ _ Hr Hsh) _ Hin) as (k & Hk & ->).
  unfold id_of. wrap_lia.
Qed.

Section Runs.
Context (uid : Z) (p0 : Pipe).
Definition start : Stack := mkStack (initial uid) p0.
Context (Hstart : linked start [] [])
  (Hempty : contents (QrmPipeline.world p0) (q_request config m) = []).
Notation runs tr s := (run stack_step start tr s).

Lemma foreign_not_request q : foreign q → q ≠ q_request config m.
Proof. intros [Hn _] ->. apply Hn. left. Qed.

Lemma considerate_polite tr : Forall considerate tr → Forall (polite m foreign) (fronts tr).
Proof.
  intros Hc. apply Forall_fmap. eapply Forall_impl; [done|]. by intros [l|l].
Qed.

(** What the service does next is meant for clients or the workflow. *)
Lemma next_outward tr s l s' :
  run (net_step (Format := Format) config resources m []) (front start) (fronts tr) (front s) →
  Forall considerate tr →
  net_step (Format := Format) config resources m [] (front s) l s' → outward m foreign l.
Proof.
  intros Hf Hc Hs.
  destruct (run_requests config resources m [] (proj1 Hjoined) foreign foreign_not_request
    (QrmPipeline.world p0) uid (proj1 (linked_way _ _ _ Hstart)) Hempty (fronts tr) (front s) Hf
    (considerate_polite _ Hc)) as (_ & _ & ts & _ & Hsub & _).
  eapply outward_label; [exact (run_sys _ _ _ _ _ _ _ Hf)|by eapply net_sys_step|
    by apply considerate_polite|].
  etransitivity; [|apply submitted_attempted]. etransitivity; [|exact Hsub].
  by apply sublist_inserts_r.
Qed.

(** One more step, given the run of the service so far. *)
Lemma step_parts tr s ks rs l s' :
  run (net_step (Format := Format) config resources m []) (front start) (fronts tr) (front s) →
  Forall considerate tr → linked s ks rs → stack_step s l s' →
  net_step (Format := Format) config resources m [] (front s) (front_label l) (front s') ∧
  pipe_step (pipe s) (back_label l) (pipe s') ∧ ∃ ks' rs', linked s' ks' rs'.
Proof.
  destruct Hjoined as (((N1 & N2 & _) & _ & D1 & D2 & _) & _ & _ & _ & Er & Hdisj).
  intros Hr Hc Hlk Hs. pose proof (proj1 (linked_way _ _ _ Hlk)) as Hw.
  assert (∀ s p w', linked (mkStack s (at_world p w')) ks rs →
    (∀ q, q ∈ pipeline → contents w' q = contents (QrmPipeline.world p) q) →
    settled (QrmPipeline.world p) → pipe_step p QrmPipeline.LOther (at_world p w')) as Hother.
  { intros s1 p1 w1 H1' Hq Hw1. destruct p1.
    apply QrmPipeline.step_other; [done|apply (linked_way _ _ _ H1')|done]. }
  destruct Hs as [t task s p w' a Ht Hp|t r s p w' a Ht Hp|s s1 p w' l Hs|s p p' l Hs];
    simpl in *.
  - destruct (handed_in s p t _ task a w' ks rs N1) as [Hlk' _];
      [rewrite Ht; left|done|done|].
    split; [by eapply net_submit|]. split; [|eauto]. eapply Hother; [done| |done].
    intros q Hq. destruct Hp as (st & Hp & _).
    destruct (put_spec t _ task _ st w' Hw N1 Hp) as [_ [[_ ->]|[_ (e & _ & Hcon)]]]; [done|].
    rewrite Hcon, Ht, decide_False, app_nil_r; [done|]. intros ->.
    apply (Hdisj (q_request config m)); [left|done].
  - destruct (handed_in s p t _ r a w' ks rs N2) as [Hlk' _];
      [rewrite Ht; right; left|done|done|].
    destruct Hp as (st & Hp & _).
    assert (∀ q, q ≠ q_control config m →
      contents w' q = contents (QrmPipeline.world p) q) as Hsame.
    { intros q Hq.
      destruct (put_spec t _ r _ st w' Hw N2 Hp) as [_ [[_ ->]|[_ (e & _ & Hcon)]]]; [done|].
      by rewrite Hcon, Ht, decide_False, app_nil_r. }
    split; [|split; [|eauto]].
    + apply net_environment; [done|apply (linked_way _ _ _ Hlk')|].
      intros q ->%list_elem_of_singleton. by apply Hsame.
    + eapply Hother; [done| |done]. intros q Hq. apply Hsame. intros ->.
      apply (Hdisj (q_control config m)); [right; left|done].
  - assert (outward m foreign l) as Ho.
    { eapply (next_outward tr (mkStack s p)); [exact Hr|exact Hc|by apply net_worker]. }
    destruct (front_linked s p l s1 w' ks rs Hlk Ho Hs) as (rs' & Hlk' & _).
    split; [by apply net_worker|]. split; [|eauto]. by eapply worker_step_back.
  - destruct (back_linked s p p' l ks rs Hlk Hs) as (ks' & Hlk' & Hsubk & _).
    split; [|split; [by apply process_is_step|eauto]].
    apply net_environment; [done|apply (linked_way _ _ _ Hlk')|].
    intros q ->%list_elem_of_singleton. simpl.
    destruct (back_inputs s p p' l ks rs (q_request config m) Hlk Hs) as (es & -> & _ & Hes);
      [left|]. by rewrite (Hes D2), app_nil_r.
Qed.

Lemma run_parts tr s :
  runs tr s → Forall considerate tr →
  run (net_step (Format := Format) config resources m []) (front start) (fronts tr) (front s) ∧
  run pipe_step p0 (back_label <$> tr) (pipe s) ∧ ∃ ks rs, linked s ks rs.
Proof.
  induction 1 as [|tr s l s' Hr IH Hs]; intros Hc.
  { split; [constructor|]. split; [constructor|]. by exists [], []. }
  apply Forall_app in Hc as [Hc _]. destruct (IH Hc) as (Hf & Hb & ks & rs & Hlk).
  destruct (step_parts tr s ks rs l s' Hf Hc Hlk Hs) as (Hf' & Hb' & Hlk').
  unfold fronts in *. rewrite !fmap_app. split; [by econstructor|]. split; [by econstructor|done].
Qed.

(** *** Runs in which nothing is lost, and identifiers fit [int32] *)

Definition intact (tr : list StackLabel) : Prop :=
  Forall clean tr ∧ lossless worker_args = true ∧ lossless QrmWorkflow.poll_args = true ∧
  0 <= uid ∧ uid + 10000 * Z.of_nat (count is_issue (service (fronts tr))) < 2147483648.
Definition smooth (tr : list StackLabel) : Prop :=
  Forall considerate tr ∧ short (service (fronts tr)) ∧ intact tr.

Lemma fronts_snoc tr l : fronts (tr ++ [l]) = fronts tr ++ [front_label l].
Proof. unfold fronts. by rewrite fmap_app. Qed.

Lemma smooth_prefix tr l : smooth (tr ++ [l]) → smooth tr.
Proof.
  intros ([Hc _]%Forall_app & Hsh & [Hn _]%Forall_app & Hk1 & Hk2 & Hu0 & Hu).
  rewrite fronts_snoc in *.
  split; [done|]. split; [by eapply short_service|]. unfold intact. split_and!; [done..|].
  rewrite service_snoc in Hu. unfold count in *. rewrite List.filter_app, length_app in Hu. lia.
Qed.

(** A step of the workflow that loses nothing. *)
Lemma back_tokens s p p' l ks rs :
  lossless QrmWorkflow.poll_args = true → linked (mkStack s p) ks rs → process_step p l p' →
  clean (Back l) → in_step s ks rs → ∃ ks' rs', linked (mkStack s p') ks' rs' ∧ in_step s ks' rs'.
Proof.
  destruct Hjoined as (_ & _ & _ & _ & Er & _). intros Hkeep_qrm Hlk Hs Hclean Htok.
  destruct (back_linked s p p' l ks rs Hlk Hs) as (ks' & Hlk' & Hsub & Hlen & _).
  exists ks', (rs ++ results_to (q_result config m) l). split; [done|].
  assert (QrmPipeline.outgoing l ++ ks' = ks) as <-.
  { apply sublist_same_length; [done|]. specialize (Hlen Hkeep_qrm).
    destruct l; simpl in *; try done; lia. }
  unfold in_step in *. rewrite <- Htok. unfold tokens.
  destruct l as [| | | |d r []|]; try done; simpl; rewrite ?app_nil_r; try done.
  pose proof (linked_keys _ _ _ Hlk) as Hk. apply Forall_cons in Hk as [Hd _]. simpl in Hd.
  rewrite decide_True by (by subst d). csimpl. rewrite fmap_app. rewrite <- !app_assoc. simpl.
  repeat (apply Permutation_app_head || rewrite <- Permutation_middle). done.
Qed.

Lemma run_tokens tr s :
  runs tr s → smooth tr → ∃ ks rs, linked s ks rs ∧ in_step (qoffload s) ks rs.
Proof.
  induction 1 as [|tr s l s' Hr IH Hs]; intros Hsm.
  { exists [], []. split; [done|]. unfold in_step, waiting_ids. simpl. by rewrite map_to_list_empty. }
  pose proof (smooth_prefix _ _ Hsm) as Hsm'.
  destruct (IH Hsm') as (ks & rs & Hlk & Htok).
  destruct Hsm as (_ & Hshort & [_ [Hclean _]%Forall_cons]%Forall_app & _).
  destruct Hsm' as (Hc & Hshort' & _ & Hkeep & Hkeep_qrm & Huid & Hfit).
  destruct (run_parts tr s Hr Hc) as (Hf & _).
  destruct (step_parts tr s ks rs l s' Hf Hc Hlk Hs) as (Hf' & _).
  pose proof (linked_way _ _ _ Hlk) as [Hw _].
  destruct Hjoined as (((N1 & N2 & _) & _) & _).
  destruct Hs as [t task s p w' a Ht Hp|t r s p w' a Ht Hp|s s1 p w' l Hs|s p p' l Hs]; simpl in *.
  - exists ks, rs. split; [|done]. apply (handed_in s p t _ task a w' ks rs N1); [rewrite Ht; left|done..].
  - exists ks, rs. split; [|done].
    apply (handed_in s p t _ r a w' ks rs N2); [rewrite Ht; right; left|done..].
  - assert (outward m foreign l) as Ho.
    { eapply (next_outward tr (mkStack s p)); [exact Hf|exact Hc|exact Hf']. }
    destruct (front_linked s p l s1 w' ks rs Hlk Ho Hs) as (rs' & Hlk' & _ & Heq).
    exists (ks ++ QrmPipeline.incoming (back_label (Front l))), rs'. split; [done|].
    destruct (run_delivered config resources _ _ _ (run_sys config resources m [] _ _ _ Hf)) as [Hcor _].
    pose proof (net_run_served config resources m [] _ _ _ Hf) as Hrun.
    eapply front_tokens; [exact Hs|exact Hclean|exact Hcor| | |by apply Heq|done].
    + exact (pending_narrow uid _ _ Hrun Hshort' Huid Hfit).
    + intros ls id -> Hreg. destruct (pending_ (store s) !! id) eqn:Hl; [|done].
      rewrite fronts_snoc, service_snoc in Hshort.
      rewrite (ServiceTypes.not_registered_again config resources uid _ _ ls s1 id Hrun)
        in Hreg; [done| |done|exact (mk_is_Some _ _ Hl)].
      exact (net_step_served config resources m [] _ _ _ Hf').
  - by eapply back_tokens.
Qed.

(** Nothing is left to do anywhere. *)
Definition finished (s : Stack) : Prop :=
  idle (qoffload s) ∧ (∀ q, q ∈ inputs → contents (QrmPipeline.world (pipe s)) q = []) ∧
  under_way (pipe s) [].

Lemma way_nothing (p : Pipe) ks : under_way p ks → under_way p [] → ks = [].
Proof.
  intros (_ & ts & tc & tb & Hts & Htc & Htb & ->) (_ & ts' & tc' & tb' & Hts' & Htc' & Htb' & Hn).
  symmetry in Hn. apply app_nil in Hn as [Hn1 Hn]. apply app_nil in Hn as [Hn2 Hn].
  apply app_nil in Hn as [Hn3 Hn]. apply app_nil in Hn as [Hn4 Hn].
  apply app_nil in Hn as [Hn5 Hn6].
  apply fmap_nil_inv in Hn2 as ->, Hn4 as ->, Hn6 as ->.
  apply Forall2_nil_inv_l in Hts', Htc', Htb'. rewrite Hts' in Hts. rewrite Htc' in Htc.
  rewrite Htb' in Htb. apply Forall2_nil_inv_r in Hts as ->, Htc as ->, Htb as ->.
  by rewrite Hn1, Hn3, Hn5.
Qed.

(** Then no task waits any more. *)
Lemma finished_nothing_waits tr s :
  runs tr s → smooth tr → finished s → ∀ id, pending_ (store (qoffload s)) !! id = None.
Proof.
  intros Hr Hsm ((Ht & Hc & Hres) & Hq & Hway) id.
  destruct (run_tokens tr s Hr Hsm) as (ks & rs & [Hway' Hrs _ _] & Htok).
  rewrite (way_nothing _ _ Hway' Hway) in Htok.
  rewrite Hq in Hrs by (do 2 right; left). apply Forall2_nil_inv_r in Hrs as ->.
  unfold in_step, tokens, waiting_ids in Htok. rewrite Ht, Hc, Hres in Htok. simpl in Htok.
  apply Permutation_nil in Htok. apply fmap_nil_inv, fmap_nil_inv in Htok.
  apply map_to_list_empty_iff in Htok as ->. apply lookup_empty.
Qed.

(** Then every control task has its result, and every request its answer. *)
Lemma finished_stored tr s id :
  runs tr s → smooth tr → finished s →
  LCreated id ∈ service (fronts tr) → LStored id ∈ service (fronts tr).
Proof.
  intros Hr Hsm Hfin Hcr. pose proof (finished_nothing_waits tr s Hr Hsm Hfin) as Hnone.
  destruct Hsm as (Hc & Hsh & _), Hfin as ((_ & _ & Hres) & _).
  pose proof (net_run_served config resources m [] _ _ _ (proj1 (run_parts tr s Hr Hc))) as Hrun.
  pose proof (runs_balance _ _ _ _ _ Hrun Hsh) as [_ HP HF].
  specialize (HP id). specialize (HF id). simpl in HP, HF. rewrite Hres in HF. simpl in HF.
  pose proof (count_pos (Service.registers id) _ _ Hcr ltac:(simpl; by apply bool_decide_true)).
  unfold one in HP. rewrite Hnone, decide_False in HP by apply is_Some_None.
  destruct (count_elem (finishes id) (service (fronts tr)) ltac:(lia)) as (l & Hl & Hfn).
  destruct l as [| | | | | | | | |id'|id' d r acc| |]; try done; simpl in Hfn;
    apply bool_decide_eq_true in Hfn as ->; [done|].
  destruct (prov_delivered _ _ (runs_provenance _ _ _ _ _ Hrun) _ _ _ _ Hl) as (q & Hq' & _).
  by destruct (created_not_registered _ _ _ _ _ _ q Hrun Hsh Hcr).
Qed.

Lemma finished_delivered tr s id q :
  runs tr s → smooth tr → finished s →
  (id, q) ∈ registered (fronts tr) → id ∈ (delivered (fronts tr)).*1.
Proof.
  intros Hr Hsm Hfin Hid. pose proof (finished_nothing_waits tr s Hr Hsm Hfin) as Hnone.
  destruct Hsm as (Hc & Hsh & _), Hfin as ((_ & _ & Hres) & _).
  destruct (registered_in_hand config resources _ _ _ id q
    (run_sys config resources m [] _ _ _ (proj1 (run_parts tr s Hr Hc))) Hsh Hid)
    as [Hp|[[r Hp]|[r Hd]]]; simpl in *; [by rewrite Hnone in Hp|congruence|].
  by apply (list_elem_of_fmap_2 fst) in Hd.
Qed.

(** The requests by identifier, of which the answered ones are some. *)
Lemma finished_registered tr s :
  runs tr s → Forall considerate tr →
  (registered (fronts tr)).*2 ⊆+ submitted (fronts tr) ∧
  (lossless worker_args = true → finished s → (registered (fronts tr)).*2 = submitted (fronts tr)).
Proof.
  intros Hr Hc. destruct (run_parts tr s Hr Hc) as (Hf & _).
  destruct (run_requests config resources m [] (proj1 Hjoined) foreign foreign_not_request
    (QrmPipeline.world p0) uid (proj1 (linked_way _ _ _ Hstart)) Hempty (fronts tr) _ Hf
    (considerate_polite _ Hc)) as (_ & _ & ts & Hts & Hsub & Heq).
  rewrite (run_registered config resources _ _ _ (run_sys config resources m [] _ _ _ Hf)), <- app_assoc in Hsub, Heq. split.
  - apply sublist_submseteq. etransitivity; [|exact Hsub]. by apply sublist_inserts_r.
  - intros Hkeep ((Ht & _) & Hq & _). rewrite <- (Heq Hkeep). simpl in Hts. rewrite Hq in Hts by left.
    apply Forall2_nil_inv_r in Hts as ->. simpl. rewrite Ht. simpl. by rewrite app_nil_r.
Qed.

(** C6. Every request is answered exactly once: while any number of clients, the
    three workers of the service and the three processes of the workflow
    interleave over one network of queues, the direct results sent correspond
    to different requests out of those submitted, each sent to the queue its
    request names under the request's own identifier.  As long as no message is
    lost or rejected, no step of the workflow fails and the identifiers fit the
    messages, exactly one message, in the hands of a worker or a process or in
    a queue, is under way for each task that waits; and once nothing is left to
    do the results sent correspond to all requests, and every control task
    created has its result stored. *)
Theorem stack_exactly_once tr s :
  runs tr s → Forall considerate tr → short (service (fronts tr)) →
  ∃ pairs : list (Z * (QuantumTask * QuantumResult)),
    (delivered (fronts tr)).*2 = (λ x, answer x.2.1 x.2.2) <$> pairs ∧
    NoDup pairs.*1 ∧ pairs.*2.*1 ⊆+ submitted (fronts tr) ∧
    Forall (λ x, QuantumResult.task_id x.2.2 = to_int32 x.1) pairs ∧
    (intact tr →
     (∃ ks rs, linked s ks rs ∧ tokens (qoffload s) ks rs ≡ₚ to_int32 <$> waiting_ids (qoffload s)) ∧
     (finished s → pairs.*2.*1 ≡ₚ submitted (fronts tr) ∧
        ∀ id, LCreated id ∈ service (fronts tr) → LStored id ∈ service (fronts tr))).
Proof.
  intros Hr Hc Hsh.
  destruct (run_parts tr s Hr Hc) as (Hf & _).
  pose proof (run_sys config resources m [] _ _ _ Hf) as Hsys. simpl in Hsys.
  destruct (run_delivered _ _ _ _ _ Hsys) as (_ & rs & _ & Hall).
  destruct (delivered_pairs _ rs _ Hall) as (ps & _ & Hids & Hds & Hreg).
  pose proof (delivered_NoDup _ _ _ _ _ Hsys Hsh) as Hnd. rewrite <- Hids in Hnd.
  pose proof (registered_NoDup _ _ _ _ _ Hsys Hsh) as Hndr.
  destruct (finished_registered tr s Hr Hc) as [Hsub Hfull].
  set (named := (λ x : Z * (QuantumTask * QuantumResult), (x.1, x.2.1)) <$> ps).
  assert (named.*1 = ps.*1 ∧ ps.*2.*1 = named.*2) as [Hfst Hnamed]
    by (unfold named; by rewrite <- !list_fmap_compose).
  assert (NoDup named) as Hnd' by (apply (NoDup_fmap_1 fst); by rewrite Hfst).
  assert (∀ x, x ∈ named → x ∈ registered (fronts tr)) as Hin.
  { intros x (y & -> & Hy)%list_elem_of_fmap. rewrite Forall_forall in Hreg. by apply Hreg. }
  exists ps. rewrite Hnamed. split_and!; [done|done| | |].
  - transitivity (registered (fronts tr)).*2; [|done]. by apply fmap_submseteq, NoDup_submseteq.
  - eapply Forall_impl; [exact Hreg|]. by intros x [_ ?].
  - intros Hi. assert (smooth tr) as Hsm by done. split; [exact (run_tokens tr s Hr Hsm)|].
    intros Hfin. split; [|intros id; exact (finished_stored tr s id Hr Hsm Hfin)].
    rewrite <- (Hfull (proj1 (proj2 Hi)) Hfin).
    apply fmap_Permutation, NoDup_Permutation; [done|by eapply NoDup_fmap_1|].
    intros [id q]. split; [apply Hin|]. intros Hid.
    pose proof (finished_delivered tr s id q Hr Hsm Hfin Hid) as Hd.
    rewrite <- Hids, <- Hfst in Hd. apply list_elem_of_fmap in Hd as ([id' q'] & -> & Hn).
    by rewrite (registered_once _ _ _ _ _ _ q q' Hsys Hsh Hid (Hin _ Hn)).
Qed.

(** ** The whole drains *)

(** The steps the work at hand can still take, at most. *)
Definition task_load (pc : TaskPc) : nat :=
  match pc with TIdle => 0 | TReceived _ => 35 | TRegister _ _ => 34 | TSend _ => 33 end.
Definition control_load (pc : ControlPc) : nat :=
  match pc with
  | CIdle => 0 | CExec _ => 36 | CRegister _ _ _ => 35 | CForward _ _ _ => 34
  | CTake _ _ _ => 2 | CReply _ _ => 1
  end.
Definition result_load (pc : ResultPc) : nat :=
  match pc with RIdle => 0 | RReceived _ => 2 | RStore _ _ | RDeliver _ _ => 1 end.
Definition queued (w : W) : nat :=
  (36 * length (contents w (q_request config m)) + 37 * length (contents w (q_control config m)) +
   3 * length (contents w (q_result config m)))%nat.
Definition load (s : Stack) : nat :=
  (queued (QrmPipeline.world (pipe s)) + task_load (task_pc (qoffload s)) +
   control_load (control_pc (qoffload s)) + result_load (result_pc (qoffload s)) +
   4 * effort (pipe s))%nat.

(** Clients hand in nothing. *)
Definition internal (l : StackLabel) : bool :=
  match l with Front (NSubmitted _ _ | NEnvironment) => false | _ => true end.

(** Control requests that wait are those of considerate clients. *)
Definition courteous (w : W) : Prop :=
  Forall (λ e, ∀ r : APIRequest, decode Format e = inr r → polite m foreign (NControl r))
    (contents w (q_control config m)).

Lemma front_load s p l s' w' ks :
  under_way p ks → outward m foreign l →
  worker_step (Format := Format) config resources m
    (mkNet s (QrmPipeline.world p)) l (mkNet s' w') →
  (load (mkStack s' (at_world p w')) < load (mkStack s p))%nat.
Proof.
  destruct Hjoined as ((_ & _ & D0 & D2 & D3 & _) & _). intros Hway Ho Hs.
  destruct (worker_step_way _ _ _ _ _ _ Hway Ho Hs) as [_ Heff].
  unfold load, queued. simpl. rewrite Heff.
  destruct (inputs_after _ _ _ _ _ (proj1 Hway) Ho Hs)
    as [(q & e & sk & _ & Hr & Hq & _ & Hp)|[Hf Hp]].
  - apply (f_equal length) in Hq. simpl in Hq. rewrite length_app in Hq.
    inversion Hs; subst; simpl in Hr; try done; destruct Hr as [-> _];
      rewrite ?(Hp (q_request config m)), ?(Hp (q_control config m)), ?(Hp (q_result config m))
        by congruence; simpl; lia.
  - rewrite !Hp by (unfold inputs; rewrite !elem_of_cons; auto).
    inversion Hs as [| | | | | | | | | |? ls ? ? Hloc Hlocal]; subst; simpl in *;
      try discriminate Hf; try (destruct accepted; simpl; lia); try lia.
    destruct Hloc; simpl in *; try discriminate Hlocal; try lia. destruct (kind p1); simpl; lia.
Qed.

Lemma back_load s p p' l ks rs :
  linked (mkStack s p) ks rs → process_step p l p' →
  (load (mkStack s p') < load (mkStack s p))%nat.
Proof.
  destruct Hjoined as ((_ & _ & _ & D2 & D3 & _) & _). intros Hlk Hs.
  destruct (back_linked s p p' l ks rs Hlk Hs) as (_ & _ & _ & _ & Heff).
  destruct (back_inputs _ _ _ _ _ _ (q_request config m) Hlk Hs) as (e1 & E1 & _ & N1); [left|].
  destruct (back_inputs _ _ _ _ _ _ (q_control config m) Hlk Hs) as (e2 & E2 & _ & N2);
    [right; left|].
  destruct (back_inputs _ _ _ _ _ _ (q_result config m) Hlk Hs) as (e3 & E3 & L3 & _);
    [do 2 right; left|].
  unfold load, queued. simpl. rewrite E1, E2, E3, (N1 D2), (N2 D3), !length_app. simpl. lia.
Qed.
Lemma courteous_suffix w w' q e sk :
  contents w q = e :: sk ++ contents w' q → (q = q_control config m → courteous w → courteous w').
Proof.
  unfold courteous. intros Hq ->. rewrite Hq. intros [_ Hc]%Forall_cons.
  by apply Forall_app in Hc as [_ ?].
Qed.

(** One step of the workers or the processes. *)
Lemma internal_step tr s l s' :
  runs tr s → Forall considerate tr → courteous (QrmPipeline.world (pipe s)) →
  stack_step s l s' → internal l = true →
  considerate l ∧ courteous (QrmPipeline.world (pipe s')) ∧ (load s' < load s)%nat.
Proof.
  intros Hr Hc Hco Hs Hi. destruct (run_parts tr s Hr Hc) as (Hf & _ & ks & rs & Hlk).
  destruct (step_parts tr s ks rs l s' Hf Hc Hlk Hs) as (Hf' & _).
  pose proof (linked_way _ _ _ Hlk) as Hway.
  destruct Hs as [| |s s1 p w' l Hs|s p p' l Hs]; try discriminate Hi; simpl in *.
  - assert (outward m foreign l) as Ho.
    { eapply (next_outward tr (mkStack s p)); [exact Hf|exact Hc|exact Hf']. }
    assert (considerate (Front l) ∧ courteous w') as [? ?].
    { destruct (inputs_after _ _ _ _ _ (proj1 Hway) Ho Hs)
        as [(q & e & sk & Hin & Hrd & Hq & _ & Hp)|[Hfe Hp]].
      - split.
        + destruct l; try done; simpl in Hrd |- *. destruct Hrd as [-> Hd].
          unfold courteous in Hco. rewrite Hq in Hco. apply Forall_cons in Hco as [Hco _]. by apply Hco.
        + destruct (decide (q = q_control config m)) as [E|E]; [by eapply courteous_suffix|].
          unfold courteous. by rewrite Hp by congruence.
      - split; [by destruct l|]. unfold courteous. by rewrite Hp by (right; left). }
    split_and!; [done..|]. by eapply front_load.
  - destruct (back_inputs _ _ _ _ _ _ (q_control config m) Hlk Hs) as (es & He & _ & Hn);
      [right; left|].
    split_and!; [done| |by eapply back_load]. unfold courteous.
    rewrite He, Hn, app_nil_r; [done|]. apply Hjoined.
Qed.

(** Wherever the system is, there is a step to make, or nothing to do. *)
Lemma stack_progress s ks rs :
  linked s ks rs → int32_fields (Format := Format) →
  finished s ∨ QrmPipeline.halted NDEBUG order (pipe s) ∨
  ∃ l s', stack_step s l s' ∧ internal l = true.
Proof.
  intros Hlk Hint. pose proof (linked_way _ _ _ Hlk) as Hway.
  destruct (net_progress config resources m (proj1 Hjoined) (front s) (proj1 Hway) Hint)
    as [[Hidle Hq]|(l & [s1 w1] & Hs)].
  - destruct ks as [|k ks]; [by left|right].
    destruct (QrmPipeline.progress NDEBUG order qrm scheduler_t compiler_t submitter_t
      (proj1 (proj2 Hjoined)) (pipe s) _ Hway ltac:(done)) as [?|(l & p' & Hs & Hl)]; [by left|right].
    destruct s as [s p]. simpl in Hs. exists (Back l), (mkStack s p'). split; [|done]. apply stack_back.
    destruct Hs; try discriminate Hl; first [by apply process_scheduler|by apply process_compiler|by apply process_submitter].
  - right. right. destruct s as [s p]. exists (Front l), (mkStack s1 (at_world p w1)).
    split; [by apply stack_front|]. by inversion Hs.
Qed.

(** C7. The whole drains: once clients hand in no more, the workers and the
    processes together take at most [load] steps, in whatever order, and
    wherever they are, everything is finished, or the submitter has ended or a
    library call does something undefined, or one of them can take a step: no
    worker and no process waits for ever while there is work. *)
Theorem stack_drains tr0 s tr s' :
  runs tr0 s → Forall considerate tr0 → courteous (QrmPipeline.world (pipe s)) →
  int32_fields (Format := Format) →
  run stack_step s tr s' → Forall (λ l, internal l = true) tr →
  (length tr <= load s)%nat ∧ Forall considerate tr ∧
  (finished s' ∨ QrmPipeline.halted NDEBUG order (pipe s') ∨
   ∃ l s'', stack_step s' l s'' ∧ internal l = true).
Proof.
  intros Hr0 Hc0 Hco Hint Hr Htr.
  assert (runs (tr0 ++ tr) s' ∧ Forall considerate tr ∧
    courteous (QrmPipeline.world (pipe s')) ∧ (length tr + load s' <= load s)%nat)
    as (Hr' & Hc' & _ & Hload).
  { induction Hr as [|tr s1 l s2 Hr IH Hs]; [by rewrite app_nil_r|].
    apply Forall_app in Htr as [Htr [Hi _]%Forall_cons].
    destruct (IH Htr) as (Hr1 & Hc1 & Hco1 & Hl1).
    destruct (internal_step (tr0 ++ tr) s1 l s2) as (Hl & Hco2 & Hless); [done| |done..|].
    { by apply Forall_app. }
    rewrite app_assoc. split_and!; [by econstructor|by apply Forall_app_2; [|constructor]|done|].
    rewrite length_app. simpl. lia. }
  split; [lia|]. split; [done|].
  destruct (run_parts (tr0 ++ tr) s' Hr') as (_ & _ & ks & rs & Hlk); [by apply Forall_app|].
  by eapply stack_progress.
Qed.
End Runs.
End StackNet.

(** ** A concrete run

    A client's request through the service and the workflow and back, every
    process over the in-memory transport. *)

From S2P Require Stack.
Import (hints) InMemoryTransport.
Import (hints) QrmCompiler.TextMlir.
Import (hints) QrmSubmitter.LocalQdmi.
Import (hints) Stack.Demo.

Module Demo.
Import Stack.Demo.
Import InMemoryTransport(World).

#[export] Instance ask_codec : Codec APIRequest Text :=
  checked ServiceNet.Demo.same_ask ServiceNet.Demo.print_ask ServiceNet.Demo.read_ask.
#[export] Instance ask_laws : CodecLaws APIRequest Text.
Proof. apply checked_laws, ServiceNet.Demo.same_ask_eq. Qed.
#[export] Instance ask_plain : PlainCodec APIRequest Text.
Proof.
  split; intros v; [intros e; apply checked_plain|apply checked_not_ok].
  intros r. unfold ServiceNet.Demo.print_ask. by repeat case_match.
Qed.
#[export] Instance status_codec : Codec APIResponse Text :=
  checked ServiceNet.Demo.same_status ServiceNet.Demo.print_status ServiceNet.Demo.read_status.
#[export] Instance status_laws : CodecLaws APIResponse Text.
Proof. apply checked_laws, ServiceNet.Demo.same_status_eq. Qed.
#[export] Instance status_plain : PlainCodec APIResponse Text.
Proof. split; intros v; [intros e; by apply checked_plain|apply checked_not_ok]. Qed.

Definition handles : Messengers := mkMessengers tt tt tt tt tt.
Definition library : QrmSubmitter.LocalQdmi.Library := QrmSubmitter.LocalQdmi.mkLibrary ∅ ∅.
Definition world0 : World := InMemoryTransport.createTransport [].
Definition sent_to {A} `{Codec A Text} (q : string) (v : A) (w : World) : World :=
  (put (Format := Text) tt q v w).2.
Definition got (A : Type) `{Codec A Text} (q : string) (w : World) : World :=
  default w (snd <$> Messenger.receive (Format := Text) (A := A) tt (mkAddress q) worker_args w).

(** The messages on the way. *)
Definition fw : QuantumTask := forwarded_message config 7 request.
Definition fw_compiled : QuantumTask := QrmCompiler.with_circuit_files [circuit] fw.
Definition passes := QrmCompiler.applyOptimizationPasses (F := gmap string string) id fw files.
Definition job := QrmSubmitter.createAndSubmitQDMIJobToQDMIDevice false fw_compiled library.
Definition result : QuantumResult := outcome 7.

(** The queues, message by message. *)
Definition q_in : string := QOffloadConfig.request (queues config).
Definition q_back : string := QOffloadConfig.result (queues config).
Definition q_sched : string := QrmConfig.scheduler (QrmConfig.queues qrm).
Definition q_comp : string := QrmConfig.compiler (QrmConfig.queues qrm).
Definition q_subm : string := QrmConfig.submitter (QrmConfig.queues qrm).
Definition w1 := sent_to q_in request world0.
Definition w2 := got QuantumTask q_in w1.
Definition w3 := sent_to q_sched fw w2.
Definition w4 := got QuantumTask q_sched w3.
Definition w5 := sent_to q_comp fw w4.
Definition w6 := got QuantumTask q_comp w5.
Definition w7 := sent_to q_subm fw_compiled w6.
Definition w8 := got QuantumTask q_subm w7.
Definition w9 := sent_to q_back result w8.
Definition w10 := got QuantumResult q_back w9.
Definition w11 := sent_to "client" answer w10.

Definition pending : PendingTask := pending_of 7 request.
Definition waiting : Sys := mkSys (addDirectTask pending empty_store) (mkForward 7 1) TIdle CIdle RIdle.
Definition idle_pipe (w : World) f (d : QrmSubmitter.LocalQdmi.Library) :=
  QrmPipeline.mkSys (F := gmap string string) w None QrmPipeline.CIdle f QrmPipeline.SIdle d.
Definition start : Stack := mkStack (initial 7) (idle_pipe world0 files library).
Definition submitted1 : Stack := mkStack (initial 7) (idle_pipe w1 files library).
Definition final : Stack :=
  mkStack (mkSys empty_store (mkForward 7 1) TIdle CIdle RIdle) (idle_pipe w11 passes.2 job.2).
Definition rest : list (StackLabel (T := unit) (W := World)) :=
  [Front (NTask request); Front (NStep (LIssue 7)); Front (NStep (LRegister 7 request));
   Front (NStep (LForwarded fw true))] ++
  replicate 7 (Back QrmPipeline.LMoved) ++
  [Back (QrmPipeline.LResult q_back result true); Front (NResult result);
   Front (NStep (LTaken 7 pending)); Front (NStep (LDeliver 7 "client" answer true))].
Definition trace := Front (NSubmitted request true) :: rest.

Notation step := (stack_step (Format := Text) (F := gmap string string) config resources_ handles
  false id qrm tt tt tt).
Ltac evaluated := vm_compute; first [reflexivity|discriminate|repeat constructor].
Ltac putting := eexists; split; [vm_compute; reflexivity|reflexivity].

Lemma stack_found {A} `{CodecLaws A Text} args q (w w' : World) (v : A) :
  (0 < length (contents w (place tt q)))%nat →
  Messenger.receive (Format := Text) (A := A) tt (mkAddress q) args w = Some (inr v, w') →
  found (Format := Text) args tt q w (inr v) w'.
Proof. intros Hl Ht. split; [|exact Ht]. intros Hq. rewrite Hq in Hl. simpl in Hl. lia. Qed.

Lemma demo_submitted : step start (Front (NSubmitted request true)) submitted1.
Proof.
  exact (stack_submit config resources_ handles false id qrm tt tt tt tt request (initial 7)
    (idle_pipe world0 files library) w1 true eq_refl
    ltac:(eexists; split; [vm_compute; reflexivity|reflexivity])).
Qed.

Lemma demo_rest : run step submitted1 rest final.
Proof.
  eapply run_cons; [eapply stack_front, (net_task _ _ _ _ _ _ _ _ w2);
                    [apply stack_found; evaluated|split; [discriminate|reflexivity]]|].
  eapply run_cons; [eapply stack_front, net_local; [apply step_task_issue|done]|].
  eapply run_cons; [eapply stack_front, net_local; [apply step_task_register|done]|].
  eapply run_cons; [eapply stack_front, (net_task_forward _ _ _ _ _ _ _ _ w3); putting|].
  eapply run_cons; [apply stack_back, process_scheduler,
    (QrmPipeline.step_schedule _ _ _ w4 fw), stack_found; evaluated|].
  eapply run_cons; [apply stack_back, process_scheduler,
    (QrmPipeline.step_scheduled _ _ _ w5 success); vm_compute; reflexivity|].
  eapply run_cons; [apply stack_back, process_compiler,
    (QrmPipeline.step_compile _ _ _ _ w6 fw), stack_found; evaluated|].
  eapply run_cons; [apply stack_back, process_compiler,
    (QrmPipeline.step_passes _ _ _ _ _ fw_compiled _ _ passes.2); vm_compute; reflexivity|].
  eapply run_cons; [apply stack_back, process_compiler,
    (QrmPipeline.step_compiled _ _ _ _ w7 success); vm_compute; reflexivity|].
  eapply run_cons; [apply stack_back, process_submitter,
    (QrmPipeline.step_submission _ _ _ _ w8 fw_compiled), stack_found; evaluated|].
  eapply run_cons; [apply stack_back, process_submitter,
    (QrmPipeline.step_job _ _ _ _ _ result _ _ _ _ job.2); vm_compute; reflexivity|].
  eapply run_cons; [apply stack_back, process_submitter,
    (QrmPipeline.step_result _ _ _ _ w9 success); vm_compute; reflexivity|].
  eapply run_cons; [eapply stack_front, (net_result _ _ _ _ _ _ _ _ w10);
                    [apply stack_found; evaluated|split; [discriminate|reflexivity]]|].
  eapply run_cons; [eapply stack_front, net_local; [by eapply step_result_take|done]|].
  apply run_one, stack_front. apply (net_result_deliver _ _ _ _ _ _ _ _ w11). putting.
Qed.

Lemma stack_run : run step start trace final.
Proof. exact (run_cons _ _ _ _ _ _ demo_submitted demo_rest). Qed.

(** Places are strings: membership is decided by evaluation. *)
Ltac apart := apply (bool_decide_unpack _); vm_compute; exact I.

Lemma demo_joined : joined (T := unit) (W := World) config handles qrm tt tt tt.
Proof.
  unfold joined, wired, queues_named, QrmPipeline.connected.
  repeat split; try (vm_compute; congruence).
  intros p Hp. repeat (apply elem_of_cons in Hp as [->|Hp]; [apart|]). by apply elem_of_nil in Hp.
Qed.

Lemma demo_linked : linked (Format := Text) config handles qrm tt tt tt start [] [].
Proof.
  split; simpl; [|done|done|done].
  split; [split; [reflexivity|]; eexists; split; reflexivity|by exists [], [], []].
Qed.

Lemma demo_foreign : foreign config handles qrm tt tt tt (place tt "client" : Place (T := unit) (W := World)).
Proof. split; apart. Qed.

Lemma demo_client accepted :
  considerate config handles qrm tt tt tt (Front (NSubmitted request accepted)).
Proof. split; [discriminate|exact demo_foreign]. Qed.

Lemma demo_considerate : Forall (considerate config handles qrm tt tt tt) trace.
Proof.
  apply Forall_cons. split; [apply demo_client|].
  unfold rest. repeat (apply Forall_cons; split; [exact I|]). apply Forall_nil. exact I.
Qed.

Lemma demo_intact : intact (T := unit) (W := World) 7 trace.
Proof. split; [repeat constructor|]. repeat split; vm_compute; congruence. Qed.

Lemma stack_int32 : int32_fields (Format := Text).
Proof. split; intros e v [= <-]; apply ServiceNet.Demo.read_int32. Qed.

Lemma demo_empty (p : Place (T := unit) (W := World)) :
  p ∈ inputs config handles ++ QrmPipeline.pipeline qrm tt tt tt → contents w11 p = [].
Proof.
  intros Hp. repeat (apply elem_of_cons in Hp as [->|Hp]; [vm_compute; reflexivity|]).
  by apply elem_of_nil in Hp.
Qed.

Lemma stack_settled : settled w11.
Proof. split; [reflexivity|]. eexists. split; reflexivity. Qed.

Lemma demo_finished : finished (Format := Text) config handles qrm tt tt tt final.
Proof.
  split; [done|]. split; [intros p Hp; apply demo_empty, elem_of_app; by left|].
  split; [exact stack_settled|]. exists [], [], [].
  change (QrmPipeline.world (pipe final)) with w11.
  rewrite !demo_empty by (apply elem_of_app; right; unfold QrmPipeline.pipeline; rewrite !elem_of_cons; auto).
  split_and!; [apply Forall2_nil_2..|reflexivity].
Qed.
End Demo.
Import (hints) Demo.

Lemma stack_exactly_once_witness :
  ∃ pairs : list (Z * (QuantumTask * QuantumResult)),
    [("client", Stack.Demo.answer)] = (λ x, answer x.2.1 x.2.2) <$> pairs ∧
    pairs.*2.*1 ≡ₚ [Stack.Demo.request].
Proof.
  destruct (stack_exactly_once (Format := Stack.Demo.Text) (F := gmap string string)
    Stack.Demo.config resources_ Demo.handles false id Stack.Demo.qrm tt tt tt
    (λ l, Permutation_refl l) Demo.demo_joined 7 (pipe Demo.start) Demo.demo_linked eq_refl
    Demo.trace Demo.final Demo.stack_run Demo.demo_considerate eq_refl)
    as (ps & H1 & _ & _ & _ & H2).
  exists ps. split; [exact H1|]. exact (proj1 (proj2 (H2 Demo.demo_intact) Demo.demo_finished)).
Defined.

Lemma stack_drains_witness :
  (length Demo.rest <= load Stack.Demo.config Demo.handles Stack.Demo.qrm tt tt tt Demo.submitted1)%nat.
Proof.
  refine (proj1 (stack_drains (Format := Stack.Demo.Text) (F := gmap string string)
    Stack.Demo.config resources_ Demo.handles false id Stack.Demo.qrm tt tt tt
    (λ l, Permutation_refl l) Demo.demo_joined 7 (pipe Demo.start) Demo.demo_linked eq_refl
    [Front (NSubmitted Stack.Demo.request true)] Demo.submitted1 Demo.rest Demo.final
    (run_one _ _ _ _ Demo.demo_submitted) _ (Forall_nil_2 _) Demo.stack_int32 Demo.demo_rest _)).
  - apply Forall_singleton. exact (Demo.demo_client true).
  - repeat constructor.
Defined.
